(* ===== verification/_CoqProject ===== *)
-Q . S2P
Prelude.v
StdSet.v
Format.v
StringPiece.v
TimeStamp.v
Buffer.v
Channel.v
Poller.v
EventLoop.v
TimerQueue.v
LoopObject.v
TcpConnection.v
ConnEffects.v
LogStream.v
Logging.v
AsyncLogging.v
LogFile.v
LogPipeline.v
Sockets.v
Socket.v
SockAddr.v
Acceptor.v
Thread.v
AsyncOwner.v
EventLoopThread.v
EventLoopThreadPool.v
TcpServer.v
ServerLoops.v
ServerInv.v
ServerOps.v
ServerSafe.v
ServerDispatch.v
ServerRuns.v
ServerEnd.v
ServerFds.v
