(* ===== verification/Prelude.v ===== *)
(** * A verification of highperformance_webserver

    The repository is the core of a reactor network library in the style of
    muduo (one event loop per thread, epoll, non-blocking TCP) with an
    asynchronous logging system.  This library models its classes one file at a
    time and proves what makes each of them correct, or says precisely where it
    is not.

    ** The program

    [TcpServer] owns an [Acceptor] on its base loop and an [EventLoopThreadPool].
    A readable listening socket makes [Acceptor::handleRead] accept a connection
    and call [TcpServer::newConnection], which picks a loop from the pool, makes a
    [TcpConnection] and hands [connectEstablished] to that loop.  An [EventLoop]
    asks its [EpollPoller] for active [Channel]s, lets each dispatch its events,
    then runs the functors other threads queued.  A [TcpConnection] reads into
    and writes out of a [Buffer], switching its channel's events, and reports to
    the callbacks of the user and of the server, which takes the connection out
    of its map and hands [connectDestroyed] to the loop.  A [TimerQueue] is a
    channel on a timerfd.  Log statements build lines in a [LogStream], and
    [AsyncLogging] carries them from the threads that log to the thread that
    writes a [LogFile].

    ** The files

    - [Prelude]: bytes, machine integers, the type [outcome] of operations that
      return or lose the process (with the reason, [fault]), segments of lists
      addressed by offsets, folds of fallible operations, tactics and hints.
    - [StdSet]: std::set over a class of strict total orders.  [Format]: the
      decimal conversions of printf and gmtime_r's calendar.
    - [StringPiece]: include/StringPiece.h, as a pointer into the characters behind
      it and an int length.
    - [TimeStamp]: include/TimeStamp.h, src/TimeStamp.cc.
    - [Buffer]: include/Buffer.h, src/Buffer.cpp.  State: the record [Buffer].
      Specification: a queue of bytes.
    - [Channel]: include/Channel.h, src/Channel.cc (data and event dispatch,
      against the class [ChannelStore] of stores that hold channel objects).
    - [Poller]: include/Poller.h, include/EpollPoller.h and their sources, and the
      operations of [Channel] that reach the poller.  State: the record
      [Reactor], over any kernel with the class [EpollKernel].
    - [EventLoop]: include/EventLoop.h, src/EventLoop.cc, as functions per method
      and as a step relation of the threads.
    - [TimerQueue]: Timer, TimerId and TimerQueue, over a heap of timers.
    - [LoopObject]: the constructor and the destructor of EventLoop with the members
      they build and destroy (poller, timer queue, wakeup channel, the registry of
      one loop per thread), and the members that forward to them.
    - [TcpConnection]: include/TcpConnection.h, src/TcpConnection.cc, against the
      class [EventSource] (what a connection needs of its channel), of which the
      reactor of [Poller] is an instance.
    - [LogStream], [Logging], [AsyncLogging], [LogFile]: the logging system, class by
      class.  [LogPipeline]: its composition, from a statement on any thread to the files.
      [AsyncOwner]: start, stop and the destructor of AsyncLogging, with its [Thread].
    - [Sockets]: Endian, InetAddress and the deciding parts of SocketOops, with an address
      as its members.  [Socket]: the socket calls of SocketOops and the class Socket, over
      any kernel with the class [SocketKernel].  [SockAddr]: the same addresses as bytes in
      memory, some of them indeterminate, reached through the pointer casts.
    - [Thread]: Thread and CurrentThread.  [EventLoopThread]: the handshake of
      startLoop, threadFunc and the destructor, a step relation over the loop of
      [EventLoop].
    - [Acceptor], [EventLoopThreadPool], [TcpServer]: the server side.
    - [ConnEffects], [ServerLoops], [ServerInv], [ServerOps], [ServerSafe],
      [ServerDispatch], [ServerRuns]: the composition.  A [TcpServer], its own loop and
      the loops of its threads, each with one reactor, which carries the loop's channels
      and those of the connections given to it, and one queue of functors.  Each
      connection is run on its loop's reactor by the functions of [TcpConnection], the
      dispatch is that of [Channel], and what a thread hands to another loop
      (connectEstablished, removeConnectionInLoop, connectDestroyed, the calls of other
      threads) goes through that loop's queue.  [ServerLoops] has the state and the
      steps, [ServerInv] the invariant, [ServerOps] that an operation of a connection
      keeps it, [ServerSafe] and [ServerDispatch] that every step does, [ServerRuns] the
      theorems about whole runs.  [ServerEnd]: ~TcpServer on such a state.
    - [ServerFds]: the [Acceptor] and the server on its loops over one table of open
      descriptors.  An accept is both a step of Acceptor::handleRead and, with the
      descriptor it gives to its callback, the dispatch that runs newConnection; the end
      of a connection closes its descriptor.

    A definition carries the name of the method it models; the comment before it
    says what the code does where that is not the name.  A method that may lose
    the process returns an [outcome]; LOG_FATAL is [FAbort].  Objects that are
    shared or deleted live in stores, by address, so that a use after a delete is
    [FUseAfterFree].

    ** The theorems

    - The whole server, with any number of threads: [ServerRuns.server_safe] (no step
      of a run uses a destroyed object, although some functors hold only a this
      pointer, provided the callers keep a discipline that the theorem states and that
      the Examples after it break), [loops_confined] (a thread changes of another loop only
      its queue, and the map only on the server's loop), [map_is_open_connections] (the
      server's map is the set of its open connections, and of those whose removal is
      queued), [new_connections_start] and [closed_connections_go] (a pass over the
      queues establishes every new connection and lets go of every closed one);
      [ServerEnd.server_destruction] (what ~TcpServer leaves, when its loop is quiet:
      which connections it tells, and which a delayed close still reaches).
      [ServerFds.process_refines] discharges what these theorems ask of accept(2) from
      what the kernel promises, up to an accept error on which the code aborts, and
      [descriptors_owned] says who owns and closes each
      open descriptor.  The
      invariant of a connection is proved against an interface, [EventSourceLaws]; a
      second instance of it, [framed_laws], turns each of those proofs into one that the
      connection touches no channel but its own.
    - One connection: [TcpConnection.stream_delivery] (no byte lost, duplicated
      or reordered between the caller and the kernel, under any sequence of
      events and calls), [lifecycle] (the order of the callbacks),
      [sendInLoop_spec] and [output_drains] (partial writes and half-close).  Also
      there: [shutdown_spec], [foreign_send_Buffer_loses], and [connection_teardown]
      (nothing points to a destroyed channel: the composition with [Poller]).
    - The loop: [EventLoop.no_lost_wakeup] (with the one case that waits for the
      poll's timeout) and [functors_fifo] over every interleaving, [loop_round_runs_pending] of the round as a function, and
      [round_refines], which relates the two.  [LoopObject.loop_lifecycle]: from
      construction to destruction, with the timer calls of the loop's own thread and
      channels in between, nothing is leaked or left registered, and the thread may
      have another loop; a failed timerfd_create or eventfd is fatal.
    - The loop's thread: [EventLoopThread.startLoop_returns] (the owner gets the loop
      after a bounded number of steps of each party), [dtor_joins] (when the
      destructor's join ends, and when it cannot) and [dtor_races] (runs in which it
      hangs, or uses the loop after its end).
    - Channels and epoll: [Poller.protocol_safe], [update_follows];
      [Channel.handleEvent_dispatch].
    - Buffers: [Buffer.run_refines_queue], and the exact conditions of
      [append_spec] and [readFd_spec].
    - Timers: [TimerQueue.timers_memory_safe] for any use from any thread, with
      callbacks that add and cancel, but for addTimer's late read and the Timers
      still queued at the end; [handleRead_complete], [getExpired_partition], [batch_cancel] and the missed alarm of
      [cancel_strands_later_timers].  The clock: [TimeStamp.now_order].
    - Logging: [LogStream.convert_spec] and [stream_refines], [Logging.log_spec],
      [LogFile.size_never_rolls], and the composition over every interleaving:
      [LogPipeline.log_reaches_files] (the files and the buffers hold the lines given to
      append, nothing faults, all that was written is flushed) and
      [statements_reach_files] (a round puts every statement's line in the files).
      [AsyncOwner.stop_returns]: whatever calls the owner makes; those that end the
      process are exactly the ones out of turn, and otherwise stop and the destructor
      return after at most three steps of the logging thread, which does not outlive
      the object.
    - Addresses: [SockAddr.address_roundtrip] (what an InetAddress is made of reads back
      from its bytes, through the casts), and [members_are_view] in the same file, which
      justifies the members of [Sockets] and [Socket].
    - The server's parts: [Acceptor.handleRead_spec] (each answer of accept); in
      their files [TcpServer.server_tracks_connections] and
      [EventLoopThreadPool.round_robin].
    - Text: [StringPiece.comparisons_spec] (the comparisons are those of the
      lexicographic order).

    Each theorem with hypotheses is followed by a witness that applies it to a
    concrete state.

    ** Integers, fuel and bounds

    Sizes are size_t (arithmetic modulo 2^64, made exact by the invariants);
    TimeStamp's member is an int ([wrapS 32]); a double is its binary64 value, in
    [spec_float].  Signed overflow is the fault [FIntOverflow].  Two loops of the
    program have no structural measure.  LogStream's convert runs on
    [convert_fuel] = 20 rounds: a 64-bit number has at most 20 digits, and
    [convert_spec] proves the text complete.  AppendFile::append retries until
    fwrite has taken the line; [LogFile.AppendFile_append_spec] proves that it stops on
    enough fuel, for any fwrite that makes progress or reports an error, and
    [log_reaches_files] that every round of the logging thread returns.  The
    event loop's own loop is a step relation, without a bound.

    ** What stands outside

    The kernel and the C library are parameters or arguments: what write(2),
    readv(2), accept(2), epoll_wait(2), fwrite and the clocks answer, with the
    documented behaviour a theorem needs as its hypothesis or as the laws of a
    class ([EpollKernel], with an instance).  accept(2) and open(2) may fail in any
    way; epoll_ctl(2) fails on a descriptor that is registered or cannot be, and the
    laws leave out a kernel without memory for another watch; write(2) answers EPIPE
    after SHUT_WR, as it does in a process that ignores SIGPIPE, which the program
    does not arrange.  User callbacks are known by the calls they make back into the
    object they are called by.  Critical sections are atomic steps; unsynchronised
    reads, such as that of state_ from another thread, are atomic too, so the C++
    data races themselves are not modelled.

    Not modelled: DefaultPoller (its one function returns no value; the poller is
    taken to be the EpollPoller), the headers that only name types (Callbacks,
    Noncopyable), and the log statements inside the other classes, which are taken to
    return (LOG_FATAL aborts).  Where the code reads errno after one, the errno it
    leaves is an input of the step ([TcpConnection.WriteError], [Acceptor.handleRead]),
    and the one of readTimerfd, undefined at the level DEBUG, is part of
    [TimerQueue.handleRead].

    In the composition a step of a loop is the dispatch of one channel or the run of
    one functor.  A call from another thread is one step ([WCall]) or its store and its
    queueing apart ([WStore], [WPost]), with anything in between.  The theorems about
    runs ask of the callers what [ServerLoops.legal_step] states: reading is not started
    from another thread, nothing that only knows the this pointer is queued for a
    connection the loop has closed, and no store of kDisconnecting follows the loop's
    close.  The code enforces none of this, and the Examples
    [ServerRuns.foreign_stopRead_dangles], [late_stopRead_registers], [late_send_dangles],
    [foreign_startRead_closes_twice] and [late_store_closes_twice] show what follows
    otherwise.  A user callback that calls another connection in the middle of an
    operation is not a step of it.  What can go wrong after ~TcpServer are the Examples
    [TcpConnection.server_gone_close], [ServerEnd.close_after_server] and
    [ServerEnd.delayed_close_after_server]. *)

From stdpp Require Export base list numbers option strings gmap.
From Stdlib Require Export ZArith Lia.
From Stdlib Require Export Ascii.
From Stdlib Require String.

#[global] Set Default Goal Selector "1".

Declare Scope reactor_scope.
Delimit Scope reactor_scope with reactor.
#[global] Open Scope Z_scope.

(** ** Bytes and text *)

(** A [char] of the program; [char] buffers are lists of them. *)
Abbreviation bytes := (list ascii).

(** The bytes of a string literal. *)
Definition txt (s : string) : bytes := String.list_ascii_of_string s.

(** Length in [Z], the type the models compute sizes in. *)
Definition zlen {A} (l : list A) : Z := Z.of_nat (length l).

(** ** Machine integers *)

(** Conversion to an unsigned type of [w] bits. *)
Definition wrapU (w z : Z) : Z := z mod 2 ^ w.

(** Conversion to a two's complement signed type of [w] bits. *)
Definition wrapS (w z : Z) : Z := (z + 2 ^ (w - 1)) mod 2 ^ w - 2 ^ (w - 1).

(** The values of the types. *)
Definition inU (w z : Z) : Prop := 0 <= z < 2 ^ w.
Definition inS (w z : Z) : Prop := - 2 ^ (w - 1) <= z < 2 ^ (w - 1).

(** Decidable forms, used where the code's arithmetic is undefined out of range. *)
Definition inSb (w z : Z) : bool := (- 2 ^ (w - 1) <=? z) && (z <? 2 ^ (w - 1)).

Lemma inSb_spec w z : inSb w z = true <-> inS w z.
Proof. unfold inSb, inS. rewrite andb_true_iff, Z.leb_le, Z.ltb_lt. tauto. Qed.

Lemma wrapU_range w z : 0 <= w -> inU w (wrapU w z).
Proof. intros. apply Z.mod_pos_bound. apply Z.pow_pos_nonneg; lia. Qed.

Lemma wrapU_id w z : inU w z -> wrapU w z = z.
Proof. apply Z.mod_small. Qed.

Lemma pow2_half w : 0 < w -> 2 ^ w = 2 * 2 ^ (w - 1).
Proof. intros. rewrite <- Z.pow_succ_r by lia. f_equal. lia. Qed.

Lemma wrapS_range w z : 0 < w -> inS w (wrapS w z).
Proof.
  intros Hw. unfold inS, wrapS. pose proof (pow2_half w Hw).
  pose proof (Z.pow_pos_nonneg 2 (w - 1)).
  pose proof (Z.mod_pos_bound (z + 2 ^ (w - 1)) (2 ^ w)). lia.
Qed.

Lemma wrapS_id w z : 0 < w -> inS w z -> wrapS w z = z.
Proof.
  intros Hw [? ?]. unfold wrapS. pose proof (pow2_half w Hw).
  rewrite Z.mod_small; lia.
Qed.

(** ** Outcomes: a C++ operation returns, or the process is lost *)

Inductive fault : Set :=
| FAbort          (* LOG_FATAL: the logger's destructor calls abort() *)
| FOutOfBounds    (* an access outside the storage of an array *)
| FNullDeref      (* a null pointer is dereferenced *)
| FUseAfterFree   (* a destroyed object is used *)
| FBadFunction    (* an empty std::function is called *)
| FIntOverflow    (* signed overflow, or an out-of-range float conversion *)
| FEmptyVector    (* back() or pop_back() on an empty vector *)
| FBadAlloc       (* operator new throws std::bad_alloc *)
| FIndeterminate  (* an object that was never written to is read *)
| FBadFormat.     (* printf is given a format it does not define *)

Inductive outcome (A : Type) : Type :=
| Ok (a : A)
| Fault (f : fault).
Arguments Ok {A} _.
Arguments Fault {A} _.

#[global] Instance fault_eq_dec : EqDecision fault.
Proof. solve_decision. Defined.
#[global] Instance outcome_eq_dec `{EqDecision A} : EqDecision (outcome A).
Proof. solve_decision. Defined.

#[global] Instance outcome_ret : MRet outcome := fun A => @Ok A.
#[global] Instance outcome_bind : MBind outcome :=
  fun A B f m => match m with Ok a => f a | Fault e => Fault e end.
#[global] Instance outcome_fmap : FMap outcome :=
  fun A B f m => match m with Ok a => Ok (f a) | Fault e => Fault e end.

(** [require b f] continues when [b] holds and stops with [f] otherwise. *)
Definition require (b : bool) (f : fault) : outcome unit :=
  if b then Ok tt else Fault f.

(** [is_ok]: the operation returned. *)
Definition is_ok {A} (m : outcome A) : bool :=
  match m with Ok _ => true | Fault _ => false end.

Lemma bind_ok {A B} (m : outcome A) (f : A -> outcome B) b :
  (m ≫= f) = Ok b <-> exists a, m = Ok a /\ f a = Ok b.
Proof.
  destruct m as [a|e]; simpl; split.
  - intros Hf. by exists a.
  - by intros (? & [= ->] & ?).
  - done.
  - by intros (? & ? & ?).
Qed.

Lemma require_ok b f : require b f = Ok tt <-> b = true.
Proof. by destruct b. Qed.

(** ** Segments of a list addressed by [Z] offsets *)

(** The [n] elements from offset [i]. *)
Definition slice {A} (i n : Z) (l : list A) : list A :=
  take (Z.to_nat n) (drop (Z.to_nat i) l).

(** [l] with [d] written over it from offset [i] (all of it inside [l]). *)
Definition write_at {A} (i : Z) (d l : list A) : list A :=
  take (Z.to_nat i) l ++ d ++ drop (Z.to_nat (i + zlen d)) l.

Lemma zlen_nonneg {A} (l : list A) : 0 <= zlen l.
Proof. unfold zlen. lia. Qed.

Lemma zlen_nil {A} : zlen (@nil A) = 0.
Proof. reflexivity. Qed.

Lemma zlen_cons {A} (x : A) l : zlen (x :: l) = 1 + zlen l.
Proof. unfold zlen. simpl. lia. Qed.

Lemma zlen_app {A} (l k : list A) : zlen (l ++ k) = zlen l + zlen k.
Proof. unfold zlen. rewrite length_app. lia. Qed.

Lemma zlen_take {A} n (l : list A) : zlen (take n l) = Z.min (Z.of_nat n) (zlen l).
Proof. unfold zlen. rewrite length_take. lia. Qed.

Lemma zlen_drop {A} n (l : list A) : zlen (drop n l) = Z.max 0 (zlen l - Z.of_nat n).
Proof. unfold zlen. rewrite length_drop. lia. Qed.

Lemma zlen_replicate {A} n (x : A) : zlen (replicate n x) = Z.of_nat n.
Proof. unfold zlen. rewrite length_replicate. done. Qed.

Lemma zlen_0_nil {A} (l : list A) : zlen l = 0 -> l = [].
Proof. destruct l; [done|]. rewrite zlen_cons. pose proof (zlen_nonneg l). lia. Qed.

Create Rewrite HintDb zlen.
#[export] Hint Rewrite @zlen_nil @zlen_cons @zlen_app @zlen_take @zlen_drop
  @zlen_replicate : zlen.

(** Arithmetic about sizes: normalise the lengths, recall they are not
    negative, and call [lia]. *)
Ltac zlen_facts :=
  repeat match goal with
  | |- context [ zlen ?l ] =>
      lazymatch goal with
      | _ : 0 <= zlen l |- _ => fail
      | _ => pose proof (zlen_nonneg l)
      end
  | H : context [ zlen ?l ] |- _ =>
      lazymatch goal with
      | _ : 0 <= zlen l |- _ => fail
      | _ => pose proof (zlen_nonneg l)
      end
  end.
Ltac zlia := autorewrite with zlen in *; zlen_facts; lia.

Lemma slice_zlen {A} i n (l : list A) :
  0 <= i -> 0 <= n -> i + n <= zlen l -> zlen (slice i n l) = n.
Proof. intros. unfold slice. zlia. Qed.

Lemma slice_0 {A} i (l : list A) : slice i 0 l = [].
Proof. done. Qed.

Lemma slice_slice {A} i n j m (l : list A) :
  0 <= i -> 0 <= j -> 0 <= m -> j + m <= n ->
  slice j m (slice i n l) = slice (i + j) m l.
Proof.
  intros. unfold slice.
  rewrite drop_take_drop || rewrite skipn_firstn_comm.
  rewrite take_take, drop_drop. f_equal; [lia | f_equal; lia].
Qed.

Lemma slice_split {A} i n m (l : list A) :
  0 <= i -> 0 <= n -> 0 <= m ->
  slice i (n + m) l = slice i n l ++ slice (i + n) m l.
Proof.
  intros. unfold slice.
  rewrite <- (take_drop (Z.to_nat n) (take (Z.to_nat (n + m)) (drop (Z.to_nat i) l))).
  rewrite take_take, skipn_firstn_comm, drop_drop.
  f_equal; f_equal; try lia. f_equal. lia.
Qed.

Lemma write_at_zlen {A} i (d l : list A) :
  0 <= i -> i + zlen d <= zlen l -> zlen (write_at i d l) = zlen l.
Proof. intros. unfold write_at. zlia. Qed.

(** What is left of the written segment is unchanged. *)
Lemma slice_write_before {A} i j n (d l : list A) :
  0 <= j -> 0 <= n -> j + n <= i -> i + zlen d <= zlen l ->
  slice j n (write_at i d l) = slice j n l.
Proof.
  intros. zlen_facts. unfold slice, write_at.
  rewrite drop_app_le by (rewrite length_take; unfold zlen in *; lia).
  rewrite take_app_le by (rewrite length_drop, length_take; unfold zlen in *; lia).
  rewrite skipn_firstn_comm, take_take. f_equal. lia.
Qed.

Lemma slice_write_after {A} i j n (d l : list A) :
  0 <= i -> i + zlen d <= j -> 0 <= n -> i + zlen d <= zlen l ->
  slice j n (write_at i d l) = slice j n l.
Proof.
  intros. zlen_facts. unfold slice, write_at. unfold zlen in *.
  rewrite drop_app_ge by (rewrite length_take; lia).
  rewrite drop_app_ge by (rewrite length_take; lia).
  rewrite drop_drop, length_take. do 2 f_equal. lia.
Qed.

(** The written segment reads back. *)
Lemma slice_write_same {A} i (d l : list A) :
  0 <= i -> i + zlen d <= zlen l -> slice i (zlen d) (write_at i d l) = d.
Proof.
  intros. unfold slice, write_at, zlen in *. rewrite Nat2Z.id.
  rewrite drop_app_length' by (rewrite length_take; lia).
  by rewrite take_app_length.
Qed.

(** A loop over a list whose body may fault. *)
Fixpoint mfold {S A} (f : S -> A -> outcome S) (s : S) (l : list A) : outcome S :=
  match l with
  | [] => Ok s
  | x :: l => s ← f s x; mfold f s l
  end.

Lemma mfold_app {S A} (f : S -> A -> outcome S) s l k :
  mfold f s (l ++ k) = (s ← mfold f s l; mfold f s k).
Proof.
  revert s. induction l as [|x l IH]; intros s; simpl; [done|].
  destruct (f s x); simpl; [apply IH | done].
Qed.

(** ** Reasoning about operations that may fault

    [wp E P m]: if [m] returns, its result satisfies [P]; if it faults, the fault
    is one of [E].  With [E] empty, [m] returns. *)
Definition wp {A} (E : fault -> Prop) (P : A -> Prop) (m : outcome A) : Prop :=
  match m with Ok a => P a | Fault f => E f end.

(** No use of a destroyed object. *)
Definition memory_safe (f : fault) : Prop := f <> FUseAfterFree.
Definition no_fault (f : fault) : Prop := False.

Lemma wp_mono {A} (E : fault -> Prop) (P Q : A -> Prop) m :
  wp E P m -> (forall a, P a -> Q a) -> wp E Q m.
Proof. destruct m; simpl; auto. Qed.

Lemma wp_fault {A} (E F : fault -> Prop) (P : A -> Prop) m :
  wp E P m -> (forall f, E f -> F f) -> wp F P m.
Proof. destruct m; simpl; auto. Qed.

Lemma wp_bind {A B} (E : fault -> Prop) (Q : A -> Prop) (P : B -> Prop)
    (m : outcome A) (f : A -> outcome B) :
  wp E Q m -> (forall a, Q a -> wp E P (f a)) -> wp E P (m ≫= f).
Proof. destruct m; simpl; auto. Qed.

Lemma wp_no_fault {A} (P : A -> Prop) m :
  wp no_fault P m -> exists a, m = Ok a /\ P a.
Proof. destruct m; simpl; [eauto | done]. Qed.

Lemma wp_mfold {S A} (E : fault -> Prop) (P : list A -> S -> Prop)
    (f : S -> A -> outcome S) l s :
  P l s ->
  (forall x l' s, P (x :: l') s -> wp E (P l') (f s x)) ->
  wp E (P []) (mfold f s l).
Proof.
  intros Hs Hstep. revert s Hs. induction l as [|x l IH]; simpl; intros s Hs; [done|].
  eapply wp_bind; [by apply Hstep | apply IH].
Qed.
