(* ===== verification/StdSet.v ===== *)
(** std::set over a strict total order: the operations the program uses
    (insert, erase, find, begin, lower_bound, range erase), on the sequence of
    elements an iteration visits.  [TimerQueue] keeps its two timer sets in it.
    The order is a class, with the instance std::pair's operator< builds. *)

From S2P Require Import Prelude.
From Stdlib Require Import Sorted.

(** A comparison that behaves like the operator< of a totally ordered key. *)
Class StrictTotal {A} (ltb : A -> A -> bool) : Prop := {
  ltb_irrefl x : ltb x x = false;
  ltb_trans x y z : ltb x y = true -> ltb y z = true -> ltb x z = true;
  ltb_total x y : ltb x y = false -> ltb y x = false -> x = y;
}.

(** std::pair's operator<: the first components decide, unless neither is
    smaller. *)
Definition pair_ltb {A B} (lt1 : A -> A -> bool) (lt2 : B -> B -> bool)
    (p q : A * B) : bool :=
  lt1 p.1 q.1 || (negb (lt1 q.1 p.1) && lt2 p.2 q.2).

#[export] Instance Zltb_strict : StrictTotal Z.ltb.
Proof. split; intros; rewrite ?Z.ltb_lt, ?Z.ltb_ge in *; lia. Qed.

Section order.
Context {A} (ltb : A -> A -> bool) `{!StrictTotal ltb}.

Lemma ltb_asym x y : ltb x y = true -> ltb y x = false.
Proof.
  intros Hxy. destruct (ltb y x) eqn:Hyx; [|done].
  pose proof (ltb_trans (ltb := ltb) x y x Hxy Hyx) as Hxx.
  by rewrite ltb_irrefl in Hxx.
Qed.

Lemma ltb_trichotomy x y : ltb x y = true \/ x = y \/ ltb y x = true.
Proof.
  destruct (ltb x y) eqn:?; [by left|]. destruct (ltb y x) eqn:?; [by right; right|].
  right; left. by apply (ltb_total (ltb := ltb)).
Qed.
End order.

#[export] Instance pair_strict {A B} (lt1 : A -> A -> bool) (lt2 : B -> B -> bool) :
  StrictTotal lt1 -> StrictTotal lt2 -> StrictTotal (pair_ltb lt1 lt2).
Proof.
  intros H1 H2. unfold pair_ltb. split.
  - intros [a b]. simpl. by rewrite !ltb_irrefl.
  - intros [a b] [c d] [e f]; simpl.
    destruct (ltb_trichotomy lt1 a c) as [Hac|[->|Hac]],
      (ltb_trichotomy lt1 c e) as [Hce|[->|Hce]];
      rewrite ?Hac, ?Hce, ?ltb_irrefl, ?(ltb_asym lt1 _ _ Hac), ?(ltb_asym lt1 _ _ Hce);
      simpl; try done; try (by rewrite (ltb_trans _ _ _ Hac Hce)).
    intros Hbd Hdf. by rewrite (ltb_trans _ _ _ Hbd Hdf).
  - intros [a b] [c d]; simpl. rewrite !orb_false_iff, !andb_false_iff, !negb_false_iff.
    intros [Hac [Hx|Hx]] [Hca [Hy|Hy]]; try congruence.
    f_equal; by apply (ltb_total (ltb := _)).
Qed.

Section stdset.
Context {A} (ltb : A -> A -> bool).

(** insert: a new element goes before the first larger one; an equivalent
    element leaves the set as it is. *)
Fixpoint set_insert (x : A) (s : list A) : list A :=
  match s with
  | [] => [x]
  | y :: s' =>
      if ltb x y then x :: s
      else if ltb y x then y :: set_insert x s'
      else s
  end.

(** erase(key). *)
Fixpoint set_erase (x : A) (s : list A) : list A :=
  match s with
  | [] => []
  | y :: s' =>
      if ltb y x then y :: set_erase x s'
      else if ltb x y then s
      else s'
  end.

(** find(key) != end(). *)
Fixpoint set_mem (x : A) (s : list A) : bool :=
  match s with
  | [] => false
  | y :: s' => if ltb y x then set_mem x s' else negb (ltb x y)
  end.

(** [begin(), lower_bound(key)): the elements smaller than the key. *)
Fixpoint set_below (x : A) (s : list A) : list A :=
  match s with
  | [] => []
  | y :: s' => if ltb y x then y :: set_below x s' else []
  end.

(** [lower_bound(key), end()): what is left once that range is erased. *)
Fixpoint set_from (x : A) (s : list A) : list A :=
  match s with
  | [] => []
  | y :: s' => if ltb y x then set_from x s' else s
  end.

(** The set's representation invariant: strictly increasing. *)
Definition sorted (s : list A) : Prop := StronglySorted (fun x y => ltb x y = true) s.

Context `{!StrictTotal ltb}.

Lemma sorted_nil : sorted [].
Proof. constructor. Qed.

Lemma sorted_cons x s :
  sorted (x :: s) <-> (forall y, y ∈ s -> ltb x y = true) /\ sorted s.
Proof.
  split.
  - intros H. inversion H as [|? ? ? Hall]; subst. split; [|done].
    intros y. rewrite List.Forall_forall in Hall. intros. by apply Hall, list_elem_of_In.
  - intros [? ?]. constructor; [done|]. apply List.Forall_forall. intros.
    by apply H, list_elem_of_In.
Qed.

Lemma elem_of_set_insert x y s : y ∈ set_insert x s <-> y = x \/ y ∈ s.
Proof.
  induction s as [|z s IH]; simpl; [set_solver|].
  destruct (ltb x z) eqn:Hxz; [set_solver|].
  destruct (ltb z x) eqn:Hzx; [set_solver|].
  pose proof (ltb_total x z Hxz Hzx). set_solver.
Qed.

Lemma set_insert_sorted x s : sorted s -> sorted (set_insert x s).
Proof.
  induction s as [|z s IH]; simpl; intros Hs.
  { apply sorted_cons. split; [set_solver | done]. }
  pose proof Hs as Hs0. apply sorted_cons in Hs as [Hz Hs].
  destruct (ltb x z) eqn:Hxz; [|destruct (ltb z x) eqn:Hzx; [|done]].
  - apply sorted_cons. split; [|done]. intros y [->|Hy]%elem_of_cons; [done|].
    apply (ltb_trans x z y); auto.
  - apply sorted_cons. split; [|by apply IH].
    intros y [->|Hy]%elem_of_set_insert; auto.
Qed.

Lemma elem_of_set_erase x y s : sorted s -> (y ∈ set_erase x s <-> y ∈ s /\ y <> x).
Proof.
  induction s as [|z s IH]; simpl; intros Hs; [set_solver|].
  apply sorted_cons in Hs as [Hz Hs]. specialize (IH Hs).
  destruct (ltb z x) eqn:Hzx.
  { rewrite !elem_of_cons, IH. split; [|tauto]. intros [->|?]; [|tauto].
    split; [by left|]. intros ->. by rewrite ltb_irrefl in Hzx. }
  destruct (ltb x z) eqn:Hxz.
  { split; [|tauto]. intros Hy. split; [done|]. intros ->.
    apply elem_of_cons in Hy as [->|Hy]; [by rewrite ltb_irrefl in Hxz|].
    apply Hz in Hy. by rewrite (ltb_asym ltb _ _ Hxz) in Hy. }
  pose proof (ltb_total z x Hzx Hxz) as ->. rewrite elem_of_cons. split; [|naive_solver].
  intros Hy. split; [by right|]. intros ->. apply Hz in Hy. by rewrite ltb_irrefl in Hy.
Qed.

Lemma set_erase_subseteq x y s : y ∈ set_erase x s -> y ∈ s.
Proof.
  induction s as [|z s IH]; simpl; [done|].
  destruct (ltb z x); [set_solver|]. destruct (ltb x z); set_solver.
Qed.

Lemma set_erase_sorted x s : sorted s -> sorted (set_erase x s).
Proof.
  induction s as [|z s IH]; simpl; intros Hs; [done|].
  pose proof Hs as Hs0. apply sorted_cons in Hs as [Hz Hs].
  destruct (ltb z x); [|by destruct (ltb x z)].
  apply sorted_cons. split; [|auto]. intros y Hy. apply Hz. by eapply set_erase_subseteq.
Qed.

Lemma set_mem_spec x s : sorted s -> (set_mem x s = true <-> x ∈ s).
Proof.
  induction s as [|z s IH]; simpl; intros Hs; [by rewrite elem_of_nil|].
  apply sorted_cons in Hs as [Hz Hs]. specialize (IH Hs). rewrite elem_of_cons.
  destruct (ltb z x) eqn:Hzx.
  { rewrite IH. split; [tauto|]. intros [->|?]; [|done]. by rewrite ltb_irrefl in Hzx. }
  destruct (ltb x z) eqn:Hxz; simpl.
  - split; [done|]. intros [->|Hx%Hz]; [by rewrite ltb_irrefl in Hxz | congruence].
  - split; [|done]. intros _. left. by apply (ltb_total (ltb := ltb)).
Qed.

Lemma set_below_from x s : s = set_below x s ++ set_from x s.
Proof.
  induction s as [|z s IH]; simpl; [done|]. destruct (ltb z x); simpl; congruence.
Qed.

Lemma elem_of_set_below x y s :
  sorted s -> (y ∈ set_below x s <-> y ∈ s /\ ltb y x = true).
Proof.
  induction s as [|z s IH]; simpl; intros Hs; [set_solver|].
  apply sorted_cons in Hs as [Hz Hs]. specialize (IH Hs).
  destruct (ltb z x) eqn:Hzx; [rewrite !elem_of_cons, IH; naive_solver|].
  split; [set_solver|]. intros [[->|Hy]%elem_of_cons Hyx]; [congruence|].
  apply Hz in Hy. by rewrite (ltb_trans z y x) in Hzx.
Qed.

Lemma elem_of_set_from x y s :
  sorted s -> (y ∈ set_from x s <-> y ∈ s /\ ltb y x = false).
Proof.
  induction s as [|z s IH]; simpl; intros Hs; [set_solver|].
  apply sorted_cons in Hs as [Hz Hs]. specialize (IH Hs).
  destruct (ltb z x) eqn:Hzx.
  { rewrite IH, elem_of_cons. split; [tauto|]. intros [[->|?] ?]; [congruence|done]. }
  split; [|tauto]. intros Hy. split; [done|].
  apply elem_of_cons in Hy as [->|Hy]; [done|]. destruct (ltb y x) eqn:Hyx; [|done].
  apply Hz in Hy. by rewrite (ltb_trans z y x) in Hzx.
Qed.

Lemma sorted_app s t : sorted (s ++ t) -> sorted s /\ sorted t.
Proof.
  induction s as [|x s IH]; simpl; [intros; split; [constructor|done]|].
  rewrite !sorted_cons. intros [Hx [? ?]%IH]. split; [|done]. split; [|done].
  intros. apply Hx. set_solver.
Qed.

Lemma set_below_sorted x s : sorted s -> sorted (set_below x s).
Proof. rewrite (set_below_from x s) at 1. intros [? _]%sorted_app. done. Qed.

Lemma set_from_sorted x s : sorted s -> sorted (set_from x s).
Proof. rewrite (set_below_from x s) at 1. intros [_ ?]%sorted_app. done. Qed.

Lemma sorted_NoDup s : sorted s -> NoDup s.
Proof.
  induction s as [|x s IH]; [constructor|]. rewrite sorted_cons. intros [Hx ?].
  constructor; [|auto]. intros Hin%Hx. by rewrite ltb_irrefl in Hin.
Qed.

Lemma set_erase_insert x s : x ∉ s -> set_erase x (set_insert x s) = s.
Proof.
  induction s as [|z s IH]; simpl; intros Hx; [by rewrite ltb_irrefl|].
  apply not_elem_of_cons in Hx as [Hne Hx].
  destruct (ltb x z) eqn:Hxz; simpl; [by rewrite ltb_irrefl|].
  destruct (ltb z x) eqn:Hzx; simpl; [rewrite Hzx; f_equal; auto|].
  by destruct Hne; apply (ltb_total (ltb := ltb)).
Qed.

Lemma set_mem_insert x s : sorted s -> set_mem x (set_insert x s) = true.
Proof.
  intros Hs. apply set_mem_spec; [by apply set_insert_sorted|].
  apply elem_of_set_insert. by left.
Qed.

(** begin() is the least element. *)
Lemma sorted_head_least x s y : sorted (x :: s) -> y ∈ x :: s -> y = x \/ ltb x y = true.
Proof. intros [Hx _]%sorted_cons [->|?]%elem_of_cons; auto. Qed.
End stdset.

Create HintDb stdset.
#[export] Hint Resolve set_insert_sorted set_erase_sorted set_from_sorted
  set_below_sorted sorted_nil : stdset.
