(* ===== verification/Format.v ===== *)
(** Decimal rendering, as the printf family does it: the conversions %d, %u,
    %4d and %0Nd the program's format strings use, a reader for them, and the
    broken-down UTC time gmtime_r computes.  [LogStream] proves its own integer
    conversion equal to [sdec]; [TcpServer], [TimeStamp] and [LogFile] build
    names and dates with these functions. *)

From S2P Require Import Prelude.

(** The character of a digit 0..9. *)
Definition digit_char (d : Z) : ascii := ascii_of_nat (48 + Z.to_nat d).
Definition char_digit (c : ascii) : Z := Z.of_nat (nat_of_ascii c) - 48.
Definition is_digit (c : ascii) : bool := (0 <=? char_digit c) && (char_digit c <=? 9).

(** Decimal digits, least significant first; [dec_fuel] iterations are enough. *)
Fixpoint dec_le (fuel : nat) (n : Z) : bytes :=
  match fuel with
  | O => []
  | S k => digit_char (n mod 10) :: (if n <? 10 then [] else dec_le k (n / 10))
  end.
Definition dec_fuel (n : Z) : nat := S (Z.to_nat (Z.log2 n)).

(** %u *)
Definition udec (n : Z) : bytes := rev (dec_le (dec_fuel n) n).
(** %d *)
Definition sdec (z : Z) : bytes := if z <? 0 then "-"%char :: udec (- z) else udec z.

(** Padding on the left to a width. *)
Definition pad_left (c : ascii) (w : nat) (l : bytes) : bytes :=
  replicate (w - length l) c ++ l.
(** %wd *)
Definition fmt_d (w : nat) (z : Z) : bytes := pad_left " "%char w (sdec z).
(** %0wd: the sign comes first and counts in the width. *)
Definition fmt_0d (w : nat) (z : Z) : bytes :=
  if z <? 0 then "-"%char :: pad_left "0"%char (w - 1) (udec (- z))
  else pad_left "0"%char w (udec z).

(** Reading a number back. *)
Fixpoint read_le (l : bytes) : Z :=
  match l with [] => 0 | c :: l => char_digit c + 10 * read_le l end.
Definition read_u (l : bytes) : Z := read_le (rev l).
Definition read_s (l : bytes) : Z :=
  match l with
  | c :: l' => if decide (c = "-"%char) then - read_u l' else read_u l
  | [] => 0
  end.

(** snprintf(buf, n, ...): what the buffer holds, truncated to [n - 1]. *)
Definition snprintf (n : Z) (s : bytes) : bytes := take (Z.to_nat (n - 1)) s.

(** ** Lemmas *)

Lemma char_digit_char d : 0 <= d <= 9 -> char_digit (digit_char d) = d.
Proof.
  intros. unfold char_digit, digit_char. rewrite nat_ascii_embedding; lia.
Qed.

Lemma is_digit_char d : 0 <= d <= 9 -> is_digit (digit_char d) = true.
Proof.
  intros. unfold is_digit. rewrite char_digit_char by done.
  apply andb_true_iff. rewrite !Z.leb_le. lia.
Qed.

Lemma mod10_range n : 0 <= n mod 10 <= 9.
Proof. pose proof (Z.mod_pos_bound n 10). lia. Qed.

Lemma read_dec_le fuel n : 0 <= n < 2 ^ Z.of_nat fuel -> read_le (dec_le fuel n) = n.
Proof.
  revert n. induction fuel as [|k IH]; intros n Hn; [simpl in *; lia|].
  cbn [dec_le read_le]. rewrite char_digit_char by apply mod10_range.
  rewrite Nat2Z.inj_succ, Z.pow_succ_r in Hn by lia.
  case_match eqn:E; [apply Z.ltb_lt in E | apply Z.ltb_ge in E].
  - rewrite Z.mod_small by lia. simpl. lia.
  - rewrite IH; pose proof (Z.div_mod n 10 ltac:(lia)); pose proof (Z.mod_pos_bound n 10); lia.
Qed.

Lemma dec_fuel_enough n : 0 <= n -> n < 2 ^ Z.of_nat (dec_fuel n).
Proof.
  intros. unfold dec_fuel. rewrite Nat2Z.inj_succ, Z2Nat.id by apply Z.log2_nonneg.
  destruct (decide (n = 0)) as [->|]; [done|]. apply Z.log2_spec. lia.
Qed.

(** %u is read back: distinct numbers print differently. *)
Lemma read_udec n : 0 <= n -> read_u (udec n) = n.
Proof.
  intros. unfold read_u, udec. rewrite rev_involutive. apply read_dec_le.
  pose proof (dec_fuel_enough n). lia.
Qed.

Lemma dec_le_digits fuel n : Forall (fun c => is_digit c = true) (dec_le fuel n).
Proof.
  revert n. induction fuel; intros n; simpl; [constructor|].
  constructor; [apply is_digit_char, mod10_range|]. case_match; [constructor|auto].
Qed.

Lemma udec_digits n : Forall (fun c => is_digit c = true) (udec n).
Proof.
  unfold udec. pose proof (dec_le_digits (dec_fuel n) n) as H.
  rewrite Forall_forall in *. intros c Hc. apply H.
  rewrite list_elem_of_In in *. by apply in_rev.
Qed.

Lemma udec_nonempty n : exists c l, udec n = c :: l.
Proof.
  destruct (udec n) as [|c l] eqn:E; [|by eauto]. exfalso.
  apply (f_equal (@length _)) in E. unfold udec in E. rewrite length_rev in E. done.
Qed.

Lemma minus_not_digit : is_digit "-"%char = false.
Proof. reflexivity. Qed.

(** %d is read back. *)
Lemma read_sdec z : read_s (sdec z) = z.
Proof.
  unfold sdec. case_match eqn:E.
  - apply Z.ltb_lt in E. simpl. rewrite read_udec; lia.
  - apply Z.ltb_ge in E. destruct (udec_nonempty z) as (c & l & Hcl).
    pose proof (udec_digits z) as Hd. rewrite Hcl in Hd. inversion Hd; subst.
    rewrite Hcl. simpl. case_decide as Hc; [by subst c|]. rewrite <- Hcl.
    by apply read_udec.
Qed.

Lemma sdec_inj x y : sdec x = sdec y -> x = y.
Proof. intros H. by rewrite <- (read_sdec x), <- (read_sdec y), H. Qed.

(** [k] digits are enough below [10 ^ k]. *)
Lemma length_dec_le fuel n k :
  0 <= n < 10 ^ Z.of_nat k -> (0 < k)%nat -> (length (dec_le fuel n) <= k)%nat.
Proof.
  revert n k. induction fuel as [|f IH]; intros n k Hn Hk; simpl; [lia|].
  case_match eqn:E; simpl; [lia|]. apply Z.ltb_ge in E.
  destruct k as [|[|k]]; [lia|simpl in Hn; lia|].
  rewrite Nat2Z.inj_succ, Z.pow_succ_r in Hn by lia.
  specialize (IH (n / 10) (S k)). enough (length (dec_le f (n / 10)) <= S k)%nat by lia.
  apply IH; [|lia]. pose proof (Z.div_mod n 10 ltac:(lia)).
  pose proof (Z.mod_pos_bound n 10). lia.
Qed.

Lemma length_udec n k :
  0 <= n < 10 ^ Z.of_nat k -> (0 < k)%nat -> (length (udec n) <= k)%nat.
Proof. intros. unfold udec. rewrite length_rev. by apply length_dec_le. Qed.

(** ** gmtime_r *)

(** The fields of struct tm the program reads (tm_year is the full year here,
    tm_mon counts from 1: the + 1900 and + 1 of the call sites are applied). *)
Record tm := mkTm {
  tm_year : Z; tm_mon : Z; tm_mday : Z; tm_hour : Z; tm_min : Z; tm_sec : Z;
}.

(** Date of a day number (0 is 1970-01-01) in the proleptic Gregorian calendar,
    by 400-year eras of 146097 days that start on 1 March. *)
Definition civil_from_days (days : Z) : Z * Z * Z :=
  let z := days + 719468 in
  let era := z / 146097 in
  let doe := z mod 146097 in
  let yoe := (doe - doe / 1460 + doe / 36524 - doe / 146096) / 365 in
  let doy := doe - (365 * yoe + yoe / 4 - yoe / 100) in
  let mp := (5 * doy + 2) / 153 in
  let d := doy - (153 * mp + 2) / 5 + 1 in
  let m := if mp <? 10 then mp + 3 else mp - 9 in
  (yoe + era * 400 + (if m <=? 2 then 1 else 0), m, d).

Definition gmtime (t : Z) : tm :=
  let '(y, m, d) := civil_from_days (t / 86400) in
  let s := t mod 86400 in
  mkTm y m d (s / 3600) (s / 60 mod 60) (s mod 60).

Example gmtime_epoch : gmtime 0 = mkTm 1970 1 1 0 0 0.
Proof. reflexivity. Qed.
Example gmtime_leap : gmtime 951782399 = mkTm 2000 2 28 23 59 59.
Proof. reflexivity. Qed.
Example gmtime_2024 : gmtime 1709210096 = mkTm 2024 2 29 12 34 56.
Proof. reflexivity. Qed.
