(* ===== verification/StringPiece.v ===== *)
(** include/StringPiece.h: a view of characters somebody else owns.

    A pointer is null, or an offset in an array of characters; reading outside
    the array is [FOutOfBounds].  The length is an int: the constructors narrow a
    size_t to it, and the comparisons widen it again when they call memcmp, whose
    result has the sign of the difference of the first bytes that differ, taken
    as unsigned char.  [lex_compare] is the reference the comparisons are shown
    to be equivalent to. *)

From S2P Require Import Prelude StdSet.

(** A pointer to const char: the array it points into and the offset. *)
Abbreviation pointer := (option (bytes * Z)).

Record StringPiece := mkPiece { ptr_ : pointer; length_ : Z }.

(** ** What the class uses of <cstring> and std::string *)

(** The characters behind a pointer. *)
Definition from_pointer (p : pointer) : outcome bytes :=
  match p with
  | None => Fault FNullDeref
  | Some (a, off) =>
      if (0 <=? off) && (off <=? zlen a) then Ok (drop (Z.to_nat off) a) else Fault FOutOfBounds
  end.

(** The [n] characters a function reads at a pointer; none are read when [n] is 0. *)
Definition read_chars (p : pointer) (n : Z) : outcome bytes :=
  if n =? 0 then Ok []
  else
    d ← from_pointer p;
    require (n <=? zlen d) FOutOfBounds;;
    Ok (take (Z.to_nat n) d).

(** Unsigned value of a char. *)
Definition uchar (c : ascii) : Z := Z.of_nat (nat_of_ascii c).

Fixpoint first_difference (l k : bytes) : Z :=
  match l, k with
  | a :: l, b :: k => if uchar a =? uchar b then first_difference l k else uchar a - uchar b
  | _, _ => 0
  end.

Definition memcmp (p q : pointer) (n : Z) : outcome Z :=
  l ← read_chars p n;
  k ← read_chars q n;
  Ok (first_difference l k).

(** The characters up to the terminator. *)
Fixpoint c_string (d : bytes) : option bytes :=
  match d with
  | [] => None
  | c :: d => if decide (c = zero) then Some [] else cons c <$> c_string d
  end.

Definition strlen (p : pointer) : outcome Z :=
  d ← from_pointer p;
  match c_string d with Some s => Ok (zlen s) | None => Fault FOutOfBounds end.

(** std::string(p, n) with an int for the size_t: a negative length becomes too
    large for a string, which throws. *)
Definition string_of (p : pointer) (n : Z) : outcome bytes :=
  if n <? 0 then Fault FAbort else read_chars p n.

(** ** The class *)

Definition StringPiece_default : StringPiece := mkPiece None 0.

(** StringPiece(const char *str), and the same for const unsigned char. *)
Definition StringPiece_cstr (str : pointer) : outcome StringPiece :=
  n ← strlen str; Ok (mkPiece str (wrapS 32 n)).

(** StringPiece(const std::string&): the string's array holds a terminator. *)
Definition StringPiece_string (str : bytes) : StringPiece :=
  mkPiece (Some (str ++ [zero], 0)) (wrapS 32 (zlen str)).

(** StringPiece(offset, len) *)
Definition StringPiece_range (offset : pointer) (len : Z) : StringPiece := mkPiece offset len.

Definition data (x : StringPiece) : pointer := ptr_ x.
Definition size (x : StringPiece) : Z := length_ x.
Definition empty (x : StringPiece) : bool := length_ x =? 0.
Definition clear (x : StringPiece) : StringPiece := mkPiece None 0.

(** set(buffer, len), for characters and for void; and set(str). *)
Definition set_range (buffer : pointer) (len : Z) (x : StringPiece) : StringPiece :=
  mkPiece buffer len.
Definition set_cstr (str : pointer) (x : StringPiece) : outcome StringPiece :=
  n ← strlen str; Ok (mkPiece str (wrapS 32 n)).

(** operator[]: ptr_[i], which the class does not check against its length. *)
Definition at_char (x : StringPiece) (i : Z) : outcome ascii :=
  match ptr_ x with
  | None => Fault FNullDeref
  | Some (a, off) =>
      match (if 0 <=? off + i then a !! Z.to_nat (off + i) else None) with
      | Some c => Ok c
      | None => Fault FOutOfBounds
      end
  end.

Definition remove_prefix (n : Z) (x : StringPiece) : outcome StringPiece :=
  require (inSb 32 (length_ x - n)) FIntOverflow;;
  Ok (mkPiece (match ptr_ x with Some (a, off) => Some (a, off + n) | None => None end)
        (length_ x - n)).

Definition remove_suffix (n : Z) (x : StringPiece) : outcome StringPiece :=
  require (inSb 32 (length_ x - n)) FIntOverflow;;
  Ok (mkPiece (ptr_ x) (length_ x - n)).

Definition eqb (x y : StringPiece) : outcome bool :=
  if length_ x =? length_ y
  then r ← memcmp (ptr_ x) (ptr_ y) (wrapU 64 (length_ x)); Ok (r =? 0)
  else Ok false.

Definition neqb (x y : StringPiece) : outcome bool := b ← eqb x y; Ok (negb b).

(** The macro STRINGPIECE_BINARY_PREDICATE(cmp, auxcmp). *)
Definition binary_predicate (cmp auxcmp : Z -> Z -> bool) (x y : StringPiece) : outcome bool :=
  r ← memcmp (ptr_ x) (ptr_ y)
        (wrapU 64 (if length_ x <? length_ y then length_ x else length_ y));
  Ok (auxcmp r 0 || ((r =? 0) && cmp (length_ x) (length_ y))).

Definition ltb := binary_predicate Z.ltb Z.ltb.
Definition leb := binary_predicate Z.leb Z.ltb.
Definition geb := binary_predicate Z.geb Z.gtb.
Definition gtb := binary_predicate Z.gtb Z.gtb.

Definition compare (x y : StringPiece) : outcome Z :=
  r ← memcmp (ptr_ x) (ptr_ y)
        (wrapU 64 (if length_ x <? length_ y then length_ x else length_ y));
  Ok (if r =? 0
      then if length_ x <? length_ y then -1
           else if length_ y <? length_ x then 1 else r
      else r).

Definition as_string (x : StringPiece) : outcome bytes := string_of (ptr_ x) (length_ x).

(** CopyToString(target): what target holds afterwards. *)
Definition CopyToString (x : StringPiece) : outcome bytes := string_of (ptr_ x) (length_ x).

Definition starts_with (x y : StringPiece) : outcome bool :=
  if length_ y <=? length_ x
  then r ← memcmp (ptr_ x) (ptr_ y) (wrapU 64 (length_ y)); Ok (r =? 0)
  else Ok false.

(** ** The reference *)

(** Lexicographic order on sequences of unsigned chars. *)
Fixpoint lex_compare (l k : bytes) : comparison :=
  match l, k with
  | [], [] => Eq
  | [], _ :: _ => Lt
  | _ :: _, [] => Gt
  | a :: l, b :: k =>
      match Z.compare (uchar a) (uchar b) with Eq => lex_compare l k | c => c end
  end.

Definition lex_ltb (l k : bytes) : bool :=
  match lex_compare l k with Lt => true | _ => false end.

Lemma uchar_inj a b : uchar a = uchar b -> a = b.
Proof.
  unfold uchar. intros H%Nat2Z.inj.
  by rewrite <- (ascii_nat_embedding a), <- (ascii_nat_embedding b), H.
Qed.

Lemma lex_compare_eq l k : lex_compare l k = Eq <-> l = k.
Proof.
  revert k. induction l as [|a l IH]; intros [|b k]; simpl; try done.
  destruct (Z.compare_spec (uchar a) (uchar b)) as [He| |]; [|split; [done|intros [= -> ->]; lia]..].
  apply uchar_inj in He as ->. rewrite IH. naive_solver.
Qed.

Lemma lex_compare_sym l k : lex_compare k l = CompOpp (lex_compare l k).
Proof.
  revert k. induction l as [|a l IH]; intros [|b k]; simpl; try done.
  rewrite (Z.compare_antisym (uchar a) (uchar b)). rewrite IH.
  by destruct (uchar a ?= uchar b).
Qed.

Lemma lex_lt_trans l k m :
  lex_compare l k = Lt -> lex_compare k m = Lt -> lex_compare l m = Lt.
Proof.
  revert k m. induction l as [|a l IH]; intros [|b k] [|c m]; simpl; try done.
  destruct (Z.compare_spec (uchar a) (uchar b)) as [He|?|?]; try done;
    destruct (Z.compare_spec (uchar b) (uchar c)) as [He'|?|?]; try done;
    destruct (Z.compare_spec (uchar a) (uchar c)); try done; try lia. eauto.
Qed.

(** The order is total, so that it can order a std::set. *)
#[export] Instance lex_ltb_strict : StrictTotal lex_ltb.
Proof.
  split; unfold lex_ltb.
  - intros x. by rewrite (proj2 (lex_compare_eq x x)).
  - intros x y z. destruct (lex_compare x y) eqn:E1, (lex_compare y z) eqn:E2; try done.
    by rewrite (lex_lt_trans _ _ _ E1 E2).
  - intros x y. rewrite (lex_compare_sym x y).
    destruct (lex_compare x y) eqn:E; try done. by intros _ _; apply lex_compare_eq.
Qed.

(** ** The pieces that view characters *)

(** The characters a piece views. *)
Definition text (x : StringPiece) : bytes :=
  match ptr_ x with
  | Some (a, off) => take (Z.to_nat (length_ x)) (drop (Z.to_nat off) a)
  | None => []
  end.

(** All of them exist, and there are at most INT_MAX. *)
Definition valid (x : StringPiece) : Prop :=
  0 <= length_ x < 2 ^ 31
  /\ match ptr_ x with
     | Some (a, off) => 0 <= off /\ off + length_ x <= zlen a
     | None => length_ x = 0
     end.

Lemma text_length x : valid x -> zlen (text x) = length_ x.
Proof.
  unfold valid, text. destruct (ptr_ x) as [[a off]|]; intros [Hl Hp]; [|by rewrite Hp].
  rewrite zlen_take, zlen_drop. lia.
Qed.

(** Reading at most as many characters as the piece has. *)
Lemma read_valid x n :
  valid x -> 0 <= n <= length_ x -> read_chars (ptr_ x) n = Ok (take (Z.to_nat n) (text x)).
Proof.
  unfold valid, text, read_chars, from_pointer. intros [Hl Hp] Hn.
  destruct (n =? 0) eqn:E; [apply Z.eqb_eq in E as ->; simpl; by rewrite take_0|].
  apply Z.eqb_neq in E. destruct (ptr_ x) as [[a off]|]; [|lia].
  rewrite (proj2 (Z.leb_le 0 off)), (proj2 (Z.leb_le off (zlen a))) by lia. simpl.
  rewrite (proj2 (Z.leb_le n _)) by (rewrite zlen_drop; lia). simpl.
  rewrite take_take. do 2 f_equal. lia.
Qed.

Lemma memcmp_valid x y n :
  valid x -> valid y -> 0 <= n <= length_ x -> n <= length_ y ->
  memcmp (ptr_ x) (ptr_ y) (wrapU 64 n)
  = Ok (first_difference (take (Z.to_nat n) (text x)) (take (Z.to_nat n) (text y))).
Proof.
  intros Hx Hy ? ?. rewrite wrapU_id by (unfold inU; destruct Hx; lia).
  unfold memcmp. by rewrite !read_valid by (done || lia).
Qed.

(** Two sequences, through their common length. *)
Lemma first_difference_take l k n :
  Z.to_nat n = Nat.min (length l) (length k) ->
  let r := first_difference (take (Z.to_nat n) l) (take (Z.to_nat n) k) in
  lex_compare l k = (if r =? 0 then Z.compare (zlen l) (zlen k) else Z.compare r 0).
Proof.
  intros ->. revert k. induction l as [|a l IH]; intros [|b k];
    cbn [length Nat.min take first_difference lex_compare].
  - done.
  - change (0 =? 0) with true. cbv iota zeta. rewrite zlen_nil, zlen_cons. pose proof (zlen_nonneg k).
    symmetry. apply Z.compare_lt_iff. lia.
  - change (0 =? 0) with true. cbv iota zeta. rewrite zlen_nil, zlen_cons. pose proof (zlen_nonneg l).
    symmetry. apply Z.compare_gt_iff. lia.
  - specialize (IH k). cbv zeta in IH. destruct (Z.eqb_spec (uchar a) (uchar b)) as [->|Hne].
    + rewrite Z.compare_refl, IH, !zlen_cons. case_match; [|done].
      destruct (Z.compare_spec (zlen l) (zlen k)) as [->|?|?]; symmetry;
        [by rewrite Z.compare_refl|apply Z.compare_lt_iff; lia|apply Z.compare_gt_iff; lia].
    + rewrite (proj2 (Z.eqb_neq (uchar a - uchar b) 0)) by lia.
      destruct (Z.compare_spec (uchar a) (uchar b)); [lia| |]; symmetry;
        [apply Z.compare_lt_iff; lia|apply Z.compare_gt_iff; lia].
Qed.

Lemma first_difference_0 l k :
  length l = length k -> (first_difference l k =? 0) = bool_decide (l = k).
Proof.
  revert k. induction l as [|a l IH]; intros [|b k]; simpl; try done. intros [= Hl].
  destruct (Z.eqb_spec (uchar a) (uchar b)) as [He|Hne].
  - apply uchar_inj in He as ->. rewrite IH by done. apply bool_decide_ext. naive_solver.
  - rewrite bool_decide_false by (intros [= -> _]; lia). apply Z.eqb_neq. lia.
Qed.

Lemma common_length x y :
  valid x -> valid y ->
  Z.to_nat (if length_ x <? length_ y then length_ x else length_ y)
  = Nat.min (length (text x)) (length (text y)).
Proof.
  intros Hx%text_length Hy%text_length. unfold zlen in *.
  destruct (Z.ltb_spec (length_ x) (length_ y)); lia.
Qed.

(** What the comparison of the common part tells. *)
Lemma memcmp_common x y :
  valid x -> valid y ->
  exists r, memcmp (ptr_ x) (ptr_ y)
              (wrapU 64 (if length_ x <? length_ y then length_ x else length_ y)) = Ok r
    /\ lex_compare (text x) (text y)
       = if r =? 0 then Z.compare (length_ x) (length_ y) else Z.compare r 0.
Proof.
  intros Hx Hy. eexists. split.
  - pose proof (proj1 Hx). pose proof (proj1 Hy).
    apply memcmp_valid; try done; destruct (Z.ltb_spec (length_ x) (length_ y)); lia.
  - rewrite (first_difference_take _ _ _ (common_length x y Hx Hy)).
    by rewrite !text_length.
Qed.

Lemma eqb_text x y :
  valid x -> valid y -> eqb x y = Ok (bool_decide (text x = text y)).
Proof.
  intros Hx Hy. pose proof (text_length x Hx) as Lx. pose proof (text_length y Hy) as Ly.
  unfold eqb. destruct (Z.eqb_spec (length_ x) (length_ y)) as [He|Hne].
  - rewrite memcmp_valid by (done || destruct Hx; lia). simpl.
    rewrite !take_ge by (unfold zlen in *; lia).
    rewrite first_difference_0; [done|unfold zlen in *; lia].
  - rewrite bool_decide_false; [done|]. intros Ht. rewrite Ht in Lx. congruence.
Qed.

Lemma starts_with_text x y :
  valid x -> valid y -> starts_with x y = Ok (bool_decide (text y `prefix_of` text x)).
Proof.
  intros Hx Hy. pose proof (text_length x Hx) as Lx. pose proof (text_length y Hy) as Ly.
  unfold starts_with. destruct (Z.leb_spec (length_ y) (length_ x)) as [He|Hne].
  - rewrite memcmp_valid by (done || destruct Hy; lia). simpl.
    rewrite (take_ge (text y)) by (unfold zlen in *; lia).
    rewrite first_difference_0 by (rewrite length_take; unfold zlen in *; lia).
    f_equal. apply bool_decide_ext. split.
    + intros <-. apply prefix_take.
    + intros [k ->]. rewrite take_app_le by (unfold zlen in *; lia).
      apply take_ge. unfold zlen in *. lia.
  - rewrite bool_decide_false; [done|]. intros Hp%prefix_length. unfold zlen in *. lia.
Qed.

(** An operator, from the sign of memcmp's result and of the lengths' difference. *)
Ltac sign_cases Hc r x y :=
  f_equal; rewrite Hc; rewrite ?Z.geb_leb, ?Z.gtb_ltb;
  destruct (Z.eqb_spec r 0), (Z.ltb_spec r 0), (Z.ltb_spec 0 r),
    (Z.ltb_spec (length_ x) (length_ y)), (Z.leb_spec (length_ x) (length_ y)),
    (Z.ltb_spec (length_ y) (length_ x)), (Z.leb_spec (length_ y) (length_ x)),
    (Z.compare_spec (length_ x) (length_ y)), (Z.compare_spec r 0); simpl; done || lia.

(** C36. On pieces that view characters, the comparisons are those of the characters:
    none of them reads outside the views, compare has the sign of the
    lexicographic comparison of the unsigned characters, the six operators agree
    with it, hence with each other, and starts_with is the prefix relation. *)
Theorem comparisons_spec x y (Hx : valid x) (Hy : valid y) :
  let c := lex_compare (text x) (text y) in
  (exists r, compare x y = Ok r /\ Z.compare r 0 = c)
  /\ eqb x y = Ok (bool_decide (text x = text y))
  /\ neqb x y = Ok (bool_decide (text x <> text y))
  /\ ltb x y = Ok (match c with Lt => true | _ => false end)
  /\ leb x y = Ok (match c with Gt => false | _ => true end)
  /\ geb x y = Ok (match c with Lt => false | _ => true end)
  /\ gtb x y = Ok (match c with Gt => true | _ => false end)
  /\ starts_with x y = Ok (bool_decide (text y `prefix_of` text x)).
Proof.
  intros c. destruct (memcmp_common x y Hx Hy) as (r & Hm & Hc). fold c in Hc.
  unfold compare, neqb, ltb, leb, geb, gtb, binary_predicate.
  rewrite Hm, eqb_text, starts_with_text by done. cbn [mbind outcome_bind].
  split_and!; try done.
  - eexists. split; [done|]. rewrite Hc. destruct (r =? 0) eqn:E; [|done].
    apply Z.eqb_eq in E as ->.
    destruct (Z.ltb_spec (length_ x) (length_ y)), (Z.ltb_spec (length_ y) (length_ x)),
      (Z.compare_spec (length_ x) (length_ y)); simpl; try done; lia.
  - f_equal. by rewrite bool_decide_not.
  - sign_cases Hc r x y.
  - sign_cases Hc r x y.
  - sign_cases Hc r x y.
  - sign_cases Hc r x y.
Qed.

(** Two views in one buffer: "abc" and "abd". *)
Lemma comparisons_spec_witness :
  let x := mkPiece (Some (txt "abcabd", 0)) 3 in
  let y := mkPiece (Some (txt "abcabd", 3)) 3 in
  valid x /\ valid y /\ ltb x y = Ok true /\ starts_with x y = Ok false.
Proof.
  intros x y.
  assert (valid x) as Hx by (vm_compute; repeat split; congruence).
  assert (valid y) as Hy by (vm_compute; repeat split; congruence).
  split; [exact Hx|]. split; [exact Hy|].
  destruct (comparisons_spec x y Hx Hy) as (_ & _ & _ & Hl & _ & _ & _ & Hs).
  split; [exact Hl|exact Hs].
Defined.

(** A string of 2^31 characters, seen through the int: its length is negative, and
    turning the piece back into a string throws. *)
Lemma long_string_lost s :
  zlen s = 2 ^ 31 -> as_string (StringPiece_string s) = Fault FAbort.
Proof. unfold StringPiece_string, as_string, string_of. simpl. by intros ->. Qed.

(** Below that size a string survives the round trip. *)
Lemma string_roundtrip s :
  zlen s < 2 ^ 31 -> as_string (StringPiece_string s) = Ok s /\ valid (StringPiece_string s)
  /\ text (StringPiece_string s) = s.
Proof.
  intros Hs. pose proof (zlen_nonneg s).
  assert (wrapS 32 (zlen s) = zlen s) as Hw by (apply wrapS_id; unfold inS; lia).
  assert (valid (StringPiece_string s)) as Hv.
  { split; cbn -[zlen wrapS]; rewrite Hw; [lia|]. split; [lia|].
    rewrite zlen_app. change (zlen [zero]) with 1. lia. }
  assert (text (StringPiece_string s) = s) as Ht.
  { unfold text, StringPiece_string. cbn [ptr_ length_]. rewrite Hw, drop_0. unfold zlen.
    rewrite Nat2Z.id, take_app_le by done. by apply take_ge. }
  split_and!; try done. unfold as_string, string_of. rewrite (proj2 (Z.ltb_ge (length_ (StringPiece_string s)) 0)) by (destruct Hv; lia).
  rewrite read_valid by (done || destruct Hv; lia). rewrite Ht. f_equal. simpl. rewrite Hw.
  apply take_ge. unfold zlen. lia.
Qed.
