(* ===== verification/TimeStamp.v ===== *)
(** include/TimeStamp.h and src/TimeStamp.cc: instants as an [int] of
    microseconds, their order, addTime and the textual form.

    The member microSecondSinceEpoch_ is an int although every constructor
    argument is an int64_t, so the conversion keeps the value modulo 2^32
    ([wrapS 32]).  A double is its IEEE 754 binary64 value ([spec_float] with
    53 bits of precision), and the multiplication of addTime rounds as the
    hardware does.  In TimeStamp::toString a comma splits the format, of which the
    lone character '%' is left, whose behaviour is undefined. *)

From S2P Require Import Prelude Format.
From Stdlib Require Import SpecFloat.

(** The class: its one data member. *)
Record TimeStamp := mkTimeStamp { microSecondSinceEpoch_ : Z }.

#[export] Instance TimeStamp_eq_dec : EqDecision TimeStamp.
Proof. solve_decision. Defined.

(** TimeStamp() *)
Definition TimeStamp_default : TimeStamp := mkTimeStamp 0.

(** TimeStamp(int64_t): the argument is narrowed to the int member. *)
Definition TimeStamp_ctor (microSecondsSinceEpochArg : Z) : TimeStamp :=
  mkTimeStamp (wrapS 32 microSecondsSinceEpochArg).

Definition valid (t : TimeStamp) : bool := 0 <? microSecondSinceEpoch_ t.
Definition microSecondSinceEpoch (t : TimeStamp) : Z := microSecondSinceEpoch_ t.
Definition invalid : TimeStamp := TimeStamp_default.
Definition kMicroSecondsPerSecond : Z := 1000 * 1000.

(** What gettimeofday(2) stores. *)
Record timeval := mkTimeval { tv_sec : Z; tv_usec : Z }.

(** TimeStamp::now(), given what gettimeofday stored. *)
Definition now (tv : timeval) : TimeStamp :=
  let seconds := tv_sec tv in
  TimeStamp_ctor (seconds * kMicroSecondsPerSecond + tv_usec tv).

(** operator< and operator==. *)
Definition ts_ltb (lhs rhs : TimeStamp) : bool :=
  microSecondSinceEpoch lhs <? microSecondSinceEpoch rhs.
Definition ts_eqb (lhs rhs : TimeStamp) : bool :=
  microSecondSinceEpoch lhs =? microSecondSinceEpoch rhs.

(** ** Doubles *)

Abbreviation double := spec_float.
Definition double_mul : double -> double -> double := SFmul 53 1024.
(** Conversion of an integer to double. *)
Definition double_of_Z (z : Z) : double := binary_normalize 53 1024 z 0 false.
(** operator> on doubles. *)
Definition double_gtb (x y : double) : bool := SFltb y x.

(** static_cast<int64_t>(x): truncation; undefined on a NaN, an infinity and a
    value that does not fit. *)
Definition int64_of_double (x : double) : outcome Z :=
  let bounded z := require (inSb 64 z) FIntOverflow;; Ok z in
  match x with
  | S754_zero _ => Ok 0
  | S754_infinity _ | S754_nan => Fault FIntOverflow
  | S754_finite s m e =>
      let a := Z.shiftl (Zpos m) e in
      bounded (if s then - a else a)
  end.

(** addTime(timeStamp, seconds). *)
Definition addTime (timeStamp : TimeStamp) (seconds : double) : outcome TimeStamp :=
  delta ← int64_of_double (double_mul seconds (double_of_Z kMicroSecondsPerSecond));
  let t := microSecondSinceEpoch timeStamp + delta in
  require (inSb 64 t) FIntOverflow;;
  Ok (TimeStamp_ctor t).

(** ** toString and toFormatString *)

(** A format that does not end in the middle of a conversion. *)
Fixpoint complete_format (f : bytes) : bool :=
  match f with
  | [] => true
  | c :: f =>
      if decide (c = "%"%char) then match f with [] => false | _ :: f => complete_format f end
      else complete_format f
  end.

(** toString(): what was meant to be the rest of the format is an argument. *)
Definition toString (t : TimeStamp) : outcome bytes :=
  let fmt := txt "%" in
  require (complete_format fmt) FBadFormat;; Ok (snprintf 32 fmt).

Lemma toString_undefined t : toString t = Fault FBadFormat.
Proof. reflexivity. Qed.

(** "%4d%02d%02d %02d:%02d:%02d" *)
Definition format_seconds (seconds : Z) : bytes :=
  let t := gmtime seconds in
  fmt_d 4 (tm_year t) ++ fmt_0d 2 (tm_mon t) ++ fmt_0d 2 (tm_mday t) ++ txt " "
  ++ fmt_0d 2 (tm_hour t) ++ txt ":" ++ fmt_0d 2 (tm_min t) ++ txt ":"
  ++ fmt_0d 2 (tm_sec t).

Definition toFormatString (showMicroSeconds : bool) (t : TimeStamp) : bytes :=
  let seconds := Z.quot (microSecondSinceEpoch_ t) kMicroSecondsPerSecond in
  if showMicroSeconds
  then
    let microseconds := Z.rem (microSecondSinceEpoch_ t) kMicroSecondsPerSecond in
    snprintf 32 (format_seconds seconds ++ txt "." ++ fmt_0d 6 microseconds)
  else snprintf 32 (format_seconds seconds).

(** ** The type invariant: the member is an int *)

Definition wf (t : TimeStamp) : Prop := inS 32 (microSecondSinceEpoch_ t).

Lemma ts_ctor_wf z : wf (TimeStamp_ctor z).
Proof. apply wrapS_range. lia. Qed.

Lemma addTime_wf t s t' : addTime t s = Ok t' -> wf t'.
Proof.
  unfold addTime. rewrite bind_ok. intros (d & _ & H).
  apply bind_ok in H as ([] & _ & [= <-]). apply ts_ctor_wf.
Qed.

(** ** now() and the order *)

(** The reading of the clock in microseconds. *)
Definition micros (tv : timeval) : Z := tv_sec tv * kMicroSecondsPerSecond + tv_usec tv.

(** The 2^32 us (71.6 minute) window of a reading. *)
Definition window (us : Z) : Z := (us + 2 ^ 31) / 2 ^ 32.

Lemma wrapS_window z : wrapS 32 z = z - window z * 2 ^ 32.
Proof.
  unfold wrapS, window. change (32 - 1) with 31.
  pose proof (Z.div_mod (z + 2 ^ 31) (2 ^ 32) ltac:(lia)). lia.
Qed.

(** C26. now() keeps the clock only modulo 2^32 microseconds: two readings are
    ordered by operator< as the clock orders them while they fall in the same
    71.6 minute window, and in the opposite way whenever the second one is the
    first reading of a later window less than 2^32 us away. *)
Theorem now_order a b (Hab : micros a < micros b) :
  (window (micros a) = window (micros b) -> ts_ltb (now a) (now b) = true)
  /\ (window (micros a) < window (micros b) -> micros b - micros a < 2 ^ 32 ->
      ts_ltb (now b) (now a) = true).
Proof.
  unfold ts_ltb, microSecondSinceEpoch, now, TimeStamp_ctor; simpl.
  fold (micros a) (micros b). rewrite !wrapS_window. split.
  - intros ->. apply Z.ltb_lt. lia.
  - intros Hw Hd. apply Z.ltb_lt.
    assert (2 ^ 32 <= (window (micros b) - window (micros a)) * 2 ^ 32) by nia. lia.
Qed.

Lemma now_order_witness :
  let a := mkTimeval 2147 483647 in let b := mkTimeval 2147 483648 in
  micros a < micros b /\ ts_ltb (now b) (now a) = true.
Proof.
  split; [reflexivity|].
  apply (now_order (mkTimeval 2147 483647) (mkTimeval 2147 483648)); reflexivity.
Defined.

(** ** addTime *)

(** The whole numbers of seconds an int of microseconds can span. *)
Definition whole_seconds : list Z := map (fun k => Z.of_nat k - 2147) (seq 0 4295).

Lemma elem_whole_seconds n : -2147 <= n <= 2147 -> n ∈ whole_seconds.
Proof.
  intros. unfold whole_seconds. apply list_elem_of_In, in_map_iff.
  exists (Z.to_nat (n + 2147)). rewrite in_seq. lia.
Qed.

Lemma mul_whole_seconds :
  forallb (fun n => bool_decide
    (int64_of_double (double_mul (double_of_Z n) (double_of_Z kMicroSecondsPerSecond))
     = Ok (n * kMicroSecondsPerSecond))) whole_seconds = true.
Proof. vm_compute. reflexivity. Qed.

Lemma addTime_exact t n :
  wf t -> -2147 <= n <= 2147 ->
  addTime t (double_of_Z n)
  = Ok (TimeStamp_ctor (microSecondSinceEpoch_ t + n * kMicroSecondsPerSecond)).
Proof.
  intros Ht Hn. unfold addTime. pose proof mul_whole_seconds as H.
  rewrite forallb_forall in H. specialize (H n).
  rewrite <- list_elem_of_In, bool_decide_eq_true in H.
  rewrite H by by apply elem_whole_seconds. simpl.
  rewrite (proj2 (inSb_spec 64 _)); [done|].
  unfold wf, inS, microSecondSinceEpoch, kMicroSecondsPerSecond in *. lia.
Qed.

(** addTime by a whole number of seconds (any number an int of microseconds
    can hold) is exact: no rounding, and the result is the sum narrowed to int,
    hence the sum itself when it is in range. *)
Theorem addTime_whole t n (Ht : wf t) (Hn : -2147 <= n <= 2147) :
  addTime t (double_of_Z n)
  = Ok (TimeStamp_ctor (microSecondSinceEpoch_ t + n * kMicroSecondsPerSecond))
  /\ (inS 32 (microSecondSinceEpoch_ t + n * kMicroSecondsPerSecond) ->
      addTime t (double_of_Z n)
      = Ok (mkTimeStamp (microSecondSinceEpoch_ t + n * kMicroSecondsPerSecond))).
Proof.
  rewrite addTime_exact by done. split; [done|]. intros.
  unfold TimeStamp_ctor. by rewrite wrapS_id.
Qed.

Lemma addTime_whole_witness :
  wf (mkTimeStamp 5) /\ addTime (mkTimeStamp 5) (double_of_Z 3) = Ok (mkTimeStamp 3000005).
Proof.
  assert (wf (mkTimeStamp 5)) as Hwf by (unfold wf, inS; simpl; lia).
  split; [exact Hwf|].
  apply (addTime_whole (mkTimeStamp 5) 3 Hwf); [lia|].
  split; vm_compute; congruence.
Defined.

(** ** The date toFormatString shows *)

(** The date comes first, and depends on the day alone. *)
Lemma format_seconds_date n :
  -86400 <= n < 86400 ->
  exists rest, format_seconds n
    = (if n <? 0 then txt "19691231 " else txt "19700101 ") ++ rest.
Proof.
  intros Hn. assert (n / 86400 = if n <? 0 then -1 else 0) as Hd.
  { case_match eqn:E; [apply Z.ltb_lt in E | apply Z.ltb_ge in E];
      symmetry; apply Z.div_unique with (n mod 86400);
      pose proof (Z.mod_pos_bound n 86400); pose proof (Z.div_mod n 86400 ltac:(lia)); nia. }
  unfold format_seconds, gmtime. rewrite Hd. generalize (n mod 86400). intros r.
  destruct (n <? 0).
  - change (civil_from_days (-1)) with (1969, 12, 31). cbn -[fmt_d fmt_0d txt app].
    change (fmt_d 4 1969) with (txt "1969"). change (fmt_0d 2 12) with (txt "12").
    change (fmt_0d 2 31) with (txt "31"). eexists. simpl. reflexivity.
  - change (civil_from_days 0) with (1970, 1, 1). cbn -[fmt_d fmt_0d txt app].
    change (fmt_d 4 1970) with (txt "1970"). change (fmt_0d 2 1) with (txt "01").
    eexists. simpl. reflexivity.
Qed.

(** Whatever the clock says, the date toFormatString prints is 1 January
    1970 or 31 December 1969: an int of microseconds reaches 35.8 minutes from
    the epoch. *)
Theorem toFormatString_date show t (Ht : wf t) :
  take 9 (toFormatString show t) = txt "19700101 "
  \/ take 9 (toFormatString show t) = txt "19691231 ".
Proof.
  set (s := Z.quot (microSecondSinceEpoch_ t) kMicroSecondsPerSecond).
  assert (-2147 <= s <= 2147) as Hs.
  { unfold wf, inS in Ht. subst s. unfold kMicroSecondsPerSecond.
    pose proof (Z.quot_le_mono (- 2 ^ 31) (microSecondSinceEpoch_ t) (1000 * 1000)).
    pose proof (Z.quot_le_mono (microSecondSinceEpoch_ t) (2 ^ 31 - 1) (1000 * 1000)).
    change (- 2 ^ 31 ÷ (1000 * 1000)) with (-2147) in *.
    change ((2 ^ 31 - 1) ÷ (1000 * 1000)) with 2147 in *. lia. }
  destruct (format_seconds_date s ltac:(lia)) as [rest Hrest].
  unfold toFormatString. fold s. unfold snprintf. rewrite Hrest.
  destruct show, (s <? 0); rewrite <- ?app_assoc, take_take; simpl; auto.
Qed.

Lemma toFormatString_date_witness :
  let t := now (mkTimeval 1709210096 123456) in
  wf t /\ (take 9 (toFormatString true t) = txt "19700101 "
           \/ take 9 (toFormatString true t) = txt "19691231 ").
Proof. split; [apply ts_ctor_wf | apply toFormatString_date, ts_ctor_wf]. Defined.
