(* ===== verification/Buffer.v ===== *)
(** The dynamic buffer of a connection: include/Buffer.h and src/Buffer.cpp.

    A [Buffer] is a std::vector<char> with a read and a write index; the bytes
    between them are its content.  Offsets stand for the pointers peek() and
    beginWrite() return.  Sizes are size_t, so every subtraction and sum is
    taken modulo 2^64; the invariant [wf] is what makes them exact.  Writing
    past the vector is the fault [FOutOfBounds].

    The abstract specification is a queue of bytes; [run_refines_queue] shows
    that sequences of operations implement it. *)

From S2P Require Import Prelude.

(** src/include/Buffer.h:5 *)
Definition kPrepend : Z := 8.
(** src/include/Buffer.h:6 *)
Definition kInitialSize : Z := 1024.

(** The class's data members. *)
Record Buffer := mkBuffer {
  buffer_ : bytes;
  readerIndex_ : Z;
  writerIndex_ : Z;
}.

#[export] Instance Buffer_eq_dec : EqDecision Buffer.
Proof. solve_decision. Defined.

(** buffer_.size(). *)
Definition size (b : Buffer) : Z := zlen (buffer_ b).

(** The constructor: the vector is value-initialised, and its size is built
    from kInitialSize, whatever the argument. *)
Definition Buffer_ctor (initialSize : Z) : Buffer :=
  mkBuffer (replicate (Z.to_nat (kPrepend + kInitialSize)) zero) kPrepend kPrepend.

Definition writeableBytes (b : Buffer) : Z := wrapU 64 (size b - writerIndex_ b).
Definition readableBytes (b : Buffer) : Z := wrapU 64 (writerIndex_ b - readerIndex_ b).
Definition prependableBytes (b : Buffer) : Z := readerIndex_ b.

(** The offset of the pointer peek() returns. *)
Definition peek (b : Buffer) : Z := readerIndex_ b.
(** The offset of the pointer beginWrite() returns. *)
Definition beginWrite (b : Buffer) : Z := writerIndex_ b.

Definition retrieveAll (b : Buffer) : Buffer := mkBuffer (buffer_ b) kPrepend kPrepend.

Definition retrieve (len : Z) (b : Buffer) : Buffer :=
  if len <? readableBytes b
  then mkBuffer (buffer_ b) (readerIndex_ b + len) (writerIndex_ b)
  else retrieveAll b.

(** std::string(peek(), len) reads [len] bytes of the vector. *)
Definition retrieveAsString (len : Z) (b : Buffer) : outcome (bytes * Buffer) :=
  require (peek b + len <=? size b) FOutOfBounds;;
  Ok (slice (peek b) len (buffer_ b), retrieve len b).

Definition retrieveAllAsString (b : Buffer) : outcome (bytes * Buffer) :=
  retrieveAsString (readableBytes b) b.

(** std::copy(data, data + len, beginWrite()) with no growth of the vector;
    [data] is the [len] bytes the caller points at. *)
Definition append (data : bytes) (b : Buffer) : outcome Buffer :=
  let len := zlen data in
  require (beginWrite b + len <=? size b) FOutOfBounds;;
  Ok (mkBuffer (write_at (beginWrite b) data (buffer_ b))
        (readerIndex_ b) (writerIndex_ b + len)).

(** makeSpace: grow the vector, or move the content down to kPrepend. *)
Definition makeSpace (len : Z) (b : Buffer) : Buffer :=
  if wrapU 64 (writeableBytes b + prependableBytes b) <? wrapU 64 (len + kPrepend)
  then mkBuffer (resize (Z.to_nat (wrapU 64 (len + writerIndex_ b))) zero (buffer_ b))
         (readerIndex_ b) (writerIndex_ b)
  else
    let readable := readableBytes b in
    mkBuffer (write_at kPrepend (slice (readerIndex_ b) readable (buffer_ b)) (buffer_ b))
      kPrepend (kPrepend + readable).

(** What readv(2) answers: -1 and errno, or the bytes it scattered over the
    iovec array, in order. *)
Inductive readv_result :=
| ReadvError (errno : Z)
| ReadvBytes (d : bytes).

(** sizeof extrabuf. *)
Definition extrabuf_size : Z := 65536.

(** The bytes one readv call may return: the iovecs hold the writable tail and,
    when that is smaller than extrabuf, extrabuf (iovcnt is 2). *)
Definition readv_room (b : Buffer) : Z :=
  let writeable := writeableBytes b in
  if writeable <? extrabuf_size then writeable + extrabuf_size else writeable.

(** readv(2) never returns more than the iovecs hold. *)
Definition readv_fits (b : Buffer) (r : readv_result) : Prop :=
  match r with ReadvError _ => True | ReadvBytes d => zlen d <= readv_room b end.

(** readFd: the result n, the value stored in *savedErrno if any, the buffer. *)
Definition readFd (r : readv_result) (b : Buffer) : outcome (Z * option Z * Buffer) :=
  let writeable := writeableBytes b in
  match r with
  | ReadvError errno => Ok (-1, Some errno, b)
  | ReadvBytes d =>
      let n := zlen d in
      let b1 := mkBuffer
        (write_at (writerIndex_ b) (take (Z.to_nat writeable) d) (buffer_ b))
        (readerIndex_ b) (writerIndex_ b) in
      if n <=? writeable
      then Ok (n, None, mkBuffer (buffer_ b1) (readerIndex_ b1) (writerIndex_ b1 + n))
      else
        let b2 := mkBuffer (buffer_ b1) (readerIndex_ b1) (size b1) in
        b3 ← append (drop (Z.to_nat writeable) d) b2;
        Ok (n, None, b3)
  end.

(** ** The invariant and the abstraction function *)

Definition wf (b : Buffer) : Prop :=
  kPrepend <= readerIndex_ b /\ readerIndex_ b <= writerIndex_ b
  /\ writerIndex_ b <= size b /\ size b < 2 ^ 63.

Definition content (b : Buffer) : bytes :=
  slice (readerIndex_ b) (writerIndex_ b - readerIndex_ b) (buffer_ b).

(** What is left of the vector behind the write index. *)
Definition room (b : Buffer) : Z := size b - writerIndex_ b.

Ltac buf :=
  unfold wf, content, room, size, kPrepend, peek, beginWrite, inU in *;
  simpl in *; unfold kPrepend in *.

Lemma writeableBytes_wf b : wf b -> writeableBytes b = room b.
Proof. intros (? & ? & ? & ?). apply wrapU_id. buf. zlia. Qed.

Lemma readableBytes_wf b : wf b -> readableBytes b = writerIndex_ b - readerIndex_ b.
Proof. intros (? & ? & ? & ?). apply wrapU_id. buf. zlia. Qed.

Lemma zlen_content b : wf b -> zlen (content b) = writerIndex_ b - readerIndex_ b.
Proof. intros (? & ? & ? & ?). apply slice_zlen; buf; lia. Qed.

Lemma readableBytes_content b : wf b -> readableBytes b = zlen (content b).
Proof. intros H. by rewrite readableBytes_wf, zlen_content. Qed.

Lemma ctor_wf n : wf (Buffer_ctor n).
Proof. unfold wf. repeat split; vm_compute; congruence. Qed.

Lemma ctor_content n : content (Buffer_ctor n) = [].
Proof. done. Qed.

Lemma retrieveAll_wf b : wf b -> wf (retrieveAll b).
Proof. intros (? & ? & ? & ?). buf. lia. Qed.

Lemma retrieveAll_content b : content (retrieveAll b) = [].
Proof. done. Qed.

Lemma retrieve_wf n b : wf b -> 0 <= n -> wf (retrieve n b).
Proof.
  intros Hwf Hn. unfold retrieve. case_match eqn:E; [|by apply retrieveAll_wf].
  rewrite readableBytes_wf, Z.ltb_lt in E by done.
  destruct Hwf as (? & ? & ? & ?). buf. lia.
Qed.

Lemma retrieve_content n b :
  wf b -> 0 <= n -> content (retrieve n b) = drop (Z.to_nat n) (content b).
Proof.
  intros Hwf Hn. pose proof (zlen_content b Hwf) as Hlen.
  unfold retrieve. case_match eqn:E; rewrite readableBytes_wf in E by done.
  - apply Z.ltb_lt in E. destruct Hwf as (? & ? & ? & ?). buf. unfold slice.
    rewrite skipn_firstn_comm, drop_drop. f_equal; [lia|]. f_equal. lia.
  - apply Z.ltb_ge in E. rewrite retrieveAll_content, drop_ge; [done|].
    unfold zlen in Hlen. lia.
Qed.

Create HintDb buffer.
#[export] Hint Resolve ctor_wf retrieveAll_wf retrieve_wf : buffer.

(** ** append and readFd *)

Lemma append_fits d b :
  wf b -> zlen d <= room b ->
  exists b', append d b = Ok b' /\ wf b' /\ content b' = content b ++ d
    /\ size b' = size b /\ room b' = room b - zlen d.
Proof.
  intros (? & ? & ? & ?) Hd. unfold append.
  rewrite (proj2 (Z.leb_le _ _)) by (buf; lia). simpl.
  eexists. split; [reflexivity|].
  assert (zlen (write_at (beginWrite b) d (buffer_ b)) = size b) as Hsz.
  { apply write_at_zlen; buf; lia. }
  zlen_facts. split; [|split; [|split]].
  - unfold wf, size in *; simpl in *. rewrite Hsz. buf. lia.
  - unfold content; simpl.
    replace (writerIndex_ b + zlen d - readerIndex_ b)
      with ((writerIndex_ b - readerIndex_ b) + zlen d) by lia.
    rewrite slice_split by (buf; lia).
    rewrite slice_write_before by (buf; lia). f_equal.
    replace (readerIndex_ b + (writerIndex_ b - readerIndex_ b))
      with (writerIndex_ b) by lia.
    apply slice_write_same; buf; lia.
  - done.
  - unfold room, size in *. simpl. rewrite Hsz. lia.
Qed.

Lemma append_overflows d b :
  wf b -> room b < zlen d -> append d b = Fault FOutOfBounds.
Proof.
  intros _ ?. unfold append. rewrite (proj2 (Z.leb_gt _ _)) by (buf; lia). done.
Qed.

(** C18. append never grows the vector: it succeeds exactly when the data fits
    behind the write index, and then the content grows by the data and the
    invariant holds; otherwise the copy runs out of the vector's storage. *)
Theorem append_spec d b (Hwf : wf b) :
  match append d b with
  | Ok b' => wf b' /\ content b' = content b ++ d /\ zlen d <= writeableBytes b
  | Fault f => f = FOutOfBounds /\ writeableBytes b < zlen d
  end.
Proof.
  rewrite writeableBytes_wf by done. destruct (Z.le_gt_cases (zlen d) (room b)).
  - destruct (append_fits d b) as (b' & -> & ? & ? & _); done.
  - by rewrite append_overflows.
Qed.

Lemma append_spec_witness :
  wf (Buffer_ctor 0) /\
  match append (txt "hello") (Buffer_ctor 0) with
  | Ok b' => wf b' /\ content b' = content (Buffer_ctor 0) ++ txt "hello"
      /\ zlen (txt "hello") <= writeableBytes (Buffer_ctor 0)
  | Fault f => f = FOutOfBounds
      /\ writeableBytes (Buffer_ctor 0) < zlen (txt "hello")
  end.
Proof. split; [apply ctor_wf | apply append_spec, ctor_wf]. Defined.

Lemma readFd_fits d b :
  wf b -> zlen d <= room b ->
  exists b', readFd (ReadvBytes d) b = Ok (zlen d, None, b')
    /\ wf b' /\ content b' = content b ++ d.
Proof.
  intros Hwf Hd. destruct (append_fits d b Hwf Hd) as (b' & Happ & Hwf' & Hc & _).
  exists b'. split; [|done]. unfold readFd. rewrite writeableBytes_wf by done.
  rewrite (proj2 (Z.leb_le _ _)) by done. do 2 f_equal.
  unfold append, require in Happ. case_match; simplify_eq/=.
  rewrite take_ge; [done|]. unfold zlen in *. lia.
Qed.

(** C19. readFd on the result of readv(2).  On an error it stores errno and
    leaves the buffer alone.  When the bytes fit behind the write index they
    are appended.  When readv had to use extrabuf, the copy out of extrabuf
    writes past the vector: writerIndex_ is already size(), and nothing grows
    the vector. *)
Theorem readFd_spec r b (Hwf : wf b) (Hr : readv_fits b r) :
  match r with
  | ReadvError e => readFd r b = Ok (-1, Some e, b)
  | ReadvBytes d =>
      (zlen d <= writeableBytes b -> exists b', readFd r b = Ok (zlen d, None, b')
         /\ wf b' /\ content b' = content b ++ d)
      /\ (writeableBytes b < zlen d -> readFd r b = Fault FOutOfBounds)
  end.
Proof.
  destruct r as [e|d]; [done|]. rewrite writeableBytes_wf by done.
  split; [by apply readFd_fits|]. intros Hd. unfold readFd.
  rewrite writeableBytes_wf, (proj2 (Z.leb_gt _ _)) by done.
  destruct Hwf as (? & ? & ? & ?). unfold append. simpl.
  rewrite (proj2 (Z.leb_gt _ _)); [done|].
  assert (0 <= room b) by (buf; lia).
  unfold beginWrite, size; simpl. zlen_facts. rewrite zlen_drop. lia.
Qed.

Lemma readFd_spec_witness :
  let b := Buffer_ctor 0 in
  let r := ReadvBytes (replicate 1025 zero) in
  wf b /\ readv_fits b r /\ readFd r b = Fault FOutOfBounds.
Proof.
  assert (readv_fits (Buffer_ctor 0) (ReadvBytes (replicate 1025 zero))) as Hr
    by (vm_compute; congruence).
  split; [apply ctor_wf|]. split; [exact Hr|].
  apply (readFd_spec _ _ (ctor_wf 0) Hr). vm_compute. reflexivity.
Defined.

(** ** makeSpace *)

Lemma makeSpace_grow len b :
  wf b -> 0 <= len -> len + size b < 2 ^ 63 ->
  room b + readerIndex_ b < len + kPrepend ->
  let b' := mkBuffer (resize (Z.to_nat (len + writerIndex_ b)) zero (buffer_ b))
              (readerIndex_ b) (writerIndex_ b) in
  wf b' /\ content b' = content b /\ room b' = len.
Proof.
  intros (? & ? & ? & ?) ? ? ?. simpl.
  assert (size b <= len + writerIndex_ b) as Hle by (buf; lia).
  rewrite resize_ge by (unfold size, zlen in *; lia).
  set (pad := replicate _ _). set (b' := mkBuffer _ _ _).
  assert (size b' = len + writerIndex_ b) as Hsz.
  { subst b' pad. unfold size in *; simpl. zlen_facts. rewrite zlen_app, zlen_replicate.
    unfold zlen in *. lia. }
  split; [|split].
  - unfold wf. rewrite Hsz. subst b'; simpl. buf. lia.
  - subst b'. unfold content, slice; simpl.
    rewrite drop_app_le by (buf; unfold zlen in *; lia).
    rewrite take_app_le; [done|]. rewrite length_drop. buf. unfold zlen in *. lia.
  - unfold room. rewrite Hsz. subst b'. simpl. lia.
Qed.

Lemma makeSpace_compact b :
  wf b ->
  let b' := mkBuffer
    (write_at kPrepend (slice (readerIndex_ b) (readableBytes b) (buffer_ b)) (buffer_ b))
    kPrepend (kPrepend + readableBytes b) in
  wf b' /\ content b' = content b /\ room b' = room b + readerIndex_ b - kPrepend.
Proof.
  intros Hwf. pose proof (zlen_content b Hwf) as Hlen. simpl.
  rewrite readableBytes_wf by done. destruct Hwf as (? & ? & ? & ?).
  set (b' := mkBuffer _ _ _). fold (content b) in b'.
  assert (size b' = size b) as Hsz
    by (apply write_at_zlen; unfold kPrepend in *; fold (size b); rewrite ?Hlen; lia).
  split; [|split].
  - unfold wf. rewrite Hsz. subst b'; simpl. buf. lia.
  - unfold content at 1. subst b'; simpl.
    replace (kPrepend + (writerIndex_ b - readerIndex_ b) - kPrepend)
      with (zlen (content b)) by lia.
    apply slice_write_same; unfold kPrepend in *; fold (size b); lia.
  - unfold room. rewrite Hsz. subst b'. simpl. lia.
Qed.

(** makeSpace(len) keeps the content and the invariant and leaves at least
    [len] writable bytes, whether it grows the vector or moves the content
    down, so that an append of up to [len] bytes after it cannot overflow. *)
Theorem makeSpace_spec len b (Hwf : wf b) (Hlen : 0 <= len)
    (Hmax : len + size b < 2 ^ 63) :
  wf (makeSpace len b) /\ content (makeSpace len b) = content b
  /\ len <= writeableBytes (makeSpace len b).
Proof.
  assert (0 <= room b) as Hroom by (destruct Hwf as (? & ? & ? & ?); buf; lia).
  assert (writerIndex_ b <= size b) by (unfold room in *; lia).
  assert (wf (makeSpace len b) /\ content (makeSpace len b) = content b
          /\ len <= room (makeSpace len b)) as (Hw & ? & ?).
  { unfold makeSpace. rewrite writeableBytes_wf by done. unfold prependableBytes.
    destruct (Hwf) as (? & ? & ? & ?).
    rewrite !wrapU_id by (unfold inU, room in *; buf; lia).
    case_match eqn:E.
    - apply Z.ltb_lt in E.
      destruct (makeSpace_grow len b) as (? & ? & Hr); [done..|]. split; [done|].
      split; [done|]. rewrite Hr. lia.
    - apply Z.ltb_ge in E. destruct (makeSpace_compact b) as (? & ? & Hr); [done|].
      split; [done|]. split; [done|]. rewrite Hr. lia. }
  by rewrite writeableBytes_wf.
Qed.

Lemma makeSpace_spec_witness :
  let b := Buffer_ctor 0 in
  let b' := makeSpace 5000 b in
  wf b /\ wf b' /\ content b' = content b /\ 5000 <= writeableBytes b'.
Proof.
  split; [apply ctor_wf|].
  apply (makeSpace_spec 5000 _ (ctor_wf 0)); vm_compute; congruence.
Defined.

(** ** Refinement: the buffer is a queue of bytes *)

(** The calls a client makes. *)
Inductive op :=
| OpAppend (d : bytes)
| OpRetrieve (n : Z)
| OpRetrieveAll
| OpRetrieveAsString (n : Z)
| OpRetrieveAllAsString
| OpMakeSpace (n : Z).

(** One call on the implementation: the string it returns, if any. *)
Definition exec (o : op) (b : Buffer) : outcome (bytes * Buffer) :=
  match o with
  | OpAppend d => b' ← append d b; Ok ([], b')
  | OpRetrieve n => Ok ([], retrieve n b)
  | OpRetrieveAll => Ok ([], retrieveAll b)
  | OpRetrieveAsString n => retrieveAsString n b
  | OpRetrieveAllAsString => retrieveAllAsString b
  | OpMakeSpace n => Ok ([], makeSpace n b)
  end.

(** The same call on the abstract queue. *)
Definition spec (o : op) (q : bytes) : bytes * bytes :=
  match o with
  | OpAppend d => ([], q ++ d)
  | OpRetrieve n => ([], drop (Z.to_nat n) q)
  | OpRetrieveAll => ([], [])
  | OpRetrieveAsString n => (take (Z.to_nat n) q, drop (Z.to_nat n) q)
  | OpRetrieveAllAsString => (q, [])
  | OpMakeSpace _ => ([], q)
  end.

(** The caller's side: sizes are not negative, a string is not longer than the
    content, and the vector stays within [limit] bytes. *)
Definition legal (limit : Z) (o : op) (q : bytes) : Prop :=
  match o with
  | OpAppend _ | OpRetrieveAll | OpRetrieveAllAsString => True
  | OpRetrieve n => 0 <= n
  | OpRetrieveAsString n => 0 <= n <= zlen q
  | OpMakeSpace n => 0 <= n <= limit
  end.

Fixpoint run (os : list op) (b : Buffer) : outcome (list bytes * Buffer) :=
  match os with
  | [] => Ok ([], b)
  | o :: os =>
      '(s, b') ← exec o b;
      '(ss, b'') ← run os b';
      Ok (s :: ss, b'')
  end.

Fixpoint spec_run (os : list op) (q : bytes) : list bytes * bytes :=
  match os with
  | [] => ([], q)
  | o :: os => let '(s, q') := spec o q in
      let '(ss, q'') := spec_run os q' in (s :: ss, q'')
  end.

Fixpoint legal_run (limit : Z) (os : list op) (q : bytes) : Prop :=
  match os with
  | [] => True
  | o :: os => legal limit o q /\ legal_run limit os (spec o q).2
  end.

Lemma retrieveAsString_spec n b :
  wf b -> 0 <= n <= zlen (content b) ->
  retrieveAsString n b = Ok (take (Z.to_nat n) (content b), retrieve n b).
Proof.
  intros Hwf Hn. rewrite zlen_content in Hn by done. unfold retrieveAsString.
  destruct Hwf as (? & ? & ? & ?).
  rewrite (proj2 (Z.leb_le _ _)) by (buf; lia). simpl. do 2 f_equal.
  unfold content, slice, peek. rewrite take_take. f_equal. lia.
Qed.

Lemma append_ok_inv d b b' :
  wf b -> append d b = Ok b' -> wf b' /\ content b' = content b ++ d /\ size b' = size b.
Proof.
  intros Hwf Ha. destruct (Z.le_gt_cases (zlen d) (room b)) as [Hle|Hgt].
  - destruct (append_fits d b Hwf Hle) as (b0 & Ha0 & ? & ? & ? & _).
    rewrite Ha in Ha0. by injection Ha0 as <-.
  - by rewrite append_overflows in Ha.
Qed.

Lemma exec_refines limit o b s b' :
  wf b -> limit + size b < 2 ^ 63 -> legal limit o (content b) ->
  exec o b = Ok (s, b') -> wf b' /\ (s, content b') = spec o (content b).
Proof.
  intros Hwf Hlim Hleg. destruct o as [d|n| |n| |n]; simpl in *.
  - rewrite bind_ok. intros (b0 & Ha & [= <- <-]).
    destruct (append_ok_inv d b b0 Hwf Ha) as (? & -> & _). done.
  - intros [= <- <-]. rewrite retrieve_content by done. auto with buffer.
  - intros [= <- <-]. split; [by apply retrieveAll_wf | done].
  - rewrite retrieveAsString_spec by (done || lia). intros [= <- <-].
    split; [apply retrieve_wf; [done|lia]|]. by rewrite retrieve_content by (done || lia).
  - unfold retrieveAllAsString. rewrite readableBytes_content by done.
    rewrite retrieveAsString_spec by (done || zlia). intros [= <- <-].
    split; [apply retrieve_wf; [done|zlia]|].
    rewrite retrieve_content by (done || zlia). unfold zlen.
    by rewrite Nat2Z.id, drop_ge, take_ge.
  - intros [= <- <-]. destruct (makeSpace_spec n b Hwf) as (? & -> & _); [lia..|]. done.
Qed.

Lemma makeSpace_size len b :
  wf b -> 0 <= len -> len + size b < 2 ^ 63 -> size (makeSpace len b) <= size b + len.
Proof.
  intros Hwf Hlen Hmax. pose proof (zlen_content b Hwf) as Hc.
  destruct Hwf as (? & ? & ? & ?). unfold makeSpace. case_match.
  - rewrite wrapU_id by (unfold inU; buf; lia). unfold size in *; simpl.
    unfold zlen in *. rewrite length_resize. lia.
  - rewrite readableBytes_wf by done. fold (content b). unfold size in *. simpl.
    rewrite write_at_zlen; unfold kPrepend in *; lia.
Qed.

Lemma exec_size limit o b s b' :
  wf b -> 0 <= limit -> limit + size b < 2 ^ 63 -> legal limit o (content b) ->
  exec o b = Ok (s, b') -> size b' <= size b + limit.
Proof.
  intros Hwf H0 Hlim Hleg. destruct o as [d|n| |n| |n]; simpl in *.
  - rewrite bind_ok. intros (b0 & Ha & [= <- <-]).
    destruct (append_ok_inv d b b0 Hwf Ha) as (_ & _ & ->). lia.
  - intros [= <- <-]. unfold retrieve. case_match; unfold retrieveAll, size; simpl; lia.
  - intros [= <- <-]. unfold retrieveAll, size; simpl; lia.
  - rewrite retrieveAsString_spec by (done || lia). intros [= <- <-].
    unfold retrieve. case_match; unfold retrieveAll, size; simpl; lia.
  - unfold retrieveAllAsString. rewrite readableBytes_content by done.
    rewrite retrieveAsString_spec by (done || zlia). intros [= <- <-].
    unfold retrieve. case_match; unfold retrieveAll, size; simpl; lia.
  - intros [= <- <-]. pose proof (makeSpace_size n b Hwf). lia.
Qed.

(** C20. Refinement: any sequence of legal calls that returns hands out exactly
    the strings the abstract byte queue hands out, in order, and leaves a
    buffer that stands for the queue's final content. *)
Theorem run_refines_queue limit os b ss b'
    (Hwf : wf b) (Hlimit : 0 <= limit)
    (Hmax : limit * (1 + zlen os) + size b < 2 ^ 63)
    (Hlegal : legal_run limit os (content b)) (Hrun : run os b = Ok (ss, b')) :
  wf b' /\ (ss, content b') = spec_run os (content b).
Proof.
  revert b ss b' Hwf Hmax Hlegal Hrun.
  induction os as [|o os IH]; simpl; intros b ss b' Hwf Hmax Hlegal Hrun.
  { by injection Hrun as <- <-. }
  rewrite zlen_cons in Hmax. zlen_facts.
  apply bind_ok in Hrun as ([s b1] & He & Hrun).
  apply bind_ok in Hrun as ([ss' b2] & Hr & [= <- <-]).
  destruct Hlegal as [Hl Hlegal].
  pose proof (exec_size limit o b s b1 Hwf Hlimit ltac:(nia) Hl He).
  destruct (exec_refines limit o b s b1 Hwf ltac:(nia) Hl He) as (Hwf1 & Hs).
  rewrite <- Hs in Hlegal |- *. simpl in Hlegal.
  destruct (IH b1 ss' b2 Hwf1 ltac:(nia) Hlegal Hr) as (? & <-). done.
Qed.

Lemma run_refines_queue_witness :
  let os := [OpAppend (txt "GET /"); OpRetrieveAsString 3; OpMakeSpace 2000;
             OpAppend (txt " HTTP"); OpRetrieveAllAsString] in
  let ss := [txt ""; txt "GET"; txt ""; txt ""; txt " / HTTP"] in
  exists b', run os (Buffer_ctor 0) = Ok (ss, b')
    /\ wf b' /\ (ss, content b') = spec_run os (content (Buffer_ctor 0)).
Proof.
  eexists. split; [vm_compute; reflexivity|].
  apply (run_refines_queue 5000) with (b := Buffer_ctor 0);
    [apply ctor_wf | lia | reflexivity | | reflexivity].
  repeat split; vm_compute; congruence.
Defined.
