(* ===== verification/Channel.v ===== *)
(** include/Channel.h and src/Channel.cc: one file descriptor, the events it is
    interested in, the events that came back, and the callbacks bound to them.

    Objects live in a store and are named by their address.  The operations
    that reach the poller (enableReading and its kin, remove) are in [Poller],
    which owns that store; here are the data, the event masks, and the dispatch
    of the returned events, written against an interface [ChannelStore] so that
    the callbacks may change or destroy any object while the dispatch runs. *)

From S2P Require Import Prelude TimeStamp.

(** The address of an object. *)
Abbreviation addr := Z.

(** The event bits of <poll.h>. *)
Definition POLLIN : Z := 1.
Definition POLLPRI : Z := 2.
Definition POLLOUT : Z := 4.
Definition POLLERR : Z := 8.
Definition POLLHUP : Z := 16.
Definition POLLRDHUP : Z := 8192.

Definition kNonEvent : Z := 0.
Definition kReadEvent : Z := Z.lor POLLIN POLLPRI.
Definition kWriteEvent : Z := POLLOUT.

(** The callbacks the program binds: a member function and its object. *)
Inductive Callback :=
| CbConnRead (conn : addr)       (* TcpConnection::handleRead *)
| CbConnWrite (conn : addr)      (* TcpConnection::handleWrite *)
| CbConnClose (conn : addr)      (* TcpConnection::handleClose *)
| CbConnError (conn : addr)      (* TcpConnection::handleError *)
| CbTimerRead (queue : addr)     (* TimerQueue::handleRead *)
| CbWakeupRead (loop : addr)     (* EventLoop::handleRead *)
| CbAcceptorRead (acceptor : addr). (* Acceptor::handleRead *)

#[export] Instance Callback_eq_dec : EqDecision Callback.
Proof. solve_decision. Defined.

(** The class's data members ([tie_] is the object the weak_ptr observes). *)
Record Channel := mkChannel {
  fd_ : Z;
  events_ : Z;
  revents_ : Z;
  index_ : Z;
  tie_ : option addr;
  tied_ : bool;
  eventHandling_ : bool;
  addedToLoop_ : bool;
  readCallback_ : option Callback;
  writeCallback_ : option Callback;
  closeCallback_ : option Callback;
  errorCallback_ : option Callback;
}.

#[export] Instance Channel_eq_dec : EqDecision Channel.
Proof. solve_decision. Defined.

Definition Channel_ctor (fd : Z) : Channel :=
  mkChannel fd 0 0 (-1) None false false false None None None None.

(** Member assignments. *)
Definition with_events (e : Z) (c : Channel) : Channel :=
  mkChannel (fd_ c) e (revents_ c) (index_ c) (tie_ c) (tied_ c) (eventHandling_ c)
    (addedToLoop_ c) (readCallback_ c) (writeCallback_ c) (closeCallback_ c)
    (errorCallback_ c).
Definition set_revents (r : Z) (c : Channel) : Channel :=
  mkChannel (fd_ c) (events_ c) r (index_ c) (tie_ c) (tied_ c) (eventHandling_ c)
    (addedToLoop_ c) (readCallback_ c) (writeCallback_ c) (closeCallback_ c)
    (errorCallback_ c).
Definition set_index (i : Z) (c : Channel) : Channel :=
  mkChannel (fd_ c) (events_ c) (revents_ c) i (tie_ c) (tied_ c) (eventHandling_ c)
    (addedToLoop_ c) (readCallback_ c) (writeCallback_ c) (closeCallback_ c)
    (errorCallback_ c).
Definition with_eventHandling (b : bool) (c : Channel) : Channel :=
  mkChannel (fd_ c) (events_ c) (revents_ c) (index_ c) (tie_ c) (tied_ c) b
    (addedToLoop_ c) (readCallback_ c) (writeCallback_ c) (closeCallback_ c)
    (errorCallback_ c).
Definition with_addedToLoop (b : bool) (c : Channel) : Channel :=
  mkChannel (fd_ c) (events_ c) (revents_ c) (index_ c) (tie_ c) (tied_ c)
    (eventHandling_ c) b (readCallback_ c) (writeCallback_ c) (closeCallback_ c)
    (errorCallback_ c).

(** tie(obj): a weak_ptr to the owner. *)
Definition tie (obj : addr) (c : Channel) : Channel :=
  mkChannel (fd_ c) (events_ c) (revents_ c) (index_ c) (Some obj) true
    (eventHandling_ c) (addedToLoop_ c) (readCallback_ c) (writeCallback_ c)
    (closeCallback_ c) (errorCallback_ c).

Definition setReadCallback (cb : Callback) (c : Channel) : Channel :=
  mkChannel (fd_ c) (events_ c) (revents_ c) (index_ c) (tie_ c) (tied_ c)
    (eventHandling_ c) (addedToLoop_ c) (Some cb) (writeCallback_ c)
    (closeCallback_ c) (errorCallback_ c).
Definition setWriteCallback (cb : Callback) (c : Channel) : Channel :=
  mkChannel (fd_ c) (events_ c) (revents_ c) (index_ c) (tie_ c) (tied_ c)
    (eventHandling_ c) (addedToLoop_ c) (readCallback_ c) (Some cb)
    (closeCallback_ c) (errorCallback_ c).
Definition setCloseCallback (cb : Callback) (c : Channel) : Channel :=
  mkChannel (fd_ c) (events_ c) (revents_ c) (index_ c) (tie_ c) (tied_ c)
    (eventHandling_ c) (addedToLoop_ c) (readCallback_ c) (writeCallback_ c)
    (Some cb) (errorCallback_ c).
Definition setErrorCallback (cb : Callback) (c : Channel) : Channel :=
  mkChannel (fd_ c) (events_ c) (revents_ c) (index_ c) (tie_ c) (tied_ c)
    (eventHandling_ c) (addedToLoop_ c) (readCallback_ c) (writeCallback_ c)
    (closeCallback_ c) (Some cb).

(** A conversion of an int to bool. *)
Definition to_bool (z : Z) : bool := negb (z =? 0).

Definition isWriting (c : Channel) : bool := to_bool (Z.land (events_ c) kWriteEvent).
Definition isReading (c : Channel) : bool := to_bool (Z.land (events_ c) kReadEvent).
Definition isNoneEvent (c : Channel) : bool := events_ c =? kNonEvent.

(** The new value of events_ in enableReading, disableReading, enableWriting,
    disableWriting and disableAll. *)
Definition ev_enableReading (e : Z) : Z := Z.lor e kReadEvent.
Definition ev_disableReading (e : Z) : Z := Z.land e (Z.lnot kReadEvent).
Definition ev_enableWriting (e : Z) : Z := Z.lor e kWriteEvent.
Definition ev_disableWriting (e : Z) : Z := Z.land e (Z.lnot kWriteEvent).
Definition ev_disableAll (e : Z) : Z := kNonEvent.

(** ** The event masks *)

(** Masks the program builds: combinations of the read and the write event. *)
Definition ev_wf (e : Z) : Prop :=
  e = 0 \/ e = kReadEvent \/ e = kWriteEvent \/ e = Z.lor kReadEvent kWriteEvent.

Definition ev_reading (e : Z) : bool := to_bool (Z.land e kReadEvent).
Definition ev_writing (e : Z) : bool := to_bool (Z.land e kWriteEvent).

Ltac ev_cases H := destruct H as [->|[->|[->| ->]]].

(** The event mask is a pair of independent switches: the five operations
    keep it one of the four legal masks, and each sets or clears exactly the
    interest it names. *)
Theorem ev_switches e (He : ev_wf e) :
  (ev_wf (ev_enableReading e) /\ ev_wf (ev_disableReading e)
   /\ ev_wf (ev_enableWriting e) /\ ev_wf (ev_disableWriting e) /\ ev_wf (ev_disableAll e))
  /\ (ev_reading (ev_enableReading e) = true
      /\ ev_writing (ev_enableReading e) = ev_writing e)
  /\ (ev_reading (ev_disableReading e) = false
      /\ ev_writing (ev_disableReading e) = ev_writing e)
  /\ (ev_writing (ev_enableWriting e) = true
      /\ ev_reading (ev_enableWriting e) = ev_reading e)
  /\ (ev_writing (ev_disableWriting e) = false
      /\ ev_reading (ev_disableWriting e) = ev_reading e)
  /\ (ev_disableAll e =? 0) = true.
Proof. ev_cases He; repeat split; try reflexivity; vm_compute; tauto. Qed.

Lemma ev_switches_witness :
  ev_wf kReadEvent /\ ev_writing (ev_enableWriting kReadEvent) = true.
Proof.
  assert (ev_wf kReadEvent) as H by (right; left; reflexivity).
  split; [exact H|]. apply (ev_switches kReadEvent H).
Defined.

(** ** Dispatch of the returned events *)

(** What the dispatch needs of the rest of the program: the channel objects,
    which objects a weak_ptr can still lock, and the callbacks' effect. *)
Class ChannelStore (W : Type) := {
  cs_get : addr -> W -> option Channel;
  cs_put : addr -> Channel -> W -> W;
  cs_alive : addr -> W -> bool;
  cs_invoke : Callback -> TimeStamp -> W -> outcome W;
}.

(** The laws of a store. *)
Class ChannelStoreLaws (W : Type) `{ChannelStore W} : Prop := {
  cs_get_put p c w : cs_get p (cs_put p c w) = Some c;
}.

Section dispatch.
Context {W : Type} `{ChannelStore W}.

(** Access to the members of the channel at [p]. *)
Definition load (p : addr) (w : W) : outcome Channel :=
  match cs_get p w with Some c => Ok c | None => Fault FUseAfterFree end.

Definition modify (p : addr) (f : Channel -> Channel) (w : W) : outcome W :=
  c ← load p w; Ok (cs_put p (f c) w).

(** [if (callback) callback(...);] *)
Definition call (cb : option Callback) (t : TimeStamp) (w : W) : outcome W :=
  match cb with Some f => cs_invoke f t w | None => Ok w end.

Definition handleEventWithGuard (p : addr) (receiveTime : TimeStamp) (w : W) : outcome W :=
  w ← modify p (with_eventHandling true) w;
  c ← load p w;
  w ← (if to_bool (Z.land (revents_ c) (Z.lor (Z.lor POLLIN POLLPRI) POLLRDHUP))
       then call (readCallback_ c) receiveTime w else Ok w);
  c ← load p w;
  w ← (if to_bool (Z.land (revents_ c) POLLOUT)
       then call (writeCallback_ c) receiveTime w else Ok w);
  modify p (with_eventHandling false) w.

Definition handleEvent (p : addr) (receiveTime : TimeStamp) (w : W) : outcome W :=
  c ← load p w;
  if tied_ c
  then
    match tie_ c with
    | Some obj => if cs_alive obj w then handleEventWithGuard p receiveTime w else Ok w
    | None => Ok w
    end
  else handleEventWithGuard p receiveTime w.
End dispatch.

(** ** The dispatch, observed

    A store that only records which callbacks run, in order. *)
Record Recorder := mkRecorder {
  rec_chans : gmap addr Channel;
  rec_alive : list addr;
  rec_called : list Callback;
}.

#[export] Instance recorder_store : ChannelStore Recorder := {
  cs_get p w := rec_chans w !! p;
  cs_put p c w := mkRecorder (<[p := c]> (rec_chans w)) (rec_alive w) (rec_called w);
  cs_alive p w := bool_decide (p ∈ rec_alive w);
  cs_invoke cb t w := Ok (mkRecorder (rec_chans w) (rec_alive w) (rec_called w ++ [cb]));
}.

#[export] Instance recorder_laws : ChannelStoreLaws Recorder.
Proof. split. intros p c w. apply lookup_insert_eq. Qed.

(** The callbacks an event mask selects. *)
Definition selected (c : Channel) : list Callback :=
  (if to_bool (Z.land (revents_ c) (Z.lor (Z.lor POLLIN POLLPRI) POLLRDHUP))
   then option_list (readCallback_ c) else [])
  ++ (if to_bool (Z.land (revents_ c) POLLOUT) then option_list (writeCallback_ c) else []).

(** The channel has no owner to keep alive, or its owner is alive. *)
Definition owner_alive (alive : list addr) (c : Channel) : bool :=
  negb (tied_ c) || match tie_ c with Some o => bool_decide (o ∈ alive) | None => false end.

Lemma call_recorded cb t w :
  call cb t w = Ok (mkRecorder (rec_chans w) (rec_alive w) (rec_called w ++ option_list cb)).
Proof. destruct cb; simpl; [done|]. rewrite app_nil_r. by destruct w. Qed.

Lemma handleEventWithGuard_recorded p t w c :
  rec_chans w !! p = Some c ->
  handleEventWithGuard p t w
  = Ok (mkRecorder (<[p := with_eventHandling false c]> (rec_chans w)) (rec_alive w)
          (rec_called w ++ selected c)).
Proof.
  intros Hc. unfold handleEventWithGuard, modify, load. simpl. rewrite Hc. simpl.
  rewrite lookup_insert_eq. simpl.
  set (w1 := mkRecorder (<[p := with_eventHandling true c]> (rec_chans w))
               (rec_alive w) (rec_called w)).
  set (b := to_bool (Z.land (revents_ c) _)).
  assert ((if b then call (readCallback_ c) t w1 else Ok w1)
    = Ok (mkRecorder (rec_chans w1) (rec_alive w1)
        (rec_called w1 ++ if b then option_list (readCallback_ c) else []))) as ->.
  { destruct b; [apply call_recorded|]. by rewrite app_nil_r. }
  simpl. rewrite lookup_insert_eq. simpl. set (b' := to_bool (Z.land (revents_ c) POLLOUT)).
  assert (forall w2, (if b' then call (writeCallback_ c) t w2 else Ok w2)
    = Ok (mkRecorder (rec_chans w2) (rec_alive w2)
        (rec_called w2 ++ if b' then option_list (writeCallback_ c) else []))) as Hw.
  { intros w2. destruct b'; [apply call_recorded|]. rewrite app_nil_r. by destruct w2. }
  rewrite Hw. simpl. rewrite lookup_insert_eq. simpl.
  rewrite insert_insert_eq, <- app_assoc. done.
Qed.

Lemma elem_of_option_list {A} (x : A) o : x ∈ option_list o -> o = Some x.
Proof.
  destruct o; simpl; [|by intros ?%elem_of_nil]. by intros ->%list_elem_of_singleton.
Qed.

(** C17. handleEvent calls the read callback on POLLIN, POLLPRI or POLLRDHUP, then
    the write callback on POLLOUT, and no other callback: the close and the
    error callback are never called, whatever events come back.  A tied channel
    whose owner is gone is left alone. *)
Theorem handleEvent_dispatch p t w c (Hc : rec_chans w !! p = Some c) :
  exists w', handleEvent p t w = Ok w'
    /\ rec_called w' = rec_called w ++
         (if owner_alive (rec_alive w) c then selected c else [])
    /\ (forall cb, cb ∈ (if owner_alive (rec_alive w) c then selected c else []) ->
          readCallback_ c = Some cb \/ writeCallback_ c = Some cb).
Proof.
  assert (Hsel : forall cb, cb ∈ selected c ->
    readCallback_ c = Some cb \/ writeCallback_ c = Some cb).
  { intros cb. unfold selected. rewrite elem_of_app.
    intros [H|H]; case_match; try (by apply elem_of_nil in H);
      apply elem_of_option_list in H; auto. }
  unfold handleEvent, load, owner_alive. simpl. rewrite Hc. simpl.
  destruct (tied_ c); simpl.
  - destruct (tie_ c) as [o|].
    + destruct (bool_decide (o ∈ rec_alive w)); simpl.
      * rewrite (handleEventWithGuard_recorded p t w c Hc). eexists; eauto.
      * exists w. rewrite app_nil_r. repeat split; set_solver.
    + exists w. rewrite app_nil_r. repeat split; set_solver.
  - rewrite (handleEventWithGuard_recorded p t w c Hc). eexists; eauto.
Qed.

(** A hang-up with a pending error: registered close and error callbacks, and
    nothing is called. *)
Lemma handleEvent_dispatch_witness :
  let c := set_revents (Z.lor POLLHUP POLLERR)
    (setErrorCallback (CbConnError 7) (setCloseCallback (CbConnClose 7)
      (setWriteCallback (CbConnWrite 7) (setReadCallback (CbConnRead 7)
        (Channel_ctor 5))))) in
  let w := mkRecorder {[ 100 := c ]} [] [] in
  rec_chans w !! 100 = Some c
  /\ exists w', handleEvent 100 invalid w = Ok w' /\ rec_called w' = [].
Proof.
  intros c w. assert (rec_chans w !! 100 = Some c) as Hc by reflexivity.
  split; [exact Hc|].
  destruct (handleEvent_dispatch 100 invalid w c Hc) as (w' & Hw' & Hcalled & _).
  exists w'. split; [exact Hw' | exact Hcalled].
Defined.
