(* ===== verification/Poller.v ===== *)
(** include/Poller.h, src/Poller.cc, include/EpollPoller.h, src/EpollPoller.cc, and
    the operations of Channel and EventLoop that go through the poller.

    A [Reactor] is what one loop owns: the channel objects, by address, the
    poller's channels_ map, the size of its event array, and the kernel's epoll
    instance.  The kernel is not part of the program: it is any type with the
    class [EpollKernel], whose laws are those epoll_ctl(2) documents; the
    instance over gmap shows they can be met.  A failing epoll_ctl is fatal in
    the source (LOG_FATAL aborts the process), and [update_ok], [remove_ok] show
    that it never happens to a caller that respects the registration protocol. *)

From S2P Require Import Prelude TimeStamp Channel.

Inductive ctl_op := EPOLL_CTL_ADD | EPOLL_CTL_MOD | EPOLL_CTL_DEL.

(** The kernel side of one epoll instance: which descriptors can be registered
    (the open ones of a kind that can be watched: sockets, eventfds, timerfds, and
    neither -1 nor a regular file), what is registered for a descriptor (mask and
    user data), and epoll_ctl. *)
Class EpollKernel (K : Type) := {
  watchable : Z -> bool;
  interest : K -> Z -> option (Z * addr);
  epoll_ctl : ctl_op -> Z -> Z -> addr -> K -> Z * K;
}.

Arguments watchable K {_} _.

(** epoll_ctl(2): ADD fails on a registered descriptor (EEXIST) and on one that
    cannot be registered (EBADF, EPERM), MOD and DEL fail (ENOENT) on an
    unregistered one; otherwise they succeed and touch only the descriptor's entry.
    A system that runs out of kernel memory or of watches (ENOMEM, ENOSPC) is
    outside these laws; whatever makes epoll_ctl fail, the code aborts
    ([update_fails]). *)
Class EpollKernelLaws (K : Type) `{EpollKernel K} : Prop := {
  ctl_add k fd ev p : interest k fd = None -> watchable K fd = true ->
    (epoll_ctl EPOLL_CTL_ADD fd ev p k).1 = 0
    /\ forall fd', interest (epoll_ctl EPOLL_CTL_ADD fd ev p k).2 fd'
         = if decide (fd' = fd) then Some (ev, p) else interest k fd';
  ctl_mod k fd ev p : interest k fd <> None ->
    (epoll_ctl EPOLL_CTL_MOD fd ev p k).1 = 0
    /\ forall fd', interest (epoll_ctl EPOLL_CTL_MOD fd ev p k).2 fd'
         = if decide (fd' = fd) then Some (ev, p) else interest k fd';
  ctl_del k fd ev p : interest k fd <> None ->
    (epoll_ctl EPOLL_CTL_DEL fd ev p k).1 = 0
    /\ forall fd', interest (epoll_ctl EPOLL_CTL_DEL fd ev p k).2 fd'
         = if decide (fd' = fd) then None else interest k fd';
  ctl_add_exists k fd ev p : interest k fd <> None ->
    epoll_ctl EPOLL_CTL_ADD fd ev p k = (-1, k);
  ctl_absent k op fd ev p : interest k fd = None -> op <> EPOLL_CTL_ADD ->
    epoll_ctl op fd ev p k = (-1, k);
  watchable_fd fd : watchable K fd = true -> 0 <= fd;
  ctl_unwatchable k fd ev p : watchable K fd = false ->
    epoll_ctl EPOLL_CTL_ADD fd ev p k = (-1, k);
}.

(** A kernel that does what the manual page says, in a process all of whose
    descriptors can be watched. *)
#[export] Instance gmap_kernel : EpollKernel (gmap Z (Z * addr)) := {
  watchable fd := 0 <=? fd;
  interest k fd := k !! fd;
  epoll_ctl op fd ev p k :=
    match op, k !! fd with
    | EPOLL_CTL_ADD, None => if 0 <=? fd then (0, <[fd := (ev, p)]> k) else (-1, k)
    | EPOLL_CTL_MOD, Some _ => (0, <[fd := (ev, p)]> k)
    | EPOLL_CTL_DEL, Some _ => (0, delete fd k)
    | _, _ => (-1, k)
    end;
}.

#[export] Instance gmap_kernel_laws : EpollKernelLaws (gmap Z (Z * addr)).
Proof.
  split; simpl; intros *.
  - intros -> ->. split; [done|]. intros fd'. simpl. case_decide; simplify_map_eq; done.
  - intros H. destruct (k !! fd); [|done]. split; [done|]. intros fd'. simpl.
    case_decide; simplify_map_eq; done.
  - intros H. destruct (k !! fd); [|done]. split; [done|]. intros fd'. simpl.
    case_decide; simplify_map_eq; done.
  - intros H. by destruct (k !! fd).
  - intros ->. by destruct op.
  - apply Z.leb_le.
  - intros ->. by destruct (k !! fd).
Qed.

Definition kNew : Z := -1.
Definition kAdded : Z := 1.
Definition kDeleted : Z := 2.
Definition kInitEventListSize : Z := 16.

(** One loop's poller, the channels it may meet, and the kernel. *)
Record Reactor (K : Type) := mkReactor {
  chans : gmap addr Channel;
  channels_ : gmap Z addr;
  eventListSize : Z;
  kernel : K;
}.
Arguments mkReactor {K} _ _ _ _.
Arguments chans {K} _.
Arguments channels_ {K} _.
Arguments eventListSize {K} _.
Arguments kernel {K} _.

Section poller.
Context {K : Type} `{EpollKernel K}.
Implicit Types (r : Reactor K) (p : addr) (c : Channel).

(** EpollPoller::EpollPoller, on the epoll instance epoll_create1 returned. *)
Definition EpollPoller_ctor (k : K) : Reactor K := mkReactor ∅ ∅ kInitEventListSize k.

(** Access to a channel object. *)
Definition get p r : outcome Channel :=
  match chans r !! p with Some c => Ok c | None => Fault FUseAfterFree end.

Definition put p c r : Reactor K :=
  mkReactor (<[p := c]> (chans r)) (channels_ r) (eventListSize r) (kernel r).

(** EpollPoller::update(operation, channel). *)
Definition update (operation : ctl_op) p r : outcome (Reactor K) :=
  c ← get p r;
  let '(ret, k) := epoll_ctl operation (fd_ c) (events_ c) p (kernel r) in
  if ret <? 0 then Fault FAbort
  else Ok (mkReactor (chans r) (channels_ r) (eventListSize r) k).

(** EpollPoller::updateChannel(channel). *)
Definition updateChannel p r : outcome (Reactor K) :=
  c ← get p r;
  let index := index_ c in
  if (index =? kNew) || (index =? kDeleted)
  then
    let fd := fd_ c in
    let r := if index =? kNew
             then mkReactor (chans r) (<[fd := p]> (channels_ r)) (eventListSize r) (kernel r)
             else r in
    update EPOLL_CTL_ADD p (put p (set_index kAdded c) r)
  else
    if isNoneEvent c
    then
      r ← update EPOLL_CTL_DEL p r;
      c ← get p r;
      Ok (put p (set_index kDeleted c) r)
    else update EPOLL_CTL_MOD p r.

(** EpollPoller::removeChannel(channel). *)
Definition removeChannel p r : outcome (Reactor K) :=
  c ← get p r;
  let fd := fd_ c in
  let index := index_ c in
  let r := mkReactor (chans r) (delete fd (channels_ r)) (eventListSize r) (kernel r) in
  r ← (if index =? kAdded then update EPOLL_CTL_DEL p r else Ok r);
  c ← get p r;
  Ok (put p (set_index kNew c) r).

(** Poller::hasChannel(channel). *)
Definition hasChannel p r : outcome bool :=
  c ← get p r;
  Ok (bool_decide (channels_ r !! fd_ c = Some p)).

(** Channel::update(), through EventLoop::updateChannel. *)
Definition Channel_update p r : outcome (Reactor K) :=
  c ← get p r;
  updateChannel p (put p (with_addedToLoop true c) r).

(** Channel::remove(), through EventLoop::removeChannel. *)
Definition Channel_remove p r : outcome (Reactor K) :=
  c ← get p r;
  removeChannel p (put p (with_addedToLoop false c) r).

(** [events_ = f(events_); update();] *)
Definition change_events (f : Z -> Z) p r : outcome (Reactor K) :=
  c ← get p r;
  Channel_update p (put p (with_events (f (events_ c)) c) r).

Definition enableReading := change_events ev_enableReading.
Definition disableReading := change_events ev_disableReading.
Definition enableWriting := change_events ev_enableWriting.
Definition disableWriting := change_events ev_disableWriting.
Definition disableAll := change_events ev_disableAll.

(** What epoll_wait(2) answers: -1 and errno, or events with their user data. *)
Inductive epoll_result :=
| EpollError (errno : Z)
| EpollEvents (evs : list (Z * addr)).

(** fillActiveChannel: store each event's mask in its channel, list the
    channels in the kernel's order. *)
Fixpoint fillActiveChannel (evs : list (Z * addr)) (activeChannel : list addr) r :
    outcome (list addr * Reactor K) :=
  match evs with
  | [] => Ok (activeChannel, r)
  | (events, channel) :: evs =>
      c ← get channel r;
      fillActiveChannel evs (activeChannel ++ [channel]) (put channel (set_revents events c) r)
  end.

(** EpollPoller::Poll; the event array doubles when epoll_wait filled it. *)
Definition Poll (res : epoll_result) (now : TimeStamp) (activeChannel : list addr) r :
    outcome (TimeStamp * list addr * Reactor K) :=
  match res with
  | EpollEvents [] => Ok (now, activeChannel, r)
  | EpollEvents evs =>
      let numEvents := zlen evs in
      '(active, r) ← fillActiveChannel evs activeChannel r;
      let r := if numEvents =? eventListSize r
               then mkReactor (chans r) (channels_ r) (eventListSize r * 2) (kernel r)
               else r in
      Ok (now, active, r)
  | EpollError _ => Ok (now, activeChannel, r)
  end.

(** Construction and destruction of a channel object. *)
Definition new_channel p fd r : Reactor K := put p (Channel_ctor fd) r.
Definition destroy_channel p r : Reactor K :=
  mkReactor (delete p (chans r)) (channels_ r) (eventListSize r) (kernel r).

(** The calls the rest of the program makes on one reactor. *)
Inductive change := EnableReading | DisableReading | EnableWriting | DisableWriting
  | DisableAll.

Inductive call :=
| CallNew (p : addr) (fd : Z)
| CallChange (ch : change) (p : addr)
| CallRemove (p : addr)
| CallDestroy (p : addr)
| CallPoll (res : epoll_result).

Definition change_fn (ch : change) : Z -> Z :=
  match ch with
  | EnableReading => ev_enableReading
  | DisableReading => ev_disableReading
  | EnableWriting => ev_enableWriting
  | DisableWriting => ev_disableWriting
  | DisableAll => ev_disableAll
  end.

Definition exec_call (o : call) r : outcome (Reactor K) :=
  match o with
  | CallNew p fd => Ok (new_channel p fd r)
  | CallChange ch p => change_events (change_fn ch) p r
  | CallRemove p => Channel_remove p r
  | CallDestroy p => Ok (destroy_channel p r)
  | CallPoll res => '(_, _, r) ← Poll res invalid [] r; Ok r
  end.

Fixpoint run_calls (os : list call) r : outcome (Reactor K) :=
  match os with
  | [] => Ok r
  | o :: os => r ← exec_call o r; run_calls os r
  end.

(** ** The registration invariant *)

(** A channel's state agrees with the poller's map and with the kernel. *)
Definition chan_ok r p c : Prop :=
  (index_ c = kNew \/ index_ c = kAdded \/ index_ c = kDeleted)
  /\ (index_ c = kAdded -> interest (kernel r) (fd_ c) = Some (events_ c, p))
  /\ (index_ c <> kNew -> channels_ r !! fd_ c = Some p).

(** Nothing is registered but live channels: no dangling pointer is in the
    poller's map or in the kernel. *)
Record reactor_ok r : Prop := {
  ok_chan p c : chans r !! p = Some c -> chan_ok r p c;
  ok_interest fd ev p : interest (kernel r) fd = Some (ev, p) ->
    exists c, chans r !! p = Some c /\ fd_ c = fd /\ index_ c = kAdded;
  ok_channels fd p : channels_ r !! fd = Some p ->
    exists c, chans r !! p = Some c /\ fd_ c = fd /\ index_ c <> kNew;
  ok_watch p c : chans r !! p = Some c -> watchable K (fd_ c) = true;
}.

(** The protocol: a channel that is not registered may be updated only while no
    other channel is registered for its descriptor. *)
Definition may_update r p c : Prop :=
  index_ c = kNew -> channels_ r !! fd_ c = None.

(** [r'] differs from [r] at most in channel [p] and its descriptor. *)
Definition only_changes p fd r r' : Prop :=
  (forall q, q <> p -> chans r' !! q = chans r !! q)
  /\ (forall fd', fd' <> fd -> interest (kernel r') fd' = interest (kernel r) fd'
                               /\ channels_ r' !! fd' = channels_ r !! fd').

(** The events epoll_wait(2) can report: at most as many as the array holds, one
    per registered descriptor, each with the user data registered for it. *)
Definition reported (evs : list (Z * addr)) r : Prop :=
  zlen evs <= eventListSize r /\ NoDup (map snd evs)
  /\ forall ev p, (ev, p) ∈ evs -> exists fd mask, interest (kernel r) fd = Some (mask, p).

(** The caller's side: objects are created at free addresses, for descriptors that
    can be watched, and destroyed only when unregistered, calls go to live
    channels, one channel per descriptor. *)
Definition legal_call (o : call) r : Prop :=
  match o with
  | CallNew p fd => chans r !! p = None /\ watchable K fd = true
  | CallChange _ p | CallRemove p => exists c, chans r !! p = Some c /\ may_update r p c
  | CallDestroy p => exists c, chans r !! p = Some c /\ index_ c = kNew
  | CallPoll (EpollEvents evs) => reported evs r
  | CallPoll (EpollError _) => True
  end.

Fixpoint legal_calls (os : list call) r : Prop :=
  match os with
  | [] => True
  | o :: os => legal_call o r /\ forall r', exec_call o r = Ok r' -> legal_calls os r'
  end.
End poller.

Section laws.
Context {K : Type} `{EpollKernelLaws K}.
Implicit Types (r : Reactor K) (p : addr) (c : Channel).

Lemma get_some p c r : chans r !! p = Some c -> get p r = Ok c.
Proof. unfold get. by intros ->. Qed.

Lemma EpollPoller_ctor_ok k :
  (forall fd, interest k fd = None) -> reactor_ok (EpollPoller_ctor k).
Proof. intros Hk. split; simpl; intros *; rewrite ?lookup_empty, ?Hk; done. Qed.

(** What is registered for a channel's descriptor. *)
Lemma registered_only r p c :
  reactor_ok r -> chans r !! p = Some c -> may_update r p c ->
  forall q, channels_ r !! fd_ c = Some q -> q = p.
Proof.
  intros Hr Hc Hmay q Hq. destruct (ok_chan r Hr p c Hc) as (_ & _ & Hm).
  destruct (decide (index_ c = kNew)) as [Hn|Hn].
  - rewrite (Hmay Hn) in Hq. done.
  - rewrite (Hm Hn) in Hq. congruence.
Qed.

Lemma registered_interest r p c :
  reactor_ok r -> chans r !! p = Some c -> may_update r p c ->
  interest (kernel r) (fd_ c)
  = if decide (index_ c = kAdded) then Some (events_ c, p) else None.
Proof.
  intros Hr Hc Hmay. destruct (ok_chan r Hr p c Hc) as (_ & Hi & _).
  case_decide as Ha; [by apply Hi|].
  destruct (interest (kernel r) (fd_ c)) as [[ev q]|] eqn:E; [|done]. exfalso.
  destruct (ok_interest r Hr _ _ _ E) as (cq & Hcq & Hfd & Hidx).
  destruct (ok_chan r Hr q cq Hcq) as (_ & _ & Hm). rewrite Hfd in Hm.
  assert (q = p) as ->.
  { apply (registered_only r p c Hr Hc Hmay). apply Hm. rewrite Hidx. done. }
  congruence.
Qed.

(** A change of one channel that leaves its entries consistent keeps the whole
    reactor consistent. *)
Lemma reactor_ok_change r r' p c c' :
  reactor_ok r -> chans r !! p = Some c -> may_update r p c ->
  only_changes p (fd_ c) r r' ->
  chans r' !! p = Some c' -> fd_ c' = fd_ c ->
  (index_ c' = kNew \/ index_ c' = kAdded \/ index_ c' = kDeleted) ->
  interest (kernel r') (fd_ c)
    = (if decide (index_ c' = kAdded) then Some (events_ c', p) else None) ->
  channels_ r' !! fd_ c = (if decide (index_ c' = kNew) then None else Some p) ->
  reactor_ok r'.
Proof.
  intros Hr Hc Hmay [Hq Hfd] Hc' Hfd' Hidx Hint Hch.
  pose proof (registered_only r p c Hr Hc Hmay) as Honly.
  split.
  - intros q cq Hcq. destruct (decide (q = p)) as [->|Hne].
    + rewrite Hc' in Hcq. injection Hcq as <-. unfold chan_ok. rewrite Hfd', Hint, Hch.
      split; [done|]. split; intros Hx; [by rewrite decide_True | by rewrite decide_False].
    + rewrite (Hq q Hne) in Hcq. destruct (ok_chan r Hr q cq Hcq) as (? & Hi & Hm).
      destruct (decide (fd_ cq = fd_ c)) as [Heq|Hneq].
      * destruct (decide (index_ cq = kNew)) as [Hn|Hn].
        { split; [done|]. rewrite Hn. split; [done|congruence]. }
        exfalso. apply Hne, Honly. rewrite <- Heq. by apply Hm.
      * destruct (Hfd (fd_ cq) Hneq) as [Hi' Hm']. unfold chan_ok. rewrite Hi', Hm'. done.
  - intros fd ev q Hi. destruct (decide (fd = fd_ c)) as [->|Hneq].
    + rewrite Hint in Hi. destruct (decide (index_ c' = kAdded)); [|done]. injection Hi as <- <-. eauto.
    + rewrite (proj1 (Hfd fd Hneq)) in Hi.
      destruct (ok_interest r Hr _ _ _ Hi) as (cq & Hcq & Hcfd & Hci).
      exists cq. split; [|done]. rewrite Hq; [done|]. intros ->. congruence.
  - intros fd q Hm. destruct (decide (fd = fd_ c)) as [->|Hneq].
    + rewrite Hch in Hm. destruct (decide (index_ c' = kNew)); [done|]. injection Hm as <-. eauto.
    + rewrite (proj2 (Hfd fd Hneq)) in Hm.
      destruct (ok_channels r Hr _ _ Hm) as (cq & Hcq & Hcfd & Hci).
      exists cq. split; [|done]. rewrite Hq; [done|]. intros ->. congruence.
  - intros q cq Hcq. destruct (decide (q = p)) as [->|Hne].
    + rewrite Hc' in Hcq. injection Hcq as <-. rewrite Hfd'. by apply (ok_watch r Hr p).
    + rewrite (Hq q Hne) in Hcq. by apply (ok_watch r Hr q).
Qed.

(** The index a channel has after an update. *)
Definition updated_index (index e : Z) : Z :=
  if decide (index = kAdded) then if e =? 0 then kDeleted else kAdded else kAdded.

Definition updated (e : Z) (c : Channel) : Channel :=
  set_index (updated_index (index_ c) e) (with_addedToLoop true (with_events e c)).

Lemma update_ctl op p c r :
  chans r !! p = Some c ->
  (epoll_ctl op (fd_ c) (events_ c) p (kernel r)).1 = 0 ->
  update op p r = Ok (mkReactor (chans r) (channels_ r) (eventListSize r)
    (epoll_ctl op (fd_ c) (events_ c) p (kernel r)).2).
Proof.
  intros Hc Hz. unfold update. rewrite (get_some p c r Hc). simpl.
  destruct (epoll_ctl _ _ _ _ _) as [ret k] eqn:E. simpl in *. by subst ret.
Qed.

(** Whatever makes epoll_ctl fail is fatal. *)
Lemma update_fails op p c r :
  chans r !! p = Some c ->
  (epoll_ctl op (fd_ c) (events_ c) p (kernel r)).1 < 0 -> update op p r = Fault FAbort.
Proof.
  intros Hc Hz. unfold update. rewrite (get_some p c r Hc). simpl.
  destruct (epoll_ctl _ _ _ _ _) as [ret k] eqn:E. simpl in *.
  by rewrite (proj2 (Z.ltb_lt _ _) Hz).
Qed.

(** The first update of a channel whose descriptor cannot be registered. *)
Lemma change_events_unwatchable f p c r :
  chans r !! p = Some c -> index_ c = kNew -> watchable K (fd_ c) = false ->
  change_events f p r = Fault FAbort.
Proof.
  intros Hc Hn Hw. unfold change_events. rewrite (get_some p c r Hc). simpl.
  unfold Channel_update. rewrite (get_some p _ _ (lookup_insert_eq _ _ _)). simpl.
  unfold updateChannel. rewrite (get_some p _ _ (lookup_insert_eq _ _ _)). simpl. rewrite Hn. simpl.
  eapply update_fails; [apply lookup_insert_eq|]. simpl. by rewrite ctl_unwatchable.
Qed.

(** Storing the same channel again and again keeps the last version. *)
Lemma chans_put p c r : chans (put p c r) !! p = Some c.
Proof. apply lookup_insert_eq. Qed.

Lemma put_put p c c' r : put p c (put p c' r) = put p c r.
Proof. unfold put. simpl. by rewrite insert_insert_eq. Qed.

#[local] Ltac reactor_lookup :=
  repeat (rewrite ?lookup_insert_eq, ?lookup_delete_eq; simpl;
          try rewrite lookup_insert_ne by done; try rewrite lookup_delete_ne by done).

(** One update: the poller and the kernel follow the channel's new mask, and
    nothing else changes. *)
Lemma change_events_exec f p c r :
  reactor_ok r -> chans r !! p = Some c -> may_update r p c ->
  exists r', change_events f p r = Ok r'
    /\ chans r' = <[p := updated (f (events_ c)) c]> (chans r)
    /\ channels_ r' = <[fd_ c := p]> (channels_ r)
    /\ eventListSize r' = eventListSize r
    /\ (forall fd, interest (kernel r') fd
          = if decide (fd = fd_ c)
            then if decide (updated_index (index_ c) (f (events_ c)) = kAdded)
                 then Some (f (events_ c), p) else None
            else interest (kernel r) fd).
Proof.
  intros Hr Hc Hmay. set (e := f (events_ c)).
  pose proof (registered_interest r p c Hr Hc Hmay) as Hint.
  destruct (ok_chan r Hr p c Hc) as (Hidx & _ & Hm).
  unfold change_events. rewrite (get_some p c r Hc). simpl. fold e.
  unfold Channel_update. rewrite (get_some p _ _ (chans_put _ _ _)). simpl.
  rewrite put_put. unfold updateChannel. rewrite (get_some p _ _ (chans_put _ _ _)). simpl.
  destruct (decide (index_ c = kAdded)) as [Ha|Ha].
  - rewrite Ha. simpl. assert (interest (kernel r) (fd_ c) <> None) as Hsome by congruence.
    assert (channels_ r = <[fd_ c := p]> (channels_ r)) as Hch.
    { symmetry. apply insert_id, Hm. rewrite Ha. done. }
    unfold isNoneEvent, updated, updated_index. rewrite Ha. simpl. unfold kNonEvent.
    destruct (e =? 0) eqn:He; simpl.
    + destruct (ctl_del (kernel r) (fd_ c) e p Hsome) as [Hret Hk].
      rewrite (update_ctl _ p _ _ (chans_put _ _ _)) by exact Hret. simpl.
      unfold get; simpl.
      rewrite lookup_insert_eq. simpl. eexists. split; [reflexivity|]. simpl.
      rewrite insert_insert_eq. repeat split; done.
    + destruct (ctl_mod (kernel r) (fd_ c) e p Hsome) as [Hret Hk].
      rewrite (update_ctl _ p _ _ (chans_put _ _ _)) by exact Hret. simpl.
      eexists. split; [reflexivity|]. simpl. repeat split; try done.
      unfold set_index, with_events, with_addedToLoop. simpl. by rewrite Ha.
  - assert ((index_ c =? kNew) || (index_ c =? kDeleted) = true) as ->.
    { apply orb_true_iff. rewrite !Z.eqb_eq. tauto. }
    destruct (ctl_add (kernel r) (fd_ c) e p Hint (ok_watch r Hr p c Hc)) as [Hret Hk].
    unfold updated, updated_index. rewrite (decide_False _ _ Ha).
    match goal with |- context [update EPOLL_CTL_ADD p ?R] => set (r1 := R) end.
    assert (chans r1 = <[p := set_index kAdded (with_addedToLoop true (with_events e c))]>
                         (chans r)
            /\ channels_ r1 = <[fd_ c := p]> (channels_ r)
            /\ eventListSize r1 = eventListSize r /\ kernel r1 = kernel r)
      as (H1 & H2 & H3 & H4).
    { subst r1. destruct (index_ c =? kNew) eqn:Hn; simpl; rewrite insert_insert_eq.
      - done.
      - apply Z.eqb_neq in Hn. repeat split. symmetry. apply insert_id, Hm, Hn. }
    assert (chans r1 !! p = Some (set_index kAdded (with_addedToLoop true (with_events e c))))
      as Hp by (rewrite H1; apply lookup_insert_eq).
    assert ((epoll_ctl EPOLL_CTL_ADD (fd_ c) e p (kernel r1)).1 = 0) as Hret1
      by (rewrite H4; exact Hret).
    rewrite (update_ctl EPOLL_CTL_ADD p _ _ Hp) by exact Hret1.
    eexists. split; [reflexivity|]. cbn [chans channels_ eventListSize kernel].
    rewrite H1, H2, H3, H4. repeat split; done.
Qed.

Lemma put_fresh_ok p c r :
  reactor_ok r -> chans r !! p = None -> index_ c = kNew -> watchable K (fd_ c) = true ->
  reactor_ok (put p c r).
Proof.
  intros Hr Hp Hn Hw. unfold put. split; simpl.
  - intros q cq [[<- <-]|[? Hq]]%lookup_insert_Some; [|by apply (ok_chan r Hr)].
    split; [by left|]. rewrite Hn. split; intros Hx; done.
  - intros fd' ev q Hi. destruct (ok_interest r Hr _ _ _ Hi) as (cq & Hq & ?).
    exists cq. rewrite lookup_insert_ne; [done|]. intros <-. congruence.
  - intros fd' q Hi. destruct (ok_channels r Hr _ _ Hi) as (cq & Hq & ?).
    exists cq. rewrite lookup_insert_ne; [done|]. intros <-. congruence.
  - intros q cq [[<- <-]|[? Hq]]%lookup_insert_Some; [done|by apply (ok_watch r Hr q)].
Qed.

Lemma new_channel_ok p fd r :
  reactor_ok r -> chans r !! p = None -> watchable K fd = true ->
  reactor_ok (new_channel p fd r).
Proof. intros Hr Hp Hw. by apply put_fresh_ok. Qed.

Lemma destroy_channel_ok p c r :
  reactor_ok r -> chans r !! p = Some c -> index_ c = kNew ->
  reactor_ok (destroy_channel p r).
Proof.
  intros Hr Hp Hn. unfold destroy_channel. split; simpl.
  - intros q cq [? Hq]%lookup_delete_Some. by apply (ok_chan r Hr).
  - intros fd ev q Hi. destruct (ok_interest r Hr _ _ _ Hi) as (cq & Hq & ? & Ha).
    exists cq. rewrite lookup_delete_ne; [done|]. intros <-. rewrite Hp in Hq.
    injection Hq as <-. by rewrite Hn in Ha.
  - intros fd q Hi. destruct (ok_channels r Hr _ _ Hi) as (cq & Hq & ? & Ha).
    exists cq. rewrite lookup_delete_ne; [done|]. intros <-. rewrite Hp in Hq.
    by injection Hq as <-.
  - intros q cq [? Hq]%lookup_delete_Some. by apply (ok_watch r Hr q).
Qed.

(** One enable or disable operation keeps the reactor consistent. *)
Lemma change_events_keeps f p c r :
  reactor_ok r -> chans r !! p = Some c -> may_update r p c ->
  exists r', change_events f p r = Ok r' /\ reactor_ok r'
    /\ chans r' !! p = Some (updated (f (events_ c)) c)
    /\ only_changes p (fd_ c) r r'.
Proof.
  intros Hr Hc Hmay. destruct (change_events_exec f p c r Hr Hc Hmay) as (r' & Hex & H1 & H2 & _ & H4).
  exists r'. split; [done|].
  assert (chans r' !! p = Some (updated (f (events_ c)) c)) as Hp
    by (rewrite H1; apply lookup_insert_eq).
  assert (only_changes p (fd_ c) r r') as Hoc.
  { split; intros ? ?; [rewrite H1 | rewrite H2, H4, decide_False by done];
      rewrite lookup_insert_ne by done; done. }
  split; [|done]. apply (reactor_ok_change r r' p c _ Hr Hc Hmay Hoc Hp); [done|..].
  - unfold updated, updated_index; simpl. repeat case_decide; try case_match; auto.
  - rewrite H4, decide_True by done. done.
  - rewrite H2, lookup_insert_eq, decide_False; [done|].
    unfold updated, updated_index; simpl. repeat case_decide; try case_match; done.
Qed.

(** Every enable or disable operation of a channel that respects the
    registration protocol returns (the epoll_ctl it makes cannot fail, so the
    LOG_FATAL is unreachable).  The channel holds the new mask, the kernel is
    registered with exactly that mask for the channel, except that a registered
    channel whose mask becomes empty leaves the kernel, and no other channel or
    descriptor is affected. *)
Theorem update_follows ch p c r (Hr : reactor_ok r) (Hc : chans r !! p = Some c)
    (Hmay : may_update r p c) :
  let mask := change_fn ch (events_ c) in
  exists r' c', exec_call (CallChange ch p) r = Ok r'
    /\ chans r' !! p = Some c' /\ events_ c' = mask /\ index_ c' <> kNew
    /\ interest (kernel r') (fd_ c)
       = (if (index_ c =? kAdded) && (mask =? 0) then None else Some (mask, p))
    /\ only_changes p (fd_ c) r r'.
Proof.
  destruct (change_events_exec (change_fn ch) p c r Hr Hc Hmay)
    as (r' & Hex & _ & _ & _ & Hk).
  destruct (change_events_keeps (change_fn ch) p c r Hr Hc Hmay)
    as (r'' & Hex' & _ & Hp & Hoc).
  rewrite Hex in Hex'. injection Hex' as <-.
  exists r', (updated (change_fn ch (events_ c)) c). split; [done|]. split; [done|].
  split; [done|]. rewrite Hk, decide_True by done. unfold updated, updated_index; simpl.
  split; [by repeat case_decide; try case_match|]. split; [|done].
  destruct (decide (index_ c = kAdded)) as [Ha|Ha].
  - rewrite (proj2 (Z.eqb_eq _ _) Ha). by destruct (_ =? 0).
  - by rewrite (proj2 (Z.eqb_neq _ _) Ha).
Qed.

Lemma remove_keeps p c r :
  reactor_ok r -> chans r !! p = Some c -> may_update r p c ->
  exists r', Channel_remove p r = Ok r' /\ reactor_ok r'
    /\ chans r' !! p = Some (set_index kNew (with_addedToLoop false c))
    /\ only_changes p (fd_ c) r r'
    /\ interest (kernel r') (fd_ c) = None /\ channels_ r' !! fd_ c = None.
Proof.
  intros Hr Hc Hmay. pose proof (registered_interest r p c Hr Hc Hmay) as Hint.
  set (c' := set_index kNew (with_addedToLoop false c)).
  assert (exists r', Channel_remove p r = Ok r' /\ chans r' = <[p := c']> (chans r)
    /\ channels_ r' = delete (fd_ c) (channels_ r)
    /\ (forall fd, interest (kernel r') fd
          = if decide (fd = fd_ c) then None else interest (kernel r) fd))
    as (r' & Hex & H1 & H2 & H3).
  { unfold Channel_remove. rewrite (get_some p c r Hc). simpl.
    unfold removeChannel. rewrite (get_some p _ _ (chans_put _ _ _)). simpl.
    destruct (index_ c =? kAdded) eqn:Ha.
    - apply Z.eqb_eq in Ha. rewrite decide_True in Hint by done.
      assert (interest (kernel r) (fd_ c) <> None) as Hsome by (rewrite Hint; done).
      destruct (ctl_del (kernel r) (fd_ c) (events_ c) p Hsome) as [Hret Hk].
      rewrite (update_ctl _ p (with_addedToLoop false c)) by
        (exact Hret || apply lookup_insert_eq).
      simpl. unfold get; simpl. rewrite lookup_insert_eq. simpl.
      eexists. split; [reflexivity|]. simpl. rewrite insert_insert_eq. repeat split; done.
    - apply Z.eqb_neq in Ha. rewrite decide_False in Hint by done. simpl.
      unfold get; simpl. rewrite lookup_insert_eq. simpl.
      eexists. split; [reflexivity|]. simpl. rewrite insert_insert_eq. repeat split.
      intros fd. case_decide; [by subst|done]. }
  assert (chans r' !! p = Some c') as Hp by (rewrite H1; apply lookup_insert_eq).
  assert (only_changes p (fd_ c) r r') as Hoc.
  { split; intros ? ?; [rewrite H1 | rewrite H2, H3, decide_False by done];
      rewrite ?lookup_insert_ne, ?lookup_delete_ne by done; done. }
  assert (interest (kernel r') (fd_ c) = None) as Hi by (rewrite H3, decide_True; done).
  assert (channels_ r' !! fd_ c = None) as Hm by (rewrite H2; apply lookup_delete_eq).
  assert (reactor_ok r') as Hr'.
  { apply (reactor_ok_change r r' p c c' Hr Hc Hmay Hoc Hp); [done|by left|done|done]. }
  exists r'. done.
Qed.

(** remove() cannot fail, and after it no pointer to the channel is left in
    the poller's map or in the kernel: the object can be destroyed, and the
    reactor without it is consistent. *)
Theorem remove_then_destroy p c r (Hr : reactor_ok r) (Hc : chans r !! p = Some c)
    (Hmay : may_update r p c) :
  exists r', exec_call (CallRemove p) r = Ok r' /\ reactor_ok (destroy_channel p r')
    /\ (forall fd ev, interest (kernel r') fd <> Some (ev, p))
    /\ (forall fd, channels_ r' !! fd <> Some p).
Proof.
  destruct (remove_keeps p c r Hr Hc Hmay) as (r' & Hex & Hr' & Hp & _ & _).
  exists r'. split; [done|].
  split; [eapply destroy_channel_ok; [done|exact Hp|done]|]. split.
  - intros fd ev Hi. destruct (ok_interest r' Hr' _ _ _ Hi) as (cq & Hq & _ & Ha).
    rewrite Hp in Hq. by injection Hq as <-.
  - intros fd Hi. destruct (ok_channels r' Hr' _ _ Hi) as (cq & Hq & _ & Ha).
    rewrite Hp in Hq. by injection Hq as <-.
Qed.

(** ** Poll *)

(** Changing the revents of a channel does not concern the registration. *)
Lemma put_revents_ok e p c r :
  reactor_ok r -> chans r !! p = Some c -> reactor_ok (put p (set_revents e c) r).
Proof.
  intros Hr Hc. assert (forall q cq, chans (put p (set_revents e c) r) !! q = Some cq ->
    exists c0, chans r !! q = Some c0 /\ fd_ cq = fd_ c0 /\ index_ cq = index_ c0
      /\ events_ cq = events_ c0) as Hback.
  { intros q cq Hq. unfold put in Hq; simpl in Hq.
    apply lookup_insert_Some in Hq as [[<- <-]|[? ?]]; eauto. }
  assert (forall q cq, chans r !! q = Some cq -> exists c1,
    chans (put p (set_revents e c) r) !! q = Some c1 /\ fd_ c1 = fd_ cq
      /\ index_ c1 = index_ cq) as Hfwd.
  { intros q cq Hq. unfold put; simpl. destruct (decide (q = p)) as [->|].
    - rewrite lookup_insert_eq. rewrite Hc in Hq. injection Hq as <-. eauto.
    - rewrite lookup_insert_ne by done. eauto. }
  split.
  - intros q cq Hq. destruct (Hback q cq Hq) as (cx & Hcx & Hf & Hi & He).
    unfold chan_ok. rewrite Hf, Hi, He. exact (ok_chan r Hr q cx Hcx).
  - intros fd ev q Hq. destruct (ok_interest r Hr _ _ _ Hq) as (cq & Hcq & Hf & Hi).
    destruct (Hfwd q cq Hcq) as (cx & ? & Hf' & Hi'). exists cx. by rewrite Hf', Hi'.
  - intros fd q Hq. destruct (ok_channels r Hr _ _ Hq) as (cq & Hcq & Hf & Hi).
    destruct (Hfwd q cq Hcq) as (cx & ? & Hf' & Hi'). exists cx. by rewrite Hf', Hi'.
  - intros q cq Hq. destruct (Hback q cq Hq) as (cx & Hcx & -> & _).
    by apply (ok_watch r Hr q).
Qed.

Lemma fillActiveChannel_ok evs active r :
  reactor_ok r -> NoDup (map snd evs) ->
  (forall ev p, (ev, p) ∈ evs -> is_Some (chans r !! p)) ->
  exists r', fillActiveChannel evs active r = Ok (active ++ map snd evs, r')
    /\ reactor_ok r' /\ kernel r' = kernel r /\ channels_ r' = channels_ r
    /\ eventListSize r' = eventListSize r
    /\ (forall ev p, (ev, p) ∈ evs ->
          exists c, chans r !! p = Some c /\ chans r' !! p = Some (set_revents ev c))
    /\ (forall p, p ∉ map snd evs -> chans r' !! p = chans r !! p).
Proof.
  revert active r. induction evs as [|[ev p] evs IH]; simpl; intros active r Hr Hnd Hlive.
  { exists r. rewrite app_nil_r. do 5 (split; [done|]). split; [|done].
    intros ev p Hn. by apply elem_of_nil in Hn. }
  apply NoDup_cons in Hnd as [Hp Hnd].
  destruct (Hlive ev p ltac:(set_solver)) as [c Hc]. rewrite (get_some p c r Hc). simpl.
  destruct (IH (active ++ [p]) (put p (set_revents ev c) r)) as
    (r' & -> & Hr' & Hk & Hm & Hsz & Hin & Hout); [by apply put_revents_ok|done|..].
  { intros ev' q Hq. unfold put; simpl. rewrite lookup_insert_is_Some.
    destruct (decide (p = q)); [by left|]. right. split; [done|].
    apply (Hlive ev' q). set_solver. }
  exists r'. rewrite <- app_assoc. split; [done|]. split; [done|]. split; [by rewrite Hk|].
  split; [by rewrite Hm|]. split; [by rewrite Hsz|]. split.
  - intros ev' q [[= -> ->]|Hq]%elem_of_cons.
    + exists c. split; [done|]. rewrite Hout by done. apply lookup_insert_eq.
    + destruct (Hin ev' q Hq) as (cq & Hcq & Hq'). exists cq. split; [|done].
      unfold put in Hcq; simpl in Hcq. rewrite lookup_insert_ne in Hcq; [done|].
      intros <-. apply Hp. rewrite list_elem_of_In, in_map_iff. exists (ev', p).
      by rewrite <- list_elem_of_In.
  - intros q [Hq Hq']%not_elem_of_cons. rewrite Hout by done. unfold put; simpl.
    by rewrite lookup_insert_ne.
Qed.

Lemma Poll_exec evs now r :
  reactor_ok r -> reported evs r ->
  exists r', Poll (EpollEvents evs) now [] r = Ok (now, map snd evs, r') /\ reactor_ok r'
    /\ kernel r' = kernel r /\ channels_ r' = channels_ r
    /\ eventListSize r'
       = (if (zlen evs =? eventListSize r) && (0 <? zlen evs)
          then eventListSize r * 2 else eventListSize r)
    /\ (forall ev p, (ev, p) ∈ evs -> exists c, chans r !! p = Some c
          /\ index_ c = kAdded /\ chans r' !! p = Some (set_revents ev c)).
Proof.
  intros Hr (_ & Hnd & Hreg). destruct (decide (evs = [])) as [->|Hne].
  { exists r. rewrite andb_false_r. do 5 (split; [done|]).
    intros ev p Hn. by apply elem_of_nil in Hn. }
  assert ((0 <? zlen evs) = true) as Hpos.
  { apply Z.ltb_lt. destruct evs; [done|]. zlia. }
  assert (forall ev p, (ev, p) ∈ evs ->
    exists c, chans r !! p = Some c /\ index_ c = kAdded) as Hlive.
  { intros ev p Hp. destruct (Hreg ev p Hp) as (fd & mask & Hi).
    destruct (ok_interest r Hr _ _ _ Hi) as (c & ? & _ & ?). eauto. }
  destruct (fillActiveChannel_ok evs [] r Hr Hnd) as
    (r' & Hfill & Hr' & Hk & Hm & Hsz & Hin & _).
  { intros ev p Hp. destruct (Hlive ev p Hp) as (c & -> & _). done. }
  assert (forall ev p, (ev, p) ∈ evs -> exists c, chans r !! p = Some c
              /\ index_ c = kAdded /\ chans r' !! p = Some (set_revents ev c)) as Hev.
  { intros ev p Hp. destruct (Hin ev p Hp) as (c & Hc & ?).
    destruct (Hlive ev p Hp) as (cx & Hcx & ?). exists c. by simplify_eq. }
  assert (Poll (EpollEvents evs) now [] r = (
    '(active, r) ← fillActiveChannel evs [] r;
     Ok (now, active, if zlen evs =? eventListSize r
        then mkReactor (chans r) (channels_ r) (eventListSize r * 2) (kernel r) else r)))
    as -> by (by destruct evs).
  rewrite Hfill, Hpos, andb_true_r. cbn [mbind outcome_bind]. rewrite Hsz.
  eexists. split; [reflexivity|].
  destruct (zlen evs =? eventListSize r); [|done].
  split; [|done]. by destruct Hr'; split.
Qed.

(** Poll turns what epoll_wait reports into the list of active channels, in
    the kernel's order: every one of them is a live, registered channel that now
    carries the reported mask; the event array doubles when it was full, and
    nothing else changes.  An error or a timeout leaves everything as it was. *)
Theorem Poll_spec res now r (Hr : reactor_ok r) (Hl : legal_call (CallPoll res) r) :
  match res with
  | EpollError _ => Poll res now [] r = Ok (now, [], r)
  | EpollEvents evs =>
      exists r', Poll res now [] r = Ok (now, map snd evs, r')
        /\ kernel r' = kernel r /\ channels_ r' = channels_ r
        /\ zlen evs <= eventListSize r
        /\ eventListSize r'
           = (if (zlen evs =? eventListSize r) && (0 <? zlen evs)
              then eventListSize r * 2 else eventListSize r)
        /\ (forall ev p, (ev, p) ∈ evs -> exists c, chans r !! p = Some c
              /\ index_ c = kAdded /\ chans r' !! p = Some (set_revents ev c))
  end.
Proof.
  destruct res as [e|evs]; [done|].
  destruct (Poll_exec evs now r Hr Hl) as (r' & ? & _ & ? & ? & ? & ?).
  exists r'. repeat split; try done. apply Hl.
Qed.

Lemma Poll_keeps res now r :
  reactor_ok r -> legal_call (CallPoll res) r ->
  exists t a r', Poll res now [] r = Ok (t, a, r') /\ reactor_ok r'.
Proof.
  intros Hr Hl. destruct res as [e|evs]; [by exists now, [], r|].
  destruct (Poll_exec evs now r Hr Hl) as (r' & ? & ? & _). eauto.
Qed.

(** The channels that are not reported stay as they are. *)
Lemma Poll_untouched evs now r t a r' p :
  reactor_ok r -> reported evs r -> Poll (EpollEvents evs) now [] r = Ok (t, a, r') ->
  p ∉ map snd evs -> chans r' !! p = chans r !! p.
Proof.
  intros Hr (_ & Hnd & Hreg) Hpoll Hp. destruct (decide (evs = [])) as [->|Hne].
  { simpl in Hpoll. by simplify_eq. }
  destruct (fillActiveChannel_ok evs [] r Hr Hnd) as (r1 & Hfill & _ & _ & _ & _ & _ & Hout).
  { intros ev q Hq. destruct (Hreg ev q Hq) as (fd & mask & Hi).
    destruct (ok_interest r Hr _ _ _ Hi) as (c & -> & _). done. }
  assert (Poll (EpollEvents evs) now [] r
    = '(active, r) ← fillActiveChannel evs [] r;
      let r := if zlen evs =? eventListSize r
               then mkReactor (chans r) (channels_ r) (eventListSize r * 2) (kernel r) else r in
      Ok (now, active, r)) as Hp' by by destruct evs.
  rewrite Hp', Hfill in Hpoll. simpl in Hpoll. rewrite <- (Hout p Hp).
  destruct (_ =? _); by simplify_eq.
Qed.

(** ** The protocol as a whole *)

Lemma exec_call_ok o r :
  reactor_ok r -> legal_call o r -> exists r', exec_call o r = Ok r' /\ reactor_ok r'.
Proof.
  intros Hr Hl. destruct o as [p fd|ch p|p|p|res]; simpl in *.
  - destruct Hl. eexists. split; [reflexivity|]. by apply new_channel_ok.
  - destruct Hl as (c & Hc & Hmay).
    destruct (change_events_keeps (change_fn ch) p c r Hr Hc Hmay) as (r' & ? & ? & _). eauto.
  - destruct Hl as (c & Hc & Hmay).
    destruct (remove_keeps p c r Hr Hc Hmay) as (r' & ? & ? & _). eauto.
  - destruct Hl as (c & Hc & Hn). eexists. split; [reflexivity|].
    by apply (destroy_channel_ok p c).
  - destruct (Poll_keeps res invalid r Hr) as (t & a & r' & -> & ?).
    { by destruct res. }
    exists r'. done.
Qed.

Lemma run_calls_ok os r :
  reactor_ok r -> legal_calls os r -> exists r', run_calls os r = Ok r' /\ reactor_ok r'.
Proof.
  revert r. induction os as [|o os IH]; simpl; intros r Hr Hl; [by exists r|].
  destruct Hl as [Ho Hl]. destruct (exec_call_ok o r Hr Ho) as (r' & Hex & Hr').
  rewrite Hex. simpl. apply (IH r' Hr'). by apply Hl.
Qed.

(** C16. Whatever sequence of channel and poller operations the program makes
    from a fresh poller, as long as it creates and destroys objects properly, for
    descriptors that epoll can watch, and keeps one channel per descriptor, no operation ever aborts or touches a
    destroyed channel, and the poller, the channels and the kernel agree at the
    end. *)
Theorem protocol_safe os k (Hk : forall fd, interest k fd = None)
    (Hl : legal_calls os (EpollPoller_ctor k)) :
  exists r, run_calls os (EpollPoller_ctor k) = Ok r /\ reactor_ok r.
Proof.
  apply run_calls_ok; [by apply EpollPoller_ctor_ok | done].
Qed.
End laws.

(** ** Concrete runs, on the documented kernel *)

(** A listening socket (fd 4) and a connection (fd 5) registered for reading. *)
Definition demo_calls : list call :=
  [CallNew 100 4; CallChange EnableReading 100; CallNew 200 5;
   CallChange EnableReading 200; CallChange EnableWriting 200].

Definition demo : Reactor (gmap Z (Z * addr)) :=
  mkReactor
    (<[200 := updated 7 (updated 3 (Channel_ctor 5))]>
      (<[100 := updated 3 (Channel_ctor 4)]> ∅))
    (<[5 := 200]> (<[4 := 100]> ∅)) 16
    (<[5 := (7, 200)]> (<[4 := (3, 100)]> ∅)).

Example demo_run : run_calls demo_calls (EpollPoller_ctor ∅) = Ok demo.
Proof. vm_compute. reflexivity. Qed.

Lemma demo_legal : legal_calls demo_calls (EpollPoller_ctor (∅ : gmap Z (Z * addr))).
Proof.
  cbn [legal_calls demo_calls].
  repeat (split; [first [ split; reflexivity
    | eexists; split; [vm_compute; reflexivity | intros _; vm_compute; reflexivity]
    | eexists; split; [vm_compute; reflexivity | intros Hk; vm_compute in Hk; done]]
    | let r := fresh in let Hr := fresh in
      intros r Hr; vm_compute in Hr; injection Hr as <-]).
  exact I.
Qed.

Lemma demo_ok : reactor_ok demo.
Proof.
  assert (exists r, run_calls demo_calls (EpollPoller_ctor (∅ : gmap Z (Z * addr))) = Ok r
          /\ reactor_ok r) as (r & Hr & Hok).
  { apply run_calls_ok; [by apply EpollPoller_ctor_ok | exact demo_legal]. }
  rewrite demo_run in Hr. by injection Hr as <-.
Qed.

Lemma demo_conn :
  chans demo !! 200 = Some (updated 7 (updated 3 (Channel_ctor 5))).
Proof. reflexivity. Qed.

Lemma update_follows_witness :
  reactor_ok demo /\ exists r' c', exec_call (CallChange DisableAll 200) demo = Ok r'
    /\ chans r' !! 200 = Some c' /\ events_ c' = 0
    /\ interest (kernel r') 5 = None.
Proof.
  split; [exact demo_ok|].
  destruct (update_follows DisableAll 200 _ demo demo_ok demo_conn) as
    (r' & c' & ? & ? & ? & _ & Hi & _); [intros Hk; vm_compute in Hk; done|].
  exists r', c'. done.
Defined.

Lemma remove_then_destroy_witness :
  exists r', exec_call (CallRemove 200) demo = Ok r'
    /\ (forall fd ev, interest (kernel r') fd <> Some (ev, 200)).
Proof.
  destruct (remove_then_destroy 200 _ demo demo_ok demo_conn) as (r' & ? & _ & ? & _);
    [intros Hk; vm_compute in Hk; done|].
  exists r'. done.
Defined.

Lemma demo_reported : legal_call (CallPoll (EpollEvents [(POLLIN, 200)])) demo.
Proof.
  split; [vm_compute; congruence|]. split.
  - constructor; [intros ?%elem_of_nil; done | constructor].
  - intros ev p [= -> ->]%list_elem_of_singleton. exists 5, 7. reflexivity.
Qed.

Lemma Poll_spec_witness :
  exists r', Poll (EpollEvents [(POLLIN, 200)]) invalid [] demo = Ok (invalid, [200], r').
Proof.
  destruct (Poll_spec _ invalid demo demo_ok demo_reported) as (r' & Hr' & _).
  exists r'. exact Hr'.
Defined.

Lemma protocol_safe_witness :
  exists r, run_calls demo_calls (EpollPoller_ctor (∅ : gmap Z (Z * addr))) = Ok r
    /\ reactor_ok r.
Proof.
  apply (protocol_safe demo_calls (∅ : gmap Z (Z * addr)));
    [intros fd; reflexivity | exact demo_legal].
Defined.
