(* ===== verification/EventLoop.v ===== *)
(** include/EventLoop.h and src/EventLoop.cc: the loop, its queue of functors and
    the eventfd that wakes it up.

    A functor and a channel's callbacks are known by what they ask of the loop
    ([act]): queue another functor, or quit.  A functor that calls runInLoop on
    the loop's thread runs the callee as part of its own body, so the callee's
    acts are its own.  The first part has one function per method, for any
    calling thread.  The second part is the program as the threads execute it: a
    step relation whose steps are those functions, in which other threads queue
    functors and quit at any moment, the push under the mutex and the write to
    the eventfd being two separate steps.  [trace_ran] and the configuration's
    [submitted] are ghost state: the functors that have run, and every functor
    ever queued, in the order of the mutex. *)

From S2P Require Import Prelude TimeStamp Channel.

(** What a callback asks of the loop. *)
Inductive act (F : Type) :=
| ActQueue (f : F)      (* queueInLoop *)
| ActQuit.              (* quit *)
Arguments ActQueue {F} _.
Arguments ActQuit {F}.

Record EventLoop (F : Type) := mkLoop {
  looping_ : bool;
  quit_ : bool;
  eventHandling_ : bool;
  callingPendingFunctors_ : bool;
  threadId_ : Z;
  pollReturnTime_ : TimeStamp;
  activeChannels_ : list addr;
  currentActiveChannel_ : option addr;
  wakeupChannel_ : addr;
  pendingFunctors_ : list F;
  eventfd_count : Z;          (* the kernel's counter behind wakeupFd_ *)
  trace_ran : list F;         (* ghost: the functors that ran *)
}.
Arguments mkLoop {F}.
Arguments looping_ {F}. Arguments quit_ {F}. Arguments eventHandling_ {F}.
Arguments callingPendingFunctors_ {F}. Arguments threadId_ {F}.
Arguments pollReturnTime_ {F}. Arguments activeChannels_ {F}.
Arguments currentActiveChannel_ {F}. Arguments wakeupChannel_ {F}.
Arguments pendingFunctors_ {F}. Arguments eventfd_count {F}. Arguments trace_ran {F}.

(** The largest value of an eventfd counter, eventfd(2). *)
Definition eventfd_max : Z := 2 ^ 64 - 2.

Section methods.
Context {F : Type}.
(** What a functor does, and what the callbacks of a channel do. *)
Variable body : F -> list (act F).
Variable callbacks : addr -> list (act F).
Implicit Types (s : EventLoop F).

Definition EventLoop_ctor (tid : Z) (wakeupChannel : addr) : EventLoop F :=
  mkLoop false false false false tid TimeStamp_default [] None wakeupChannel [] 0 [].

Definition set_looping (b : bool) s := mkLoop b (quit_ s) (eventHandling_ s)
  (callingPendingFunctors_ s) (threadId_ s) (pollReturnTime_ s) (activeChannels_ s)
  (currentActiveChannel_ s) (wakeupChannel_ s) (pendingFunctors_ s) (eventfd_count s)
  (trace_ran s).
Definition set_quit (b : bool) s := mkLoop (looping_ s) b (eventHandling_ s)
  (callingPendingFunctors_ s) (threadId_ s) (pollReturnTime_ s) (activeChannels_ s)
  (currentActiveChannel_ s) (wakeupChannel_ s) (pendingFunctors_ s) (eventfd_count s)
  (trace_ran s).
Definition set_eventHandling (b : bool) s := mkLoop (looping_ s) (quit_ s) b
  (callingPendingFunctors_ s) (threadId_ s) (pollReturnTime_ s) (activeChannels_ s)
  (currentActiveChannel_ s) (wakeupChannel_ s) (pendingFunctors_ s) (eventfd_count s)
  (trace_ran s).
Definition set_calling (b : bool) s := mkLoop (looping_ s) (quit_ s) (eventHandling_ s)
  b (threadId_ s) (pollReturnTime_ s) (activeChannels_ s) (currentActiveChannel_ s)
  (wakeupChannel_ s) (pendingFunctors_ s) (eventfd_count s) (trace_ran s).
Definition set_active (t : TimeStamp) (chs : list addr) s := mkLoop (looping_ s) (quit_ s)
  (eventHandling_ s) (callingPendingFunctors_ s) (threadId_ s) t chs
  (currentActiveChannel_ s) (wakeupChannel_ s) (pendingFunctors_ s) (eventfd_count s)
  (trace_ran s).
Definition set_current (c : option addr) s := mkLoop (looping_ s) (quit_ s)
  (eventHandling_ s) (callingPendingFunctors_ s) (threadId_ s) (pollReturnTime_ s)
  (activeChannels_ s) c (wakeupChannel_ s) (pendingFunctors_ s) (eventfd_count s)
  (trace_ran s).
Definition set_pending (l : list F) s := mkLoop (looping_ s) (quit_ s)
  (eventHandling_ s) (callingPendingFunctors_ s) (threadId_ s) (pollReturnTime_ s)
  (activeChannels_ s) (currentActiveChannel_ s) (wakeupChannel_ s) l (eventfd_count s)
  (trace_ran s).
Definition set_count (n : Z) s := mkLoop (looping_ s) (quit_ s)
  (eventHandling_ s) (callingPendingFunctors_ s) (threadId_ s) (pollReturnTime_ s)
  (activeChannels_ s) (currentActiveChannel_ s) (wakeupChannel_ s) (pendingFunctors_ s) n
  (trace_ran s).
Definition add_ran (f : F) s := mkLoop (looping_ s) (quit_ s)
  (eventHandling_ s) (callingPendingFunctors_ s) (threadId_ s) (pollReturnTime_ s)
  (activeChannels_ s) (currentActiveChannel_ s) (wakeupChannel_ s) (pendingFunctors_ s)
  (eventfd_count s) (trace_ran s ++ [f]).

Definition IsInLoopThread (tid : Z) s : bool := threadId_ s =? tid.

(** wakeup(): add one to the eventfd; at its maximum the nonblocking write fails
    and is only logged. *)
Definition wakeup s :=
  if eventfd_count s <? eventfd_max then set_count (eventfd_count s + 1) s else s.

(** handleRead(): read the eventfd, which resets it (a failed read is logged). *)
Definition handleRead s := set_count 0 s.

Definition quit (tid : Z) s :=
  let s := set_quit true s in
  if negb (IsInLoopThread tid s) then wakeup s else s.

(** The critical section of queueInLoop. *)
Definition push (f : F) s := set_pending (pendingFunctors_ s ++ [f]) s.

Definition queueInLoop (tid : Z) (f : F) s :=
  let s := push f s in
  if negb (IsInLoopThread tid s) || callingPendingFunctors_ s then wakeup s else s.

Definition queueSize s : Z := zlen (pendingFunctors_ s).

Definition perform (tid : Z) (a : act F) s :=
  match a with ActQueue f => queueInLoop tid f s | ActQuit => quit tid s end.
Definition perform_all (tid : Z) (acts : list (act F)) s :=
  foldl (fun s a => perform tid a s) s acts.

(** The call [functor()] on thread [tid]. *)
Definition run_functor (tid : Z) (f : F) s := perform_all tid (body f) (add_ran f s).

Definition runInLoop (tid : Z) (f : F) s :=
  if IsInLoopThread tid s then run_functor tid f s else queueInLoop tid f s.

(** doPendingFunctors(), on the loop's thread. *)
Definition doPendingFunctors s :=
  let s := set_calling true s in
  let functors := pendingFunctors_ s in
  let s := set_pending [] s in
  let s := foldl (fun s f => run_functor (threadId_ s) f s) s functors in
  set_calling false s.

(** channel->handleEvent() as the loop sees it. *)
Definition handle_channel (ch : addr) s :=
  if decide (ch = wakeupChannel_ s) then handleRead s
  else perform_all (threadId_ s) (callbacks ch) s.

(** One round of the while loop, given what the poller returned. *)
Definition loop_round (answer : TimeStamp * list addr) s :=
  let s := set_active (answer.1) (answer.2) s in
  let s := foldl (fun s ch => handle_channel ch (set_current (Some ch) s)) s
             (activeChannels_ s) in
  let s := set_eventHandling false (set_current None s) in
  doPendingFunctors s.

(** while(!quit_) { ... }, on the poller's successive answers: the final state,
    and whether the loop was left (otherwise it waits in the poller). *)
Fixpoint while_not_quit (answers : list (TimeStamp * list addr)) s : EventLoop F * bool :=
  if quit_ s then (s, true)
  else match answers with
       | [] => (s, false)
       | a :: answers => while_not_quit answers (loop_round a s)
       end.

Definition loop (answers : list (TimeStamp * list addr)) s : EventLoop F * bool :=
  let s := set_quit false (set_looping true s) in
  let '(s, finished) := while_not_quit answers s in
  (if finished then set_looping false s else s, finished).

(** ** What the functors of a batch leave behind *)

Definition queued (acts : list (act F)) : list F :=
  omap (fun a => match a with ActQueue f => Some f | ActQuit => None end) acts.
Definition quits (acts : list (act F)) : bool :=
  existsb (fun a => match a with ActQuit => true | _ => false end) acts.

(** The unchanged part of the state, and a usable counter. *)
Definition count_ok s : Prop := 0 <= eventfd_count s <= eventfd_max.

Lemma wakeup_count s : count_ok s -> count_ok (wakeup s) /\ 0 < eventfd_count (wakeup s).
Proof.
  unfold count_ok, wakeup. intros ?. case_match eqn:E.
  - apply Z.ltb_lt in E. simpl. lia.
  - apply Z.ltb_ge in E. unfold eventfd_max in *. simpl in *. lia.
Qed.

(** wakeup changes nothing but the counter. *)
Lemma wakeup_frame s :
  pendingFunctors_ (wakeup s) = pendingFunctors_ s /\ trace_ran (wakeup s) = trace_ran s
  /\ quit_ (wakeup s) = quit_ s /\ threadId_ (wakeup s) = threadId_ s
  /\ callingPendingFunctors_ (wakeup s) = callingPendingFunctors_ s
  /\ wakeupChannel_ (wakeup s) = wakeupChannel_ s.
Proof. unfold wakeup. by case_match. Qed.

(** What a list of acts does on the loop's own thread. *)
Lemma perform_all_loop_thread acts s :
  count_ok s ->
  let s' := perform_all (threadId_ s) acts s in
  pendingFunctors_ s' = pendingFunctors_ s ++ queued acts
  /\ trace_ran s' = trace_ran s /\ quit_ s' = quit_ s || quits acts
  /\ threadId_ s' = threadId_ s
  /\ callingPendingFunctors_ s' = callingPendingFunctors_ s
  /\ wakeupChannel_ s' = wakeupChannel_ s
  /\ count_ok s' /\ eventfd_count s <= eventfd_count s'
  /\ (callingPendingFunctors_ s = true -> queued acts <> [] -> 0 < eventfd_count s').
Proof.
  unfold perform_all. revert s. induction acts as [|a acts IH]; intros s Hs; simpl.
  { rewrite app_nil_r, orb_false_r. repeat split; try done; apply Hs || lia. }
  set (s1 := perform (threadId_ s) a s).
  assert (count_ok s1 /\ threadId_ s1 = threadId_ s /\ trace_ran s1 = trace_ran s
    /\ callingPendingFunctors_ s1 = callingPendingFunctors_ s
    /\ wakeupChannel_ s1 = wakeupChannel_ s /\ eventfd_count s <= eventfd_count s1
    /\ pendingFunctors_ s1 = pendingFunctors_ s ++ queued [a]
    /\ quit_ s1 = quit_ s || quits [a]
    /\ (callingPendingFunctors_ s = true -> queued [a] <> [] -> 0 < eventfd_count s1))
    as (Hc1 & Ht1 & Hr1 & Hcp1 & Hw1 & Hle1 & Hp1 & Hq1 & Hk1).
  { subst s1. destruct a as [f|]; simpl; unfold queueInLoop, quit, IsInLoopThread; simpl;
      rewrite Z.eqb_refl; simpl; rewrite ?orb_false_r, ?orb_true_r, ?app_nil_r;
      [|repeat split; done || apply Hs || lia].
    destruct (callingPendingFunctors_ s) eqn:Ecp.
    - destruct (wakeup_count (push f s) Hs) as [? ?].
      destruct (wakeup_frame (push f s)) as (-> & -> & -> & -> & -> & ->).
      split; [done|]. repeat split; try done. unfold wakeup. case_match; simpl; lia.
    - repeat split; try done; apply Hs || lia. }
  specialize (IH s1 Hc1). simpl in IH. rewrite Ht1 in IH.
  destruct IH as (Hp & Hr & Hq & Ht & Hcp & Hw & Hc & Hle & Hk).
  rewrite Hp, Hp1, Hr, Hr1, Hq, Hq1, Ht, Hcp, Hcp1, Hw, Hw1.
  repeat split; try done; try apply Hc; try lia.
  - by destruct a; simpl; rewrite ?app_nil_r, <- ?app_assoc.
  - destruct a, (quit_ s); simpl; done.
  - intros Hcall Hne. destruct a as [f|]; simpl in *.
    + assert (0 < eventfd_count s1) by (apply Hk1; done). lia.
    + apply Hk; [congruence | done].
Qed.

(** The functors a batch queues, in order, and whether one of them quits. *)
Definition batch_queued (fs : list F) : list F := fs ≫= (fun f => queued (body f)).
Definition batch_quits (fs : list F) : bool := existsb (fun f => quits (body f)) fs.

Lemma run_batch fs s :
  count_ok s -> callingPendingFunctors_ s = true ->
  let s' := foldl (fun s f => run_functor (threadId_ s) f s) s fs in
  trace_ran s' = trace_ran s ++ fs
  /\ pendingFunctors_ s' = pendingFunctors_ s ++ batch_queued fs
  /\ quit_ s' = quit_ s || batch_quits fs
  /\ threadId_ s' = threadId_ s /\ wakeupChannel_ s' = wakeupChannel_ s
  /\ count_ok s' /\ eventfd_count s <= eventfd_count s'
  /\ (batch_queued fs <> [] -> 0 < eventfd_count s').
Proof.
  revert s. induction fs as [|f fs IH]; intros s Hs Hcall; simpl.
  { rewrite !app_nil_r, orb_false_r. split_and!; done || apply Hs || lia. }
  destruct (perform_all_loop_thread (body f) (add_ran f s) Hs)
    as (Hp & Hr & Hq & Ht & Hcp & Hw & Hc & Hle & Hk).
  simpl in *. specialize (IH _ Hc ltac:(congruence)). simpl in IH.
  fold (run_functor (threadId_ s) f s) in *.
  destruct IH as (Hr' & Hp' & Hq' & Ht' & Hw' & Hc' & Hle' & Hk').
  rewrite Hr', Hp', Hq', Ht', Hw', Hr, Hp, Hq, Ht, Hw, <- !app_assoc, <- orb_assoc.
  split_and!; try done; [lia|]. intros Hne.
  destruct (queued (body f)) as [|g l] eqn:Eq; [by apply Hk'|].
  enough (0 < eventfd_count (run_functor (threadId_ s) f s)) by lia.
  apply Hk; done.
Qed.

Lemma doPendingFunctors_effect s :
  count_ok s ->
  let s' := doPendingFunctors s in
  trace_ran s' = trace_ran s ++ pendingFunctors_ s
  /\ pendingFunctors_ s' = batch_queued (pendingFunctors_ s)
  /\ quit_ s' = quit_ s || batch_quits (pendingFunctors_ s)
  /\ callingPendingFunctors_ s' = false
  /\ threadId_ s' = threadId_ s /\ wakeupChannel_ s' = wakeupChannel_ s
  /\ count_ok s'
  /\ (pendingFunctors_ s' <> [] -> 0 < eventfd_count s').
Proof.
  intros Hs. unfold doPendingFunctors.
  set (s1 := set_pending [] (set_calling true s)).
  destruct (run_batch (pendingFunctors_ s) s1 Hs eq_refl)
    as (Hr & Hp & Hq & Ht & Hw & Hc & _ & Hk).
  simpl in *. rewrite Hr, Hp, Hq, Ht, Hw. split_and!; done.
Qed.

(** What the callbacks of the active channels queue, in dispatch order. *)
Definition round_queued (wakeupChannel : addr) (chs : list addr) : list F :=
  chs ≫= (fun ch => if decide (ch = wakeupChannel) then [] else queued (callbacks ch)).

Lemma dispatch_effect chs s :
  count_ok s -> callingPendingFunctors_ s = false ->
  let s' := foldl (fun s ch => handle_channel ch (set_current (Some ch) s)) s chs in
  pendingFunctors_ s' = pendingFunctors_ s ++ round_queued (wakeupChannel_ s) chs
  /\ trace_ran s' = trace_ran s /\ threadId_ s' = threadId_ s
  /\ wakeupChannel_ s' = wakeupChannel_ s
  /\ callingPendingFunctors_ s' = false /\ count_ok s'.
Proof.
  revert s. induction chs as [|ch chs IH]; intros s Hs Hcall; simpl.
  { rewrite app_nil_r. split_and!; done || apply Hs. }
  set (s1 := handle_channel ch (set_current (Some ch) s)).
  assert (pendingFunctors_ s1 = pendingFunctors_ s
            ++ (if decide (ch = wakeupChannel_ s) then [] else queued (callbacks ch))
    /\ trace_ran s1 = trace_ran s /\ threadId_ s1 = threadId_ s
    /\ wakeupChannel_ s1 = wakeupChannel_ s
    /\ callingPendingFunctors_ s1 = false /\ count_ok s1)
    as (Hp1 & Hr1 & Ht1 & Hw1 & Hcp1 & Hc1).
  { subst s1. unfold handle_channel; simpl. case_decide; simpl.
    - rewrite app_nil_r. unfold count_ok, eventfd_max. simpl. split_and!; done.
    - destruct (perform_all_loop_thread (callbacks ch) (set_current (Some ch) s) Hs)
        as (Hp & Hr & _ & Ht & Hcp & Hw & Hc & _ & _).
      simpl in *. rewrite Hp, Hr, Ht, Hcp, Hw. done. }
  destruct (IH s1 Hc1 Hcp1) as (Hp & Hr & Ht & Hw & Hcp & Hc).
  simpl in *. rewrite Hp, Hr, Ht, Hw, Hp1, Hr1, Ht1, Hw1, <- app_assoc. done.
Qed.

(** One round of the loop runs, in the order they were queued, every functor
    that was pending when the poller returned and every functor the active
    channels' callbacks queued, once each.  What is pending afterwards is exactly
    what those functors queued while they ran, and then the eventfd is readable,
    so the next round does not wait for a timeout to run them. *)
Theorem loop_round_runs_pending answer s (Hc : count_ok s)
    (Hcall : callingPendingFunctors_ s = false) :
  let batch := pendingFunctors_ s ++ round_queued (wakeupChannel_ s) answer.2 in
  let s' := loop_round answer s in
  trace_ran s' = trace_ran s ++ batch
  /\ pendingFunctors_ s' = batch_queued batch
  /\ callingPendingFunctors_ s' = false
  /\ (pendingFunctors_ s' <> [] -> 0 < eventfd_count s').
Proof.
  set (s1 := set_active (answer.1) (answer.2) s).
  destruct (dispatch_effect (answer.2) s1 Hc Hcall) as (Hp & Hr & _ & _ & _ & Hcount).
  set (s2 := set_eventHandling false (set_current None
    (foldl (fun s ch => handle_channel ch (set_current (Some ch) s)) s1 (answer.2)))).
  change (loop_round answer s) with (doPendingFunctors s2).
  destruct (doPendingFunctors_effect s2 Hcount) as (Hr2 & Hp2 & _ & Hcp & _ & _ & _ & Hk).
  change (pendingFunctors_ s2) with (pendingFunctors_
    (foldl (fun s ch => handle_channel ch (set_current (Some ch) s)) s1 (answer.2))) in *.
  change (trace_ran s2) with (trace_ran
    (foldl (fun s ch => handle_channel ch (set_current (Some ch) s)) s1 (answer.2))) in *.
  simpl in Hp, Hr. rewrite Hp in Hr2, Hp2. rewrite Hr in Hr2. done.
Qed.

(** ** The threads *)

(** Where the loop's thread is. *)
Inductive pc :=
| PcCheck                                   (* evaluates while(!quit_) *)
| PcPoll                                    (* in poller_->Poll *)
| PcEvents (rest : list addr)               (* dispatching the active channels *)
| PcEventActs (acts : list (act F)) (rest : list addr)   (* inside a callback *)
| PcSwap                                    (* doPendingFunctors, before the swap *)
| PcRun (batch : list F)                    (* running the swapped batch *)
| PcRunActs (acts : list (act F)) (batch : list F)       (* inside a functor *)
| PcExit.

Record config := mkConfig {
  st : EventLoop F;
  at_ : pc;
  owed : nat;            (* other threads that have pushed or quit, and have not
                            written the eventfd yet *)
  submitted : list F;    (* ghost: every functor queued so far, in mutex order *)
}.

(** What the poller may answer.  The eventfd is level-triggered: it is reported
    only while it is readable, and while it is readable epoll_wait does not wait,
    and reports it unless it fills its array with other descriptors that are ready
    (the array has at least kInitEventListSize = 16 entries). *)
Definition poll_answer s (chs : list addr) : Prop :=
  (wakeupChannel_ s ∈ chs -> 0 < eventfd_count s)
  /\ (0 < eventfd_count s -> wakeupChannel_ s ∈ chs \/ 16 <= zlen chs).

Inductive step : config -> config -> Prop :=
(* another thread: queueInLoop up to the end of its critical section *)
| step_push tid f s pc n sub :
    IsInLoopThread tid s = false ->
    step (mkConfig s pc n sub) (mkConfig (push f s) pc (S n) (sub ++ [f]))
(* another thread: the store of quit() *)
| step_quit tid s pc n sub :
    IsInLoopThread tid s = false ->
    step (mkConfig s pc n sub) (mkConfig (set_quit true s) pc (S n) sub)
(* another thread: the wakeup() that ends queueInLoop or quit *)
| step_wakeup s pc n sub :
    step (mkConfig s pc (S n) sub) (mkConfig (wakeup s) pc n sub)
(* the loop's thread *)
| step_exit s n sub :
    quit_ s = true ->
    step (mkConfig s PcCheck n sub) (mkConfig (set_looping false s) PcExit n sub)
| step_enter s n sub :
    quit_ s = false ->
    step (mkConfig s PcCheck n sub) (mkConfig s PcPoll n sub)
| step_poll t chs s n sub :
    poll_answer s chs ->
    step (mkConfig s PcPoll n sub) (mkConfig (set_active t chs s) (PcEvents chs) n sub)
| step_wakeup_event rest s n sub :
    step (mkConfig s (PcEvents (wakeupChannel_ s :: rest)) n sub)
      (mkConfig (handleRead (set_current (Some (wakeupChannel_ s)) s)) (PcEvents rest) n sub)
| step_event ch rest s n sub :
    ch <> wakeupChannel_ s ->
    step (mkConfig s (PcEvents (ch :: rest)) n sub)
      (mkConfig (set_current (Some ch) s) (PcEventActs (callbacks ch) rest) n sub)
| step_event_act a acts rest s n sub :
    step (mkConfig s (PcEventActs (a :: acts) rest) n sub)
      (mkConfig (perform (threadId_ s) a s) (PcEventActs acts rest) n (sub ++ queued [a]))
| step_event_return rest s n sub :
    step (mkConfig s (PcEventActs [] rest) n sub) (mkConfig s (PcEvents rest) n sub)
| step_drain s n sub :
    step (mkConfig s (PcEvents []) n sub)
      (mkConfig (set_calling true (set_eventHandling false (set_current None s))) PcSwap n sub)
| step_swap s n sub :
    step (mkConfig s PcSwap n sub)
      (mkConfig (set_pending [] s) (PcRun (pendingFunctors_ s)) n sub)
| step_functor f batch s n sub :
    step (mkConfig s (PcRun (f :: batch)) n sub)
      (mkConfig (add_ran f s) (PcRunActs (body f) batch) n sub)
| step_functor_act a acts batch s n sub :
    step (mkConfig s (PcRunActs (a :: acts) batch) n sub)
      (mkConfig (perform (threadId_ s) a s) (PcRunActs acts batch) n (sub ++ queued [a]))
| step_functor_return batch s n sub :
    step (mkConfig s (PcRunActs [] batch) n sub) (mkConfig s (PcRun batch) n sub)
| step_round s n sub :
    step (mkConfig s (PcRun []) n sub) (mkConfig (set_calling false s) PcCheck n sub).

Definition steps := rtc step.

(** The configuration loop() starts in, while [n] other threads are between the
    push or the store and the write of the eventfd. *)
Definition start (n : nat) s : config :=
  mkConfig (set_quit false (set_looping true s)) PcCheck n (pendingFunctors_ s).

(** A loop that may be started: no functor has run.  Functors may be pending, those
    of other threads and those the loop's own thread has queued (a
    ThreadInitCallback's, say). *)
Definition fresh s : Prop :=
  count_ok s /\ trace_ran s = [] /\ callingPendingFunctors_ s = false.

(** The one state in which functors wait for the poll to time out: all that is
    pending was queued before loop() by the loop's own thread, which does not
    write the eventfd then, the first poll has not returned, and no other thread
    has called since. *)
Definition unannounced (n : nat) s (c : config) : Prop :=
  eventfd_count s = 0 /\ n = 0%nat /\ (at_ c = PcCheck \/ at_ c = PcPoll)
  /\ pendingFunctors_ (st c) = pendingFunctors_ s /\ submitted c = pendingFunctors_ s
  /\ eventfd_count (st c) = 0 /\ owed c = 0%nat.

(** The functors of the batch that have not run yet. *)
Definition unrun (p : pc) : list F :=
  match p with PcRun batch | PcRunActs _ batch => batch | _ => [] end.

(** The part of a round in which callingPendingFunctors_ is set. *)
Definition calling_at (p : pc) : bool :=
  match p with PcSwap | PcRun _ | PcRunActs _ _ => true | _ => false end.

(** The part of a round in which the swap lies behind and the poll ahead. *)
Definition past_swap (p : pc) : bool :=
  match p with PcCheck | PcPoll | PcRun _ | PcRunActs _ _ => true | _ => false end.

(** Somebody will make the eventfd readable, or has. *)
Definition announced (c : config) : Prop := 0 < eventfd_count (st c) \/ (0 < owed c)%nat.

Record loop_inv (n : nat) (s : EventLoop F) (c : config) : Prop := {
  inv_count : count_ok (st c);
  inv_calling : callingPendingFunctors_ (st c) = calling_at (at_ c);
  inv_fifo : trace_ran (st c) ++ unrun (at_ c) ++ pendingFunctors_ (st c) = submitted c;
  inv_pending : past_swap (at_ c) = true -> pendingFunctors_ (st c) <> [] ->
    announced c \/ unannounced n s c;
  inv_quit : at_ c = PcPoll -> quit_ (st c) = true -> announced c;
}.

Lemma start_inv n s : fresh s -> loop_inv n s (start n s).
Proof.
  intros (Hc & Hr & Hcall). split; simpl; try done.
  - by rewrite Hr.
  - intros _ Hne. unfold announced, unannounced, count_ok in *. simpl.
    destruct (decide (0 < eventfd_count s)); [by left; left|].
    destruct n; [right; split_and!; auto; lia | left; right; simpl; lia].
Qed.

(** An act of the loop's own thread. *)
Lemma perform_inv a s :
  count_ok s ->
  let s' := perform (threadId_ s) a s in
  count_ok s' /\ callingPendingFunctors_ s' = callingPendingFunctors_ s
  /\ trace_ran s' = trace_ran s /\ pendingFunctors_ s' = pendingFunctors_ s ++ queued [a]
  /\ eventfd_count s <= eventfd_count s'
  /\ (callingPendingFunctors_ s = true -> queued [a] <> [] -> 0 < eventfd_count s').
Proof.
  intros Hs. destruct (perform_all_loop_thread [a] s Hs)
    as (Hp & Hr & _ & _ & Hcp & _ & Hc & Hle & Hk).
  simpl in *. done.
Qed.

Ltac owes := unfold announced; simpl; first [left; right; lia | right; lia].

(** Past the first poll what is pending is announced. *)
Ltac later_round :=
  let Hne := fresh in
  intros _ Hne; left;
  match goal with H : true = true -> _ |- _ => destruct (H eq_refl Hne) as [?|(_ & _ & [?|?] & _)] end;
  done.

Lemma step_inv n0 s0 c c' : loop_inv n0 s0 c -> step c c' -> loop_inv n0 s0 c'.
Proof.
  intros [Hc Hcall Hfifo Hpend Hquit] Hstep.
  destruct Hstep as [tid f s pc n sub|tid s pc n sub|s pc n sub|s n sub Hq|s n sub Hq
    |t chs s n sub|rest s n sub|ch rest s n sub|a acts rest s n sub|rest s n sub|s n sub
    |s n sub|f batch s n sub|a acts batch s n sub|batch s n sub|s n sub];
    unfold announced, unannounced in *; simpl in *.
  (* steps of other threads: they announce, or discharge an announcement *)
  - split; simpl; try done; try (by (intros; owes)). by rewrite <- Hfifo, <- !app_assoc.
  - split; simpl; try done; by (intros; owes).
  - destruct (wakeup_count s Hc) as [Hc' Hpos].
    destruct (wakeup_frame s) as (Hp & Hr & _ & _ & Hcp & _).
    split; simpl; rewrite ?Hp, ?Hr, ?Hcp; try done; intros;
      first [by left; left | by left].
  (* the loop's thread, outside callbacks and functors *)
  - split; simpl; done.
  - split; simpl; try done; [|congruence]. intros _ Hne. unfold announced, unannounced. simpl.
    destruct (Hpend eq_refl Hne) as [?|(? & ? & _ & ?)]; auto 10.
  - split; simpl; done.
  - split; simpl; try done.
  - split; simpl; done.
  (* a callback's act *)
  - destruct (perform_inv a s Hc) as (Hc' & Hcp & Hr & Hp & _ & _).
    split; simpl; rewrite ?Hp, ?Hr, ?Hcp; try done. by rewrite <- Hfifo, <- !app_assoc.
  - split; simpl; done.
  - split; simpl; done.
  - split; simpl; try done. by rewrite app_nil_r.
  - split; simpl; try done; [by rewrite <- Hfifo, <- ?app_assoc|].
    later_round.
  (* a functor's act: callingPendingFunctors_ makes it announce *)
  - destruct (perform_inv a s Hc) as (Hc' & Hcp & Hr & Hp & Hle & Hk).
    split; simpl; rewrite ?Hp, ?Hr, ?Hcp; try done; [by rewrite <- Hfifo, <- !app_assoc|].
    intros _ Hne. left. destruct (queued [a]) as [|g l] eqn:Eq.
    + rewrite app_nil_r in Hne.
      destruct (Hpend eq_refl Hne) as [[?|?]|(_ & _ & [?|?] & _)];
        [left; simpl; lia | by right | done..].
    + left. simpl. apply Hk; done.
  - split; simpl; try done. later_round.
  - split; simpl; try done. later_round.
Qed.

Lemma steps_inv n s c c' : loop_inv n s c -> steps c c' -> loop_inv n s c'.
Proof. intros Hi Hs. induction Hs; eauto using step_inv. Qed.

(** C13. No lost wakeup: whatever other threads do and when, and whatever was
    queued before loop(), whenever the loop's thread is in the poller while
    functors are pending, either the eventfd is readable or some thread is about
    to write it, with one exception: every pending functor was queued by the
    loop's own thread before loop() (a ThreadInitCallback's, say, for queueInLoop
    does not write the eventfd then), the first poll has not returned and no other
    thread has called since; these wait for the poll's timeout.  A quit requested
    since loop() began is always announced.  Once nobody owes a write, an
    announced poll does not wait: it reports the wakeup channel, or fills its
    array with other channels.  After the round's events the functors run
    (round_refines). *)
Theorem no_lost_wakeup n s c (Hfresh : fresh s) (Hreach : steps (start n s) c)
    (Hat : at_ c = PcPoll) :
  (pendingFunctors_ (st c) <> [] -> announced c \/ unannounced n s c)
  /\ (quit_ (st c) = true -> announced c)
  /\ (announced c -> owed c = 0%nat -> forall t chs c',
       step c c' -> st c' = set_active t chs (st c) -> at_ c' = PcEvents chs ->
       wakeupChannel_ (st c) ∈ chs \/ 16 <= zlen chs).
Proof.
  destruct (steps_inv n s _ _ (start_inv n s Hfresh) Hreach) as [_ _ _ Hpend Hquit].
  split_and!.
  - apply Hpend. by rewrite Hat.
  - by apply Hquit.
  - intros [Ha|Ha] Ho t chs c' Hstep Hst Hchs; [|lia].
    destruct Hstep as [| | | | |t' chs' s' n' sub' [_ Hp]| | | | | | | | | |];
      simpl in *; try congruence.
    injection Hchs as ->. by apply Hp.
Qed.

(** C14. Every functor runs exactly once, in the order of the queue: at any moment
    of any interleaving, the functors that have run, followed by the rest of the
    batch being run, followed by the pending ones, are the functors queued so
    far in the order in which the mutex admitted them. *)
Theorem functors_fifo n s c (Hfresh : fresh s) (Hreach : steps (start n s) c) :
  trace_ran (st c) ++ unrun (at_ c) ++ pendingFunctors_ (st c) = submitted c
  /\ trace_ran (st c) `prefix_of` submitted c.
Proof.
  destruct (steps_inv n s _ _ (start_inv n s Hfresh) Hreach) as [_ _ Hfifo _ _].
  split; [done|]. rewrite <- Hfifo. by apply prefix_app_r.
Qed.

(** ** A round of the function is a run of the relation *)

Lemma perform_threadId tid a s : threadId_ (perform tid a s) = threadId_ s.
Proof.
  destruct a as [f|]; simpl; unfold queueInLoop, quit, wakeup; simpl;
    repeat case_match; done.
Qed.

Lemma queued_cons a acts : queued (a :: acts) = queued [a] ++ queued acts.
Proof. by destruct a. Qed.

Lemma event_acts_steps acts rest s n sub :
  steps (mkConfig s (PcEventActs acts rest) n sub)
    (mkConfig (perform_all (threadId_ s) acts s) (PcEvents rest) n (sub ++ queued acts)).
Proof.
  revert s sub. induction acts as [|a acts IH]; intros s sub.
  - simpl. rewrite app_nil_r. apply rtc_once, step_event_return.
  - eapply rtc_l; [apply step_event_act|].
    rewrite (queued_cons a acts). specialize (IH (perform (threadId_ s) a s) (sub ++ queued [a])).
    rewrite perform_threadId in IH.
    rewrite app_assoc. exact IH.
Qed.

Lemma functor_acts_steps acts batch s n sub :
  steps (mkConfig s (PcRunActs acts batch) n sub)
    (mkConfig (perform_all (threadId_ s) acts s) (PcRun batch) n (sub ++ queued acts)).
Proof.
  revert s sub. induction acts as [|a acts IH]; intros s sub.
  - simpl. rewrite app_nil_r. apply rtc_once, step_functor_return.
  - eapply rtc_l; [apply step_functor_act|].
    rewrite (queued_cons a acts). specialize (IH (perform (threadId_ s) a s) (sub ++ queued [a])).
    rewrite perform_threadId in IH.
    rewrite app_assoc. exact IH.
Qed.

Lemma batch_steps fs s n sub :
  exists sub', steps (mkConfig s (PcRun fs) n sub)
    (mkConfig (foldl (fun s f => run_functor (threadId_ s) f s) s fs) (PcRun []) n sub').
Proof.
  revert s sub. induction fs as [|f fs IH]; intros s sub; simpl; [exists sub; apply rtc_refl|].
  destruct (IH (run_functor (threadId_ s) f s) (sub ++ queued (body f))) as [sub' Hs].
  exists sub'. eapply rtc_l; [apply step_functor|].
  etrans; [apply functor_acts_steps|]. exact Hs.
Qed.

Lemma dispatch_steps chs s n sub :
  exists sub', steps (mkConfig s (PcEvents chs) n sub)
    (mkConfig (foldl (fun s ch => handle_channel ch (set_current (Some ch) s)) s chs)
       (PcEvents []) n sub').
Proof.
  revert s sub. induction chs as [|ch chs IH]; intros s sub; simpl; [exists sub; apply rtc_refl|].
  set (s1 := handle_channel ch (set_current (Some ch) s)).
  destruct (decide (ch = wakeupChannel_ s)) as [->|Hne].
  - destruct (IH s1 sub) as [sub' Hs]. exists sub'.
    eapply rtc_l; [apply step_wakeup_event|].
    subst s1. unfold handle_channel in Hs at 1. simpl in Hs.
    rewrite decide_True in Hs by done. exact Hs.
  - destruct (IH s1 (sub ++ queued (callbacks ch))) as [sub' Hs]. exists sub'.
    eapply rtc_l; [by apply step_event|].
    etrans; [apply event_acts_steps|].
    subst s1. unfold handle_channel in Hs at 1. simpl in Hs.
    rewrite decide_False in Hs by done. exact Hs.
Qed.

(** C15. The step relation refines the code's loop body: from the poller, with any
    answer the poller may give, the loop's thread on its own takes the program to
    exactly the state [loop_round] computes, back at the test of quit_. *)
Theorem round_refines answer s n sub
    (Hlevel : poll_answer s answer.2) :
  exists sub', steps (mkConfig s PcPoll n sub)
    (mkConfig (loop_round answer s) PcCheck n sub').
Proof.
  destruct answer as [t chs]. simpl in Hlevel.
  destruct (dispatch_steps chs (set_active t chs s) n sub) as [sub1 H1].
  set (s2 := set_eventHandling false (set_current None
    (foldl (fun s ch => handle_channel ch (set_current (Some ch) s))
       (set_active t chs s) chs))).
  destruct (batch_steps (pendingFunctors_ (set_calling true s2))
    (set_pending [] (set_calling true s2)) n sub1) as [sub2 H2].
  exists sub2. eapply rtc_l; [by apply (step_poll t chs)|].
  etrans; [exact H1|]. eapply rtc_l; [apply step_drain|].
  eapply rtc_l; [apply step_swap|]. etrans; [exact H2|].
  apply rtc_once. apply step_round.
Qed.
End methods.

(** ** Concrete runs: functors are numbers, functor [n] queues [n - 1] *)

Definition countdown (n : nat) : list (act nat) :=
  match n with O => [ActQuit] | S k => [ActQueue k] end.
Definition socket_callbacks (ch : addr) : list (act nat) :=
  if decide (ch = 7) then [ActQueue 2%nat] else [].

Definition demo_loop : EventLoop nat := EventLoop_ctor 1 100.

Example demo_two_rounds :
  trace_ran (fst (loop countdown socket_callbacks
    [(invalid, [7]); (invalid, [100]); (invalid, [100])] demo_loop)) = [2; 1; 0]%nat.
Proof. vm_compute. reflexivity. Qed.

Lemma loop_round_runs_pending_witness :
  count_ok (queueInLoop 2 5%nat demo_loop)
  /\ trace_ran (loop_round countdown socket_callbacks (invalid, [100; 7])
       (queueInLoop 2 5%nat demo_loop)) = [5; 2]%nat.
Proof.
  assert (count_ok (queueInLoop 2 5%nat demo_loop)) as Hc
    by (split; vm_compute; congruence).
  split; [exact Hc|].
  destruct (loop_round_runs_pending countdown socket_callbacks (invalid, [100; 7])
    (queueInLoop 2 5%nat demo_loop) Hc eq_refl) as (Hr & _). exact Hr.
Defined.

Lemma demo_fresh : fresh demo_loop.
Proof. repeat split; try done; vm_compute; congruence. Qed.

(** Thread 2 has pushed a functor while the loop polls: the wakeup is owed. *)
Definition demo_polling : config (F := nat) :=
  mkConfig (push 5%nat (set_quit false (set_looping true demo_loop))) PcPoll 1 [5%nat].

Lemma demo_polling_reached :
  steps countdown socket_callbacks (start 0 demo_loop) demo_polling.
Proof.
  eapply rtc_l; [by apply step_enter|].
  apply rtc_once. by apply (step_push _ _ 2 5%nat).
Qed.

Lemma no_lost_wakeup_witness : announced demo_polling.
Proof.
  destruct (no_lost_wakeup countdown socket_callbacks 0 demo_loop demo_polling demo_fresh
    demo_polling_reached eq_refl) as (Hp & _).
  destruct Hp as [?|(_ & _ & _ & ? & _)]; done.
Defined.

(** A functor queued by the loop's own thread before loop(), as a
    ThreadInitCallback may: the poller is reached with the functor pending and
    nothing that would wake it; it runs when the poll times out. *)
Definition own_first : EventLoop nat := queueInLoop 1 0%nat demo_loop.

Example own_functor_waits :
  let c := mkConfig (set_quit false (set_looping true own_first)) PcPoll 0 [0%nat] in
  fresh own_first /\ steps countdown socket_callbacks (start 0 own_first) c
  /\ pendingFunctors_ (st c) = [0%nat] /\ ~ announced c
  /\ trace_ran (loop_round countdown socket_callbacks (invalid, []) (st c)) = [0%nat].
Proof.
  split_and!; try done; [by apply rtc_once, step_enter|].
  unfold announced. simpl. lia.
Qed.

Lemma functors_fifo_witness :
  trace_ran (st demo_polling) ++ unrun (at_ demo_polling)
    ++ pendingFunctors_ (st demo_polling) = [5%nat].
Proof.
  apply (functors_fifo countdown socket_callbacks 0 demo_loop demo_polling demo_fresh
    demo_polling_reached).
Defined.

Lemma round_refines_witness :
  exists sub', steps countdown socket_callbacks (mkConfig demo_loop PcPoll 0 [])
    (mkConfig (loop_round countdown socket_callbacks (invalid, [7]) demo_loop) PcCheck 0 sub').
Proof.
  apply (round_refines countdown socket_callbacks (invalid, [7]) demo_loop 0 []).
  split; intros H; [|vm_compute in H; done].
  apply list_elem_of_singleton in H. done.
Defined.
