(* ===== verification/TimerQueue.v ===== *)
(** include/Timer.h, src/Timer.cc, include/TimerId.h, include/TimerQueue.h and
    src/TimerQueue.cc: the timers of one loop.

    Timer objects live in a heap, by address, so that deleting one and using it
    afterwards shows as [FUseAfterFree], and so that the allocator may reuse an
    address.  The two std::sets are the sorted sequences of [StdSet]: timers_ by
    (expiration, address), activeTimers_ by (address, sequence).  A callback is
    known by an identifier, and by what it asks of the queue: adding timers and
    cancelling timers.  The first part is what the loop's own thread does; [TimerLoop]
    adds the closures that addTimer and cancel queue from other threads, and the steps
    of all the threads ([tl_exec]).

    Outside the program, and parameters of the section: the allocator [alloc],
    the successive readings [clock] of TimeStamp::now(), and the return value
    [settime] of timerfd_settime(2), which is 0 on a valid timespec. *)

From S2P Require Import Prelude TimeStamp StdSet Channel Poller.
From Stdlib Require Import SpecFloat.

(** A closure bound by a caller. *)
Abbreviation Cb := nat.

(** UINTPTR_MAX. *)
Definition UINTPTR_MAX : Z := 2 ^ 64 - 1.

Record Timer := mkTimer {
  callback_ : Cb;
  expiration_ : TimeStamp;
  interval_ : double;
  repeat_ : bool;
  sequence_ : Z;
}.

Record TimerId := mkTimerId { timer_ : addr; id_sequence_ : Z }.

(** struct timespec. *)
Record timespec := mkTimespec { ts_sec : Z; ts_nsec : Z }.

(** std::pair<TimeStamp, Timer*> and std::pair<Timer*, int64_t>. *)
Abbreviation Entry := (TimeStamp * addr)%type.
Abbreviation ActiveTimer := (addr * Z)%type.

Definition entry_ltb : Entry -> Entry -> bool := pair_ltb ts_ltb Z.ltb.
Definition active_ltb : ActiveTimer -> ActiveTimer -> bool := pair_ltb Z.ltb Z.ltb.

(** The queue with the memory and the descriptor it owns. *)
Record TimerQueue := mkQueue {
  timers_ : list Entry;
  activeTimers_ : list ActiveTimer;
  callingExpiredTimer_ : bool;
  cancelingTimers_ : list ActiveTimer;
  heap : gmap addr Timer;
  s_numCreated_ : Z;                         (* Timer's static counter *)
  timerfd_ : option (TimeStamp * timespec);  (* armed: the expiration asked for, and the
                                                delay given to the kernel *)
  readings : nat;                            (* clock readings made so far *)
  fired : list Cb;                           (* ghost: the callbacks run so far *)
}.

(** What a callback asks of the queue, on the loop's thread. *)
Inductive timer_act :=
| TAdd (cb : Cb) (when : TimeStamp) (interval : double)
| TCancel (id : TimerId).

Section methods.
Variable alloc : gmap addr Timer -> option addr.
Variable clock : nat -> TimeStamp.
Variable settime : timespec -> Z.
Variable actions : Cb -> list timer_act.
Implicit Types (q : TimerQueue).

Definition set_timers l q := mkQueue l (activeTimers_ q) (callingExpiredTimer_ q)
  (cancelingTimers_ q) (heap q) (s_numCreated_ q) (timerfd_ q) (readings q) (fired q).
Definition set_active_timers l q := mkQueue (timers_ q) l (callingExpiredTimer_ q)
  (cancelingTimers_ q) (heap q) (s_numCreated_ q) (timerfd_ q) (readings q) (fired q).
Definition set_calling_expired b q := mkQueue (timers_ q) (activeTimers_ q) b
  (cancelingTimers_ q) (heap q) (s_numCreated_ q) (timerfd_ q) (readings q) (fired q).
Definition set_canceling l q := mkQueue (timers_ q) (activeTimers_ q)
  (callingExpiredTimer_ q) l (heap q) (s_numCreated_ q) (timerfd_ q) (readings q) (fired q).
Definition set_heap h q := mkQueue (timers_ q) (activeTimers_ q) (callingExpiredTimer_ q)
  (cancelingTimers_ q) h (s_numCreated_ q) (timerfd_ q) (readings q) (fired q).
Definition set_created n q := mkQueue (timers_ q) (activeTimers_ q)
  (callingExpiredTimer_ q) (cancelingTimers_ q) (heap q) n (timerfd_ q) (readings q)
  (fired q).
Definition set_timerfd t q := mkQueue (timers_ q) (activeTimers_ q)
  (callingExpiredTimer_ q) (cancelingTimers_ q) (heap q) (s_numCreated_ q) t (readings q)
  (fired q).
Definition tick q := mkQueue (timers_ q) (activeTimers_ q)
  (callingExpiredTimer_ q) (cancelingTimers_ q) (heap q) (s_numCreated_ q) (timerfd_ q)
  (S (readings q)) (fired q).
Definition add_fired cb q := mkQueue (timers_ q) (activeTimers_ q)
  (callingExpiredTimer_ q) (cancelingTimers_ q) (heap q) (s_numCreated_ q) (timerfd_ q)
  (readings q) (fired q ++ [cb]).

(** The members a new queue starts with. *)
Definition empty_queue : TimerQueue := mkQueue [] [] false [] ∅ 0 None 0 [].

(** A dereference of a Timer pointer. *)
Definition deref (p : addr) q : outcome Timer :=
  match heap q !! p with Some t => Ok t | None => Fault FUseAfterFree end.

(** Timer::Timer; the counter is an atomic_int, which wraps around. *)
Definition Timer_ctor (cb : Cb) (when : TimeStamp) (interval : double) (created : Z) :
    Timer * Z :=
  (mkTimer cb when interval (double_gtb interval (S754_zero false)) created,
   wrapS 32 (created + 1)).

(** Timer::restart(now). *)
Definition restart (now : TimeStamp) (t : Timer) : outcome Timer :=
  if repeat_ t
  then
    e ← addTime now (interval_ t);
    Ok (mkTimer (callback_ t) e (interval_ t) (repeat_ t) (sequence_ t))
  else Ok (mkTimer (callback_ t) invalid (interval_ t) (repeat_ t) (sequence_ t)).

(** howMuchTimeFromNow(when), for a reading [now]: the subtraction is one of two
    ints, the division and the remainder truncate. *)
Definition howMuchTimeFromNow (when now : TimeStamp) : outcome timespec :=
  let d := microSecondSinceEpoch when - microSecondSinceEpoch now in
  require (inSb 32 d) FIntOverflow;;
  let microseconds := if d <? 100 then 100 else d in
  Ok (mkTimespec (Z.quot microseconds kMicroSecondsPerSecond)
        (Z.rem microseconds kMicroSecondsPerSecond * 1000)).

(** resetTimerfd(timerfd_, expiration). *)
Definition resetTimerfd (expiration : TimeStamp) q : outcome TimerQueue :=
  let now := clock (readings q) in
  newValue ← howMuchTimeFromNow expiration now;
  if settime newValue =? 0
  then Ok (set_timerfd (Some (expiration, newValue)) (tick q))
  else Fault FAbort.

(** TimerQueue::insert(timer). *)
Definition insert (p : addr) q : outcome (bool * TimerQueue) :=
  timer ← deref p q;
  let when := expiration_ timer in
  let earliestChanged :=
    match timers_ q with [] => true | it :: _ => ts_ltb when it.1 end in
  let q := set_timers (set_insert entry_ltb (when, p) (timers_ q)) q in
  let q := set_active_timers
             (set_insert active_ltb (p, sequence_ timer) (activeTimers_ q)) q in
  Ok (earliestChanged, q).

(** TimerQueue::addTimerInLoop(timer). *)
Definition addTimerInLoop (p : addr) q : outcome TimerQueue :=
  '(earliestChanged, q) ← insert p q;
  if (earliestChanged : bool)
  then timer ← deref p q; resetTimerfd (expiration_ timer) q
  else Ok q.

(** [new Timer(cb, when, interval)]: running out of memory throws. *)
Definition new_timer (cb : Cb) (when : TimeStamp) (interval : double) q :
    outcome (addr * TimerQueue) :=
  match alloc (heap q) with
  | None => Fault FBadAlloc
  | Some p =>
      let '(timer, created) := Timer_ctor cb when interval (s_numCreated_ q) in
      Ok (p, set_created created (set_heap (<[p := timer]> (heap q)) q))
  end.

(** [TimerId(timer, timer->sequence())], the last line of addTimer: it reads the
    Timer, which the loop's thread owns by then. *)
Definition addTimer_return (p : addr) q : outcome TimerId :=
  timer ← deref p q;
  Ok (mkTimerId p (sequence_ timer)).

(** TimerQueue::addTimer on the loop's thread, where runInLoop calls
    addTimerInLoop at once; on another thread it is [addTimer_posted], below. *)
Definition addTimer (cb : Cb) (when : TimeStamp) (interval : double) q :
    outcome (TimerId * TimerQueue) :=
  '(p, q) ← new_timer cb when interval q;
  q ← addTimerInLoop p q;
  id ← addTimer_return p q;
  Ok (id, q).

(** TimerQueue::cancelInLoop(timerId). *)
Definition cancelInLoop (timerId : TimerId) q : outcome TimerQueue :=
  let timer := (timer_ timerId, id_sequence_ timerId) in
  if set_mem active_ltb timer (activeTimers_ q)
  then
    t ← deref (timer.1) q;
    let q := set_timers (set_erase entry_ltb (expiration_ t, timer.1) (timers_ q)) q in
    let q := set_heap (delete (timer.1) (heap q)) q in
    Ok (set_active_timers (set_erase active_ltb timer (activeTimers_ q)) q)
  else if callingExpiredTimer_ q
  then Ok (set_canceling (set_insert active_ltb timer (cancelingTimers_ q)) q)
  else Ok q.

(** One erase of the loop in getExpired. *)
Definition erase_active q (it : Entry) : outcome TimerQueue :=
  t ← deref (it.2) q;
  Ok (set_active_timers (set_erase active_ltb (it.2, sequence_ t) (activeTimers_ q)) q).

(** TimerQueue::getExpired(now). *)
Definition getExpired (now : TimeStamp) q : outcome (list Entry * TimerQueue) :=
  let entry := (now, UINTPTR_MAX) in
  let expired := set_below entry_ltb entry (timers_ q) in
  let q := set_timers (set_from entry_ltb entry (timers_ q)) q in
  q ← mfold erase_active q expired;
  Ok (expired, q).

Definition perform (q : TimerQueue) (a : timer_act) : outcome TimerQueue :=
  match a with
  | TAdd cb when interval => '(_, q) ← addTimer cb when interval q; Ok q
  | TCancel id => cancelInLoop id q
  end.

(** it.second->run(): the callback's acts. *)
Definition run_timer (q : TimerQueue) (it : Entry) : outcome TimerQueue :=
  t ← deref (it.2) q;
  mfold perform (add_fired (callback_ t) q) (actions (callback_ t)).

(** The first half of a round of the loop in reset: restart the timer, or delete
    it. *)
Definition restart_or_delete (now : TimeStamp) (it : Entry) q : outcome TimerQueue :=
  t ← deref (it.2) q;
  if repeat_ t && negb (set_mem active_ltb (it.2, sequence_ t) (cancelingTimers_ q))
  then
    t ← restart now t;
    '(_, q) ← insert (it.2) (set_heap (<[it.2 := t]> (heap q)) q);
    Ok q
  else Ok (set_heap (delete (it.2) (heap q)) q).

(** A round of the loop in reset; the variable nextExpire lives across rounds. *)
Definition reset_one (now : TimeStamp) (acc : TimerQueue * TimeStamp) (it : Entry) :
    outcome (TimerQueue * TimeStamp) :=
  let '(q, nextExpire) := acc in
  q ← restart_or_delete now it q;
  nextExpire ← (match timers_ q with
                | [] => Ok nextExpire
                | e :: _ => t ← deref (e.2) q; Ok (expiration_ t)
                end);
  if valid nextExpire
  then q ← resetTimerfd nextExpire q; Ok (q, nextExpire)
  else Ok (q, nextExpire).

(** TimerQueue::reset(expired, now). *)
Definition reset (expired : list Entry) (now : TimeStamp) q : outcome TimerQueue :=
  '(q, _) ← mfold (reset_one now) (q, TimeStamp_default) expired;
  Ok q.

(** readTimerfd(timerfd, now), where [howmany] is what read(2) stored, if it did.  The
    operands of LOG_DEBUG are evaluated when that level is logged, [debug]. *)
Definition readTimerfd (debug : bool) (howmany : option Z) (now : TimeStamp) : outcome unit :=
  if debug
  then match howmany with Some _ => _ ← toString now; Ok tt | None => Fault FIndeterminate end
  else Ok tt.

(** TimerQueue::handleRead.  It is called when the timer expired: the timer is a
    one-shot (it_interval is 0), so it is no longer armed.  [debug] says whether
    LOG_DEBUG is logged, as it is at the default level, and [howmany] what read(2)
    stored. *)
Definition handleRead (debug : bool) (howmany : option Z) q : outcome TimerQueue :=
  let now := clock (readings q) in
  let q := set_timerfd None (tick q) in
  _ ← readTimerfd debug howmany now;
  '(expired, q) ← getExpired now q;
  let q := set_canceling [] (set_calling_expired true q) in
  q ← mfold run_timer q expired;
  reset expired now (set_calling_expired false q).

(** The loop of ~TimerQueue. *)
Definition delete_timers q : TimerQueue :=
  set_heap (foldl (fun h (it : Entry) => delete (it.2) h) (heap q) (timers_ q)) q.
End methods.

(** ** Calls from other threads

    runInLoop on another thread queues the closure, which the loop's thread runs
    later, in the order of the queue.  addTimer then still has to read the Timer
    for the id it returns: [owing] are the threads that have handed their Timer
    over and not read it yet. *)
Inductive timer_job :=
| JAdd (p : addr)          (* addTimerInLoop(timer) *)
| JCancel (id : TimerId).  (* cancelInLoop(timerId) *)

Record TimerLoop := mkTimerLoop {
  tq : TimerQueue;
  jobs : list timer_job;     (* those of pendingFunctors_ that this queue bound *)
  owing : list addr;
}.

Section posted.
Variable alloc : gmap addr Timer -> option addr.
Variable clock : nat -> TimeStamp.
Variable settime : timespec -> Z.
Variable actions : Cb -> list timer_act.

(** addTimer on another thread, up to the hand-over. *)
Definition addTimer_posted (cb : Cb) (when : TimeStamp) (interval : double)
    (L : TimerLoop) : outcome TimerLoop :=
  '(p, q) ← new_timer alloc cb when interval (tq L);
  Ok (mkTimerLoop q (jobs L ++ [JAdd p]) (owing L ++ [p])).

(** cancel on another thread. *)
Definition cancel_posted (id : TimerId) (L : TimerLoop) : TimerLoop :=
  mkTimerLoop (tq L) (jobs L ++ [JCancel id]) (owing L).

Definition run_job (q : TimerQueue) (j : timer_job) : outcome TimerQueue :=
  match j with
  | JAdd p => addTimerInLoop clock settime p q
  | JCancel id => cancelInLoop id q
  end.

Inductive timer_step :=
| TPerform (a : timer_act)                             (* the loop's thread: addTimer, cancel *)
| THandleRead (debug : bool) (howmany : option Z)      (* ... the descriptor is readable *)
| TRunJob                                              (* ... runs the next queued closure *)
| TPostAdd (cb : Cb) (when : TimeStamp) (interval : double)  (* another thread: addTimer *)
| TReturn (k : nat)                                    (* the k-th that owes: addTimer ends *)
| TPostCancel (id : TimerId)                           (* another thread: cancel *)
| TOther.                                              (* another loop's queue makes a Timer *)

Definition tl_exec (L : TimerLoop) (s : timer_step) : outcome TimerLoop :=
  match s with
  | TPerform a => q ← perform alloc clock settime (tq L) a; Ok (mkTimerLoop q (jobs L) (owing L))
  | THandleRead debug howmany =>
      q ← handleRead alloc clock settime actions debug howmany (tq L);
      Ok (mkTimerLoop q (jobs L) (owing L))
  | TRunJob =>
      match jobs L with
      | [] => Ok L
      | j :: js => q ← run_job (tq L) j; Ok (mkTimerLoop q js (owing L))
      end
  | TPostAdd cb when interval => addTimer_posted cb when interval L
  | TReturn k =>
      match owing L !! k with
      | Some p => _ ← addTimer_return p (tq L); Ok (mkTimerLoop (tq L) (jobs L) (delete k (owing L)))
      | None => Ok L
      end
  | TPostCancel id => Ok (cancel_posted id L)
  | TOther => Ok (mkTimerLoop (set_created (wrapS 32 (s_numCreated_ (tq L) + 1)) (tq L))
                    (jobs L) (owing L))
  end.
End posted.

(** At the level DEBUG, the default, no wakeup is defined. *)
Lemma readTimerfd_debug debug howmany now :
  readTimerfd debug howmany now
  = if debug then Fault (match howmany with Some _ => FBadFormat | None => FIndeterminate end) else Ok tt.
Proof. unfold readTimerfd. by destruct debug, howmany. Qed.

Lemma readTimerfd_quiet howmany now : readTimerfd false howmany now = Ok tt.
Proof. done. Qed.

(** The constructor and the destructor, with the channel of the descriptor: the
    queue lives at [this], its member timerfdChannel_ at [chan], and [fd] is what
    timerfd_create returned.  Destroying the member ends ~TimerQueue. *)
Definition TimerQueue_ctor `{EpollKernel K} (this chan : addr) (fd : Z) (r : Reactor K) :
    outcome (TimerQueue * Reactor K) :=
  let r := put chan (setReadCallback (CbTimerRead this) (Channel_ctor fd)) r in
  r ← enableReading chan r;
  Ok (empty_queue, r).

Definition TimerQueue_dtor `{EpollKernel K} (chan : addr) (q : TimerQueue) (r : Reactor K) :
    outcome (TimerQueue * Reactor K) :=
  r ← disableAll chan r;
  r ← Channel_remove chan r;
  Ok (delete_timers q, destroy_channel chan r).

(** ** Orders *)

#[export] Instance ts_ltb_strict : StrictTotal ts_ltb.
Proof.
  unfold ts_ltb, microSecondSinceEpoch. split.
  - intros [x]. apply Z.ltb_irrefl.
  - intros [x] [y] [z]. simpl. rewrite !Z.ltb_lt. lia.
  - intros [x] [y]. simpl. rewrite !Z.ltb_ge. intros. f_equal. lia.
Qed.
#[export] Instance entry_ltb_strict : StrictTotal entry_ltb.
Proof. apply _. Qed.
#[export] Instance active_ltb_strict : StrictTotal active_ltb.
Proof. apply _. Qed.

(** The key of lower_bound in getExpired: everything up to and including [now],
    since no timer lives at UINTPTR_MAX. *)
Lemma entry_before_now t p now :
  p < UINTPTR_MAX ->
  entry_ltb (t, p) (now, UINTPTR_MAX) = true
  <-> microSecondSinceEpoch t <= microSecondSinceEpoch now.
Proof.
  intros Hp. unfold entry_ltb, pair_ltb, ts_ltb. simpl.
  rewrite (proj2 (Z.ltb_lt p _)) by done.
  destruct (_ <? _) eqn:E1; destruct (microSecondSinceEpoch now <? _) eqn:E2;
    rewrite ?Z.ltb_lt, ?Z.ltb_ge in *; simpl; split; intros; try done; lia.
Qed.

(** ** The invariant

    [tq_inv B q]: both sets are sorted and name the same timers, every timer of
    the sets and of the batch [B] being processed is a live object, the batch is
    disjoint from the sets, and there are no other timer objects. *)
Record tq_inv (good : TimeStamp -> Prop) (good_interval : double -> Prop)
    (B : list Entry) (q : TimerQueue) : Prop := {
  i_sorted : sorted entry_ltb (timers_ q);
  i_asorted : sorted active_ltb (activeTimers_ q);
  i_csorted : sorted active_ltb (cancelingTimers_ q);
  i_timers t p : (t, p) ∈ timers_ q ->
    exists tm, heap q !! p = Some tm /\ expiration_ tm = t
      /\ (p, sequence_ tm) ∈ activeTimers_ q;
  i_active p s : (p, s) ∈ activeTimers_ q ->
    exists tm, heap q !! p = Some tm /\ sequence_ tm = s
      /\ (expiration_ tm, p) ∈ timers_ q;
  i_batch t p : (t, p) ∈ B -> is_Some (heap q !! p) /\ forall t', (t', p) ∉ timers_ q;
  i_nodup : NoDup (map snd B);
  i_heap p tm : heap q !! p = Some tm ->
    (exists t, (t, p) ∈ timers_ q ++ B) /\ 0 < p < UINTPTR_MAX
    /\ good (expiration_ tm) /\ good_interval (interval_ tm);
}.

Lemma tq_inv_ext good gi B q q' :
  timers_ q' = timers_ q -> activeTimers_ q' = activeTimers_ q ->
  cancelingTimers_ q' = cancelingTimers_ q -> heap q' = heap q ->
  tq_inv good gi B q -> tq_inv good gi B q'.
Proof.
  destruct q, q'; simpl. intros -> -> -> -> []. by split.
Qed.

Lemma tq_inv_perm good gi B B' q :
  B ≡ₚ B' -> tq_inv good gi B q -> tq_inv good gi B' q.
Proof.
  intros HB [S1 S2 S3 Ht Ha Hb Hn Hh]. split; try done.
  - intros t p Hin. apply (Hb t). by rewrite HB.
  - by rewrite <- HB.
  - intros p tm Hl. destruct (Hh p tm Hl) as [[t Hin] ?]. split; [|done]. exists t.
    by rewrite <- HB.
Qed.

Lemma deref_ok p t q : heap q !! p = Some t -> deref p q = Ok t.
Proof. unfold deref. by intros ->. Qed.

(** What insert does when the pointer is good. *)
Definition inserted p tm q : TimerQueue :=
  set_active_timers (set_insert active_ltb (p, sequence_ tm) (activeTimers_ q))
    (set_timers (set_insert entry_ltb (expiration_ tm, p) (timers_ q)) q).
Definition is_earliest (when : TimeStamp) q : bool :=
  match timers_ q with [] => true | it :: _ => ts_ltb when it.1 end.

Lemma insert_exec p tm q :
  heap q !! p = Some tm ->
  insert p q = Ok (is_earliest (expiration_ tm) q, inserted p tm q).
Proof. intros Hp. unfold insert. by rewrite (deref_ok _ _ _ Hp). Qed.

(** ** Each change of the store preserves the invariant *)

Section keeps.
Context (good : TimeStamp -> Prop) (good_interval : double -> Prop).
Abbreviation inv := (tq_inv good good_interval).

Lemma timers_unique B q t t' p :
  inv B q -> (t, p) ∈ timers_ q -> (t', p) ∈ timers_ q -> t = t'.
Proof.
  intros I H1 H2. destruct (i_timers _ _ _ _ I _ _ H1) as (? & ? & <- & _).
  destruct (i_timers _ _ _ _ I _ _ H2) as (? & ? & <- & _). by simplify_eq.
Qed.

(** A new object starts in the batch of the code that made it. *)
Lemma alloc_keeps B q t0 p tm :
  inv B q -> heap q !! p = None -> 0 < p < UINTPTR_MAX ->
  good (expiration_ tm) -> good_interval (interval_ tm) ->
  inv ((t0, p) :: B) (set_heap (<[p := tm]> (heap q)) q).
Proof.
  intros I Hp Hr Hg Hgi.
  assert (forall t, (t, p) ∉ timers_ q) as Hnew.
  { intros t (? & ? & _)%(i_timers _ _ _ _ I). congruence. }
  pose proof I as I0. destruct I as [S1 S2 S3 Ht Ha Hb Hn Hh].
  split; unfold set_heap; simpl; try done.
  - intros t p' Hin. destruct (Ht _ _ Hin) as (tm' & ? & ?). exists tm'.
    rewrite lookup_insert_ne by congruence. done.
  - intros p' s Hin. destruct (Ha _ _ Hin) as (tm' & ? & ?). exists tm'.
    rewrite lookup_insert_ne by congruence. done.
  - intros t p' [Heq|Hin]%elem_of_cons.
    + simplify_eq. rewrite lookup_insert_eq. eauto.
    + destruct (Hb _ _ Hin) as [[x Hx] ?]. split; [|done].
      rewrite lookup_insert_ne by congruence. eauto.
  - constructor; [|done]. intros ([? p'] & -> & Hin)%list_elem_of_fmap.
    simpl in *. apply Hb in Hin as [[??] _]. congruence.
  - intros p' tm' [[<- <-]|[Hne Hl]]%lookup_insert_Some.
    + split; [|done]. exists t0. set_solver.
    + destruct (Hh _ _ Hl) as [[t Hin] ?]. split; [|done]. exists t. set_solver.
Qed.

(** The object of a batch entry may change. *)
Lemma update_keeps B q t0 p tm :
  inv ((t0, p) :: B) q -> good (expiration_ tm) -> good_interval (interval_ tm) ->
  inv ((t0, p) :: B) (set_heap (<[p := tm]> (heap q)) q).
Proof.
  intros [S1 S2 S3 Ht Ha Hb Hn Hh] Hg Hgi.
  destruct (Hb t0 p ltac:(set_solver)) as [[tm0 Htm0] Hout].
  split; unfold set_heap; simpl; try done.
  - intros t p' Hin. destruct (Ht _ _ Hin) as (tm' & ? & ?). exists tm'.
    rewrite lookup_insert_ne; [done|]. intros <-. by eapply Hout.
  - intros p' s Hin. destruct (Ha _ _ Hin) as (tm' & ? & ? & ?). exists tm'.
    rewrite lookup_insert_ne; [done|]. intros <-. by eapply Hout.
  - intros t p' Hin. destruct (Hb _ _ Hin) as [Hs ?]. split; [|done].
    destruct (decide (p = p')) as [->|]; [rewrite lookup_insert_eq; eauto|].
    by rewrite lookup_insert_ne.
  - intros p' tm' [[<- <-]|[Hne Hl]]%lookup_insert_Some; [|by apply Hh].
    destruct (Hh _ _ Htm0) as (? & ? & _). done.
Qed.

(** A batch entry is done with when its object is deleted ... *)
Lemma delete_keeps B q t0 p :
  inv ((t0, p) :: B) q -> inv B (set_heap (delete p (heap q)) q).
Proof.
  intros [S1 S2 S3 Ht Ha Hb Hn Hh].
  destruct (Hb t0 p ltac:(set_solver)) as [_ Hout].
  apply NoDup_cons in Hn as [Hp Hn]. simpl in Hp.
  split; unfold set_heap; simpl; try done.
  - intros t p' Hin. destruct (Ht _ _ Hin) as (tm' & ? & ?). exists tm'.
    rewrite lookup_delete_ne; [done|]. intros <-. by eapply Hout.
  - intros p' s Hin. destruct (Ha _ _ Hin) as (tm' & ? & ? & ?). exists tm'.
    rewrite lookup_delete_ne; [done|]. intros <-. by eapply Hout.
  - intros t p' Hin. destruct (Hb t p' ltac:(set_solver)) as [Hs ?]. split; [|done].
    rewrite lookup_delete_ne; [done|]. intros <-. apply Hp.
    apply list_elem_of_fmap. by exists (t, p).
  - intros p' tm' [Hne Hl]%lookup_delete_Some.
    destruct (Hh _ _ Hl) as [[t Hin] ?]. split; [|done]. exists t.
    rewrite elem_of_app, elem_of_cons in *. naive_solver.
Qed.

(** ... or when it goes back to the two sets. *)
Lemma insert_keeps B q t0 p tm :
  inv ((t0, p) :: B) q -> heap q !! p = Some tm ->
  inv B (inserted p tm q).
Proof.
  intros [S1 S2 S3 Ht Ha Hb Hn Hh] Htm. unfold inserted.
  apply NoDup_cons in Hn as [Hp Hn]. simpl in Hp.
  destruct (Hb t0 p ltac:(set_solver)) as [_ Hout].
  split; unfold set_active_timers, set_timers; simpl; auto with stdset.
  - apply set_insert_sorted; [apply _|done].
  - apply set_insert_sorted; [apply _|done].
  - intros t p' [[= -> ->]|Hin]%elem_of_set_insert; [|..|apply _].
    + exists tm. rewrite elem_of_set_insert by apply _. auto.
    + destruct (Ht _ _ Hin) as (tm' & ? & ? & ?). exists tm'.
      rewrite elem_of_set_insert by apply _. auto.
  - intros p' s [[= -> ->]|Hin]%elem_of_set_insert; [|..|apply _].
    + exists tm. rewrite elem_of_set_insert by apply _. auto.
    + destruct (Ha _ _ Hin) as (tm' & ? & ? & ?). exists tm'.
      rewrite elem_of_set_insert by apply _. auto.
  - intros t p' Hin. destruct (Hb t p' ltac:(set_solver)) as [Hs Hout']. split; [done|].
    intros t' [[= -> ->]|Hin']%elem_of_set_insert; [|by eapply Hout'|apply _].
    apply Hp. apply list_elem_of_fmap. by exists (t, p).
  - intros p' tm' Hl. destruct (Hh _ _ Hl) as [[t Hin] ?]. split; [|done].
    destruct (decide (p' = p)) as [->|Hne].
    + exists (expiration_ tm). rewrite elem_of_app, elem_of_set_insert by apply _. auto.
    + exists t. rewrite elem_of_app, elem_of_set_insert, elem_of_cons in * by apply _.
      naive_solver.
Qed.

(** The head of the sets moves to the batch. *)
Lemma expire_keeps B q t p T :
  inv B q -> timers_ q = (t, p) :: T ->
  exists tm, heap q !! p = Some tm
    /\ inv (B ++ [(t, p)])
         (set_active_timers (set_erase active_ltb (p, sequence_ tm) (activeTimers_ q))
            (set_timers T q)).
Proof.
  intros I Hq. pose proof I as I0. destruct I as [S1 S2 S3 Ht Ha Hb Hn Hh].
  rewrite Hq in *.
  destruct (Ht t p ltac:(set_solver)) as (tm & Htm & Hexp & Hact).
  exists tm. split; [done|].
  pose proof (sorted_NoDup _ _ S1) as [Hnd _]%NoDup_cons.
  apply sorted_cons in S1 as [_ S1].
  assert (forall t', (t', p) ∉ T) as Hout.
  { intros t' Hin. assert (t' = t) as ->; [|done].
    eapply timers_unique; [apply I0 | rewrite Hq; by right | rewrite Hq; by left]. }
  split; unfold set_active_timers, set_timers; simpl; try done.
  - apply set_erase_sorted; [apply _|done].
  - intros t' p' Hin. destruct (Ht t' p' ltac:(set_solver)) as (tm' & ? & ? & ?).
    exists tm'. rewrite elem_of_set_erase by (apply _ || done). split_and!; try done.
    intros [= -> ?]. by eapply Hout.
  - intros p' s [Hin Hne]%elem_of_set_erase; [|apply _|done].
    destruct (Ha _ _ Hin) as (tm' & Hl & Hs & [[= ? ->]|?]%elem_of_cons); [|by exists tm'].
    rewrite Htm in Hl. simplify_eq.
  - intros t' p' [Hin|Hin]%elem_of_app.
    + destruct (Hb _ _ Hin) as [? Hout']. split; [done|]. intros t'' ?.
      eapply Hout'. by right.
    + apply list_elem_of_singleton in Hin as [= -> ->]. eauto.
  - rewrite fmap_app. apply NoDup_app. split_and!; [done| |apply NoDup_singleton].
    intros p' ([? ?] & -> & Hin)%list_elem_of_fmap [= Hp]%list_elem_of_singleton.
    simpl in Hp. subst. apply Hb in Hin as [_ Hout']. eapply Hout'. by left.
  - intros p' tm' Hl. destruct (Hh _ _ Hl) as [[t' Hin] ?]. split; [|done]. exists t'.
    simpl in Hin. rewrite elem_of_cons, elem_of_app in Hin.
    rewrite !elem_of_app, list_elem_of_singleton. naive_solver.
Qed.

(** cancel: a timer of the sets disappears. *)
Lemma cancel_keeps B q p tm :
  inv B q -> heap q !! p = Some tm -> (p, sequence_ tm) ∈ activeTimers_ q ->
  inv B (set_active_timers (set_erase active_ltb (p, sequence_ tm) (activeTimers_ q))
           (set_heap (delete p (heap q))
              (set_timers (set_erase entry_ltb (expiration_ tm, p) (timers_ q)) q))).
Proof.
  intros I Htm Hact. pose proof I as I0. destruct I as [S1 S2 S3 Ht Ha Hb Hn Hh].
  destruct (Ha _ _ Hact) as (tm' & Htm' & _ & Hin). rewrite Htm in Htm'. simplify_eq.
  assert (forall t, (t, p) ∈ timers_ q -> t = expiration_ tm') as Huniq.
  { intros t Ht'. by eapply timers_unique. }
  split; unfold set_active_timers, set_timers, set_heap; simpl; try done.
  - apply set_erase_sorted; [apply _|done].
  - apply set_erase_sorted; [apply _|done].
  - intros t p' [Hin' Hne]%elem_of_set_erase; [|apply _|done].
    destruct (Ht _ _ Hin') as (tm & Hl & He & ?). assert (p' <> p).
    { intros ->. apply Hne. f_equal. by apply Huniq. }
    exists tm. rewrite lookup_delete_ne by done.
    rewrite elem_of_set_erase by (apply _ || done). split_and!; congruence.
  - intros p' s [Hin' Hne]%elem_of_set_erase; [|apply _|done].
    destruct (Ha _ _ Hin') as (tm & Hl & Hs & ?). assert (p' <> p).
    { intros ->. rewrite Htm in Hl. simplify_eq. }
    exists tm. rewrite lookup_delete_ne by done.
    rewrite elem_of_set_erase by (apply _ || done). split_and!; congruence.
  - intros t p' Hin'. destruct (Hb _ _ Hin') as [Hs Hout]. split.
    + rewrite lookup_delete_ne; [done|]. intros <-. by eapply Hout.
    + intros t' ?%set_erase_subseteq; [|apply _]. by eapply Hout.
  - intros p' tm [Hne Hl]%lookup_delete_Some.
    destruct (Hh _ _ Hl) as [[t Hin'] ?]. split; [|done]. exists t.
    rewrite elem_of_app, elem_of_set_erase in * by (apply _ || done). naive_solver.
Qed.
End keeps.

(** ** getExpired *)

Definition due (now : TimeStamp) q := set_below entry_ltb (now, UINTPTR_MAX) (timers_ q).
Definition later (now : TimeStamp) q := set_from entry_ltb (now, UINTPTR_MAX) (timers_ q).
Lemma erase_loop_exec good gi B l q :
  tq_inv good gi B (set_timers (l ++ timers_ q) q) ->
  exists q', mfold erase_active q l = Ok q' /\ tq_inv good gi (B ++ l) q'
    /\ q' = set_active_timers (activeTimers_ q') q.
Proof.
  revert B q. induction l as [|[t p] l IH]; simpl; intros B q I.
  { exists q. rewrite app_nil_r. split; [done|]. split; [|by destruct q].
    eapply tq_inv_ext; [..|apply I]; done. }
  destruct (expire_keeps _ _ _ _ _ _ _ I eq_refl) as (tm & Htm & I').
  simpl in *. assert (erase_active q (t, p) = Ok (set_active_timers
    (set_erase active_ltb (p, sequence_ tm) (activeTimers_ q)) q)) as ->.
  { unfold erase_active. simpl. by rewrite (deref_ok _ _ _ Htm). }
  simpl.
  destruct (IH (B ++ [(t, p)])
    (set_active_timers (set_erase active_ltb (p, sequence_ tm) (activeTimers_ q)) q))
    as (q' & Hq' & I2 & He); [by eapply tq_inv_ext; [..|apply I']|].
  exists q'. rewrite Hq'. rewrite <- app_assoc in I2. split_and!; [done|done|].
  by rewrite He at 1.
Qed.

Lemma getExpired_exec good gi B now q :
  tq_inv good gi B q ->
  exists q', getExpired now q = Ok (due now q, q') /\ tq_inv good gi (B ++ due now q) q'
    /\ timers_ q' = later now q
    /\ q' = set_active_timers (activeTimers_ q') (set_timers (later now q) q).
Proof.
  intros I. unfold getExpired. fold (due now q) (later now q).
  destruct (erase_loop_exec good gi B (due now q) (set_timers (later now q) q))
    as (q' & -> & I' & He).
  { eapply tq_inv_ext; [..|apply I]; try done. simpl. symmetry.
    apply set_below_from. }
  exists q'. simpl in *. split_and!; [done|done| |done]. by rewrite He.
Qed.

(** ** The operations

    The section is generic in the faults [E] an operation may end with and in the
    conditions on instants and intervals; it is used twice below, once with the
    faults other than use-after-free and no condition, once with no fault at all
    and a calm clock. *)

(** What an operation leaves alone while the batch [B] is being processed. *)
Record frame (B : list Entry) (q q' : TimerQueue) : Prop := {
  f_fired : fired q' = fired q;
  f_calling : callingExpiredTimer_ q' = callingExpiredTimer_ q;
  f_batch e : e ∈ B -> heap q' !! e.2 = heap q !! e.2;
}.

Lemma tq_frame_refl B q : frame B q q.
Proof. by split. Qed.

Lemma tq_frame_trans B q1 q2 q3 : frame B q1 q2 -> frame B q2 q3 -> frame B q1 q3.
Proof.
  intros [? ? H1] [? ? H2]. split; [congruence|congruence|].
  intros e He. by rewrite H2, H1.
Qed.

(** cancelInLoop cannot fault in a well formed queue. *)
Lemma cancelInLoop_keeps good gi B q id :
  tq_inv good gi B q ->
  exists q', cancelInLoop id q = Ok q' /\ tq_inv good gi B q' /\ frame B q q'.
Proof.
  intros I. pose proof (i_asorted _ _ _ _ I) as Hs. destruct id as [p s].
  unfold cancelInLoop. simpl. destruct (set_mem _ _ _) eqn:Hm.
  - apply set_mem_spec in Hm; [|apply _|done].
    destruct (i_active _ _ _ _ I _ _ Hm) as (tm & Htm & <- & Hin).
    rewrite (deref_ok _ _ _ Htm). simpl. eexists. split; [done|].
    split; [by apply cancel_keeps|]. split; [done..|].
    intros [t p'] [_ Hout]%(i_batch _ _ _ _ I). simpl.
    rewrite lookup_delete_ne; [done|]. intros <-. by eapply Hout.
  - destruct (callingExpiredTimer_ q) eqn:Hc; (eexists; split; [done|]);
      (split; [|by apply tq_frame_refl || split; simpl; rewrite ?Hc]); [|done].
    destruct I. split; simpl; try done. apply set_insert_sorted; [apply _|done].
Qed.

(** The callbacks of the entries of a batch. *)
Fixpoint callbacks q (l : list Entry) : list Cb :=
  match l with
  | [] => []
  | e :: l => match heap q !! e.2 with Some t => [callback_ t] | None => [] end
              ++ callbacks q l
  end.

Lemma callbacks_ext q q' l :
  (forall e, e ∈ l -> heap q' !! e.2 = heap q !! e.2) -> callbacks q' l = callbacks q l.
Proof.
  induction l as [|e l IH]; simpl; intros Hl; [done|].
  rewrite Hl by by left. rewrite IH; [done|]. intros. apply Hl. by right.
Qed.

Section ops.
Context (alloc : gmap addr Timer -> option addr) (clock : nat -> TimeStamp)
  (settime : timespec -> Z) (actions : Cb -> list timer_act).
Context (E : fault -> Prop) (good : TimeStamp -> Prop) (good_interval : double -> Prop).
Abbreviation inv := (tq_inv good good_interval).

Context (H_alloc : forall h, match alloc h with
  | Some p => h !! p = None /\ 0 < p < UINTPTR_MAX
  | None => E FBadAlloc
  end).
Context (H_arm : forall t n, good t ->
  wp E (fun d => settime d = 0 \/ E FAbort) (howMuchTimeFromNow t (clock n))).
Context (H_restart : forall n i, good_interval i -> wp E good (addTime (clock n) i)).
Context (H_actions : forall cb a, a ∈ actions cb ->
  match a with TAdd _ when i => good when /\ good_interval i | TCancel _ => True end).

Lemma resetTimerfd_exec t q :
  good t -> wp E (fun q' => exists d, q' = set_timerfd (Some (t, d)) (tick q))
              (resetTimerfd clock settime t q).
Proof.
  intros Hg. unfold resetTimerfd. eapply wp_bind; [by apply H_arm|]. simpl.
  intros d Hd. destruct (Z.eqb_spec (settime d) 0); simpl; [by exists d|]. tauto.
Qed.

(** What addTimer leaves: the new timer is in the sets, and the descriptor is
    armed for it when it is the earliest. *)
Definition added cb when interval q (r : TimerId * TimerQueue) : Prop :=
  exists p created fd n,
    let tm := mkTimer cb when interval (double_gtb interval (S754_zero false))
                (s_numCreated_ q) in
    heap q !! p = None
    /\ r.1 = mkTimerId p (s_numCreated_ q)
    /\ r.2 = inserted p tm
              (mkQueue (timers_ q) (activeTimers_ q) (callingExpiredTimer_ q)
                 (cancelingTimers_ q) (<[p := tm]> (heap q)) created fd n (fired q))
    /\ if is_earliest when q then exists d, fd = Some (when, d) else fd = timerfd_ q.

Lemma addTimer_exec B q cb when interval :
  inv B q -> good when -> good_interval interval ->
  wp E (fun r => inv B r.2 /\ added cb when interval q r)
    (addTimer alloc clock settime cb when interval q).
Proof.
  intros I Hg Hgi. unfold addTimer, new_timer, addTimer_return.
  pose proof (H_alloc (heap q)) as Ha.
  destruct (alloc (heap q)) as [p|]; [|done]. destruct Ha as [Hp Hr]. simpl.
  set (tm := mkTimer _ _ _ _ _). set (q1 := set_created _ _).
  assert (inv ((when, p) :: B) q1) as I1.
  { eapply tq_inv_ext; [..|by apply (alloc_keeps _ _ _ q when p tm)]; done. }
  assert (heap q1 !! p = Some tm) as Hl by apply lookup_insert_eq.
  pose proof (insert_keeps _ _ _ _ _ _ _ I1 Hl) as I2.
  unfold addTimerInLoop. rewrite (insert_exec _ _ _ Hl). simpl.
  rewrite !(deref_ok _ tm (inserted _ _ _)) by done. simpl.
  change (is_earliest when q1) with (is_earliest when q).
  destruct (is_earliest when q) eqn:He; simpl.
  - pose proof (resetTimerfd_exec when (inserted p tm q1) Hg) as Harm.
    destruct (resetTimerfd _ _ _ _) as [q2|]; simpl in *; [|done].
    destruct Harm as [d ->]. rewrite (deref_ok _ tm) by done. simpl.
    split; [by eapply tq_inv_ext; [..|apply I2]|].
    exists p. do 3 eexists. rewrite He. split_and!; try done. by exists d.
  - rewrite (deref_ok _ tm) by done. simpl.
    split; [done|]. exists p. do 3 eexists. by rewrite He.
Qed.

Lemma added_frame B cb when interval q r :
  inv B q -> added cb when interval q r -> frame B q r.2.
Proof.
  intros I (p & ? & ? & ? & Hp & _ & -> & _). split; [done..|]. simpl.
  intros [t p'] [[? ?] _]%(i_batch _ _ _ _ I). simpl.
  rewrite lookup_insert_ne; [done|]. congruence.
Qed.

Lemma perform_exec B q cb a :
  inv B q -> a ∈ actions cb ->
  wp E (fun q' => inv B q' /\ frame B q q') (perform alloc clock settime q a).
Proof.
  intros I Ha%H_actions. destruct a as [cb' when i|id]; simpl.
  - destruct Ha. eapply wp_bind; [by apply (addTimer_exec B)|].
    intros [id q'] [I' Hadd]. split; [done|].
    by apply (added_frame _ _ _ _ _ _ I Hadd).
  - destruct (cancelInLoop_keeps _ _ B q id I) as (q' & -> & ? & ?). done.
Qed.

(** A callback runs: it adds and cancels timers, and no timer of the batch is
    touched. *)
Lemma run_timer_exec B q it tm :
  inv B q -> it ∈ B -> heap q !! it.2 = Some tm ->
  wp E (fun q' => inv B q' /\ frame B (add_fired (callback_ tm) q) q')
    (run_timer alloc clock settime actions q it).
Proof.
  intros I Hit Htm. unfold run_timer. rewrite (deref_ok _ _ _ Htm). simpl.
  set (q0 := add_fired (callback_ tm) q).
  eapply wp_mono; [apply (wp_mfold E (fun l q' =>
    inv B q' /\ frame B q0 q' /\ forall a, a ∈ l -> a ∈ actions (callback_ tm)))|].
  - split; [by eapply tq_inv_ext; [..|apply I]|]. split; [apply tq_frame_refl|done].
  - intros a l q' (I' & F & Hl).
    eapply wp_mono; [apply (perform_exec B _ (callback_ tm)); [done|apply Hl; by left]|].
    intros q'' [? F']. split; [done|]. split; [by eapply tq_frame_trans|].
    intros. apply Hl. by right.
  - simpl. intros q' (? & ? & _). done.
Qed.

(** The loop over the batch runs every callback once, in order. *)
Lemma run_all_exec B q l :
  inv B q -> (forall e, e ∈ l -> e ∈ B) ->
  wp E (fun q' => inv B q' /\ fired q' = fired q ++ callbacks q l
                  /\ callingExpiredTimer_ q' = callingExpiredTimer_ q)
    (mfold (run_timer alloc clock settime actions) q l).
Proof.
  revert q. induction l as [|it l IH]; simpl; intros q I Hl.
  { by rewrite app_nil_r. }
  assert (it ∈ B) as Hit by (apply Hl; by left).
  destruct it as [t p]. destruct (i_batch _ _ _ _ I _ _ Hit) as [[tm Htm] _].
  eapply wp_bind; [by apply run_timer_exec|].
  intros q1 [I1 [Hf1 Hc1 Hh1]]. simpl in *.
  eapply wp_mono; [apply IH; [done|intros; apply Hl; by right]|].
  intros q2 (I2 & Hf2 & Hc2). split_and!; [done| |congruence].
  rewrite Hf2, Hf1, <- app_assoc, Htm. simpl. do 2 f_equal. apply callbacks_ext. intros. apply Hh1, Hl. by right.
Qed.

(** ** reset and handleRead *)

(** The descriptor is armed for the earliest timer. *)
Definition armed q : Prop :=
  match timers_ q with
  | [] => True
  | e :: _ => valid e.1 = true -> exists d, timerfd_ q = Some (e.1, d)
  end.

Record same_mode q q' : Prop := {
  m_fired : fired q' = fired q;
  m_calling : callingExpiredTimer_ q' = callingExpiredTimer_ q;
  m_cancel : cancelingTimers_ q' = cancelingTimers_ q;
}.

Lemma restart_or_delete_exec B it n q :
  inv (it :: B) q ->
  wp E (fun q' => inv B q' /\ same_mode q q' /\ timerfd_ q' = timerfd_ q)
    (restart_or_delete (clock n) it q).
Proof.
  intros I. destruct it as [t p].
  destruct (i_batch _ _ _ _ I t p ltac:(by left)) as [[tm Htm] _].
  destruct (i_heap _ _ _ _ I _ _ Htm) as (_ & _ & Hg & Hgi).
  unfold restart_or_delete. simpl. rewrite (deref_ok _ _ _ Htm). simpl.
  destruct (_ && _) eqn:Hr; simpl.
  - apply andb_true_iff in Hr as [Hr _]. unfold restart. rewrite Hr.
    pose proof (H_restart n _ Hgi) as Hadd.
    destruct (addTime _ _) as [e|]; simpl in *; [|done].
    rewrite (insert_exec _ _ _ (lookup_insert_eq _ _ _)). simpl.
    split; [|by split]. eapply insert_keeps; [by apply update_keeps|].
    apply lookup_insert_eq.
  - split; [by eapply delete_keeps|]. by split.
Qed.

Lemma reset_one_exec B it n q ne :
  inv (it :: B) q -> (ne = TimeStamp_default \/ good ne) ->
  wp E (fun '(q', ne') => inv B q' /\ (ne' = TimeStamp_default \/ good ne')
          /\ same_mode q q' /\ armed q')
    (reset_one clock settime (clock n) (q, ne) it).
Proof.
  intros I Hne. unfold reset_one.
  eapply wp_bind; [by apply restart_or_delete_exec|]. intros q1 (I1 & M1 & _).
  assert (exists ne1, (match timers_ q1 with
                       | [] => Ok ne
                       | e :: _ => t ← deref (e.2) q1; Ok (expiration_ t)
                       end) = Ok ne1
          /\ (ne1 = TimeStamp_default \/ good ne1)
          /\ match timers_ q1 with [] => True | e :: _ => e.1 = ne1 end)
    as (ne1 & -> & Hne1 & Hhd).
  { destruct (timers_ q1) as [|[t p] T] eqn:HT; [by exists ne|].
    destruct (i_timers _ _ _ _ I1 t p) as (tm & Htm & He & _);
      [rewrite HT; by left|].
    exists t. simpl. rewrite (deref_ok _ _ _ Htm). simpl. rewrite He.
    destruct (i_heap _ _ _ _ I1 _ _ Htm) as (_ & _ & ? & _). subst. auto. }
  simpl. unfold armed. destruct (valid ne1) eqn:Hv.
  - destruct Hne1 as [->|Hne1]; [done|].
    eapply wp_bind; [by apply resetTimerfd_exec|]. intros q2 [d ->]. simpl.
    split_and!; [by eapply tq_inv_ext; [..|apply I1] | by right | by destruct M1; split |].
    destruct (timers_ q1); [done|]. subst. eauto.
  - simpl. split_and!; [done..|]. destruct (timers_ q1); [done|]. subst. congruence.
Qed.

Lemma reset_exec B B' n q :
  inv (B ++ B') q ->
  wp E (fun q' => inv B' q' /\ same_mode q q'
          /\ if decide (B = []) then q' = q else armed q')
    (reset clock settime B (clock n) q).
Proof.
  intros I. unfold reset.
  eapply wp_bind; [apply (wp_mfold E (fun l '(q', ne) =>
    inv (l ++ B') q' /\ (ne = TimeStamp_default \/ good ne) /\ same_mode q q'
    /\ (if decide (B = []) then q' = q else l = B \/ armed q')
    /\ exists k, k ++ l = B))|].
  - split_and!; [done|by left|done|case_decide; auto|by exists []].
  - intros it l [q1 ne] (I1 & Hne & M & Ha & k & Hk).
    eapply wp_mono; [by apply reset_one_exec|]. intros [q2 ne2] (I2 & Hne2 & M2 & Ha2).
    split_and!; [done|done|destruct M, M2; split; congruence| |].
    + rewrite decide_False by (intros ->; by destruct k). by right.
    + exists (k ++ [it]). by rewrite <- app_assoc.
  - intros [q' ne] (I' & _ & M & Ha & _). simpl. split_and!; [done..|].
    case_decide; [done|]. destruct Ha as [<-|?]; done.
Qed.

Lemma handleRead_exec B howmany q :
  inv B q ->
  wp E (fun q' => inv B q' /\ callingExpiredTimer_ q' = false
          /\ fired q' = fired q ++ callbacks q (due (clock (readings q)) q)
          /\ (due (clock (readings q)) q <> [] -> armed q'))
    (handleRead alloc clock settime actions false howmany q).
Proof.
  intros I. unfold handleRead. set (now := clock _).
  set (q0 := set_timerfd None (tick q)). rewrite readTimerfd_quiet. simpl.
  destruct (getExpired_exec good good_interval B now q0) as (q1 & -> & I1 & HT & Hq1).
  { eapply tq_inv_ext; [..|apply I]; done. }
  change (due now q0) with (due now q) in *.
  change (later now q0) with (later now q) in *. simpl.
  set (q2 := set_canceling [] (set_calling_expired true q1)).
  assert (inv (due now q ++ B) q2) as I2.
  { eapply tq_inv_perm; [apply Permutation_app_comm|].
    destruct I1. split; try done. apply sorted_nil. }
  eapply wp_bind; [apply (run_all_exec (due now q ++ B)); [done|set_solver]|].
  intros q3 (I3 & Hf3 & Hc3).
  eapply wp_mono; [apply (reset_exec (due now q) B); by eapply tq_inv_ext; [..|apply I3]|].
  intros q4 (I4 & [Hf4 Hc4 Hk4] & Ha). simpl in *. split_and!; [done|done| |].
  - assert (fired q1 = fired q /\ heap q1 = heap q) as [Hf1 Hh1].
    { rewrite Hq1. done. }
    rewrite Hf4, Hf3. simpl. rewrite Hf1. f_equal.
    apply callbacks_ext. simpl. by rewrite Hh1.
  - by case_decide.
Qed.

(** A queued closure runs: the Timer goes to the sets. *)
Lemma addTimerInLoop_exec B t p q :
  inv ((t, p) :: B) q ->
  wp E (inv B) (addTimerInLoop clock settime p q).
Proof.
  intros I. destruct (i_batch _ _ _ _ I t p ltac:(by left)) as [[tm Htm] _].
  destruct (i_heap _ _ _ _ I _ _ Htm) as (_ & _ & Hg & _).
  pose proof (insert_keeps _ _ _ _ _ _ _ I Htm) as I2.
  unfold addTimerInLoop. rewrite (insert_exec _ _ _ Htm). simpl.
  destruct (is_earliest _ _); simpl; [|done].
  rewrite (deref_ok _ tm) by done. simpl.
  eapply wp_mono; [by apply resetTimerfd_exec|]. intros q2 [d ->].
  by eapply tq_inv_ext; [..|apply I2].
Qed.
End ops.

(** A wakeup with nothing due. *)
Lemma handleRead_nothing_due alloc clock settime actions howmany q :
  due (clock (readings q)) q = [] ->
  handleRead alloc clock settime actions false howmany q
  = Ok (mkQueue (timers_ q) (activeTimers_ q) false [] (heap q) (s_numCreated_ q) None
          (S (readings q)) (fired q)).
Proof.
  intros Hd. unfold handleRead, getExpired. set (now := clock _) in *.
  change (set_below entry_ltb (now, UINTPTR_MAX) (timers_ (set_timerfd None (tick q))))
    with (due now q).
  rewrite Hd. simpl. unfold reset. simpl. do 2 f_equal.
  unfold set_calling_expired, set_canceling, set_timers, set_timerfd, tick. simpl.
  f_equal. pose proof (set_below_from entry_ltb (now, UINTPTR_MAX) (timers_ q)) as H.
  fold (due now q) in H. by rewrite Hd in H.
Qed.

(** ** What the environment promises *)

(** operator new: a fresh address, which is neither null nor the last one. *)
Definition alloc_ok (alloc : gmap addr Timer -> option addr) : Prop :=
  forall h p, alloc h = Some p -> h !! p = None /\ 0 < p < UINTPTR_MAX.

(** timerfd_settime(2) accepts a normalised delay. *)
Definition settime_ok (settime : timespec -> Z) : Prop :=
  forall d, 0 <= ts_sec d -> 0 <= ts_nsec d < 1000000000 -> settime d = 0.

(** The instances of the witnesses: the lowest free address, a kernel that
    accepts everything. *)
Definition first_free (h : gmap addr Timer) : option addr :=
  head (filter (fun p => h !! p = None) (map (fun k => 16 * (1 + Z.of_nat k)) (seq 0 64))).
Definition accepts (d : timespec) : Z := 0.

Lemma first_free_ok : alloc_ok first_free.
Proof.
  intros h p Hp. unfold first_free in Hp.
  assert (p ∈ filter (fun p => h !! p = None)
                (map (fun k => 16 * (1 + Z.of_nat k)) (seq 0 64))) as Hin.
  { destruct (filter _ _); [done|]. simpl in Hp. simplify_eq. by left. }
  apply list_elem_of_filter in Hin as [? Hin]. split; [done|].
  apply list_elem_of_In, in_map_iff in Hin as (k & <- & Hk%in_seq).
  unfold UINTPTR_MAX. lia.
Qed.

(** A well formed queue outside callbacks. *)
Definition queue_ok (q : TimerQueue) : Prop := tq_inv (fun _ => True) (fun _ => True) [] q.

(** ** Calls on a queue, in any order *)

Inductive tq_call :=
| CallPerform (a : timer_act)      (* addTimer or cancel, on the loop's thread *)
| CallHandleRead (debug : bool) (howmany : option Z).   (* the descriptor is readable *)

Definition tq_exec alloc clock settime actions (q : TimerQueue) (c : tq_call) :
    outcome TimerQueue :=
  match c with
  | CallPerform a => perform alloc clock settime q a
  | CallHandleRead debug howmany => handleRead alloc clock settime actions debug howmany q
  end.

Lemma ctor_queue_ok : queue_ok empty_queue.
Proof.
  split; simpl; try apply sorted_nil; try (by intros ? ? ?%elem_of_nil);
    [constructor|]. intros p tm. by rewrite lookup_empty.
Qed.

Lemma weak_arm (settime : timespec -> Z) (clock : nat -> TimeStamp) t n :
  wp memory_safe (fun d => settime d = 0 \/ memory_safe FAbort)
    (howMuchTimeFromNow t (clock n)).
Proof.
  unfold howMuchTimeFromNow. destruct (inSb _ _); simpl; [|done]. by right.
Qed.

Lemma weak_restart n i : wp memory_safe (fun _ => True) (addTime n i).
Proof.
  assert (wp memory_safe (fun _ => True)
    (int64_of_double (double_mul i (double_of_Z kMicroSecondsPerSecond)))) as H.
  { unfold int64_of_double. destruct (double_mul _ _); simpl; try done.
    by destruct (inSb _ _). }
  unfold addTime. eapply wp_bind; [apply H|]. intros z _. simpl.
  by destruct (inSb _ _).
Qed.

Lemma weak_alloc alloc :
  alloc_ok alloc -> forall h, match alloc h with
  | Some p => h !! p = None /\ 0 < p < UINTPTR_MAX
  | None => memory_safe FBadAlloc
  end.
Proof. intros H h. specialize (H h). destruct (alloc h); auto. done. Qed.

Lemma perform_safe alloc clock settime B q a :
  alloc_ok alloc -> tq_inv (fun _ => True) (fun _ => True) B q ->
  wp memory_safe (tq_inv (fun _ => True) (fun _ => True) B) (perform alloc clock settime q a).
Proof.
  intros Ha I. eapply wp_mono; [apply (perform_exec alloc clock settime (fun _ => [a])
      memory_safe (fun _ => True) (fun _ => True)) with (cb := 0%nat)|naive_solver];
    [by apply weak_alloc | intros; apply weak_arm | by intros ? []| done | by left].
Qed.

(** At the level DEBUG a wakeup stops at its log statement. *)
Lemma handleRead_debug alloc clock settime actions howmany q :
  handleRead alloc clock settime actions true howmany q
  = Fault (match howmany with Some _ => FBadFormat | None => FIndeterminate end).
Proof. unfold handleRead. by rewrite readTimerfd_debug. Qed.

Lemma wakeup_safe alloc clock settime actions debug howmany B q :
  alloc_ok alloc -> tq_inv (fun _ => True) (fun _ => True) B q ->
  wp memory_safe (tq_inv (fun _ => True) (fun _ => True) B)
    (handleRead alloc clock settime actions debug howmany q).
Proof.
  intros Ha I. destruct debug; [rewrite handleRead_debug; by destruct howmany|].
  eapply wp_mono; [apply (handleRead_exec alloc clock settime actions memory_safe
      (fun _ => True) (fun _ => True))|naive_solver];
    [by apply weak_alloc | intros; apply weak_arm | intros; apply weak_restart
    | by intros ? [] | done].
Qed.

Lemma tq_exec_safe alloc clock settime actions q c :
  alloc_ok alloc -> queue_ok q ->
  wp memory_safe queue_ok (tq_exec alloc clock settime actions q c).
Proof.
  intros Ha I. destruct c as [a|debug howmany]; simpl.
  - by apply perform_safe.
  - by apply wakeup_safe.
Qed.

Lemma dtor_loop_lookup l (h : gmap addr Timer) p :
  foldl (fun h (it : Entry) => delete (it.2) h) h l !! p
  = if decide (p ∈ map snd l) then None else h !! p.
Proof.
  revert h. induction l as [|[t p'] l IH]; intros h; simpl; [done|].
  rewrite IH. destruct (decide (p = p')) as [->|Hne].
  - rewrite lookup_delete_eq. rewrite (decide_True (P := p' ∈ p' :: _)) by by left.
    by case_decide.
  - rewrite lookup_delete_ne by done.
    destruct (decide (p ∈ map snd l)) as [H|H].
    + by rewrite decide_True by by right.
    + rewrite decide_False; [done|]. by apply not_elem_of_cons.
Qed.

(** What ~TimerQueue does not delete. *)
Lemma dtor_leaves good gi B q p :
  tq_inv good gi B q -> is_Some (heap (delete_timers q) !! p) <-> p ∈ map snd B.
Proof.
  intros I. unfold delete_timers. simpl. rewrite dtor_loop_lookup.
  case_decide as Hp; split.
  - by intros [? ?].
  - intros ([t q'] & -> & Hin)%list_elem_of_fmap. simpl in Hp.
    apply list_elem_of_fmap in Hp as ([t' q''] & Heq & Hin'). simpl in Heq. subst.
    destruct (i_batch _ _ _ _ I _ _ Hin) as [_ Hout]. by apply Hout in Hin'.
  - intros [tm Hl]. destruct (i_heap _ _ _ _ I _ _ Hl) as [[t Hin] _].
    apply elem_of_app in Hin as [Hin|Hin]; [destruct Hp|];
      apply list_elem_of_fmap; by exists (t, p).
  - intros ([t q'] & -> & Hin)%list_elem_of_fmap. by apply (i_batch _ _ _ _ I) in Hin as [? _].
Qed.

Lemma dtor_frees q : queue_ok q -> heap (delete_timers q) = ∅.
Proof.
  intros I. apply map_eq. intros p. rewrite lookup_empty.
  destruct (heap (delete_timers q) !! p) as [tm|] eqn:Hp; [|done].
  assert (p ∈ @nil addr) as []%elem_of_nil.
  apply (dtor_leaves _ _ [] _ _ I). by exists tm.
Qed.

(** ** All the threads *)

(** The Timers that queued closures hold. *)
Definition waiting (js : list timer_job) : list Entry :=
  omap (fun j => match j with JAdd p => Some (TimeStamp_default, p) | JCancel _ => None end) js.

Lemma elem_of_waiting js p : p ∈ map snd (waiting js) <-> JAdd p ∈ js.
Proof.
  unfold waiting. induction js as [|[p'|id] js IH]; simpl.
  - by rewrite !elem_of_nil.
  - rewrite !elem_of_cons, IH. naive_solver.
  - rewrite IH, elem_of_cons. naive_solver.
Qed.

(** The queue is well formed, and a queued closure holds a live Timer that no set
    and no other closure holds. *)
Definition tl_ok (L : TimerLoop) : Prop :=
  tq_inv (fun _ => True) (fun _ => True) (waiting (jobs L)) (tq L).

Definition new_loop : TimerLoop := mkTimerLoop empty_queue [] [].

(** addTimer reads a Timer that the loop's thread has deleted. *)
Definition late_return (L : TimerLoop) (s : timer_step) : Prop :=
  exists k p, s = TReturn k /\ owing L !! k = Some p /\ heap (tq L) !! p = None.

Section all_threads.
Context (alloc : gmap addr Timer -> option addr) (clock : nat -> TimeStamp)
  (settime : timespec -> Z) (actions : Cb -> list timer_act) (Ha : alloc_ok alloc).
Abbreviation exec := (tl_exec alloc clock settime actions).
Abbreviation fine := (tq_inv (fun _ => True) (fun _ => True)).

Lemma posted_ok cb when interval L :
  tl_ok L -> wp memory_safe tl_ok (addTimer_posted alloc cb when interval L).
Proof.
  intros I. unfold addTimer_posted, new_timer. pose proof (weak_alloc _ Ha (heap (tq L))) as Hp.
  destruct (alloc (heap (tq L))) as [p|]; [|done]. destruct Hp as [Hp Hr]. simpl.
  unfold tl_ok, waiting. simpl. rewrite omap_app. simpl.
  eapply tq_inv_perm; [apply Permutation_cons_append|].
  eapply tq_inv_ext; [..|eapply (alloc_keeps _ _ _ _ _ p); [exact I|..]]; done.
Qed.

Lemma run_job_ok j js q :
  fine (waiting (j :: js)) q -> wp memory_safe (fine (waiting js)) (run_job clock settime q j).
Proof.
  intros I. destruct j as [p|id]; simpl in *.
  - eapply (addTimerInLoop_exec clock settime memory_safe (fun _ => True) (fun _ => True));
      [intros; apply weak_arm | exact I].
  - by destruct (cancelInLoop_keeps _ _ _ q id I) as (q' & -> & ? & _).
Qed.

Lemma tl_exec_ok L s :
  tl_ok L -> wp (fun f => memory_safe f \/ f = FUseAfterFree /\ late_return L s) tl_ok (exec L s).
Proof.
  intros I.
  assert (forall m, wp memory_safe (fine (waiting (jobs L))) m ->
    wp (fun f => memory_safe f \/ f = FUseAfterFree /\ late_return L s) tl_ok
      (q ← m; Ok (mkTimerLoop q (jobs L) (owing L)))) as Hloop.
  { intros [q|f]; simpl; auto. }
  destruct s as [a|debug howmany| |cb when i|k|id|]; simpl.
  - by apply Hloop, perform_safe.
  - by apply Hloop, wakeup_safe.
  - unfold tl_ok in *. destruct (jobs L) as [|j js] eqn:Ej; [simpl; by rewrite Ej|].
    pose proof (run_job_ok _ _ _ I) as H.
    destruct (run_job clock settime (tq L) j); simpl in *; auto.
  - pose proof (posted_ok cb when i L I) as H.
    destruct (addTimer_posted alloc cb when i L); simpl in *; auto.
  - destruct (owing L !! k) as [p|] eqn:Ek; [|done].
    unfold addTimer_return, deref. destruct (heap (tq L) !! p) as [t|] eqn:Hp; simpl; [done|].
    right. split; [done|]. by exists k, p.
  - unfold tl_ok, waiting. simpl. rewrite omap_app. simpl. by rewrite app_nil_r.
  - by eapply tq_inv_ext; [..|exact I].
Qed.

Lemma tl_run_ok steps pre L :
  mfold exec new_loop pre = Ok L -> tl_ok L ->
  match mfold exec L steps with
  | Ok L' => tl_ok L'
  | Fault f => memory_safe f \/ f = FUseAfterFree
      /\ exists pre' s post L', pre ++ steps = pre' ++ s :: post
           /\ mfold exec new_loop pre' = Ok L' /\ late_return L' s
  end.
Proof.
  revert pre L. induction steps as [|s steps IH]; intros pre L Hpre I; simpl; [done|].
  pose proof (tl_exec_ok L s I) as Hs. destruct (exec L s) as [L'|f] eqn:Hx; simpl in *.
  - specialize (IH (pre ++ [s]) L'). rewrite <- app_assoc in IH. apply IH; [|done].
    rewrite mfold_app, Hpre. simpl. by rewrite Hx.
  - destruct Hs as [?|[-> Hl]]; [by left|]. right. split; [done|]. by exists pre, s, steps, L.
Qed.
End all_threads.

(** C21. Memory safety of the timers, for all the threads: in any order of additions
    and cancellations (of any id, live, stale or made up) on the loop's own thread,
    in its callbacks and from other threads, of the queued closures and of the
    wakeups, the two sets and the heap stay consistent and no deleted Timer is
    used, with one exception: addTimer on another thread reads
    timer->sequence() after handing the Timer over, and this read comes late when
    the loop's thread has already run and deleted the Timer.  The destructor
    deletes every Timer but those whose addTimerInLoop is still queued. *)
Theorem timers_memory_safe alloc clock settime actions steps (Ha : alloc_ok alloc) :
  match mfold (tl_exec alloc clock settime actions) new_loop steps with
  | Ok L => tl_ok L
      /\ forall p, is_Some (heap (delete_timers (tq L)) !! p) <-> JAdd p ∈ jobs L
  | Fault f => memory_safe f \/ f = FUseAfterFree
      /\ exists pre s post L, steps = pre ++ s :: post
           /\ mfold (tl_exec alloc clock settime actions) new_loop pre = Ok L
           /\ late_return L s
  end.
Proof.
  pose proof (tl_run_ok alloc clock settime actions Ha steps [] new_loop eq_refl ctor_queue_ok)
    as H.
  destruct (mfold _ _ _) as [L|f]; [|exact H]. split; [exact H|]. intros p.
  rewrite (dtor_leaves _ _ _ _ _ H). apply elem_of_waiting.
Qed.

(** Two timers of the loop's thread, the second one's callback cancels both and adds
    another; a third one comes from another thread, and is cancelled from there. *)
Definition demo_steps : list timer_step :=
  [TPerform (TAdd 1%nat (mkTimeStamp 5000) (double_of_Z 3));
   TPostAdd 4%nat (mkTimeStamp 90000) (S754_zero false);
   TPerform (TAdd 2%nat (mkTimeStamp 4000) (S754_zero false)); TReturn 0;
   THandleRead false (Some 1); TRunJob; TPostCancel (mkTimerId 32 1); TRunJob].
Definition demo_actions (cb : Cb) : list timer_act :=
  match cb with
  | 2%nat => [TCancel (mkTimerId 48 2); TCancel (mkTimerId 16 0);
              TAdd 3%nat (mkTimeStamp 9000) (S754_zero false)]
  | _ => []
  end.
Definition demo_clock (n : nat) : TimeStamp := mkTimeStamp (1000 + 2000 * Z.of_nat n).

Lemma timers_memory_safe_witness :
  exists L, mfold (tl_exec first_free demo_clock accepts demo_actions) new_loop demo_steps = Ok L
    /\ fired (tq L) = [2%nat; 1%nat] /\ tl_ok L /\ heap (delete_timers (tq L)) = ∅.
Proof.
  pose proof (timers_memory_safe first_free demo_clock accepts demo_actions demo_steps
    first_free_ok) as H.
  destruct (mfold _ _ _) as [L|f] eqn:E; [|vm_compute in E; discriminate].
  destruct H as [H Hd]. exists L. split; [reflexivity|].
  assert (fired (tq L) = [2%nat; 1%nat] /\ jobs L = []) as [Hf Hj].
  { vm_compute in E. injection E as <-. split; reflexivity. }
  split; [exact Hf|]. split; [exact H|]. clear E H. apply map_eq. intros p.
  rewrite lookup_empty. destruct (heap (delete_timers (tq L)) !! p) eqn:Hl; [|reflexivity].
  specialize (Hd p). rewrite Hl, Hj in Hd.
  destruct (proj1 (elem_of_nil _) (proj1 Hd (mk_is_Some _ _ eq_refl))).
Defined.

(** A short timer of another thread runs and is deleted before that thread's
    addTimer has read its sequence. *)
Example addTimer_reads_late :
  mfold (tl_exec first_free demo_clock accepts demo_actions) new_loop
    [TPostAdd 4%nat (mkTimeStamp 1500) (S754_zero false); TRunJob;
     THandleRead false (Some 1); TReturn 0] = Fault FUseAfterFree.
Proof. vm_compute. reflexivity. Qed.

(** Or the allocator gives the address to another Timer, and the id that addTimer
    returns cancels that one. *)
Example addTimer_returns_anothers_id :
  (L ← mfold (tl_exec first_free demo_clock accepts demo_actions) new_loop
    [TPostAdd 4%nat (mkTimeStamp 1500) (S754_zero false); TRunJob;
     THandleRead false (Some 1); TPerform (TAdd 1%nat (mkTimeStamp 90000) (S754_zero false))];
   addTimer_return 16 (tq L)) = Ok (mkTimerId 16 1).
Proof. vm_compute. reflexivity. Qed.

(** A Timer whose addTimerInLoop is still queued when the queue goes is leaked. *)
Example queued_timer_leaks :
  (L ← mfold (tl_exec first_free demo_clock accepts demo_actions) new_loop
    [TPostAdd 4%nat (mkTimeStamp 1500) (S754_zero false)];
   Ok (size (heap (delete_timers (tq L))))) = Ok 1%nat.
Proof. vm_compute. reflexivity. Qed.

(** ** The delay given to the kernel *)

Lemma howMuchTimeFromNow_exec when now :
  inS 32 (microSecondSinceEpoch when - microSecondSinceEpoch now) ->
  exists d, howMuchTimeFromNow when now = Ok d
    /\ 0 <= ts_sec d /\ 0 <= ts_nsec d < 1000000000
    /\ ts_sec d * 1000000000 + ts_nsec d
       = 1000 * Z.max 100 (microSecondSinceEpoch when - microSecondSinceEpoch now).
Proof.
  intros Hd. unfold howMuchTimeFromNow. rewrite (proj2 (inSb_spec _ _) Hd). simpl.
  eexists. split; [done|]. unfold kMicroSecondsPerSecond. simpl.
  set (d := microSecondSinceEpoch when - microSecondSinceEpoch now) in *.
  change (1000 * 1000) with 1000000.
  destruct (Z.ltb_spec d 100); rewrite Z.quot_div_nonneg, Z.rem_mod_nonneg by lia.
  - change (100 / 1000000) with 0. change (100 mod 1000000) with 100. lia.
  - pose proof (Z.div_mod d 1000000 ltac:(lia)).
    pose proof (Z.mod_pos_bound d 1000000 ltac:(lia)).
    pose proof (Z.div_pos d 1000000 ltac:(lia) ltac:(lia)). lia.
Qed.

(** howMuchTimeFromNow, for instants whose difference is an int: a normalised
    timespec of at least 100 us, worth the difference when that is more. *)
Theorem howMuchTimeFromNow_spec when now
    (Hd : inS 32 (microSecondSinceEpoch when - microSecondSinceEpoch now)) :
  exists d, howMuchTimeFromNow when now = Ok d
    /\ 0 <= ts_sec d /\ 0 <= ts_nsec d < 1000000000
    /\ ts_sec d * 1000000000 + ts_nsec d
       = 1000 * Z.max 100 (microSecondSinceEpoch when - microSecondSinceEpoch now).
Proof. by apply howMuchTimeFromNow_exec. Qed.

Lemma howMuchTimeFromNow_spec_witness :
  inS 32 (7000123 - 5000000)
  /\ exists d, howMuchTimeFromNow (mkTimeStamp 7000123) (mkTimeStamp 5000000) = Ok d
       /\ 0 <= ts_sec d /\ 0 <= ts_nsec d < 1000000000
       /\ ts_sec d * 1000000000 + ts_nsec d = 1000 * Z.max 100 (7000123 - 5000000).
Proof.
  assert (inS 32 (7000123 - 5000000)) as H by (unfold inS; lia). split; [exact H|].
  exact (howMuchTimeFromNow_spec (mkTimeStamp 7000123) (mkTimeStamp 5000000) H).
Defined.

(** ** What a wakeup does *)

Lemma due_later now q : timers_ q = due now q ++ later now q.
Proof. apply set_below_from. Qed.

Lemma elem_of_due good gi B now q e :
  tq_inv good gi B q ->
  (e ∈ due now q <->
   e ∈ timers_ q /\ microSecondSinceEpoch e.1 <= microSecondSinceEpoch now).
Proof.
  intros I. unfold due. destruct e as [t p].
  rewrite elem_of_set_below by (apply _ || apply I). simpl.
  split; intros [Hin H]; (split; [done|]);
    destruct (i_timers _ _ _ _ I _ _ Hin) as (tm & Htm & _);
    destruct (i_heap _ _ _ _ I _ _ Htm) as (_ & Hp & _);
    apply (entry_before_now t p now) in H || apply (entry_before_now t p now); lia || done.
Qed.

(** C23. getExpired takes out exactly the timers due at [now], in the order of
    their expirations, and leaves the later ones; the timers taken out are no
    longer active, the others still are, and no object is freed. *)
Theorem getExpired_partition now q (Hq : queue_ok q) :
  exists expired q', getExpired now q = Ok (expired, q')
    /\ timers_ q = expired ++ timers_ q' /\ sorted entry_ltb expired
    /\ (forall e, e ∈ expired <->
          e ∈ timers_ q /\ microSecondSinceEpoch e.1 <= microSecondSinceEpoch now)
    /\ (forall p s, (p, s) ∈ activeTimers_ q' <->
          (p, s) ∈ activeTimers_ q /\ p ∉ map snd expired)
    /\ heap q' = heap q.
Proof.
  destruct (getExpired_exec _ _ [] now q Hq) as (q' & -> & I' & HT & He).
  exists (due now q), q'. rewrite HT. split_and!; [done|apply due_later| | | |].
  - apply set_below_sorted; [apply _|apply Hq].
  - intros e. by eapply elem_of_due.
  - assert (heap q' = heap q) as Hh by by rewrite He.
    assert (forall p t, (t, p) ∈ later now q -> p ∉ map snd (due now q)) as Hdisj.
    { intros p t Hl ([t' p'] & Hp & Hin)%list_elem_of_fmap. simpl in Hp. subst.
      apply (i_batch _ _ _ _ I') in Hin as [_ Hout]. apply (Hout t). by rewrite HT. }
    intros p s. split.
    + intros Ha. destruct (i_active _ _ _ _ I' _ _ Ha) as (tm & Hl & <- & Hin).
      rewrite Hh in Hl. rewrite HT in Hin. split; [|by eapply Hdisj].
      destruct (i_timers _ _ _ _ Hq (expiration_ tm) p) as (tm' & Hl' & _ & ?);
        [rewrite (due_later now q); set_solver|]. by simplify_eq.
    + intros [Ha Hout]. destruct (i_active _ _ _ _ Hq _ _ Ha) as (tm & Hl & <- & Hin).
      rewrite (due_later now q) in Hin. apply elem_of_app in Hin as [Hin|Hin].
      { destruct Hout. apply list_elem_of_fmap. by exists (expiration_ tm, p). }
      rewrite <- HT in Hin. destruct (i_timers _ _ _ _ I' _ _ Hin) as (tm' & Hl' & _ & ?).
      rewrite Hh in Hl'. by simplify_eq.
  - by rewrite He.
Qed.

(** Three timers, added out of order. *)
Definition demo_queue : TimerQueue :=
  match mfold (tq_exec first_free demo_clock accepts demo_actions) empty_queue
    [CallPerform (TAdd 1%nat (mkTimeStamp 9000000) (S754_zero false));
     CallPerform (TAdd 5%nat (mkTimeStamp 4000000) (S754_zero false));
     CallPerform (TAdd 6%nat (mkTimeStamp 7000000) (double_of_Z 2))] with
  | Ok q => q
  | Fault _ => empty_queue
  end.

Lemma demo_queue_ok : queue_ok demo_queue.
Proof.
  unfold demo_queue.
  assert (wp memory_safe queue_ok
    (mfold (tq_exec first_free demo_clock accepts demo_actions) empty_queue
    [CallPerform (TAdd 1%nat (mkTimeStamp 9000000) (S754_zero false));
     CallPerform (TAdd 5%nat (mkTimeStamp 4000000) (S754_zero false));
     CallPerform (TAdd 6%nat (mkTimeStamp 7000000) (double_of_Z 2))])) as H.
  { apply (wp_mfold memory_safe (fun _ => queue_ok)); [apply ctor_queue_ok|].
    intros. apply tq_exec_safe; [apply first_free_ok|done]. }
  destruct (mfold _ _ _); [done|apply ctor_queue_ok].
Qed.

Lemma getExpired_partition_witness :
  exists expired q', getExpired (mkTimeStamp 7000000) demo_queue = Ok (expired, q')
    /\ timers_ demo_queue = expired ++ timers_ q' /\ length expired = 2%nat.
Proof.
  destruct (getExpired_partition (mkTimeStamp 7000000) demo_queue demo_queue_ok)
    as (expired & q' & H & Ht & _).
  exists expired, q'. split; [exact H|]. split; [exact Ht|].
  assert (fst <$> getExpired (mkTimeStamp 7000000) demo_queue
          = Ok [(mkTimeStamp 4000000, 32); (mkTimeStamp 7000000, 48)]) as Hc
    by (vm_compute; reflexivity).
  rewrite H in Hc. simpl in Hc. injection Hc as ->. reflexivity.
Defined.

(** ** A calm clock: an operation that falls in the first half of a window of the
    int, and timers set in it *)

Definition calm_clock (clock : nat -> TimeStamp) : Prop :=
  forall n, 0 <= microSecondSinceEpoch (clock n) <= 2 ^ 30.
Definition calm (t : TimeStamp) : Prop := 0 <= microSecondSinceEpoch t < 2 ^ 31.
Definition calm_interval (i : double) : Prop :=
  exists k, 0 <= k <= 1073 /\ i = double_of_Z k.
Definition calm_actions (actions : Cb -> list timer_act) : Prop :=
  forall cb a, a ∈ actions cb ->
  match a with TAdd _ when i => calm when /\ calm_interval i | TCancel _ => True end.

(** The one way left to fail: memory runs out. *)
Definition out_of_memory (f : fault) : Prop := f = FBadAlloc.

Lemma calm_arm clock settime t n :
  settime_ok settime -> calm_clock clock -> calm t ->
  wp out_of_memory (fun d => settime d = 0 \/ out_of_memory FAbort)
    (howMuchTimeFromNow t (clock n)).
Proof.
  intros Hs Hc Ht. specialize (Hc n). unfold calm in Ht.
  destruct (howMuchTimeFromNow_exec t (clock n)) as (d & -> & ? & ? & _);
    [unfold inS; lia|]. left. by apply Hs.
Qed.

Lemma calm_restart clock n i :
  calm_clock clock -> calm_interval i -> wp out_of_memory calm (addTime (clock n) i).
Proof.
  intros Hc (k & Hk & ->). specialize (Hc n). unfold microSecondSinceEpoch in *.
  rewrite addTime_exact by (unfold wf, inS; lia). simpl. unfold calm. simpl.
  unfold kMicroSecondsPerSecond. rewrite wrapS_id by (unfold inS; lia). lia.
Qed.

Lemma strong_alloc alloc :
  alloc_ok alloc -> forall h, match alloc h with
  | Some p => h !! p = None /\ 0 < p < UINTPTR_MAX
  | None => out_of_memory FBadAlloc
  end.
Proof. intros H h. specialize (H h). destruct (alloc h); auto. done. Qed.

(** C22. What a wakeup does.  Above the level DEBUG, with a clock in the first half
    of a window of the int, timers set in that window and whole intervals of at
    most 1073 s: nothing but std::bad_alloc stops it, every due timer's callback
    runs once, in the order of the expirations, the queue is well formed again, and
    when some timer was due the descriptor ends up armed for the earliest timer
    left.  At the level DEBUG, the default, every wakeup is undefined: readTimerfd
    logs toString(), which gives snprintf the format "%", or a variable that read(2)
    did not store. *)
Theorem handleRead_complete alloc clock settime actions howmany B q
    (Ha : alloc_ok alloc) (Hs : settime_ok settime) (Hc : calm_clock clock)
    (Hact : calm_actions actions) (Hq : tq_inv calm calm_interval B q) :
  wp out_of_memory (fun q' =>
      tq_inv calm calm_interval B q' /\ callingExpiredTimer_ q' = false
      /\ fired q' = fired q ++ callbacks q (due (clock (readings q)) q)
      /\ (due (clock (readings q)) q <> [] -> armed q'))
    (handleRead alloc clock settime actions false howmany q)
  /\ handleRead alloc clock settime actions true howmany q
     = Fault (match howmany with Some _ => FBadFormat | None => FIndeterminate end).
Proof.
  split; [|apply handleRead_debug].
  apply handleRead_exec; [by apply strong_alloc | | | done | done].
  - intros. by apply calm_arm.
  - intros. by apply calm_restart.
Qed.

Lemma accepts_ok : settime_ok accepts.
Proof. done. Qed.
Lemma demo_calm : calm_clock (fun _ => mkTimeStamp 7000000).
Proof. intros n. simpl. lia. Qed.

Definition calm_demo_actions (cb : Cb) : list timer_act :=
  match cb with 5%nat => [TAdd 7%nat (mkTimeStamp 8000000) (double_of_Z 0)] | _ => [] end.
Lemma calm_demo_actions_ok : calm_actions calm_demo_actions.
Proof.
  intros cb a. unfold calm_demo_actions.
  do 6 (destruct cb as [|cb]; [try (by intros ?%elem_of_nil)|]); [|by intros ?%elem_of_nil].
  intros ->%list_elem_of_singleton. split; [unfold calm; simpl; lia|]. by exists 0.
Qed.

(** One timer, due at the next reading. *)
Definition one_timer : TimerQueue :=
  inserted 16 (mkTimer 5%nat (mkTimeStamp 4000000) (double_of_Z 2) true 0)
    (set_heap {[16 := mkTimer 5%nat (mkTimeStamp 4000000) (double_of_Z 2) true 0]}
       empty_queue).

Lemma one_timer_ok : tq_inv calm calm_interval [] one_timer.
Proof.
  apply (insert_keeps _ _ [] _ (mkTimeStamp 0)); [|by apply lookup_singleton_eq].
  apply alloc_keeps; [|done|unfold UINTPTR_MAX; lia|unfold calm; simpl; lia|by exists 2].
  split; simpl; try apply sorted_nil; try (by intros ? ? ?%elem_of_nil);
    [constructor|]. intros p tm. by rewrite lookup_empty.
Qed.

Lemma handleRead_complete_witness :
  exists q', handleRead first_free (fun _ => mkTimeStamp 7000000) accepts calm_demo_actions
               false (Some 1) one_timer = Ok q'
    /\ fired q' = [5%nat] /\ armed q'
    /\ map fst (timers_ q') = [mkTimeStamp 8000000; mkTimeStamp 9000000].
Proof.
  destruct (handleRead_complete first_free (fun _ => mkTimeStamp 7000000) accepts
    calm_demo_actions (Some 1) [] one_timer first_free_ok accepts_ok demo_calm
    calm_demo_actions_ok one_timer_ok) as [H _].
  destruct (handleRead _ _ _ _ _ _ _) as [q'|f] eqn:Hq.
  - exists q'. destruct H as (_ & _ & Hf & Harm). split; [reflexivity|].
    split; [exact Hf|]. split; [apply Harm; vm_compute; discriminate|].
    vm_compute in Hq. injection Hq as <-. reflexivity.
  - exfalso. vm_compute in Hq. discriminate.
Defined.

(** ** cancel *)

Lemma cancel_live_exec good gi B q p s :
  tq_inv good gi B q -> (p, s) ∈ activeTimers_ q ->
  exists tm, heap q !! p = Some tm /\ sequence_ tm = s
    /\ cancelInLoop (mkTimerId p s) q
       = Ok (set_active_timers (set_erase active_ltb (p, s) (activeTimers_ q))
              (set_heap (delete p (heap q))
                (set_timers (set_erase entry_ltb (expiration_ tm, p) (timers_ q)) q))).
Proof.
  intros I Ha. destruct (i_active _ _ _ _ I _ _ Ha) as (tm & Htm & Hs & _).
  exists tm. split_and!; [done..|]. unfold cancelInLoop. simpl.
  rewrite (proj2 (set_mem_spec active_ltb _ _ (i_asorted _ _ _ _ I)) Ha).
  by rewrite (deref_ok _ _ _ Htm).
Qed.

(** addTimer, then cancel of the id it returned, is the identity on the two
    sets and on the heap: the id names the new timer and no other, and nothing
    is left behind. *)
Theorem add_then_cancel alloc clock settime cb when interval q id q'
    (Ha : alloc_ok alloc) (Hq : queue_ok q)
    (Hadd : addTimer alloc clock settime cb when interval q = Ok (id, q')) :
  exists q'', cancelInLoop id q' = Ok q''
    /\ timers_ q'' = timers_ q /\ activeTimers_ q'' = activeTimers_ q
    /\ heap q'' = heap q /\ fired q'' = fired q.
Proof.
  assert (queue_ok q' /\ added cb when interval q (id, q'))
    as [I' (p & c & fd & n & Hp & Hid & Hq' & _)].
  { pose proof (addTimer_exec alloc clock settime memory_safe (fun _ => True)
      (fun _ => True) (weak_alloc _ Ha) (fun t n _ => weak_arm settime clock t n)
      [] q cb when interval Hq Logic.I Logic.I) as H.
    by rewrite Hadd in H. }
  simpl in *. subst id q'.
  destruct (cancel_live_exec _ _ [] _ p (s_numCreated_ q) I') as (tm & Htm & _ & ->).
  { simpl. apply elem_of_set_insert; [apply _|]. by left. }
  simpl in *. rewrite lookup_insert_eq in Htm. simplify_eq.
  eexists. split; [done|]. simpl. split_and!; [| |by rewrite delete_insert_id|done].
  - apply set_erase_insert; [apply _|]. simpl.
    intros (tm & ? & _)%(i_timers _ _ _ _ Hq). congruence.
  - apply set_erase_insert; [apply _|].
    intros (tm & ? & _)%(i_active _ _ _ _ Hq). congruence.
Qed.

Lemma add_then_cancel_witness :
  exists id q' q'',
    addTimer first_free demo_clock accepts 9%nat (mkTimeStamp 5000000) (double_of_Z 1)
      demo_queue = Ok (id, q')
    /\ length (timers_ q') = 4%nat
    /\ cancelInLoop id q' = Ok q'' /\ timers_ q'' = timers_ demo_queue.
Proof.
  destruct (addTimer first_free demo_clock accepts 9%nat (mkTimeStamp 5000000)
    (double_of_Z 1) demo_queue) as [[id q']|] eqn:Hadd; [|vm_compute in Hadd; discriminate].
  destruct (add_then_cancel _ _ _ _ _ _ _ _ _ first_free_ok demo_queue_ok Hadd)
    as (q'' & Hc & Ht & _).
  exists id, q', q''. split; [reflexivity|]. split.
  - vm_compute in Hadd. injection Hadd as <- <-. reflexivity.
  - split; [exact Hc | exact Ht].
Defined.

(** C24. A callback that cancels its own repeating timer (or any timer of the batch
    being run): the request is remembered while callbacks run, and reset then
    deletes the timer instead of restarting it.  Without the request a
    repeating timer is put back with a new expiration, one interval after the
    wakeup. *)
Theorem batch_cancel B q t p tm now
    (Hq : tq_inv (fun _ => True) (fun _ => True) ((t, p) :: B) q)
    (Htm : heap q !! p = Some tm) (Hcalling : callingExpiredTimer_ q = true) :
  (exists q1, cancelInLoop (mkTimerId p (sequence_ tm)) q = Ok q1
     /\ timers_ q1 = timers_ q /\ heap q1 = heap q
     /\ restart_or_delete now (t, p) (set_calling_expired false q1)
        = Ok (set_heap (delete p (heap q)) (set_calling_expired false q1)))
  /\ (repeat_ tm = true -> (p, sequence_ tm) ∉ cancelingTimers_ q ->
      forall e, addTime now (interval_ tm) = Ok e ->
      exists q1, restart_or_delete now (t, p) q = Ok q1
        /\ timers_ q1 = set_insert entry_ltb (e, p) (timers_ q)
        /\ heap q1 !! p = Some (mkTimer (callback_ tm) e (interval_ tm) true (sequence_ tm))).
Proof.
  pose proof (i_csorted _ _ _ _ Hq) as Hcs.
  destruct (i_batch _ _ _ _ Hq t p ltac:(by left)) as [_ Hout]. split.
  - assert (set_mem active_ltb (p, sequence_ tm) (activeTimers_ q) = false) as Hm.
    { destruct (set_mem _ _ _) eqn:Hm; [|done].
      apply set_mem_spec in Hm; [|apply _|apply Hq].
      destruct (i_active _ _ _ _ Hq _ _ Hm) as (? & _ & _ & Hin). by apply Hout in Hin. }
    unfold cancelInLoop. simpl. rewrite Hm, Hcalling. eexists. split; [done|].
    split; [done|]. split; [done|]. unfold restart_or_delete. simpl.
    rewrite (deref_ok _ tm) by done. simpl.
    by rewrite set_mem_insert, andb_false_r by (apply _ || done).
  - intros Hr Hc e He. unfold restart_or_delete. simpl. rewrite (deref_ok _ _ _ Htm). simpl.
    rewrite Hr. destruct (set_mem _ _ _) eqn:Hm.
    { apply set_mem_spec in Hm; [done|apply _|done]. }
    simpl. unfold restart. rewrite Hr, He. simpl.
    rewrite (insert_exec _ _ _ (lookup_insert_eq _ _ _)). simpl.
    eexists. split; [done|]. split; [done|]. simpl. by rewrite lookup_insert_eq.
Qed.

(** The batch of [one_timer], taken out. *)
Definition one_batch : TimerQueue :=
  match getExpired (mkTimeStamp 4000000) one_timer with
  | Ok (_, q) => set_calling_expired true q
  | Fault _ => one_timer
  end.

Lemma one_batch_ok :
  tq_inv (fun _ => True) (fun _ => True) [(mkTimeStamp 4000000, 16)] one_batch.
Proof.
  assert (queue_ok one_timer) as I.
  { destruct one_timer_ok. split; try done. intros p tm Hl.
    destruct (i_heap0 _ _ Hl) as (? & ? & _). done. }
  destruct (getExpired_exec _ _ [] (mkTimeStamp 4000000) _ I) as (q' & H & I' & _).
  unfold one_batch. rewrite H. eapply tq_inv_ext; [..|exact I']; done.
Qed.

Lemma batch_cancel_witness :
  exists tm q1, heap one_batch !! 16 = Some tm /\ repeat_ tm = true
    /\ cancelInLoop (mkTimerId 16 (sequence_ tm)) one_batch = Ok q1
    /\ restart_or_delete (mkTimeStamp 4000000) (mkTimeStamp 4000000, 16)
         (set_calling_expired false q1)
       = Ok (set_heap (delete 16 (heap one_batch)) (set_calling_expired false q1)).
Proof.
  destruct (heap one_batch !! 16) as [tm|] eqn:Htm; [|vm_compute in Htm; discriminate].
  destruct (batch_cancel [] one_batch (mkTimeStamp 4000000) 16 tm (mkTimeStamp 4000000)
    one_batch_ok Htm) as [(q1 & Hc & _ & _ & Hr) _]; [reflexivity|].
  exists tm, q1. split; [reflexivity|]. split; [vm_compute in Htm; injection Htm as <-;
    reflexivity|]. split; [exact Hc|exact Hr].
Defined.

(** ** Timers that are lost *)

(** C25. cancel does not re-arm the descriptor, and reset (of a wakeup above the level
    DEBUG) re-arms it only inside the loop over the expired timers.  So once the earliest timer is cancelled, the
    wakeup that was meant for it finds nothing due, and the descriptor stays
    disarmed although other timers are waiting. *)
Theorem cancel_strands_later_timers alloc clock settime actions howmany q t1 p1 s1 t2 p2 T
    (Hq : queue_ok q) (Ht : timers_ q = (t1, p1) :: (t2, p2) :: T)
    (Hs : (p1, s1) ∈ activeTimers_ q)
    (Hnow : microSecondSinceEpoch (clock (readings q)) < microSecondSinceEpoch t2) :
  exists q1 q2,
    cancelInLoop (mkTimerId p1 s1) q = Ok q1 /\ timerfd_ q1 = timerfd_ q
    /\ handleRead alloc clock settime actions false howmany q1 = Ok q2
    /\ timers_ q2 = (t2, p2) :: T /\ fired q2 = fired q
    /\ timerfd_ q2 = None.
Proof.
  destruct (cancel_live_exec _ _ _ _ _ _ Hq Hs) as (tm & Htm & _ & ->).
  destruct (i_timers _ _ _ _ Hq t1 p1) as (tm' & Htm' & He & _); [rewrite Ht; by left|].
  simplify_eq. eexists. eexists. split; [done|]. split; [done|].
  rewrite Ht. simpl. rewrite (ltb_irrefl (ltb := entry_ltb)).
  rewrite handleRead_nothing_due; [done|]. unfold due. simpl.
  unfold entry_ltb, pair_ltb, ts_ltb. simpl.
  rewrite (proj2 (Z.ltb_ge _ _)), (proj2 (Z.ltb_lt _ _)) by lia. done.
Qed.

Lemma cancel_strands_later_timers_witness :
  exists q1 q2, cancelInLoop (mkTimerId 32 1) demo_queue = Ok q1
    /\ handleRead first_free demo_clock accepts demo_actions false (Some 1) q1 = Ok q2
    /\ map fst (timers_ q2) = [mkTimeStamp 7000000; mkTimeStamp 9000000]
    /\ timerfd_ q2 = None.
Proof.
  destruct (cancel_strands_later_timers first_free demo_clock accepts demo_actions
    (Some 1) demo_queue (mkTimeStamp 4000000) 32 1 (mkTimeStamp 7000000) 48
    [(mkTimeStamp 9000000, 16)] demo_queue_ok) as (q1 & q2 & Hc & _ & Hr & Ht & _ & Hfd).
  - vm_compute. reflexivity.
  - change (activeTimers_ demo_queue) with [(16, 0); (32, 1); (48, 2)].
    apply elem_of_cons. right. apply elem_of_cons. left. reflexivity.
  - vm_compute. reflexivity.
  - exists q1, q2. split; [exact Hc|]. split; [exact Hr|]. rewrite Ht.
    split; [reflexivity|exact Hfd].
Defined.
