(* ===== verification/LoopObject.v ===== *)
(** The EventLoop object as a whole: include/EventLoop.h and src/EventLoop.cc with
    the poller and the timer queue it owns.

    [EventLoop] models the loop's queue and its threads; here are the constructor
    and the destructor with the members they build and destroy, the rule of one
    loop per thread, and the members that only forward to the poller or to the
    timer queue.  Poller::newDefaultPoller returns no value in the source; the
    poller is taken to be the EpollPoller its comments name. *)

From S2P Require Import Prelude TimeStamp StdSet Channel Poller EventLoop TimerQueue.
From Stdlib Require Import SpecFloat.

Record LoopObject (K F : Type) := mkObject {
  core : EventLoop F;
  poller_ : Reactor K;
  timerQueue_ : TimerQueue;
  wakeupFd_ : Z;
}.
Arguments mkObject {K F}.
Arguments core {K F} _.
Arguments poller_ {K F} _.
Arguments timerQueue_ {K F} _.
Arguments wakeupFd_ {K F} _.

(** t_loopInThisThread, for every thread. *)
Abbreviation registry := (gmap Z addr).

Section object.
Context {K F : Type} `{EpollKernel K}.
(** Where the object and its parts live, and the descriptors the kernel gave. *)
Variables this queue timer_chan wakeup_chan timer_fd : addr.
Variable alloc : gmap addr Timer -> option addr.
Variable clock : nat -> TimeStamp.
Variable settime : timespec -> Z.
Variable actions : Cb -> list timer_act.
Implicit Types (lo : LoopObject K F) (reg : registry).

Definition set_poller r lo : LoopObject K F := mkObject (core lo) r (timerQueue_ lo) (wakeupFd_ lo).
Definition set_queue q lo : LoopObject K F := mkObject (core lo) (poller_ lo) q (wakeupFd_ lo).

(** createEventfd(): a failure is fatal. *)
Definition createEventfd (evfd : Z) : outcome Z :=
  if evfd <? 0 then Fault FAbort else Ok evfd.

(** EventLoop::EventLoop, in thread [tid], on a fresh epoll instance; [evfd] is what
    eventfd(2) answers. *)
Definition EventLoop_new (tid evfd : Z) (k : K) reg : outcome (LoopObject K F * registry) :=
  let r := EpollPoller_ctor k in
  '(q, r) ← TimerQueue_ctor queue timer_chan timer_fd r;
  wakeupFd ← createEventfd evfd;
  let r := put wakeup_chan (Channel_ctor wakeupFd) r in
  match reg !! tid with
  | Some _ => Fault FAbort
  | None =>
      let reg := <[tid := this]> reg in
      c ← get wakeup_chan r;
      let r := put wakeup_chan (setReadCallback (CbWakeupRead this) c) r in
      r ← enableReading wakeup_chan r;
      Ok (mkObject (EventLoop_ctor tid wakeup_chan) r q wakeupFd, reg)
  end.

(** EventLoop::~EventLoop, and then the members it destroys, last one first: the
    wakeup channel, the timer queue, the poller.  What is left are the kernel's
    epoll instance, with the poller's last state, and the timers' heap. *)
Definition EventLoop_delete (tid : Z) lo reg : outcome (Reactor K * TimerQueue * registry) :=
  r ← disableAll wakeup_chan (poller_ lo);
  r ← Channel_remove wakeup_chan r;
  let reg := delete tid reg in
  let r := destroy_channel wakeup_chan r in
  '(q, r) ← TimerQueue_dtor timer_chan (timerQueue_ lo) r;
  Ok (r, q, reg).

(** The members that forward to the poller. *)
Definition loop_updateChannel (p : addr) lo : outcome (LoopObject K F) :=
  r ← updateChannel p (poller_ lo); Ok (set_poller r lo).
Definition loop_removeChannel (p : addr) lo : outcome (LoopObject K F) :=
  r ← removeChannel p (poller_ lo); Ok (set_poller r lo).
Definition loop_hasChannel (p : addr) lo : outcome bool := hasChannel p (poller_ lo).

(** The members that forward to the timer queue, on the loop's thread; what another
    thread's calls do is in [TimerQueue]. *)
Definition runAt (time : TimeStamp) (cb : Cb) lo : outcome (TimerId * LoopObject K F) :=
  '(id, q) ← addTimer alloc clock settime cb time (double_of_Z 0) (timerQueue_ lo);
  Ok (id, set_queue q lo).

Definition runAfter (delay : double) (cb : Cb) lo : outcome (TimerId * LoopObject K F) :=
  let now := clock (readings (timerQueue_ lo)) in
  let lo := set_queue (tick (timerQueue_ lo)) lo in
  time ← addTime now delay;
  runAt time cb lo.

Definition runEvery (interval : double) (cb : Cb) lo : outcome (TimerId * LoopObject K F) :=
  let now := clock (readings (timerQueue_ lo)) in
  let lo := set_queue (tick (timerQueue_ lo)) lo in
  time ← addTime now interval;
  '(id, q) ← addTimer alloc clock settime cb time interval (timerQueue_ lo);
  Ok (id, set_queue q lo).

Definition cancel (id : TimerId) lo : outcome (LoopObject K F) :=
  q ← cancelInLoop id (timerQueue_ lo); Ok (set_queue q lo).

(** ** What happens to a loop between its construction and its destruction *)

Inductive loop_call :=
| LRunAt (time : TimeStamp) (cb : Cb)
| LRunAfter (delay : double) (cb : Cb)
| LRunEvery (interval : double) (cb : Cb)
| LCancel (id : TimerId)
| LTimerRead (debug : bool) (howmany : option Z)   (* the timer channel's read callback *)
| LChannel (c : call).            (* what the other channels and the poller do *)

Definition loop_exec lo (c : loop_call) : outcome (LoopObject K F) :=
  match c with
  | LRunAt time cb => '(_, lo) ← runAt time cb lo; Ok lo
  | LRunAfter delay cb => '(_, lo) ← runAfter delay cb lo; Ok lo
  | LRunEvery interval cb => '(_, lo) ← runEvery interval cb lo; Ok lo
  | LCancel id => cancel id lo
  | LTimerRead debug howmany =>
      q ← handleRead alloc clock settime actions debug howmany (timerQueue_ lo);
      Ok (set_queue q lo)
  | LChannel c => r ← exec_call c (poller_ lo); Ok (set_poller r lo)
  end.

(** The loop's own two channels belong to it. *)
Definition foreign_call (c : call) : Prop :=
  match c with
  | CallNew p _ | CallChange _ p | CallRemove p | CallDestroy p =>
      p <> timer_chan /\ p <> wakeup_chan
  | CallPoll _ => True
  end.

Fixpoint legal_loop lo (cs : list loop_call) : Prop :=
  match cs with
  | [] => True
  | c :: cs =>
      match c with LChannel c => foreign_call c /\ legal_call c (poller_ lo) | _ => True end
      /\ forall lo', loop_exec lo c = Ok lo' -> legal_loop lo' cs
  end.
End object.

Section lifecycle.
Context {K F : Type} `{EpollKernelLaws K}.
Variables this queue timer_chan wakeup_chan timer_fd : addr.
Variable alloc : gmap addr Timer -> option addr.
Variable clock : nat -> TimeStamp.
Variable settime : timespec -> Z.
Variable actions : Cb -> list timer_act.
Context (Halloc : alloc_ok alloc).
Implicit Types (lo : LoopObject K F) (r : Reactor K).

Abbreviation exec := (loop_exec alloc clock settime actions).
Abbreviation legal := (legal_loop timer_chan wakeup_chan alloc clock settime actions).

(** A registered channel of the loop. *)
Definition own (p fd : addr) r : Prop :=
  exists c, chans r !! p = Some c /\ fd_ c = fd /\ index_ c <> kNew.

Lemma own_ext p fd r r' : chans r' !! p = chans r !! p -> own p fd r -> own p fd r'.
Proof. unfold own. by intros ->. Qed.

Record loop_ok lo : Prop := {
  lo_reactor : reactor_ok (poller_ lo);
  lo_timer : own timer_chan timer_fd (poller_ lo);
  lo_wakeup : own wakeup_chan (wakeupFd_ lo) (poller_ lo);
  lo_queue : queue_ok (timerQueue_ lo);
}.

(** Nothing the rest of the program does to its own channels touches these. *)
Lemma exec_call_own p fd c r r' :
  reactor_ok r -> legal_call c r -> exec_call c r = Ok r' ->
  match c with
  | CallNew q _ | CallChange _ q | CallRemove q | CallDestroy q => q <> p
  | CallPoll _ => True
  end -> own p fd r -> own p fd r'.
Proof.
  intros Hr Hl Hx Hne Ho. destruct c as [q f|ch q|q|q|res]; simpl in *.
  - injection Hx as <-. eapply own_ext; [|exact Ho]. simpl. by rewrite lookup_insert_ne.
  - destruct Hl as (c & Hc & Hm).
    destruct (change_events_keeps (change_fn ch) q c r Hr Hc Hm) as (r1 & Hr1 & _ & _ & Hch & _).
    rewrite Hx in Hr1. injection Hr1 as <-. eapply own_ext; [|exact Ho]. by apply Hch.
  - destruct Hl as (c & Hc & Hm).
    destruct (remove_keeps q c r Hr Hc Hm) as (r1 & Hr1 & _ & _ & [Hch _] & _).
    rewrite Hx in Hr1. injection Hr1 as <-. eapply own_ext; [|exact Ho]. by apply Hch.
  - injection Hx as <-. eapply own_ext; [|exact Ho]. simpl. by rewrite lookup_delete_ne.
  - destruct res as [e|evs]; [by injection Hx as <-|].
    destruct (Poll_exec evs invalid r Hr Hl) as (r1 & Hr1 & _ & _ & _ & _ & Hev).
    assert (r' = r1) as -> by (rewrite Hr1 in Hx; by injection Hx).
    destruct (decide (p ∈ map snd evs)) as [Hin|Hout].
    + apply list_elem_of_fmap in Hin as ([ev q] & -> & Hin). simpl in *.
      destruct (Hev ev q Hin) as (c & Hc & _ & Hc'). destruct Ho as (c0 & Hc0 & Hf & Hi).
      exists (set_revents ev c). by simplify_eq.
    + eapply own_ext; [|exact Ho]. by eapply (Poll_untouched evs).
Qed.

Lemma queue_call_ok lo q :
  loop_ok lo -> queue_ok q -> loop_ok (set_queue q lo).
Proof. intros [] Hq. by split. Qed.

Lemma tick_ok q : queue_ok q -> queue_ok (tick q).
Proof. intros Hq. by eapply tq_inv_ext; [..|exact Hq]. Qed.

Lemma addTimer_ok cb when interval q :
  queue_ok q ->
  wp memory_safe (fun y => queue_ok y.2) (addTimer alloc clock settime cb when interval q).
Proof.
  intros Hq. eapply wp_mono; [apply (addTimer_exec alloc clock settime memory_safe
    (fun _ => True) (fun _ => True)) with (B := [])|]; try done.
  - by apply weak_alloc.
  - intros. apply weak_arm.
  - by intros y [? _].
Qed.

Lemma runAt_ok time cb lo :
  loop_ok lo -> wp memory_safe (fun y => loop_ok y.2) (runAt alloc clock settime time cb lo).
Proof.
  intros I. unfold runAt. eapply wp_bind; [by apply addTimer_ok, I|].
  intros [id q] Hq. by apply queue_call_ok.
Qed.

Lemma loop_exec_ok lo c :
  loop_ok lo ->
  match c with LChannel c => foreign_call timer_chan wakeup_chan c /\ legal_call c (poller_ lo)
             | _ => True end ->
  wp memory_safe loop_ok (exec lo c).
Proof.
  intros I Hl. pose proof (tick_ok _ (lo_queue _ I)) as Ht.
  destruct c as [time cb|delay cb|interval cb|id|debug howmany|c]; simpl.
  - eapply (wp_bind memory_safe (fun y => loop_ok y.2)); [by apply runAt_ok|].
    by intros [id lo'].
  - unfold runAfter. eapply (wp_bind memory_safe (fun y => loop_ok y.2)); [|by intros [id lo']].
    eapply wp_bind; [apply weak_restart|]. intros t _. apply runAt_ok. by apply queue_call_ok.
  - unfold runEvery. eapply (wp_bind memory_safe (fun y => loop_ok y.2)); [|by intros [id lo']].
    eapply wp_bind; [apply weak_restart|]. intros t _.
    eapply (wp_bind memory_safe (fun y => queue_ok y.2)); [by apply addTimer_ok|].
    intros [id q] Hq. by apply queue_call_ok; [apply queue_call_ok|].
  - unfold cancel. destruct (cancelInLoop_keeps _ _ [] _ id (lo_queue _ I)) as (q' & -> & Hq & _).
    by apply queue_call_ok.
  - eapply wp_bind; [by apply wakeup_safe, I|]. intros q Hq. by apply queue_call_ok.
  - destruct Hl as [Hf Hl]. destruct (exec_call_ok c _ (lo_reactor _ I) Hl) as (r & Hx & Hr).
    rewrite Hx. simpl. split; simpl; [done| | |apply I].
    + eapply exec_call_own; [apply I|done|exact Hx| |apply (lo_timer _ I)].
      destruct c; simpl in *; tauto.
    + eapply exec_call_own; [apply I|done|exact Hx| |apply (lo_wakeup _ I)].
      destruct c; simpl in *; tauto.
Qed.

Lemma loop_run_ok lo cs :
  loop_ok lo -> legal lo cs -> wp memory_safe loop_ok (mfold exec lo cs).
Proof.
  revert lo. induction cs as [|c cs IH]; intros lo I Hl; [done|]. destruct Hl as [Hc Hl].
  pose proof (loop_exec_ok lo c I Hc) as Hx. simpl.
  destruct (exec lo c) as [lo'|f]; [|done]. apply IH; [done|by apply Hl].
Qed.

(** A new channel's registration, the way both constructors make it. *)
Lemma register_fresh p c r :
  reactor_ok r -> chans r !! p = None -> index_ c = kNew -> watchable K (fd_ c) = true ->
  channels_ r !! fd_ c = None ->
  exists r', enableReading p (put p c r) = Ok r' /\ reactor_ok r' /\ own p (fd_ c) r'
    /\ (forall q, q <> p -> chans r' !! q = chans r !! q)
    /\ channels_ r' = <[fd_ c := p]> (channels_ r).
Proof.
  intros Hr Hp Hn Hw Hf. pose proof (put_fresh_ok p c r Hr Hp Hn Hw) as Hr1.
  assert (may_update (put p c r) p c) as Hmay by by intros _.
  destruct (change_events_exec ev_enableReading p c _ Hr1 (chans_put p c r) Hmay)
    as (r' & Hx & Hch & Hm & _).
  destruct (change_events_keeps ev_enableReading p c _ Hr1 (chans_put p c r) Hmay)
    as (r'' & Hx' & Hr' & Hc & _). rewrite Hx in Hx'. injection Hx' as <-.
  exists r'. split; [done|]. split; [done|]. split; [|split; [|done]].
  - eexists. split; [exact Hc|]. split; [done|]. unfold updated, updated_index.
    by rewrite Hn.
  - intros q Hq. rewrite Hch. simpl. by rewrite !lookup_insert_ne.
Qed.

(** And its end, the way both destructors make it. *)
Lemma unregister p fd r :
  reactor_ok r -> own p fd r ->
  exists r1 r2, disableAll p r = Ok r1 /\ Channel_remove p r1 = Ok r2
    /\ reactor_ok (destroy_channel p r2) /\ interest (kernel r2) fd = None
    /\ (forall q, q <> p -> chans r2 !! q = chans r !! q)
    /\ (forall fd', fd' <> fd -> interest (kernel r2) fd' = interest (kernel r) fd').
Proof.
  intros Hr (c & Hc & <- & Hi).
  destruct (change_events_keeps ev_disableAll p c r Hr Hc) as (r1 & Hx1 & Hr1 & Hc1 & Ho1).
  { by intros ?. }
  destruct (remove_keeps p _ r1 Hr1 Hc1) as (r2 & Hx2 & Hr2 & Hc2 & Ho2 & Hi2 & _).
  { unfold may_update, updated, updated_index. simpl. intros Hn.
    repeat case_decide; try case_match; done. }
  exists r1, r2. split; [done|]. split; [done|].
  split; [by eapply destroy_channel_ok; [|exact Hc2|]|]. split; [done|].
  destruct Ho1 as [Hq1 Hf1], Ho2 as [Hq2 Hf2]. split.
  - intros q Hq. by rewrite Hq2, Hq1.
  - intros fd' Hfd. rewrite (proj1 (Hf2 _ Hfd)). by apply Hf1.
Qed.

Abbreviation new := (EventLoop_new (F := F) this queue timer_chan wakeup_chan timer_fd).
Abbreviation del := (EventLoop_delete (F := F) timer_chan wakeup_chan).
Context (Hchans : timer_chan <> wakeup_chan).

Lemma EventLoop_new_ok tid evfd k reg :
  (forall fd, interest k fd = None) -> timer_fd <> evfd -> watchable K timer_fd = true ->
  watchable K evfd = true -> reg !! tid = None ->
  exists lo, new tid evfd k reg = Ok (lo, <[tid := this]> reg) /\ loop_ok lo
    /\ wakeupFd_ lo = evfd /\ threadId_ (core lo) = tid.
Proof.
  intros Hk Hfd Ht He Hreg. unfold EventLoop_new, TimerQueue_ctor.
  destruct (register_fresh timer_chan (setReadCallback (CbTimerRead queue)
    (Channel_ctor timer_fd)) (EpollPoller_ctor k)) as (r1 & -> & Hr1 & Ho1 & Hq1 & Hm1);
    [by apply EpollPoller_ctor_ok|done..|].
  simpl. unfold createEventfd. rewrite (proj2 (Z.ltb_ge _ _) (watchable_fd _ He)). simpl.
  rewrite Hreg. rewrite (get_some _ _ _ (chans_put _ _ _)). simpl. rewrite put_put.
  destruct (register_fresh wakeup_chan (setReadCallback (CbWakeupRead this)
    (Channel_ctor evfd)) r1) as (r2 & -> & Hr2 & Ho2 & Hq2 & Hm2);
    [done| |done|done| |].
  { by rewrite Hq1. }
  { rewrite Hm1. simpl. by rewrite lookup_insert_ne. }
  eexists. split; [reflexivity|]. split; [|done]. split; simpl; [done| |done|].
  - eapply own_ext; [by apply Hq2|done].
  - apply ctor_queue_ok.
Qed.

(** The members before the check of t_loopInThisThread: either they are built or
    the process ends. *)
Lemma TimerQueue_ctor_cases q tc fd k :
  (forall fd, interest k fd = None) ->
  if watchable K fd then exists x, TimerQueue_ctor q tc fd (EpollPoller_ctor k) = Ok x
  else TimerQueue_ctor q tc fd (EpollPoller_ctor k) = Fault FAbort.
Proof.
  intros Hk. unfold TimerQueue_ctor. destruct (watchable K fd) eqn:Hw.
  - destruct (register_fresh tc (setReadCallback (CbTimerRead q) (Channel_ctor fd))
      (EpollPoller_ctor k)) as (r1 & -> & _); [by apply EpollPoller_ctor_ok|done..|].
    by eexists.
  - unfold enableReading. by rewrite (change_events_unwatchable _ tc _ _ (chans_put _ _ _)).
Qed.

Lemma second_loop that q tc wc fd tid evfd k reg other :
  (forall fd, interest k fd = None) -> reg !! tid = Some other ->
  EventLoop_new (F := F) that q tc wc fd tid evfd k reg = Fault FAbort.
Proof.
  intros Hk Hreg. unfold EventLoop_new. pose proof (TimerQueue_ctor_cases q tc fd k Hk) as Hc.
  destruct (watchable K fd); [destruct Hc as [[q' r] ->]|by rewrite Hc]. simpl.
  unfold createEventfd. destruct (evfd <? 0); [done|]. simpl. by rewrite Hreg.
Qed.

Lemma failed_descriptor that q tc wc fd tid evfd k reg :
  (forall fd, interest k fd = None) -> watchable K fd = false \/ evfd < 0 ->
  EventLoop_new (F := F) that q tc wc fd tid evfd k reg = Fault FAbort.
Proof.
  intros Hk Hbad. unfold EventLoop_new. pose proof (TimerQueue_ctor_cases q tc fd k Hk) as Hc.
  destruct (watchable K fd); [destruct Hc as [[q' r] ->]|by rewrite Hc]. simpl.
  destruct Hbad as [|Hbad]; [done|]. unfold createEventfd. by rewrite (proj2 (Z.ltb_lt _ _) Hbad).
Qed.

Lemma EventLoop_delete_ok tid lo reg :
  loop_ok lo -> exists r q, del tid lo reg = Ok (r, q, delete tid reg)
    /\ reactor_ok r /\ heap q = ∅
    /\ chans r !! timer_chan = None /\ chans r !! wakeup_chan = None
    /\ interest (kernel r) (wakeupFd_ lo) = None /\ interest (kernel r) timer_fd = None.
Proof.
  intros I. unfold EventLoop_delete, TimerQueue_dtor.
  destruct (unregister _ _ _ (lo_reactor _ I) (lo_wakeup _ I))
    as (r1 & r2 & -> & Hx2 & Hr2 & Hi2 & Hq2 & _). simpl. rewrite Hx2. simpl.
  destruct (unregister timer_chan timer_fd (destroy_channel wakeup_chan r2) Hr2)
    as (r3 & r4 & -> & Hx4 & Hr4 & Hi4 & Hq4 & Hf4).
  { eapply own_ext; [|apply (lo_timer _ I)]. simpl.
    rewrite lookup_delete_ne by done. by apply Hq2. }
  simpl. rewrite Hx4. simpl. eexists _, _. split; [reflexivity|]. split; [done|].
  split; [apply dtor_frees, I|]. simpl. split; [apply lookup_delete_eq|].
  rewrite lookup_delete_ne by done. rewrite Hq4 by done. simpl.
  split; [apply lookup_delete_eq|]. split; [|done].
  destruct (decide (wakeupFd_ lo = timer_fd)) as [->|Hne]; [done|]. by rewrite Hf4.
Qed.

End lifecycle.

(** One timer, one connection channel that comes and goes, a wakeup. *)
Definition demo_lo_calls : list loop_call :=
  [LRunAfter (double_of_Z 3) 1%nat; LChannel (CallNew 300 7);
   LChannel (CallChange EnableReading 300);
   LChannel (CallPoll (EpollEvents [(POLLIN, 300); (POLLIN, 200)]));
   LChannel (CallRemove 300); LChannel (CallDestroy 300); LTimerRead false (Some 1)].

Abbreviation demo_new := (EventLoop_new (F := unit) 50 60 100 200 4).
Abbreviation demo_exec := (loop_exec first_free demo_clock accepts demo_actions).

(** A poll that reports both of two registered channels. *)
Lemma reported_two p q fd fd' (r : Reactor (gmap Z (Z * addr))) :
  p <> q -> 2 <= eventListSize r -> kernel r !! fd = Some (3, p) ->
  kernel r !! fd' = Some (3, q) -> reported [(POLLIN, p); (POLLIN, q)] r.
Proof.
  intros Hpq Hs Hp Hq. split; [exact Hs|]. split.
  - repeat constructor; set_solver.
  - intros ev x [[= -> ->]|[[= -> ->]|[]%elem_of_nil]%elem_of_cons]%elem_of_cons;
      [exists fd, 3; exact Hp | exists fd', 3; exact Hq].
Qed.

Lemma demo_lo_legal lo reg' :
  demo_new 1 5 (∅ : gmap Z (Z * addr)) ∅ = Ok (lo, reg') ->
  legal_loop 100 200 first_free demo_clock accepts demo_actions lo demo_lo_calls.
Proof.
  intros Hx. vm_compute in Hx. injection Hx as <- <-. cbn [legal_loop demo_lo_calls].
  repeat (split; [first [ exact I
      | split; [first [exact I | split; done] | first
        [ split; reflexivity
        | eexists; split; [vm_compute; reflexivity | intros _; vm_compute; reflexivity]
        | eexists; split; [vm_compute; reflexivity | intros Hk; vm_compute in Hk; done]
        | eexists; split; [vm_compute; reflexivity | vm_compute; reflexivity]
        | apply (reported_two 300 200 7 5); [lia|vm_compute; discriminate|reflexivity..]]]]
    | let l := fresh in let Hl := fresh in
      intros l Hl; vm_compute in Hl; injection Hl as <-]).
  exact I.
Qed.

