(* ===== verification/TcpConnection.v ===== *)
(** include/TcpConnection.h and src/TcpConnection.cc: one connection, as its loop
    runs it.

    The connection owns a channel, an input and an output [Buffer], and its state
    machine.  What it needs of the channel is the interface [EventSource]: the
    channel object, the enable and disable operations, and remove; the reactor of
    [Poller] is an instance.  Functors queued on the loop are the list [pending],
    in the order EventLoop runs them.  A user callback is known by an identifier
    and by the calls it makes on the connection ([user], a parameter, which may
    look at the whole state), and so is the closeCallback_ TcpServer installs.

    Outside the program: write(2) is the parameter [sys_write], the result of the
    k-th call on the bytes offered, and what readv(2) answers is an argument of
    handleRead.  [wire] is what the kernel accepted so far and [shut] says that
    SHUT_WR was sent.

    The members a foreign thread reads (state_) are read at once; the data races
    of the original are not modelled. *)

From S2P Require Import Prelude Buffer Channel Poller.

(** ** The interface to the channel *)

Class EventSource (W : Type) := {
  es_get : addr -> W -> option Channel;
  es_put : addr -> Channel -> W -> W;
  es_change : change -> addr -> W -> outcome W;
  es_remove : addr -> W -> outcome W;
}.

(** [es_ok p w]: the channel at [p] is live and may be updated.  Then no
    operation faults, and each does what it says to the interest mask. *)
Class EventSourceLaws (W : Type) `{EventSource W} := {
  es_ok : addr -> W -> Prop;
  es_get_put p c w : es_get p (es_put p c w) = Some c;
  es_ok_get p w : es_ok p w -> exists c, es_get p w = Some c;
  es_ok_change ch p w c : es_ok p w -> es_get p w = Some c ->
    exists w' c', es_change ch p w = Ok w' /\ es_ok p w' /\ es_get p w' = Some c'
      /\ events_ c' = change_fn ch (events_ c);
  es_ok_remove p w c : es_ok p w -> es_get p w = Some c ->
    exists w' c', es_remove p w = Ok w' /\ es_ok p w' /\ es_get p w' = Some c'
      /\ events_ c' = events_ c;
  es_ok_tie p obj w c : es_ok p w -> es_get p w = Some c ->
    es_ok p (es_put p (tie obj c) w);
}.

(** ** Data *)

Inductive StateE := kDisconnected | kConnecting | kConnected | kDisconnecting.

#[export] Instance StateE_eq_dec : EqDecision StateE.
Proof. solve_decision. Defined.

Definition stateToString (s : StateE) : bytes :=
  match s with
  | kDisconnected => txt "kDisconnected"
  | kConnecting => txt "kConnecting"
  | kConnected => txt "kConnected"
  | kDisconnecting => txt "kDisconnecting"
  end.

(** A user callback. *)
Abbreviation UserCb := nat.

(** The functors the class queues on its loop. *)
Inductive Functor :=
| FSendInLoop (d : bytes)
| FShutdownInLoop
| FForceCloseInLoop
| FForceClose                  (* the timer callback of forceCloseWithDelay *)
| FStartReadInLoop
| FStopReadInLoop
| FConnectEstablished
| FConnectDestroyed
| FWriteComplete (cb : UserCb).

#[export] Instance Functor_eq_dec : EqDecision Functor.
Proof. solve_decision. Defined.

(** Ghost: the user callbacks called. *)
Inductive note :=
| NConnection (connected : bool)
| NMessage
| NWriteComplete
| NClose.

#[export] Instance note_eq_dec : EqDecision note.
Proof. solve_decision. Defined.

Record TcpConnection (W : Type) := mkConn {
  state_ : StateE;
  reading_ : bool;
  connectionCallback_ : option UserCb;
  messageCallback_ : option UserCb;
  writeCompleteCallback_ : option UserCb;
  closeCallback_ : option UserCb;
  inputBuffer_ : Buffer;
  outputBuffer_ : Buffer;
  env : W;                       (* where the channel lives *)
  pending : list Functor;        (* the loop's queue *)
  delayed : list Functor;        (* timers set with runAfter *)
  wire : bytes;
  shut : bool;
  writes : nat;                  (* write(2) calls so far *)
  accepted : bytes;              (* ghost: what sendInLoop took charge of *)
  notes : list note;             (* ghost *)
}.
Arguments mkConn {W}.
Arguments state_ {W} _.
Arguments reading_ {W} _.
Arguments connectionCallback_ {W} _.
Arguments messageCallback_ {W} _.
Arguments writeCompleteCallback_ {W} _.
Arguments closeCallback_ {W} _.
Arguments inputBuffer_ {W} _.
Arguments outputBuffer_ {W} _.
Arguments env {W} _.
Arguments pending {W} _.
Arguments delayed {W} _.
Arguments wire {W} _.
Arguments shut {W} _.
Arguments writes {W} _.
Arguments accepted {W} _.
Arguments notes {W} _.

(** write(2): -1 and errno, or the number of bytes taken.  sendInLoop logs the error and
    then looks at errno again: [logged] is what the log leaves there (its output function
    may be the user's). *)
Inductive write_result :=
| WriteError (errno logged : Z)
| WriteOk (n : Z).

Definition EWOULDBLOCK : Z := 11.
Definition EPIPE : Z := 32.
Definition ECONNRESET : Z := 104.

(** errno == EPIPE || errno == ECONNRESET *)
Definition broken (errno : Z) : bool := (errno =? EPIPE) || (errno =? ECONNRESET).

(** The calls a user callback, or another thread, makes on the connection.
    [AQueueDestroyed] is what TcpServer does with it: queueInLoop of
    connectDestroyed. *)
Inductive api :=
| ASend (d : bytes)
| ASendInput                     (* send(inputBuffer()) *)
| AShutdown
| AForceClose
| AForceCloseWithDelay
| AStartRead
| AStopRead
| ARetrieve (n : nat)             (* inputBuffer()->retrieve(n) *)
| ARetrieveAll
| AQueueDestroyed.

(** The callbacks a server starts with. *)
Definition defaultConnectionCallback : list api := [].
Definition defaultMessageCallback : list api := [ARetrieveAll].

Section methods.
Context {W : Type} `{EventSource W}.
Variable self chan : addr.
Variable sys_write : nat -> bool -> bytes -> write_result.
Variable user : UserCb -> TcpConnection W -> list api.
Implicit Types (c : TcpConnection W).

(** Member assignments. *)
Definition setState s c := mkConn s (reading_ c) (connectionCallback_ c) (messageCallback_ c)
  (writeCompleteCallback_ c) (closeCallback_ c) (inputBuffer_ c) (outputBuffer_ c) (env c)
  (pending c) (delayed c) (wire c) (shut c) (writes c) (accepted c) (notes c).
Definition set_reading b c := mkConn (state_ c) b (connectionCallback_ c) (messageCallback_ c)
  (writeCompleteCallback_ c) (closeCallback_ c) (inputBuffer_ c) (outputBuffer_ c) (env c)
  (pending c) (delayed c) (wire c) (shut c) (writes c) (accepted c) (notes c).
Definition set_input b c := mkConn (state_ c) (reading_ c) (connectionCallback_ c)
  (messageCallback_ c) (writeCompleteCallback_ c) (closeCallback_ c) b (outputBuffer_ c)
  (env c) (pending c) (delayed c) (wire c) (shut c) (writes c) (accepted c) (notes c).
Definition set_output b c := mkConn (state_ c) (reading_ c) (connectionCallback_ c)
  (messageCallback_ c) (writeCompleteCallback_ c) (closeCallback_ c) (inputBuffer_ c) b
  (env c) (pending c) (delayed c) (wire c) (shut c) (writes c) (accepted c) (notes c).
Definition set_env (w : W) c := mkConn (state_ c) (reading_ c) (connectionCallback_ c)
  (messageCallback_ c) (writeCompleteCallback_ c) (closeCallback_ c) (inputBuffer_ c)
  (outputBuffer_ c) w (pending c) (delayed c) (wire c) (shut c) (writes c) (accepted c)
  (notes c).
Definition set_pending l c := mkConn (state_ c) (reading_ c) (connectionCallback_ c)
  (messageCallback_ c) (writeCompleteCallback_ c) (closeCallback_ c) (inputBuffer_ c)
  (outputBuffer_ c) (env c) l (delayed c) (wire c) (shut c) (writes c) (accepted c) (notes c).
Definition set_delayed l c := mkConn (state_ c) (reading_ c) (connectionCallback_ c)
  (messageCallback_ c) (writeCompleteCallback_ c) (closeCallback_ c) (inputBuffer_ c)
  (outputBuffer_ c) (env c) (pending c) l (wire c) (shut c) (writes c) (accepted c) (notes c).
Definition set_shut c := mkConn (state_ c) (reading_ c) (connectionCallback_ c)
  (messageCallback_ c) (writeCompleteCallback_ c) (closeCallback_ c) (inputBuffer_ c)
  (outputBuffer_ c) (env c) (pending c) (delayed c) (wire c) true (writes c) (accepted c)
  (notes c).
Definition wrote d c := mkConn (state_ c) (reading_ c) (connectionCallback_ c)
  (messageCallback_ c) (writeCompleteCallback_ c) (closeCallback_ c) (inputBuffer_ c)
  (outputBuffer_ c) (env c) (pending c) (delayed c) (wire c ++ d) (shut c) (S (writes c))
  (accepted c) (notes c).
Definition accept d c := mkConn (state_ c) (reading_ c) (connectionCallback_ c)
  (messageCallback_ c) (writeCompleteCallback_ c) (closeCallback_ c) (inputBuffer_ c)
  (outputBuffer_ c) (env c) (pending c) (delayed c) (wire c) (shut c) (writes c)
  (accepted c ++ d) (notes c).
Definition add_note n c := mkConn (state_ c) (reading_ c) (connectionCallback_ c)
  (messageCallback_ c) (writeCompleteCallback_ c) (closeCallback_ c) (inputBuffer_ c)
  (outputBuffer_ c) (env c) (pending c) (delayed c) (wire c) (shut c) (writes c)
  (accepted c) (notes c ++ [n]).
Definition set_callbacks conn msg wc close c := mkConn (state_ c) (reading_ c) conn msg
  wc close (inputBuffer_ c) (outputBuffer_ c) (env c) (pending c) (delayed c) (wire c)
  (shut c) (writes c) (accepted c) (notes c).

(** The constructor.  The loop's queue [l] and the reactor [w] are what they are;
    the channel is created with its four callbacks. *)
Definition TcpConnection_ctor (sockfd : Z) (l : list Functor) (w : W) : TcpConnection W :=
  let channel := Channel_ctor sockfd in
  let channel := setReadCallback (CbConnRead self) channel in
  let channel := setWriteCallback (CbConnWrite self) channel in
  let channel := setCloseCallback (CbConnClose self) channel in
  let channel := setErrorCallback (CbConnError self) channel in
  mkConn kConnecting true None None None None (Buffer_ctor kInitialSize)
    (Buffer_ctor kInitialSize) (es_put chan channel w) l [] [] false 0 [] [].

(** channel_->... *)
Definition channel c : outcome Channel :=
  match es_get chan (env c) with Some ch => Ok ch | None => Fault FUseAfterFree end.
Definition change_channel (ch : change) c : outcome (TcpConnection W) :=
  w ← es_change ch chan (env c); Ok (set_env w c).
Definition remove_channel c : outcome (TcpConnection W) :=
  w ← es_remove chan (env c); Ok (set_env w c).
Definition tie_channel c : outcome (TcpConnection W) :=
  ch ← channel c; Ok (set_env (es_put chan (tie self ch) (env c)) c).

(** loop_->queueInLoop(f); and loop_->runInLoop(f), which runs [now] at once on the
    loop's thread. *)
Definition queueInLoop (f : Functor) c := set_pending (pending c ++ [f]) c.
Definition runInLoop (in_loop : bool) (f : Functor)
    (now : TcpConnection W -> outcome (TcpConnection W)) c : outcome (TcpConnection W) :=
  if in_loop then now c else Ok (queueInLoop f c).

(** sockets::write on the socket, with its effect on the peer's side. *)
Definition do_write d c : write_result * TcpConnection W :=
  let r := sys_write (writes c) (shut c) d in
  (r, wrote (match r with WriteOk n => take (Z.to_nat n) d | WriteError _ _ => [] end) c).

(** sendInLoop(data, len): the direct write, made if the output queue is idle; it
    leaves nwrote and faultError.  (remaining is a size_t, and write(2) takes at
    most what it is given, so len - nwrote does not wrap.) *)
Definition write_direct d c : Z * bool * TcpConnection W :=
  let '(r, c) := do_write d c in
  match r with
  | WriteOk nwrote =>
      let remaining := zlen d - nwrote in
      let c := match writeCompleteCallback_ c with
               | Some cb => if remaining =? 0 then queueInLoop (FWriteComplete cb) c else c
               | None => c
               end in
      (nwrote, false, c)
  | WriteError errno logged =>
      let faultError := if negb (errno =? EWOULDBLOCK) then broken logged else false in
      (0, faultError, c)
  end.

Definition sendInLoop d c : outcome (TcpConnection W) :=
  if decide (state_ c = kDisconnected) then Ok c
  else
    ch ← channel c;
    let '(nwrote, faultError, c) :=
      if negb (isWriting ch) && (readableBytes (outputBuffer_ c) =? 0)
      then write_direct d c
      else (0, false, c) in
    let remaining := zlen d - nwrote in
    let c := if (faultError : bool) then c else accept d c in
    if negb faultError && (0 <? remaining)
    then
      out ← append (drop (Z.to_nat nwrote) d) (outputBuffer_ c);
      let c := set_output out c in
      ch ← channel c;
      if negb (isWriting ch) then change_channel EnableWriting c else Ok c
    else Ok c.

(** send(const StringPiece&) *)
Definition send (in_loop : bool) d c : outcome (TcpConnection W) :=
  if decide (state_ c = kConnected)
  then if in_loop then sendInLoop d c else Ok (queueInLoop (FSendInLoop d) c)
  else Ok c.

(** send(Buffer* buf); the result holds the buffer afterwards. *)
Definition send_Buffer (in_loop : bool) (buf : Buffer) c : outcome (Buffer * TcpConnection W) :=
  if decide (state_ c = kConnected)
  then
    if in_loop
    then
      c ← sendInLoop (slice (peek buf) (readableBytes buf) (buffer_ buf)) c;
      Ok (retrieveAll buf, c)
    else
      (* the closure std::bind makes is a temporary that nothing runs *)
      '(_, buf) ← retrieveAllAsString buf;
      Ok (buf, c)
  else Ok (buf, c).

Definition shutdownInLoop c : outcome (TcpConnection W) :=
  ch ← channel c;
  if negb (isWriting ch) then Ok (set_shut c) else Ok c.

Definition shutdown (in_loop : bool) c : outcome (TcpConnection W) :=
  if decide (state_ c = kConnected)
  then runInLoop in_loop FShutdownInLoop shutdownInLoop (setState kDisconnecting c)
  else Ok c.

Definition is_open (s : StateE) : bool :=
  bool_decide (s = kConnected) || bool_decide (s = kDisconnecting).

Definition forceClose c : TcpConnection W :=
  if is_open (state_ c)
  then queueInLoop FForceCloseInLoop (setState kDisconnecting c)
  else c.

Definition forceCloseWithDelay c : TcpConnection W :=
  if is_open (state_ c)
  then
    let c := setState kDisconnecting c in
    set_delayed (delayed c ++ [FForceClose]) c
  else c.

Definition startReadInLoop c : outcome (TcpConnection W) :=
  ch ← channel c;
  if negb (reading_ c) || negb (isReading ch)
  then c ← change_channel EnableReading c; Ok (set_reading true c)
  else Ok c.

Definition stopReadInLoop c : outcome (TcpConnection W) :=
  ch ← channel c;
  if reading_ c || isReading ch
  then c ← change_channel DisableReading c; Ok (set_reading false c)
  else Ok c.

Definition startRead (in_loop : bool) := runInLoop in_loop FStartReadInLoop startReadInLoop.
Definition stopRead (in_loop : bool) := runInLoop in_loop FStopReadInLoop stopReadInLoop.

(** One call of a user. *)
Definition exec_api (in_loop : bool) c (a : api) : outcome (TcpConnection W) :=
  match a with
  | ASend d => send in_loop d c
  | ASendInput => '(b, c) ← send_Buffer in_loop (inputBuffer_ c) c; Ok (set_input b c)
  | AShutdown => shutdown in_loop c
  | AForceClose => Ok (forceClose c)
  | AForceCloseWithDelay => Ok (forceCloseWithDelay c)
  | AStartRead => startRead in_loop c
  | AStopRead => stopRead in_loop c
  | ARetrieve n => Ok (set_input (retrieve (Z.of_nat n) (inputBuffer_ c)) c)
  | ARetrieveAll => Ok (set_input (retrieveAll (inputBuffer_ c)) c)
  | AQueueDestroyed => Ok (queueInLoop FConnectDestroyed c)
  end.

(** A std::function is called: an empty one throws. *)
Definition call_user (cb : option UserCb) (n : note) c : outcome (TcpConnection W) :=
  match cb with
  | None => Fault FBadFunction
  | Some cb => let c := add_note n c in mfold (exec_api true) c (user cb c)
  end.

Definition connectEstablished c : outcome (TcpConnection W) :=
  let c := setState kConnected c in
  c ← tie_channel c;
  c ← change_channel EnableReading c;
  call_user (connectionCallback_ c) (NConnection true) c.

Definition connectDestroyed c : outcome (TcpConnection W) :=
  c ← (if decide (state_ c = kConnected)
       then
         let c := setState kDisconnected c in
         c ← change_channel DisableAll c;
         call_user (connectionCallback_ c) (NConnection false) c
       else Ok c);
  remove_channel c.

Definition handleClose c : outcome (TcpConnection W) :=
  let c := setState kDisconnected c in
  c ← change_channel DisableAll c;
  c ← call_user (connectionCallback_ c) (NConnection false) c;
  call_user (closeCallback_ c) NClose c.

(** handleError() only logs the socket's error. *)
Definition handleError c : outcome (TcpConnection W) := Ok c.

Definition handleRead (r : readv_result) c : outcome (TcpConnection W) :=
  '(n, savedErrno, b) ← readFd r (inputBuffer_ c);
  let c := set_input b c in
  if 0 <? n then call_user (messageCallback_ c) NMessage c
  else if n =? 0 then handleClose c
  else handleError c.

Definition handleWrite c : outcome (TcpConnection W) :=
  ch ← channel c;
  if isWriting ch
  then
    let out := outputBuffer_ c in
    let '(r, c) := do_write (slice (peek out) (readableBytes out) (buffer_ out)) c in
    match r with
    | WriteOk n =>
        if 0 <? n
        then
          let c := set_output (retrieve n (outputBuffer_ c)) c in
          if readableBytes (outputBuffer_ c) =? 0
          then
            c ← change_channel DisableWriting c;
            let c := match writeCompleteCallback_ c with
                     | Some cb => queueInLoop (FWriteComplete cb) c
                     | None => c
                     end in
            if decide (state_ c = kDisconnecting) then shutdownInLoop c else Ok c
          else Ok c
        else Ok c
    | WriteError _ _ => Ok c
    end
  else Ok c.

Definition forceCloseInLoop c : outcome (TcpConnection W) :=
  if is_open (state_ c) then handleClose c else Ok c.

(** The loop runs a functor. *)
Definition run_functor (f : Functor) c : outcome (TcpConnection W) :=
  match f with
  | FSendInLoop d => sendInLoop d c
  | FShutdownInLoop => shutdownInLoop c
  | FForceCloseInLoop => forceCloseInLoop c
  | FForceClose => Ok (forceClose c)
  | FStartReadInLoop => startReadInLoop c
  | FStopReadInLoop => stopReadInLoop c
  | FConnectEstablished => connectEstablished c
  | FConnectDestroyed => connectDestroyed c
  | FWriteComplete cb => call_user (Some cb) NWriteComplete c
  end.

(** What happens to a connection. *)
Inductive event :=
| EvRead (r : readv_result)            (* the channel's read callback *)
| EvWrite                              (* the channel's write callback *)
| EvFunctor                            (* the loop runs the next pending functor *)
| EvTimer                              (* the first delayed close is due *)
| EvCall (in_loop : bool) (a : api)    (* a call, from the loop's or another thread *)
| EvStore                              (* another thread, in such a call: its store of
                                          kDisconnecting, the test of state_ being made *)
| EvPost (f : Functor).                (* and, the test and the store being made, what it
                                          gives to the loop *)

(** Another thread's queueInLoop, runInLoop or (for forceCloseWithDelay) runAfter. *)
Definition post (f : Functor) c : TcpConnection W :=
  match f with
  | FForceClose => set_delayed (delayed c ++ [FForceClose]) c
  | _ => queueInLoop f c
  end.

Definition exec_event c (e : event) : outcome (TcpConnection W) :=
  match e with
  | EvRead r => handleRead r c
  | EvWrite => handleWrite c
  | EvFunctor =>
      match pending c with [] => Ok c | f :: l => run_functor f (set_pending l c) end
  | EvTimer =>
      match delayed c with [] => Ok c | f :: l => run_functor f (set_delayed l c) end
  | EvCall in_loop a => exec_api in_loop c a
  | EvStore => Ok (setState kDisconnecting c)
  | EvPost f => Ok (post f c)
  end.
End methods.

(** A call of another thread is its parts, one after the other; what [EvStore] and
    [EvPost] add is that anything may happen in between. *)
Lemma foreign_call_parts `{EventSource W} self chan sys_write user c a :
  match a with AShutdown | AForceClose | AForceCloseWithDelay => True | _ => False end ->
  exec_event self chan sys_write user c (EvCall false a)
  = if match a with AShutdown => bool_decide (state_ c = kConnected) | _ => is_open (state_ c) end
    then mfold (exec_event self chan sys_write user) c
           [EvStore; EvPost match a with
                            | AShutdown => FShutdownInLoop
                            | AForceClose => FForceCloseInLoop
                            | _ => FForceClose
                            end]
    else Ok c.
Proof.
  destruct a; try done; intros _; simpl.
  - unfold shutdown. by case_decide; [rewrite bool_decide_true|rewrite bool_decide_false].
  - unfold forceClose. by destruct (is_open _).
  - unfold forceCloseWithDelay. by destruct (is_open _).
Qed.

Lemma foreign_send_parts `{EventSource W} self chan sys_write user c d :
  exec_event self chan sys_write user c (EvCall false (ASend d))
  = if decide (state_ c = kConnected)
    then exec_event self chan sys_write user c (EvPost (FSendInLoop d)) else Ok c.
Proof. done. Qed.

(** ** What the environment promises *)

(** write(2) takes part of what it is given, and after SHUT_WR it fails with
    EPIPE, which the log does not turn into an error of another kind.  (That write(2)
    answers at all then takes a process that ignores SIGPIPE; the repository does not
    arrange for that.) *)
Definition write_ok (sys_write : nat -> bool -> bytes -> write_result) : Prop :=
  forall k d,
    match sys_write k false d with WriteOk n => 0 <= n <= zlen d | WriteError _ _ => True end
    /\ exists logged, sys_write k true d = WriteError EPIPE logged /\ broken logged = true.

(** The one fault a connection can end with: a buffer that cannot grow. *)
Definition overflow (f : fault) : Prop := f = FOutOfBounds.

(** ** The effect of the five switches on the two interests *)

Lemma land_lor_4 e : Z.land (Z.lor e 4) 4 = 4.
Proof.
  apply Z.bits_inj'. intros n Hn. rewrite Z.land_spec, Z.lor_spec.
  by destruct (Z.testbit e n), (Z.testbit 4 n).
Qed.

Definition after (ch : change) (writing : bool) : bool :=
  match ch with
  | EnableWriting => true
  | DisableWriting | DisableAll => false
  | EnableReading | DisableReading => writing
  end.

Lemma change_writing ch e : ev_writing (change_fn ch e) = after ch (ev_writing e).
Proof.
  unfold ev_writing, kWriteEvent, POLLOUT. destruct ch; simpl.
  - unfold ev_enableReading. rewrite Z.land_lor_distr_l. simpl. by rewrite Z.lor_0_r.
  - unfold ev_disableReading. rewrite <- Z.land_assoc. done.
  - unfold ev_enableWriting, kWriteEvent, POLLOUT. by rewrite land_lor_4.
  - unfold ev_disableWriting. rewrite <- Z.land_assoc. simpl. by rewrite Z.land_0_r.
  - done.
Qed.

Section proofs.
Context {W : Type} `{EventSourceLaws W}.
Context (chan : addr).
Implicit Types (c : TcpConnection W).

(** The interest mask of the connection's channel. *)
Definition interest c : Z :=
  match es_get chan (env c) with Some ch => events_ ch | None => 0 end.
Definition writing c : bool := ev_writing (interest c).

(** *** The data invariant *)

Record stream_inv c : Prop := {
  v_env : es_ok chan (env c);
  v_in : wf (inputBuffer_ c);
  v_out : wf (outputBuffer_ c);
  v_writing : state_ c <> kDisconnected ->
    (writing c = true <-> content (outputBuffer_ c) <> []);
  v_closed : state_ c = kDisconnected -> interest c = 0;
  v_stream : wire c ++ content (outputBuffer_ c) = accepted c;
  v_shut : shut c = true -> state_ c <> kDisconnected -> content (outputBuffer_ c) = [];
}.

(** What the operations below leave alone. *)
Record frame c c' : Prop := {
  f_notes : notes c' = notes c;
  f_conn : connectionCallback_ c' = connectionCallback_ c;
  f_msg : messageCallback_ c' = messageCallback_ c;
  f_close : closeCallback_ c' = closeCallback_ c;
  f_state : state_ c' = state_ c \/ (state_ c = kConnected /\ state_ c' = kDisconnecting);
  f_pending : exists l, pending c' = pending c ++ l /\ FConnectEstablished ∉ l;
  f_delayed : exists l, delayed c' = delayed c ++ l /\ (forall f, f ∈ l -> f = FForceClose);
}.

Lemma frame_refl c : frame c c.
Proof. split; try done; [by left|..]; exists []; rewrite app_nil_r; set_solver. Qed.

Lemma frame_trans c1 c2 c3 : frame c1 c2 -> frame c2 c3 -> frame c1 c3.
Proof.
  intros [? ? ? ? S1 (l1 & P1 & N1) (k1 & D1 & M1)] [? ? ? ? S2 (l2 & P2 & N2) (k2 & D2 & M2)].
  split; try congruence.
  - destruct S1 as [S1|[S1 S1']], S2 as [S2|[S2 S2']]; rewrite ?S1, ?S1' in *; auto;
      try (right; split; congruence).
  - exists (l1 ++ l2). rewrite P2, P1, app_assoc. split; [done|]. set_solver.
  - exists (k1 ++ k2). rewrite D2, D1, app_assoc. split; [done|]. set_solver.
Qed.

Lemma frame_closed c c' : frame c c' -> state_ c' = kDisconnected <-> state_ c = kDisconnected.
Proof. intros [_ _ _ _ [->|[-> ->]] _ _]; [done|]. split; done. Qed.

Lemma frame_open c c' : frame c c' -> is_open (state_ c') = is_open (state_ c).
Proof. intros [_ _ _ _ [->|[-> ->]] _ _]; done. Qed.

Definition keeps c (m : outcome (TcpConnection W)) : Prop :=
  wp overflow (fun c' => stream_inv c' /\ frame c c') m.

(** *** The channel *)

Lemma channel_ok c :
  es_ok chan (env c) -> exists ch, channel chan c = Ok ch /\ events_ ch = interest c
    /\ isWriting ch = writing c.
Proof.
  intros [ch Hch]%es_ok_get. exists ch. unfold writing, interest, channel. by rewrite Hch.
Qed.

Lemma change_channel_ok ch c :
  es_ok chan (env c) ->
  exists w, change_channel chan ch c = Ok (set_env w c) /\ es_ok chan w
    /\ interest (set_env w c) = change_fn ch (interest c)
    /\ writing (set_env w c) = after ch (writing c).
Proof.
  intros Hok. destruct (es_ok_get chan _ Hok) as [x Hx].
  destruct (es_ok_change ch chan _ x Hok Hx) as (w & x' & Hw & Hok' & Hx' & Hev).
  exists w. unfold change_channel. rewrite Hw. split; [done|]. split; [done|].
  assert (interest (set_env w c) = change_fn ch (interest c)) as Hi.
  { unfold interest. simpl. by rewrite Hx', Hx. }
  split; [done|]. unfold writing. by rewrite Hi, change_writing.
Qed.

Lemma frame_intro c c' l :
  state_ c' = state_ c -> notes c' = notes c ->
  connectionCallback_ c' = connectionCallback_ c ->
  messageCallback_ c' = messageCallback_ c -> closeCallback_ c' = closeCallback_ c ->
  delayed c' = delayed c -> pending c' = pending c ++ l -> FConnectEstablished ∉ l ->
  frame c c'.
Proof.
  intros. split; auto; [by exists l|]. exists []. rewrite app_nil_r. set_solver.
Qed.

Lemma frame_trans_fields c c1 c' :
  frame c c1 -> state_ c' = state_ c1 -> notes c' = notes c1 ->
  connectionCallback_ c' = connectionCallback_ c1 ->
  messageCallback_ c' = messageCallback_ c1 -> closeCallback_ c' = closeCallback_ c1 ->
  delayed c' = delayed c1 -> pending c' = pending c1 -> frame c c'.
Proof.
  intros F ?????? Hp. eapply frame_trans; [exact F|].
  eapply (frame_intro _ _ []); try done; [|set_solver]. by rewrite Hp, app_nil_r.
Qed.

(** *** The calls of a user that write nothing *)

Lemma keeps_ok c c' : stream_inv c' -> frame c c' -> keeps c (Ok c').
Proof. done. Qed.

(** A member function that only changes these fields. *)
Ltac frame_fields := eapply (frame_intro _ _ []); simpl; rewrite ?app_nil_r; try done; set_solver.

Lemma read_switch_keeps ch b c :
  stream_inv c -> (ch = EnableReading /\ state_ c <> kDisconnected \/ ch = DisableReading) ->
  keeps c (c ← change_channel chan ch c; Ok (set_reading b c)).
Proof.
  intros I Hch. destruct (change_channel_ok ch c (v_env _ I)) as (w & -> & Hok & Hi & Hw).
  simpl. split; [|frame_fields]. destruct I. split; simpl; try done.
  - intros Hs. change (writing (set_env w c) = true <-> content (outputBuffer_ c) <> []).
    rewrite Hw. destruct Hch as [[-> _]| ->]; simpl; auto.
  - intros Hs. change (interest (set_env w c) = 0). rewrite Hi, v_closed0 by done.
    by destruct Hch as [[_ ?]| ->].
Qed.

Lemma startReadInLoop_keeps c :
  stream_inv c -> state_ c <> kDisconnected -> keeps c (startReadInLoop chan c).
Proof.
  intros I Hs. unfold startReadInLoop.
  destruct (channel_ok c (v_env _ I)) as (ch & -> & _). simpl.
  destruct (_ || _); [apply read_switch_keeps; auto|]. split; [done|apply frame_refl].
Qed.

Lemma stopReadInLoop_keeps c : stream_inv c -> keeps c (stopReadInLoop chan c).
Proof.
  intros I. unfold stopReadInLoop.
  destruct (channel_ok c (v_env _ I)) as (ch & -> & _). simpl.
  destruct (_ || _); [apply read_switch_keeps; auto|]. split; [done|apply frame_refl].
Qed.

Lemma shutdownInLoop_keeps c : stream_inv c -> keeps c (shutdownInLoop chan c).
Proof.
  intros I. unfold shutdownInLoop.
  destruct (channel_ok c (v_env _ I)) as (ch & -> & _ & Hw). simpl.
  destruct (isWriting ch) eqn:E; simpl; [split; [done|apply frame_refl]|].
  split; [|frame_fields]. destruct I. split; simpl; try done.
  intros _ Hs. destruct (content (outputBuffer_ c)) eqn:Hc; [done|].
  exfalso. assert (writing c = true) as Ht by by apply v_writing0.
  congruence.
Qed.

(** An open connection starts to close. *)
Lemma disconnecting_keeps c :
  stream_inv c -> is_open (state_ c) = true ->
  stream_inv (setState kDisconnecting c) /\ frame c (setState kDisconnecting c).
Proof.
  intros I Ho. assert (state_ c <> kDisconnected) as Hs by (by intros Hs; rewrite Hs in Ho).
  split.
  - destruct I. split; simpl; try done; auto.
  - split; simpl; try done; try (exists []; rewrite app_nil_r; set_solver).
    destruct (state_ c); auto; done.
Qed.

Lemma queue_keeps f c :
  stream_inv c -> f <> FConnectEstablished ->
  stream_inv (queueInLoop f c) /\ frame c (queueInLoop f c).
Proof.
  intros I Hf. split; [by destruct I; split|].
  eapply (frame_intro _ _ [f]); try done. set_solver.
Qed.

Lemma keeps_trans c c1 m : frame c c1 -> keeps c1 m -> keeps c m.
Proof.
  intros F Hm. eapply wp_mono; [exact Hm|]. intros c' [? ?]. split; [done|].
  by eapply frame_trans.
Qed.

Lemma forceClose_keeps c : stream_inv c -> keeps c (Ok (forceClose c)).
Proof.
  intros I. unfold forceClose. destruct (is_open (state_ c)) eqn:Ho;
    [|split; [done|apply frame_refl]].
  destruct (disconnecting_keeps c I Ho) as [I1 F1].
  destruct (queue_keeps FForceCloseInLoop _ I1) as [I2 F2]; [done|].
  split; [done|by eapply frame_trans].
Qed.

Lemma forceCloseWithDelay_keeps c : stream_inv c -> keeps c (Ok (forceCloseWithDelay c)).
Proof.
  intros I. unfold forceCloseWithDelay. destruct (is_open (state_ c)) eqn:Ho;
    [|split; [done|apply frame_refl]].
  destruct (disconnecting_keeps c I Ho) as [I1 F1]. split; [by destruct I1; split|].
  eapply frame_trans; [exact F1|]. split; simpl; auto.
  - exists []. rewrite app_nil_r. set_solver.
  - exists [FForceClose]. split; [done|]. set_solver.
Qed.

Lemma runInLoop_keeps in_loop f now c :
  stream_inv c -> f <> FConnectEstablished -> keeps c (now c) ->
  keeps c (runInLoop in_loop f now c).
Proof. intros. unfold runInLoop. destruct in_loop; [done|]. by apply queue_keeps. Qed.

Lemma shutdown_keeps in_loop c : stream_inv c -> keeps c (shutdown chan in_loop c).
Proof.
  intros I. unfold shutdown. case_decide as Hs; [|split; [done|apply frame_refl]].
  destruct (disconnecting_keeps c I) as [I1 F1]; [by rewrite Hs|].
  eapply keeps_trans; [exact F1|].
  apply runInLoop_keeps; [done|done|by apply shutdownInLoop_keeps].
Qed.

Lemma set_input_keeps b c :
  stream_inv c -> wf b -> stream_inv (set_input b c) /\ frame c (set_input b c).
Proof. intros [] Hb. split; [by split|frame_fields]. Qed.

Lemma retrieveAllAsString_ok b :
  wf b -> retrieveAllAsString b = Ok (content b, retrieveAll b).
Proof.
  intros Hb. pose proof (readableBytes_wf b Hb) as Hr.
  unfold retrieveAllAsString, retrieveAsString. rewrite (proj2 (Z.leb_le _ _)).
  - simpl. rewrite Hr. unfold retrieve. by rewrite Hr, Z.ltb_irrefl.
  - rewrite Hr. buf. lia.
Qed.

(** *** sendInLoop *)

Context (sys_write : nat -> bool -> bytes -> write_result).
Context (Hwrite : write_ok sys_write).

Definition idle c : bool := bool_decide (content (outputBuffer_ c) = []).

(** What the direct write takes, and whether the connection is found broken. *)
Definition direct_write d c : bytes * bool :=
  if idle c
  then
    match sys_write (writes c) (shut c) d with
    | WriteOk n => (take (Z.to_nat n) d, false)
    | WriteError e logged => ([], negb (e =? EWOULDBLOCK) && broken logged)
    end
  else ([], false).

(** What is left for the output buffer. *)
Definition left_over d c : bytes :=
  let '(taken, dropped) := direct_write d c in
  if dropped then [] else drop (length taken) d.

(** The notification due when the direct write took everything. *)
Definition complete d c : list Functor :=
  match writeCompleteCallback_ c, sys_write (writes c) (shut c) d with
  | Some cb, WriteOk n => if idle c && (n =? zlen d) then [FWriteComplete cb] else []
  | _, _ => []
  end.

Definition send_effect d c c' : Prop :=
  let '(taken, dropped) := direct_write d c in
  stream_inv c'
  /\ wire c' = wire c ++ taken
  /\ content (outputBuffer_ c') = content (outputBuffer_ c) ++ left_over d c
  /\ accepted c' = accepted c ++ (if dropped then [] else d)
  /\ state_ c' = state_ c /\ shut c' = shut c
  /\ pending c' = pending c ++ complete d c
  /\ frame c c'.

Lemma idle_test c ch :
  stream_inv c -> state_ c <> kDisconnected -> isWriting ch = writing c ->
  negb (isWriting ch) && (readableBytes (outputBuffer_ c) =? 0) = idle c.
Proof.
  intros [_ _ Ho Hw _ _ _] Hs ->. specialize (Hw Hs). unfold idle.
  rewrite readableBytes_content by done.
  destruct (content (outputBuffer_ c)) as [|x l] eqn:Hc.
  - rewrite bool_decide_true by done. destruct (writing c); [|done]. by destruct Hw as [[] _].
  - rewrite bool_decide_false by done. rewrite (proj2 Hw) by done. done.
Qed.

Lemma complete_no_est d c : FConnectEstablished ∉ complete d c.
Proof.
  unfold complete. destruct (writeCompleteCallback_ c); [|set_solver].
  destruct (sys_write _ _ _); [set_solver|]. destruct (_ && _); set_solver.
Qed.

(** The connection after the direct write. *)
Definition after_direct d c : TcpConnection W :=
  let c1 := set_pending (pending c ++ complete d c) c in
  if idle c then wrote (direct_write d c).1 c1 else c1.

Lemma after_direct_frame d c : frame c (after_direct d c).
Proof.
  eapply (frame_intro _ _ (complete d c)); try (unfold after_direct; by destruct (idle c));
    apply complete_no_est.
Qed.

(** What the direct write took is a prefix of the data; nothing when something
    was waiting already; and after SHUT_WR the data is dropped. *)
Lemma direct_write_facts d c :
  (exists n, (direct_write d c).1 = take n d)
  /\ (idle c = false -> direct_write d c = ([], false))
  /\ ((direct_write d c).2 = true -> (direct_write d c).1 = [])
  /\ (idle c = true -> shut c = true -> (direct_write d c).2 = true).
Proof.
  unfold direct_write. split_and!.
  - destruct (idle c); [|by exists 0%nat].
    destruct (sys_write _ _ _); [by exists 0%nat | eauto].
  - by intros ->.
  - destruct (idle c); [|done]. by destruct (sys_write _ _ _).
  - intros -> ->. destruct (proj2 (Hwrite (writes c) d)) as (e & -> & He). by rewrite He.
Qed.

(** The stream after the direct write, once the data is accepted. *)
Lemma after_direct_stream d c :
  stream_inv c -> (direct_write d c).2 = false ->
  (wire (after_direct d c) ++ content (outputBuffer_ c)) ++ left_over d c = accepted c ++ d
  /\ wire (after_direct d c) = wire c ++ (direct_write d c).1.
Proof.
  intros I Hd. destruct (direct_write_facts d c) as ([n Hn] & Hi & _).
  unfold left_over, after_direct.
  destruct (direct_write d c) as [taken dropped] eqn:E. simpl in Hd, Hn. subst dropped taken.
  assert (take n d ++ drop (length (take n d)) d = d) as Htd.
  { destruct (Nat.le_gt_cases (length d) n) as [|].
    - rewrite take_ge by done. by rewrite drop_ge, app_nil_r by done.
    - rewrite length_take_le by lia. apply take_drop. }
  destruct (idle c) eqn:Hid; simpl.
  - apply bool_decide_eq_true in Hid. rewrite <- (v_stream _ I), Hid, !app_nil_r.
    split; [|done]. rewrite <- app_assoc. f_equal. done.
  - specialize (Hi eq_refl). injection Hi as ->. simpl. rewrite app_nil_r.
    split; [|done]. by rewrite <- (v_stream _ I).
Qed.

(** Appending to the output buffer and asking for POLLOUT. *)
Definition buffer_rest d c : outcome (TcpConnection W) :=
  out ← append d (outputBuffer_ c);
  let c := set_output out c in
  ch ← channel chan c;
  if negb (isWriting ch) then change_channel chan EnableWriting c else Ok c.

Lemma buffer_rest_exec d c :
  es_ok chan (env c) -> wf (outputBuffer_ c) ->
  if decide (zlen d <= room (outputBuffer_ c))
  then exists w out, buffer_rest d c = Ok (set_env w (set_output out c))
         /\ wf out /\ content out = content (outputBuffer_ c) ++ d
         /\ es_ok chan w /\ writing (set_env w c) = true
  else buffer_rest d c = Fault FOutOfBounds.
Proof.
  intros He Ho. unfold buffer_rest. case_decide as Hfit;
    [|by rewrite append_overflows by (done || lia)].
  destruct (append_fits d _ Ho Hfit) as (out & -> & Hwf & Hc & _ & _). simpl.
  destruct (channel_ok (set_output out c) He) as (ch & -> & _ & Hwr). simpl.
  destruct (isWriting ch) eqn:Hw; simpl.
  - exists (env c), out. by split_and!.
  - destruct (change_channel_ok EnableWriting (set_output out c) He)
      as (w & -> & Hok & _ & Hw2). by exists w, out.
Qed.

Lemma set_pending_nil c : set_pending (pending c ++ []) c = c.
Proof. rewrite app_nil_r. by destruct c. Qed.

Lemma write_direct_exec d c :
  idle c = true ->
  write_direct sys_write d c
  = (zlen (direct_write d c).1, (direct_write d c).2, after_direct d c).
Proof.
  intros Hid. destruct (Hwrite (writes c) d) as [Hn Hs].
  unfold write_direct, do_write, after_direct, direct_write, complete. rewrite Hid.
  destruct (shut c) eqn:Hsh.
  { destruct Hs as (e & -> & He). simpl. rewrite He.
    destruct (writeCompleteCallback_ c); by rewrite set_pending_nil. }
  destruct (sys_write (writes c) false d) as [e e'|n] eqn:Hw; simpl.
  - assert (match writeCompleteCallback_ c with Some _ | _ => [] end = ([] : list Functor))
      as -> by by destruct (writeCompleteCallback_ c).
    rewrite set_pending_nil. by destruct (e =? EWOULDBLOCK).
  - assert (zlen (take (Z.to_nat n) d) = n) as -> by (rewrite zlen_take; lia).
    replace (zlen d - n =? 0) with (n =? zlen d)
      by (apply Bool.eq_iff_eq_true; rewrite !Z.eqb_eq; lia).
    do 2 f_equal. destruct (writeCompleteCallback_ c), (n =? zlen d);
      unfold queueInLoop, wrote, set_pending; simpl; by rewrite ?app_nil_r.
Qed.

Lemma sendInLoop_unfold d c :
  stream_inv c -> state_ c <> kDisconnected ->
  sendInLoop chan sys_write d c
  = let dropped := (direct_write d c).2 in
    let c1 := after_direct d c in
    let c1 := if dropped then c1 else accept d c1 in
    if bool_decide (left_over d c = []) then Ok c1 else buffer_rest (left_over d c) c1.
Proof.
  intros I Hs. destruct (direct_write_facts d c) as ([n Hn] & Hi & Hdr & _).
  unfold sendInLoop. rewrite decide_False by done.
  destruct (channel_ok c (v_env _ I)) as (ch & -> & _ & Hwr). simpl.
  rewrite (idle_test c ch I Hs Hwr).
  assert ((if idle c then write_direct sys_write d c else (0, false, c))
    = (zlen (direct_write d c).1, (direct_write d c).2, after_direct d c)) as ->.
  { destruct (idle c) eqn:Hid; [by apply write_direct_exec|].
    rewrite (Hi eq_refl). unfold after_direct, complete. rewrite Hid. simpl.
    by destruct (writeCompleteCallback_ c), (sys_write (writes c) (shut c) d);
      rewrite set_pending_nil. }
  unfold left_over. destruct (direct_write d c) as [taken dropped]. simpl in *. subst taken.
  destruct dropped; simpl; [done|].
  assert (Z.to_nat (zlen (take n d)) = length (take n d)) as -> by (unfold zlen; lia).
  set (k := length (take n d)).
  assert (zlen d - zlen (take n d) = zlen (drop k d)) as ->.
  { subst k. rewrite zlen_take, zlen_drop, length_take. unfold zlen. lia. }
  destruct (drop k d) as [|x l] eqn:Hk; [done|]. rewrite bool_decide_false by done.
  rewrite (proj2 (Z.ltb_lt _ _)); [done|]. rewrite zlen_cons.
  pose proof (zlen_nonneg l). lia.
Qed.

Lemma after_direct_fields d c :
  let c1 := after_direct d c in
  env c1 = env c /\ inputBuffer_ c1 = inputBuffer_ c /\ outputBuffer_ c1 = outputBuffer_ c
  /\ state_ c1 = state_ c /\ shut c1 = shut c /\ accepted c1 = accepted c
  /\ pending c1 = pending c ++ complete d c
  /\ wire c1 = wire c ++ (direct_write d c).1.
Proof.
  destruct (direct_write_facts d c) as (_ & Hi & _). unfold after_direct.
  destruct (idle c); simpl; [by split_and!|]. rewrite (Hi eq_refl). simpl.
  rewrite app_nil_r. by split_and!.
Qed.

(** A change that touches neither the channel nor the output buffer. *)
Lemma stream_inv_ext c c' :
  stream_inv c -> env c' = env c -> inputBuffer_ c' = inputBuffer_ c ->
  outputBuffer_ c' = outputBuffer_ c -> state_ c' = state_ c -> shut c' = shut c ->
  wire c' ++ content (outputBuffer_ c) = accepted c' -> stream_inv c'.
Proof.
  intros [] He Hi Ho Hs Hsh Hst.
  split; unfold writing, interest in *; rewrite ?He, ?Hi, ?Ho, ?Hs, ?Hsh; done.
Qed.

(** The outcome of sendInLoop on an open connection. *)
Lemma sendInLoop_exec d c :
  stream_inv c -> state_ c <> kDisconnected ->
  if decide (zlen (left_over d c) <= room (outputBuffer_ c))
  then exists c', sendInLoop chan sys_write d c = Ok c' /\ send_effect d c c'
  else sendInLoop chan sys_write d c = Fault FOutOfBounds.
Proof.
  intros I Hs. rewrite sendInLoop_unfold by done. cbv zeta.
  destruct (direct_write_facts d c) as (_ & Hi & Hdr & Hsh).
  pose proof (after_direct_stream d c I) as Hst.
  pose proof (after_direct_frame d c) as F.
  destruct (after_direct_fields d c) as (Ee & Ei & Eo & Es & Esh & Ea & Ep & Ew).
  assert (0 <= room (outputBuffer_ c)) as Hroom by (destruct (v_out _ I); buf; lia).
  assert ((direct_write d c).2 = true -> left_over d c = []) as Hlo.
  { unfold left_over. destruct (direct_write d c) as [? []]; done. }
  unfold send_effect. destruct (direct_write d c) as [taken dropped]. simpl in *.
  destruct (bool_decide (left_over d c = [])) eqn:Hd.
  - apply bool_decide_eq_true in Hd. rewrite Hd, decide_True, app_nil_r by (rewrite zlen_nil; done).
    rewrite Hd, app_nil_r in Hst.
    eexists. split; [reflexivity|]. destruct dropped; rewrite ?app_nil_r.
    + rewrite (Hdr eq_refl), app_nil_r in *. split_and!; try done; [|by rewrite Eo].
      apply (stream_inv_ext c); try done. rewrite Ew, Ea. apply I.
    + destruct (Hst eq_refl) as [Hst' _]. simpl. rewrite Ea. split_and!; try done;
        [|by rewrite Eo|by eapply frame_trans_fields].
      apply (stream_inv_ext c); try done. simpl. by rewrite Ea.
  - apply bool_decide_eq_false in Hd. destruct dropped; [by rewrite Hlo in Hd|].
    pose proof (buffer_rest_exec (left_over d c) (accept d (after_direct d c))) as Hb.
    simpl in Hb. rewrite Ee, Eo in Hb. specialize (Hb (v_env _ I) (v_out _ I)).
    destruct (decide _) as [Hfit|]; [|done].
    destruct Hb as (w & out & -> & Hwf & Hc & Hok & Hwr).
    destruct (Hst eq_refl) as [Hst' _]. eexists. split; [reflexivity|]. simpl.
    rewrite Ea, Hc. split_and!; try done; [|by eapply frame_trans_fields].
    split; simpl; rewrite ?Ei, ?Es, ?Hc; try done.
    + apply I.
    + intros _. change (writing (set_env w (accept d (after_direct d c))) = true
        <-> content (outputBuffer_ c) ++ left_over d c <> []). rewrite Hwr.
      split; [|done]. intros _ [_ ?]%app_nil. done.
    + by rewrite Ea, app_assoc.
    + rewrite Esh. intros Hshut _. exfalso.
      assert (idle c = true) as Hid.
      { apply bool_decide_eq_true. by apply (v_shut _ I). }
      by specialize (Hsh Hid Hshut).
Qed.

Lemma sendInLoop_keeps d c : stream_inv c -> keeps c (sendInLoop chan sys_write d c).
Proof.
  intros I. destruct (decide (state_ c = kDisconnected)) as [Hs|Hs].
  - unfold sendInLoop. rewrite decide_True by done. split; [done|apply frame_refl].
  - pose proof (sendInLoop_exec d c I Hs) as Hx. case_decide; [|by rewrite Hx].
    destruct Hx as (c' & -> & He). unfold send_effect in He.
    destruct (direct_write d c). by destruct_and!.
Qed.

Lemma send_keeps in_loop d c : stream_inv c -> keeps c (send chan sys_write in_loop d c).
Proof.
  intros I. unfold send. case_decide; [|split; [done|apply frame_refl]].
  destruct in_loop; [by apply sendInLoop_keeps|]. by apply queue_keeps.
Qed.

Lemma send_Buffer_keeps in_loop b c :
  stream_inv c -> wf b ->
  wp overflow (fun '(b', c') => wf b' /\ stream_inv c' /\ frame c c')
    (send_Buffer chan sys_write in_loop b c).
Proof.
  intros I Hb. unfold send_Buffer.
  case_decide; [|split; [done|split; [done|apply frame_refl]]].
  destruct in_loop.
  - eapply wp_bind; [by apply sendInLoop_keeps|]. intros c' [? ?]. simpl.
    auto with buffer.
  - rewrite retrieveAllAsString_ok by done. simpl.
    split; [by apply retrieveAll_wf|]. split; [done|apply frame_refl].
Qed.

(** Any call of a user; startRead must not reach a closed connection. *)
Lemma exec_api_keeps in_loop a c :
  stream_inv c ->
  (a = AStartRead -> in_loop = true -> state_ c <> kDisconnected) ->
  keeps c (exec_api chan sys_write in_loop c a).
Proof.
  intros I Ha. destruct a; simpl.
  - by apply send_keeps.
  - eapply wp_bind; [apply (send_Buffer_keeps in_loop (inputBuffer_ c)); [done|apply I]|].
    intros [b c'] (Hb & I' & F). destruct (set_input_keeps b c' I' Hb).
    split; [done|by eapply frame_trans].
  - by apply shutdown_keeps.
  - by apply forceClose_keeps.
  - by apply forceCloseWithDelay_keeps.
  - destruct in_loop; [apply startReadInLoop_keeps; auto|by apply queue_keeps].
  - apply runInLoop_keeps; [done|done|by apply stopReadInLoop_keeps].
  - apply set_input_keeps; [done|]. apply retrieve_wf; [apply I|lia].
  - apply set_input_keeps; [done|]. apply retrieveAll_wf, I.
  - by apply queue_keeps.
Qed.

(** *** handleWrite *)

Lemma readable_slice b :
  wf b -> slice (peek b) (readableBytes b) (buffer_ b) = content b.
Proof. intros Hb. unfold content. by rewrite readableBytes_wf. Qed.

(** The output drained: [c] is the connection after the last write. *)
Definition drained c : outcome (TcpConnection W) :=
  c ← change_channel chan DisableWriting c;
  let c := match writeCompleteCallback_ c with
           | Some cb => queueInLoop (FWriteComplete cb) c
           | None => c
           end in
  if decide (state_ c = kDisconnecting) then shutdownInLoop chan c else Ok c.

Lemma drained_keeps c :
  es_ok chan (env c) -> wf (inputBuffer_ c) -> wf (outputBuffer_ c) ->
  state_ c <> kDisconnected -> content (outputBuffer_ c) = [] -> wire c = accepted c ->
  keeps c (drained c).
Proof.
  intros He Hi Ho Hs Hc Hst. unfold drained.
  destruct (change_channel_ok DisableWriting c He) as (w & -> & Hok & _ & Hw). simpl.
  assert (stream_inv (set_env w c)) as I.
  { split; simpl; rewrite ?Hc; try done; [|by rewrite app_nil_r].
    intros _. rewrite Hw. done. }
  assert (frame c (set_env w c)) as F by frame_fields.
  set (c2 := match _ with Some _ => _ | None => _ end).
  assert (stream_inv c2 /\ frame c c2) as [I2 F2].
  { subst c2. destruct (writeCompleteCallback_ c); [|done].
    split; [by apply queue_keeps|]. eapply frame_trans; [exact F|]. by apply queue_keeps. }
  case_decide; [|done]. eapply keeps_trans; [exact F2|]. by apply shutdownInLoop_keeps.
Qed.

(** A call of handleWrite that writes [n] bytes. *)
Lemma handleWrite_exec c :
  stream_inv c -> writing c = true -> state_ c <> kDisconnected ->
  exists ch, channel chan c = Ok ch /\ isWriting ch = true /\ shut c = false
    /\ handleWrite chan sys_write c
       = match sys_write (writes c) false (content (outputBuffer_ c)) with
         | WriteOk n =>
             let c1 := wrote (take (Z.to_nat n) (content (outputBuffer_ c))) c in
             if 0 <? n
             then
               let c2 := set_output (retrieve n (outputBuffer_ c)) c1 in
               if bool_decide (drop (Z.to_nat n) (content (outputBuffer_ c)) = [])
               then drained c2 else Ok c2
             else Ok c1
         | WriteError _ _ => Ok (wrote [] c)
         end.
Proof.
  intros I Hw Hs. destruct (channel_ok c (v_env _ I)) as (ch & Hch & _ & Hwr).
  exists ch. split; [done|]. split; [congruence|].
  assert (content (outputBuffer_ c) <> []) as Hne by by apply (v_writing _ I).
  assert (shut c = false) as Hsh.
  { destruct (shut c) eqn:E; [|done]. by destruct Hne; apply (v_shut _ I). }
  split; [done|]. unfold handleWrite. rewrite Hch. simpl. rewrite Hwr, Hw.
  rewrite readable_slice by apply I. unfold do_write. rewrite Hsh.
  pose proof (proj1 (Hwrite (writes c) (content (outputBuffer_ c)))) as Hn.
  destruct (sys_write _ _ _) as [e|n]; [done|].
  destruct (Z.ltb_spec 0 n) as [Hn0|]; [|done].
  assert ((readableBytes (retrieve n (outputBuffer_ c)) =? 0)
    = bool_decide (drop (Z.to_nat n) (content (outputBuffer_ c)) = [])) as Hd.
  { rewrite readableBytes_content by (apply retrieve_wf; [apply I|lia]).
    rewrite retrieve_content by (apply I || lia).
    destruct (drop _ _) as [|x l]; [done|]. rewrite bool_decide_false by done.
    rewrite zlen_cons. apply Z.eqb_neq. pose proof (zlen_nonneg l). lia. }
  simpl. rewrite Hd. by destruct (bool_decide _).
Qed.

Lemma handleWrite_keeps c : stream_inv c -> keeps c (handleWrite chan sys_write c).
Proof.
  intros I. destruct (channel_ok c (v_env _ I)) as (ch & Hch & _ & Hwr).
  destruct (writing c) eqn:Hw.
  2: { unfold handleWrite. rewrite Hch. simpl. rewrite Hwr. split; [done|apply frame_refl]. }
  assert (state_ c <> kDisconnected) as Hs.
  { intros Hs. pose proof (v_closed _ I Hs) as Hi. unfold writing in Hw. by rewrite Hi in Hw. }
  destruct (handleWrite_exec c I Hw Hs) as (_ & _ & _ & Hsh & ->).
  destruct (sys_write _ _ _) as [e|n] eqn:Hsys.
  - split; [|frame_fields]. destruct I. split; try done. simpl. by rewrite app_nil_r.
  - pose proof (proj1 (Hwrite (writes c) (content (outputBuffer_ c)))) as Hn.
    rewrite Hsys in Hn. cbv zeta. set (out := content (outputBuffer_ c)) in *.
    destruct (Z.ltb_spec 0 n) as [Hn0|Hn0].
    + assert (wf (retrieve n (outputBuffer_ c))) as Hwf by (apply retrieve_wf; [apply I|lia]).
      assert (content (retrieve n (outputBuffer_ c)) = drop (Z.to_nat n) out) as Hc
        by (apply retrieve_content; [apply I|lia]).
      assert ((wire c ++ take (Z.to_nat n) out) ++ drop (Z.to_nat n) out = accepted c) as Hst
        by (rewrite <- app_assoc, take_drop; apply I).
      destruct (bool_decide _) eqn:Hd.
      * apply bool_decide_eq_true in Hd. eapply keeps_trans; [|apply drained_keeps];
          simpl; try done; try apply I; [frame_fields| |]; [by rewrite Hc|].
        by rewrite Hd, app_nil_r in Hst.
      * apply bool_decide_eq_false in Hd. split; [|frame_fields].
        destruct I. split; simpl; rewrite ?Hc; try done.
        congruence.
    + assert (n = 0) as -> by lia. split; [|frame_fields]. destruct I. split; try done.
      simpl. by rewrite app_nil_r.
Qed.

(** What readv(2) may deliver to the input buffer. *)
Definition deliverable (r : readv_result) c : Prop := readv_fits (inputBuffer_ c) r.

Lemma readFd_wp r b :
  wf b -> wp overflow (fun '(n, _, b') => wf b') (readFd r b).
Proof.
  intros Hb. destruct r as [e|d]; [done|].
  destruct (Z.le_gt_cases (zlen d) (room b)) as [Hd|Hd].
  - by destruct (readFd_fits d b Hb Hd) as (b' & -> & ? & _).
  - unfold readFd. rewrite writeableBytes_wf, (proj2 (Z.leb_gt _ _)) by done.
    unfold append. destruct (_ <=? _) eqn:E; [|done]. exfalso.
    apply Z.leb_le in E. unfold beginWrite, size in E. simpl in E.
    destruct Hb as (? & ? & ? & ?). rewrite zlen_drop in E. buf. lia.
Qed.

(** *** The life of a connection

    The user's callbacks do not call startRead on a closed connection. *)
Context (self : addr) (user : UserCb -> TcpConnection W -> list api).
Context (Huser : forall cb c, state_ c = kDisconnected -> AStartRead ∉ user cb c).

(** The callbacks that report the life of the connection. *)
Definition is_life (n : note) : Prop :=
  match n with NConnection _ | NClose => True | _ => False end.
#[local] Instance is_life_dec n : Decision (is_life n).
Proof. destruct n; apply _. Defined.
Definition life c : list note := filter is_life (notes c).

(** What has been reported in each state. *)
Definition reported_life c : Prop :=
  match state_ c with
  | kConnecting => life c = []
  | kConnected | kDisconnecting => life c = [NConnection true]
  | kDisconnected => life c = [NConnection true; NConnection false]
                     \/ life c = [NConnection true; NConnection false; NClose]
  end.

(** connectEstablished is queued first, and once. *)
Definition established_once c : Prop :=
  match state_ c with
  | kConnecting => content (outputBuffer_ c) = []
      /\ exists l, pending c = FConnectEstablished :: l /\ FConnectEstablished ∉ l
  | _ => FConnectEstablished ∉ pending c
  end.

Record life_inv c : Prop := {
  l_conn : is_Some (connectionCallback_ c);
  l_msg : is_Some (messageCallback_ c);
  l_close : is_Some (closeCallback_ c);
  l_delayed f : f ∈ delayed c -> f = FForceClose;
  l_est : established_once c;
  l_life : reported_life c;
}.

Definition inv c : Prop := stream_inv c /\ life_inv c.
Definition safe (m : outcome (TcpConnection W)) : Prop := wp overflow inv m.

Lemma life_frame c c' : life_inv c -> frame c c' -> state_ c <> kConnecting -> life_inv c'.
Proof.
  intros [L1 L2 L3 L4 L5 L6] [Fn Fc Fm Fcl Fs (l & Fp & Fl) (k & Fd & Fk)] Hs.
  split; rewrite ?Fc, ?Fm, ?Fcl; try done.
  - intros f. rewrite Fd, elem_of_app. intros [?|?]; auto.
  - unfold established_once in *. rewrite Fp.
    destruct Fs as [->|[Hc ->]]; [|rewrite Hc in L5; set_solver].
    destruct (state_ c); set_solver.
  - unfold reported_life, life in *. rewrite Fn. destruct Fs as [->|[Hc ->]]; [done|].
    by rewrite Hc in L6.
Qed.

Lemma keeps_safe c m : life_inv c -> state_ c <> kConnecting -> keeps c m -> safe m.
Proof.
  intros L Hs Hm. eapply wp_mono; [exact Hm|]. intros c' [I F]. split; [done|].
  by eapply life_frame.
Qed.

Lemma run_api_keeps l c :
  stream_inv c -> (state_ c = kDisconnected -> AStartRead ∉ l) ->
  keeps c (mfold (exec_api chan sys_write true) c l).
Proof.
  revert c. induction l as [|a l IH]; intros c I Hl; [split; [done|apply frame_refl]|].
  simpl. eapply wp_bind; [apply exec_api_keeps; [done|]|].
  - intros -> _ Hs. specialize (Hl Hs). set_solver.
  - intros c1 [I1 F1]. eapply keeps_trans; [exact F1|]. apply IH; [done|].
    intros Hs. rewrite (frame_closed _ _ F1) in Hs. specialize (Hl Hs). set_solver.
Qed.

Lemma add_note_stream n c : stream_inv c -> stream_inv (add_note n c).
Proof. intros []. by split. Qed.

Lemma call_user_keeps cb n c :
  stream_inv c -> is_Some cb -> keeps (add_note n c) (call_user chan sys_write user cb n c).
Proof.
  intros I [f ->]. simpl. apply run_api_keeps; [by apply add_note_stream|]. apply Huser.
Qed.

(** A callback that does not report the life of the connection. *)
Lemma call_other_safe cb n c :
  inv c -> is_Some cb -> ~ is_life n -> state_ c <> kConnecting ->
  safe (call_user chan sys_write user cb n c).
Proof.
  intros [I L] Hcb Hn Hs. eapply (keeps_safe (add_note n c)); [|done|by apply call_user_keeps].
  destruct L. split; try done. unfold reported_life, life in *. simpl.
  rewrite filter_app, filter_cons_False, filter_nil, app_nil_r by done. done.
Qed.

Lemma add_life n c : is_life n -> life (add_note n c) = life c ++ [n].
Proof.
  intros Hn. unfold life. simpl.
  by rewrite filter_app, filter_cons_True, filter_nil.
Qed.

Lemma frame_life c c' : frame c c' -> life c' = life c.
Proof. intros F. unfold life. by rewrite (f_notes _ _ F). Qed.

(** setState(kDisconnected); channel_->disableAll(); connectionCallback_(...); *)
Lemma close_down c :
  inv c -> is_open (state_ c) = true ->
  wp overflow (fun c' => inv c' /\ state_ c' = kDisconnected
                         /\ life c' = [NConnection true; NConnection false])
    (c ← change_channel chan DisableAll (setState kDisconnected c);
     call_user chan sys_write user (connectionCallback_ c) (NConnection false) c).
Proof.
  intros [I L] Ho. destruct (change_channel_ok DisableAll (setState kDisconnected c)
    (v_env _ I)) as (w & -> & Hok & Hi & _). simpl.
  set (c1 := set_env w (setState kDisconnected c)) in *.
  assert (life c = [NConnection true]) as Hlife.
  { pose proof (l_life _ L) as Hl. unfold reported_life in Hl. by destruct (state_ c). }
  assert (stream_inv c1) as I1.
  { destruct I. by split. }
  eapply wp_mono; [apply (call_user_keeps _ (NConnection false) c1 I1), L|].
  intros c' [I' F].
  assert (life c' = [NConnection true; NConnection false]) as Hlife'.
  { rewrite (frame_life _ _ F), add_life by done. change (life c1) with (life c).
    by rewrite Hlife. }
  assert (state_ c' = kDisconnected) as Hs' by (by apply (frame_closed _ _ F)).
  split; [|done]. split; [done|]. eapply life_frame; [|exact F|done].
  destruct L as [L1 L2 L3 L4 L5 L6]. split; try done.
  - unfold established_once in *. simpl. by destruct (state_ c).
  - unfold reported_life. simpl. left. rewrite add_life by done.
    change (life c1) with (life c). by rewrite Hlife.
Qed.

Lemma handleClose_safe c :
  inv c -> is_open (state_ c) = true ->
  wp overflow (fun c' => inv c' /\ state_ c' = kDisconnected
                 /\ life c' = [NConnection true; NConnection false; NClose])
    (handleClose chan sys_write user c).
Proof.
  intros Hinv Ho. pose proof (close_down c Hinv Ho) as Hd.
  unfold handleClose. destruct (change_channel _ _ _) as [c1|f]; simpl in *; [|done].
  eapply wp_bind; [exact Hd|]. intros c2 ([I2 L2] & Hs2 & Hl2).
  eapply wp_mono; [apply (call_user_keeps _ NClose c2 I2), L2|]. intros c' [I' F].
  assert (life c' = [NConnection true; NConnection false; NClose]) as Hlife'.
  { rewrite (frame_life _ _ F), add_life, Hl2 by done. done. }
  assert (state_ c' = kDisconnected) as Hs' by (by apply (frame_closed _ _ F)).
  split; [|done]. split; [done|]. eapply life_frame; [|exact F|simpl; congruence].
  destruct L2 as [K1 K2 K3 K4 K5 K6]. split; try done.
  unfold reported_life. simpl. rewrite Hs2, add_life, Hl2 by done. by right.
Qed.

Lemma remove_channel_safe c : inv c -> safe (remove_channel chan c).
Proof.
  intros [I L]. destruct (es_ok_get chan _ (v_env _ I)) as [x Hx].
  destruct (es_ok_remove chan _ x (v_env _ I) Hx) as (w & x' & Hw & Hok & Hx' & Hev).
  unfold remove_channel. rewrite Hw. simpl.
  assert (interest (set_env w c) = interest c) as Hi
    by (unfold interest; simpl; by rewrite Hx, Hx').
  split; [|by destruct L; split]. destruct I.
  split; unfold writing in *; rewrite ?Hi; done.
Qed.

Lemma connectDestroyed_safe c : inv c -> safe (connectDestroyed chan sys_write user c).
Proof.
  intros Hinv. unfold connectDestroyed. case_decide as Hs.
  - pose proof (close_down c Hinv) as Hd. rewrite Hs in Hd. specialize (Hd eq_refl).
    eapply wp_bind; [|apply remove_channel_safe].
    eapply wp_mono; [exact Hd|]. by intros c' [? _].
  - simpl. by apply remove_channel_safe.
Qed.

(** [c] has just been taken out of the queue, in front of [l]. *)
Lemma connectEstablished_safe l c :
  inv c -> state_ c = kConnecting -> pending c = FConnectEstablished :: l ->
  safe (connectEstablished self chan sys_write user (set_pending l c)).
Proof.
  intros [I L] Hs Hp. unfold connectEstablished.
  set (c0 := setState kConnected (set_pending l c)).
  destruct (es_ok_get chan _ (v_env _ I)) as [x Hx].
  pose proof (es_ok_tie chan self _ x (v_env _ I) Hx) as Hok1.
  pose proof (es_get_put chan (tie self x) (env c)) as Hx1.
  unfold tie_channel, channel. simpl. rewrite Hx. simpl.
  set (c1 := set_env _ c0).
  destruct (change_channel_ok EnableReading c1 Hok1) as (w & -> & Hok2 & _ & Hw2). simpl.
  set (c2 := set_env w c1) in *.
  pose proof (l_est _ L) as Hest. unfold established_once in Hest. rewrite Hs in Hest.
  destruct Hest as [Hout (l' & Hp' & Hl)]. rewrite Hp in Hp'. simplify_eq.
  assert (writing c1 = writing c) as Hw1
    by (unfold writing, interest; simpl; by rewrite Hx1, Hx).
  assert (stream_inv c2) as I2.
  { destruct I. split; try done. intros _. rewrite Hw2, Hw1. apply v_writing0. by rewrite Hs. }
  pose proof (l_life _ L) as Hlife. unfold reported_life in Hlife. rewrite Hs in Hlife.
  eapply (keeps_safe (add_note (NConnection true) c2)); [|done|].
  - destruct L. split; try done. unfold reported_life. simpl.
    rewrite add_life by done. change (life c2) with (life c). by rewrite Hlife.
  - apply call_user_keeps; [done|apply L].
Qed.

Lemma handleRead_safe r c :
  inv c -> is_open (state_ c) = true -> safe (handleRead chan sys_write user r c).
Proof.
  intros [I L] Ho. unfold handleRead.
  eapply wp_bind; [apply (readFd_wp r _ (v_in _ I))|]. intros [[n e] b] Hb.
  destruct (set_input_keeps b c I Hb) as [I' F].
  assert (state_ c <> kConnecting) as Hs by (by intros Hs; rewrite Hs in Ho).
  pose proof (life_frame _ _ L F Hs) as L'.
  destruct (0 <? n); [apply call_other_safe; [by split|apply L'|by intros []|done]|].
  destruct (n =? 0); [|by split].
  eapply wp_mono; [by apply handleClose_safe|]. by intros c' [? _].
Qed.

(** *** Events, in any order *)

(** What the calls of another thread give to the loop. *)
Definition postable (f : Functor) : bool :=
  match f with
  | FSendInLoop _ | FShutdownInLoop | FForceCloseInLoop | FForceClose
  | FStartReadInLoop | FStopReadInLoop => true
  | FConnectEstablished | FConnectDestroyed | FWriteComplete _ => false
  end.

(** When an event can happen: the channel is read only while the connection is
    open, and readv(2) respects the iovecs; startRead does not reach a closed
    connection; nobody but the server has the connection before it is
    established; another thread that has seen the connection open sets
    kDisconnecting before the loop closes it (the functors may come at any time). *)
Definition legal_event c (e : event) : Prop :=
  match e with
  | EvRead r => is_open (state_ c) = true /\ deliverable r c
  | EvWrite | EvTimer => True
  | EvFunctor => head (pending c) = Some FStartReadInLoop -> state_ c <> kDisconnected
  | EvCall in_loop a =>
      (state_ c = kConnecting -> in_loop = false /\ a = AQueueDestroyed)
      /\ (a = AStartRead -> in_loop = true -> state_ c <> kDisconnected)
  | EvStore => is_open (state_ c) = true
  | EvPost f => state_ c <> kConnecting /\ postable f = true
  end.

Fixpoint legal_run c (es : list event) : Prop :=
  match es with
  | [] => True
  | e :: es => legal_event c e
      /\ forall c', exec_event self chan sys_write user c e = Ok c' -> legal_run c' es
  end.

Lemma pop_pending f l c :
  inv c -> pending c = f :: l -> state_ c <> kConnecting ->
  inv (set_pending l c) /\ f <> FConnectEstablished.
Proof.
  intros [I [L1 L2 L3 L4 L5 L6]] Hp Hs. unfold established_once in L5.
  assert (FConnectEstablished ∉ pending c) as Hn by by destruct (state_ c).
  rewrite Hp in Hn. split; [|set_solver]. split; [by destruct I; split|].
  split; try done. unfold established_once. simpl. destruct (state_ c); set_solver.
Qed.

Lemma run_functor_safe f c :
  inv c -> state_ c <> kConnecting -> f <> FConnectEstablished ->
  (f = FStartReadInLoop -> state_ c <> kDisconnected) ->
  safe (run_functor self chan sys_write user f c).
Proof.
  intros Hinv Hs Hf Hsr. pose proof Hinv as [I L]. destruct f; simpl; try done.
  - apply (keeps_safe c); [done..|]. by apply sendInLoop_keeps.
  - apply (keeps_safe c); [done..|]. by apply shutdownInLoop_keeps.
  - unfold forceCloseInLoop. destruct (is_open (state_ c)) eqn:Ho; [|done].
    eapply wp_mono; [by apply handleClose_safe|]. by intros c' [? _].
  - apply (keeps_safe c (Ok (forceClose c))); [done..|]. by apply forceClose_keeps.
  - apply (keeps_safe c); [done..|]. apply startReadInLoop_keeps; auto.
  - apply (keeps_safe c); [done..|]. by apply stopReadInLoop_keeps.
  - by apply connectDestroyed_safe.
  - by apply (call_other_safe (Some cb) NWriteComplete c); [|eauto|intros []|].
Qed.

Lemma post_keeps f c : stream_inv c -> postable f = true -> keeps c (Ok (post f c)).
Proof.
  intros I Hf. destruct f; simpl; try done; try (by apply queue_keeps).
  split; [by destruct I; split|]. split; simpl; auto.
  - exists []. rewrite app_nil_r. set_solver.
  - exists [FForceClose]. split; [done|]. set_solver.
Qed.

Lemma exec_event_safe c e :
  inv c -> legal_event c e -> safe (exec_event self chan sys_write user c e).
Proof.
  intros Hinv Hl. pose proof Hinv as [I L]. destruct e as [r| | | |in_loop a| |f]; simpl in *.
  - destruct Hl. by apply handleRead_safe.
  - destruct (decide (state_ c = kConnecting)) as [Hs|Hs];
      [|apply (keeps_safe c); [done..|by apply handleWrite_keeps]].
    pose proof (l_est _ L) as He. unfold established_once in He. rewrite Hs in He.
    destruct He as [Hc _]. unfold handleWrite.
    destruct (channel_ok c (v_env _ I)) as (ch & -> & _ & Hw). simpl.
    destruct (isWriting ch); [|by split]. exfalso. symmetry in Hw.
    apply (v_writing _ I) in Hw; congruence.
  - destruct (pending c) as [|f l] eqn:Hp; [by split|].
    destruct (decide (state_ c = kConnecting)) as [Hs|Hs].
    + pose proof (l_est _ L) as He. unfold established_once in He. rewrite Hs in He.
      destruct He as [_ (l' & Hp' & _)]. rewrite Hp in Hp'. simplify_eq.
      by apply connectEstablished_safe.
    + destruct (pop_pending f l c Hinv Hp Hs) as [Hinv' Hf].
      apply run_functor_safe; try done. intros ->. by apply Hl.
  - destruct (delayed c) as [|f l] eqn:Hd; [by split|].
    assert (f = FForceClose) as -> by (apply (l_delayed _ L); rewrite Hd; by left).
    assert (inv (set_delayed l c)) as Hinv'.
    { split; [by destruct I; split|]. destruct L. split; try done. simpl.
      intros f' ?. apply l_delayed0. rewrite Hd. by right. }
    simpl. destruct (decide (state_ c = kConnecting)) as [Hs|Hs].
    + unfold forceClose. simpl. by rewrite Hs.
    + apply (keeps_safe (set_delayed l c) (Ok (forceClose (set_delayed l c))));
        [apply Hinv'|done|].
      apply forceClose_keeps, Hinv'.
  - destruct Hl as [Hc Hsr]. destruct (decide (state_ c = kConnecting)) as [Hs|Hs].
    + destruct (Hc Hs) as [-> ->]. simpl. destruct (queue_keeps FConnectDestroyed c I) as [I' _];
        [done|]. split; [done|]. destruct L as [L1 L2 L3 L4 L5 L6]. split; try done.
      unfold established_once in *. simpl. rewrite Hs in *.
      destruct L5 as [? (l & Hp & Hn)]. split; [done|]. rewrite Hp.
      exists (l ++ [FConnectDestroyed]). split; [done|]. set_solver.
    + apply (keeps_safe c); [done..|]. apply exec_api_keeps; [done|]. intros -> ->. auto.
  - apply (keeps_safe c (Ok (setState kDisconnecting c))); [done| |by apply disconnecting_keeps].
    intros Hs. by rewrite Hs in Hl.
  - destruct Hl. by apply (keeps_safe c (Ok (post f c))); [..|apply post_keeps].
Qed.

Lemma run_safe es c :
  inv c -> legal_run c es -> safe (mfold (exec_event self chan sys_write user) c es).
Proof.
  revert c. induction es as [|e es IH]; intros c Hc Hl; [done|]. simpl.
  destruct Hl as [He Hl]. pose proof (exec_event_safe c e Hc He) as Hx.
  destruct (exec_event _ _ _ _ c e) as [c'|f] eqn:E; [|done]. simpl in *.
  apply IH; [done|]. by apply Hl.
Qed.
End proofs.

(** A connection as TcpServer::newConnection leaves it. *)
Definition new_conn `{EventSource W} (self chan sockfd : Z) (conn msg close : UserCb)
    (wc : option UserCb) (w : W) : TcpConnection W :=
  queueInLoop FConnectEstablished
    (set_callbacks (Some conn) (Some msg) wc (Some close)
      (TcpConnection_ctor self chan sockfd [] w)).

Lemma new_conn_inv `{EventSourceLaws W} self chan sockfd conn msg close wc (w : W) :
  es_ok chan (env (new_conn self chan sockfd conn msg close wc w)) ->
  inv chan (new_conn self chan sockfd conn msg close wc w).
Proof.
  intros Hok. assert (writing chan (new_conn self chan sockfd conn msg close wc w) = false)
    as Hw by (unfold writing, interest; simpl; by rewrite es_get_put).
  split.
  - split; try done; try apply ctor_wf. rewrite Hw. done.
  - split; simpl; eauto; [set_solver| |done].
    split; [done|]. exists []. set_solver.
Qed.

(** ** The theorems *)

Definition user_ok {W} (user : UserCb -> TcpConnection W -> list api) : Prop :=
  forall cb c, state_ c = kDisconnected -> AStartRead ∉ user cb c.

Section claims.
Context {W : Type} `{EventSourceLaws W}.
Context (self chan : addr).
Context (sys_write : nat -> bool -> bytes -> write_result).
Context (user : UserCb -> TcpConnection W -> list api).
Implicit Types (c : TcpConnection W).

(** C9. The byte stream of a connection.  Take any events, calls of the loop's thread
    and of others (whose tests, stores and functors may come apart) and user callbacks
    after newConnection, provided that startRead does not reach a closed connection
    (called on it in its loop, or queued before and run after the close; the Example
    start_read_after_close shows why), that another thread's store of kDisconnecting
    does not come after a close (late_store_reopens), that a closed connection's channel
    is not read, that only the server has the connection before it is established, and
    that the process ignores SIGPIPE.  Then the only fault is a buffer overflow, and
    otherwise: what the kernel took, followed by the output buffer, is what sendInLoop
    accepted, in order, with nothing lost or duplicated; while the connection is not
    closed POLLOUT is watched exactly when bytes are waiting; SHUT_WR is only sent once
    they are all gone; and a closed connection watches nothing. *)
Theorem stream_delivery sockfd conn msg close wc w es
    (Hwrite : write_ok sys_write) (Huser : user_ok user)
    (Hok : es_ok chan (env (new_conn self chan sockfd conn msg close wc w)))
    (Hlegal : legal_run chan sys_write self user
                (new_conn self chan sockfd conn msg close wc w) es) :
  wp overflow (fun c =>
      wire c ++ content (outputBuffer_ c) = accepted c
      /\ (state_ c <> kDisconnected ->
            (writing chan c = true <-> content (outputBuffer_ c) <> [])
            /\ (shut c = true -> content (outputBuffer_ c) = []))
      /\ (state_ c = kDisconnected -> interest chan c = 0))
    (mfold (exec_event self chan sys_write user)
       (new_conn self chan sockfd conn msg close wc w) es).
Proof.
  eapply wp_mono; [apply run_safe; [done|done|by apply new_conn_inv|done]|].
  intros c [[] _]. auto.
Qed.

(** C10. The life of a connection as its callbacks see it, in the runs of [stream_delivery],
    that is, provided that startRead does not reach a closed connection, that another
    thread's store of kDisconnecting does not come after a close, that only the
    server has the connection before it is established, and that SIGPIPE is ignored (without the first or the second
    a close is reported twice: Examples start_read_after_close and late_store_reopens).
    Nothing before it is established; then one connection callback with connected()
    true; when it is closed, one with connected() false, and at most one close callback,
    after it.  In these runs no callback of the life is repeated. *)
Theorem lifecycle sockfd conn msg close wc w es
    (Hwrite : write_ok sys_write) (Huser : user_ok user)
    (Hok : es_ok chan (env (new_conn self chan sockfd conn msg close wc w)))
    (Hlegal : legal_run chan sys_write self user
                (new_conn self chan sockfd conn msg close wc w) es) :
  wp overflow (fun c =>
      match state_ c with
      | kConnecting => life c = []
      | kConnected | kDisconnecting => life c = [NConnection true]
      | kDisconnected => life c = [NConnection true; NConnection false]
                         \/ life c = [NConnection true; NConnection false; NClose]
      end)
    (mfold (exec_event self chan sys_write user)
       (new_conn self chan sockfd conn msg close wc w) es).
Proof.
  eapply wp_mono; [apply run_safe; [done|done|by apply new_conn_inv|done]|].
  intros c [_ []]. done.
Qed.

(** C11. sendInLoop on an open connection, on every branch.  If nothing is
    waiting, the data is offered to write(2) at once; on an error other than EWOULDBLOCK
    it is dropped if errno, tested after the log of the error, is EPIPE or ECONNRESET;
    otherwise what was not taken goes behind the bytes already waiting, and a write-complete notification is queued when everything was
    taken.  The call faults exactly when the left-over bytes do not fit in the
    output buffer. *)
Theorem sendInLoop_spec d c (Hwrite : write_ok sys_write) (Hinv : stream_inv chan c)
    (Hopen : state_ c <> kDisconnected) :
  let taken := (direct_write sys_write d c).1 in
  let dropped := (direct_write sys_write d c).2 in
  if decide (zlen (left_over sys_write d c) <= room (outputBuffer_ c))
  then exists c', sendInLoop chan sys_write d c = Ok c' /\ stream_inv chan c'
    /\ wire c' = wire c ++ taken
    /\ content (outputBuffer_ c') = content (outputBuffer_ c) ++ left_over sys_write d c
    /\ accepted c' = accepted c ++ (if dropped then [] else d)
    /\ state_ c' = state_ c /\ pending c' = pending c ++ complete sys_write d c
  else sendInLoop chan sys_write d c = Fault FOutOfBounds.
Proof.
  pose proof (sendInLoop_exec chan sys_write Hwrite d c Hinv Hopen) as Hx.
  cbv zeta. case_decide; [|done]. destruct Hx as (c' & Hc & He). exists c'.
  unfold send_effect in He. destruct (direct_write sys_write d c). by destruct_and!.
Qed.

(** A Buffer sent from another thread is lost: the closure built by std::bind
    is discarded, so the buffer is emptied and the connection, its loop's queue
    included, is as it was. *)
Theorem foreign_send_Buffer_loses b c (Hb : wf b) (Hc : state_ c = kConnected) :
  exists b', send_Buffer chan sys_write false b c = Ok (b', c) /\ content b' = [].
Proof.
  unfold send_Buffer. rewrite decide_True by done. simpl.
  rewrite retrieveAllAsString_ok by done. by exists (retrieveAll b).
Qed.

(** One round of POLLOUT after another. *)
Fixpoint writable_rounds (n : nat) c : outcome (TcpConnection W) :=
  match n with
  | O => Ok c
  | S n => c ← handleWrite chan sys_write c; writable_rounds n c
  end.

Lemma drained_exec c :
  es_ok chan (env c) -> content (outputBuffer_ c) = [] ->
  exists c', drained chan c = Ok c' /\ content (outputBuffer_ c') = []
    /\ wire c' = wire c /\ accepted c' = accepted c /\ writing chan c' = false
    /\ state_ c' = state_ c
    /\ (state_ c = kDisconnecting -> shut c' = true).
Proof.
  intros He Hc. unfold drained.
  destruct (change_channel_ok chan DisableWriting c He) as (w & -> & Hok & _ & Hw). simpl in *.
  set (c2 := match _ with Some _ => _ | None => _ end).
  assert (env c2 = w /\ wire c2 = wire c /\ accepted c2 = accepted c
    /\ outputBuffer_ c2 = outputBuffer_ c /\ state_ c2 = state_ c
    /\ writing chan c2 = false) as (E1 & E2 & E3 & E4 & E5 & E6).
  { subst c2. by destruct (writeCompleteCallback_ c). }
  rewrite E5. case_decide as Hs.
  - unfold shutdownInLoop. destruct (channel_ok chan c2) as (ch & -> & _ & Hwr);
      [by rewrite E1|]. simpl. rewrite Hwr, E6. simpl. eexists. split; [done|].
    simpl. rewrite E4. by split_and!.
  - exists c2. rewrite E4. by split_and!.
Qed.

(** C12. The output drains: when write(2) takes at least a byte of what it is
    offered, as many rounds of POLLOUT as there are bytes waiting are enough to
    empty the output buffer; then everything accepted is with the kernel,
    POLLOUT is no longer watched, and a connection that was shutting down has
    sent SHUT_WR. *)
Theorem output_drains c (Hwrite : write_ok sys_write)
    (Hprogress : forall k d, d <> [] -> exists n, sys_write k false d = WriteOk n /\ 0 < n)
    (Hinv : stream_inv chan c) (Hopen : state_ c <> kDisconnected)
    (Hwaiting : content (outputBuffer_ c) <> []) :
  exists n c', (n <= length (content (outputBuffer_ c)))%nat
    /\ writable_rounds n c = Ok c' /\ content (outputBuffer_ c') = []
    /\ wire c' = accepted c /\ writing chan c' = false
    /\ (state_ c = kDisconnecting -> shut c' = true).
Proof.
  remember (length (content (outputBuffer_ c))) as k eqn:Hk.
  revert c Hinv Hopen Hwaiting Hk. induction (lt_wf k) as [k _ IH]; intros c I Hs Hne Hk.
  assert (writing chan c = true) as Hw by by apply (v_writing _ _ I).
  pose proof (handleWrite_keeps chan sys_write Hwrite c I) as Hkeep.
  destruct (handleWrite_exec chan sys_write Hwrite c I Hw Hs) as (_ & _ & _ & _ & Hx).
  destruct (Hprogress (writes c) _ Hne) as (n & Hn & Hn0). rewrite Hn in Hx. cbv zeta in Hx.
  rewrite (proj2 (Z.ltb_lt 0 n)) in Hx by done.
  pose proof (proj1 (Hwrite (writes c) (content (outputBuffer_ c)))) as Hle.
  rewrite Hn in Hle.
  set (out := content (outputBuffer_ c)) in *. set (c1 := wrote _ c) in *.
  assert (content (retrieve n (outputBuffer_ c)) = drop (Z.to_nat n) out) as Hc
    by (apply retrieve_content; [apply I|lia]).
  destruct (bool_decide _) eqn:Hd.
  - apply bool_decide_eq_true in Hd.
    destruct (drained_exec (set_output (retrieve n (outputBuffer_ c)) c1) (v_env _ _ I))
      as (c' & Hdr & Hc' & Hw' & Ha' & Hwr' & _ & Hsh'); [simpl; by rewrite Hc|].
    exists 1%nat, c'. simpl. rewrite Hx, Hdr. simpl. split_and!; try done.
    + destruct out; [done|]. simpl in Hk. lia.
    + rewrite Hw', <- (v_stream _ _ I). simpl. f_equal.
      transitivity (take (Z.to_nat n) out ++ drop (Z.to_nat n) out);
        [by rewrite Hd, app_nil_r|apply take_drop].
  - apply bool_decide_eq_false in Hd. rewrite Hx in Hkeep. destruct Hkeep as [I2 F].
    set (c2 := set_output (retrieve n (outputBuffer_ c)) c1) in *.
    destruct (IH (length (drop (Z.to_nat n) out))) with (c := c2)
      as (m & c' & Hm & Hr & Hc' & Hw' & Hwr' & Hsh'); try done;
      [rewrite length_drop, Hk; unfold zlen in Hle; lia|by simpl; rewrite Hc|
       by simpl; rewrite Hc|].
    exists (S m), c'. simpl. rewrite Hx. simpl.
    split_and!; try done. rewrite length_drop in Hm. unfold zlen in Hle. lia.
Qed.

(** shutdown() half-closes at once when nothing is waiting, and otherwise
    leaves the socket open for the bytes waiting, with POLLOUT watched. *)
Theorem shutdown_spec c (Hinv : stream_inv chan c) (Hc : state_ c = kConnected) :
  exists c', shutdown chan true c = Ok c' /\ state_ c' = kDisconnecting
    /\ stream_inv chan c' /\ outputBuffer_ c' = outputBuffer_ c /\ wire c' = wire c
    /\ (content (outputBuffer_ c) = [] -> shut c' = true)
    /\ (content (outputBuffer_ c) <> [] -> shut c' = shut c /\ writing chan c' = true).
Proof.
  destruct (disconnecting_keeps chan c Hinv) as [I1 _]; [by rewrite Hc|].
  pose proof (shutdownInLoop_keeps chan _ I1) as Hk.
  unfold shutdown. rewrite decide_True by done. simpl.
  unfold shutdownInLoop in *.
  destruct (channel_ok chan (setState kDisconnecting c) (v_env _ _ I1))
    as (ch & Hch & _ & Hw). rewrite Hch in *. simpl in *.
  assert (writing chan (setState kDisconnecting c) = true
    <-> content (outputBuffer_ c) <> []) as Hiff by by apply (v_writing _ _ I1).
  destruct (isWriting ch) eqn:E; simpl in *; eexists; (split; [done|]);
    split_and!; try done; try apply Hk.
  - intros Hn. by destruct (proj1 Hiff (eq_sym Hw)).
  - intros Hn. by rewrite (proj2 Hiff Hn) in Hw.
Qed.
End claims.

(** ** The reactor as the source of events *)

#[export] Instance reactor_source `{EpollKernel K} : EventSource (Reactor K) := {
  es_get p r := chans r !! p;
  es_put := put;
  es_change ch := change_events (change_fn ch);
  es_remove := Channel_remove;
}.

(** A registered channel may always be updated. *)
Lemma may_update_added `{EpollKernel K} (r : Reactor K) p c :
  index_ c <> kNew -> may_update r p c.
Proof. intros H1 H2. done. Qed.

Lemma updated_not_new e c : index_ (updated e c) <> kNew.
Proof. unfold updated, updated_index. simpl. repeat case_decide; by try case_match. Qed.

(** An assignment to members that do not concern the registration. *)
Lemma put_member_ok `{EpollKernelLaws K} (r : Reactor K) p c c' :
  reactor_ok r -> chans r !! p = Some c -> index_ c' = index_ c -> fd_ c' = fd_ c ->
  events_ c' = events_ c -> reactor_ok (put p c' r).
Proof.
  intros Hr Hc Hi Hf He. split; simpl.
  - intros q cq [[<- <-]|[_ Hq]]%lookup_insert_Some; [|by apply (ok_chan r Hr)].
    unfold chan_ok. rewrite Hi, Hf, He. by apply (ok_chan r Hr).
  - intros fd ev q Hq. destruct (ok_interest r Hr _ _ _ Hq) as (cq & Hcq & ? & ?).
    destruct (decide (p = q)) as [<-|Hne].
    + exists c'. rewrite lookup_insert_eq. simplify_eq. by rewrite Hi, Hf.
    + exists cq. by rewrite lookup_insert_ne.
  - intros fd q Hq. destruct (ok_channels r Hr _ _ Hq) as (cq & Hcq & ? & ?).
    destruct (decide (p = q)) as [<-|Hne].
    + exists c'. rewrite lookup_insert_eq. simplify_eq. by rewrite Hi, Hf.
    + exists cq. by rewrite lookup_insert_ne.
  - intros q cq [[<- <-]|[_ Hq]]%lookup_insert_Some; [rewrite Hf|]; by eapply ok_watch.
Qed.

#[export] Program Instance reactor_source_laws `{EpollKernelLaws K} :
    EventSourceLaws (Reactor K) := {
  es_ok p r := reactor_ok r /\ exists c, chans r !! p = Some c /\ may_update r p c;
}.
Next Obligation. intros. apply lookup_insert_eq. Qed.
Next Obligation. intros K ? ? p r (_ & c & Hc & _). by exists c. Qed.
Next Obligation.
  intros K ? ? ch p r c (Hr & c' & Hc' & Hmay) Hc. simpl in *.
  rewrite Hc in Hc'. injection Hc' as <-.
  destruct (change_events_keeps (change_fn ch) p c r Hr Hc Hmay) as (r' & ? & ? & Hc' & _).
  exists r', (updated (change_fn ch (events_ c)) c). split_and!; try done.
  eexists. split; [done|]. apply may_update_added, updated_not_new.
Qed.
Next Obligation.
  intros K HK HL p r c (Hr & c' & Hc' & Hmay) Hc. simpl in *.
  rewrite Hc in Hc'. injection Hc' as <-.
  destruct (remove_keeps p c r Hr Hc Hmay) as (r' & ? & ? & Hc' & _ & _ & Hm).
  exists r', (set_index kNew (with_addedToLoop false c)). split_and!; try done.
  eexists. split; [done|]. intros _. exact Hm.
Qed.
Next Obligation.
  intros K ? ? p obj r c (Hr & c' & Hc' & Hmay) Hc. simpl in *.
  rewrite Hc in Hc'. injection Hc' as <-. split.
  - by eapply put_member_ok.
  - eexists. split; [apply lookup_insert_eq|]. done.
Qed.

(** A new connection's channel on a consistent reactor whose map does not know the
    descriptor, which epoll can watch. *)
Lemma new_conn_ok `{EpollKernelLaws K} self chan sockfd conn msg close wc (r : Reactor K) :
  reactor_ok r -> chans r !! chan = None -> channels_ r !! sockfd = None ->
  watchable K sockfd = true -> es_ok chan (env (new_conn self chan sockfd conn msg close wc r)).
Proof.
  intros Hr Hc Hfd Hw. split.
  - simpl. pose proof (new_channel_ok chan sockfd r Hr Hc Hw) as Hn.
    set (c1 := setErrorCallback _ _).
    rewrite <- (put_put chan c1 (Channel_ctor sockfd) r).
    apply (put_member_ok _ chan (Channel_ctor sockfd)); [exact Hn|apply lookup_insert_eq|..];
      reflexivity.
  - eexists. split; [apply lookup_insert_eq|]. intros _. exact Hfd.
Qed.

(** The end of a connection.  connectDestroyed, on any connection that a legal
    run produced, leaves no pointer to its channel in the poller or in the
    kernel: destroying the connection, and the channel with it, is safe. *)
Theorem connection_teardown `{EpollKernelLaws K} chan sys_write
    (user : UserCb -> TcpConnection (Reactor K) -> list api) c
    (Hwrite : write_ok sys_write) (Huser : user_ok user) (Hinv : inv chan c) :
  wp overflow (fun c' =>
      reactor_ok (destroy_channel chan (env c'))
      /\ (forall fd ev, Poller.interest (kernel (env c')) fd <> Some (ev, chan))
      /\ (forall fd, channels_ (env c') !! fd <> Some chan))
    (connectDestroyed chan sys_write user c).
Proof.
  assert (forall c1, inv chan c1 -> wp overflow (fun c' =>
      reactor_ok (destroy_channel chan (env c'))
      /\ (forall fd ev, Poller.interest (kernel (env c')) fd <> Some (ev, chan))
      /\ (forall fd, channels_ (env c') !! fd <> Some chan)) (remove_channel chan c1)) as Hrm.
  { intros c1 [[(Hr & x & Hx & Hmay)] _].
    destruct (remove_keeps chan x _ Hr Hx Hmay) as (r' & Hex & Hr' & Hp & _).
    unfold remove_channel. simpl. rewrite Hex. simpl.
    split; [by eapply destroy_channel_ok|]. split.
    - intros fd ev Hi. destruct (ok_interest r' Hr' _ _ _ Hi) as (y & Hy & _ & Ha).
      by simplify_eq.
    - intros fd Hi. destruct (ok_channels r' Hr' _ _ Hi) as (y & Hy & _ & Ha).
      by simplify_eq. }
  unfold connectDestroyed. case_decide as Hs; [|by apply Hrm].
  pose proof (close_down chan sys_write Hwrite user Huser c Hinv) as Hd.
  rewrite Hs in Hd. specialize (Hd eq_refl).
  eapply wp_bind; [exact Hd|]. intros c1 [Hi _]. by apply Hrm.
Qed.

(** ** Concrete runs *)

(** [legal_run] as a test. *)
Section legal_test.
Context {W : Type} `{EventSource W}.
Context (self chan : addr) (sys_write : nat -> bool -> bytes -> write_result).
Context (user : UserCb -> TcpConnection W -> list api).

Definition deliverableb (r : readv_result) (c : TcpConnection W) : bool :=
  match r with
  | ReadvError _ => true
  | ReadvBytes d => zlen d <=? readv_room (inputBuffer_ c)
  end.

Definition is_start_read (f : option Functor) : bool :=
  match f with Some FStartReadInLoop => true | _ => false end.

Definition legal_eventb (c : TcpConnection W) (e : event) : bool :=
  match e with
  | EvRead r => is_open (state_ c) && deliverableb r c
  | EvWrite | EvTimer => true
  | EvFunctor => negb (is_start_read (head (pending c)))
                 || negb (bool_decide (state_ c = kDisconnected))
  | EvCall in_loop a =>
      negb (bool_decide (state_ c = kConnecting))
      && match a with AStartRead => negb (bool_decide (state_ c = kDisconnected)) | _ => true end
  | EvStore => is_open (state_ c)
  | EvPost f => negb (bool_decide (state_ c = kConnecting)) && postable f
  end.

Fixpoint legal_runb (c : TcpConnection W) (es : list event) : bool :=
  match es with
  | [] => true
  | e :: es => legal_eventb c e
      && match exec_event self chan sys_write user c e with
         | Ok c' => legal_runb c' es
         | Fault _ => true
         end
  end.

Lemma legal_eventb_ok c e : legal_eventb c e = true -> legal_event c e.
Proof.
  destruct e as [r| | | |in_loop a| |f]; simpl; try done.
  - rewrite andb_true_iff. intros [? Hd]. split; [done|].
    destruct r as [|d]; [done|]. by apply Z.leb_le in Hd.
  - rewrite orb_true_iff, !negb_true_iff, bool_decide_eq_false. intros [Hs|?] Hp; [|done].
    by rewrite Hp in Hs.
  - rewrite andb_true_iff, negb_true_iff, bool_decide_eq_false. intros [Hc Ha].
    split; [done|]. intros -> _. by rewrite negb_true_iff, bool_decide_eq_false in Ha.
  - by rewrite andb_true_iff, negb_true_iff, bool_decide_eq_false.
Qed.

Lemma legal_runb_ok es c : legal_runb c es = true -> legal_run chan sys_write self user c es.
Proof.
  revert c. induction es as [|e es IH]; intros c; simpl; [done|].
  rewrite andb_true_iff. intros [He Hes]. split; [by apply legal_eventb_ok|].
  intros c' Hc'. rewrite Hc' in Hes. by apply IH.
Qed.
End legal_test.

Abbreviation DemoW := (Reactor (gmap Z (Z * addr))).

(** A kernel that takes three bytes at a time. *)
Definition slow_write (k : nat) (shut : bool) (d : bytes) : write_result :=
  if shut then WriteError EPIPE EPIPE else WriteOk (Z.min 3 (zlen d)).

Lemma slow_write_ok : write_ok slow_write.
Proof.
  intros k d. pose proof (zlen_nonneg d). unfold slow_write.
  split; [lia|by exists EPIPE].
Qed.

Lemma slow_write_progress k d :
  d <> [] -> exists n, slow_write k false d = WriteOk n /\ 0 < n.
Proof.
  intros Hd. exists (Z.min 3 (zlen d)). split; [done|].
  destruct d as [|x d]; [done|]. rewrite zlen_cons. pose proof (zlen_nonneg d). lia.
Qed.

(** An echo server that greets: callback 1 on connection, 2 on a message, 3 is the
    server's close callback. *)
Definition echo (cb : UserCb) (c : TcpConnection DemoW) : list api :=
  match cb, state_ c with
  | 1%nat, kConnected => [ASend (txt "hello")]
  | 2%nat, _ => [ASendInput]
  | 3%nat, _ => [AQueueDestroyed]
  | _, _ => []
  end.

Lemma echo_ok : user_ok echo.
Proof. intros cb c Hs. unfold echo. rewrite Hs. destruct cb as [|[|[|[|cb]]]]; set_solver. Qed.

Definition demo_conn : TcpConnection DemoW :=
  new_conn 77 300 7 1 2 3 (Some 4%nat) (EpollPoller_ctor ∅).

Definition demo_events : list event :=
  [EvFunctor; EvWrite; EvRead (ReadvBytes (txt "ping")); EvCall false (ASend (txt "!"));
   EvFunctor; EvFunctor; EvWrite; EvCall true AShutdown; EvWrite; EvFunctor;
   EvRead (ReadvBytes []); EvFunctor].

Definition demo_result : outcome (TcpConnection DemoW) :=
  mfold (exec_event 77 300 slow_write echo) demo_conn demo_events.

Lemma demo_conn_ok : es_ok 300 (env demo_conn).
Proof. by apply new_conn_ok; [apply EpollPoller_ctor_ok|..]. Qed.

Lemma demo_conn_legal : legal_run 300 slow_write 77 echo demo_conn demo_events.
Proof. apply legal_runb_ok. vm_compute. reflexivity. Qed.

Lemma stream_delivery_witness :
  exists c, demo_result = Ok c
    /\ wire c ++ content (outputBuffer_ c) = accepted c
    /\ wire c = txt "helloping!" /\ shut c = true.
Proof.
  pose proof (stream_delivery 77 300 slow_write echo 7 1%nat 2%nat 3%nat (Some 4%nat)
    (EpollPoller_ctor ∅) demo_events slow_write_ok echo_ok demo_conn_ok demo_conn_legal) as H.
  fold demo_conn in H. fold demo_result in H.
  assert ((fun c => (wire c, shut c)) <$> demo_result = Ok (txt "helloping!", true)) as Hw
    by (vm_compute; reflexivity).
  destruct demo_result as [c|f]; [|discriminate].
  exists c. destruct H as (Hs & _). split; [reflexivity|]. split; [exact Hs|].
  simpl in Hw. injection Hw as Hw1 Hw2. split; assumption.
Defined.

Lemma lifecycle_witness :
  exists c, demo_result = Ok c /\ state_ c = kDisconnected
    /\ (life c = [NConnection true; NConnection false]
        \/ life c = [NConnection true; NConnection false; NClose]).
Proof.
  pose proof (lifecycle 77 300 slow_write echo 7 1%nat 2%nat 3%nat (Some 4%nat)
    (EpollPoller_ctor ∅) demo_events slow_write_ok echo_ok demo_conn_ok demo_conn_legal) as H.
  fold demo_conn in H. fold demo_result in H.
  assert (state_ <$> demo_result = Ok kDisconnected) as Hw by (vm_compute; reflexivity).
  destruct demo_result as [c|f]; [|discriminate].
  exists c. simpl in Hw. injection Hw as Hw. split; [reflexivity|]. split; [exact Hw|].
  unfold wp in H. rewrite Hw in H. exact H.
Defined.

(** The connection once it has greeted: two bytes wait for POLLOUT. *)
Definition greeted : TcpConnection DemoW :=
  match exec_event 77 300 slow_write echo demo_conn EvFunctor with
  | Ok c => c
  | Fault _ => demo_conn
  end.

Lemma greeted_inv : inv 300 greeted.
Proof.
  pose proof (exec_event_safe 300 slow_write slow_write_ok 77 echo echo_ok demo_conn EvFunctor
    (new_conn_inv _ _ _ _ _ _ _ _ demo_conn_ok)) as H.
  unfold greeted. destruct (exec_event _ _ _ _ demo_conn EvFunctor) as [c|f].
  - apply H. done.
  - by apply new_conn_inv, demo_conn_ok.
Qed.

Lemma greeted_facts :
  state_ greeted = kConnected /\ content (outputBuffer_ greeted) = txt "lo"
  /\ room (outputBuffer_ greeted) = 1022.
Proof. vm_compute. repeat split. Qed.

Lemma sendInLoop_spec_witness :
  exists c', sendInLoop 300 slow_write (txt " world") greeted = Ok c'
    /\ content (outputBuffer_ c') = txt "lo world"
    /\ wire c' = txt "hel".
Proof.
  pose proof greeted_facts as (Hst & Hct & Hrm).
  pose proof (sendInLoop_spec 300 slow_write (txt " world") greeted slow_write_ok
    (proj1 greeted_inv)) as H. rewrite Hst in H. specialize (H ltac:(discriminate)).
  assert (left_over slow_write (txt " world") greeted = txt " world"
    /\ (direct_write slow_write (txt " world") greeted).1 = []
    /\ wire greeted = txt "hel") as (Hl & Ht & Hw) by (vm_compute; repeat split).
  cbv zeta in H. rewrite Hl, Hrm in H. destruct (decide _) as [_|Hn].
  - destruct H as (c' & Hc & _ & Hwire & Hcont & _). exists c'. split; [exact Hc|].
    rewrite Hcont, Hwire, Ht, Hct, Hw. split; reflexivity.
  - exfalso. apply Hn. vm_compute. congruence.
Defined.

Lemma foreign_send_Buffer_loses_witness :
  exists b b', append (txt "data") (Buffer_ctor 0) = Ok b /\ content b = txt "data"
    /\ send_Buffer 300 slow_write false b greeted = Ok (b', greeted) /\ content b' = [].
Proof.
  destruct (append_fits (txt "data") (Buffer_ctor 0) (ctor_wf 0)) as (b & Hb & Hwf & Hc & _);
    [vm_compute; congruence|].
  destruct (foreign_send_Buffer_loses 300 slow_write b greeted Hwf (proj1 greeted_facts))
    as (b' & Hs & Hc').
  exists b, b'. split; [exact Hb|]. split; [exact Hc|]. split; [exact Hs|exact Hc'].
Defined.

Lemma output_drains_witness :
  exists n c', (n <= 2)%nat /\ writable_rounds 300 slow_write n greeted = Ok c'
    /\ content (outputBuffer_ c') = [] /\ wire c' = txt "hello".
Proof.
  pose proof greeted_facts as (Hst & Hct & _).
  destruct (output_drains 300 slow_write greeted slow_write_ok slow_write_progress
    (proj1 greeted_inv)) as (n & c' & Hn & Hr & Hc & Hw & _);
    [rewrite Hst; discriminate|rewrite Hct; discriminate|].
  exists n, c'. rewrite Hct in Hn. split; [exact Hn|]. split; [exact Hr|].
  split; [exact Hc|]. rewrite Hw. vm_compute. reflexivity.
Defined.

Lemma shutdown_spec_witness :
  exists c', shutdown 300 true greeted = Ok c' /\ state_ c' = kDisconnecting
    /\ shut c' = false /\ writing 300 c' = true.
Proof.
  pose proof greeted_facts as (Hst & Hct & _).
  destruct (shutdown_spec 300 greeted (proj1 greeted_inv) Hst)
    as (c' & Hc & Hs & _ & _ & _ & _ & Hw).
  destruct Hw as [Hsh Hwr]; [rewrite Hct; discriminate|].
  exists c'. split; [exact Hc|]. split; [exact Hs|]. split; [|exact Hwr].
  rewrite Hsh. vm_compute. reflexivity.
Defined.

Lemma connection_teardown_witness :
  exists c', connectDestroyed 300 slow_write echo greeted = Ok c'
    /\ forall fd ev, Poller.interest (kernel (env c')) fd <> Some (ev, 300).
Proof.
  pose proof (connection_teardown 300 slow_write echo greeted slow_write_ok echo_ok
    greeted_inv) as H.
  destruct (connectDestroyed 300 slow_write echo greeted) as [c'|f] eqn:E.
  - exists c'. split; [reflexivity|]. apply H.
  - exfalso. vm_compute in E. discriminate.
Defined.

(** startRead on a closed connection watches its socket again: the end of file is
    read a second time and the close is reported twice. *)
Example start_read_after_close :
  life <$> mfold (exec_event 77 300 slow_write echo) demo_conn
    [EvFunctor; EvRead (ReadvBytes []); EvCall true AStartRead; EvRead (ReadvBytes [])]
  = Ok [NConnection true; NConnection false; NClose; NConnection false; NClose].
Proof. vm_compute. reflexivity. Qed.

(** Another thread's shutdown() has found the connection open; the loop closes it; the
    thread stores kDisconnecting.  A forceClose() then closes it a second time. *)
Example late_store_reopens :
  life <$> mfold (exec_event 77 300 slow_write echo) demo_conn
    [EvFunctor; EvRead (ReadvBytes []); EvStore; EvPost FShutdownInLoop;
     EvCall false AForceClose; EvFunctor; EvFunctor; EvFunctor]
  = Ok [NConnection true; NConnection false; NClose; NConnection false; NClose].
Proof. vm_compute. reflexivity. Qed.

(** ~TcpServer calls connectDestroyed at once.  When a forceClose is already queued,
    the connection is kDisconnecting: it only leaves the poller.  The queued functor
    then closes it: its channel is registered again, and its close callback, which
    is bound to the server, is called. *)
Example server_gone_close :
  (fun c => (state_ c, life c, Poller.interest (kernel (env c)) 7)) <$>
    (c ← exec_api 300 slow_write true greeted AForceClose;
     c ← connectDestroyed 300 slow_write echo c;
     exec_event 77 300 slow_write echo c EvFunctor)
  = Ok (kDisconnected, [NConnection true; NConnection false; NClose], Some (0, 300)).
Proof. vm_compute. reflexivity. Qed.
