(* ===== verification/ConnEffects.v ===== *)
(** What the operations of a [TcpConnection] leave behind: the functors they queue
    and the callbacks they have called, and that a closed connection does nothing.
    These hold of any run of an operation, whatever the channel does. *)

From S2P Require Import Prelude Buffer Channel Poller TcpConnection.

(** ** What an operation of a connection leaves behind

    A functor the loop may run at any time before the connection is gone. *)
Definition calm (f : Functor) : Prop :=
  match f with
  | FConnectEstablished | FConnectDestroyed | FStartReadInLoop => False
  | _ => True
  end.

Definition any_fault (f : fault) : Prop := True.

Lemma wp_and {A} (E : fault -> Prop) (P Q : A -> Prop) m :
  wp E P m -> wp any_fault Q m -> wp E (fun a => P a /\ Q a) m.
Proof. destruct m; simpl; auto. Qed.

Section quiet.
Context {W : Type} `{EventSource W}.
Context (self chan : addr) (sys_write : nat -> bool -> bytes -> write_result).
Context (user : UserCb -> TcpConnection W -> list api).
Context (Huser : forall cb c, AQueueDestroyed ∉ user cb c).
Implicit Types (c : TcpConnection W).

(** Only calm functors are queued, notes are only added, and a connection that has
    become disconnected has called its close callback. *)
Record quiet c c' : Prop := {
  q_pending : exists l, pending c' = pending c ++ l /\ Forall calm l;
  q_notes : exists l, notes c' = notes c ++ l;
  q_closed : state_ c <> kDisconnected -> state_ c' = kDisconnected -> NClose ∈ notes c';
}.

Definition stays_quiet c (m : outcome (TcpConnection W)) : Prop := wp any_fault (quiet c) m.

Lemma quiet_same c c' :
  pending c' = pending c -> notes c' = notes c -> state_ c' = state_ c -> quiet c c'.
Proof.
  intros Hp Hn Hs. split.
  - exists []. by rewrite app_nil_r.
  - exists []. by rewrite app_nil_r.
  - congruence.
Qed.

Lemma quiet_trans c1 c2 c3 : quiet c1 c2 -> quiet c2 c3 -> quiet c1 c3.
Proof.
  intros [(l1 & P1 & F1) (k1 & N1) D1] [(l2 & P2 & F2) (k2 & N2) D2]. split.
  - exists (l1 ++ l2). rewrite P2, P1, app_assoc. split; [done|]. by apply Forall_app.
  - exists (k1 ++ k2). by rewrite N2, N1, app_assoc.
  - intros H1 H3. destruct (decide (state_ c2 = kDisconnected)) as [H2|H2]; [|auto].
    rewrite N2. apply elem_of_app. left. auto.
Qed.

Lemma quiet_then c c1 m : quiet c c1 -> stays_quiet c1 m -> stays_quiet c m.
Proof. intros Hq Hm. eapply wp_mono; [exact Hm|]. intros c'. by apply quiet_trans. Qed.

Lemma quiet_bind c m (k : TcpConnection W -> outcome (TcpConnection W)) :
  stays_quiet c m -> (forall c1, quiet c c1 -> stays_quiet c1 (k c1)) ->
  stays_quiet c (m ≫= k).
Proof. intros Hm Hk. eapply wp_bind; [exact Hm|]. intros c1 Hc. eapply quiet_then; eauto. Qed.

Lemma quiet_queue f c : calm f -> quiet c (queueInLoop f c).
Proof.
  intros Hf. split; simpl; [exists [f]; auto| |congruence]. exists []. by rewrite app_nil_r.
Qed.

Lemma quiet_open s c :
  s <> kDisconnected -> quiet c (setState s c).
Proof.
  intros Hs. split; simpl; [..|congruence]; exists []; rewrite app_nil_r; by auto.
Qed.

Lemma channel_quiet ch c : stays_quiet c (change_channel chan ch c).
Proof. unfold change_channel. destruct (es_change _ _ _); [|done]. by apply quiet_same. Qed.

(** The write completion, when one is to be reported. *)
Lemma complete_quiet b c :
  quiet c (match writeCompleteCallback_ c with
           | Some cb => if (b : bool) then queueInLoop (FWriteComplete cb) c else c
           | None => c
           end).
Proof.
  destruct (writeCompleteCallback_ c); [|by apply quiet_same].
  destruct b; [by apply quiet_queue|by apply quiet_same].
Qed.

Lemma write_direct_quiet d c : quiet c (write_direct sys_write d c).2.
Proof.
  unfold write_direct, do_write. destruct (sys_write _ _ _) as [e e'|n]; simpl.
  - by apply quiet_same.
  - set (c1 := wrote _ c). apply (quiet_trans c c1); [by apply quiet_same|].
    apply (complete_quiet (zlen d - n =? 0) c1).
Qed.

Lemma sendInLoop_quiet d c : stays_quiet c (sendInLoop chan sys_write d c).
Proof.
  unfold sendInLoop. case_decide; [by apply quiet_same|].
  destruct (channel chan c) as [ch|]; [|done]. simpl.
  set (r := if _ && _ then _ else _).
  assert (quiet c r.2) as Hr
    by (subst r; destruct (_ && _); [apply write_direct_quiet|by apply quiet_same]).
  destruct r as [[n e] c1]. simpl in Hr. eapply quiet_then; [exact Hr|].
  set (c2 := if e then c1 else accept d c1).
  assert (quiet c1 c2) as H2 by (subst c2; destruct e; by apply quiet_same).
  eapply quiet_then; [exact H2|]. destruct (_ && _); [|by apply quiet_same].
  destruct (append _ _) as [out|]; [|done]. simpl.
  destruct (channel chan _) as [ch'|]; [|done]. simpl.
  eapply quiet_then; [by apply (quiet_same c2 (set_output out c2))|].
  destruct (negb _); [apply channel_quiet|by apply quiet_same].
Qed.

Lemma shutdownInLoop_quiet c : stays_quiet c (shutdownInLoop chan c).
Proof.
  unfold shutdownInLoop. destruct (channel chan c); [|done]. simpl.
  destruct (negb _); by apply quiet_same.
Qed.

Lemma forceClose_quiet c : quiet c (forceClose c).
Proof.
  unfold forceClose. destruct (is_open _); [|by apply quiet_same].
  eapply quiet_trans; [by apply (quiet_open kDisconnecting)|by apply quiet_queue].
Qed.

Lemma forceCloseWithDelay_quiet c : quiet c (forceCloseWithDelay c).
Proof.
  unfold forceCloseWithDelay. destruct (is_open _); [|by apply quiet_same].
  eapply quiet_trans; [by apply (quiet_open kDisconnecting)|by apply quiet_same].
Qed.

Lemma read_switch_quiet ch b c :
  stays_quiet c (c ← change_channel chan ch c; Ok (set_reading b c)).
Proof. apply quiet_bind; [apply channel_quiet|]. intros c1 _. by apply quiet_same. Qed.

Lemma startReadInLoop_quiet c : stays_quiet c (startReadInLoop chan c).
Proof.
  unfold startReadInLoop. destruct (channel chan c); [|done]. simpl.
  destruct (_ || _); [apply read_switch_quiet|by apply quiet_same].
Qed.

Lemma stopReadInLoop_quiet c : stays_quiet c (stopReadInLoop chan c).
Proof.
  unfold stopReadInLoop. destruct (channel chan c); [|done]. simpl.
  destruct (_ || _); [apply read_switch_quiet|by apply quiet_same].
Qed.

Lemma stopReadInLoop_pending c :
  wp any_fault (fun c' => pending c' = pending c) (stopReadInLoop chan c).
Proof.
  unfold stopReadInLoop, change_channel. destruct (channel chan c); [|done]. simpl.
  destruct (_ || _); [|done]. by destruct (es_change _ _ _).
Qed.

(** The calls of the user; startRead only on the loop's thread. *)
Definition calm_api (in_loop : bool) (a : api) : Prop :=
  a <> AQueueDestroyed /\ (in_loop = false -> a <> AStartRead).

Lemma exec_api_quiet in_loop c a :
  calm_api in_loop a -> stays_quiet c (exec_api chan sys_write in_loop c a).
Proof.
  intros [Hd Hs]. destruct a; simpl; try by apply quiet_same.
  - unfold send. case_decide; [|by apply quiet_same].
    destruct in_loop; [apply sendInLoop_quiet|by apply quiet_queue].
  - eapply (wp_bind _ (fun y => quiet c y.2)); [|intros [b c'] Hq; simpl in *].
    + unfold send_Buffer. case_decide; [|by apply quiet_same]. destruct in_loop.
      * eapply wp_bind; [apply sendInLoop_quiet|]. done.
      * destruct (retrieveAllAsString _) as [[? ?]|]; [|done]. by apply quiet_same.
    + eapply quiet_trans; [exact Hq|by apply quiet_same].
  - unfold shutdown, runInLoop. case_decide; [|by apply quiet_same].
    eapply quiet_then; [by apply (quiet_open kDisconnecting)|].
    destruct in_loop; [apply shutdownInLoop_quiet|by apply quiet_queue].
  - apply forceClose_quiet.
  - apply forceCloseWithDelay_quiet.
  - unfold startRead, runInLoop. destruct in_loop; [apply startReadInLoop_quiet|].
    by destruct Hs.
  - unfold stopRead, runInLoop. destruct in_loop; [apply stopReadInLoop_quiet|].
    by apply quiet_queue.
Qed.

Lemma run_api_quiet l c :
  AQueueDestroyed ∉ l -> stays_quiet c (mfold (exec_api chan sys_write true) c l).
Proof.
  revert c. induction l as [|a l IH]; intros c Hd; simpl; [by apply quiet_same|].
  apply quiet_bind; [|intros; apply IH; set_solver].
  apply exec_api_quiet. split; [|done]. set_solver.
Qed.

Lemma call_user_quiet cb n c :
  stays_quiet c (call_user chan sys_write user cb n c)
  /\ (forall c', call_user chan sys_write user cb n c = Ok c' -> n ∈ notes c').
Proof.
  destruct cb as [cb|]; [|done]. simpl. set (c1 := add_note n c).
  assert (wp any_fault (quiet c1) (mfold (exec_api chan sys_write true) c1 (user cb c1))) as Hq.
  { by apply run_api_quiet. }
  split.
  - eapply quiet_then; [|exact Hq]. split; [exists []; by rewrite app_nil_r| |simpl; congruence].
    by exists [n].
  - intros c' Hc. rewrite Hc in Hq. simpl in Hq. destruct (q_notes _ _ Hq) as (l & ->).
    simpl. rewrite !elem_of_app. left. right. by left.
Qed.

Lemma handleClose_quiet c : stays_quiet c (handleClose chan sys_write user c).
Proof.
  unfold handleClose. pose proof (channel_quiet DisableAll (setState kDisconnected c)) as H1.
  destruct (change_channel _ _ _) as [c1|]; [|done]. simpl in *.
  pose proof (proj1 (call_user_quiet (connectionCallback_ c1) (NConnection false) c1)) as H2.
  destruct (call_user chan sys_write user (connectionCallback_ c1) _ c1) as [c2|]; [|done].
  simpl in *. destruct (call_user_quiet (closeCallback_ c2) NClose c2) as [H3 Hn].
  destruct (call_user _ _ _ _ _ c2) as [c3|]; [|done]. simpl in *.
  pose proof (quiet_trans _ _ _ H1 (quiet_trans _ _ _ H2 H3)) as [? ? _].
  split; [done..|]. intros _ _. by apply Hn.
Qed.

Lemma handleRead_quiet r c : stays_quiet c (handleRead chan sys_write user r c).
Proof.
  unfold handleRead. destruct (readFd r _) as [[[n e] b]|]; [|done]. simpl.
  eapply quiet_then; [by apply (quiet_same c (set_input b c))|].
  destruct (0 <? n); [apply call_user_quiet|].
  destruct (n =? 0); [apply handleClose_quiet|by apply quiet_same].
Qed.

Lemma handleWrite_quiet c : stays_quiet c (handleWrite chan sys_write c).
Proof.
  unfold handleWrite. destruct (channel chan c) as [ch|]; [|done]. simpl.
  destruct (isWriting ch); [|by apply quiet_same]. unfold do_write.
  destruct (sys_write _ _ _) as [e e'|n]; [by apply quiet_same|]. set (c1 := wrote _ c).
  eapply quiet_then; [by apply (quiet_same c c1)|].
  destruct (0 <? n); [|by apply quiet_same].
  set (c2 := set_output _ c1). eapply quiet_then; [by apply (quiet_same c1 c2)|].
  destruct (_ =? 0); [|by apply quiet_same].
  apply quiet_bind; [apply channel_quiet|]. intros c3 _.
  eapply quiet_then; [apply (complete_quiet true)|].
  case_decide; [apply shutdownInLoop_quiet|by apply quiet_same].
Qed.

Lemma connectEstablished_quiet c :
  stays_quiet c (connectEstablished self chan sys_write user c).
Proof.
  unfold connectEstablished, tie_channel.
  eapply quiet_then; [by apply (quiet_open kConnected)|]. set (c0 := setState kConnected c).
  destruct (channel chan c0) as [ch|]; [|done]. simpl. set (c1 := set_env _ c0).
  eapply quiet_then; [by apply (quiet_same c0 c1)|].
  apply quiet_bind; [apply channel_quiet|]. intros c2 _. apply call_user_quiet.
Qed.

Lemma post_quiet f c : calm f -> quiet c (post f c).
Proof. destruct f; simpl; try done; intros _; first [by apply quiet_queue|by apply quiet_same]. Qed.

Lemma run_functor_quiet f c :
  calm f -> stays_quiet c (run_functor self chan sys_write user f c).
Proof.
  destruct f; simpl; try done; intros _.
  - apply sendInLoop_quiet.
  - apply shutdownInLoop_quiet.
  - unfold forceCloseInLoop. destruct (is_open _); [apply handleClose_quiet|by apply quiet_same].
  - apply forceClose_quiet.
  - apply stopReadInLoop_quiet.
  - apply (call_user_quiet (Some cb)).
Qed.
End quiet.

(** ** A closed connection does nothing *)

Section dead.
Context {W : Type} `{EventSource W}.
Context (self chan : addr) (sys_write : nat -> bool -> bytes -> write_result).
Context (user : UserCb -> TcpConnection W -> list api).
Implicit Types (c : TcpConnection W).

(** The calls that may be made on a closed connection. *)
Definition late_api (a : api) : Prop :=
  a <> AStartRead /\ a <> AStopRead /\ a <> AQueueDestroyed.

Context (Huser : forall cb c, state_ c = kDisconnected -> Forall late_api (user cb c)).

Record dead c c' : Prop := {
  d_env : env c' = env c;
  d_pending : pending c' = pending c;
  d_state : state_ c' = state_ c;
}.

Definition stays_dead c (m : outcome (TcpConnection W)) : Prop := wp any_fault (dead c) m.

(** Calls on it do not even touch its timers. *)
Definition stays_still c (m : outcome (TcpConnection W)) : Prop :=
  wp any_fault (fun c' => dead c c' /\ delayed c' = delayed c) m.

Lemma dead_trans c1 c2 c3 : dead c1 c2 -> dead c2 c3 -> dead c1 c3.
Proof. intros [] []. split; congruence. Qed.

Lemma still_dead c m : stays_still c m -> stays_dead c m.
Proof. intros Hm. eapply wp_mono; [exact Hm|]. by intros c' [? _]. Qed.

Lemma exec_api_still in_loop c a :
  state_ c = kDisconnected -> late_api a -> stays_still c (exec_api chan sys_write in_loop c a).
Proof.
  intros Hs (H1 & H2 & H3). destruct a; simpl; try done.
  - unfold send. rewrite Hs. by rewrite decide_False.
  - unfold send_Buffer. rewrite Hs, decide_False by done. done.
  - unfold shutdown. by rewrite Hs, decide_False.
  - unfold forceClose. by rewrite Hs.
  - unfold forceCloseWithDelay. by rewrite Hs.
Qed.

Lemma exec_api_dead in_loop c a :
  state_ c = kDisconnected -> late_api a -> stays_dead c (exec_api chan sys_write in_loop c a).
Proof. intros. by apply still_dead, exec_api_still. Qed.

Lemma call_user_still cb n c :
  state_ c = kDisconnected -> stays_still c (call_user chan sys_write user cb n c).
Proof.
  intros Hs. destruct cb as [cb|]; [|done]. simpl. set (c1 := add_note n c).
  assert (state_ c1 = kDisconnected) as Hs1 by done.
  assert (dead c c1 /\ delayed c1 = delayed c) as Hd by done. pose proof (Huser cb c1 Hs1) as Ha.
  clearbody c1. revert c1 Hs1 Hd Ha. generalize (user cb). intros u c1 Hs1 Hd Ha.
  revert Hs1 Hd Ha. generalize (u c1). intros l. revert c1.
  induction l as [|a l IH]; intros c1 Hs1 Hd Ha; simpl; [done|].
  apply Forall_cons in Ha as [Ha Hl].
  eapply wp_bind; [by apply exec_api_still|]. intros c2 [Hd2 He2]. destruct Hd as [Hd He].
  apply IH; [by rewrite (d_state _ _ Hd2)| |done]. split; [by eapply dead_trans|congruence].
Qed.

Lemma call_user_dead cb n c :
  state_ c = kDisconnected -> stays_dead c (call_user chan sys_write user cb n c).
Proof. intros. by apply still_dead, call_user_still. Qed.

Lemma handleWrite_dead c ch :
  channel chan c = Ok ch -> isWriting ch = false -> stays_dead c (handleWrite chan sys_write c).
Proof. intros Hch Hw. unfold handleWrite. rewrite Hch. simpl. by rewrite Hw. Qed.

Lemma run_functor_dead f c :
  state_ c = kDisconnected -> calm f -> f <> FStopReadInLoop -> stays_dead c (run_functor self chan sys_write user f c).
Proof.
  intros Hs. destruct f; simpl; try done; intros _ _.
  - unfold sendInLoop. by rewrite Hs, decide_True.
  - unfold shutdownInLoop. destruct (channel chan c); [|done]. simpl. by destruct (negb _).
  - unfold forceCloseInLoop. by rewrite Hs.
  - unfold forceClose. by rewrite Hs.
  - by apply (call_user_dead (Some cb)).
Qed.
End dead.
