(* ===== verification/LogStream.v ===== *)
(** include/LogStream.h and src/LogStream.cc: the fixed-size buffer of a log line
    and the insertion operators.

    A [FixedBuffer] of [SIZE] bytes is known by what it holds, data_[0, cur_); the
    bytes behind cur_ are never read.  Every write is checked against the array
    ([FOutOfBounds]).  The integer conversion indexes the program's digit table;
    [convert_spec] says what comes out, compared with [sdec] of [Format], and
    [stream_refines] relates a sequence of insertions to the text they stand
    for. *)

From S2P Require Import Prelude Format.

Definition kSmallBuffer : Z := 4000.
Definition kLargeBuffer : Z := 4000 * 1000.
Definition kMaxnumericSize : Z := 48.

(** ** FixedBuffer *)

Record FixedBuffer := mkFixed { data : bytes }.

Definition FixedBuffer_ctor : FixedBuffer := mkFixed [].
Definition length_ (b : FixedBuffer) : Z := zlen (data b).
Definition avail (SIZE : Z) (b : FixedBuffer) : Z := SIZE - length_ b.

(** memcpy(cur_, buf, len) followed by cur_ += len. *)
Definition copy_in (SIZE : Z) (s : bytes) (b : FixedBuffer) : outcome FixedBuffer :=
  require (length_ b + zlen s <=? SIZE) FOutOfBounds;;
  Ok (mkFixed (data b ++ s)).

(** append(buf, len): avail() is an int converted to size_t. *)
Definition append (SIZE : Z) (s : bytes) (b : FixedBuffer) : outcome FixedBuffer :=
  if zlen s <? wrapU 64 (avail SIZE b) then copy_in SIZE s b else Ok b.

Definition reset (b : FixedBuffer) : FixedBuffer := mkFixed [].
Definition toString (b : FixedBuffer) : bytes := data b.

(** ** convert *)

(** The table, with the terminator of the literal. *)
Definition digits : bytes := txt "987654321023456789" ++ [zero].

(** zero[lsd], where zero is digits + 9. *)
Definition zero_at (lsd : Z) : outcome ascii :=
  if (0 <=? 9 + lsd)
  then match digits !! Z.to_nat (9 + lsd) with Some c => Ok c | None => Fault FOutOfBounds end
  else Fault FOutOfBounds.

(** The do-while loop: the characters in the order they are stored. *)
Fixpoint convert_loop (fuel : nat) (i : Z) : outcome bytes :=
  match fuel with
  | O => Ok []
  | S k =>
      let lsd := Z.rem i 10 in
      let i := Z.quot i 10 in
      c ← zero_at lsd;
      if i =? 0 then Ok [c] else l ← convert_loop k i; Ok (c :: l)
  end.

(** A number of at most 64 bits has at most 20 digits. *)
Definition convert_fuel : nat := 20.

(** convert(buf, value): the text left in buf (its length is the result; a
    terminator follows it). *)
Definition convert (value : Z) : outcome bytes :=
  l ← convert_loop convert_fuel value;
  Ok (rev (l ++ if value <? 0 then ["-"%char] else [])).

(** formatInteger(v): the text and its terminator are written at current(). *)
Definition formatInteger (SIZE : Z) (v : Z) (b : FixedBuffer) : outcome FixedBuffer :=
  if kMaxnumericSize <=? avail SIZE b
  then
    s ← convert v;
    require (length_ b + zlen s + 1 <=? SIZE) FOutOfBounds;;
    Ok (mkFixed (data b ++ s))
  else Ok b.

(** ** LogStream *)

(** What operator<< takes.  There is no overload for char: a char argument is
    promoted to int. *)
Inductive item :=
| IBool (v : bool)
| ICString (str : option bytes)     (* const char*, null or not *)
| IString (str : bytes)             (* std::string *)
| IInteger (v : Z)                  (* the six integer types *)
| IChar (c : ascii).

(** The values the integer types have. *)
Definition item_ok (i : item) : Prop :=
  match i with IInteger v => - 2 ^ 63 <= v < 2 ^ 64 | _ => True end.

Definition insert_item (SIZE : Z) (b : FixedBuffer) (i : item) : outcome FixedBuffer :=
  match i with
  | IBool v => append SIZE (txt (if v then "1" else "0")) b
  | ICString (Some s) => append SIZE s b
  | ICString None => append SIZE (txt "(null)") b
  | IString s => append SIZE s b
  | IInteger v => formatInteger SIZE v b
  | IChar c => formatInteger SIZE (Z.of_nat (nat_of_ascii c)) b
  end.

Definition insert_all (SIZE : Z) (b : FixedBuffer) (l : list item) : outcome FixedBuffer :=
  mfold (insert_item SIZE) b l.

(** The other members of the stream work on its buffer. *)
Definition LogStream_append (data : bytes) (b : FixedBuffer) : outcome FixedBuffer :=
  append kSmallBuffer data b.
Definition resetBuffer (b : FixedBuffer) : FixedBuffer := reset b.

(** ** No array is ever full *)

Lemma append_lt SIZE s b b' :
  SIZE < 2 ^ 31 -> length_ b < SIZE -> append SIZE s b = Ok b' -> length_ b' < SIZE.
Proof.
  intros HS Hb. unfold append, copy_in, avail, require.
  pose proof (zlen_nonneg (data b)) as Hn. unfold length_ in *.
  rewrite wrapU_id by (unfold inU; lia).
  destruct (Z.ltb_spec (zlen s) (SIZE - zlen (data b))); [|by intros [= <-]].
  destruct (_ <=? _); [|done]. intros [= <-]. simpl. rewrite zlen_app. lia.
Qed.

Lemma formatInteger_lt SIZE v b b' :
  length_ b < SIZE -> formatInteger SIZE v b = Ok b' -> length_ b' < SIZE.
Proof.
  intros Hb. unfold formatInteger. destruct (_ <=? _); [|by intros [= <-]].
  intros (s & _ & H)%bind_ok. unfold require in H.
  destruct (Z.leb_spec (length_ b + zlen s + 1) SIZE); [|done]. injection H as <-.
  unfold length_ in *. simpl. rewrite zlen_app. lia.
Qed.

Lemma insert_all_lt SIZE l b b' :
  SIZE < 2 ^ 31 -> length_ b < SIZE -> insert_all SIZE b l = Ok b' -> length_ b' < SIZE.
Proof.
  intros HS. unfold insert_all. revert b. induction l as [|i l IH]; intros b Hb; simpl.
  { by intros [= <-]. }
  intros (b1 & Hi & Hl)%bind_ok. eapply IH; [|exact Hl].
  destruct i as [|[]| | |]; simpl in Hi;
    solve [by eapply append_lt|by eapply formatInteger_lt].
Qed.

(** ** The digits *)

(** What the table makes of the digit it should print. *)
Definition misprint (c : ascii) : ascii :=
  if decide (c = "0"%char) then "0"%char
  else if decide (c = "9"%char) then zero
  else ascii_of_nat (nat_of_ascii c + 1).

(** A C++ char is signed, but the literals of the program are ASCII. *)
Lemma zero_at_pos d : 0 <= d <= 9 -> zero_at d = Ok (misprint (digit_char d)).
Proof.
  intros Hd. assert (d ∈ [0; 1; 2; 3; 4; 5; 6; 7; 8; 9]) as Hin.
  { rewrite !elem_of_cons. lia. }
  rewrite !elem_of_cons, elem_of_nil in Hin. by destruct_or! Hin; subst d.
Qed.

Lemma zero_at_neg d : 0 <= d <= 9 -> zero_at (- d) = Ok (digit_char d).
Proof.
  intros Hd. assert (d ∈ [0; 1; 2; 3; 4; 5; 6; 7; 8; 9]) as Hin.
  { rewrite !elem_of_cons. lia. }
  rewrite !elem_of_cons, elem_of_nil in Hin. by destruct_or! Hin; subst d.
Qed.

(** The loop on a non-negative number: the digits, misprinted. *)
Lemma convert_loop_pos k f n :
  (0 < k)%nat -> (0 < f)%nat -> 0 <= n < 10 ^ Z.of_nat k -> n < 2 ^ Z.of_nat f ->
  convert_loop k n = Ok (map misprint (dec_le f n)).
Proof.
  revert f n. induction k as [|k IH]; intros f n Hk Hf Hn H2; [lia|].
  destruct f as [|f]; [lia|]. cbn [convert_loop dec_le map].
  rewrite Z.rem_mod_nonneg, Z.quot_div_nonneg by lia.
  rewrite zero_at_pos by apply mod10_range. simpl.
  pose proof (Z.div_mod n 10 ltac:(lia)). pose proof (Z.mod_pos_bound n 10 ltac:(lia)).
  rewrite !Nat2Z.inj_succ, !Z.pow_succ_r in * by lia.
  destruct (Z.ltb_spec n 10).
  - rewrite (proj2 (Z.eqb_eq _ _)) by lia. done.
  - rewrite (proj2 (Z.eqb_neq _ _)) by lia.
    assert (0 < k)%nat by (destruct k; [simpl in *; lia|lia]).
    assert (0 < f)%nat by (destruct f; [simpl in *; lia|lia]).
    rewrite (IH f) by lia. done.
Qed.

(** On a negative number: the digits of its absolute value. *)
Lemma convert_loop_neg k f n :
  (0 < k)%nat -> (0 < f)%nat -> 0 <= n < 10 ^ Z.of_nat k -> n < 2 ^ Z.of_nat f ->
  convert_loop k (- n) = Ok (dec_le f n).
Proof.
  revert f n. induction k as [|k IH]; intros f n Hk Hf Hn H2; [lia|].
  destruct f as [|f]; [lia|]. cbn [convert_loop dec_le].
  rewrite Z.rem_opp_l', Z.quot_opp_l, Z.rem_mod_nonneg, Z.quot_div_nonneg by lia.
  rewrite zero_at_neg by apply mod10_range. simpl.
  pose proof (Z.div_mod n 10 ltac:(lia)). pose proof (Z.mod_pos_bound n 10 ltac:(lia)).
  rewrite !Nat2Z.inj_succ, !Z.pow_succ_r in * by lia.
  destruct (Z.ltb_spec n 10).
  - rewrite (proj2 (Z.eqb_eq _ _)) by lia. done.
  - rewrite (proj2 (Z.eqb_neq _ _)) by lia.
    assert (0 < k)%nat by (destruct k; [simpl in *; lia|lia]).
    assert (0 < f)%nat by (destruct f; [simpl in *; lia|lia]).
    rewrite (IH f) by lia. done.
Qed.

(** What convert leaves in the buffer. *)
Definition printed (v : Z) : bytes :=
  if v <? 0 then sdec v else map misprint (udec v).

Lemma convert_exec v : - 2 ^ 63 <= v < 2 ^ 64 -> convert v = Ok (printed v).
Proof.
  intros Hv. unfold convert, convert_fuel, printed, sdec, udec.
  destruct (Z.ltb_spec v 0) as [Hneg|Hpos].
  - replace v with (- - v) at 1 by lia.
    rewrite (convert_loop_neg 20 (dec_fuel (- v))); [|lia|unfold dec_fuel; lia|lia|].
    + cbn [mbind outcome_bind]. by rewrite rev_app_distr.
    + apply dec_fuel_enough. lia.
  - rewrite (convert_loop_pos 20 (dec_fuel v)); [|lia|unfold dec_fuel; lia|lia|].
    + cbn [mbind outcome_bind]. by rewrite app_nil_r, map_rev.
    + by apply dec_fuel_enough.
Qed.

Lemma length_printed v : - 2 ^ 63 <= v < 2 ^ 64 -> zlen (printed v) <= 20.
Proof.
  intros Hv. unfold printed, sdec, zlen. destruct (Z.ltb_spec v 0).
  - simpl. pose proof (length_udec (- v) 19 ltac:(lia) ltac:(lia)). lia.
  - rewrite length_map. pose proof (length_udec v 20 ltac:(lia) ltac:(lia)). lia.
Qed.

(** The table is right for 0 alone. *)
Lemma misprint_fix c : is_digit c = true -> misprint c = c -> c = "0"%char.
Proof.
  intros Hd. unfold misprint. case_decide; [done|]. case_decide; [by subst c|].
  intros Hc. exfalso. apply (f_equal nat_of_ascii) in Hc.
  rewrite nat_ascii_embedding in Hc; [lia|].
  unfold is_digit, char_digit in Hd. rewrite andb_true_iff, !Z.leb_le in Hd. lia.
Qed.

Lemma read_le_zeros l : Forall (fun c => c = "0"%char) l -> read_le l = 0.
Proof. induction 1 as [|c l -> _ IH]; [done|]. simpl. by rewrite IH. Qed.

Lemma misprinted v : 0 < v -> map misprint (udec v) <> udec v.
Proof.
  intros Hv Hm. pose proof (udec_digits v) as Hd. pose proof (read_udec v) as Hr.
  unfold read_u in Hr. rewrite read_le_zeros in Hr; [lia|].
  apply Forall_rev. revert Hd Hm. generalize (udec v). intros l.
  induction l as [|c l IH]; [constructor|]. intros [Hc Hl]%Forall_cons Hm.
  injection Hm as Hc' Hm. constructor; [by apply misprint_fix|auto].
Qed.

(** C37. The integer conversion, for every value of the six integer types: it
    stops, indexes the digit table inside its bounds, and leaves at most 20
    characters.  A negative number comes out as %d prints it; a non-negative one
    comes out with every digit 1..8 printed one too high and every 9 as a NUL,
    because the table lacks the 1 after the 0.  So the text is right exactly for
    zero and the negative numbers. *)
Theorem convert_spec v (Hv : - 2 ^ 63 <= v < 2 ^ 64) :
  convert v = Ok (if v <? 0 then sdec v else map misprint (udec v))
  /\ zlen (if v <? 0 then sdec v else map misprint (udec v)) <= 20
  /\ (convert v = Ok (sdec v) <-> v <= 0).
Proof.
  fold (printed v). rewrite convert_exec by done. split; [done|].
  split; [by apply length_printed|]. unfold printed.
  destruct (Z.ltb_spec v 0) as [|Hp]; [by split; [lia|]|].
  assert (sdec v = udec v) as Hs.
  { unfold sdec. by rewrite (proj2 (Z.ltb_ge v 0)). }
  rewrite Hs. split.
  - intros [= H]. destruct (decide (v <= 0)); [done|]. by destruct (misprinted v); [lia|].
  - intros Hle. assert (v = 0) as -> by lia. reflexivity.
Qed.

Lemma convert_spec_witness :
  - 2 ^ 63 <= 2024 < 2 ^ 64 /\ convert 2024 = Ok (txt "3035") /\ convert (-2024) = Ok (txt "-2024").
Proof.
  assert (- 2 ^ 63 <= 2024 < 2 ^ 64) as H by lia. split; [exact H|].
  split; [|apply (convert_spec (-2024)); lia].
  rewrite (proj1 (convert_spec 2024 H)). vm_compute. reflexivity.
Defined.

(** ** A stream refines its text *)

(** What an item stands for in the line, and the room it asks for. *)
Definition item_text (i : item) : bytes :=
  match i with
  | IBool v => txt (if v then "1" else "0")
  | ICString (Some s) => s
  | ICString None => txt "(null)"
  | IString s => s
  | IInteger v => printed v
  | IChar c => printed (Z.of_nat (nat_of_ascii c))
  end.
Definition item_room (i : item) : Z :=
  match i with
  | IInteger _ | IChar _ => kMaxnumericSize
  | _ => zlen (item_text i) + 1
  end.

(** The specification: an item goes in whole or not at all. *)
Definition spec_insert (SIZE : Z) (s : bytes) (i : item) : bytes :=
  if item_room i <=? SIZE - zlen s then s ++ item_text i else s.

Lemma append_exec SIZE s b :
  0 < SIZE < 2 ^ 31 -> length_ b < SIZE ->
  append SIZE s b
  = Ok (mkFixed (if zlen s + 1 <=? SIZE - length_ b then data b ++ s else data b)).
Proof.
  intros HS Hb. unfold append, copy_in, avail, length_ in *.
  rewrite wrapU_id by (unfold inU; zlia).
  destruct (Z.ltb_spec (zlen s) (SIZE - zlen (data b))).
  - rewrite !(proj2 (Z.leb_le _ _)) by lia. done.
  - rewrite (proj2 (Z.leb_gt _ _)) by lia. by destruct b.
Qed.

Lemma formatInteger_exec SIZE v b :
  - 2 ^ 63 <= v < 2 ^ 64 ->
  formatInteger SIZE v b
  = Ok (mkFixed (if kMaxnumericSize <=? SIZE - length_ b then data b ++ printed v else data b)).
Proof.
  intros Hv. unfold formatInteger, avail. case_match eqn:E; [|by destruct b].
  apply Z.leb_le in E. rewrite convert_exec by done. simpl.
  pose proof (length_printed v Hv). unfold kMaxnumericSize in *.
  by rewrite (proj2 (Z.leb_le _ _)) by lia.
Qed.

Lemma char_ok c : - 2 ^ 63 <= Z.of_nat (nat_of_ascii c) < 2 ^ 64.
Proof. pose proof (nat_ascii_bounded c). lia. Qed.

Lemma insert_item_exec SIZE b i :
  0 < SIZE < 2 ^ 31 -> length_ b < SIZE -> item_ok i ->
  insert_item SIZE b i = Ok (mkFixed (spec_insert SIZE (data b) i))
  /\ zlen (spec_insert SIZE (data b) i) < SIZE.
Proof.
  intros HS Hb Hi. unfold length_ in *. split.
  - destruct i as [v|[s|]|s|v|c]; cbn [insert_item];
      rewrite ?append_exec, ?formatInteger_exec by (done || apply char_ok); done.
  - unfold spec_insert. destruct (Z.leb_spec (item_room i) (SIZE - zlen (data b))); [|done].
    rewrite zlen_app. destruct i as [v|[s|]|s|v|c]; simpl in *; unfold kMaxnumericSize in *;
      try lia; [pose proof (length_printed v Hi)|pose proof (length_printed _ (char_ok c))];
      lia.
Qed.

Lemma insert_all_exec SIZE l b :
  0 < SIZE < 2 ^ 31 -> length_ b < SIZE -> (forall i, i ∈ l -> item_ok i) ->
  insert_all SIZE b l = Ok (mkFixed (foldl (spec_insert SIZE) (data b) l))
  /\ zlen (foldl (spec_insert SIZE) (data b) l) < SIZE.
Proof.
  intros HS. revert b. induction l as [|i l IH]; intros b Hb Hl; [by destruct b|].
  unfold insert_all. simpl.
  destruct (insert_item_exec SIZE b i HS Hb) as [-> Hlen]; [apply Hl; by left|].
  simpl. apply (IH (mkFixed _)); [done|]. intros. apply Hl. by right.
Qed.

(** C38. A log stream, whatever is inserted: no byte is ever written outside the
    array (the scratch digits of a number and their terminator included), each
    item goes in whole or is dropped whole, and the stream's content is that of
    the specification, never filling the array. *)
Theorem stream_refines SIZE l (HS : 0 < SIZE < 2 ^ 31) (Hl : forall i, i ∈ l -> item_ok i) :
  exists b, insert_all SIZE FixedBuffer_ctor l = Ok b
    /\ data b = foldl (spec_insert SIZE) [] l /\ length_ b < SIZE.
Proof.
  destruct (insert_all_exec SIZE l FixedBuffer_ctor HS) as [H1 H2]; [|done|].
  { unfold length_. simpl. rewrite zlen_nil. lia. }
  rewrite H1. eexists. split; [done|]. by split.
Qed.

Definition demo_items : list item :=
  [ICString (Some (txt "fd = ")); IInteger (-7); ICString None; IInteger 8].

Lemma stream_refines_witness :
  exists b, insert_all kSmallBuffer FixedBuffer_ctor demo_items = Ok b
    /\ data b = txt "fd = -7(null)9".
Proof.
  destruct (stream_refines kSmallBuffer demo_items) as (b & Hb & Hd & _).
  - unfold kSmallBuffer. lia.
  - intros i Hi. unfold demo_items in Hi. rewrite !elem_of_cons, elem_of_nil in Hi.
    destruct_or! Hi; subst i; simpl; lia.
  - exists b. split; [exact Hb|]. rewrite Hd. vm_compute. reflexivity.
Defined.
