(* ===== verification/Logging.v ===== *)
(** include/Logging.h and src/Logging.cc: one log statement.

    A statement builds a [Logger] (level filter, source file, function), inserts
    its text in the stream, and the destructor finishes the line, hands it to the
    output function and, for FATAL, flushes and aborts.  The level and the two
    functions are variables of the program, [Globals], over the state [S] the functions
    work on; the initial ones write to stdout. *)

From S2P Require Import Prelude Format LogStream.

Inductive LogLevel := DEBUG | INFO | WARN | ERROR | FATAL.

(** enum class LogLevel: DEBUG = 1, ... *)
Definition level_value (l : LogLevel) : Z :=
  match l with DEBUG => 1 | INFO => 2 | WARN => 3 | ERROR => 4 | FATAL => 5 end.

(** ** SourceFile: the part of the path behind the last '/' *)

(** strrchr(s, c) + 1, if there is one. *)
Fixpoint after_last (c : ascii) (s : bytes) : option bytes :=
  match s with
  | [] => None
  | x :: s' =>
      match after_last c s' with
      | Some r => Some r
      | None => if decide (x = c) then Some s' else None
      end
  end.

Record SourceFile := mkSource { data_ : bytes; size_ : Z }.

(** The constructor from a literal: [arr] without its terminator. *)
Definition SourceFile_literal (arr : bytes) : SourceFile :=
  match after_last "/"%char arr with
  | Some rest => mkSource rest (zlen arr - (zlen arr - zlen rest))
  | None => mkSource arr (zlen arr)
  end.

(** The constructor from a pointer. *)
Definition SourceFile_cstring (filename : bytes) : SourceFile :=
  let d := default filename (after_last "/"%char filename) in
  mkSource d (zlen d).

(** ** Logger *)

Record Logger := mkLogger {
  stream_ : FixedBuffer;
  level_ : LogLevel;
  line_ : Z;
  basename_ : SourceFile;
}.

(** Impl::Impl(level, old_errno, file, line); [strerror] is the C library's. *)
Definition Impl_ctor (strerror : Z -> bytes) (level : LogLevel) (old_errno : Z)
    (file : SourceFile) (line : Z) : outcome Logger :=
  s ← (if negb (old_errno =? 0)
       then insert_all kSmallBuffer FixedBuffer_ctor
              [ICString (Some (strerror old_errno)); ICString (Some (txt " (errno="));
               IInteger old_errno; ICString (Some (txt ") "))]
       else Ok FixedBuffer_ctor);
  Ok (mkLogger s level line file).

(** Logger(file, line, level, func), the one the LOG_ macros use. *)
Definition Logger_func strerror (file : SourceFile) (line : Z) (level : LogLevel)
    (func : bytes) : outcome Logger :=
  l ← Impl_ctor strerror level 0 file line;
  s ← insert_all kSmallBuffer (stream_ l) [ICString (Some func); IChar " "%char];
  Ok (mkLogger s level line file).

(** The other constructors. *)
Definition Logger_level strerror (file : SourceFile) (line : Z) (level : LogLevel) :=
  Impl_ctor strerror level 0 file line.
Definition Logger_default strerror (file : SourceFile) (line : Z) :=
  Impl_ctor strerror INFO 0 file line.
Definition Logger_abort strerror (errno : Z) (file : SourceFile) (line : Z)
    (level : LogLevel) (toAbort : bool) :=
  Impl_ctor strerror level errno file line.

(** Impl::finish() *)
Definition finish (l : Logger) : outcome Logger :=
  s ← insert_all kSmallBuffer (stream_ l)
        [ICString (Some (txt " - ")); ICString (Some (data_ (basename_ l)));
         IChar ":"%char; IInteger (line_ l); IChar "010"%char];
  Ok (mkLogger s (level_ l) (line_ l) (basename_ l)).

(** ** The variables of the program *)

Record Globals (S : Type) := mkGlobals {
  g_logLevel : LogLevel;
  g_output : bytes -> S -> S;
  g_flush : S -> S;
}.
Arguments mkGlobals {S}.
Arguments g_logLevel {S}.
Arguments g_output {S}.
Arguments g_flush {S}.

Section globals.
Context {S : Type}.
Implicit Types (g : Globals S) (st : S).

Definition loglevel g : LogLevel := g_logLevel g.
Definition setLogLevel (level : LogLevel) g := mkGlobals level (g_output g) (g_flush g).
Definition setOutPut (fn : bytes -> S -> S) g := mkGlobals (g_logLevel g) fn (g_flush g).
Definition setFlush (fn : S -> S) g := mkGlobals (g_logLevel g) (g_output g) fn.

(** ~Logger(): the output function gets the line; FATAL flushes and aborts. *)
Definition Logger_dtor g (l : Logger) (st : S) : S * outcome unit :=
  match finish l with
  | Fault f => (st, Fault f)
  | Ok l =>
      let st := g_output g (toString (stream_ l)) st in
      match level_ l with
      | FATAL => (g_flush g st, Fault FAbort)
      | _ => (st, Ok tt)
      end
  end.

(** The guard of LOG_INFO and LOG_DEBUG; the other macros have none. *)
Definition macro_enabled (g_logLevel level : LogLevel) : bool :=
  match level with
  | INFO | DEBUG => level_value g_logLevel <=? level_value level
  | WARN | ERROR | FATAL => true
  end.

(** LOG_x << items; *)
Definition log strerror g (path : bytes) (line : Z) (level : LogLevel) (func : bytes)
    (items : list item) (st : S) : S * outcome unit :=
  if macro_enabled (loglevel g) level
  then
    match (l ← Logger_func strerror (SourceFile_literal path) line level func;
           s ← insert_all kSmallBuffer (stream_ l) items;
           Ok (mkLogger s level line (basename_ l))) with
    | Ok l => Logger_dtor g l st
    | Fault f => (st, Fault f)
    end
  else (st, Ok tt).
End globals.

(** stdout, with how much of it fflush has seen; [fwrite] says how many bytes of its
    argument fwrite(3) takes, which the output function ignores. *)
Record stdout_stream := mkStdout { out_bytes : bytes; out_flushed : Z }.

Definition initial_globals (fwrite : bytes -> Z) : Globals stdout_stream :=
  mkGlobals DEBUG
    (fun msg o => mkStdout (out_bytes o ++ take (Z.to_nat (fwrite msg)) msg) (out_flushed o))
    (fun o => mkStdout (out_bytes o) (zlen (out_bytes o))).

(** Functions that record what they are given. *)
Definition recorder (level : LogLevel) : Globals (list bytes) :=
  mkGlobals level (fun msg ls => ls ++ [msg]) id.

(** A log statement of the program, and what it gives the output function. *)
Record statement := mkStatement {
  s_path : bytes; s_line : Z; s_level : LogLevel; s_func : bytes; s_items : list item;
}.

Definition statement_lines strerror (level : LogLevel) (s : statement) : list bytes :=
  (log strerror (recorder level) (s_path s) (s_line s) (s_level s) (s_func s) (s_items s) []).1.

(** ** Lemmas *)

(** The stream's buffer bounds every line. *)
Lemma statement_lines_short strerror g s l :
  l ∈ statement_lines strerror g s -> zlen l < kSmallBuffer.
Proof.
  unfold statement_lines, log. destruct (macro_enabled _ _); [|by rewrite elem_of_nil].
  destruct (_ ← _; _) as [lg|] eqn:E; [|by rewrite elem_of_nil].
  apply bind_ok in E as (l1 & H1 & (s2 & H2 & E)%bind_ok). injection E as <-.
  unfold Logger_dtor, finish. simpl.
  destruct (insert_all kSmallBuffer s2 _) as [s3|] eqn:H3; simpl; [|by rewrite elem_of_nil].
  unfold Logger_func, Impl_ctor in H1. simpl in H1.
  apply bind_ok in H1 as (s1 & H1 & E). injection E as <-.
  assert (length_ s3 < kSmallBuffer) as Hs3.
  { do 3 (eapply insert_all_lt; [done| |eassumption]). done. }
  destruct (s_level s); simpl; rewrite list_elem_of_singleton; intros ->; exact Hs3.
Qed.

(** The file name of a path: it has no '/', and a directory may precede it. *)
Lemma after_last_spec c s :
  match after_last c s with
  | Some r => (exists d, s = d ++ c :: r) /\ c ∉ r
  | None => c ∉ s
  end.
Proof.
  induction s as [|x s IH]; simpl; [by apply not_elem_of_nil|].
  destruct (after_last c s) as [r|].
  - destruct IH as [[d ->] Hr]. split; [|done]. by exists (x :: d).
  - case_decide as Hx.
    + subst x. split; [|done]. by exists [].
    + by apply not_elem_of_cons.
Qed.

Lemma SourceFile_agree arr : SourceFile_literal arr = SourceFile_cstring arr.
Proof.
  unfold SourceFile_literal, SourceFile_cstring. destruct (after_last _ arr); simpl; [|done].
  f_equal. lia.
Qed.

(** Everything one statement inserts. *)
Definition line_items (path : bytes) (line : Z) (func : bytes) (items : list item) :
    list item :=
  [ICString (Some func); IChar " "%char] ++ items
  ++ [ICString (Some (txt " - ")); ICString (Some (data_ (SourceFile_literal path)));
      IChar ":"%char; IInteger line; IChar "010"%char].

Lemma insert_all_app SIZE b l k :
  insert_all SIZE b (l ++ k) = (b ← insert_all SIZE b l; insert_all SIZE b k).
Proof. apply mfold_app. Qed.

#[local] Arguments insert_all : simpl never.

(** C39. A log statement that passes the level filter hands exactly one line to
    the output function in use, never outside the stream's array, and returns, except
    that FATAL calls the flush function and aborts after its line is out.  The line is
    the specification's insertion of the function name, the text, and the file name
    and line number; a filtered statement does nothing. *)
Theorem log_spec {S} strerror (g : Globals S) path line level func items st
    (Hline : - 2 ^ 31 <= line < 2 ^ 31) (Hitems : forall i, i ∈ items -> item_ok i) :
  let text := foldl (spec_insert kSmallBuffer) [] (line_items path line func items) in
  log strerror g path line level func items st
  = if macro_enabled (g_logLevel g) level
    then match level with
         | FATAL => (g_flush g (g_output g text st), Fault FAbort)
         | _ => (g_output g text st, Ok tt)
         end
    else (st, Ok tt).
Proof.
  intros text. unfold log, loglevel. destruct (macro_enabled _ level); [|done].
  assert (exists b, insert_all kSmallBuffer FixedBuffer_ctor (line_items path line func items)
    = Ok b /\ data b = text) as (b & Hb & Hd).
  { destruct (insert_all_exec kSmallBuffer (line_items path line func items) FixedBuffer_ctor)
      as [H _]; [unfold kSmallBuffer; lia|done| |eauto].
    intros i. unfold line_items. rewrite !elem_of_app, !elem_of_cons, elem_of_nil.
    intros [Hi|[Hi|Hi]]; [|by apply Hitems|]; destruct_or! Hi; subst i; simpl; done || lia. }
  unfold line_items in Hb. rewrite insert_all_app in Hb. apply bind_ok in Hb as (b1 & H1 & Hb).
  rewrite insert_all_app in Hb. apply bind_ok in Hb as (b2 & H2 & H3).
  unfold Logger_func, Impl_ctor. simpl.
  rewrite H1. simpl. rewrite H2. simpl. unfold Logger_dtor, finish. simpl.
  simpl in H3. rewrite H3. simpl. unfold toString. rewrite Hd. by destruct level.
Qed.

Definition demo_text : list item := [ICString (Some (txt "fd = ")); IInteger 5].

(** The space after the function name comes out as the number 32, misprinted; so
    do the colon and the newline, which are the numbers 58 and 10. *)
Lemma log_spec_witness :
  log (fun _ => []) (initial_globals zlen) (txt "src/EventLoop.cc") 42 INFO (txt "loop")
    demo_text (mkStdout [] 0)
  = (mkStdout (txt "loop43fd = 6 - EventLoop.cc695320") 0, Ok tt).
Proof.
  rewrite (log_spec (fun _ => []) (initial_globals zlen) (txt "src/EventLoop.cc") 42 INFO
    (txt "loop") demo_text (mkStdout [] 0)).
  - vm_compute. reflexivity.
  - lia.
  - intros i Hi. unfold demo_text in Hi. rewrite !elem_of_cons, elem_of_nil in Hi.
    destruct_or! Hi; subst i; simpl; lia.
Defined.
