(* ===== verification/AsyncLogging.v ===== *)
(** include/AsyncLogging.h and src/AsyncLogging.cc: double buffering between the
    threads that log and the thread that writes.

    The critical sections are atomic steps, in any interleaving: append on the
    front end, and on the back end the swap under the mutex (whatever wait_for
    reported) followed by the writing outside it.  A std::unique_ptr is an
    option, [None] once moved from; dereferencing it then is [FNullDeref], and
    back() or pop_back() on an empty vector is [FEmptyVector].  The size of the
    large buffers is a parameter.

    [accepted] records the bytes append put in a buffer, [dropped] whether the
    back end ever discarded buffers, [written] what it handed to the LogFile. *)

From S2P Require Import Prelude LogStream.

Abbreviation BufferPtr := (option FixedBuffer).

(** *ptr, on a std::unique_ptr. *)
Definition deref (p : BufferPtr) : outcome FixedBuffer :=
  match p with Some b => Ok b | None => Fault FNullDeref end.

(** What the two ends share. *)
Record AsyncLogging := mkAsync {
  running_ : bool;
  currentBuffer_ : BufferPtr;
  nextBuffer_ : BufferPtr;
  buffers_ : list BufferPtr;
  accepted : bytes;                 (* ghost *)
}.

(** The locals of threadFunc. *)
Record Backend := mkBackend {
  newBuffer1 : BufferPtr;
  newBuffer2 : BufferPtr;
  buffersToWrite : list BufferPtr;
  written : list bytes;             (* the calls output.append(data, length) *)
  dropped : bool;                   (* ghost *)
}.

Definition AsyncLogging_ctor : AsyncLogging :=
  mkAsync false (Some FixedBuffer_ctor) (Some FixedBuffer_ctor) [] [].

Definition start_backend : Backend :=
  mkBackend (Some FixedBuffer_ctor) (Some FixedBuffer_ctor) [] [] false.

(** start() and stop(), as far as the flag is concerned. *)
Definition set_running (b : bool) (a : AsyncLogging) : AsyncLogging :=
  mkAsync b (currentBuffer_ a) (nextBuffer_ a) (buffers_ a) (accepted a).

Section methods.
Variable SIZE : Z.

(** buffer->append(logline, len), with the bytes that went in. *)
Definition append_to (line : bytes) (b : FixedBuffer) : outcome (FixedBuffer * bytes) :=
  b' ← append SIZE line b;
  Ok (b', drop (length (data b)) (data b')).

(** AsyncLogging::append, under the mutex. *)
Definition append_line (line : bytes) (a : AsyncLogging) : outcome AsyncLogging :=
  cur ← deref (currentBuffer_ a);
  if zlen line <? avail SIZE cur
  then
    '(cur, d) ← append_to line cur;
    Ok (mkAsync (running_ a) (Some cur) (nextBuffer_ a) (buffers_ a) (accepted a ++ d))
  else
    let buffers := buffers_ a ++ [currentBuffer_ a] in
    let '(cur, next) :=
      match nextBuffer_ a with
      | Some b => (Some b, None)
      | None => (Some FixedBuffer_ctor, None)
      end in
    cur ← deref cur;
    '(cur, d) ← append_to line cur;
    Ok (mkAsync (running_ a) (Some cur) next buffers (accepted a ++ d)).

(** The critical section of threadFunc. *)
Definition swap (a : AsyncLogging) (t : Backend) : AsyncLogging * Backend :=
  let buffers := buffers_ a ++ [currentBuffer_ a] in
  let cur := newBuffer1 t in
  let '(buffers, toWrite) := (buffersToWrite t, buffers) in
  match nextBuffer_ a with
  | Some _ =>
      (mkAsync (running_ a) cur (nextBuffer_ a) buffers (accepted a),
       mkBackend None (newBuffer2 t) toWrite (written t) (dropped t))
  | None =>
      (mkAsync (running_ a) cur (newBuffer2 t) buffers (accepted a),
       mkBackend None None toWrite (written t) (dropped t))
  end.

(** Too many buffers: all but the first two are thrown away. *)
Definition drop_excess (t : Backend) : Backend :=
  if 25 <? zlen (buffersToWrite t)
  then mkBackend (newBuffer1 t) (newBuffer2 t) (take 2 (buffersToWrite t)) (written t) true
  else t.

(** for(const auto& buffer : buffersToWrite) output.append(...) *)
Definition write_one (out : list bytes) (p : BufferPtr) : outcome (list bytes) :=
  b ← deref p; Ok (out ++ [data b]).

(** std::move(v.back()); v.pop_back(); p->reset() *)
Definition take_back (v : list BufferPtr) : outcome (BufferPtr * list BufferPtr) :=
  match rev v with
  | [] => Fault FEmptyVector
  | p :: l => b ← deref p; Ok (Some (reset b), rev l)
  end.

(** if(!p) p = a buffer of v *)
Definition refill (p : BufferPtr) (v : list BufferPtr) : outcome (BufferPtr * list BufferPtr) :=
  match p with Some _ => Ok (p, v) | None => take_back v end.

(** The rest of the loop body, outside the mutex. *)
Definition write_out (t : Backend) : outcome Backend :=
  let t := drop_excess t in
  out ← mfold write_one (written t) (buffersToWrite t);
  let v := if 2 <? zlen (buffersToWrite t) then take 2 (buffersToWrite t)
           else buffersToWrite t in
  '(n1, v) ← refill (newBuffer1 t) v;
  '(n2, v) ← refill (newBuffer2 t) v;
  Ok (mkBackend n1 n2 [] out (dropped t)).

(** ** The two ends together *)

(** Where the back end is: testing running_, at the critical section, writing,
    or finished. *)
Inductive pc := AtTest | AtSwap | AtWrite | Finished.

Definition config := (AsyncLogging * Backend * pc)%type.

Inductive step : config -> config -> Prop :=
| step_append line a a' t p :
    append_line line a = Ok a' -> step (a, t, p) (a', t, p)
| step_stop a t p : step (a, t, p) (set_running false a, t, p)
| step_test a t :
    step (a, t, AtTest) (a, t, if running_ a then AtSwap else Finished)
| step_swap a t : step (a, t, AtSwap) (swap a t, AtWrite)
| step_write a t t' : write_out t = Ok t' -> step (a, t, AtWrite) (a, t', AtTest).

(** No thread is about to do something undefined. *)
Definition no_fault_next (c : config) : Prop :=
  let '(a, t, p) := c in
  (forall line, is_ok (append_line line a) = true)
  /\ (p = AtWrite -> is_ok (write_out t) = true).

(** The bytes of buffers. *)
Definition bytes_of (p : BufferPtr) : bytes := match p with Some b => data b | None => [] end.
Definition all_bytes (v : list BufferPtr) : bytes := concat (map bytes_of v).

(** What is still on its way to the file. *)
Definition in_flight (c : config) : bytes :=
  let '(a, t, _) := c in
  all_bytes (buffersToWrite t) ++ all_bytes (buffers_ a) ++ bytes_of (currentBuffer_ a).

Definition is_buf (p : BufferPtr) : Prop := exists b, p = Some b /\ length_ b < SIZE.
Definition is_empty_buf (p : BufferPtr) : Prop := p = Some (mkFixed []).

Record front_inv (a : AsyncLogging) : Prop := {
  a_current : is_buf (currentBuffer_ a);
  a_next : nextBuffer_ a = None \/ is_empty_buf (nextBuffer_ a);
  a_buffers : Forall is_buf (buffers_ a);
  a_full : nextBuffer_ a = None -> buffers_ a <> [];
}.

Record back_inv (t : Backend) (p : pc) : Prop := {
  b_idle : p <> AtWrite ->
    is_empty_buf (newBuffer1 t) /\ is_empty_buf (newBuffer2 t) /\ buffersToWrite t = [];
  b_busy : p = AtWrite ->
    newBuffer1 t = None /\ Forall is_buf (buffersToWrite t)
    /\ ((is_empty_buf (newBuffer2 t) /\ (1 <= length (buffersToWrite t))%nat)
        \/ (newBuffer2 t = None /\ (2 <= length (buffersToWrite t))%nat));
}.

(** Where the accepted bytes are. *)
Definition stream_ok (c : config) : Prop :=
  let '(a, t, p) := c in
  let all := concat (written t) ++ in_flight c in
  if dropped t then all `sublist_of` accepted a else all = accepted a.

Definition async_inv (c : config) : Prop :=
  let '(a, t, p) := c in front_inv a /\ back_inv t p /\ stream_ok c.
End methods.

(** ** Lemmas *)

Lemma all_bytes_app v w : all_bytes (v ++ w) = all_bytes v ++ all_bytes w.
Proof. unfold all_bytes. by rewrite map_app, concat_app. Qed.

Lemma all_bytes_one p : all_bytes [p] = bytes_of p.
Proof. apply app_nil_r. Qed.

Section proofs.
Context (SIZE : Z) (HS : 0 < SIZE < 2 ^ 31).

Lemma is_buf_empty p : is_empty_buf p -> is_buf SIZE p.
Proof. intros ->. eexists. split; [done|]. unfold length_. simpl. rewrite zlen_nil. lia. Qed.

Lemma append_to_ok line b :
  length_ b < SIZE ->
  exists b' d, append_to SIZE line b = Ok (b', d) /\ length_ b' < SIZE
    /\ data b' = data b ++ d /\ d = (if zlen line <? avail SIZE b then line else []).
Proof.
  intros Hb. unfold append_to. rewrite append_exec by done. simpl. unfold avail.
  destruct (Z.ltb_spec (zlen line) (SIZE - length_ b)) as [Hl|Hl].
  - rewrite (proj2 (Z.leb_le _ _)) by lia. eexists _, line. rewrite drop_app_length.
    split_and!; try done. unfold length_ in *. simpl. rewrite zlen_app. lia.
  - rewrite (proj2 (Z.leb_gt _ _)) by lia. eexists _, []. rewrite drop_all.
    split_and!; try done. simpl. by rewrite app_nil_r.
Qed.

(** append never faults; the line goes in whole, or is dropped whole when it does
    not fit in an empty buffer. *)
Lemma append_line_ok line a :
  front_inv SIZE a ->
  exists a' d, append_line SIZE line a = Ok a' /\ front_inv SIZE a'
    /\ accepted a' = accepted a ++ d /\ d = (if zlen line <? SIZE then line else [])
    /\ running_ a' = running_ a
    /\ all_bytes (buffers_ a') ++ bytes_of (currentBuffer_ a')
       = (all_bytes (buffers_ a) ++ bytes_of (currentBuffer_ a)) ++ d.
Proof.
  intros [(cur & Hcur & Hlen) Hnext Hbufs Hfull]. unfold append_line. rewrite Hcur. simpl.
  unfold length_ in Hlen.
  destruct (zlen line <? avail SIZE cur) eqn:Hfit.
  - destruct (append_to_ok line cur Hlen) as (b' & d & -> & Hl' & Hd & Hdd). simpl.
    rewrite Hfit in Hdd. subst d. eexists _, line. split; [done|]. split.
    { split; simpl; try done. by exists b'. }
    split; [done|]. apply Z.ltb_lt in Hfit. unfold avail, length_ in Hfit.
    pose proof (zlen_nonneg (data cur)).
    rewrite (proj2 (Z.ltb_lt _ _)) by lia. split_and!; try done.
    simpl. by rewrite Hd, app_assoc.
  - assert (exists cur2, (match nextBuffer_ a with
      | Some b => (Some b, None) | None => (Some FixedBuffer_ctor, @None FixedBuffer) end)
      = (Some cur2, None) /\ data cur2 = []) as (cur2 & -> & Hd2).
    { destruct Hnext as [->| ->]; eauto. }
    simpl. assert (length_ cur2 < SIZE) as Hl2
      by (unfold length_; rewrite Hd2, zlen_nil; lia).
    destruct (append_to_ok line cur2 Hl2) as (b' & d & -> & Hl' & Hd & Hdd). simpl.
    eexists _, d. split; [done|]. split; [split; simpl|].
    + by exists b'.
    + by left.
    + apply Forall_app. split; [done|]. apply Forall_singleton. by exists cur.
    + intros _ Hn. apply (f_equal length) in Hn. rewrite length_app in Hn. simpl in Hn. lia.
    + split; [done|]. split.
      { rewrite Hdd. unfold avail, length_. rewrite Hd2, zlen_nil. by rewrite Z.sub_0_r. }
      split; [done|]. simpl. rewrite all_bytes_app, all_bytes_one, Hd, Hd2. done.
Qed.

Lemma write_loop_ok out v :
  Forall (is_buf SIZE) v -> mfold write_one out v = Ok (out ++ map bytes_of v).
Proof.
  revert out. induction v as [|p v IH]; intros out Hv; simpl.
  { by rewrite app_nil_r. }
  apply Forall_cons in Hv as [(b & -> & _) Hv]. simpl.
  by rewrite (IH (out ++ [data b]) Hv), <- app_assoc.
Qed.

Lemma take_back_ok v :
  Forall (is_buf SIZE) v -> v <> [] ->
  exists p w, take_back v = Ok (p, w) /\ is_empty_buf p /\ Forall (is_buf SIZE) w
    /\ length v = S (length w).
Proof.
  intros Hv Hne. unfold take_back.
  destruct (rev v) as [|p l] eqn:Hr.
  { apply (f_equal (@rev _)) in Hr. by rewrite rev_involutive in Hr. }
  apply Forall_rev in Hv. rewrite Hr in Hv. apply Forall_cons in Hv as [(b & -> & _) Hl].
  simpl. eexists _, (rev l). split; [done|]. split; [done|]. split; [by apply Forall_rev|].
  rewrite length_rev. apply (f_equal length) in Hr. by rewrite length_rev in Hr.
Qed.

Lemma drop_excess_ok t :
  Forall (is_buf SIZE) (buffersToWrite t) ->
  let t' := drop_excess t in
  Forall (is_buf SIZE) (buffersToWrite t')
  /\ (Nat.min 2 (length (buffersToWrite t)) <= length (buffersToWrite t'))%nat
  /\ newBuffer1 t' = newBuffer1 t /\ newBuffer2 t' = newBuffer2 t /\ written t' = written t
  /\ (dropped t' = false -> dropped t = false /\ buffersToWrite t' = buffersToWrite t)
  /\ all_bytes (buffersToWrite t') `sublist_of` all_bytes (buffersToWrite t).
Proof.
  intros Hv. unfold drop_excess. destruct (25 <? _);
    cbn [buffersToWrite newBuffer1 newBuffer2 written dropped]; split_and!; try done; try lia.
  - by apply Forall_take.
  - rewrite length_take. lia.
  - rewrite <- (take_drop 2 (buffersToWrite t)) at 2. rewrite all_bytes_app.
    apply sublist_inserts_r. done.
Qed.

(** Writing never faults: there are buffers enough to replace the two the critical
    section gave away, also after some have been dropped. *)
Lemma write_out_ok t :
  back_inv SIZE t AtWrite ->
  exists t', write_out t = Ok t' /\ back_inv SIZE t' AtTest
    /\ written t' = written t ++ map bytes_of (buffersToWrite (drop_excess t))
    /\ concat (written t') `sublist_of` concat (written t) ++ all_bytes (buffersToWrite t)
    /\ (dropped t' = false -> dropped t = false
          /\ concat (written t') = concat (written t) ++ all_bytes (buffersToWrite t))
    /\ (dropped t = true -> dropped t' = true).
Proof.
  intros [_ Hbusy]. destruct (Hbusy eq_refl) as (H1 & Hv & H2).
  destruct (drop_excess_ok t Hv) as (Hv' & Hlen & E1 & E2 & Ew & Hdr & Hsub).
  assert (dropped t = true -> dropped (drop_excess t) = true) as Hmono
    by (unfold drop_excess; by destruct (25 <? _)).
  unfold write_out. set (t1 := drop_excess t) in *.
  rewrite (write_loop_ok (written t1) _ Hv'). simpl.
  set (v := if 2 <? _ then _ else _).
  assert (Forall (is_buf SIZE) v /\ (Nat.min 2 (length (buffersToWrite t)) <= length v)%nat)
    as [Hvb Hvl].
  { subst v. destruct (2 <? _); [|done]. split; [by apply Forall_take|].
    rewrite length_take. lia. }
  clearbody v. rewrite E1, E2, H1. simpl.
  destruct (take_back_ok v Hvb) as (p1 & w1 & -> & Hp1 & Hw1 & Hl1).
  { intros ->. cbn [length] in Hvl. destruct H2 as [[_ ?]|[_ ?]]; lia. }
  simpl.
  assert (exists p2 w2, refill (newBuffer2 t) w1 = Ok (p2, w2) /\ is_empty_buf p2)
    as (p2 & w2 & -> & Hp2).
  { destruct H2 as [[-> _]|[-> Hlen2]]; [by eexists _, _|]. simpl.
    destruct (take_back_ok w1 Hw1) as (p2 & w2 & -> & ? & _); [|by eexists _, _].
    intros ->. cbn [length] in Hl1. lia. }
  simpl. eexists. split; [done|]. split; [by split|]. simpl.
  rewrite Ew. split; [done|]. rewrite concat_app. fold (all_bytes (buffersToWrite t1)).
  split_and!; [by apply sublist_app| |done].
  intros Hd. destruct (Hdr Hd) as [? ->]. done.
Qed.

Lemma swap_ok a t :
  front_inv SIZE a -> back_inv SIZE t AtSwap ->
  let '(a', t') := swap a t in
  front_inv SIZE a' /\ back_inv SIZE t' AtWrite
  /\ accepted a' = accepted a /\ written t' = written t /\ dropped t' = dropped t
  /\ in_flight (a', t', AtWrite) = in_flight (a, t, AtSwap).
Proof.
  intros [Hcur Hnext Hbufs Hfull] [Hidle _].
  destruct (Hidle ltac:(done)) as (H1 & H2 & H3). unfold swap, in_flight. rewrite H1, H3.
  assert (Forall (is_buf SIZE) (buffers_ a ++ [currentBuffer_ a])) as Hv
    by (apply Forall_app; split; [done|by apply Forall_singleton]).
  assert (is_buf SIZE (Some (mkFixed []))) as Hb by by apply is_buf_empty.
  assert (all_bytes (buffers_ a ++ [currentBuffer_ a]) ++ [] ++ []
    = [] ++ all_bytes (buffers_ a) ++ bytes_of (currentBuffer_ a)) as Hbytes
    by (rewrite all_bytes_app, all_bytes_one; by rewrite !app_nil_r).
  assert (forall r acc, front_inv SIZE
    (mkAsync r (Some (mkFixed [])) (Some (mkFixed [])) [] acc)) as Hf.
  { intros r acc. split; simpl; [done|by right|constructor|done]. }
  assert (length (buffers_ a ++ [currentBuffer_ a]) = S (length (buffers_ a))) as Hl
    by (rewrite length_app; simpl; lia).
  destruct Hnext as [Hn|Hn]; rewrite Hn; cbn [running_ accepted written dropped
    buffersToWrite buffers_ currentBuffer_ newBuffer2].
  - rewrite H2. split_and!; try done. split; [done|]. intros _. split; [done|].
    split; [done|]. right. split; [done|]. cbn [buffersToWrite]. rewrite Hl.
    destruct (buffers_ a) eqn:E; [by specialize (Hfull Hn)|]. simpl. lia.
  - split_and!; try done. split; [done|]. intros _. split; [done|]. split; [done|].
    left. split; [done|]. cbn [buffersToWrite]. rewrite Hl. lia.
Qed.
End proofs.

(** ** Every interleaving *)

Definition start_config : config :=
  (set_running true AsyncLogging_ctor, start_backend, AtTest).

Section interleavings.
Context (SIZE : Z) (HS : 0 < SIZE < 2 ^ 31).

Lemma async_start_inv : async_inv SIZE start_config.
Proof.
  assert (is_buf SIZE (Some (mkFixed []))) by (by apply is_buf_empty).
  split; [|split].
  - split; simpl; [done|by right|constructor|done].
  - split; [by intros _|done].
  - done.
Qed.

Lemma step_async_inv c c' : async_inv SIZE c -> step SIZE c c' -> async_inv SIZE c'.
Proof.
  intros Hinv Hstep. destruct Hstep as [line a a' t p Happ|a t p|a t|a t|a t t' Hw];
    destruct Hinv as (Ha & Hb & Hs).
  - destruct (append_line_ok SIZE HS line a Ha) as (a'' & d & Hx & Ha' & Hacc & _ & _ & Hby).
    rewrite Happ in Hx. injection Hx as <-. split; [done|]. split; [done|].
    unfold stream_ok, in_flight in *. rewrite Hacc, Hby, !app_assoc in *.
    destruct (dropped t); [by apply sublist_app|by rewrite <- Hs].
  - split; [by destruct Ha; split|]. by split.
  - split; [done|]. split; [|done]. destruct Hb as [Hidle _].
    split; [intros _; by apply Hidle|]. by destruct (running_ a).
  - pose proof (swap_ok SIZE HS a t Ha Hb) as Hswap. destruct (swap a t) as [a' t'].
    destruct Hswap as (Ha' & Hb' & Hacc & Hwr & Hdr & Hfl).
    split; [done|]. split; [done|].
    unfold stream_ok in *. rewrite Hwr, Hdr, Hfl, Hacc. done.
  - destruct (write_out_ok SIZE t Hb) as (t'' & Hx & Hb' & _ & Hsub & Hnd & Hmono).
    rewrite Hw in Hx. injection Hx as <-. split; [done|]. split; [done|].
    assert (buffersToWrite t' = []) as Hnil by by apply Hb'.
    unfold stream_ok, in_flight in *. rewrite Hnil. simpl. rewrite app_assoc in Hs.
    destruct (dropped t') eqn:Hd.
    + assert (concat (written t') ++ all_bytes (buffers_ a) ++ bytes_of (currentBuffer_ a)
        `sublist_of` (concat (written t) ++ all_bytes (buffersToWrite t))
                     ++ all_bytes (buffers_ a) ++ bytes_of (currentBuffer_ a)) as Hx
        by by apply sublist_app.
      destruct (dropped t); [by etrans|by rewrite <- Hs].
    + destruct (Hnd eq_refl) as [Hd0 ->]. by rewrite Hd0 in Hs.
Qed.

Lemma reach_inv c : rtc (step SIZE) start_config c -> async_inv SIZE c.
Proof.
  assert (forall c1 c2, rtc (step SIZE) c1 c2 -> async_inv SIZE c1 -> async_inv SIZE c2) as H.
  { induction 1; [done|]. intros. by eapply IHrtc, step_async_inv. }
  intros Hr. eapply H; [exact Hr|apply async_start_inv].
Qed.
End interleavings.

(** Asynchronous logging, in every interleaving of appends, stop and the back
    end.  No moved-from buffer is ever dereferenced and no empty vector popped,
    whatever is appended next and wherever the back end is.  What was handed to
    the file, followed by what is on its way, is what the appends put in
    buffers, in order; once the back end has discarded buffers, it is a
    subsequence of it. *)
Theorem async_safe SIZE c (HS : 0 < SIZE < 2 ^ 31)
    (Hreach : rtc (step SIZE) start_config c) :
  no_fault_next SIZE c
  /\ let '(a, t, _) := c in
     if dropped t then concat (written t) ++ in_flight c `sublist_of` accepted a
     else concat (written t) ++ in_flight c = accepted a.
Proof.
  pose proof (reach_inv SIZE HS c Hreach) as Hinv. destruct c as [[a t] p].
  destruct Hinv as (Ha & Hb & Hs). split; [|done]. split.
  - intros line. by destruct (append_line_ok SIZE HS line a Ha) as (a' & d & -> & _).
  - intros ->. by destruct (write_out_ok SIZE t Hb) as (t' & -> & _).
Qed.

(** A run with buffers of 8 bytes: three appends, of which two overflow a buffer,
    one round of the back end, a last append, and stop. *)
Definition demo_run : list (config -> option config) :=
  let app l := fun '(a, t, p) =>
    match append_line 8 (txt l) a with Ok a' => Some (a', t, p) | Fault _ => None end in
  [app "one..";
   app "two..";
   (fun '(a, t, p) => Some (a, t, AtSwap));
   app "three";
   (fun '(a, t, p) => let '(a', t') := swap a t in Some (a', t', AtWrite));
   (fun '(a, t, p) => match write_out t with Ok t' => Some (a, t', AtTest) | _ => None end);
   app "last";
   (fun '(a, t, p) => Some (set_running false a, t, p));
   (fun '(a, t, p) => Some (a, t, Finished))].

Definition demo_end : option config :=
  foldl (fun c f => c ≫= f) (Some start_config) demo_run.

Lemma demo_end_facts :
  (fun '(a, t, p) => (concat (written t), in_flight (a, t, p), accepted a, p)) <$> demo_end
  = Some (txt "one..two..three", txt "last", txt "one..two..threelast", Finished).
Proof. vm_compute. reflexivity. Qed.

(** Its end is reachable. *)
Lemma demo_end_reached : exists c, demo_end = Some c /\ rtc (step 8) start_config c.
Proof.
  destruct demo_end as [c|] eqn:E; [|by vm_compute in E]. exists c. split; [done|].
  vm_compute in E. injection E as <-.
  eapply rtc_l; [apply (step_append 8 (txt "one..")); vm_compute; reflexivity|].
  eapply rtc_l; [apply (step_append 8 (txt "two..")); vm_compute; reflexivity|].
  eapply rtc_l; [apply step_test|].
  eapply rtc_l; [apply (step_append 8 (txt "three")); vm_compute; reflexivity|].
  eapply rtc_l; [apply step_swap|].
  eapply rtc_l; [apply step_write; vm_compute; reflexivity|].
  eapply rtc_l; [apply (step_append 8 (txt "last")); vm_compute; reflexivity|].
  eapply rtc_l; [apply step_stop|].
  eapply rtc_l; [apply step_test|].
  apply rtc_refl.
Qed.

Lemma async_safe_witness :
  exists a t, rtc (step 8) start_config (a, t, Finished)
    /\ no_fault_next 8 (a, t, Finished)
    /\ concat (written t) ++ in_flight (a, t, Finished) = accepted a
    /\ concat (written t) = txt "one..two..three" /\ accepted a = txt "one..two..threelast".
Proof.
  destruct demo_end_reached as ([[a t] p] & He & Hr).
  pose proof demo_end_facts as Hf. rewrite He in Hf. simpl in Hf. injection Hf as Hw _ Ha ->.
  destruct (async_safe 8 (a, t, Finished)) as [Hn Hs]; [lia|exact Hr|].
  exists a, t. split; [exact Hr|]. split; [exact Hn|]. split; [|split; [exact Hw|exact Ha]].
  destruct (dropped t) eqn:Hd; [|exact Hs].
  exfalso. assert (dropped <$> (snd ∘ fst <$> demo_end) = Some false) as Hx
    by (vm_compute; reflexivity).
  rewrite He in Hx. simpl in Hx. rewrite Hd in Hx. discriminate.
Defined.
