(* ===== verification/LogFile.v ===== *)
(** include/LogFile.h and src/LogFile.cc: the file that log lines are appended to,
    and the rules that start a new one.

    Outside the program, and parameters: fopen(3), the result of the k-th
    fwrite_unlocked(3) with ferror(3) after it, and the readings of time(2).  The
    files are kept with what was written to them, the one in use last, and with how
    much of it has left the stream's buffer by fflush(3) or fclose(3).  The mutex only
    matters between threads: one call is one step. *)

From S2P Require Import Prelude Format.

(** The result of one fwrite_unlocked: the number of bytes, and ferror. *)
Record fwrite_result := mkFwrite { fw_n : Z; fw_error : bool }.

(** The standard library's part: it takes at most what it is given, and a short
    count comes with an error unless some bytes went in. *)
Definition fwrite_ok (fwrite : nat -> bytes -> fwrite_result) : Prop :=
  forall k d, 0 <= fw_n (fwrite k d) <= zlen d
    /\ (fw_n (fwrite k d) < zlen d -> fw_error (fwrite k d) = true \/ 0 < fw_n (fwrite k d)).

Record AppendFile := mkFile {
  filename : bytes;
  contents : bytes;       (* what was written to it *)
  writtenBytes_ : Z;
  synced : Z;             (* the length of contents at the last fflush or fclose *)
}.

Record LogFile := mkLogFile {
  basename_ : bytes;
  rollSize_ : Z;
  flushInterval_ : Z;
  checkEveryM_ : Z;
  count_ : Z;
  startOfPeriod_ : Z;
  lastRoll_ : Z;
  lastFlush_ : Z;
  file_ : option AppendFile;
  closed : list AppendFile;   (* the files used before *)
  fwrites : nat;              (* calls of fwrite so far *)
  readings : nat;             (* calls of time so far *)
}.

Definition kRollPerseconds_ : Z := 60 * 60 * 24.

Section methods.
Variable fopen : bytes -> bool.
Variable fwrite : nat -> bytes -> fwrite_result.
Variable time : nat -> Z.
Implicit Types (f : LogFile).

Definition set_file x k f := mkLogFile (basename_ f) (rollSize_ f) (flushInterval_ f)
  (checkEveryM_ f) (count_ f) (startOfPeriod_ f) (lastRoll_ f) (lastFlush_ f) x (closed f)
  k (readings f).
Definition set_count n f := mkLogFile (basename_ f) (rollSize_ f) (flushInterval_ f)
  (checkEveryM_ f) n (startOfPeriod_ f) (lastRoll_ f) (lastFlush_ f) (file_ f) (closed f)
  (fwrites f) (readings f).
Definition set_lastFlush t f := mkLogFile (basename_ f) (rollSize_ f) (flushInterval_ f)
  (checkEveryM_ f) (count_ f) (startOfPeriod_ f) (lastRoll_ f) t (file_ f) (closed f)
  (fwrites f) (readings f).
Definition tick f := mkLogFile (basename_ f) (rollSize_ f) (flushInterval_ f)
  (checkEveryM_ f) (count_ f) (startOfPeriod_ f) (lastRoll_ f) (lastFlush_ f) (file_ f)
  (closed f) (fwrites f) (S (readings f)).

(** The loop of AppendFile::append: [None] when the fuel runs out; otherwise the
    bytes that reached the stream, the count [written] and the calls made. *)
Fixpoint append_loop (fuel : nat) (k : nat) (rest : bytes) (out : bytes) (written : Z) :
    option (bytes * Z * nat) :=
  match fuel with
  | O => None
  | S fuel =>
      match rest with
      | [] => Some (out, written, k)
      | _ :: _ =>
          let r := fwrite k rest in
          let n := Z.to_nat (fw_n r) in
          let out := out ++ take n rest in
          if negb (fw_n r =? zlen rest) && fw_error r
          then Some (out, written, S k)
          else append_loop fuel (S k) (drop n rest) out (written + fw_n r)
      end
  end.

(** One more iteration than there are bytes. *)
Definition append_fuel (line : bytes) : nat := S (length line).

(** AppendFile::append(logline, len), then the counters. *)
Definition AppendFile_append (line : bytes) (x : AppendFile) (k : nat) :
    option (AppendFile * nat) :=
  match append_loop (append_fuel line) k line [] 0 with
  | Some (out, written, k) =>
      Some (mkFile (filename x) (contents x ++ out) written (synced x), k)
  | None => None
  end.

(** AppendFile::flush, fflush(3). *)
Definition AppendFile_flush (x : AppendFile) : AppendFile :=
  mkFile (filename x) (contents x) (writtenBytes_ x) (zlen (contents x)).

(** ~AppendFile: fclose(3) flushes the stream and closes it. *)
Definition AppendFile_dtor (x : AppendFile) : AppendFile := AppendFile_flush x.

(** StringArg: a string that is passed on by its c_str(), so up to the first NUL. *)
Fixpoint StringArg (str : bytes) : bytes :=
  match str with
  | [] => []
  | c :: str => if decide (c = "000"%char) then [] else c :: StringArg str
  end.

(** AppendFile::AppendFile: a failed fopen leaves a null FILE* to setbuffer. *)
Definition AppendFile_ctor (name : bytes) : outcome AppendFile :=
  let filename := StringArg name in
  if fopen filename then Ok (mkFile filename [] 0 0) else Fault FNullDeref.

(** getLogFileName: basename, ">%Y%m%d-%H%M%S", ".log". *)
Definition getLogFileName (basename : bytes) (now : Z) : bytes :=
  let t := gmtime now in
  let timebuf := txt ">" ++ fmt_0d 4 (tm_year t) ++ fmt_0d 2 (tm_mon t) ++ fmt_0d 2 (tm_mday t)
    ++ txt "-" ++ fmt_0d 2 (tm_hour t) ++ fmt_0d 2 (tm_min t) ++ fmt_0d 2 (tm_sec t) in
  basename ++ timebuf ++ txt ".log".

(** file_.reset(...) and the destructor of the LogFile: the file in use, if any, is
    closed. *)
Definition close_file f : list AppendFile :=
  closed f ++ match file_ f with Some y => [AppendFile_dtor y] | None => [] end.

(** rollFile() *)
Definition rollFile f : outcome (bool * LogFile) :=
  let now := time (readings f) in
  let f := tick f in
  let name := getLogFileName (basename_ f) now in
  let start := Z.quot now kRollPerseconds_ * kRollPerseconds_ in
  if lastRoll_ f <? now
  then
    x ← AppendFile_ctor name;
    Ok (true, mkLogFile (basename_ f) (rollSize_ f) (flushInterval_ f) (checkEveryM_ f)
                (count_ f) start now now (Some x)
                (close_file f) (fwrites f) (readings f))
  else Ok (false, f).

Definition LogFile_ctor (basename : bytes) (rollSize flushInterval checkEveryM : Z) :
    outcome LogFile :=
  '(_, f) ← rollFile (mkLogFile basename rollSize flushInterval checkEveryM 0 0 0 0 None [] 0 0);
  Ok f.

(** ~LogFile() *)
Definition LogFile_dtor f : LogFile :=
  mkLogFile (basename_ f) (rollSize_ f) (flushInterval_ f) (checkEveryM_ f) (count_ f)
    (startOfPeriod_ f) (lastRoll_ f) (lastFlush_ f) None (close_file f) (fwrites f)
    (readings f).

(** file_-> *)
Definition deref f : outcome AppendFile :=
  match file_ f with Some x => Ok x | None => Fault FNullDeref end.

Definition flush f : outcome LogFile :=
  x ← deref f; Ok (set_file (Some (AppendFile_flush x)) (fwrites f) f).

(** append_unlocked(logline, len); [None] would mean that the inner loop does not
    stop. *)
Definition append_unlocked (line : bytes) f : option (outcome LogFile) :=
  match file_ f with
  | None => Some (Fault FNullDeref)
  | Some x =>
      match AppendFile_append line x (fwrites f) with
      | None => None
      | Some (x, k) =>
          let f := set_file (Some x) k f in
          Some (
            if rollSize_ f <? writtenBytes_ x
            then '(_, f) ← rollFile f; Ok f
            else
              let f := set_count (count_ f + 1) f in
              if checkEveryM_ f <=? count_ f
              then
                let f := set_count 0 f in
                let now := time (readings f) in
                let f := tick f in
                let thisPeriod_ := Z.quot now kRollPerseconds_ * kRollPerseconds_ in
                if negb (thisPeriod_ =? startOfPeriod_ f)
                then '(_, f) ← rollFile f; Ok f
                else if flushInterval_ f <? now - lastFlush_ f
                then flush (set_lastFlush now f)
                else Ok f
              else Ok f)
      end
  end.

(** LogFile::append; with or without the mutex. *)
Definition append (line : bytes) f : option (outcome LogFile) := append_unlocked line f.

Fixpoint append_all (ls : list bytes) f : option (outcome LogFile) :=
  match ls with
  | [] => Some (Ok f)
  | l :: ls =>
      match append l f with
      | Some (Ok f) => append_all ls f
      | r => r
      end
  end.
End methods.

(** ** The inner loop *)

Lemma append_loop_ok fwrite fuel k rest out written :
  fwrite_ok fwrite -> (length rest < fuel)%nat ->
  exists d w k', append_loop fwrite fuel k rest out written = Some (out ++ d, w, k')
    /\ (exists n, d = take n rest) /\ written <= w <= written + zlen d
    /\ ((forall j d', fw_error (fwrite j d') = false) -> d = rest /\ w = written + zlen rest).
Proof.
  intros Hfw. revert k rest out written.
  induction fuel as [|fuel IH]; intros k rest out written Hf; [lia|]. simpl.
  destruct rest as [|x rest0]; [exists [], written, k|set (rest := x :: rest0) in *].
  { rewrite app_nil_r, !zlen_nil. split_and!; try done; [by exists 0%nat|lia..|].
    split; [done|lia]. }
  destruct (Hfw k rest) as [Hn Hp]. set (r := fwrite k rest) in *.
  destruct (negb (fw_n r =? zlen rest) && fw_error r) eqn:Hbr.
  - exists (take (Z.to_nat (fw_n r)) rest), written, (S k).
    apply andb_true_iff in Hbr as [_ He]. pose proof (zlen_nonneg (take (Z.to_nat (fw_n r)) rest)).
    split_and!; try done; [by eexists|lia..|].
    intros Hne. exfalso. subst r. by rewrite Hne in He.
  - assert (0 < fw_n r) as Hpos.
    { apply andb_false_iff in Hbr. rewrite negb_false_iff, Z.eqb_eq in Hbr.
      assert (0 < zlen rest) by (subst rest; rewrite zlen_cons; pose proof (zlen_nonneg rest0); lia).
      destruct Hbr as [->|He]; [done|]. destruct (decide (fw_n r < zlen rest)) as [Hlt|]; [|lia].
      destruct (Hp Hlt); congruence. }
    destruct (IH (S k) (drop (Z.to_nat (fw_n r)) rest) (out ++ take (Z.to_nat (fw_n r)) rest)
      (written + fw_n r)) as (d & w & k' & -> & [m ->] & Hw & Hall).
    { rewrite length_drop. subst rest. simpl in *. lia. }
    exists (take (Z.to_nat (fw_n r)) rest ++ take m (drop (Z.to_nat (fw_n r)) rest)), w, k'.
    rewrite <- app_assoc. split; [done|]. rewrite zlen_app, zlen_take.
    split; [|split; [lia|]].
    + exists (Z.to_nat (fw_n r) + m)%nat. by rewrite take_take_drop.
    + intros Hne. destruct (Hall Hne) as [-> ->]. rewrite take_drop, zlen_drop.
      split; [done|]. lia.
Qed.

Definition no_errors (fwrite : nat -> bytes -> fwrite_result) : Prop :=
  forall k d, fw_error (fwrite k d) = false.

(** AppendFile::append stops, whatever fwrite does, and adds to the file a
    prefix of the line: the whole line unless the stream reports an error.
    writtenBytes_ is then the length of that one line, not of the file. *)
Theorem AppendFile_append_spec fwrite line x k (Hfw : fwrite_ok fwrite) :
  exists x' k', AppendFile_append fwrite line x k = Some (x', k')
    /\ filename x' = filename x
    /\ (exists n, contents x' = contents x ++ take n line)
    /\ 0 <= writtenBytes_ x' <= zlen line
    /\ (no_errors fwrite ->
          contents x' = contents x ++ line /\ writtenBytes_ x' = zlen line).
Proof.
  unfold AppendFile_append, append_fuel.
  destruct (append_loop_ok fwrite (S (length line)) k line [] 0 Hfw) as
    (d & w & k' & -> & [n ->] & Hw & Hall); [lia|].
  do 2 eexists. split; [done|]. simpl. split_and!; try done; [by eexists|lia| |].
  - rewrite zlen_take in Hw. lia.
  - intros Hne. by destruct (Hall Hne) as [-> ->].
Qed.

(** A stream that takes two bytes at a time. *)
Definition fwrite_two (k : nat) (d : bytes) : fwrite_result := mkFwrite (Z.min 2 (zlen d)) false.

Lemma fwrite_two_ok : fwrite_ok fwrite_two.
Proof. intros k d. pose proof (zlen_nonneg d). simpl. lia. Qed.

Lemma AppendFile_append_spec_witness :
  exists x k', AppendFile_append fwrite_two (txt "hello") (mkFile (txt "a") (txt "log: ") 7 0) 0
    = Some (x, k') /\ contents x = txt "log: hello" /\ writtenBytes_ x = 5.
Proof.
  destruct (AppendFile_append_spec fwrite_two (txt "hello") (mkFile (txt "a") (txt "log: ") 7 0)
    0 fwrite_two_ok) as (x & k' & Hx & _ & _ & _ & Hall).
  destruct Hall as [Hc Hw]; [done|]. exists x, k'. split; [exact Hx|].
  split; [exact Hc|exact Hw].
Defined.

(** One append of a line no longer than rollSize_, away from the periodic check. *)
Lemma append_small fopen fwrite time line f x :
  fwrite_ok fwrite -> no_errors fwrite -> file_ f = Some x ->
  zlen line <= rollSize_ f -> count_ f + 1 < checkEveryM_ f ->
  exists x' k', append fopen fwrite time line f
      = Some (Ok (set_count (count_ f + 1) (set_file (Some x') k' f)))
    /\ filename x' = filename x /\ contents x' = contents x ++ line.
Proof.
  intros Hfw Hne Hx Hlen Hcount. unfold append, append_unlocked. rewrite Hx.
  unfold AppendFile_append, append_fuel.
  destruct (append_loop_ok fwrite (S (length line)) (fwrites f) line [] 0 Hfw) as
    (d & w & k' & -> & _ & _ & Hall); [lia|].
  destruct (Hall Hne) as [-> ->]. simpl.
  rewrite (proj2 (Z.ltb_ge _ _)) by lia. rewrite (proj2 (Z.leb_gt _ _)) by lia.
  by eexists _, _.
Qed.

(** C40. The size limit does not accumulate: however much has been logged, lines
    that are each within rollSize_ all go to the same file, until the periodic
    check (every checkEveryM_ appends) looks at the date. *)
Theorem size_never_rolls fopen fwrite time ls f x
    (Hfw : fwrite_ok fwrite) (Hne : no_errors fwrite) (Hx : file_ f = Some x)
    (Hlines : forall l, l ∈ ls -> zlen l <= rollSize_ f)
    (Hcount : count_ f + zlen ls < checkEveryM_ f) :
  exists f' x', append_all fopen fwrite time ls f = Some (Ok f')
    /\ file_ f' = Some x' /\ filename x' = filename x
    /\ contents x' = contents x ++ concat ls /\ closed f' = closed f.
Proof.
  revert f x Hx Hlines Hcount. induction ls as [|l ls IH]; intros f x Hx Hlines Hcount.
  { exists f, x. rewrite app_nil_r. by split_and!. }
  rewrite zlen_cons in Hcount. pose proof (zlen_nonneg ls).
  destruct (append_small fopen fwrite time l f x) as (x1 & k1 & Ha & Hn & Hc);
    try done; [apply Hlines; by left|lia|].
  destruct (IH (set_count (count_ f + 1) (set_file (Some x1) k1 f)) x1)
    as (f' & x' & Hall & Hf' & Hn' & Hc' & Hcl); [done| |simpl; lia|].
  { intros l' ?. apply Hlines. by right. }
  exists f', x'. simpl. rewrite Ha, Hall, Hf', Hc', Hc. simpl.
  rewrite <- app_assoc. split_and!; try done. congruence.
Qed.

(** A limit of 8 bytes, and 24 bytes in the file. *)
Lemma size_never_rolls_witness :
  exists f f' x', LogFile_ctor (fun _ => true) (fun k => 86400 + Z.of_nat k) (txt "web") 8 3 1024
    = Ok f
    /\ append_all (fun _ => true) fwrite_two (fun k => 86400 + Z.of_nat k)
         [txt "12345678"; txt "12345678"; txt "12345678"] f = Some (Ok f')
    /\ file_ f' = Some x' /\ zlen (contents x') = 24
    /\ filename x' = txt "web>19700102-000000.log".
Proof.
  destruct (LogFile_ctor (fun _ => true) (fun k => 86400 + Z.of_nat k) (txt "web") 8 3 1024)
    as [f|] eqn:Hf; [|vm_compute in Hf; discriminate].
  vm_compute in Hf. injection Hf as <-.
  match goal with |- exists _ _ _, Ok ?g = _ /\ _ => set (f := g) end.
  assert (file_ f = Some (mkFile (txt "web>19700102-000000.log") [] 0 0)) as Hx0 by reflexivity.
  destruct (size_never_rolls (fun _ => true) fwrite_two (fun k => 86400 + Z.of_nat k)
    [txt "12345678"; txt "12345678"; txt "12345678"] f _ fwrite_two_ok
    (fun _ _ => eq_refl) Hx0) as (f' & x' & Ha & Hx & Hn & Hc & _).
  - intros l Hl. rewrite !elem_of_cons, elem_of_nil in Hl.
    destruct_or! Hl; subst l; vm_compute; congruence.
  - vm_compute. reflexivity.
  - exists f, f', x'. split; [reflexivity|]. split; [exact Ha|]. split; [exact Hx|].
    rewrite Hn, Hc. split; reflexivity.
Defined.

(** ** The files as a whole *)

(** Every file so far, the one in use last. *)
Definition files (f : LogFile) : list AppendFile :=
  closed f ++ match file_ f with Some x => [x] | None => [] end.

(** Everything written to a file has left the stream's buffer. *)
Definition is_synced (x : AppendFile) : Prop := synced x = zlen (contents x).

(** What a stream takes of a line, as a relation between the two. *)
Definition delivers (R : bytes -> bytes -> Prop) fwrite : Prop :=
  forall line x k, exists d x' k', AppendFile_append fwrite line x k = Some (x', k')
    /\ contents x' = contents x ++ d /\ R d line.

(** The files hold what the stream took of the lines [ls], in order, each line in one
    file. *)
Definition stored (R : bytes -> bytes -> Prop) (ls : list bytes) (xs : list AppendFile) :
    Prop :=
  exists parts : list (list bytes), concat parts = ls
    /\ Forall2 (fun x part => exists ds, contents x = concat ds /\ Forall2 R ds part) xs parts.

Lemma delivers_prefix fwrite : fwrite_ok fwrite -> delivers prefix fwrite.
Proof.
  intros Hfw line x k. unfold AppendFile_append, append_fuel.
  destruct (append_loop_ok fwrite (S (length line)) k line [] 0 Hfw) as
    (d & w & k' & -> & [n ->] & _); [lia|].
  exists (take n line). do 2 eexists. split; [done|]. split; [done|].
  exists (drop n line). by rewrite take_drop.
Qed.

Lemma delivers_all fwrite : fwrite_ok fwrite -> no_errors fwrite -> delivers eq fwrite.
Proof.
  intros Hfw Hne line x k. unfold AppendFile_append, append_fuel.
  destruct (append_loop_ok fwrite (S (length line)) k line [] 0 Hfw) as
    (d & w & k' & -> & _ & _ & Hall); [lia|].
  destruct (Hall Hne) as [-> ->]. by exists line; do 2 eexists.
Qed.

Lemma stored_snoc R ls xs x ds part :
  stored R ls xs -> contents x = concat ds -> Forall2 R ds part ->
  stored R (ls ++ part) (xs ++ [x]).
Proof.
  intros (parts & <- & Hp) Hx HR. exists (parts ++ [part]). split.
  { rewrite concat_app. simpl. by rewrite app_nil_r. }
  apply Forall2_app; [done|]. repeat constructor. by exists ds.
Qed.

Lemma stored_last R ls xs x :
  stored R ls (xs ++ [x]) -> exists ls1 ds part, ls = ls1 ++ part /\ stored R ls1 xs
    /\ contents x = concat ds /\ Forall2 R ds part.
Proof.
  intros (parts & <- & Hp). apply Forall2_app_inv_l in Hp as (p1 & p2 & Hp1 & Hp2 & ->).
  apply Forall2_cons_inv_l in Hp2 as (part & p3 & (ds & Hx & HR) & Hp3 & ->).
  apply Forall2_nil_inv_l in Hp3 as ->. exists (concat p1), ds, part.
  rewrite concat_app. simpl. rewrite app_nil_r. split_and!; try done. by exists p1.
Qed.

(** A file may be replaced by one with the same contents. *)
Lemma stored_same R ls xs x y :
  contents x = contents y -> stored R ls (xs ++ [x]) -> stored R ls (xs ++ [y]).
Proof.
  intros Hxy Hx. apply stored_last in Hx as (ls1 & ds & part & -> & Hs & Hc & HR).
  by eapply stored_snoc; [|rewrite <- Hxy|].
Qed.

(** Between two calls there is a file in use, and those before it are flushed. *)
Record file_inv (R : bytes -> bytes -> Prop) (ls : list bytes) (f : LogFile) : Prop := {
  fi_open : is_Some (file_ f);
  fi_synced : Forall is_synced (closed f);
  fi_stored : stored R ls (files f);
}.

Section whole.
Context (R : bytes -> bytes -> Prop) (fopen : bytes -> bool) (time : nat -> Z).
Context (fwrite : nat -> bytes -> fwrite_result).
Context (Hopen : forall name, fopen name = true) (HR : delivers R fwrite).

(** The fields the invariant reads. *)
Lemma file_inv_same ls f g :
  file_ f = file_ g -> closed f = closed g -> file_inv R ls f -> file_inv R ls g.
Proof. intros Hf Hc [H1 H2 H3]. unfold files in H3. rewrite Hf, Hc in *. by split. Qed.

Lemma close_file_ok ls f :
  Forall is_synced (closed f) -> stored R ls (files f) ->
  Forall is_synced (close_file f) /\ stored R ls (close_file f).
Proof.
  unfold files, close_file. intros Hs Hst. destruct (file_ f) as [x|]; [|by rewrite app_nil_r in *].
  split; [|by eapply stored_same, Hst]. apply Forall_app. split; [done|]. by constructor.
Qed.

Lemma rollFile_inv ls f :
  file_inv R ls f -> exists b f', rollFile fopen time f = Ok (b, f') /\ file_inv R ls f'.
Proof.
  intros Hf. unfold rollFile. destruct (_ <? _).
  - unfold AppendFile_ctor. rewrite Hopen. simpl. do 2 eexists. split; [done|].
    destruct (close_file_ok ls f) as [Hs Hst]; [apply Hf..|].
    split; simpl; [done|done|]. rewrite <- (app_nil_r ls).
    by apply (stored_snoc _ _ _ _ [] []).
  - do 2 eexists. split; [done|]. by eapply file_inv_same, Hf.
Qed.

Lemma LogFile_ctor_inv base roll fi every :
  0 < time 0%nat ->
  exists f, LogFile_ctor fopen time base roll fi every = Ok f /\ file_inv R [] f.
Proof.
  intros Ht. unfold LogFile_ctor, rollFile, AppendFile_ctor. simpl.
  rewrite (proj2 (Z.ltb_lt _ _) Ht), Hopen. simpl. eexists. split; [done|].
  split; simpl; [done|constructor|]. exists [[]]. split; [done|].
  repeat constructor. by exists [].
Qed.

Lemma flush_inv ls f :
  file_inv R ls f ->
  exists f', flush f = Ok f' /\ file_inv R ls f' /\ Forall is_synced (files f').
Proof.
  intros [[x Hx] Hs Hst]. unfold flush, deref, files in *. rewrite Hx in *. simpl.
  eexists. split; [done|]. split; [split; simpl|]; [done|done| |].
  - unfold files. simpl. by eapply stored_same, Hst.
  - apply Forall_app. split; [done|]. by constructor.
Qed.

(** One append: the stream's part of the line goes to the file in use, whether or not
    a new one is opened after it. *)
Lemma append_inv line ls f :
  file_inv R ls f ->
  exists f', append fopen fwrite time line f = Some (Ok f') /\ file_inv R (ls ++ [line]) f'.
Proof.
  intros [[x Hx] Hs Hst]. unfold append, append_unlocked. rewrite Hx.
  destruct (HR line x (fwrites f)) as (d & x' & k & -> & Hc & Hd).
  assert (file_inv R (ls ++ [line]) (set_file (Some x') k f)) as Hinv.
  { split; simpl; [done|done|]. unfold files in *. rewrite Hx in Hst. simpl.
    apply stored_last in Hst as (ls1 & ds & part & -> & Hs1 & Hds & HRs).
    rewrite <- app_assoc. apply (stored_snoc _ _ _ _ (ds ++ [d]) _ Hs1).
    - rewrite Hc, Hds, concat_app. simpl. by rewrite app_nil_r.
    - apply Forall2_app; [done|]. by constructor. }
  assert (forall g, file_inv R (ls ++ [line]) g ->
    exists f', Some ('(_, f0) ← rollFile fopen time g; Ok f0) = Some (Ok f')
      /\ file_inv R (ls ++ [line]) f') as Hroll.
  { intros g Hg. destruct (rollFile_inv _ g Hg) as (b & f' & -> & Hf'). by exists f'. }
  destruct (_ <? _); [by apply Hroll|].
  destruct (_ <=? _); [|eexists; split; [done|]; by eapply file_inv_same, Hinv].
  destruct (negb _); [apply Hroll; by eapply file_inv_same, Hinv|].
  destruct (_ <? _); [|eexists; split; [done|]; by eapply file_inv_same, Hinv].
  edestruct (flush_inv (ls ++ [line])) as (f' & -> & Hf' & _); [|by exists f'].
  by eapply file_inv_same, Hinv.
Qed.

Lemma append_all_inv lines ls f :
  file_inv R ls f ->
  exists f', append_all fopen fwrite time lines f = Some (Ok f') /\ file_inv R (ls ++ lines) f'.
Proof.
  revert ls f. induction lines as [|l lines IH]; intros ls f Hf; simpl.
  { exists f. by rewrite app_nil_r. }
  destruct (append_inv l ls f Hf) as (f1 & -> & Hf1).
  destruct (IH _ _ Hf1) as (f2 & -> & Hf2). exists f2. by rewrite <- app_assoc in Hf2.
Qed.

(** The destructor closes the last file. *)
Lemma LogFile_dtor_ok ls f :
  file_inv R ls f -> stored R ls (files (LogFile_dtor f))
    /\ Forall is_synced (files (LogFile_dtor f)).
Proof.
  intros [_ Hs Hst]. unfold files at 1 2. simpl. rewrite app_nil_r.
  by destruct (close_file_ok ls f Hs Hst).
Qed.
End whole.

(** All that is in the files. *)
Definition logged (xs : list AppendFile) : bytes := concat (map contents xs).

Lemma stored_logged R ls xs :
  stored R ls xs -> exists ds, logged xs = concat ds /\ Forall2 R ds ls.
Proof.
  intros (parts & <- & Hp). unfold logged. induction Hp as [|x part xs parts (ds & Hx & HR) _ IH].
  { by exists []. }
  destruct IH as (ds2 & E & HR2). exists (ds ++ ds2). simpl.
  rewrite Hx, E, concat_app. split; [done|]. by apply Forall2_app.
Qed.

Lemma stored_eq ls xs : stored eq ls xs -> logged xs = concat ls.
Proof.
  intros (ds & -> & HR)%stored_logged. f_equal. by apply list_eq_Forall2.
Qed.

Lemma stored_prefix ls xs : stored prefix ls xs -> logged xs `sublist_of` concat ls.
Proof.
  intros (ds & -> & HR)%stored_logged. induction HR as [|d l ds ls [r ->] _ IH]; [done|].
  simpl. rewrite <- app_assoc. apply sublist_app; [done|]. by apply sublist_inserts_l.
Qed.
