(* ===== verification/LogPipeline.v ===== *)
(** src/AsyncLogging.cc with src/LogFile.cc: the whole way of a line, from
    AsyncLogging::append on any thread to the files threadFunc writes.

    The two ends are those of [AsyncLogging], its back end here with the LogFile that
    is its local [output]; [AsyncLogging]'s [written] lists the calls output.append.
    The state also records the lines append was called with.  A step is a critical
    section, or what the logging thread does between two of them. *)

From S2P Require Import Prelude LogStream Logging LogFile AsyncLogging.

(** Where the logging thread is: not started, at the first line of threadFunc, or in
    its loop and after. *)
Inductive stage := Idle | Starting | In (p : pc).

Record Pipeline := mkPipe {
  front : AsyncLogging;
  back : Backend;
  at_ : stage;
  output : option LogFile;
  lines : list bytes;         (* ghost: the calls append(logline, len) *)
}.

Section methods.
Context (SIZE : Z) (fopen : bytes -> bool) (fwrite : nat -> bytes -> fwrite_result).
Context (time : nat -> Z) (baseName_ : bytes) (rollSize_ : Z).

(** LogFile output(baseName_, rollSize_, false): the flush interval and the period of
    the checks are the defaults of the header. *)
Definition make_output : outcome LogFile :=
  LogFile_ctor fopen time baseName_ rollSize_ 3 1024.

(** for(const auto& buffer : buffersToWrite) output.append(data, length) *)
Fixpoint write_files (v : list BufferPtr) (f : LogFile) : option (outcome LogFile) :=
  match v with
  | [] => Some (Ok f)
  | p :: v =>
      match AsyncLogging.deref p with
      | Fault e => Some (Fault e)
      | Ok b =>
          match LogFile.append fopen fwrite time (data b) f with
          | Some (Ok f) => write_files v f
          | r => r
          end
      end
  end.

(** The loop body after the critical section: [write_out] with the appends made, and
    output.flush() at its end.  [None] would be a call that does not return. *)
Definition write_round (t : Backend) (f : LogFile) : option (outcome (Backend * LogFile)) :=
  match write_files (buffersToWrite (drop_excess t)) f with
  | Some (Ok f) => Some (t ← write_out t; f ← flush f; Ok (t, f))
  | Some (Fault e) => Some (Fault e)
  | None => None
  end.

(** After the loop: output.flush(), and the destructor of output. *)
Definition finish (f : LogFile) : outcome LogFile := f ← flush f; Ok (LogFile_dtor f).

Definition start : Pipeline := mkPipe AsyncLogging_ctor start_backend Idle None [].

Inductive step : Pipeline -> Pipeline -> Prop :=
| p_append line a a' t p o ls :
    append_line SIZE line a = Ok a' ->
    step (mkPipe a t p o ls) (mkPipe a' t p o (ls ++ [line]))
| p_start a t ls :             (* start() *)
    step (mkPipe a t Idle None ls) (mkPipe (set_running true a) t Starting None ls)
| p_stop a t p o ls :          (* stop(), up to the join; also the destructor *)
    p <> Idle -> step (mkPipe a t p o ls) (mkPipe (set_running false a) t p o ls)
| p_open a t ls f :
    make_output = Ok f ->
    step (mkPipe a t Starting None ls) (mkPipe a t (In AtTest) (Some f) ls)
| p_test a t o ls :            (* while(running_) *)
    running_ a = true ->
    step (mkPipe a t (In AtTest) o ls) (mkPipe a t (In AtSwap) o ls)
| p_swap a t o ls :
    step (mkPipe a t (In AtSwap) o ls)
      (mkPipe (swap a t).1 (swap a t).2 (In AtWrite) o ls)
| p_write a t t' f f' ls :
    write_round t f = Some (Ok (t', f')) ->
    step (mkPipe a t (In AtWrite) (Some f) ls) (mkPipe a t' (In AtTest) (Some f') ls)
| p_end a t f f' ls :
    running_ a = false -> finish f = Ok f' ->
    step (mkPipe a t (In AtTest) (Some f) ls) (mkPipe a t (In Finished) (Some f') ls).

(** Whatever comes next is defined and returns: append of any line, and the logging
    thread wherever it is. *)
Definition safe_next (c : Pipeline) : Prop :=
  (forall line, is_ok (append_line SIZE line (front c)) = true)
  /\ match at_ c with
     | Starting => is_ok make_output = true
     | In AtTest => exists f f', output c = Some f /\ finish f = Ok f'
     | In AtWrite => exists f r, output c = Some f /\ write_round (back c) f = Some (Ok r)
     | _ => True
     end.

(** A line that the buffers can hold; the others are dropped by FixedBuffer. *)
Definition fits (line : bytes) : Prop := zlen line < SIZE.
#[global] Instance fits_dec line : Decision (fits line).
Proof. unfold fits. apply _. Defined.
End methods.

(** The state of [AsyncLogging]'s two ends. *)
Definition core (c : Pipeline) : config :=
  (front c, back c, match at_ c with In p => p | _ => AtTest end).

Definition out_files (c : Pipeline) : list AppendFile :=
  match output c with Some f => files f | None => [] end.

(** What the output holds, by where the thread is. *)
Definition output_ok (R : bytes -> bytes -> Prop) (c : Pipeline) : Prop :=
  match at_ c with
  | Idle | Starting => output c = None /\ written (back c) = []
  | In p => exists f, output c = Some f /\ (p <> Finished -> file_inv R (written (back c)) f)
      /\ stored R (written (back c)) (files f) /\ Forall is_synced (files f)
  end.

(** [pre]: what the front end had accepted before the lines. *)
Definition pipe_inv_from (pre : bytes) (SIZE : Z) (R : bytes -> bytes -> Prop) (c : Pipeline) :
    Prop :=
  async_inv SIZE (core c)
  /\ accepted (front c) = pre ++ concat (filter (fits SIZE) (lines c))
  /\ output_ok R c.

Abbreviation pipe_inv := (pipe_inv_from []).

Section proofs.
Context (SIZE : Z) (fopen : bytes -> bool) (fwrite : nat -> bytes -> fwrite_result).
Context (time : nat -> Z) (baseName_ : bytes) (rollSize_ : Z).
Context (R : bytes -> bytes -> Prop).
Context (HS : 0 < SIZE < 2 ^ 31) (Hopen : forall name, fopen name = true).
Context (Ht : 0 < time 0%nat) (HR : delivers R fwrite) {pre : bytes}.

Lemma write_files_ok v ls f :
  Forall (is_buf SIZE) v -> file_inv R ls f ->
  exists f', write_files fopen fwrite time v f = Some (Ok f')
    /\ file_inv R (ls ++ map bytes_of v) f'.
Proof.
  revert ls f. induction v as [|p v IH]; intros ls f Hv Hf; simpl.
  { exists f. by rewrite app_nil_r. }
  apply Forall_cons in Hv as [(b & -> & _) Hv]. simpl.
  destruct (append_inv R fopen time fwrite Hopen HR (data b) ls f Hf) as (f1 & -> & Hf1).
  destruct (IH _ _ Hv Hf1) as (f2 & -> & Hf2). exists f2. by rewrite <- app_assoc in Hf2.
Qed.

Lemma write_round_ok t f :
  back_inv SIZE t AtWrite -> file_inv R (written t) f ->
  exists t' f', write_round fopen fwrite time t f = Some (Ok (t', f'))
    /\ write_out t = Ok t' /\ file_inv R (written t') f' /\ Forall is_synced (files f').
Proof.
  intros Hb Hf. unfold write_round.
  destruct (drop_excess_ok SIZE t) as [Hv _]; [by apply Hb|].
  destruct (write_files_ok _ _ _ Hv Hf) as (f1 & -> & Hf1).
  destruct (write_out_ok SIZE t Hb) as (t' & -> & _ & Hw & _).
  destruct (flush_inv R _ _ Hf1) as (f2 & -> & Hf2 & Hs2). simpl.
  rewrite <- Hw in Hf2. by exists t', f2.
Qed.

Lemma finish_ok ls f :
  file_inv R ls f -> exists f', finish f = Ok f' /\ stored R ls (files f')
    /\ Forall is_synced (files f').
Proof.
  intros Hf. unfold finish. destruct (flush_inv R _ _ Hf) as (f1 & -> & Hf1 & _). simpl.
  eexists. split; [done|]. by apply LogFile_dtor_ok.
Qed.

Lemma make_output_ok :
  exists f, make_output fopen time baseName_ rollSize_ = Ok f /\ file_inv R [] f
    /\ Forall is_synced (files f).
Proof.
  destruct (LogFile_ctor_inv R fopen time Hopen baseName_ rollSize_ 3 1024 Ht)
    as (f & Hf & Hinv). exists f. split; [exact Hf|]. split; [done|].
  unfold LogFile_ctor, rollFile, AppendFile_ctor in Hf. simpl in Hf.
  rewrite (proj2 (Z.ltb_lt _ _) Ht), Hopen in Hf. simpl in Hf. injection Hf as <-.
  by repeat constructor.
Qed.

Lemma pipe_start_inv : pipe_inv SIZE R start.
Proof.
  split; [|done]. destruct (async_start_inv SIZE HS) as (Ha & Hb & Hs).
  by split; [destruct Ha|].
Qed.

(** A step that leaves the logging thread alone. *)
Lemma output_ok_front a a' t p o ls ls' :
  output_ok R (mkPipe a t p o ls) -> output_ok R (mkPipe a' t p o ls').
Proof. done. Qed.

Lemma append_pipe_inv line a a' t p o ls :
  append_line SIZE line a = Ok a' ->
  pipe_inv_from pre SIZE R (mkPipe a t p o ls) ->
  pipe_inv_from pre SIZE R (mkPipe a' t p o (ls ++ [line])).
Proof.
  intros Happ (Hi & Hl & Ho). split; [|split; [|by eapply output_ok_front]].
  - by eapply step_async_inv; [|exact Hi|eapply step_append].
  - destruct Hi as (Ha & _). simpl in *.
    destruct (append_line_ok SIZE HS line a Ha) as (a'' & d & Hx & _ & Hacc & Hd & _).
    rewrite Happ in Hx. injection Hx as <-.
    rewrite Hacc, filter_app, concat_app, (app_assoc pre), <- Hl, Hd. f_equal.
    rewrite filter_cons, filter_nil. unfold fits. destruct (Z.ltb_spec (zlen line) SIZE).
    + rewrite decide_True by done. simpl. by rewrite app_nil_r.
    + by rewrite decide_False by lia.
Qed.

Lemma swap_pipe_inv a t o ls :
  pipe_inv_from pre SIZE R (mkPipe a t (In AtSwap) o ls) ->
  pipe_inv_from pre SIZE R (mkPipe (swap a t).1 (swap a t).2 (In AtWrite) o ls).
Proof.
  intros (Hi & Hl & (f & Ho & Hf & Hst & Hsy)). pose proof Hi as (Ha & Hb & _).
  pose proof (swap_ok SIZE HS a t Ha Hb) as Hsw.
  assert (async_inv SIZE (swap a t, AtWrite)) as Hi'
    by by eapply step_async_inv; [|exact Hi|apply step_swap].
  destruct (swap a t) as [a' t'] eqn:E. destruct Hsw as (_ & _ & Hacc & Hw & _).
  split; [done|]. split; [by simpl; rewrite Hacc|]. exists f. simpl in *. rewrite Hw.
  split_and!; try done. intros _. by apply Hf.
Qed.

Lemma write_pipe_inv a t t' f f' ls :
  write_round fopen fwrite time t f = Some (Ok (t', f')) ->
  pipe_inv_from pre SIZE R (mkPipe a t (In AtWrite) (Some f) ls) ->
  pipe_inv_from pre SIZE R (mkPipe a t' (In AtTest) (Some f') ls).
Proof.
  intros Hw (Hi & Hl & (f0 & Ho & Hf & _)). injection Ho as <-.
  pose proof Hi as (_ & Hb & _).
  destruct (write_round_ok t f Hb) as (t1 & f1 & Hx & Hwo & Hf1 & Hs1); [by apply Hf|].
  rewrite Hw in Hx. injection Hx as <- <-. split; [|split; [done|]].
  - by eapply step_async_inv; [|exact Hi|apply step_write].
  - exists f'. split_and!; try done. apply Hf1.
Qed.

Lemma step_pipe_inv c c' :
  pipe_inv_from pre SIZE R c -> step SIZE fopen fwrite time baseName_ rollSize_ c c' ->
  pipe_inv_from pre SIZE R c'.
Proof.
  intros Hc Hstep.
  destruct Hstep as [line a a' t p o ls Happ|a t ls|a t p o ls Hp|a t ls f Hmk|a t o ls Hr
    |a t o ls|a t t' f f' ls Hw|a t f f' ls Hr Hfi].
  - by eapply append_pipe_inv.
  - destruct Hc as (([H1 H2 H3 H4] & Hb & Hs) & Hl & Ho). by split.
  - destruct Hc as (Hi & Hl & Ho). split; [|done].
    by eapply step_async_inv; [|exact Hi|apply step_stop].
  - destruct Hc as (Hi & Hl & (_ & Hw)). split; [done|]. split; [done|].
    destruct make_output_ok as (f1 & Hf1 & Hinv & Hs). rewrite Hmk in Hf1. injection Hf1 as <-.
    exists f. simpl in Hw |- *. rewrite Hw. split_and!; try done. apply Hinv.
  - destruct Hc as (Hi & Hl & (f & Ho & Hf & Hrest)). split; [|split; [done|]].
    + pose proof (step_async_inv SIZE HS (a, t, AtTest) _ Hi (step_test SIZE a t)) as Hi'.
      by rewrite Hr in Hi'.
    + exists f. split; [done|]. split; [|done]. intros _. by apply Hf.
  - by apply swap_pipe_inv.
  - by eapply write_pipe_inv.
  - destruct Hc as (Hi & Hl & (f0 & Ho & Hf & Hrest)). injection Ho as <-. split; [|split; [done|]].
    + pose proof (step_async_inv SIZE HS (a, t, AtTest) _ Hi (step_test SIZE a t)) as Hi'.
      by rewrite Hr in Hi'.
    + destruct (finish_ok (written t) f) as (f1 & Hf1 & Hst & Hsy); [by apply Hf|].
      rewrite Hfi in Hf1. injection Hf1 as <-. by exists f'.
Qed.

Lemma reach_pipe_inv_from c0 c :
  pipe_inv_from pre SIZE R c0 ->
  rtc (step SIZE fopen fwrite time baseName_ rollSize_) c0 c -> pipe_inv_from pre SIZE R c.
Proof. intros H0 Hr. induction Hr; eauto using step_pipe_inv. Qed.

Lemma pipe_inv_safe c :
  pipe_inv_from pre SIZE R c -> safe_next SIZE fopen fwrite time baseName_ rollSize_ c.
Proof.
  destruct c as [a t p o ls]. intros ((Ha & Hb & _) & _ & Ho). split.
  { intros line. cbn [front]. by destruct (append_line_ok SIZE HS line a Ha) as (a' & d & -> & _). }
  destruct p as [| |[]]; try done; unfold output_ok in Ho; cbn [at_ back output] in Ho |- *.
  - by destruct make_output_ok as (f & -> & _).
  - destruct Ho as (f & -> & Hf & _). exists f.
    destruct (finish_ok (written t) f) as (f' & -> & _); [by apply Hf|]. by exists f'.
  - destruct Ho as (f & -> & Hf & _). exists f.
    destruct (write_round_ok t f Hb) as (t' & f' & -> & _); [by apply Hf|]. by exists (t', f').
Qed.
End proofs.

Lemma reach_pipe_inv SIZE fopen fwrite time baseName_ rollSize_ R :
  0 < SIZE < 2 ^ 31 -> (forall name, fopen name = true) -> 0 < time 0%nat -> delivers R fwrite ->
  forall c, rtc (step SIZE fopen fwrite time baseName_ rollSize_) start c -> pipe_inv SIZE R c.
Proof. intros HS Ho Ht HR c. by eapply reach_pipe_inv_from, pipe_start_inv. Qed.

(** ** What the invariant says of the files *)

Lemma pipe_inv_files SIZE R c :
  pipe_inv SIZE R c ->
  stored R (written (back c)) (out_files c) /\ Forall is_synced (out_files c).
Proof.
  destruct c as [a t p o ls]. unfold out_files. intros (_ & _ & Ho).
  destruct p as [| |p]; cbn in Ho |- *;
    [destruct Ho as [-> ->]; by split; [exists []|]..|].
  by destruct Ho as (f & -> & _ & Hst & Hs).
Qed.

Lemma core_stream c :
  stream_ok (core c) ->
  if dropped (back c)
  then concat (written (back c)) ++ in_flight (core c) `sublist_of` accepted (front c)
  else concat (written (back c)) ++ in_flight (core c) = accepted (front c).
Proof. done. Qed.

Lemma pipe_inv_sublist SIZE R c :
  pipe_inv SIZE R c -> (forall d l, R d l -> d `prefix_of` l) ->
  logged (out_files c) ++ in_flight (core c)
    `sublist_of` concat (filter (fits SIZE) (lines c)).
Proof.
  intros Hc HR. destruct (pipe_inv_files _ _ _ Hc) as [Hst _].
  destruct Hc as ((_ & _ & Hs) & Ha & _). cbn [app] in Ha. rewrite <- Ha.
  assert (stored prefix (written (back c)) (out_files c)) as Hp%stored_prefix.
  { destruct Hst as (parts & <- & HF). exists parts. split; [done|].
    eapply Forall2_impl; [exact HF|]. intros x part (ds & Hx & HRs). exists ds.
    split; [done|]. by eapply Forall2_impl. }
  apply core_stream in Hs. destruct (dropped (back c)).
  - etrans; [by apply sublist_app|exact Hs].
  - rewrite <- Hs. by apply sublist_app.
Qed.

Lemma pipe_inv_equal SIZE c :
  pipe_inv SIZE eq c -> dropped (back c) = false ->
  logged (out_files c) ++ in_flight (core c) = concat (filter (fits SIZE) (lines c)).
Proof.
  intros Hc Hd. destruct (pipe_inv_files _ _ _ Hc) as [->%stored_eq _].
  destruct Hc as ((_ & _ & Hs%core_stream) & Ha & _). cbn [app] in Ha. rewrite <- Ha.
  by rewrite Hd in Hs.
Qed.

(** C32. The way of a line, in every interleaving of append on any thread, start, stop
    and the logging thread, with fopen succeeding and fwrite keeping to its contract.
    Whatever comes next is defined and returns, the constructor of the LogFile, the
    writing of a round and its destruction included.  What the files hold, followed
    by what is in the buffers, is a subsequence of the lines given to append that fit
    in a buffer, in order; and everything written has been flushed or closed.  If the
    stream reports no error and the back end discarded nothing it is exactly those
    lines, and no buffer is split between two files, however the files roll. *)
Theorem log_reaches_files SIZE fopen fwrite time baseName rollSize c
    (HS : 0 < SIZE < 2 ^ 31) (Hopen : forall name, fopen name = true)
    (Ht : 0 < time 0%nat) (Hfw : fwrite_ok fwrite)
    (Hreach : rtc (LogPipeline.step SIZE fopen fwrite time baseName rollSize) start c) :
  safe_next SIZE fopen fwrite time baseName rollSize c
  /\ logged (out_files c) ++ in_flight (core c)
       `sublist_of` concat (filter (fits SIZE) (lines c))
  /\ Forall is_synced (out_files c)
  /\ (no_errors fwrite ->
        stored eq (written (back c)) (out_files c)
        /\ (dropped (back c) = false ->
              logged (out_files c) ++ in_flight (core c)
                = concat (filter (fits SIZE) (lines c)))).
Proof.
  pose proof (delivers_prefix fwrite Hfw) as HR.
  assert (pipe_inv SIZE prefix c) as Hc by by eapply reach_pipe_inv.
  split; [by eapply pipe_inv_safe|]. split; [by eapply pipe_inv_sublist|].
  split; [by eapply pipe_inv_files|]. intros Hne.
  assert (pipe_inv SIZE eq c) as He
    by (eapply reach_pipe_inv; try done; by apply delivers_all).
  split; [by eapply pipe_inv_files|by apply pipe_inv_equal].
Qed.

(** ** One round *)

Lemma round_steps SIZE fopen fwrite time baseName rollSize R c
    (HS : 0 < SIZE < 2 ^ 31) (Hopen : forall name, fopen name = true)
    (HR : delivers R fwrite) :
  pipe_inv SIZE R c -> at_ c = In AtTest -> running_ (front c) = true ->
  exists c', nsteps (LogPipeline.step SIZE fopen fwrite time baseName rollSize) 3 c c'
    /\ lines c' = lines c /\ at_ c' = In AtTest /\ in_flight (core c') = [].
Proof.
  destruct c as [a t p o ls]. simpl. intros Hc -> Hrun. pose proof Hc as (Hi & Hl & Ho).
  destruct Hi as (Ha & Hb & _). destruct Ho as (f & Ho & Hf & _). cbn in Ho. subst o.
  change (front_inv SIZE a) in Ha. change (back_inv SIZE t AtTest) in Hb.
  change (AtTest <> Finished -> file_inv R (written t) f) in Hf.
  pose proof (swap_ok SIZE HS a t Ha) as Hsw. destruct Hb as [Hidle _].
  destruct (Hidle ltac:(done)) as (H1 & H2 & H3).
  assert (all_bytes (buffers_ (swap a t).1) ++ bytes_of (currentBuffer_ (swap a t).1) = [])
    as Hempty.
  { unfold swap. rewrite H3, H1. by destruct (nextBuffer_ a). }
  assert (running_ (swap a t).1 = true) as Hrun' by (unfold swap; by destruct (nextBuffer_ a)).
  destruct (swap a t) as [a' t'] eqn:E. simpl in *.
  destruct Hsw as (_ & Hb' & _ & Hw & _); [by split|].
  destruct (write_round_ok SIZE fopen fwrite time R Hopen HR t' f Hb')
    as (t2 & f2 & Hwr & Hwo & _); [rewrite Hw; by apply Hf|].
  exists (mkPipe a' t2 (In AtTest) (Some f2) ls). split_and!; try done.
  - eapply nsteps_l; [by apply p_test|]. eapply nsteps_l; [apply p_swap|]. rewrite E.
    eapply nsteps_l; [by apply p_write|]. apply nsteps_O.
  - unfold in_flight. simpl. rewrite Hempty.
    destruct (write_out_ok SIZE t' Hb') as (t3 & Hx & [Hidle2 _] & _).
    rewrite Hwo in Hx. injection Hx as <-. destruct (Hidle2 ltac:(done)) as (_ & _ & ->). done.
Qed.

Lemma kLargeBuffer_ok : 0 < kLargeBuffer < 2 ^ 31.
Proof. unfold kLargeBuffer. lia. Qed.

Lemma filter_all {A} (P : A -> Prop) `{forall x, Decision (P x)} (l : list A) :
  (forall x, x ∈ l -> P x) -> filter P l = l.
Proof.
  induction l as [|x l IH]; intros Hl; [done|]. rewrite filter_cons_True by (apply Hl; by left).
  f_equal. apply IH. intros y Hy. apply Hl. by right.
Qed.

(** What log statements give a logging system whose buffers are the program's always
    fits. *)
Lemma statements_fit strerror g sts :
  filter (fits kLargeBuffer) (concat (map (statement_lines strerror g) sts))
  = concat (map (statement_lines strerror g) sts).
Proof.
  apply filter_all. intros l Hl. apply list_elem_of_In, in_concat in Hl as (k & Hk & Hl).
  apply in_map_iff in Hk as (s & <- & _). apply list_elem_of_In in Hl.
  apply statement_lines_short in Hl. unfold fits, kSmallBuffer, kLargeBuffer in *. lia.
Qed.

(** C33. Log statements get to the files.  With the sizes of the program and
    AsyncLogging::append as the output function, take any reachable state with the
    logging thread at its test and running_ still true, in which append was called
    with the lines of some statements, made by any threads.  Three steps of the
    logging thread, whatever the state, leave nothing in the buffers: with a stream
    without errors, if no buffers were discarded, the files then hold every line of
    these statements, whole and in order, and all of it has been flushed. *)
Theorem statements_reach_files fopen fwrite time baseName rollSize strerror g sts c
    (Hopen : forall name, fopen name = true) (Ht : 0 < time 0%nat) (Hfw : fwrite_ok fwrite)
    (Hreach : rtc (LogPipeline.step kLargeBuffer fopen fwrite time baseName rollSize) start c)
    (Hlines : lines c = concat (map (statement_lines strerror g) sts))
    (Hat : at_ c = In AtTest) (Hrun : running_ (front c) = true) :
  exists c', nsteps (LogPipeline.step kLargeBuffer fopen fwrite time baseName rollSize) 3 c c'
    /\ at_ c' = In AtTest /\ in_flight (core c') = [] /\ Forall is_synced (out_files c')
    /\ (no_errors fwrite -> dropped (back c') = false ->
          logged (out_files c') = concat (concat (map (statement_lines strerror g) sts))).
Proof.
  pose proof (delivers_prefix fwrite Hfw) as HR. pose proof kLargeBuffer_ok as HS.
  destruct (round_steps kLargeBuffer fopen fwrite time baseName rollSize prefix c)
    as (c' & Hsteps & Hl & Hat' & Hfl); try done; [by eapply reach_pipe_inv|].
  assert (rtc (LogPipeline.step kLargeBuffer fopen fwrite time baseName rollSize) start c')
    as Hr' by (etrans; [exact Hreach|by eapply rtc_nsteps_2]).
  exists c'. split_and!; try done.
  - eapply pipe_inv_files, reach_pipe_inv; [exact HS|exact Hopen|exact Ht|exact HR|exact Hr'].
  - intros Hne Hd. rewrite <- (statements_fit strerror g sts), <- Hlines, <- Hl.
    rewrite <- (pipe_inv_equal kLargeBuffer c'), Hfl, app_nil_r; try done.
    eapply reach_pipe_inv; try done. by apply delivers_all.
Qed.

(** ** A run *)

(** Buffers of 8 bytes, a rollSize_ of 4, a stream that takes two bytes at a time, and
    a clock that advances by a second at each reading. *)
Definition demo_time (k : nat) : Z := 86400 + Z.of_nat k.
Definition demo_open (name : bytes) : bool := true.
Definition demo_step := LogPipeline.step 8 demo_open fwrite_two demo_time (txt "web") 4.

(** Two lines before the thread is started, a round that writes them, a third line
    and one that fits in no buffer. *)
Definition demo_lines : list bytes := [txt "one.."; txt "two.."; txt "three"; txt "too long to fit"].

Lemma demo_reached :
  exists c, rtc demo_step start c /\ at_ c = In AtTest /\ running_ (front c) = true
    /\ dropped (back c) = false /\ lines c = demo_lines
    /\ map contents (out_files c) = [txt "one.."; txt "two.."; []]
    /\ in_flight (core c) = txt "three".
Proof.
  eexists. split.
  { eapply rtc_l; [apply (p_append 8 _ _ _ _ _ (txt "one..")); vm_compute; reflexivity|].
    eapply rtc_l; [apply p_start|].
    eapply rtc_l; [apply (p_append 8 _ _ _ _ _ (txt "two..")); vm_compute; reflexivity|].
    eapply rtc_l; [apply p_open; vm_compute; reflexivity|].
    eapply rtc_l; [apply p_test; reflexivity|].
    eapply rtc_l; [apply p_swap|]. cbn [swap fst snd].
    eapply rtc_l; [apply (p_append 8 _ _ _ _ _ (txt "three")); vm_compute; reflexivity|].
    eapply rtc_l; [apply p_write; vm_compute; reflexivity|].
    eapply rtc_l; [apply (p_append 8 _ _ _ _ _ (txt "too long to fit")); vm_compute; reflexivity|].
    apply rtc_refl. }
  vm_compute. by split_and!.
Qed.

Lemma log_reaches_files_witness :
  exists c, rtc demo_step start c /\ lines c = demo_lines
    /\ safe_next 8 demo_open fwrite_two demo_time (txt "web") 4 c
    /\ logged (out_files c) ++ in_flight (core c) = txt "one..two..three".
Proof.
  destruct demo_reached as (c & Hr & _ & _ & Hd & Hl & _).
  destruct (log_reaches_files 8 demo_open fwrite_two demo_time (txt "web") 4 c)
    as (Hsafe & _ & _ & Heq);
    [lia|reflexivity|reflexivity|exact fwrite_two_ok|exact Hr|].
  exists c. split; [exact Hr|]. split; [exact Hl|]. split; [exact Hsafe|].
  destruct (Heq (fun _ _ => eq_refl)) as [_ H]. rewrite (H Hd), Hl. reflexivity.
Defined.

(** With the sizes of the program: two statements, one of them below the level. *)
Definition demo_sts : list statement :=
  [mkStatement (txt "src/Channel.cc") 7 WARN (txt "f") [ICString (Some (txt "slow"))];
   mkStatement (txt "src/Channel.cc") 9 DEBUG (txt "f") [ICString (Some (txt "off"))];
   mkStatement (txt "src/Poller.cc") 100 INFO (txt "g") []].
Definition no_strerror (e : Z) : bytes := [].
Definition big_step :=
  LogPipeline.step kLargeBuffer demo_open fwrite_two demo_time (txt "web") 1000000.

Lemma big_reached :
  exists c, rtc big_step start c /\ at_ c = In AtTest /\ running_ (front c) = true
    /\ lines c = concat (map (statement_lines no_strerror INFO) demo_sts).
Proof.
  eexists. split.
  { eapply rtc_l; [apply p_start|]. eapply rtc_l; [apply p_open; vm_compute; reflexivity|].
    eapply rtc_l; [apply (p_append kLargeBuffer _ _ _ _ _ (txt "f43slow - Channel.cc69820"));
      vm_compute; reflexivity|].
    eapply rtc_l; [apply (p_append kLargeBuffer _ _ _ _ _ (txt "g43 - Poller.cc6920020"));
      vm_compute; reflexivity|].
    apply rtc_refl. }
  vm_compute. by split_and!.
Qed.

Lemma statements_reach_files_witness :
  exists c c', rtc big_step start c /\ nsteps big_step 3 c c' /\ in_flight (core c') = [].
Proof.
  destruct big_reached as (c & Hr & Hat & Hrun & Hl).
  destruct (statements_reach_files demo_open fwrite_two demo_time (txt "web") 1000000
    no_strerror INFO demo_sts c) as (c' & Hs & _ & Hfl & _);
    [reflexivity|reflexivity|exact fwrite_two_ok|exact Hr|exact Hl|exact Hat|exact Hrun|].
  exists c, c'. split; [exact Hr|]. split; [exact Hs|exact Hfl].
Defined.

(** stop() before the next round: the thread ends, and the line appended last is
    nowhere but in a buffer of memory. *)
Example stop_loses_lines :
  exists c, rtc demo_step start c /\ at_ c = In Finished /\ lines c = demo_lines
    /\ in_flight (core c) = txt "three".
Proof.
  destruct demo_reached as ([a t p o ls] & Hr & Hat & _ & _ & Hl & _ & Hfl).
  cbn in Hat, Hl. subst p ls.
  assert (delivers prefix fwrite_two) as HR by apply delivers_prefix, fwrite_two_ok.
  destruct (reach_pipe_inv 8 demo_open fwrite_two demo_time (txt "web") 4 prefix
    ltac:(lia) (fun _ => eq_refl) eq_refl HR _ Hr) as (_ & _ & (f & Ho & Hf & _)).
  cbn in Ho. subst o. destruct (finish_ok prefix (written t) f) as (f' & Hfi & _); [by apply Hf|].
  exists (mkPipe (set_running false a) t (In Finished) (Some f') demo_lines).
  split; [|done]. etrans; [exact Hr|].
  eapply rtc_l; [by apply p_stop|]. apply rtc_once. by apply p_end.
Qed.
