(* ===== verification/Sockets.v ===== *)
(** include/Endian.h, include/InetAddress.h, src/InetAddress.cc and the parts of
    include/SocketOops.h and src/SocketOops.cc that decide something: byte order,
    the textual form of an address, and the classification of accept(2)'s errors.

    The host is little endian.  A sockaddr is known by its family, its port and
    its address, both in network order as they lie in memory.  inet_ntop(3) on an
    IPv4 address is the dotted decimal form. *)

From S2P Require Import Prelude Format.

(** ** Endian.h *)

(** The bytes of a [w]-byte number, least significant first, and back. *)
Fixpoint to_le (w : nat) (x : Z) : list Z :=
  match w with O => [] | S w => x mod 256 :: to_le w (x / 256) end.
Fixpoint of_le (l : list Z) : Z :=
  match l with [] => 0 | b :: l => b + 256 * of_le l end.

(** htobe and betoh of a [w]-byte number reverse its bytes. *)
Definition swap_bytes (w : nat) (x : Z) : Z := of_le (rev (to_le w x)).

Definition hostToNetwork64 : Z -> Z := swap_bytes 8.
Definition hostToNetwork32 : Z -> Z := swap_bytes 4.
Definition hostToNetwork16 : Z -> Z := swap_bytes 2.
Definition networkToHost64 : Z -> Z := swap_bytes 8.
Definition networkToHost32 : Z -> Z := swap_bytes 4.
Definition networkToHost16 : Z -> Z := swap_bytes 2.

Lemma to_le_length w x : length (to_le w x) = w.
Proof. revert x. induction w; intros; simpl; auto. Qed.

Lemma to_le_byte w x b : b ∈ to_le w x -> 0 <= b < 256.
Proof.
  revert x. induction w as [|w IH]; intros x; simpl; [by intros ?%elem_of_nil|].
  intros [->|?]%elem_of_cons; [apply Z.mod_pos_bound; lia|eauto].
Qed.

Lemma of_to_le w x : 0 <= x < 256 ^ Z.of_nat w -> of_le (to_le w x) = x.
Proof.
  revert x. induction w as [|w IH]; intros x Hx; [simpl in *; lia|].
  cbn [to_le of_le]. rewrite Nat2Z.inj_succ, Z.pow_succ_r in Hx by lia.
  pose proof (Z.div_mod x 256 ltac:(lia)). pose proof (Z.mod_pos_bound x 256 ltac:(lia)).
  rewrite IH; nia.
Qed.

Lemma to_of_le l : (forall b, b ∈ l -> 0 <= b < 256) -> to_le (length l) (of_le l) = l.
Proof.
  induction l as [|b l IH]; intros Hl; [done|]. cbn [length to_le of_le].
  assert (0 <= b < 256) by (apply Hl; by left).
  replace (b + 256 * of_le l) with (b + of_le l * 256) by lia.
  rewrite Z.mod_add, Z.div_add, Z.mod_small, Z.div_small, Z.add_0_l by lia.
  rewrite IH; [done|]. intros. apply Hl. by right.
Qed.

Lemma of_le_range l : (forall b, b ∈ l -> 0 <= b < 256) -> 0 <= of_le l < 256 ^ zlen l.
Proof.
  induction l as [|b l IH]; intros Hl; [by vm_compute|].
  pose proof (zlen_nonneg l). rewrite zlen_cons, Z.pow_add_r by lia.
  assert (0 <= b < 256) by (apply Hl; by left).
  assert (0 <= of_le l < 256 ^ zlen l) by (apply IH; intros; apply Hl; by right).
  simpl. nia.
Qed.

(** To the network and back is the identity on numbers of that width. *)
Lemma swap_swap w x : 0 <= x < 256 ^ Z.of_nat w -> swap_bytes w (swap_bytes w x) = x.
Proof.
  intros Hx. unfold swap_bytes.
  assert (forall b, b ∈ rev (to_le w x) -> 0 <= b < 256) as Hb.
  { intros b. rewrite list_elem_of_In, <- in_rev, <- list_elem_of_In. apply to_le_byte. }
  assert (length (rev (to_le w x)) = w) as Hl by (by rewrite length_rev, to_le_length).
  rewrite <- Hl at 1. rewrite to_of_le by done. rewrite rev_involutive. by apply of_to_le.
Qed.

Lemma swap_range w x : 0 <= swap_bytes w x < 256 ^ Z.of_nat w.
Proof.
  unfold swap_bytes.
  assert (zlen (rev (to_le w x)) = Z.of_nat w) as Hl
    by (unfold zlen; by rewrite length_rev, to_le_length).
  rewrite <- Hl. apply of_le_range. intros b.
  rewrite list_elem_of_In, <- in_rev, <- list_elem_of_In. apply to_le_byte.
Qed.

(** ** InetAddress *)

Definition AF_INET : Z := 2.
Definition AF_INET6 : Z := 10.
Definition INADDR_ANY : Z := 0.
Definition INADDR_LOOPBACK : Z := 2130706433.   (* 0x7f000001 *)

(** The union of the two sockaddr types: the members both forms share, then the
    address of each (0 where the form has none). *)
Record InetAddress := mkAddr {
  sin_family : Z;
  sin_port : Z;       (* network order *)
  s_addr : Z;         (* IPv4, network order *)
  s6_addr : list Z;   (* IPv6, 16 bytes *)
}.

Definition in6addr_any : list Z := replicate 16 0.
Definition in6addr_loopback : list Z := replicate 15 0 ++ [1].

(** InetAddress(portArg, loopbackOnly, ipv6) *)
Definition InetAddress_ctor (portArg : Z) (loopbackOnly ipv6 : bool) : InetAddress :=
  if ipv6
  then mkAddr AF_INET6 (hostToNetwork16 portArg) 0
         (if loopbackOnly then in6addr_loopback else in6addr_any)
  else mkAddr AF_INET (hostToNetwork16 portArg)
         (hostToNetwork32 (if loopbackOnly then INADDR_LOOPBACK else INADDR_ANY)) [].

Definition family (a : InetAddress) : Z := sin_family a.
Definition portNetEndian (a : InetAddress) : Z := sin_port a.
Definition port (a : InetAddress) : Z := networkToHost16 (portNetEndian a).

(** inet_ntop(AF_INET, ...): the four bytes as they lie in memory. *)
Definition inet_ntop4 (addr : Z) : bytes :=
  match to_le 4 addr with
  | [a; b; c; d] => udec a ++ txt "." ++ udec b ++ txt "." ++ udec c ++ txt "." ++ udec d
  | _ => []
  end.

(** sockets::toIp: an IPv6 address leaves the (empty) buffer as it is. *)
Definition toIp (size : Z) (a : InetAddress) : bytes :=
  if sin_family a =? AF_INET then snprintf size (inet_ntop4 (s_addr a)) else [].

(** sockets::toIpPort, in a buffer of [size] bytes. *)
Definition toIpPort (size : Z) (a : InetAddress) : bytes :=
  let ip := toIp size a in
  ip ++ snprintf (size - zlen ip) (txt ":" ++ udec (networkToHost16 (sin_port a))).

(** The members of InetAddress, with their buffers of 64 bytes. *)
Definition InetAddress_toIp (a : InetAddress) : bytes := toIp 64 a.
Definition InetAddress_toIpPort (a : InetAddress) : bytes := toIpPort 64 a.

(** ** accept(2) *)

(** What accept4 answers: a descriptor, or -1 and errno. *)
Inductive accept_result :=
| Accepted (fd : Z)
| AcceptError (errno : Z).

Definition EPERM : Z := 1.
Definition EINTR : Z := 4.
Definition EBADF : Z := 9.
Definition EAGAIN : Z := 11.
Definition EMFILE : Z := 24.
Definition EPROTO : Z := 71.
Definition ECONNABORTED : Z := 103.

(** The errors sockets::accept expects. *)
Definition expected_errors : list Z :=
  [EAGAIN; ECONNABORTED; EINTR; EPROTO; EPERM; EMFILE].

(** sockets::accept, with errno before the call: the descriptor (or -1) and errno
    after it.  A successful call leaves errno as it was.  Any error that is not
    expected is fatal. *)
Definition accept (r : accept_result) (errno : Z) : outcome (Z * Z) :=
  match r with
  | Accepted fd => Ok (fd, errno)
  | AcceptError e =>
      if bool_decide (e ∈ expected_errors) then Ok (-1, e) else Fault FAbort
  end.

(** ** Lemmas on the text *)

Lemma length_byte b : 0 <= b < 256 -> zlen (udec b) <= 3.
Proof. intros Hb. pose proof (length_udec b 3 ltac:(lia) ltac:(lia)). unfold zlen. lia. Qed.

(** An IPv4 address and port take at most 21 characters. *)
Lemma toIpPort_length size a :
  0 <= sin_port a < 65536 -> zlen (toIpPort size a) <= 21.
Proof.
  intros Hp. assert (zlen (toIp size a) <= 15) as Hip.
  { unfold toIp, snprintf. destruct (_ =? _); [|by vm_compute].
    rewrite zlen_take. unfold inet_ntop4.
    pose proof (to_le_length 4 (s_addr a)) as Hl.
    destruct (to_le 4 (s_addr a)) as [|a1 [|a2 [|a3 [|a4 [|]]]]] eqn:E; try done.
    assert (forall b, b ∈ [a1; a2; a3; a4] -> zlen (udec b) <= 3) as Hb.
    { intros b Hb. apply length_byte. apply (to_le_byte 4 (s_addr a)). by rewrite E. }
    pose proof (Hb a1 ltac:(set_solver)). pose proof (Hb a2 ltac:(set_solver)).
    pose proof (Hb a3 ltac:(set_solver)). pose proof (Hb a4 ltac:(set_solver)).
    rewrite !zlen_app. change (zlen (txt ".")) with 1. lia. }
  unfold toIpPort. rewrite zlen_app. unfold snprintf. rewrite zlen_take, zlen_app.
  change (zlen (txt ":")) with 1.
  pose proof (swap_range 2 (sin_port a)) as Hr.
  change (256 ^ Z.of_nat 2) with 65536 in Hr. unfold networkToHost16.
  pose proof (length_udec (swap_bytes 2 (sin_port a)) 5 ltac:(lia) ltac:(lia)) as Hu.
  assert (zlen (udec (swap_bytes 2 (sin_port a))) <= 5) by (unfold zlen; lia). lia.
Qed.

(** The port given to the constructor is the port read back. *)
Lemma port_ctor p l v6 : 0 <= p < 65536 -> port (InetAddress_ctor p l v6) = p.
Proof. intros Hp. unfold port, InetAddress_ctor. destruct v6; by apply (swap_swap 2). Qed.

Example loopback_text : toIpPort 64 (InetAddress_ctor 8080 true false) = txt "127.0.0.1:8080".
Proof. vm_compute. reflexivity. Qed.

(** The text of an IPv6 address is its port alone. *)
Example loopback6_text : toIpPort 64 (InetAddress_ctor 8080 true true) = txt ":8080".
Proof. vm_compute. reflexivity. Qed.
