(* ===== verification/Socket.v ===== *)
(** include/Socket.h, src/Socket.cc and the functions of include/SocketOops.h and
    src/SocketOops.cc that call the kernel's socket interface.

    The kernel is a class: what each system call answers, and the laws the manual
    pages give for the options of a socket and for its two names.  A call that the
    program calls a failure of the process ends in [FAbort] (LOG_FATAL). *)

From S2P Require Import Prelude Format Sockets.

(** What a system call answers: a value, or -1 and errno. *)
Inductive sys (A : Type) := SysOk (a : A) | SysErr (errno : Z).
Arguments SysOk {A} _.
Arguments SysErr {A} _.

(** The fields of struct tcp_info the program prints. *)
Record tcp_info := mkTcpInfo {
  tcpi_retransmits : Z; tcpi_rto : Z; tcpi_ato : Z; tcpi_snd_mss : Z; tcpi_rcv_mss : Z;
  tcpi_lost : Z; tcpi_retrans : Z; tcpi_rtt : Z; tcpi_rttvar : Z; tcpi_snd_ssthresh : Z;
  tcpi_snd_cwnd : Z; tcpi_total_retrans : Z;
}.

(** A socket option: its level and its name. *)
Abbreviation sockopt := (Z * Z)%type.

Definition SO_REUSEADDR : sockopt := (1, 2).
Definition SO_ERROR : sockopt := (1, 4).
Definition SO_KEEPALIVE : sockopt := (1, 9).
Definition SO_REUSEPORT : sockopt := (1, 15).
Definition TCP_NODELAY : sockopt := (6, 1).

Class SocketKernel (K : Type) := {
  k_socket : Z -> K -> sys Z * K;                     (* nonblocking, close on exec *)
  k_bind : Z -> InetAddress -> K -> sys unit * K;
  k_listen : Z -> K -> sys unit * K;
  k_connect : Z -> InetAddress -> K -> sys unit * K;
  k_shutdown_wr : Z -> K -> sys unit * K;
  k_close : Z -> K -> sys unit * K;
  k_setsockopt : Z -> sockopt -> Z -> K -> sys unit * K;
  k_getsockopt : Z -> sockopt -> K -> sys Z;
  k_tcp_info : Z -> K -> sys tcp_info;
  k_sockname : Z -> K -> sys InetAddress;
  k_peername : Z -> K -> sys InetAddress;
}.

(** setsockopt(2) changes one option of one socket, or fails and changes nothing;
    the two names of a socket have one family. *)
Class SocketKernelLaws (K : Type) `{SocketKernel K} : Prop := {
  setsockopt_ok fd o v k k' : k_setsockopt fd o v k = (SysOk tt, k') ->
    forall fd' o', k_getsockopt fd' o' k'
      = if decide ((fd', o') = (fd, o)) then SysOk v else k_getsockopt fd' o' k;
  setsockopt_err fd o v k e k' : k_setsockopt fd o v k = (SysErr e, k') -> k' = k;
  names_family fd k a b : k_sockname fd k = SysOk a -> k_peername fd k = SysOk b ->
    sin_family a = sin_family b;
}.

Section sockets.
Context {K : Type} `{SocketKernel K}.
Implicit Types (k : K).

(** ** SocketOops *)

Definition fatal_if_error {A} (r : sys A * K) : outcome (A * K) :=
  match r with (SysOk a, k) => Ok (a, k) | (SysErr _, _) => Fault FAbort end.

Definition createNonblockingOrDie (family : Z) k : outcome (Z * K) :=
  fatal_if_error (k_socket family k).

Definition bindOrDie (sockfd : Z) (addr : InetAddress) k : outcome K :=
  '(_, k) ← fatal_if_error (k_bind sockfd addr k); Ok k.

Definition listenOrDie (sockfd : Z) k : outcome K :=
  '(_, k) ← fatal_if_error (k_listen sockfd k); Ok k.

Definition connect (sockfd : Z) (addr : InetAddress) k : sys unit * K :=
  k_connect sockfd addr k.

(** read, readv and write return what the system call does; what is read or written is
    between the call and the memory at [buf]. *)
Definition read {B} (sys_read : Z -> B -> Z -> K -> sys Z * K) (sockfd : Z) (buf : B)
    (count : Z) k : sys Z * K := sys_read sockfd buf count k.
Definition readv {B} (sys_readv : Z -> B -> Z -> K -> sys Z * K) (sockfd : Z) (iov : B)
    (iovcnt : Z) k : sys Z * K := sys_readv sockfd iov iovcnt k.
Definition write {B} (sys_write : Z -> B -> Z -> K -> sys Z * K) (sockfd : Z) (buf : B)
    (count : Z) k : sys Z * K := sys_write sockfd buf count k.

(** close and shutdownWrite only log a failure. *)
Definition close (sockfd : Z) k : K := (k_close sockfd k).2.
Definition shutdownWrite (sockfd : Z) k : K := (k_shutdown_wr sockfd k).2.

(** inet_pton(3) is the parameter: the four bytes, or nothing on a text that is no
    IPv4 address, which is only logged; the family and the port are set anyway. *)
Definition fromIpPort (inet_pton : bytes -> option Z) (ip : bytes) (port : Z)
    (addr : InetAddress) : InetAddress :=
  mkAddr AF_INET (hostToNetwork16 port)
    (match inet_pton ip with Some a => a | None => s_addr addr end) (s6_addr addr).

Definition getSocketError (sockfd : Z) k : Z :=
  match k_getsockopt sockfd SO_ERROR k with SysErr errno => errno | SysOk optval => optval end.

(** A sockaddr_in6 after memZero: its family is AF_UNSPEC. *)
Definition zero_addr : InetAddress := mkAddr 0 0 0 (replicate 16 0).

Definition getLocalAddr (sockfd : Z) k : InetAddress :=
  match k_sockname sockfd k with SysOk a => a | SysErr _ => zero_addr end.
Definition getPeerAddr (sockfd : Z) k : InetAddress :=
  match k_peername sockfd k with SysOk a => a | SysErr _ => zero_addr end.

Definition isSelfConnect (sockfd : Z) k : bool :=
  let localaddr := getLocalAddr sockfd k in
  let peeraddr := getPeerAddr sockfd k in
  if sin_family localaddr =? AF_INET
  then (sin_port localaddr =? sin_port peeraddr) && (s_addr localaddr =? s_addr peeraddr)
  else if sin_family localaddr =? AF_INET6
  then (sin_port localaddr =? sin_port peeraddr)
       && bool_decide (s6_addr localaddr = s6_addr peeraddr)
  else false.

(** ** Socket: the class holds the descriptor and nothing else *)

Definition Socket_dtor (sockfd : Z) k : K := close sockfd k.

Definition getTcpInfo (sockfd : Z) k : option tcp_info :=
  match k_tcp_info sockfd k with SysOk i => Some i | SysErr _ => None end.

(** The text the format of getTcpInfoString builds. *)
Definition tcp_info_text (i : tcp_info) : bytes :=
  txt "unrecovered=" ++ udec (tcpi_retransmits i)
  ++ txt " rto=" ++ udec (tcpi_rto i) ++ txt " ato=" ++ udec (tcpi_ato i)
  ++ txt " snd_mss=" ++ udec (tcpi_snd_mss i) ++ txt " rcv_mss=" ++ udec (tcpi_rcv_mss i)
  ++ txt " lost=" ++ udec (tcpi_lost i) ++ txt " retrans=" ++ udec (tcpi_retrans i)
  ++ txt " rtt=" ++ udec (tcpi_rtt i) ++ txt " rttvar=" ++ udec (tcpi_rttvar i)
  ++ txt " sshthresh=" ++ udec (tcpi_snd_ssthresh i) ++ txt " cwnd=" ++ udec (tcpi_snd_cwnd i)
  ++ txt " total_retrans=" ++ udec (tcpi_total_retrans i).

(** getTcpInfoString(buf, len): the new content of buf, and the result. *)
Definition getTcpInfoString (len sockfd : Z) (buf : bytes) k : bytes * bool :=
  match getTcpInfo sockfd k with
  | Some tcpi => (snprintf len (tcp_info_text tcpi), true)
  | None => (buf, false)
  end.

Definition bindAddress (sockfd : Z) (addr : InetAddress) k : outcome K :=
  bindOrDie sockfd addr k.
Definition listen (sockfd : Z) k : outcome K := listenOrDie sockfd k.

Definition optval (on : bool) : Z := if on then 1 else 0.

Definition setTcpNoDelay (sockfd : Z) (on : bool) k : K :=
  (k_setsockopt sockfd TCP_NODELAY (optval on) k).2.
Definition setReuseAddr (sockfd : Z) (on : bool) k : K :=
  (k_setsockopt sockfd SO_REUSEADDR (optval on) k).2.
Definition setKeepAlive (sockfd : Z) (on : bool) k : K :=
  (k_setsockopt sockfd SO_KEEPALIVE (optval on) k).2.

(** setReusePort reports (true) when the option was wanted and refused. *)
Definition setReusePort (sockfd : Z) (on : bool) k : bool * K :=
  match k_setsockopt sockfd SO_REUSEPORT (optval on) k with
  | (SysOk _, k) => (false, k)
  | (SysErr _, k) => (on, k)
  end.

(** The caller's peer address is not filled in: those lines are commented out. *)
Definition Socket_accept (r : accept_result) (errno : Z) (peeraddr : InetAddress) :
    outcome (Z * Z * InetAddress) :=
  '(connfd, errno) ← accept r errno; Ok (connfd, errno, peeraddr).

Definition Socket_shutdownWrite (sockfd : Z) k : K := shutdownWrite sockfd k.

(** TcpConnection::setTcpNoDelay and getTcpInfo forward to the socket. *)
Definition conn_setTcpNoDelay (sockfd : Z) (on : bool) k : K := setTcpNoDelay sockfd on k.
Definition conn_getTcpInfo (sockfd : Z) k : option tcp_info := getTcpInfo sockfd k.

(** TcpConnection::getTcpInfoString, in its buffer of 1024 bytes. *)
Definition conn_getTcpInfoString (sockfd : Z) k : bytes :=
  (getTcpInfoString 1024 sockfd [] k).1.

(** The socket of an Acceptor: the first two members of its constructor, and its
    body. *)
Definition listening_socket (listenAddr : InetAddress) (reuseport : bool) k : outcome (Z * K) :=
  '(fd, k) ← createNonblockingOrDie (family listenAddr) k;
  let k := setReuseAddr fd true k in
  let '(_, k) := setReusePort fd reuseport k in
  k ← bindAddress fd listenAddr k;
  Ok (fd, k).
End sockets.

Section laws.
Context {K : Type} `{SocketKernelLaws K}.
Implicit Types (k : K).

(** ** The options *)

(** What a setter leaves: the option when the kernel takes it; no other option of
    any socket changes in either case. *)
Lemma setter_spec fd o on k :
  let k' := (k_setsockopt fd o (optval on) k).2 in
  (forall fd' o', (fd', o') <> (fd, o) -> k_getsockopt fd' o' k' = k_getsockopt fd' o' k)
  /\ match (k_setsockopt fd o (optval on) k).1 with
     | SysOk _ => k_getsockopt fd o k' = SysOk (optval on)
     | SysErr _ => k' = k
     end.
Proof.
  destruct (k_setsockopt fd o (optval on) k) as [[[]|e] k'] eqn:E; simpl.
  - pose proof (setsockopt_ok _ _ _ _ _ E) as Hk. split.
    + intros fd' o' Hne. by rewrite Hk, decide_False.
    + by rewrite Hk, decide_True.
  - by rewrite (setsockopt_err _ _ _ _ _ _ E).
Qed.

(** ** Self connection *)

(** The end of a connection a name denotes. *)
Definition endpoint (a : InetAddress) : Z * Z * list Z :=
  (sin_family a, sin_port a, if sin_family a =? AF_INET then [s_addr a] else s6_addr a).

Definition is_ip (a : InetAddress) : Prop := sin_family a = AF_INET \/ sin_family a = AF_INET6.

(** What getPeerAddr answers for a socket without a peer, seen in [a]'s family. *)
Definition no_peer (a : InetAddress) : Z * Z * list Z :=
  (sin_family a, 0, if sin_family a =? AF_INET then [0] else replicate 16 0).

(** isSelfConnect compares the two ends of a connection: it is true exactly for a
    socket with an IP name whose peer has the same name; and, because a failing
    getpeername(2) leaves an all-zero address, for a socket without a peer that is
    not bound either. *)
Theorem isSelfConnect_spec fd k :
  isSelfConnect fd k = true <->
  exists a, k_sockname fd k = SysOk a /\ is_ip a
    /\ endpoint a = match k_peername fd k with SysOk b => endpoint b | SysErr _ => no_peer a end.
Proof.
  unfold isSelfConnect, getLocalAddr, getPeerAddr, endpoint, no_peer, is_ip.
  destruct (k_sockname fd k) as [a|e] eqn:Ea.
  2: { split; [done|]. by intros (a & ? & _). }
  assert ((exists a0, SysOk a = SysOk a0 /\ (sin_family a0 = AF_INET \/ sin_family a0 = AF_INET6)
    /\ endpoint a0 = match k_peername fd k with SysOk b => endpoint b | SysErr _ => no_peer a0 end)
    <-> (sin_family a = AF_INET \/ sin_family a = AF_INET6)
    /\ endpoint a = match k_peername fd k with SysOk b => endpoint b | SysErr _ => no_peer a end)
    as Hex by naive_solver.
  unfold endpoint, no_peer in Hex. rewrite Hex. clear Hex.
  assert (forall b, k_peername fd k = SysOk b -> sin_family a = sin_family b) as Hf
    by (intros b Hb; by eapply names_family).
  destruct (k_peername fd k) as [b|e]; [rewrite <- (Hf b eq_refl)|]; simpl;
    destruct (Z.eqb_spec (sin_family a) AF_INET) as [->|H4];
    try destruct (Z.eqb_spec (sin_family a) AF_INET6) as [->|H6];
    rewrite ?andb_true_iff, ?Z.eqb_eq, ?bool_decide_eq_true; simpl;
    split; intros; destruct_and?; destruct_or?; simplify_eq; auto; try congruence;
    split; auto; congruence.
Qed.

(** ** Bounds *)

Definition tcp_info_u32 (i : tcp_info) : Prop :=
  Forall (fun x => 0 <= x < 2 ^ 32)
    [tcpi_retransmits i; tcpi_rto i; tcpi_ato i; tcpi_snd_mss i; tcpi_rcv_mss i; tcpi_lost i;
     tcpi_retrans i; tcpi_rtt i; tcpi_rttvar i; tcpi_snd_ssthresh i; tcpi_snd_cwnd i;
     tcpi_total_retrans i].

(** The line fits the buffer TcpConnection gives it: nothing is cut off. *)
Lemma tcp_info_fits fd k i :
  k_tcp_info fd k = SysOk i -> tcp_info_u32 i -> conn_getTcpInfoString fd k = tcp_info_text i.
Proof.
  intros Hi Hr. unfold conn_getTcpInfoString, getTcpInfoString, getTcpInfo. rewrite Hi.
  cbn [fst]. unfold snprintf. apply take_ge.
  assert (forall x, x ∈ [tcpi_retransmits i; tcpi_rto i; tcpi_ato i; tcpi_snd_mss i;
    tcpi_rcv_mss i; tcpi_lost i; tcpi_retrans i; tcpi_rtt i; tcpi_rttvar i;
    tcpi_snd_ssthresh i; tcpi_snd_cwnd i; tcpi_total_retrans i] -> zlen (udec x) <= 10) as Hx.
  { intros x Hin. unfold tcp_info_u32 in Hr. rewrite Forall_forall in Hr.
    specialize (Hr x Hin). pose proof (length_udec x 10 ltac:(lia) ltac:(lia)).
    unfold zlen. lia. }
  assert (zlen (tcp_info_text i) <= 300) as Hl; [|unfold zlen in Hl; lia].
  unfold tcp_info_text. rewrite !zlen_app.
  repeat match goal with |- context [zlen (udec ?x)] =>
    lazymatch goal with
    | _ : zlen (udec x) <= 10 |- _ => fail
    | _ => pose proof (Hx x ltac:(set_solver)) end end.
  repeat match goal with |- context [zlen (txt ?s)] =>
    let n := eval vm_compute in (zlen (txt s)) in change (zlen (txt s)) with n end.
  lia.
Qed.
End laws.

(** ** A kernel that does what the manual pages say *)

Record DemoKernel := mkDemo {
  d_opts : gmap (Z * sockopt) Z;
  d_names : gmap Z (InetAddress * option InetAddress);
}.

#[export] Instance demo_sockets : SocketKernel DemoKernel := {
  k_socket f k := (SysOk 3, k);
  k_bind fd a k := (SysOk tt, mkDemo (d_opts k) (<[fd := (a, None)]> (d_names k)));
  k_listen fd k := (SysOk tt, k);
  k_connect fd a k := (SysOk tt, k);
  k_shutdown_wr fd k := (SysOk tt, k);
  k_close fd k := (SysOk tt, k);
  k_setsockopt fd o v k := (SysOk tt, mkDemo (<[(fd, o) := v]> (d_opts k)) (d_names k));
  k_getsockopt fd o k := SysOk (default 0 (d_opts k !! (fd, o)));
  k_tcp_info fd k := SysErr 95;
  k_sockname fd k := match d_names k !! fd with Some (a, _) => SysOk a | None => SysErr EBADF end;
  k_peername fd k :=
    match d_names k !! fd with
    | Some (a, Some b) => if decide (sin_family a = sin_family b) then SysOk b else SysErr 107
    | _ => SysErr 107
    end;
}.

#[export] Instance demo_sockets_laws : SocketKernelLaws DemoKernel.
Proof.
  split; simpl.
  - intros fd o v k k' [= <-] fd' o'. simpl. case_decide as He.
    + by rewrite He, lookup_insert_eq.
    + by rewrite lookup_insert_ne.
  - done.
  - intros fd k a b. destruct (d_names k !! fd) as [[a' [b'|]]|]; try done.
    case_decide; naive_solver.
Qed.

(** A bound listening socket has both options, and is not connected to itself. *)
Example listening_socket_demo :
  match listening_socket (InetAddress_ctor 80 false false) true (mkDemo ∅ ∅) with
  | Ok (fd, k) => k_getsockopt fd SO_REUSEADDR k = SysOk 1
      /\ k_getsockopt fd SO_REUSEPORT k = SysOk 1 /\ isSelfConnect fd k = false
  | Fault _ => False
  end.
Proof. vm_compute. repeat split. Qed.

(** A socket bound to nothing, without a peer, counts as connected to itself. *)
Example unbound_self_connect :
  isSelfConnect 3 (mkDemo ∅ {[ 3 := (InetAddress_ctor 0 false false, None) ]}) = true.
Proof. vm_compute. reflexivity. Qed.
