(* ===== verification/SockAddr.v ===== *)
(** include/Types.h, the pointer casts of include/SocketOops.h and src/SocketOops.cc,
    and the functions of SocketOops and InetAddress that work through them: an address
    as it lies in memory.

    [Sockets] and [Socket] know an address by its members.  Here it is the bytes of a
    union of sockaddr_in and sockaddr_in6 (netinet/in.h on x86-64), of which those
    that were never written are indeterminate, reached through pointers that the
    program casts from one of the types to another.  The theorems say that the
    members are a faithful view of the bytes. *)

From S2P Require Import Prelude Format Sockets Socket.

(** ** Objects and pointers *)

(** A byte: its value, or indeterminate. *)
Abbreviation cell := (option Z).
Abbreviation object := (list cell).
Abbreviation memory := (gmap Z object).

Inductive pointee := Void | Sockaddr | Sockaddr_in | Sockaddr_in6.

Record ptr := mkPtr { address : Z; pointed : pointee }.

(** A conversion keeps the address and changes what is seen there. *)
Definition implicit_cast (To : pointee) (f : ptr) : ptr := mkPtr (address f) To.
Definition static_cast (To : pointee) (f : ptr) : ptr := mkPtr (address f) To.

(** The three overloads differ in const and in the type they take. *)
Definition sockaddr_cast (addr : ptr) : ptr := static_cast Sockaddr (implicit_cast Void addr).
Definition sockaddr_in_cast (addr : ptr) : ptr :=
  static_cast Sockaddr_in (implicit_cast Void addr).
Definition sockaddr_in6_cast (addr : ptr) : ptr :=
  static_cast Sockaddr_in6 (implicit_cast Void addr).

(** The members the program uses: their offset and size in each type. *)
Inductive member := MFamily | MPort | MAddr | MAddr6.

Definition place (t : pointee) (m : member) : option (Z * Z) :=
  match t, m with
  | (Sockaddr | Sockaddr_in | Sockaddr_in6), MFamily => Some (0, 2)
  | (Sockaddr_in | Sockaddr_in6), MPort => Some (2, 2)
  | Sockaddr_in, MAddr => Some (4, 4)
  | Sockaddr_in6, MAddr6 => Some (8, 16)
  | _, _ => None
  end.

Definition sizeof (t : pointee) : Z :=
  match t with Void => 0 | Sockaddr | Sockaddr_in => 16 | Sockaddr_in6 => 28 end.

Fixpoint determinate (cs : object) : option (list Z) :=
  match cs with
  | [] => Some []
  | Some b :: cs => bs ← determinate cs; Some (b :: bs)
  | None :: cs => None
  end.

(** The bytes of a member, and the number in one. *)
Definition load (p : ptr) (m : member) (mem : memory) : outcome (list Z) :=
  match mem !! address p, place (pointed p) m with
  | Some obj, Some (off, n) =>
      require (off + n <=? zlen obj) FOutOfBounds;;
      match determinate (slice off n obj) with
      | Some bs => Ok bs
      | None => Fault FIndeterminate
      end
  | _, _ => Fault FUseAfterFree
  end.

Definition load_int (p : ptr) (m : member) (mem : memory) : outcome Z :=
  bs ← load p m mem; Ok (of_le bs).

Definition write_object (this off : Z) (bs : list Z) (mem : memory) : outcome memory :=
  match mem !! this with
  | Some obj =>
      require (off + zlen bs <=? zlen obj) FOutOfBounds;;
      Ok (<[this := write_at off (Some <$> bs) obj]> mem)
  | None => Fault FUseAfterFree
  end.

Definition store (p : ptr) (m : member) (bs : list Z) (mem : memory) : outcome memory :=
  match place (pointed p) m with
  | Some (off, _) => write_object (address p) off bs mem
  | None => Fault FUseAfterFree
  end.

Definition store_int (p : ptr) (m : member) (x : Z) (mem : memory) : outcome memory :=
  match place (pointed p) m with
  | Some (_, n) => store p m (to_le (Z.to_nat n) x) mem
  | None => Fault FUseAfterFree
  end.

(** memZero(p, n) *)
Definition memZero (p : ptr) (n : Z) (mem : memory) : outcome memory :=
  write_object (address p) 0 (replicate (Z.to_nat n) 0) mem.

(** ** InetAddress: the union at [this] *)

Definition addr_ (this : Z) : ptr := mkPtr this Sockaddr_in.
Definition addr6_ (this : Z) : ptr := mkPtr this Sockaddr_in6.

(** Storage for one, before its constructor. *)
Definition raw_inet : object := replicate 28 None.

Definition InetAddress_ctor (this portArg : Z) (loopbackOnly ipv6 : bool) (mem : memory) :
    outcome memory :=
  if ipv6
  then
    mem ← memZero (addr6_ this) (sizeof Sockaddr_in6) mem;
    mem ← store_int (addr6_ this) MFamily AF_INET6 mem;
    mem ← store (addr6_ this) MAddr6 (if loopbackOnly then in6addr_loopback else in6addr_any) mem;
    store_int (addr6_ this) MPort (hostToNetwork16 portArg) mem
  else
    mem ← memZero (addr_ this) (sizeof Sockaddr_in) mem;
    mem ← store_int (addr_ this) MFamily AF_INET mem;
    mem ← store_int (addr_ this) MAddr
            (hostToNetwork32 (if loopbackOnly then INADDR_LOOPBACK else INADDR_ANY)) mem;
    store_int (addr_ this) MPort (hostToNetwork16 portArg) mem.

(** InetAddress(const struct sockaddr_in&) and (const struct sockaddr_in6&) copy the
    object into the union. *)
Definition copied (n : Z) (from to : object) : object := slice 0 n from ++ drop (Z.to_nat n) to.
Definition InetAddress_from (t : pointee) (addr : object) : object :=
  copied (sizeof t) addr raw_inet.

Definition family (this : Z) (mem : memory) : outcome Z := load_int (addr_ this) MFamily mem.
Definition portNetEndian (this : Z) (mem : memory) : outcome Z :=
  load_int (addr_ this) MPort mem.
Definition port (this : Z) (mem : memory) : outcome Z :=
  p ← portNetEndian this mem; Ok (networkToHost16 p).
Definition getSockAddr (this : Z) : ptr := sockaddr_cast (addr6_ this).

(** ** SocketOops *)

(** toIp and toIpPort: what they leave in an empty buffer of [size] bytes. *)
Definition toIp (size : Z) (addr : ptr) (mem : memory) : outcome bytes :=
  fam ← load_int addr MFamily mem;
  if fam =? AF_INET
  then
    let addr4 := sockaddr_in_cast addr in
    a ← load_int addr4 MAddr mem;
    Ok (snprintf size (inet_ntop4 a))
  else Ok [].

Definition toIpPort (size : Z) (addr : ptr) (mem : memory) : outcome bytes :=
  ip ← toIp size addr mem;
  let addr4 := sockaddr_in_cast addr in
  p ← load_int addr4 MPort mem;
  Ok (ip ++ snprintf (size - zlen ip) (txt ":" ++ udec (networkToHost16 p))).

(** toIp() and toIpPort() of InetAddress, in their buffers of 64 bytes. *)
Definition InetAddress_toIp (this : Z) (mem : memory) : outcome bytes :=
  toIp 64 (getSockAddr this) mem.
Definition InetAddress_toIpPort (this : Z) (mem : memory) : outcome bytes :=
  toIpPort 64 (getSockAddr this) mem.

Definition fromIpPort (inet_pton : bytes -> option Z) (ip : bytes) (port : Z) (addr : ptr)
    (mem : memory) : outcome memory :=
  mem ← store_int addr MFamily AF_INET mem;
  mem ← store_int addr MPort (hostToNetwork16 port) mem;
  match inet_pton ip with Some a => store_int addr MAddr a mem | None => Ok mem end.

(** What bind(2) and connect(2) are given: bindOrDie and connect pass the size of a
    sockaddr_in6 whatever the family is. *)
Definition passed (addr : ptr) (mem : memory) : option object :=
  slice 0 (sizeof Sockaddr_in6) <$> mem !! address addr.

(** getLocalAddr and getPeerAddr return their object, of which getsockname(2) or
    getpeername(2) has written the first bytes. *)
Definition named_addr (name : sys (list Z)) : object :=
  let obj := replicate (Z.to_nat (sizeof Sockaddr_in6)) (Some 0) in
  match name with
  | SysOk bs => write_at 0 (Some <$> take (Z.to_nat (sizeof Sockaddr_in6)) bs) obj
  | SysErr _ => obj
  end.

(** isSelfConnect: the objects of its two variables, and its casts of their
    addresses. *)
Definition isSelfConnect (sockname peername : sys (list Z)) : outcome bool :=
  let mem : memory := <[1 := named_addr sockname]> {[2 := named_addr peername]} in
  let localaddr := mkPtr 1 Sockaddr_in6 in
  let peeraddr := mkPtr 2 Sockaddr_in6 in
  fam ← load_int localaddr MFamily mem;
  if fam =? AF_INET
  then
    let laddr4 := static_cast Sockaddr_in localaddr in
    let raddr4 := static_cast Sockaddr_in peeraddr in
    lp ← load_int laddr4 MPort mem; rp ← load_int raddr4 MPort mem;
    if lp =? rp
    then la ← load_int laddr4 MAddr mem; ra ← load_int raddr4 MAddr mem; Ok (la =? ra)
    else Ok false
  else if fam =? AF_INET6
  then
    lp ← load_int localaddr MPort mem; rp ← load_int peeraddr MPort mem;
    if lp =? rp
    then l6 ← load localaddr MAddr6 mem; r6 ← load peeraddr MAddr6 mem; Ok (bool_decide (l6 = r6))
    else Ok false
  else Ok false.

(** ** The members as a view of the bytes *)

Lemma determinate_some bs : determinate (Some <$> bs) = Some bs.
Proof. induction bs as [|b bs IH]; [done|]. csimpl. by rewrite IH. Qed.

(** A member list of an address, in its range. *)
Record wf_addr (a : InetAddress) : Prop := {
  wa_family : 0 <= sin_family a < 2 ^ 16;
  wa_port : 0 <= sin_port a < 2 ^ 16;
  wa_addr : 0 <= s_addr a < 2 ^ 32;
  wa_addr6 : sin_family a <> AF_INET -> length (s6_addr a) = 16%nat;
}.

(** The object [obj] has the members [a]: those of the type its family tells. *)
Record represents (obj : object) (a : InetAddress) : Prop := {
  rp_len : 16 <= zlen obj;
  rp_len6 : sin_family a <> AF_INET -> zlen obj = 28;
  rp_family : slice 0 2 obj = Some <$> to_le 2 (sin_family a);
  rp_port : slice 2 2 obj = Some <$> to_le 2 (sin_port a);
  rp_addr : sin_family a <> AF_INET6 -> slice 4 4 obj = Some <$> to_le 4 (s_addr a);
  rp_addr6 : sin_family a <> AF_INET -> slice 8 16 obj = Some <$> s6_addr a;
}.

Section view.
Implicit Types (mem : memory) (obj : object) (a : InetAddress) (p : ptr).

Lemma load_ok p m mem obj off n bs :
  mem !! address p = Some obj -> place (pointed p) m = Some (off, n) ->
  off + n <= zlen obj -> slice off n obj = Some <$> bs -> load p m mem = Ok bs.
Proof.
  intros Ho Hp Hl Hs. unfold load. rewrite Ho, Hp, (proj2 (Z.leb_le _ _) Hl). simpl.
  by rewrite Hs, determinate_some.
Qed.

Lemma load_int_ok p m mem obj off n x :
  mem !! address p = Some obj -> place (pointed p) m = Some (off, Z.of_nat n) ->
  off + Z.of_nat n <= zlen obj -> slice off (Z.of_nat n) obj = Some <$> to_le n x ->
  0 <= x < 256 ^ Z.of_nat n -> load_int p m mem = Ok x.
Proof.
  intros Ho Hp Hl Hs Hx. unfold load_int. rewrite (load_ok p m mem obj off (Z.of_nat n) (to_le n x)) by done.
  simpl. by rewrite of_to_le.
Qed.

Lemma load_family t this mem obj a :
  mem !! this = Some obj -> represents obj a -> wf_addr a -> t <> Void ->
  load_int (mkPtr this t) MFamily mem = Ok (sin_family a).
Proof.
  intros Ho R W Ht. pose proof (rp_len _ _ R).
  apply (load_int_ok _ _ _ obj 0 2); [done|by destruct t|simpl; lia|apply R|apply W].
Qed.

Lemma load_port t this mem obj a :
  mem !! this = Some obj -> represents obj a -> wf_addr a -> t = Sockaddr_in \/ t = Sockaddr_in6 ->
  load_int (mkPtr this t) MPort mem = Ok (sin_port a).
Proof.
  intros Ho R W Ht. pose proof (rp_len _ _ R).
  apply (load_int_ok _ _ _ obj 2 2); [done|by destruct Ht as [-> | ->]|simpl; lia|apply R|apply W].
Qed.

Lemma load_addr this mem obj a :
  mem !! this = Some obj -> represents obj a -> wf_addr a -> sin_family a <> AF_INET6 ->
  load_int (mkPtr this Sockaddr_in) MAddr mem = Ok (s_addr a).
Proof.
  intros Ho R W Hf. pose proof (rp_len _ _ R).
  apply (load_int_ok _ _ _ obj 4 4); [done|done|simpl; lia|by apply R|apply W].
Qed.

Lemma load_addr6 this mem obj a :
  mem !! this = Some obj -> represents obj a -> sin_family a <> AF_INET ->
  load (mkPtr this Sockaddr_in6) MAddr6 mem = Ok (s6_addr a).
Proof.
  intros Ho R Hf. pose proof (rp_len6 _ _ R Hf).
  apply (load_ok _ _ _ obj 8 16); [done|done|lia|by apply R].
Qed.

(** The text of an address, read through the casts. *)
Lemma toIpPort_view size t this mem obj a :
  mem !! this = Some obj -> represents obj a -> wf_addr a -> t <> Void ->
  toIp size (mkPtr this t) mem = Ok (Sockets.toIp size a)
  /\ toIpPort size (mkPtr this t) mem = Ok (Sockets.toIpPort size a).
Proof.
  intros Ho R W Ht. assert (toIp size (mkPtr this t) mem = Ok (Sockets.toIp size a)) as Hip.
  { unfold toIp, Sockets.toIp. rewrite (load_family t this mem obj a) by done. simpl.
    destruct (Z.eqb_spec (sin_family a) AF_INET) as [Hf|?]; [|done].
    unfold sockaddr_in_cast, static_cast. simpl.
    by rewrite (load_addr this mem obj a) by (rewrite ?Hf; done). }
  split; [done|]. unfold toIpPort. rewrite Hip. simpl. unfold sockaddr_in_cast, static_cast. simpl.
  rewrite (load_port Sockaddr_in this mem obj a) by (done || by left). done.
Qed.

(** *** Writing members *)

Lemma write_object_ok this off bs mem obj :
  mem !! this = Some obj -> off + zlen bs <= zlen obj ->
  write_object this off bs mem = Ok (<[this := write_at off (Some <$> bs) obj]> mem).
Proof. intros Ho Hl. unfold write_object. by rewrite Ho, (proj2 (Z.leb_le _ _) Hl). Qed.

Lemma zlen_fmap {A B} (f : A -> B) l : zlen (f <$> l) = zlen l.
Proof. unfold zlen. by rewrite length_fmap. Qed.

Lemma zlen_to_le w x : zlen (to_le w x) = Z.of_nat w.
Proof. unfold zlen. by rewrite to_le_length. Qed.

(** A number written to its member of a sockaddr_in, at [off]. *)
Definition put_le (off : Z) (w : nat) (x : Z) obj : object :=
  write_at off (Some <$> to_le w x) obj.

Lemma put_le_zlen off w x obj :
  0 <= off -> off + Z.of_nat w <= zlen obj -> zlen (put_le off w x obj) = zlen obj.
Proof. intros. apply write_at_zlen; [done|]. by rewrite zlen_fmap, zlen_to_le. Qed.

Lemma put_le_same off w x obj :
  0 <= off -> off + Z.of_nat w <= zlen obj ->
  slice off (Z.of_nat w) (put_le off w x obj) = Some <$> to_le w x.
Proof.
  intros. rewrite <- (zlen_to_le w x), <- (zlen_fmap Some). apply slice_write_same; [done|].
  by rewrite zlen_fmap, zlen_to_le.
Qed.

Lemma put_le_other off w x obj i n :
  0 <= off -> off + Z.of_nat w <= zlen obj -> 0 <= i -> 0 <= n ->
  i + n <= off \/ off + Z.of_nat w <= i -> slice i n (put_le off w x obj) = slice i n obj.
Proof.
  intros ? ? ? ? [?|?]; [apply slice_write_before|apply slice_write_after];
    rewrite ?zlen_fmap, ?zlen_to_le; lia.
Qed.

Lemma store_int_ok this t m off w x mem obj :
  mem !! this = Some obj -> place t m = Some (off, Z.of_nat w) ->
  off + Z.of_nat w <= zlen obj ->
  store_int (mkPtr this t) m x mem = Ok (<[this := put_le off w x obj]> mem).
Proof.
  intros Ho Hp Hl. unfold store_int, store. cbn [pointed address]. rewrite Hp, Nat2Z.id.
  apply write_object_ok; [done|]. by rewrite zlen_to_le.
Qed.

(** fromIpPort makes an IPv4 address of any object. *)
Lemma fromIpPort_view inet_pton ip port this mem obj a :
  mem !! this = Some obj -> 16 <= zlen obj ->
  (inet_pton ip = None -> slice 4 4 obj = Some <$> to_le 4 (s_addr a)) ->
  exists obj', fromIpPort inet_pton ip port (mkPtr this Sockaddr_in) mem = Ok (<[this := obj']> mem)
    /\ zlen obj' = zlen obj /\ represents obj' (Socket.fromIpPort inet_pton ip port a).
Proof.
  intros Ho Hl Hnone. unfold fromIpPort.
  set (o1 := put_le 0 2 AF_INET obj). set (o2 := put_le 2 2 (hostToNetwork16 port) o1).
  set (o3 := match inet_pton ip with Some x => put_le 4 4 x o2 | None => o2 end).
  assert (zlen o1 = zlen obj) as L1 by (apply put_le_zlen; lia).
  assert (zlen o2 = zlen obj) as L2 by (subst o2; rewrite put_le_zlen; lia).
  assert (zlen o3 = zlen obj) as L3.
  { subst o3. destruct (inet_pton ip); [rewrite put_le_zlen|]; lia. }
  rewrite (store_int_ok this _ _ 0 2 _ _ obj) by (done || (simpl; lia)).
  change (Ok ?x ≫= ?k) with (k x). cbv beta.
  rewrite (store_int_ok this _ _ 2 2 _ _ o1) by (apply lookup_insert_eq || done || (simpl; lia)).
  change (Ok ?x ≫= ?k) with (k x). cbv beta. rewrite insert_insert_eq. fold o1 o2.
  exists o3. split; [|split; [done|]].
  - subst o3. destruct (inet_pton ip) as [x|]; [|done].
    rewrite (store_int_ok this _ _ 4 4 _ _ o2) by (apply lookup_insert_eq || done || (simpl; lia)).
    by rewrite insert_insert_eq.
  - unfold Socket.fromIpPort. split; cbn [sin_family sin_port s_addr s6_addr]; try done; [lia|..].
    + transitivity (slice 0 2 o2).
      { subst o3. destruct (inet_pton ip); [apply put_le_other; lia|done]. }
      transitivity (slice 0 2 o1); [apply put_le_other; lia|]. apply (put_le_same 0 2); lia.
    + transitivity (slice 2 2 o2).
      { subst o3. destruct (inet_pton ip); [apply put_le_other; lia|done]. }
      apply (put_le_same 2 2); lia.
    + intros _. subst o3. destruct (inet_pton ip) as [x|]; [apply (put_le_same 4 4); lia|].
      rewrite <- Hnone by done. transitivity (slice 4 4 o1); apply put_le_other; lia.
Qed.
End view.

(** *** The names of a socket *)

(** The kernel writes the bytes of the name. *)
Definition same_name (bytes_ : sys (list Z)) (name : sys InetAddress) : Prop :=
  match bytes_, name with
  | SysOk _, SysOk a => represents (named_addr bytes_) a /\ wf_addr a
  | SysErr _, SysErr _ => True
  | _, _ => False
  end.

Section names.
Context {K : Type} `{SocketKernelLaws K}.

Lemma isSelfConnect_view fd (k : K) sockname peername :
  same_name sockname (k_sockname fd k) -> same_name peername (k_peername fd k) ->
  isSelfConnect sockname peername = Ok (Socket.isSelfConnect fd k).
Proof.
  intros Hs Hp. unfold isSelfConnect, Socket.isSelfConnect.
  assert (represents (named_addr sockname) (getLocalAddr fd k) /\ wf_addr (getLocalAddr fd k)) as [R1 W1].
  { unfold getLocalAddr. destruct sockname, (k_sockname fd k); done. }
  assert (represents (named_addr peername) (getPeerAddr fd k) /\ wf_addr (getPeerAddr fd k)) as [R2 W2].
  { unfold getPeerAddr. destruct peername, (k_peername fd k); done. }
  assert (sin_family (getLocalAddr fd k) = AF_INET \/ sin_family (getLocalAddr fd k) = AF_INET6 ->
    sin_family (getPeerAddr fd k) = sin_family (getLocalAddr fd k) \/ sin_family (getPeerAddr fd k) = 0)
    as Hf.
  { unfold getLocalAddr, getPeerAddr. destruct (k_sockname fd k) as [a|] eqn:Ea,
      (k_peername fd k) as [b|] eqn:Eb; auto.
    - intros _. left. symmetry. by eapply names_family.
    - intros [?|?]; done. }
  set (a := getLocalAddr fd k) in *. set (b := getPeerAddr fd k) in *.
  set (mem := <[1 := _]> _ : memory).
  assert (mem !! 1 = Some (named_addr sockname)) as M1 by done.
  assert (mem !! 2 = Some (named_addr peername)) as M2 by done.
  clearbody mem. unfold static_cast. cbn [address].
  rewrite (load_family Sockaddr_in6 1 mem (named_addr sockname) a) by done.
  change (Ok ?x ≫= ?k) with (k x). cbv beta.
  destruct (Z.eqb_spec (sin_family a) AF_INET) as [H4|H4];
    [|destruct (Z.eqb_spec (sin_family a) AF_INET6) as [H6|H6]; [|done]].
  - specialize (Hf (or_introl H4)).
    rewrite (load_port Sockaddr_in 1 mem (named_addr sockname) a) by (done || by left).
    change (Ok ?x ≫= ?k) with (k x). cbv beta.
    rewrite (load_port Sockaddr_in 2 mem (named_addr peername) b) by (done || by left).
    change (Ok ?x ≫= ?k) with (k x). cbv beta.
    destruct (sin_port a =? sin_port b); [|done].
    rewrite (load_addr 1 mem (named_addr sockname) a) by (done || by rewrite H4).
    change (Ok ?x ≫= ?k) with (k x). cbv beta.
    rewrite (load_addr 2 mem (named_addr peername) b); [done..|].
    destruct Hf as [-> | ->]; [by rewrite H4|done].
  - specialize (Hf (or_intror H6)).
    rewrite (load_port Sockaddr_in6 1 mem (named_addr sockname) a) by (done || by right).
    change (Ok ?x ≫= ?k) with (k x). cbv beta.
    rewrite (load_port Sockaddr_in6 2 mem (named_addr peername) b) by (done || by right).
    change (Ok ?x ≫= ?k) with (k x). cbv beta.
    destruct (sin_port a =? sin_port b); [|done].
    rewrite (load_addr6 1 mem (named_addr sockname) a) by done.
    change (Ok ?x ≫= ?k) with (k x). cbv beta.
    rewrite (load_addr6 2 mem (named_addr peername) b); [done..|].
    destruct Hf as [-> | ->]; [by rewrite H6|done].
Qed.
End names.

(** *** What the constructor leaves *)

(** The bytes of an address: an IPv6 one fills the union, of an IPv4 one the end is
    never written. *)
Definition inet_bytes (a : InetAddress) : object :=
  (Some <$> (to_le 2 (sin_family a) ++ to_le 2 (sin_port a)))
  ++ if sin_family a =? AF_INET6
     then Some <$> (replicate 4 0 ++ s6_addr a ++ replicate 4 0)
     else (Some <$> (to_le 4 (s_addr a) ++ replicate 8 0)) ++ replicate 12 None.

Lemma ctor_bytes this portArg loopbackOnly ipv6 mem :
  mem !! this = Some raw_inet ->
  InetAddress_ctor this portArg loopbackOnly ipv6 mem
  = Ok (<[this := inet_bytes (Sockets.InetAddress_ctor portArg loopbackOnly ipv6)]> mem).
Proof.
  intros Ho. unfold InetAddress_ctor, memZero, store_int, store. cbn [address pointed addr_ addr6_ place].
  destruct ipv6, loopbackOnly; rewrite (write_object_ok _ _ _ _ _ Ho) by (vm_compute; done);
    cbn [mbind outcome_bind];
    repeat (rewrite (write_object_ok _ _ _ _ _ (lookup_insert_eq _ _ _)) by (vm_compute; done);
            cbn [mbind outcome_bind]; rewrite insert_insert_eq); reflexivity.
Qed.

Lemma inet_ctor_wf portArg loopbackOnly ipv6 : 0 <= portArg < 2 ^ 16 ->
  wf_addr (Sockets.InetAddress_ctor portArg loopbackOnly ipv6).
Proof.
  intros Hp. pose proof (swap_range 2 portArg). 
  destruct ipv6, loopbackOnly; split; try done; by vm_compute.
Qed.

Lemma inet_bytes_represents portArg loopbackOnly ipv6 :
  represents (inet_bytes (Sockets.InetAddress_ctor portArg loopbackOnly ipv6))
    (Sockets.InetAddress_ctor portArg loopbackOnly ipv6).
Proof. destruct ipv6, loopbackOnly; split; done. Qed.

Definition determined (cs : object) : Prop := exists bs, determinate cs = Some bs.

Lemma snprintf_fits n s : zlen s < n -> snprintf n s = s.
Proof. intros. unfold snprintf. apply take_ge. unfold zlen in *. lia. Qed.

Lemma toIpPort_ctor portArg loopbackOnly ipv6 : 0 <= portArg < 2 ^ 16 ->
  Sockets.InetAddress_toIpPort (Sockets.InetAddress_ctor portArg loopbackOnly ipv6)
  = (if ipv6 then [] else txt (if loopbackOnly then "127.0.0.1" else "0.0.0.0"))
    ++ txt ":" ++ udec portArg.
Proof.
  intros Hp. unfold Sockets.InetAddress_toIpPort, Sockets.toIpPort.
  set (a := Sockets.InetAddress_ctor portArg loopbackOnly ipv6).
  assert (Sockets.toIp 64 a
    = if ipv6 then [] else txt (if loopbackOnly then "127.0.0.1" else "0.0.0.0")) as ->
    by (destruct ipv6, loopbackOnly; by vm_compute).
  f_equal. assert (networkToHost16 (sin_port a) = portArg) as ->.
  { subst a. unfold Sockets.InetAddress_ctor. destruct ipv6; simpl; by apply (swap_swap 2). }
  apply snprintf_fits. pose proof (length_udec portArg 5 ltac:(lia) ltac:(lia)).
  assert (zlen (txt ":" ++ udec portArg) <= 6) by (rewrite zlen_app; unfold zlen in *; simpl; lia).
  destruct ipv6, loopbackOnly; vm_compute (zlen (txt _)); rewrite ?zlen_nil; lia.
Qed.

(** C35. What an InetAddress is made of reads back from its bytes.  On raw storage the
    constructor writes only inside the union, and then the family, the port and the
    text, read through casts of the union's members to sockaddr and to sockaddr_in, are
    those of the arguments, and never an indeterminate byte (of an IPv6 address the
    text has the port only).  bind(2) and connect(2), which are always given 28 bytes,
    get all of an IPv6 address; of an IPv4 one the last 12 are indeterminate, but not
    the 16 of its sockaddr_in. *)
Theorem address_roundtrip this portArg loopbackOnly ipv6 (mem : memory)
    (Hm : mem !! this = Some raw_inet) (Hp : 0 <= portArg < 2 ^ 16) :
  exists obj, InetAddress_ctor this portArg loopbackOnly ipv6 mem = Ok (<[this := obj]> mem)
    /\ family this (<[this := obj]> mem) = Ok (if ipv6 then AF_INET6 else AF_INET)
    /\ port this (<[this := obj]> mem) = Ok portArg
    /\ InetAddress_toIpPort this (<[this := obj]> mem)
       = Ok ((if ipv6 then [] else txt (if loopbackOnly then "127.0.0.1" else "0.0.0.0"))
             ++ txt ":" ++ udec portArg)
    /\ exists cs, passed (getSockAddr this) (<[this := obj]> mem) = Some cs /\ zlen cs = 28
         /\ if ipv6 then determined cs
            else determined (take 16 cs) /\ drop 16 cs = replicate 12 None.
Proof.
  set (a := Sockets.InetAddress_ctor portArg loopbackOnly ipv6).
  pose proof (inet_ctor_wf portArg loopbackOnly ipv6 Hp) as W. fold a in W.
  pose proof (inet_bytes_represents portArg loopbackOnly ipv6) as R. fold a in R.
  exists (inet_bytes a). split; [by apply ctor_bytes|].
  set (mem' := <[this := inet_bytes a]> mem).
  assert (mem' !! this = Some (inet_bytes a)) as Ho by apply lookup_insert_eq.
  split_and!.
  - unfold family, addr_. rewrite (load_family _ _ _ _ _ Ho R W) by done. by destruct ipv6.
  - unfold port, portNetEndian, addr_. rewrite (load_port _ _ _ _ _ Ho R W) by (by left).
    cbn [mbind outcome_bind]. f_equal.
    destruct ipv6; apply (swap_swap 2); exact Hp.
  - rewrite <- toIpPort_ctor by done. unfold InetAddress_toIpPort, getSockAddr, addr6_.
    by apply (toIpPort_view 64 Sockaddr this mem' (inet_bytes a) a).
  - unfold passed. cbn [address getSockAddr sockaddr_cast static_cast implicit_cast addr6_].
    rewrite Ho. eexists. split; [done|].
    destruct ipv6, loopbackOnly; (split; [reflexivity|]); try (eexists; reflexivity);
      (split; [eexists; reflexivity|reflexivity]).
Qed.

(** Copying a sockaddr_in of an IPv4 address, or a sockaddr_in6 of any, into the union
    keeps the members. *)
Lemma from_view t obj a :
  represents obj a -> t = Sockaddr_in /\ sin_family a = AF_INET \/ t = Sockaddr_in6 /\ zlen obj = 28 ->
  represents (InetAddress_from t obj) a.
Proof.
  intros R Ht. pose proof (rp_len _ _ R) as Hl. unfold InetAddress_from, copied.
  assert (sizeof t <= zlen obj /\ zlen (slice 0 (sizeof t) obj) = sizeof t) as [Hs Hz].
  { assert (0 <= sizeof t <= zlen obj) as [? ?] by (destruct Ht as [[-> _]|[-> ?]]; simpl; lia).
    split; [done|]. by apply slice_zlen. }
  assert (forall i n, 0 <= i -> 0 <= n -> i + n <= sizeof t ->
    slice i n (slice 0 (sizeof t) obj ++ drop (Z.to_nat (sizeof t)) raw_inet) = slice i n obj) as Hsl.
  { intros i n Hi Hn Hin. transitivity (slice i n (slice 0 (sizeof t) obj)).
    - unfold slice in Hz |- *. unfold zlen in Hz.
      rewrite (drop_app_le (take (Z.to_nat (sizeof t)) _)) by lia.
      rewrite take_app_le by (rewrite length_drop; lia). done.
    - rewrite slice_slice by lia. done. }
  assert (zlen (drop (Z.to_nat (sizeof t)) raw_inet) = 28 - sizeof t) as Hd
    by (destruct Ht as [[-> _]|[-> _]]; done).
  split.
  - rewrite zlen_app, Hz, Hd. lia.
  - intros _. rewrite zlen_app, Hz, Hd. lia.
  - rewrite Hsl; [apply R|lia..|]. destruct Ht as [[-> _]|[-> _]]; simpl; lia.
  - rewrite Hsl; [apply R|lia..|]. destruct Ht as [[-> _]|[-> _]]; simpl; lia.
  - intros. rewrite Hsl; [by apply R|lia..|]. destruct Ht as [[-> _]|[-> _]]; simpl; lia.
  - intros Hf. destruct Ht as [[_ ?]|[-> _]]; [done|]. rewrite Hsl; [by apply R|simpl; lia..].
Qed.

(** The members are a faithful view of the bytes: on an object with the members [a],
    what the functions of SocketOops read through their casts and write is what
    [Sockets] and [Socket] compute from [a], for an address the kernel gave as for one
    the program made, of either family. *)
Theorem members_are_view `{SocketKernelLaws K} obj a this t (mem : memory) inet_pton ip prt fd (k : K)
    sockname peername
    (Hm : mem !! this = Some obj) (R : represents obj a) (W : wf_addr a)
    (Ht : t = Sockaddr_in \/ t = Sockaddr_in6)
    (Hs : same_name sockname (k_sockname fd k)) (Hp : same_name peername (k_peername fd k)) :
  family this mem = Ok (sin_family a)
  /\ portNetEndian this mem = Ok (sin_port a)
  /\ (forall size, toIp size (sockaddr_cast (mkPtr this t)) mem = Ok (Sockets.toIp size a)
        /\ toIpPort size (sockaddr_cast (mkPtr this t)) mem = Ok (Sockets.toIpPort size a))
  /\ ((inet_pton ip = None -> sin_family a <> AF_INET6) ->
      exists obj', fromIpPort inet_pton ip prt (mkPtr this Sockaddr_in) mem = Ok (<[this := obj']> mem)
        /\ zlen obj' = zlen obj /\ represents obj' (Socket.fromIpPort inet_pton ip prt a))
  /\ isSelfConnect sockname peername = Ok (Socket.isSelfConnect fd k).
Proof.
  split_and!.
  - by apply (load_family Sockaddr_in this mem obj a).
  - by apply (load_port Sockaddr_in this mem obj a); [..|left].
  - intros size. by apply (toIpPort_view size Sockaddr this mem obj a).
  - intros Hv4. apply fromIpPort_view; [done|apply R|]. intros Hn. by apply R, Hv4.
  - by apply isSelfConnect_view.
Qed.

(** ** Concrete addresses *)

Definition demo_memory : memory := {[100 := raw_inet]}.

Lemma address_roundtrip_witness :
  exists obj, InetAddress_ctor 100 8080 true false demo_memory = Ok (<[100 := obj]> demo_memory)
    /\ port 100 (<[100 := obj]> demo_memory) = Ok 8080
    /\ InetAddress_toIpPort 100 (<[100 := obj]> demo_memory) = Ok (txt "127.0.0.1:8080").
Proof.
  destruct (address_roundtrip 100 8080 true false demo_memory) as (obj & H1 & _ & H2 & H3 & _);
    [reflexivity|lia|].
  exists obj. split; [exact H1|]. split; [exact H2|]. rewrite H3. vm_compute. reflexivity.
Defined.

(** A connection of 10.0.0.1:80 to itself, as the kernel names its ends: 16 bytes. *)
Definition demo_name : sys (list Z) := SysOk ([2; 0; 0; 80; 10; 0; 0; 1] ++ replicate 8 0).

Example self_connect_bytes : isSelfConnect demo_name demo_name = Ok true.
Proof. vm_compute. reflexivity. Qed.

Example no_peer_bytes : isSelfConnect demo_name (SysErr 107) = Ok false.
Proof. vm_compute. reflexivity. Qed.

(** An address no constructor has run on. *)
Example raw_address : InetAddress_toIpPort 100 demo_memory = Fault FIndeterminate.
Proof. vm_compute. reflexivity. Qed.
