(* ===== verification/Acceptor.v ===== *)
(** include/Acceptor.h, src/Acceptor.cc and the operations of Socket it uses: the
    listening socket, its channel, and what a readable event does.

    The process's descriptors are a set, so that a descriptor nobody owns or a
    double close shows; errno is a member of the state, because handleRead looks
    at it after the accept.  What accept4(2), the plain accept(2) of the idle
    descriptor's trick and open(2) answer are arguments; the callback is user
    code, known by what it leaves in errno, and so is the log (its output function may
    be the user's, and a failing write sets errno). *)

From S2P Require Import Prelude Channel Poller Sockets.

Record Acceptor (K : Type) := mkAcceptor {
  acceptSocket_ : Z;
  acceptChannel_ : addr;
  newConnectionCallback_ : bool;      (* one is set *)
  listening_ : bool;
  idleFd_ : Z;
  reactor : Reactor K;
  fds : gset Z;                       (* the open descriptors *)
  errno : Z;
  handed : list Z;                    (* ghost: descriptors given to the callback *)
}.
Arguments mkAcceptor {K}.
Arguments acceptSocket_ {K} _.
Arguments acceptChannel_ {K} _.
Arguments newConnectionCallback_ {K} _.
Arguments listening_ {K} _.
Arguments idleFd_ {K} _.
Arguments reactor {K} _.
Arguments fds {K} _.
Arguments errno {K} _.
Arguments handed {K} _.

Section methods.
Context {K : Type} `{EpollKernel K}.
Implicit Types (a : Acceptor K).

Definition set_reactor (r : Reactor K) a := mkAcceptor (acceptSocket_ a) (acceptChannel_ a)
  (newConnectionCallback_ a) (listening_ a) (idleFd_ a) r (fds a) (errno a) (handed a).
Definition set_listening a := mkAcceptor (acceptSocket_ a) (acceptChannel_ a)
  (newConnectionCallback_ a) true (idleFd_ a) (reactor a) (fds a) (errno a) (handed a).
Definition set_idle fd a := mkAcceptor (acceptSocket_ a) (acceptChannel_ a)
  (newConnectionCallback_ a) (listening_ a) fd (reactor a) (fds a) (errno a) (handed a).
Definition set_fds s a := mkAcceptor (acceptSocket_ a) (acceptChannel_ a)
  (newConnectionCallback_ a) (listening_ a) (idleFd_ a) (reactor a) s (errno a) (handed a).
Definition set_errno e a := mkAcceptor (acceptSocket_ a) (acceptChannel_ a)
  (newConnectionCallback_ a) (listening_ a) (idleFd_ a) (reactor a) (fds a) e (handed a).
Definition hand fd a := mkAcceptor (acceptSocket_ a) (acceptChannel_ a)
  (newConnectionCallback_ a) (listening_ a) (idleFd_ a) (reactor a) (fds a) (errno a)
  (handed a ++ [fd]).
Definition setNewConnectionCallback a := mkAcceptor (acceptSocket_ a) (acceptChannel_ a)
  true (listening_ a) (idleFd_ a) (reactor a) (fds a) (errno a) (handed a).

(** The result of open("/dev/null") and of the constructor's socket(2): a
    descriptor, or -1 and errno. *)
Definition got_fd (r : accept_result) a : Z * Acceptor K :=
  match r with
  | Accepted fd => (fd, set_fds ({[fd]} ∪ fds a) a)
  | AcceptError e => (-1, set_errno e a)
  end.

(** close(2) *)
Definition close_fd (fd : Z) a : Acceptor K :=
  if decide (fd ∈ fds a) then set_fds (fds a ∖ {[fd]}) a else set_errno EBADF a.

(** Acceptor::Acceptor, once the socket [fd] is bound: the channel, and the idle
    descriptor. *)
Definition Acceptor_ctor (this channel fd : Z) (idle : accept_result) (open_fds : gset Z)
    (errno0 : Z) (r : Reactor K) : Acceptor K :=
  let r := put channel (setReadCallback (CbAcceptorRead this) (Channel_ctor fd)) r in
  let '(idle, a) := got_fd idle (mkAcceptor fd channel false false (-1) r open_fds errno0 []) in
  set_idle idle a.

(** listen(): a failing listen(2) is fatal. *)
Definition listen (ret : Z) a : outcome (Acceptor K) :=
  let a := set_listening a in
  require (0 <=? ret) FAbort;;
  r ← enableReading (acceptChannel_ a) (reactor a);
  Ok (set_reactor r a).

(** ~Acceptor(), with the members it destroys. *)
Definition Acceptor_dtor a : outcome (Acceptor K) :=
  r ← disableAll (acceptChannel_ a) (reactor a);
  r ← Channel_remove (acceptChannel_ a) r;
  let a := close_fd (idleFd_ a) (set_reactor (destroy_channel (acceptChannel_ a) r) a) in
  Ok (close_fd (acceptSocket_ a) a).

(** The end of handleRead: the trick with the idle descriptor. *)
Definition use_idle (again idle : accept_result) a : Acceptor K :=
  let a := close_fd (idleFd_ a) a in
  let '(fd, a) := got_fd again a in
  let a := close_fd fd (set_idle fd a) in
  let '(fd, a) := got_fd idle a in
  set_idle fd a.

(** handleRead(): [r] is what accept4 answers, [again] and [idle] what the accept
    and the open of the trick answer, [leaves] the errno the callback leaves, [logs] that
    LOG_ERROR leaves. *)
Definition handleRead (r again idle : accept_result) (leaves logs : Z -> Z) a :
    outcome (Acceptor K) :=
  '(connfd, e) ← accept r (errno a);
  let a := set_errno e (match r with Accepted fd => set_fds ({[fd]} ∪ fds a) a | _ => a end) in
  let a :=
    if 0 <? connfd
    then if newConnectionCallback_ a
         then let a := hand connfd a in set_errno (leaves (errno a)) a
         else close_fd connfd a
    else set_errno (logs (errno a)) a in
  Ok (if errno a =? EMFILE then use_idle again idle a else a).
End methods.

(** ** What a readable event does *)

Section laws.
Context {K : Type} `{EpollKernel K}.
Implicit Types (a : Acceptor K).

(** Closing the idle descriptor makes room for one connection, which is accepted
    and closed; then the idle descriptor is opened again. *)
Lemma use_idle_exec fd2 fd3 a :
  idleFd_ a ∈ fds a -> fd2 ∉ fds a ∖ {[idleFd_ a]} ->
  exists a', use_idle (Accepted fd2) (Accepted fd3) a = a'
    /\ fds a' = {[fd3]} ∪ fds a ∖ {[idleFd_ a]} /\ idleFd_ a' = fd3
    /\ handed a' = handed a /\ errno a' = errno a.
Proof.
  intros Hi H2. unfold use_idle, close_fd. rewrite decide_True by done. simpl.
  rewrite decide_True by (simpl; set_solver). eexists. split; [done|]. simpl.
  split_and!; try done. set_solver.
Qed.

(** C31. A readable event of the listening socket, for each answer of accept:
    (1) a new descriptor above 0 goes to the callback and stays open, or is
    closed when there is no callback; (2) but a successful accept does not reset
    errno: while it still is EMFILE, a second connection is accepted and closed
    without anybody seeing it; (3) descriptor 0 stays open and is given to
    nobody; (4) when accept fails with EMFILE, the idle descriptor makes room to
    take one connection and close it, and is opened again; (5) the other
    expected errors change nothing but errno, and any other error aborts.  In (3) to
    (5) errno is tested after LOG_ERROR, whose output function may change it: (4) needs
    that it leaves EMFILE alone, and (5) that it does not leave EMFILE behind. *)
Theorem handleRead_spec r fd2 fd3 leaves logs a
    (Hidle : idleFd_ a ∈ fds a)
    (Hr : match r with Accepted fd => 0 <= fd /\ fd ∉ fds a | AcceptError _ => True end)
    (Hfd2 : fd2 ∉ (match r with Accepted fd => {[fd]} | _ => ∅ end) ∪ fds a ∖ {[idleFd_ a]}) :
  let m := handleRead r (Accepted fd2) (Accepted fd3) leaves logs a in
  match r with
  | Accepted fd =>
      exists a', m = Ok a'
      /\ (0 < fd -> newConnectionCallback_ a = true -> leaves (errno a) <> EMFILE ->
            handed a' = handed a ++ [fd] /\ fds a' = {[fd]} ∪ fds a)
      /\ (0 < fd -> newConnectionCallback_ a = false -> errno a <> EMFILE ->
            handed a' = handed a /\ fds a' = fds a)
      /\ (0 < fd -> newConnectionCallback_ a = true -> leaves (errno a) = EMFILE ->
            handed a' = handed a ++ [fd]
            /\ fds a' = {[fd3]} ∪ ({[fd]} ∪ fds a) ∖ {[idleFd_ a]})
      /\ (fd = 0 -> logs (errno a) <> EMFILE -> handed a' = handed a /\ fds a' = {[0]} ∪ fds a)
  | AcceptError e =>
      if bool_decide (e ∈ expected_errors)
      then if decide (logs e = EMFILE)
           then exists a', m = Ok a' /\ handed a' = handed a /\ idleFd_ a' = fd3
                /\ fds a' = {[fd3]} ∪ fds a ∖ {[idleFd_ a]}
           else m = Ok (set_errno (logs e) a)
      else m = Fault FAbort
  end.
Proof.
  cbv zeta. destruct r as [fd|e]; unfold handleRead; cbn [accept mbind outcome_bind].
  - destruct Hr as [Hpos Hnew]. eexists. split; [reflexivity|].
    set (a1 := set_errno (errno a) _).
    assert (fds a1 = {[fd]} ∪ fds a /\ handed a1 = handed a /\ errno a1 = errno a
      /\ newConnectionCallback_ a1 = newConnectionCallback_ a /\ idleFd_ a1 = idleFd_ a)
      as (F1 & F2 & F3 & F4 & F5) by done. clearbody a1. rewrite F4.
    split_and!.
    + intros H1 -> H2. rewrite (proj2 (Z.ltb_lt _ _)) by done. simpl.
      rewrite F3, (proj2 (Z.eqb_neq _ _)) by done. simpl. by rewrite F2, F1.
    + intros H1 -> H2. rewrite (proj2 (Z.ltb_lt _ _)) by done. unfold close_fd.
      rewrite decide_True by set_solver. simpl. rewrite F3, (proj2 (Z.eqb_neq _ _)) by done.
      simpl. rewrite F2, F1. set_solver.
    + intros H1 -> H2. rewrite (proj2 (Z.ltb_lt _ _)) by done. simpl.
      rewrite F3, H2. simpl.
      destruct (use_idle_exec fd2 fd3 (set_errno EMFILE (hand fd a1)))
        as (a' & <- & E1 & _ & E2 & _); [simpl; rewrite F1, F5; set_solver..|].
      split; [etrans; [exact E2|simpl; by rewrite F2]|].
      etrans; [exact E1|simpl; by rewrite F1, F5].
    + intros -> H2. simpl. rewrite F3, (proj2 (Z.eqb_neq _ _)) by done. simpl. by rewrite F1.
  - case_bool_decide as Hexp; [|done]. simpl. case_decide as He.
    + rewrite He. simpl. destruct (use_idle_exec fd2 fd3 (set_errno EMFILE (set_errno e a)))
        as (a' & Ha & E1 & E2 & E3 & _); simpl in *; [done|set_solver|].
      exists a'. by rewrite Ha.
    + by rewrite (proj2 (Z.eqb_neq _ _)) by done.
Qed.
End laws.

(** ** A run: descriptors 3 (idle), 4 (the socket) and 5..7 (connections) *)

Definition demo_acceptor (e : Z) : Acceptor (gmap Z (Z * addr)) :=
  mkAcceptor 4 100 true true 3 (EpollPoller_ctor ∅) {[3; 4; 5]} e [5].

(** errno is EMFILE from an earlier event: connection 6 is served, and connection 7
    is dropped. *)
Lemma handleRead_spec_witness :
  exists a', handleRead (Accepted 6) (Accepted 3) (Accepted 3) (fun e => e) (fun e => e)
               (demo_acceptor EMFILE) = Ok a'
    /\ handed a' = [5; 6] /\ fds a' = {[3; 4; 5; 6]}.
Proof.
  destruct (handleRead_spec (Accepted 6) 3 3 (fun e => e) (fun e => e) (demo_acceptor EMFILE))
    as (a' & Ha & _ & _ & Hstale & _).
  - simpl. set_solver.
  - simpl. split; [lia|set_solver].
  - simpl. set_solver.
  - destruct Hstale as [Hh Hf]; [lia|reflexivity|reflexivity|].
    exists a'. split; [exact Ha|]. split; [exact Hh|]. rewrite Hf. vm_compute. reflexivity.
Defined.
