(* ===== verification/Thread.v ===== *)
(** include/Thread.h, src/Thread.cc, include/CurrentThread.h and
    src/CurrentThread.cc: a thread with a name, and the cached thread id.

    std::thread is known by its state: destroying or overwriting a joinable one
    calls std::terminate, and joining one that is not joinable throws, which
    nothing catches; both are [FAbort].  The kernel's thread id is an argument. *)

From S2P Require Import Prelude Format.

(** ** CurrentThread: the thread-local cache of gettid() *)

Record CurrentThread := mkCurrent {
  t_cacheTid : Z;
  t_tidString : bytes;
  t_tidStringLength : Z;
}.

Definition current_zero : CurrentThread := mkCurrent 0 [] 0.

Definition cacheTid (gettid : Z) (t : CurrentThread) : CurrentThread :=
  if t_cacheTid t =? 0
  then mkCurrent gettid (snprintf 32 (fmt_d 5 gettid)) (zlen (fmt_d 5 gettid))
  else t.

Definition tid (gettid : Z) (t : CurrentThread) : Z * CurrentThread :=
  let t := if t_cacheTid t =? 0 then cacheTid gettid t else t in
  (t_cacheTid t, t).

(** The first call asks the kernel; the later ones answer the same, whatever the
    kernel would say. *)
Lemma tid_cached g g' t :
  0 < g -> let '(x, t') := tid g t in tid g' t' = (x, t') /\ (t_cacheTid t = 0 -> x = g).
Proof.
  intros Hg. unfold tid, cacheTid. destruct (t_cacheTid t =? 0) eqn:E; simpl.
  - rewrite (proj2 (Z.eqb_neq g 0)) by lia. done.
  - rewrite E. split; [done|]. apply Z.eqb_neq in E. lia.
Qed.

(** ** Thread *)

(** What thread_ points to. *)
Inductive handle := NoThread | Joinable | NotJoinable.

#[global] Instance handle_eq_dec : EqDecision handle.
Proof. solve_decision. Defined.

Record Thread := mkThread {
  thread_ : handle;
  tid_ : Z;
  started_ : bool;
  joined_ : bool;
  name_ : bytes;
}.

(** setDefaultName(): for an empty name, snprintf with the format "Thread%n" takes
    the number for an address and writes there. *)
Definition setDefaultName (num : Z) (t : Thread) : outcome Thread :=
  match name_ t with [] => Fault FOutOfBounds | _ :: _ => Ok t end.

(** Thread(func, name): the number is that of the static counter. *)
Definition Thread_ctor (numCreated : Z) (name : bytes) : outcome (Thread * Z) :=
  let num := numCreated + 1 in
  t ← setDefaultName num (mkThread NoThread 0 false false name);
  Ok (t, num).

(** start(): the new std::thread runs sem_post and then func_; start returns after
    sem_wait. *)
Definition Thread_start (t : Thread) : outcome Thread :=
  if decide (thread_ t = Joinable) then Fault FAbort
  else Ok (mkThread Joinable (tid_ t) true (joined_ t) (name_ t)).

(** join(), when the thread's function has returned. *)
Definition Thread_join (t : Thread) : outcome Thread :=
  match thread_ t with
  | NoThread => Fault FNullDeref
  | NotJoinable => Fault FAbort
  | Joinable => Ok (mkThread NotJoinable (tid_ t) (started_ t) true (name_ t))
  end.

(** ~Thread(), and then the destructor of the std::thread. *)
Definition Thread_dtor (t : Thread) : outcome unit :=
  h ← (if started_ t && negb (joined_ t)
       then match thread_ t with
            | NoThread => Fault FNullDeref
            | NotJoinable => Fault FAbort
            | Joinable => Ok NotJoinable
            end
       else Ok (thread_ t));
  if decide (h = Joinable) then Fault FAbort else Ok tt.

(** The flags tell the state of the std::thread. *)
Definition thread_ok (t : Thread) : Prop :=
  thread_ t = (if started_ t then if joined_ t then NotJoinable else Joinable else NoThread)
  /\ (joined_ t = true -> started_ t = true).

Lemma Thread_ctor_ok n name : name <> [] ->
  exists t, Thread_ctor n name = Ok (t, n + 1) /\ thread_ok t /\ started_ t = false
    /\ joined_ t = false /\ name_ t = name.
Proof. destruct name as [|c name]; [done|]. intros _. by eexists. Qed.

Lemma Thread_start_ok t : thread_ok t -> started_ t = false ->
  exists t', Thread_start t = Ok t' /\ thread_ok t' /\ started_ t' = true /\ joined_ t' = false.
Proof.
  intros [Hh Hj] Hs. unfold Thread_start. rewrite Hh, Hs. simpl. eexists. split; [done|].
  unfold thread_ok. simpl. destruct (joined_ t) eqn:E; [|done]. by specialize (Hj eq_refl); congruence.
Qed.

Lemma Thread_join_ok t : thread_ok t -> started_ t = true -> joined_ t = false ->
  exists t', Thread_join t = Ok t' /\ thread_ok t' /\ started_ t' = true /\ joined_ t' = true.
Proof.
  intros [Hh _] Hs Hj. unfold Thread_join. rewrite Hh, Hs, Hj. eexists. split; [done|].
  unfold thread_ok. simpl. done.
Qed.

(** The destructor never terminates the process, wherever the thread is in its
    life. *)
Lemma Thread_dtor_ok t : thread_ok t -> Thread_dtor t = Ok tt.
Proof.
  intros [Hh _]. unfold Thread_dtor. rewrite Hh. by destruct (started_ t), (joined_ t).
Qed.
