(* ===== verification/AsyncOwner.v ===== *)
(** include/AsyncLogging.h: the owner of an AsyncLogging, its start, stop and
    destructor, with the [Thread] that is a member and runs threadFunc.

    The pipeline is that of [LogPipeline]; here its steps have an author: the owner,
    the logging thread, and the threads that log.  The owner may call start and stop in
    any order, also again; every start that succeeds gives the logging thread a new
    life, with a LogFile, a clock and a stream of its own.  stop() is two steps, since
    between the store of running_ and the return of join the others go on.  Nothing
    waits for the notify_all of stop(): wait_for returns without it, as the steps of
    [LogPipeline] say. *)

From S2P Require Import Prelude LogStream Logging LogFile AsyncLogging LogPipeline Thread.

#[local] Instance pc_eq_dec : EqDecision pc.
Proof. solve_decision. Defined.
#[local] Instance stage_eq_dec : EqDecision stage.
Proof. solve_decision. Defined.

(** Where the owner is. *)
Inductive owner_pc :=
| AReady                    (* between two calls *)
| AJoin (dtor : bool)       (* in thread_.join(), called by stop() or by the destructor *)
| AGone                     (* destroyed *)
| AFault (f : fault).       (* the process is gone *)

Record system := mkSystem {
  pipe : Pipeline;
  thread_ : Thread;
  lives : nat;                  (* the threads started so far *)
  earlier : list AppendFile;    (* the files of those before the last *)
  owner : owner_pc;
}.

(** What the owner does, and who else takes steps. *)
Inductive call := OStart | OStop | ODtor | OJoined.
Inductive who := Owner (c : call) | Worker | Logs.

#[global] Instance call_eq_dec : EqDecision call.
Proof. solve_decision. Defined.
#[global] Instance who_eq_dec : EqDecision who.
Proof. solve_decision. Defined.

(** start(): running_ is set, and the new thread is at the first line of threadFunc,
    with its locals to come.  (The ghosts start again: what the buffers hold is what has
    been accepted.) *)
Definition buffered (a : AsyncLogging) : bytes :=
  all_bytes (buffers_ a) ++ bytes_of (currentBuffer_ a).
Definition started (p : Pipeline) : Pipeline :=
  let a := front p in
  mkPipe (mkAsync true (currentBuffer_ a) (nextBuffer_ a) (buffers_ a) (buffered a))
    start_backend Starting None [].

(** stop(), up to the join. *)
Definition stopped (p : Pipeline) : Pipeline :=
  mkPipe (set_running false (front p)) (back p) (at_ p) (output p) (lines p).

(** The end of the join; in the destructor, the members go next. *)
Definition joined (dtor : bool) (t : Thread) : Thread * owner_pc :=
  match Thread_join t with
  | Ok t =>
      (t, if dtor then match Thread_dtor t with Ok _ => AGone | Fault f => AFault f end
          else AReady)
  | Fault f => (t, AFault f)
  end.

Definition alive (o : owner_pc) : bool := match o with AFault _ => false | _ => true end.

Section steps.
Context (SIZE : Z) (fopen : bytes -> bool) (fwrite : nat -> nat -> bytes -> fwrite_result).
Context (time : nat -> nat -> Z) (baseName_ : bytes) (rollSize_ : Z).

(** The pipeline in the [n]-th life of the logging thread. *)
Abbreviation pstep n := (LogPipeline.step SIZE fopen (fwrite n) (time n) baseName_ rollSize_).

Inductive sys_step : who -> system -> system -> Prop :=
| a_start p t n fs :               (* start() *)
    sys_step (Owner OStart) (mkSystem p t n fs AReady)
      match Thread_start t with
      | Ok t' => mkSystem (started p) t' (S n) (fs ++ out_files p) AReady
      | Fault f => mkSystem p t n fs (AFault f)
      end
| a_stop p t n fs :                (* stop() *)
    sys_step (Owner OStop) (mkSystem p t n fs AReady) (mkSystem (stopped p) t n fs (AJoin false))
| a_join p t n fs d :              (* thread_.join(): it waits for a joinable thread *)
    (Thread.thread_ t = Joinable -> at_ p = In Finished) ->
    sys_step (Owner OJoined) (mkSystem p t n fs (AJoin d))
      (mkSystem p (joined d t).1 n fs (joined d t).2)
| a_dtor p t n fs :                (* the destructor: if(running_) stop() *)
    sys_step (Owner ODtor) (mkSystem p t n fs AReady)
      (if running_ (front p) then mkSystem (stopped p) t n fs (AJoin true)
       else mkSystem p t n fs match Thread_dtor t with Ok _ => AGone | Fault f => AFault f end)
| a_worker p p' t n fs o :         (* threadFunc *)
    pstep n p p' -> at_ p <> Idle -> at_ p' <> at_ p -> alive o = true ->
    sys_step Worker (mkSystem p t n fs o) (mkSystem p' t n fs o)
| a_log line a a' b st f ls t n fs o :  (* append(), while there is an object *)
    append_line SIZE line a = Ok a' -> o <> AGone -> alive o = true ->
    sys_step Logs (mkSystem (mkPipe a b st f ls) t n fs o)
      (mkSystem (mkPipe a' b st f (ls ++ [line])) t n fs o).

Inductive run : list who -> system -> system -> Prop :=
| run_nil s : run [] s s
| run_cons w tr s s' s'' : sys_step w s s' -> run tr s' s'' -> run (w :: tr) s s''.

(** The state after the constructor: the thread has a name, and is not started. *)
Definition constructed (t : Thread) : system := mkSystem start t 0 [] AReady.
End steps.

(** ** The protocol *)

(** What the owner has done, judged by its calls: it starts what does not run, and
    stops what runs; the destructor may come at any time.  [None] is any other
    sequence of calls. *)
Inductive phase := Never | Running | Stopped.

Definition advance (ph : option phase) (w : who) : option phase :=
  match w, ph with
  | Owner OStart, Some (Never | Stopped) => Some Running
  | Owner OStop, Some Running => Some Stopped
  | Owner (OStart | OStop), _ => None
  | _, _ => ph
  end.
Definition phase_after (tr : list who) : option phase := foldl advance (Some Never) tr.

(** The process has been terminated, or is about to be: the owner is joining a thread
    that is not there. *)
Definition doomed (s : system) : Prop :=
  match owner s with
  | AFault _ => True
  | AJoin _ => Thread.thread_ (thread_ s) <> Joinable
  | _ => False
  end.

(** How many steps the logging thread has left once running_ is false. *)
Definition steps_left (st : stage) : nat :=
  match st with
  | Idle | In Finished => 0
  | In AtTest => 1
  | Starting | In AtWrite => 2
  | In AtSwap => 3
  end.

(** The flags of the two classes agree with the calls. *)
Definition owner_ok (ph : phase) (s : system) : Prop :=
  let t := thread_ s in
  let run := running_ (front (pipe s)) in
  let ended := Thread.thread_ t = NotJoinable /\ joined_ t = true /\ run = false
               /\ at_ (pipe s) = In Finished in
  let going := Thread.thread_ t = Joinable /\ at_ (pipe s) <> Idle in
  match ph, owner s with
  | Never, (AReady | AGone) =>
      Thread.thread_ t = NoThread /\ started_ t = false /\ run = false /\ at_ (pipe s) = Idle
  | Running, AReady => going /\ run = true /\ at_ (pipe s) <> In Finished
  | Running, AJoin true | Stopped, AJoin false => going /\ run = false
  | Running, AGone | Stopped, (AReady | AGone) => ended
  | _, _ => False
  end.

Section proofs.
Context (SIZE : Z) (fopen : bytes -> bool) (fwrite : nat -> nat -> bytes -> fwrite_result).
Context (time : nat -> nat -> Z) (baseName_ : bytes) (rollSize_ : Z).
Context (HS : 0 < SIZE < 2 ^ 31) (Hopen : forall name, fopen name = true).
Context (Ht : forall n, 0 < time n 0%nat) (Hfw : forall n, fwrite_ok (fwrite n)).

Abbreviation pstep n := (LogPipeline.step SIZE fopen (fwrite n) (time n) baseName_ rollSize_).
Abbreviation sys := (sys_step SIZE fopen fwrite time baseName_ rollSize_).
Abbreviation runs := (run SIZE fopen fwrite time baseName_ rollSize_).

(** The pipeline is as [LogPipeline] describes it, in every life. *)
Definition pipe_ok (s : system) : Prop :=
  (exists pre, pipe_inv_from pre SIZE prefix (pipe s)) /\ Forall is_synced (earlier s).

Lemma append_keeps_running line a a' :
  append_line SIZE line a = Ok a' -> running_ a' = running_ a.
Proof.
  unfold append_line. rewrite bind_ok. intros (cur & _ & Hx).
  destruct (zlen line <? avail SIZE cur).
  - rewrite bind_ok in Hx. destruct Hx as ([c d] & _ & [= <-]). done.
  - destruct (nextBuffer_ a); simpl in Hx; rewrite bind_ok in Hx;
      destruct Hx as ([c d] & _ & [= <-]); done.
Qed.

Lemma swap_keeps_running a t : running_ (swap a t).1 = running_ a.
Proof. unfold swap. by destruct (nextBuffer_ a). Qed.

(** A step of the logging thread: running_ stays, and when it is false the thread
    gets nearer to its end. *)
Lemma worker_step n p p' :
  pstep n p p' -> at_ p <> Idle -> at_ p' <> at_ p ->
  running_ (front p') = running_ (front p) /\ at_ p' <> Idle
  /\ (at_ p' = In Finished -> running_ (front p) = false)
  /\ at_ p <> In Finished
  /\ (running_ (front p) = false -> steps_left (at_ p) = S (steps_left (at_ p'))).
Proof.
  intros Hs Hi Hne. destruct Hs; simpl in *; try done.
  - split_and!; try done. congruence.
  - by rewrite swap_keeps_running.
Qed.

Lemma pstep_ok n p p' t fs o o' :
  pipe_ok (mkSystem p t n fs o) -> pstep n p p' -> pipe_ok (mkSystem p' t n fs o').
Proof.
  intros [(pre & Hp) Hfs] Hs. split; [|done]. exists pre.
  eapply step_pipe_inv; try done. by apply delivers_prefix.
Qed.

(** stop() and start() keep the pipeline in order; the files of the life that ended
    were closed. *)
Lemma stopped_ok p t n fs o t' o' :
  pipe_ok (mkSystem p t n fs o) -> pipe_ok (mkSystem (stopped p) t' n fs o').
Proof.
  intros [(pre & (Hi & Hl & Ho)) Hfs]. split; [|done]. exists pre. split; [|done].
  by eapply step_async_inv; [done|exact Hi|apply step_stop].
Qed.

Lemma started_ok p t n fs o t' n' o' :
  pipe_ok (mkSystem p t n fs o) ->
  pipe_ok (mkSystem (started p) t' n' (fs ++ out_files p) o').
Proof.
  intros [(pre & Hp) Hfs]. split.
  - exists (buffered (front p)). destruct Hp as ((Ha & _ & _) & _ & _). simpl.
    destruct (async_start_inv SIZE HS) as (_ & Hb & _).
    split; [|by split; [by rewrite app_nil_r|]].
    split_and!; [destruct Ha; by split|exact Hb|]. done.
  - apply Forall_app. split; [done|].
    destruct Hp as (_ & _ & Ho). simpl in Ho. unfold out_files, output_ok in *.
    destruct (at_ p); [destruct Ho as [-> _]; done..|].
    by destruct Ho as (f & -> & _ & _ & Hsy).
Qed.

Lemma step_pipe_ok w s s' : pipe_ok s -> sys w s s' -> pipe_ok s'.
Proof.
  intros Hp Hs.
  destruct Hs as [p t n fs|p t n fs|p t n fs d Hf|p t n fs|p p' t n fs o Hs Hi Hne Ha
    |line a a' b st f ls t n fs o Hap Hg Ha].
  - destruct (Thread_start t); [by eapply started_ok|done].
  - by eapply stopped_ok.
  - done.
  - destruct (running_ (front p)); [by eapply stopped_ok|done].
  - by eapply pstep_ok.
  - eapply pstep_ok; [done|by apply p_append].
Qed.

(** A proper call of the owner keeps the flags in agreement. *)
Ltac flags := split; [by split_and!|by intros []].

Lemma owner_step c ph ph' s s' :
  owner_ok ph s -> sys (Owner c) s s' -> advance (Some ph) (Owner c) = Some ph' ->
  owner_ok ph' s' /\ ~ doomed s'.
Proof.
  intros Ho Hs Hph.
  inversion Hs as [p t n fs|p t n fs|p t n fs d Hf|p t n fs| |]; subst; clear Hs;
    unfold owner_ok, doomed in *; simpl in *.
  - unfold Thread_start.
    destruct ph; [|done|]; injection Hph as <-; destruct Ho as (-> & Ho);
      rewrite decide_False by done; simpl; flags.
  - destruct ph; try done. injection Hph as <-. destruct Ho as ((Hj & Hi) & _). flags.
  - assert (Thread.thread_ t = Joinable /\ running_ (front p) = false /\ ph' = ph) as (Hj & Hr & ->)
      by (destruct ph, d; try done; destruct Ho as ((? & ?) & ?); by injection Hph as <-).
    specialize (Hf Hj). unfold joined, Thread_join, Thread_dtor. rewrite Hj. simpl.
    rewrite andb_false_r. simpl. destruct ph, d; try done; simpl; flags.
  - unfold Thread_dtor. destruct ph; injection Hph as <-.
    + destruct Ho as (Hn & Hs1 & Hr & Hi). rewrite Hr, Hs1. simpl.
      rewrite Hn, decide_False by done. simpl. flags.
    + destruct Ho as ((Hj & Hi) & Hr & Hx). rewrite Hr. simpl. flags.
    + destruct Ho as (Hn & Hj & Hr & Hi). rewrite Hr, Hj, andb_false_r. simpl.
      rewrite Hn, decide_False by done. simpl. flags.
Qed.

(** Any other call ends the process, at once or at the join it is going to. *)
Lemma improper_call c ph s s' :
  owner_ok ph s -> sys (Owner c) s s' -> advance (Some ph) (Owner c) = None -> doomed s'.
Proof.
  intros Ho Hs Hph.
  inversion Hs as [p t n fs|p t n fs|p t n fs d Hf|p t n fs| |]; subst; clear Hs;
    unfold owner_ok, doomed in *; simpl in *.
  - destruct ph; try done. destruct Ho as ((Hj & _) & _). unfold Thread_start.
    by rewrite Hj, decide_True.
  - destruct ph; try done; by destruct Ho as (-> & _).
  - by destruct ph.
  - by destruct ph.
Qed.

(** The others do not disturb the agreement, and the logging thread gets on once
    running_ is false. *)
Lemma others_step w ph s s' :
  owner_ok ph s -> sys w s s' -> (forall c, w <> Owner c) ->
  owner_ok ph s' /\ owner s' = owner s /\ thread_ s' = thread_ s
  /\ (running_ (front (pipe s)) = false ->
        steps_left (at_ (pipe s))
        = ((if decide (w = Worker) then 1 else 0) + steps_left (at_ (pipe s')))%nat)
  /\ running_ (front (pipe s')) = running_ (front (pipe s))
  /\ (w = Worker -> owner s <> AGone).
Proof.
  intros Ho Hs Hw. unfold owner_ok in *.
  inversion Hs as [| | | |p p' t n fs o Hp Hi Hne Ha|line a a' b st f ls t n fs o Hap Hg Ha];
    subst; clear Hs; try by edestruct Hw; simpl in *.
  - destruct (worker_step n p p' Hp Hi Hne) as (Hr & Hi' & Hfin & Hnf & Hleft). simpl in *.
    rewrite Hr. split_and!; try done.
    + destruct ph, o as [|[]| |]; try done; try tauto.
      destruct Ho as (? & Hr1 & _). split_and!; [tauto..|]. intros Hx. apply Hfin in Hx. congruence.
    + intros _ ->. destruct ph; tauto.
  - simpl in *. apply append_keeps_running in Hap as Hr. rewrite Hr. by split_and!.
Qed.

Lemma doomed_step w s s' : doomed s -> sys w s s' -> doomed s'.
Proof.
  intros Hd Hs. unfold doomed in *.
  inversion Hs as [p t n fs|p t n fs|p t n fs d Hf|p t n fs|p p' t n fs o Hp Hi Hne Ha
    |line a a' b st f ls t n fs o Hap Hg Ha]; subst; simpl in *; try done.
  unfold joined, Thread_join. by destruct (Thread.thread_ t).
Qed.

(** What the calls so far say of the state. *)
Definition judged (o : option phase) (s : system) : Prop :=
  match o with Some ph => owner_ok ph s /\ ~ doomed s | None => doomed s end.

Lemma step_judged w o s s' : judged o s -> sys w s s' -> judged (advance o w) s'.
Proof.
  intros Hj Hs. destruct o as [ph|].
  - destruct Hj as [Ho Hd].
    assert ((exists c, w = Owner c) \/ forall c, w <> Owner c) as [[c ->]|Hw]
      by (destruct w; [left; by eexists|by right..]).
    + destruct (advance (Some ph) (Owner c)) as [ph'|] eqn:E;
        [by eapply owner_step|by eapply improper_call].
    + destruct (others_step w ph s s' Ho Hs Hw) as (Ho' & Hsame & Hth & _).
      assert (advance (Some ph) w = Some ph) as -> by (destruct w; [by edestruct Hw|done..]).
      split; [done|]. unfold doomed in *. by rewrite Hsame, Hth.
  - assert (advance None w = None) as -> by by destruct w as [[]| |]. by eapply doomed_step.
Qed.

Lemma run_judged tr o s s' : judged o s -> runs tr s s' -> judged (foldl advance o tr) s'.
Proof.
  intros Hj Hr. revert o Hj. induction Hr as [s|w tr s s1 s' Hs _ IH]; intros o Hj; [done|].
  simpl. apply IH. by eapply step_judged.
Qed.

Lemma run_pipe_ok tr s s' : pipe_ok s -> runs tr s s' -> pipe_ok s'.
Proof. intros Hp Hr. induction Hr; eauto using step_pipe_ok. Qed.

(** The logging thread can go on until it has ended. *)
Lemma logger_enabled n pre c :
  pipe_inv_from pre SIZE prefix c -> at_ c <> Idle -> at_ c <> In Finished ->
  exists c', pstep n c c' /\ at_ c' <> at_ c.
Proof.
  intros Hc Hi Hf. pose proof (delivers_prefix (fwrite n) (Hfw n)) as HR.
  pose proof (pipe_inv_safe SIZE fopen (fwrite n) (time n) baseName_ rollSize_ prefix HS Hopen
    (Ht n) HR c Hc) as [_ Hsafe].
  destruct Hc as (_ & _ & Ho). destruct c as [a b st o ls]. unfold output_ok in Ho. simpl in *.
  destruct st as [| |[| | |]]; try done.
  - destruct Ho as [-> _]. destruct (make_output _ _ _ _) as [f|] eqn:E; [|done].
    eexists. split; [by apply p_open|done].
  - destruct Hsafe as (f & f' & -> & Hx). destruct (running_ a) eqn:E.
    + eexists. split; [by apply p_test|done].
    + eexists. split; [by eapply p_end|done].
  - eexists. split; [apply p_swap|done].
  - destruct Hsafe as (f & [t' f'] & -> & Hx). eexists. split; [by apply p_write|done].
Qed.

Definition count (w : who) (tr : list who) : nat := length (filter (w =.) tr).

(** A proper owner that joins has cleared running_, and waits for a thread that is
    there. *)
Lemma joining_ok ph s d :
  owner_ok ph s -> owner s = AJoin d ->
  Thread.thread_ (thread_ s) = Joinable /\ running_ (front (pipe s)) = false
  /\ at_ (pipe s) <> Idle.
Proof. unfold owner_ok. intros Ho Hd. rewrite Hd in Ho. destruct ph, d; tauto. Qed.

(** While the owner is in the join, the logging thread's steps are numbered. *)
Lemma joining_run ph d tr s s' :
  owner_ok ph s -> owner s = AJoin d -> runs tr s s' -> Owner OJoined ∉ tr ->
  (count Worker tr + steps_left (at_ (pipe s')) = steps_left (at_ (pipe s)))%nat.
Proof.
  intros Ho Hd Hr. revert Ho Hd. induction Hr as [s|w tr s s1 s' Hs _ IH]; intros Ho Hd Hn; [done|].
  apply not_elem_of_cons in Hn as [Hne Hn].
  assert (forall c, w <> Owner c) as Hw.
  { intros c ->. by inversion Hs; subst. }
  destruct (others_step w ph s s1 Ho Hs Hw) as (Ho1 & Hsame & _ & Hleft & _).
  rewrite Hleft by by eapply joining_ok.
  rewrite <- (IH Ho1 ltac:(by rewrite Hsame) Hn). unfold count. rewrite filter_cons.
  destruct (decide (w = Worker)) as [->|Hnw].
  - rewrite decide_True by done. simpl. lia.
  - rewrite decide_False by congruence. lia.
Qed.

Lemma steps_left_max st : (steps_left st <= 3)%nat.
Proof. destruct st as [| |[]]; simpl; lia. Qed.

(** Whoever joins gets somewhere: the logging thread, or the join that is over. *)
Lemma joining_enabled ph s d :
  owner_ok ph s -> pipe_ok s -> owner s = AJoin d ->
  exists w s', w <> Logs /\ sys w s s'.
Proof.
  intros Ho [(pre & Hp) _] Hd. destruct (joining_ok ph s d Ho Hd) as (_ & _ & Hi).
  destruct s as [p th n fs o]. simpl in *. subst o.
  destruct (decide (at_ p = In Finished)) as [Hf|Hf].
  - exists (Owner OJoined). eexists. split; [done|]. by apply a_join.
  - destruct (logger_enabled n pre p Hp Hi Hf) as (p' & Hx & Hy).
    exists Worker. eexists. split; [done|]. by apply a_worker.
Qed.

(** A doomed join is over at once, and with it the process. *)
Lemma doomed_join s d :
  doomed s -> owner s = AJoin d ->
  (exists s', sys (Owner OJoined) s s')
  /\ forall c s', sys (Owner c) s s' -> exists f, owner s' = AFault f.
Proof.
  intros Hx Hd. destruct s as [p th n fs o]. unfold doomed in Hx. simpl in *. subst o. split.
  - eexists. by apply a_join.
  - intros c s' Hs. inversion Hs; subst; simpl. unfold joined, Thread_join.
    destruct (Thread.thread_ th); [by eexists|done|by eexists].
Qed.

Lemma constructed_ok t :
  Thread.thread_ t = NoThread -> Thread.started_ t = false ->
  judged (Some Never) (constructed t) /\ pipe_ok (constructed t).
Proof.
  intros Hn Hs. split; [by split; [|intros []]|]. split; [|done]. exists []. by apply pipe_start_inv.
Qed.
End proofs.

(** ** The theorem *)

(** C34. What the owner of an AsyncLogging gets from its calls, in every interleaving
    of any calls it makes with the logging thread and the threads that log, fopen
    succeeding and fwrite keeping to its contract.  The process is terminated, or an
    owner in thread_.join() is about to terminate it with its next step, exactly when
    the owner has called start() while the thread runs, or stop() when none runs (none
    yet, or stopped already); starting again after a stop is fine.  If the owner did no
    such thing: while stop() or the destructor waits, the thread it waits for (or, once
    that has ended, the join) can always go on, and at most three steps of the thread
    remain, each of them a test of running_, a critical section or the writing of a
    round, whatever is logged in between and without any notification; and when the
    object has been destroyed, no thread of it is left, and all that any of its threads
    wrote has been flushed and closed. *)
Theorem stop_returns SIZE fopen fwrite time baseName rollSize numCreated t n tr s
    (HS : 0 < SIZE < 2 ^ 31) (Hopen : forall name, fopen name = true)
    (Ht : forall n, 0 < time n 0%nat) (Hfw : forall n, fwrite_ok (fwrite n))
    (Hctor : Thread_ctor numCreated (txt "Logging") = Ok (t, n))
    (Hrun : run SIZE fopen fwrite time baseName rollSize tr (constructed t) s) :
  (phase_after tr = None <-> doomed s)
  /\ (doomed s -> forall d, owner s = AJoin d ->
        (exists s', sys_step SIZE fopen fwrite time baseName rollSize (Owner OJoined) s s')
        /\ forall c s', sys_step SIZE fopen fwrite time baseName rollSize (Owner c) s s' ->
             exists f, owner s' = AFault f)
  /\ (phase_after tr <> None ->
        (forall d, owner s = AJoin d ->
           (exists w s', w <> Logs /\ sys_step SIZE fopen fwrite time baseName rollSize w s s')
           /\ forall tr' s', run SIZE fopen fwrite time baseName rollSize tr' s s' ->
                (3 < count Worker tr')%nat -> Owner OJoined ∈ tr')
        /\ (owner s = AGone ->
              (forall w s', ~ sys_step SIZE fopen fwrite time baseName rollSize w s s')
              /\ Forall is_synced (earlier s ++ out_files (pipe s)))).
Proof.
  destruct (Thread_ctor_ok numCreated (txt "Logging") ltac:(done)) as (t0 & Hc & [Hh _] & Hns & _).
  assert (t0 = t) as -> by congruence. rewrite Hns in Hh.
  destruct (constructed_ok SIZE HS t Hh Hns) as [Hj0 Hp0].
  pose proof (run_judged _ _ _ _ _ _ HS tr (Some Never) _ _ Hj0 Hrun) as Hj.
  pose proof (run_pipe_ok _ _ _ _ _ _ HS Hopen Ht Hfw tr _ _ Hp0 Hrun) as Hp.
  change (judged (phase_after tr) s) in Hj. split; [|split].
  - destruct (phase_after tr); [|done]. split; [done|]. by destruct Hj.
  - intros Hd d Ho. by apply (doomed_join _ _ _ _ _ _ s d).
  - intros Hne. destruct (phase_after tr) as [ph|]; [|done]. destruct Hj as [Ho _]. split.
    + intros d Hd. split; [by eapply joining_enabled|].
      intros tr' s' Hr Hn. destruct (decide (Owner OJoined ∈ tr')) as [?|Hno]; [done|].
      pose proof (joining_run _ _ _ _ _ _ HS ph d tr' s s' Ho Hd Hr Hno).
      pose proof (steps_left_max (at_ (pipe s))). lia.
    + intros Hg. split.
      * intros w s' Hw. destruct (decide (w = Worker)) as [->|Hnw].
        -- by apply (others_step _ _ _ _ _ _ HS Worker ph s s' Ho Hw).
        -- inversion Hw; subst; simpl in *; done.
      * destruct Hp as [(pre & Hp) Hfs]. apply Forall_app. split; [done|].
        destruct Hp as (_ & _ & Hout). unfold output_ok in Hout. unfold out_files.
        destruct (at_ (pipe s)); [destruct Hout as [-> _]; done..|].
        by destruct Hout as (f & -> & _ & _ & Hsy).
Qed.

(** ** Concrete runs *)

Definition demo_thread : Thread := mkThread NoThread 0 false false (txt "Logging").

Abbreviation demo_run :=
  (run 8 demo_open (fun _ => fwrite_two) (fun n k => demo_time (100 * n + k)) (txt "web") 4).

(** start(), a line, stop() while the thread is about to test running_; the same again,
    without a line; and the destructor. *)
Definition demo_trace : list who :=
  [Owner OStart; Logs; Worker; Owner OStop; Worker; Owner OJoined;
   Owner OStart; Owner OStop; Worker; Worker; Owner OJoined; Owner ODtor].

Lemma demo_stopped :
  exists s, demo_run demo_trace (constructed demo_thread) s /\ lives s = 2%nat /\ owner s = AGone.
Proof.
  assert (forall n, exists f f', make_output demo_open (fun k => demo_time (100 * n + k)) (txt "web") 4
            = Ok f /\ finish f = Ok f') as Hlife.
  { intros n.
    destruct (make_output_ok demo_open (fun k => demo_time (100 * n + k)) (txt "web") 4
      prefix) as (f & Hf & Hinv & _); [done|unfold demo_time; lia|].
    destruct (finish_ok prefix [] f Hinv) as (f' & Hf' & _). by exists f, f'. }
  destruct (Hlife 1%nat) as (f1 & f1' & Hm1 & Hf1), (Hlife 2%nat) as (f2 & f2' & Hm2 & Hf2).
  destruct (append_line 8 (txt "one..") (mkAsync true (Some FixedBuffer_ctor) (Some FixedBuffer_ctor)
    [] [])) as [a|] eqn:Ea; [|by vm_compute in Ea].
  eexists. split.
  - eapply run_cons; [by eapply a_start|]. simpl.
    eapply run_cons; [by apply (a_log _ _ _ _ _ _ (txt "one..")) with (1 := Ea)|].
    eapply run_cons; [apply a_worker; [by apply p_open|done|done|done]|].
    eapply run_cons; [by apply a_stop|].
    eapply run_cons; [apply a_worker; [by apply (p_end _ _ _ _ _ _ _ _ f1 f1')|done|done|done]|].
    eapply run_cons; [by apply a_join|]. cbn [joined fst snd].
    eapply run_cons; [by eapply a_start|]. simpl.
    eapply run_cons; [by apply a_stop|].
    eapply run_cons; [apply a_worker; [by apply p_open|done|done|done]|].
    eapply run_cons; [apply a_worker; [by apply (p_end _ _ _ _ _ _ _ _ f2 f2')|done|done|done]|].
    eapply run_cons; [by apply a_join|]. cbn [joined fst snd].
    eapply run_cons; [apply a_dtor|]. apply run_nil.
  - done.
Qed.

Lemma stop_returns_witness :
  exists s, demo_run demo_trace (constructed demo_thread) s /\ owner s = AGone
    /\ Forall is_synced (earlier s ++ out_files (pipe s)).
Proof.
  destruct demo_stopped as (s & Hr & _ & Hg).
  destruct (stop_returns 8 demo_open (fun _ => fwrite_two) (fun n k => demo_time (100 * n + k))
    (txt "web") 4 0 demo_thread 1 demo_trace s) as (_ & _ & Hok);
    [lia|reflexivity|intros n; unfold demo_time; lia|intros n; exact fwrite_two_ok|reflexivity
    |exact Hr|].
  exists s. split; [exact Hr|]. split; [exact Hg|].
  destruct Hok as [_ Hgone]; [vm_compute; discriminate|]. apply (Hgone Hg).
Defined.

(** Improper owners: a second start() while the thread runs, a stop() before start(),
    and a second stop(). *)
Example second_start t :
  Thread_start demo_thread = Ok t -> Thread_start t = Fault FAbort
  /\ phase_after [Owner OStart; Owner OStart] = None.
Proof. intros [= <-]. done. Qed.

Example stop_unstarted :
  joined false demo_thread = (demo_thread, AFault FNullDeref)
  /\ phase_after [Owner OStop] = None.
Proof. done. Qed.

Example second_stop t t' :
  Thread_start demo_thread = Ok t -> joined false t = (t', AReady) ->
  joined false t' = (t', AFault FAbort)
  /\ phase_after [Owner OStart; Owner OStop; Owner OJoined; Owner OStop] = None.
Proof. intros [= <-] [= <-]. done. Qed.
