(* ===== verification/EventLoopThread.v ===== *)
(** include/EventLoopThread.h and src/EventLoopThread.cc: a thread that runs an
    event loop, started and stopped by its owner.

    The loop is a local variable of threadFunc, so it lives from its construction
    to the end of that function, and the owner only ever has its address.  The
    program is a step relation of three parties: the owner (startLoop, then at
    some point the destructor), the worker (threadFunc, running the loop of
    [EventLoop]), and others, who queue functors on the loop.  A critical section
    is one step.  A condition variable's waiter is woken by notify_all or for no
    reason; [OWait] records whether it has been notified.

    What the owner's destructor does to the loop, the store of quit_ and the
    write to the eventfd, are separate steps, as they are in EventLoop::quit. *)

From S2P Require Import Prelude TimeStamp Channel EventLoop Thread.

Record EventLoopThread (F : Type) := mkELT {
  loop_ : option addr;
  exiting_ : bool;
  thread : Thread;
  callback_ : option (list (act F));   (* what the callback asks of the loop *)
}.
Arguments mkELT {F}.
Arguments loop_ {F}. Arguments exiting_ {F}. Arguments thread {F}. Arguments callback_ {F}.

(** Where the owner is. *)
Inductive owner_pc :=
| OIdle                        (* constructed *)
| OSem                         (* thread_.start(): in sem_wait *)
| OLock                        (* startLoop: about to test loop_ == nullptr *)
| OWait (notified : bool)      (* in cond_.wait *)
| ORunning (l : addr)          (* startLoop has returned l *)
| OTest                        (* ~EventLoopThread: about to test loop_ *)
| OQuit                        (* about to store quit_ *)
| OWake                        (* inside quit(), about to look at the loop again *)
| OJoin                        (* in thread_.join() *)
| OGone                        (* destroyed *)
| OFault (f : fault).

(** Where the worker is. *)
Inductive worker_pc :=
| WNone                        (* no thread *)
| WSpawned                     (* before sem_post *)
| WFunc                        (* threadFunc: before the loop is constructed *)
| WCallback                    (* before the callback *)
| WPublish                     (* before the critical section that sets loop_ *)
| WEnter                       (* before loop.loop() *)
| WLoop                        (* in loop.loop() *)
| WClear                       (* before the critical section that resets loop_ *)
| WDead                        (* the thread's function has returned *)
| WFault (f : fault).

#[global] Instance worker_pc_eq_dec : EqDecision worker_pc.
Proof. solve_decision. Defined.

(** Who takes a step. *)
Inductive who := Owner | Worker | Other.

#[global] Instance who_eq_dec : EqDecision who.
Proof. solve_decision. Defined.

Section handshake.
Context {F : Type}.
Variable body : F -> list (act F).
Variable callbacks : addr -> list (act F).
(** The address of the loop, its wakeup channel's, and the thread's id. *)
Variables loop_addr wakeup_addr worker_tid : Z.
(** Whether threads other than the owner may call quit() on the loop. *)
Variable others_quit : bool.

Abbreviation config := (EventLoop.config (F:=F)).
Abbreviation loop_step := (EventLoop.step body callbacks).

(** EventLoopThread(cb, name) *)
Definition EventLoopThread_ctor (cb : option (list (act F))) (numCreated : Z) (name : bytes) :
    outcome (EventLoopThread F * Z) :=
  '(t, n) ← Thread_ctor numCreated name;
  Ok (mkELT None false t cb, n).

Record system := mkSystem {
  self : EventLoopThread F;
  owner : owner_pc;
  worker : worker_pc;
  loop_var : option config;    (* the local variable of threadFunc, while it lives *)
}.

Definition set_loop (l : option addr) (x : EventLoopThread F) :=
  mkELT l (exiting_ x) (thread x) (callback_ x).
Definition set_exiting (b : bool) (x : EventLoopThread F) :=
  mkELT (loop_ x) b (thread x) (callback_ x).
Definition set_thread (t : Thread) (x : EventLoopThread F) :=
  mkELT (loop_ x) (exiting_ x) t (callback_ x).

(** cond_.notify_all() *)
Definition notify_all (o : owner_pc) : owner_pc :=
  match o with OWait _ => OWait true | o => o end.

(** The EventLoop constructor, on the worker. *)
Definition new_loop : config :=
  mkConfig (EventLoop_ctor worker_tid wakeup_addr) PcExit 0 [].

(** callback_(&loop), which runs on the loop's own thread. *)
Definition run_callback (cb : option (list (act F))) (c : config) : config :=
  match cb with
  | Some acts => mkConfig (perform_all worker_tid acts (st c)) (at_ c) (owed c)
                   (submitted c ++ queued acts)
  | None => c
  end.

(** The head of loop.loop(): looping_ = true; quit_ = false. *)
Definition enter_loop (c : config) : config :=
  mkConfig (set_quit false (set_looping true (st c))) PcCheck (owed c) (submitted c).

(** A step of the loop's thread moves it; a step of another thread does not. *)
Definition own_step (c c' : config) : Prop := loop_step c c' /\ at_ c' <> at_ c.
Definition foreign_step (c c' : config) : Prop :=
  loop_step c c' /\ at_ c' = at_ c
  /\ (others_quit = false -> quit_ (st c') = quit_ (st c)).

(** The worker is about to use the EventLoopThread object. *)
Definition uses_self (w : worker_pc) : Prop :=
  w = WCallback \/ w = WPublish \/ w = WClear.

Inductive sys_step : who -> system -> system -> Prop :=
(* startLoop() *)
| s_start x w v t :
    Thread_start (thread x) = Ok t ->
    sys_step Owner (mkSystem x OIdle w v) (mkSystem (set_thread t x) OSem WSpawned v)
| s_sem_wait x w v :
    w <> WSpawned ->
    sys_step Owner (mkSystem x OSem w v) (mkSystem x OLock w v)
| s_wait x w v :
    loop_ x = None ->
    sys_step Owner (mkSystem x OLock w v) (mkSystem x (OWait false) w v)
| s_woken x w v :
    sys_step Owner (mkSystem x (OWait true) w v) (mkSystem x OLock w v)
| s_spurious x w v :
    sys_step Owner (mkSystem x (OWait false) w v) (mkSystem x OLock w v)
| s_return x l w v :
    loop_ x = Some l ->
    sys_step Owner (mkSystem x OLock w v) (mkSystem x (ORunning l) w v)
(* ~EventLoopThread() *)
| s_dtor x o w v :
    o = OIdle \/ (exists l, o = ORunning l) ->
    sys_step Owner (mkSystem x o w v) (mkSystem (set_exiting true x) OTest w v)
| s_no_loop x w v o :
    loop_ x = None ->
    o = match Thread_dtor (thread x) with Ok _ => OGone | Fault f => OFault f end ->
    sys_step Owner (mkSystem x OTest w v) (mkSystem x o w v)
| s_has_loop x w v l :
    loop_ x = Some l ->
    sys_step Owner (mkSystem x OTest w v) (mkSystem x OQuit w v)
| s_quit x w c l :
    loop_ x = Some l ->
    sys_step Owner (mkSystem x OQuit w (Some c))
      (mkSystem x OWake w (Some (mkConfig (set_quit true (st c)) (at_ c) (S (owed c)) (submitted c))))
| s_quit_null x w v :
    loop_ x = None ->
    sys_step Owner (mkSystem x OQuit w v) (mkSystem x (OFault FNullDeref) w v)
| s_wakeup x w c :
    sys_step Owner (mkSystem x OWake w (Some c))
      (mkSystem x OJoin w (Some (mkConfig (wakeup (st c)) (at_ c) (pred (owed c)) (submitted c))))
| s_wakeup_dead x w :
    sys_step Owner (mkSystem x OWake w None) (mkSystem x (OFault FUseAfterFree) w None)
| s_join x v o :
    o = match (t ← Thread_join (thread x); Thread_dtor t) with Ok _ => OGone | Fault f => OFault f end ->
    sys_step Owner (mkSystem x OJoin WDead v) (mkSystem x o WDead v)
(* threadFunc() *)
| s_sem_post x o v :
    sys_step Worker (mkSystem x o WSpawned v) (mkSystem x o WFunc v)
| s_loop_ctor x o v :
    sys_step Worker (mkSystem x o WFunc v) (mkSystem x o WCallback (Some new_loop))
| s_callback x o c :
    o <> OGone ->
    sys_step Worker (mkSystem x o WCallback (Some c))
      (mkSystem x o WPublish (Some (run_callback (callback_ x) c)))
| s_publish x o v :
    o <> OGone ->
    sys_step Worker (mkSystem x o WPublish v)
      (mkSystem (set_loop (Some loop_addr) x) (notify_all o) WEnter v)
| s_enter x o c :
    sys_step Worker (mkSystem x o WEnter (Some c)) (mkSystem x o WLoop (Some (enter_loop c)))
| s_loop x o c c' :
    own_step c c' ->
    sys_step Worker (mkSystem x o WLoop (Some c)) (mkSystem x o WLoop (Some c'))
| s_leave x o c :
    at_ c = PcExit ->
    sys_step Worker (mkSystem x o WLoop (Some c)) (mkSystem x o WClear (Some c))
| s_clear x o v :
    o <> OGone ->
    sys_step Worker (mkSystem x o WClear v) (mkSystem (set_loop None x) o WDead None)
| s_self_gone x w v :
    uses_self w ->
    sys_step Worker (mkSystem x OGone w v) (mkSystem x OGone (WFault FUseAfterFree) v)
(* the threads that use the loop, while it lives *)
| s_other x o w c c' :
    foreign_step c c' ->
    sys_step Other (mkSystem x o w (Some c)) (mkSystem x o w (Some c')).

(** A run, and who took its steps. *)
Inductive run : list who -> system -> system -> Prop :=
| run_nil c : run [] c c
| run_cons w tr c c' c'' : sys_step w c c' -> run tr c' c'' -> run (w :: tr) c c''.

(** The state after the constructor. *)
Definition constructed (x : EventLoopThread F) : system := mkSystem x OIdle WNone None.

(** ** The loop's own steps *)

Implicit Types (c : config) (s : system).

(** No callback of the loop quits it. *)
Definition calm_callbacks : Prop :=
  (forall f, quits (body f) = false) /\ (forall ch, quits (callbacks ch) = false).

(** The acts still to be performed do not quit. *)
Definition pc_calm (p : pc (F:=F)) : Prop :=
  match p with
  | PcEventActs acts _ | PcRunActs acts _ => quits acts = false
  | _ => True
  end.

Lemma wakeup_quit (s : EventLoop F) : quit_ (wakeup s) = quit_ s.
Proof. by destruct (wakeup_frame s) as (_ & _ & -> & _). Qed.

Lemma perform_quit tid a (s : EventLoop F) :
  quits [a] = false -> quit_ (perform tid a s) = quit_ s.
Proof.
  destruct a as [f|]; [|done]. intros _. simpl. unfold queueInLoop.
  case_match; by rewrite ?wakeup_quit.
Qed.

Lemma quits_cons (a : act F) acts :
  quits (a :: acts) = false -> quits [a] = false /\ quits acts = false.
Proof. simpl. rewrite orb_false_r. apply orb_false_iff. Qed.

(** A calm loop does not quit by itself, and only leaves when it was told to. *)
Lemma own_step_calm c c' :
  calm_callbacks -> pc_calm (at_ c) -> own_step c c' ->
  pc_calm (at_ c') /\ quit_ (st c') = quit_ (st c)
  /\ (at_ c' = PcExit -> quit_ (st c') = true).
Proof.
  intros [Hf Hch] Hp [Hstep Hat]. destruct Hstep; simpl in *; try done;
    try (apply quits_cons in Hp as [? ?]; rewrite perform_quit by done); split_and?; auto; done.
Qed.

(** The loop's thread always has a step to take. *)
Lemma own_step_progress c : at_ c <> PcExit -> exists c', own_step c c'.
Proof.
  destruct c as [s p n sub]. unfold own_step. destruct p; simpl; intros Hne; try done.
  - destruct (quit_ s) eqn:Eq; eexists; (split; [by constructor|done]).
  - destruct (decide (0 < eventfd_count s)).
    + eexists. split; [eapply (step_poll _ _ TimeStamp_default [wakeupChannel_ s])|done].
      split; [done|]. left. by apply list_elem_of_singleton.
    + eexists. split; [eapply (step_poll _ _ TimeStamp_default [])|done].
      split; [by intros ?%elem_of_nil|done].
  - destruct rest as [|ch rest]; [eexists; split; [by constructor|done]|].
    destruct (decide (ch = wakeupChannel_ s)) as [->|].
    + eexists. split; [apply step_wakeup_event|]. simpl. intros [= He%(f_equal length)]. simpl in He. lia.
    + eexists. split; [by apply step_event|done].
  - destruct acts as [|a acts]; eexists; (split; [constructor|]); simpl; try done.
    intros [= He%(f_equal length)]. simpl in He. lia.
  - eexists; split; [constructor|done].
  - destruct batch as [|f batch]; eexists; (split; [constructor|done]).
  - destruct acts as [|a acts]; eexists; (split; [constructor|]); simpl; try done.
    intros [= He%(f_equal length)]. simpl in He. lia.
Qed.

(** ** The invariant of the handshake *)

(** Before the thread is started, and after the destructor found no thread. *)
Definition unstarted (o : owner_pc) : bool :=
  match o with OIdle | OTest | OGone => true | _ => false end.

(** Before loop_ is set the owner can only be in startLoop, not yet notified. *)
Definition before_publish (o : owner_pc) : bool :=
  match o with OSem | OLock | OWait false => true | _ => false end.

(** quit() is under way, or done. *)
Definition asked (o : owner_pc) : bool :=
  match o with OWake | OJoin => true | _ => false end.

(** After it a waiting owner has been notified. *)
Definition after_publish (o : owner_pc) : bool :=
  match o with
  | OSem | OLock | OWait true | OTest | OQuit | OWake | OJoin => true
  | ORunning l => bool_decide (l = loop_addr)
  | _ => false
  end.

(** The ways the owner can be once the thread has ended. *)
Definition after_end (o : owner_pc) : bool :=
  match o with OWake | OJoin | OFault FUseAfterFree => true | _ => false end.

(** The callback does not quit. *)
Definition calm_init (x : EventLoopThread F) : Prop :=
  match callback_ x with Some acts => quits acts = false | None => True end.

Definition unjoined (x : EventLoopThread F) : Prop :=
  started_ (thread x) = true /\ joined_ (thread x) = false.

(** Each place of the worker with what it implies for everything else. *)
Inductive shape (x : EventLoopThread F) (o : owner_pc) : worker_pc -> option config -> Prop :=
| sh_none :
    loop_ x = None -> started_ (thread x) = false -> unstarted o = true ->
    shape x o WNone None
| sh_spawned : loop_ x = None -> unjoined x -> before_publish o = true -> shape x o WSpawned None
| sh_func : loop_ x = None -> unjoined x -> before_publish o = true -> shape x o WFunc None
| sh_constructed c :
    at_ c = PcExit -> loop_ x = None -> unjoined x -> before_publish o = true ->
    shape x o WCallback (Some c)
| sh_called c :
    at_ c = PcExit -> loop_ x = None -> unjoined x -> before_publish o = true ->
    shape x o WPublish (Some c)
| sh_entering c :
    at_ c = PcExit -> loop_ x = Some loop_addr -> unjoined x -> after_publish o = true ->
    shape x o WEnter (Some c)
| sh_looping c :
    pc_calm (at_ c) -> (quit_ (st c) = true -> asked o = true) ->
    (at_ c = PcExit -> quit_ (st c) = true) ->
    loop_ x = Some loop_addr -> unjoined x -> after_publish o = true ->
    shape x o WLoop (Some c)
| sh_leaving c :
    loop_ x = Some loop_addr -> unjoined x -> asked o = true ->
    shape x o WClear (Some c)
| sh_dead : loop_ x = None -> unjoined x -> after_end o = true -> shape x o WDead None
| sh_joined : loop_ x = None -> o = OGone -> shape x o WDead None.

Record sys_inv s : Prop := {
  inv_thread : thread_ok (thread (self s));
  inv_init : calm_init (self s);
  inv_shape : shape (self s) (owner s) (worker s) (loop_var s);
}.

Lemma notify_after o : before_publish o = true -> after_publish (notify_all o) = true.
Proof. by destruct o. Qed.

Lemma asked_after o : asked o = true -> after_end o = true.
Proof. by destruct o. Qed.

Lemma run_callback_at cb c : at_ (run_callback cb c) = at_ c.
Proof. by destruct cb. Qed.

Create HintDb handshake discriminated.
#[local] Hint Constructors shape : handshake.
#[local] Hint Resolve notify_after asked_after : handshake.

(** The parts of a step that call a method of Thread. *)
Lemma start_shape x t o w v :
  thread_ok (thread x) -> shape x OIdle w v -> Thread_start (thread x) = Ok t ->
  before_publish o = true ->
  thread_ok t /\ shape (set_thread t x) o WSpawned v.
Proof.
  intros Ht Hsh Hst Ho. inversion Hsh as [Hl Hs0| | | | | | | | |]; subst; simpl in *;
    try congruence.
  destruct (Thread_start_ok _ Ht Hs0) as (t' & Hst' & Ht' & Hs & Hj).
  rewrite Hst in Hst'. injection Hst' as <-. split; [done|]. by constructor.
Qed.

Lemma no_loop_shape x w v :
  thread_ok (thread x) -> shape x OTest w v -> loop_ x = None ->
  shape x match Thread_dtor (thread x) with Ok _ => OGone | Fault f => OFault f end w v.
Proof.
  intros Ht Hsh Hl. rewrite Thread_dtor_ok by done.
  inversion Hsh; subst; simpl in *; try congruence. by constructor.
Qed.

Lemma join_outcome x :
  thread_ok (thread x) -> unjoined x ->
  match (t ← Thread_join (thread x); Thread_dtor t) with Ok _ => OGone | Fault f => OFault f end
  = OGone.
Proof.
  intros Ht [Hs Hj]. destruct (Thread_join_ok _ Ht Hs Hj) as (t & -> & Ht' & _). simpl.
  by rewrite Thread_dtor_ok.
Qed.

Lemma join_shape x v :
  thread_ok (thread x) -> shape x OJoin WDead v ->
  shape x match (t ← Thread_join (thread x); Thread_dtor t) with
          | Ok _ => OGone | Fault f => OFault f end WDead v.
Proof.
  intros Ht Hsh. inversion Hsh; subst; simpl in *; try congruence.
  rewrite join_outcome by done. by constructor.
Qed.

(** Steps of the other threads leave the shape alone. *)
Lemma foreign_shape x o w c c' :
  others_quit = false -> foreign_step c c' -> shape x o w (Some c) -> shape x o w (Some c').
Proof.
  intros Hoq (_ & Hat & Hq) Hsh. specialize (Hq Hoq).
  inversion Hsh; subst; constructor; rewrite ?Hat, ?Hq; auto.
Qed.

Ltac shape_step Hsh :=
  inversion Hsh; subst; simpl in *; try congruence; constructor; simpl in *; auto;
  try congruence; try (apply bool_decide_eq_true_2; congruence).

Lemma sys_step_inv w s s' :
  calm_callbacks -> others_quit = false -> sys_inv s -> sys_step w s s' -> sys_inv s'.
Proof.
  intros Hcalm Hoq [Ht Hi Hsh] Hstep.
  destruct Hstep as [x w v t Hst|x w v Hw|x w v Hl|x w v|x w v|x l w v Hl|x o w v Ho|x w v o Hl ->
    |x w v l Hl|x w c l Hl|x w v Hl|x w c|x w|x v o ->|x o v|x o v|x o c Hg|x o v Hg|x o c
    |x o c c' Hown|x o c Hat|x o v Hg|x w v Hu|x o w c c' Hf]; simpl in *.
  all: try solve [split; simpl; try done; shape_step Hsh].
  - destruct (start_shape _ _ OSem _ _ Ht Hsh Hst eq_refl). by split.
  - split; simpl; try done. destruct Ho as [->|[l ->]]; shape_step Hsh.
  - split; simpl; try done. by apply no_loop_shape.
  - split; simpl; try done. shape_step Hsh. by rewrite wakeup_quit.
  - split; simpl; try done. by apply join_shape.
  - split; simpl; try done. shape_step Hsh. by rewrite run_callback_at.
  - split; simpl; try done. shape_step Hsh. by apply notify_after.
  - split; simpl; try done.
    inversion Hsh as [| | | | | |? Hp Hq He| | |]; subst; simpl in *; try congruence.
    destruct (own_step_calm _ _ Hcalm Hp Hown) as (? & Hq' & ?).
    constructor; auto. by rewrite Hq'.
  - split; simpl; try done. shape_step Hsh. by apply asked_after.
  - destruct Hu as [->|[->| ->]]; inversion Hsh; simpl in *; congruence.
  - split; simpl; try done. by eapply foreign_shape.
Qed.

Lemma run_inv tr s s' :
  calm_callbacks -> others_quit = false -> sys_inv s -> run tr s s' -> sys_inv s'.
Proof. intros ? ? Hi Hr. induction Hr; eauto using sys_step_inv. Qed.

(** What the constructor leaves. *)
Lemma ctor_inv cb n name x n' :
  EventLoopThread_ctor cb n name = Ok (x, n') ->
  match cb with Some acts => quits acts = false | None => True end ->
  sys_inv (constructed x).
Proof.
  unfold EventLoopThread_ctor, Thread_ctor, setDefaultName. destruct name; [done|].
  intros [= <- <-] Hcb. split; simpl; [done|done|by constructor].
Qed.

(** ** startLoop returns *)

Definition in_startLoop (o : owner_pc) : bool :=
  match o with OSem | OLock | OWait _ => true | _ => false end.

(** The steps that still separate the owner from the end of startLoop: those of the
    worker up to the critical section that sets loop_, then its own. *)
Definition need s : list who :=
  match owner s with
  | OIdle => Owner :: replicate 4 Worker ++ [Owner; Owner]
  | OSem | OLock | OWait _ =>
      match worker s with
      | WSpawned => replicate 4 Worker ++ [Owner; Owner]
      | WFunc => replicate 3 Worker ++ [Owner; Owner]
      | WCallback => replicate 2 Worker ++ [Owner; Owner]
      | WPublish => [Worker; Owner; Owner]
      | _ => match owner s with OLock => [Owner] | _ => [Owner; Owner] end
      end
  | _ => []
  end.

Lemma sublist_tail {A} (a w : A) l tr : a :: l `sublist_of` w :: tr -> l `sublist_of` tr.
Proof.
  intros Hs. inversion Hs; subst; [done|]. etransitivity; [|done]. by apply sublist_cons.
Qed.

Lemma sublist_skipped {A} (a w : A) l tr :
  a <> w -> a :: l `sublist_of` w :: tr -> a :: l `sublist_of` tr.
Proof. intros Hne Hs. by inversion Hs; subst. Qed.

(** Every step uses up its place in what is needed. *)
Lemma need_step w s s' tr :
  sys_inv s -> sys_step w s s' -> need s `sublist_of` w :: tr -> need s' `sublist_of` tr.
Proof.
  intros [_ _ Hsh] Hstep.
  destruct Hstep; simpl in Hsh; inversion Hsh; subst; unfold need; simpl in *; try congruence;
    intros Hn; try apply sublist_nil_l; try (by eapply sublist_tail);
    try (by eapply sublist_skipped, Hn).
  all: repeat case_match; simplify_eq/=; try apply sublist_nil_l; try done;
    try (by eapply sublist_tail); try (by eapply sublist_skipped, Hn).
  (* the owner was about to test loop_ when it was set *)
  apply sublist_tail in Hn. etransitivity; [|done]. by apply sublist_cons.
Qed.

Lemma need_run tr tr' s s' :
  calm_callbacks -> others_quit = false -> sys_inv s -> run tr s s' ->
  need s `sublist_of` tr ++ tr' -> need s' `sublist_of` tr'.
Proof.
  intros Hc Ho Hi Hr. induction Hr as [|w tr s1 s2 s3 Hs Hr IH]; [done|]. simpl. intros Hn.
  apply IH; [by eapply sys_step_inv|]. by eapply need_step.
Qed.

(** Whose step startLoop waits for. *)
Definition next_party s : who :=
  match loop_ (self s) with Some _ => Owner | None => Worker end.

(** While the owner is in startLoop, the worker can move until loop_ is set, and
    from then on the owner can. *)
Lemma startLoop_enabled s :
  sys_inv s -> in_startLoop (owner s) = true ->
  exists s', sys_step (next_party s) s s'.
Proof.
  intros [_ _ Hsh] Hin. destruct s as [x o w v]. simpl in *.
  inversion Hsh as [Hl|Hl|Hl|c Hat Hl|c Hat Hl|c Hat Hl ? Ho|c ? ? ? Hl ? Ho|c Hl ? Ho|Hl ? Ho|Hl Ho];
    unfold next_party; subst; simpl in *; rewrite Hl; try done;
    try (by destruct o); try (eexists; constructor; by destruct o).
  all: destruct o as [| | |[|]| | | | | | |]; try done; eexists; by econstructor.
Qed.

(** C28. startLoop, when nobody but the owner stops the loop.  The owner never misses
    the notification: while it is in startLoop, the worker can always take a step
    until it has set loop_, and from then on the owner can; after four steps of the
    worker and then two of the owner, however they are mixed with other steps,
    startLoop is over.  What it returns is the worker's loop, constructed, with the
    callback already run on it, and alive. *)
Theorem startLoop_returns cb n name x n' tr s
    (Hcalm : calm_callbacks) (Hothers : others_quit = false)
    (Hcb : match cb with Some acts => quits acts = false | None => True end)
    (Hctor : EventLoopThread_ctor cb n name = Ok (x, n')) (Hrun : run tr (constructed x) s) :
  (forall l, owner s = ORunning l ->
     l = loop_addr /\ loop_ (self s) = Some l /\ (worker s = WEnter \/ worker s = WLoop)
     /\ is_Some (loop_var s))
  /\ (in_startLoop (owner s) = true ->
        exists s', sys_step (next_party s) s s')
  /\ (Owner :: replicate 4 Worker ++ [Owner; Owner] `sublist_of` tr ->
        in_startLoop (owner s) = false /\ owner s <> OIdle).
Proof.
  pose proof (ctor_inv _ _ _ _ _ Hctor Hcb) as Hi0.
  pose proof (run_inv _ _ _ Hcalm Hothers Hi0 Hrun) as Hi.
  split; [|split].
  - intros l Ho. destruct Hi as [_ _ Hsh]. rewrite Ho in Hsh.
    inversion Hsh as [| | | | |c ? Hl ? Hb|c ? ? ? Hl ? Hb| | |]; subst; simpl in *; try done;
      apply bool_decide_eq_true in Hb; subst l; eauto.
  - by apply startLoop_enabled.
  - intros Hsub. assert (need s `sublist_of` []) as Hn.
    { eapply need_run; [..|done|]; try done. by rewrite app_nil_r. }
    apply sublist_nil_r in Hn. unfold need in Hn.
    destruct (owner s); simpl in *; try done; repeat case_match; simplify_eq/=; done.
Qed.

(** ** The destructor *)

Lemma perform_keeps_quit tid a (s : EventLoop F) :
  quit_ s = true -> quit_ (perform tid a s) = true.
Proof.
  intros Hq. destruct a; simpl; [unfold queueInLoop|unfold quit]; case_match;
    by rewrite ?wakeup_quit.
Qed.

Lemma own_step_quit c c' : own_step c c' -> quit_ (st c) = true -> quit_ (st c') = true.
Proof.
  intros [Hs _] Hq. destruct Hs; simpl in *; rewrite ?wakeup_quit; try done;
    by apply perform_keeps_quit.
Qed.

(** A step of the loop's thread, after any number of steps of others. *)
Definition own_round c c' : Prop := exists m, rtc foreign_step c m /\ own_step m c'.

Lemma foreign_steps c c' :
  others_quit = false -> rtc foreign_step c c' -> at_ c' = at_ c /\ quit_ (st c') = quit_ (st c).
Proof.
  intros Ho Hs. induction Hs as [|c1 c2 c3 (_ & Hat & Hq) _ [IHa IHq]]; [done|].
  by rewrite IHa, IHq, Hat, Hq.
Qed.

(** The loop's thread takes finitely many steps from [p], once quit_ is set. *)
Definition settled (p : pc (F:=F)) : Prop :=
  forall c, at_ c = p -> quit_ (st c) = true -> Acc (flip own_round) c.

Lemma settle p :
  others_quit = false ->
  (forall c c', at_ c = p -> quit_ (st c) = true -> own_step c c' -> settled (at_ c')) ->
  settled p.
Proof.
  intros Ho Hp c Hat Hq. constructor. intros c' (m & Hf & Hs).
  destruct (foreign_steps _ _ Ho Hf) as [Hat' Hq']. rewrite Hat in Hat'. rewrite Hq in Hq'.
  apply (Hp m c'); try done. by eapply own_step_quit.
Qed.

Ltac settle_step := apply settle; [done|]; intros ?c ?c' ?Hat ?Hq [?Hs ?Hne];
  destruct Hs; simpl in *; simplify_eq/=; try congruence; auto.

Lemma settled_all p : others_quit = false -> settled p.
Proof.
  intros Ho.
  assert (settled PcExit) as Hexit by settle_step.
  assert (settled PcCheck) as Hcheck by settle_step.
  assert (forall batch, settled (PcRun batch)) as Hrun.
  { induction batch as [|f batch IH]; [settle_step|]. settle_step.
    generalize (body f). intros acts. induction acts; settle_step. }
  assert (forall acts batch, settled (PcRunActs acts batch)) as Hacts
    by (induction acts as [|a acts IH]; intros batch; settle_step).
  assert (settled PcSwap) as Hswap by settle_step.
  assert (forall rest, settled (PcEvents rest)) as Hevents.
  { induction rest as [|ch rest IH]; settle_step.
    generalize (callbacks ch). intros acts. induction acts; settle_step. }
  assert (forall acts rest, settled (PcEventActs acts rest)) as Heacts
    by (induction acts as [|a acts IH]; intros rest; settle_step).
  destruct p; auto. settle_step.
Qed.

(** A step of the worker, after any number of steps of others. *)
Definition worker_round s s' : Prop := exists m, rtc (sys_step Other) s m /\ sys_step Worker m s'.

Lemma other_steps s s' :
  rtc (sys_step Other) s s' ->
  self s' = self s /\ owner s' = owner s /\ worker s' = worker s
  /\ match loop_var s with
     | Some c => exists c', loop_var s' = Some c' /\ rtc foreign_step c c'
     | None => loop_var s' = None
     end.
Proof.
  intros Hs. induction Hs as [s|s1 s2 s3 H1 _ IH].
  { split_and!; try done. destruct (loop_var s); [eexists; split; [done|apply rtc_refl]|done]. }
  inversion H1 as [| | | | | | | | | | | | | | | | | | | | | | |x o w c c' Hf]; subst; simpl in *.
  destruct IH as (-> & -> & -> & c2 & -> & Hc). split_and!; try done.
  exists c2. split; [done|]. by eapply rtc_l.
Qed.

(** The thread has ended, or is about to. *)
Lemma ended_acc s : worker s = WDead \/ (exists f, worker s = WFault f) -> Acc (flip worker_round) s.
Proof.
  intros Hw. constructor. intros s' (m & Ho & Hs). exfalso.
  destruct (other_steps _ _ Ho) as (_ & _ & Hw' & _).
  inversion Hs; subst; simpl in *; destruct Hw as [Hw|[f Hw]]; try congruence;
    unfold uses_self in *; intuition congruence.
Qed.

Lemma clear_acc s : worker s = WClear -> Acc (flip worker_round) s.
Proof.
  intros Hw. constructor. intros s' (m & Ho & Hs).
  destruct (other_steps _ _ Ho) as (_ & _ & Hw' & _).
  inversion Hs; subst; simpl in *; try congruence; apply ended_acc; simpl; eauto.
Qed.

Lemma loop_acc x o c :
  others_quit = false -> quit_ (st c) = true ->
  Acc (flip worker_round) (mkSystem x o WLoop (Some c)).
Proof.
  intros Hoq Hq. pose proof (settled_all (at_ c) Hoq c eq_refl Hq) as Hacc.
  clear Hq. revert x o. induction Hacc as [c _ IH]. intros x o.
  constructor. intros s' (m & Ho & Hs).
  destruct (other_steps _ _ Ho) as (Hx & Hoo & Hw & c1 & Hv & Hf). simpl in *.
  inversion Hs; subst; simpl in *; simplify_eq/=.
  - apply IH. by exists c1.
  - by apply clear_acc.
  - unfold uses_self in *. intuition congruence.
Qed.

(** The loop has been left, or is in the course of it. *)
Definition stopping s : bool :=
  match worker s, loop_var s with
  | WClear, _ => true
  | WLoop, Some c => quit_ (st c)
  | _, _ => false
  end.

(** The worker has not entered the loop, or runs it with quit_ reset. *)
Definition unstoppable s : Prop :=
  owner s = OJoin /\ worker s <> WDead /\ stopping s = false.

Lemma unstoppable_step w s s' :
  calm_callbacks -> others_quit = false -> sys_inv s -> unstoppable s -> sys_step w s s' ->
  unstoppable s'.
Proof.
  intros Hcalm Hoq [_ _ Hsh] (Ho & Hw & Hst) Hstep. unfold unstoppable, stopping in *.
  destruct Hstep; simpl in *; simplify_eq; try done;
    try (by destruct H as [?|[? ?]]); try (by inversion Hsh).
  - inversion Hsh as [| | | | | |? Hp ? ?| | |]; subst.
    destruct (own_step_calm _ _ Hcalm Hp H) as (_ & -> & _). done.
  - inversion Hsh; subst. exfalso. intuition congruence.
  - destruct H as (_ & _ & Hq). destruct w; try done. by rewrite (Hq Hoq).
Qed.

Lemma unstoppable_run tr s s' :
  calm_callbacks -> others_quit = false -> sys_inv s -> unstoppable s -> run tr s s' ->
  owner s' = OJoin.
Proof.
  intros Hcalm Hoq Hi Hu Hr. induction Hr as [|w tr s1 s2 s3 Hs Hr IH]; [apply Hu|].
  apply IH; [by eapply sys_step_inv|by eapply unstoppable_step].
Qed.

(** While the thread has not ended and is waited for, it can move. *)
Lemma worker_enabled s :
  sys_inv s -> owner s = OJoin -> worker s <> WDead -> exists s', sys_step Worker s s'.
Proof.
  intros [_ _ Hsh] Ho Hw. destruct s as [x o w v]. simpl in *. subst o.
  inversion Hsh; subst; simpl in *; try done.
  - eexists. constructor.
  - assert (at_ c = PcExit \/ at_ c <> PcExit) as [Hat|Hat] by (destruct (at_ c); auto).
    + eexists. by apply s_leave.
    + destruct (own_step_progress c Hat) as [c' Hc']. eexists. by apply s_loop.
  - eexists. by constructor.
Qed.

Lemma joinable_step s :
  sys_inv s -> owner s = OJoin -> worker s = WDead ->
  exists s', sys_step Owner s s' /\ owner s' = OGone.
Proof.
  intros [Ht _ Hsh] Ho Hw. destruct s as [x o w v]. simpl in *. subst o w.
  inversion Hsh; subst; simpl in *; try done. eexists. split; [by constructor|].
  simpl. by rewrite join_outcome.
Qed.

(** C29. The destructor, when nobody but the owner stops the loop.  (1) It is over
    only when the thread has ended or was never started, and the thread never uses
    the destroyed object.  (2) The only way it can fail is a use of the loop after
    its end, inside quit().  (3) In join, either the thread has ended and join
    returns; or the thread can take a step, and what follows depends on quit_ alone:
    while it is set, the thread ends after finitely many of its own steps, whatever
    others do; if the loop had not been entered when quit_ was stored, loop() has
    reset it or will, and join never returns. *)
Theorem dtor_joins cb n name x n' tr s
    (Hcalm : calm_callbacks) (Hothers : others_quit = false)
    (Hcb : match cb with Some acts => quits acts = false | None => True end)
    (Hctor : EventLoopThread_ctor cb n name = Ok (x, n')) (Hrun : run tr (constructed x) s) :
  (owner s = OGone -> worker s = WNone \/ worker s = WDead)
  /\ (forall f, owner s = OFault f -> f = FUseAfterFree /\ worker s = WDead)
  /\ (forall f, worker s <> WFault f)
  /\ (owner s = OJoin ->
        if decide (worker s = WDead)
        then exists s', sys_step Owner s s' /\ owner s' = OGone
        else (exists s', sys_step Worker s s')
             /\ if stopping s then Acc (flip worker_round) s
                else forall tr' s', run tr' s s' -> owner s' = OJoin).
Proof.
  pose proof (run_inv _ _ _ Hcalm Hothers (ctor_inv _ _ _ _ _ Hctor Hcb) Hrun) as Hi.
  pose proof (inv_shape _ Hi) as Hsh.
  split; [|split; [|split]].
  - intros Ho. rewrite Ho in Hsh. inversion Hsh; simpl in *; auto; done.
  - intros f Ho. rewrite Ho in Hsh. inversion Hsh; simpl in *; try done. by destruct f.
  - intros f Hw. rewrite Hw in Hsh. inversion Hsh.
  - intros Ho. destruct (decide _) as [Hw|Hw]; [by apply joinable_step|].
    split; [by apply worker_enabled|]. destruct (stopping s) eqn:Hst.
    + destruct s as [sx so w v]. unfold stopping in Hst. simpl in *.
      destruct w; try discriminate Hst; [|by apply clear_acc].
      destruct v; [|discriminate Hst]. by apply loop_acc.
    + intros tr' s'. by apply unstoppable_run.
Qed.

(** ** Two races of the destructor *)

(** The shortest way through startLoop. *)
Lemma started_run x t :
  Thread_start (thread x) = Ok t -> loop_ x = None ->
  run (Owner :: replicate 4 Worker ++ [Owner; Owner]) (constructed x)
    (mkSystem (set_loop (Some loop_addr) (set_thread t x)) (ORunning loop_addr) WEnter
       (Some (run_callback (callback_ x) new_loop))).
Proof.
  intros Ht Hl. eapply run_cons; [by apply s_start|].
  eapply run_cons; [apply s_sem_post|]. eapply run_cons; [apply s_loop_ctor|].
  eapply run_cons; [by apply s_callback|]. eapply run_cons; [by apply s_publish|].
  eapply run_cons; [by apply s_sem_wait|]. eapply run_cons; [by apply s_return|].
  apply run_nil.
Qed.

Lemma run_app tr tr' s s' s'' : run tr s s' -> run tr' s' s'' -> run (tr ++ tr') s s''.
Proof. intros Hr Hr'. induction Hr; simpl; [done|]. by econstructor; eauto. Qed.

(** C30. Both bad ends of the destructor are possible, for any loop that nobody else
    stops.  If the owner destroys the object right after startLoop, before the worker
    enters loop(), the join never returns.  If the worker leaves the loop between the
    store of quit_ and the rest of quit(), the owner uses a destroyed loop. *)
Theorem dtor_races cb n name x n'
    (Hcalm : calm_callbacks) (Hothers : others_quit = false)
    (Hcb : match cb with Some acts => quits acts = false | None => True end)
    (Hctor : EventLoopThread_ctor cb n name = Ok (x, n')) :
  (exists tr s, run tr (constructed x) s /\ owner s = OJoin
     /\ forall tr' s', run tr' s s' -> owner s' = OJoin)
  /\ (exists tr s, run tr (constructed x) s /\ owner s = OFault FUseAfterFree).
Proof.
  pose proof (ctor_inv _ _ _ _ _ Hctor Hcb) as Hi.
  assert (exists t, Thread_start (thread x) = Ok t) as [t Ht].
  { destruct Hi as [Hok _ Hsh]. inversion Hsh as [? Hs| | | | | | | | |].
    destruct (Thread_start_ok _ Hok Hs) as (t & Hst & _). by exists t. }
  assert (loop_ x = None) as Hl by (destruct Hi as [_ _ Hsh]; by inversion Hsh).
  pose proof (started_run x t Ht Hl) as Hstart. split.
  - assert (exists tr s, run tr (constructed x) s /\ unstoppable s) as (tr & s & Hr & Hu).
    { eexists _, _. split.
      - eapply run_app; [exact Hstart|]. eapply run_cons; [apply s_dtor; eauto|].
        eapply run_cons; [by eapply s_has_loop|]. eapply run_cons; [by eapply s_quit|].
        eapply run_cons; [apply s_wakeup|apply run_nil].
      - by split_and!. }
    exists tr, s. split; [exact Hr|]. split; [apply Hu|]. intros tr' s'.
    apply unstoppable_run; try done. by eapply run_inv.
  - eexists _, _. split.
    { eapply run_app; [exact Hstart|]. eapply run_cons; [apply s_enter|].
      eapply run_cons; [apply s_dtor; eauto|]. eapply run_cons; [by eapply s_has_loop|].
      eapply run_cons; [by eapply s_quit|].
      eapply run_cons; [apply s_loop; split; [by apply step_exit|done]|].
      eapply run_cons; [by apply s_leave|]. eapply run_cons; [by apply s_clear|].
      eapply run_cons; [apply s_wakeup_dead|apply run_nil]. }
    done.
Qed.
End handshake.

(** ** A thread whose callback queues a functor *)

Definition demo_body (f : nat) : list (act nat) := match f with O => [] | S f => [ActQueue f] end.
Definition demo_callbacks (ch : addr) : list (act nat) := [].

Lemma demo_elt_calm : calm_callbacks demo_body demo_callbacks.
Proof. split; [by intros [|f]|done]. Qed.

Definition demo_self : EventLoopThread nat :=
  mkELT None false (mkThread NoThread 0 false false (txt "io0")) (Some [ActQueue 2%nat]).
Definition demo_thread : Thread := mkThread Joinable 0 true false (txt "io0").

Lemma startLoop_returns_witness :
  exists tr s, run demo_body demo_callbacks 64 8 4242 false tr (constructed demo_self) s
    /\ owner s = ORunning 64 /\ in_startLoop (owner s) = false.
Proof.
  eexists _, _. split; [by apply (started_run _ _ 64 8 4242 false demo_self demo_thread)|].
  split; [done|].
  apply (startLoop_returns demo_body demo_callbacks 64 8 4242 false
           (Some [ActQueue 2%nat]) 0 (txt "io0") demo_self 1 _ _ demo_elt_calm
           eq_refl eq_refl eq_refl
           (started_run _ _ 64 8 4242 false demo_self demo_thread eq_refl eq_refl)).
  reflexivity.
Defined.

Lemma dtor_joins_witness :
  exists tr s, run demo_body demo_callbacks 64 8 4242 false tr (constructed demo_self) s
    /\ owner s = ORunning 64 /\ (forall f, worker s <> WFault f).
Proof.
  eexists _, _. split; [by apply (started_run _ _ 64 8 4242 false demo_self demo_thread)|].
  split; [done|].
  apply (dtor_joins demo_body demo_callbacks 64 8 4242 false
           (Some [ActQueue 2%nat]) 0 (txt "io0") demo_self 1 _ _ demo_elt_calm
           eq_refl eq_refl eq_refl
           (started_run _ _ 64 8 4242 false demo_self demo_thread eq_refl eq_refl)).
Defined.

Lemma dtor_races_witness :
  (exists tr s, run demo_body demo_callbacks 64 8 4242 false tr (constructed demo_self) s
     /\ owner s = OJoin
     /\ forall tr' s', run demo_body demo_callbacks 64 8 4242 false tr' s s' -> owner s' = OJoin)
  /\ (exists tr s, run demo_body demo_callbacks 64 8 4242 false tr (constructed demo_self) s
        /\ owner s = OFault FUseAfterFree).
Proof.
  exact (dtor_races demo_body demo_callbacks 64 8 4242 false
           (Some [ActQueue 2%nat]) 0 (txt "io0") demo_self 1 demo_elt_calm eq_refl eq_refl eq_refl).
Defined.
