(* ===== verification/EventLoopThreadPool.v ===== *)
(** include/EventLoopThreadPool.h and src/EventLoopThreadPool.cc: the loops a
    server spreads its connections over.

    A loop is known by its address; the loop that the i-th EventLoopThread starts
    is the parameter [startLoop], given the thread's name. *)

From S2P Require Import Prelude Format Channel.

Record EventLoopThreadPool := mkPool {
  baseLoop_ : addr;
  name_ : bytes;
  started_ : bool;
  numThreads_ : Z;
  next_ : Z;
  loops_ : list addr;
  initialised : list addr;    (* ghost: the loops the callback was run on *)
}.

Definition EventLoopThreadPool_ctor (baseLoop : addr) (nameArg : bytes) : EventLoopThreadPool :=
  mkPool baseLoop nameArg false 0 0 [] [].

Definition setThreadNum (n : Z) (p : EventLoopThreadPool) : EventLoopThreadPool :=
  mkPool (baseLoop_ p) (name_ p) (started_ p) n (next_ p) (loops_ p) (initialised p).

Section methods.
Variable startLoop : Z -> bytes -> addr.

(** A round of the loop of start: the thread runs the callback on its loop before
    startLoop returns. *)
Definition start_one (cb : bool) (p : EventLoopThreadPool) (i : nat) : EventLoopThreadPool :=
  let buf := snprintf 1024 (name_ p ++ sdec (Z.of_nat i)) in
  let loop := startLoop (Z.of_nat i) buf in
  mkPool (baseLoop_ p) (name_ p) (started_ p) (numThreads_ p) (next_ p) (loops_ p ++ [loop])
    (if cb then initialised p ++ [loop] else initialised p).

(** start(cb) *)
Definition start (cb : bool) (p : EventLoopThreadPool) : EventLoopThreadPool :=
  let p := mkPool (baseLoop_ p) (name_ p) true (numThreads_ p) (next_ p) (loops_ p)
             (initialised p) in
  let p := foldl (start_one cb) p (seq 0 (Z.to_nat (numThreads_ p))) in
  if (numThreads_ p =? 0) && cb
  then mkPool (baseLoop_ p) (name_ p) (started_ p) (numThreads_ p) (next_ p) (loops_ p)
         (initialised p ++ [baseLoop_ p])
  else p.
End methods.

(** v[i] *)
Definition at_index (l : list addr) (i : Z) : outcome addr :=
  if 0 <=? i
  then match l !! Z.to_nat i with Some x => Ok x | None => Fault FOutOfBounds end
  else Fault FOutOfBounds.

Definition set_next (n : Z) (p : EventLoopThreadPool) : EventLoopThreadPool :=
  mkPool (baseLoop_ p) (name_ p) (started_ p) (numThreads_ p) n (loops_ p) (initialised p).

Definition getNextLoop (p : EventLoopThreadPool) : outcome (addr * EventLoopThreadPool) :=
  match loops_ p with
  | [] => Ok (baseLoop_ p, p)
  | _ :: _ =>
      loop ← at_index (loops_ p) (next_ p);
      let p := set_next (next_ p + 1) p in
      let p := if zlen (loops_ p) <=? next_ p then set_next 0 p else p in
      Ok (loop, p)
  end.

Definition getLoopForHash (hashCode : Z) (p : EventLoopThreadPool) : outcome addr :=
  match loops_ p with
  | [] => Ok (baseLoop_ p)
  | _ :: _ => at_index (loops_ p) (hashCode mod zlen (loops_ p))
  end.

Definition getAllLoops (p : EventLoopThreadPool) : list addr :=
  match loops_ p with [] => [baseLoop_ p] | l => l end.

(** [n] calls of getNextLoop in a row. *)
Fixpoint next_loops (n : nat) (p : EventLoopThreadPool) : outcome (list addr * EventLoopThreadPool) :=
  match n with
  | O => Ok ([], p)
  | S n =>
      '(l, p) ← getNextLoop p;
      '(ls, p) ← next_loops n p;
      Ok (l :: ls, p)
  end.

(** ** The round robin *)

(** next_ is an index of the vector. *)
Definition pool_ok (p : EventLoopThreadPool) : Prop :=
  match loops_ p with [] => next_ p = 0 | l => 0 <= next_ p < zlen l end.

Lemma at_index_ok l i : 0 <= i < zlen l -> exists x, at_index l i = Ok x /\ l !! Z.to_nat i = Some x.
Proof.
  intros Hi. unfold at_index. rewrite (proj2 (Z.leb_le _ _)) by lia.
  destruct (l !! Z.to_nat i) as [x|] eqn:E; [by exists x|].
  apply lookup_ge_None in E. unfold zlen in Hi. lia.
Qed.

(** One call, on a pool with threads. *)
Lemma getNextLoop_ok p :
  pool_ok p -> loops_ p <> [] ->
  exists x, getNextLoop p = Ok (x, set_next ((next_ p + 1) mod zlen (loops_ p)) p)
    /\ loops_ p !! Z.to_nat (next_ p) = Some x.
Proof.
  intros Hp Hne. unfold getNextLoop, pool_ok in *. destruct (loops_ p) as [|y l] eqn:E; [done|].
  destruct (at_index_ok (y :: l) (next_ p) Hp) as (x & Hx & Hl).
  rewrite Hx. simpl. rewrite E. exists x. split; [|done]. do 2 f_equal.
  set (n := zlen (y :: l)) in *. destruct (Z.leb_spec n (next_ p + 1)).
  - replace (next_ p + 1) with n by lia. rewrite Z.mod_same by lia. done.
  - by rewrite Z.mod_small by lia.
Qed.

(** getNextLoop goes round the pool: the i-th of any number of consecutive
    calls returns the loop at position next_ + i modulo the number of loops; the
    index never leaves the vector, and without threads every call returns the
    base loop. *)
Theorem round_robin n p (Hp : pool_ok p) :
  exists ls p', next_loops n p = Ok (ls, p') /\ pool_ok p' /\ loops_ p' = loops_ p
    /\ length ls = n
    /\ forall i, (i < n)%nat ->
         ls !! i = match loops_ p with
                   | [] => Some (baseLoop_ p)
                   | l => l !! Z.to_nat ((next_ p + Z.of_nat i) mod zlen l)
                   end.
Proof.
  revert p Hp. induction n as [|n IH]; intros p Hp.
  { exists [], p. split_and!; try done. lia. }
  simpl. destruct (loops_ p) as [|y l] eqn:E.
  - unfold getNextLoop. rewrite E. simpl.
    destruct (IH p Hp) as (ls & p' & -> & Hp' & Hl & Hn & Hi). simpl.
    eexists (_ :: ls), p'. rewrite E in *. split_and!; try done; [simpl; lia|].
    intros [|i] Hlt; [done|]. simpl. apply Hi. lia.
  - destruct (getNextLoop_ok p Hp) as (x & -> & Hx); [by rewrite E|]. simpl.
    rewrite E in *. set (m := zlen (y :: l)) in *.
    assert (0 < m) by (subst m; rewrite zlen_cons; pose proof (zlen_nonneg l); lia).
    assert (0 <= next_ p < m) as Hnext by (unfold pool_ok in Hp; by rewrite E in Hp).
    set (p1 := set_next _ p). assert (loops_ p1 = y :: l) as E1 by done.
    destruct (IH p1) as (ls & p' & -> & Hp' & Hl & Hn & Hi).
    { unfold pool_ok. rewrite E1. simpl. apply Z.mod_pos_bound. lia. }
    simpl. exists (x :: ls), p'. rewrite E1 in *. split_and!; try done; [simpl; lia|].
    intros [|i] Hlt; simpl.
    + rewrite Z.add_0_r, Z.mod_small by lia. done.
    + rewrite Hi by lia. fold m. subst p1. simpl. f_equal. f_equal.
      rewrite Z.add_mod_idemp_l by lia. f_equal. lia.
Qed.

Definition demo_pool : EventLoopThreadPool :=
  start (fun i _ => 1000 + i) true
    (setThreadNum 3 (EventLoopThreadPool_ctor 1 (txt "io"))).

Lemma round_robin_witness :
  exists p', next_loops 5 demo_pool = Ok ([1000; 1001; 1002; 1000; 1001], p').
Proof.
  destruct (round_robin 5 demo_pool) as (ls & p' & H & _ & _ & Hn & Hi).
  { vm_compute. split; congruence. }
  exists p'. rewrite H. do 2 f_equal.
  destruct ls as [|a [|b [|c [|d [|e [|]]]]]]; try discriminate Hn.
  pose proof (Hi 0%nat ltac:(lia)) as H0. pose proof (Hi 1%nat ltac:(lia)) as H1.
  pose proof (Hi 2%nat ltac:(lia)) as H2. pose proof (Hi 3%nat ltac:(lia)) as H3.
  pose proof (Hi 4%nat ltac:(lia)) as H4. simpl in H0, H1, H2, H3, H4.
  vm_compute in H0, H1, H2, H3, H4. congruence.
Defined.
