(* ===== verification/TcpServer.v ===== *)
(** include/TcpServer.h and src/TcpServer.cc: the server's map of connections, their
    names, the loops they are given to, and the functors it sends to those loops.

    A connection object is known by its name, descriptor and loop ([TcpConnection]
    models the object itself; [TcpConnection.new_conn] is what newConnection makes
    of it).  [tasks] are the functors given to the loops with runInLoop and
    queueInLoop, in order.  The acceptor is in [Acceptor], the pool in
    [EventLoopThreadPool]. *)

From S2P Require Import Prelude Format Channel Sockets EventLoopThreadPool.

Record Conn := mkConn { c_name : bytes; c_fd : Z; c_loop : addr }.

#[export] Instance Conn_eq_dec : EqDecision Conn.
Proof. solve_decision. Defined.

Inductive task :=
| TListen                       (* Acceptor::listen *)
| TEstablished (c : Conn)       (* TcpConnection::connectEstablished *)
| TDestroyed (c : Conn).        (* TcpConnection::connectDestroyed *)

#[export] Instance task_eq_dec : EqDecision task.
Proof. solve_decision. Defined.

Record TcpServer := mkServer {
  loop_ : addr;
  ipPort_ : bytes;
  name_ : bytes;
  threadPool_ : EventLoopThreadPool;
  started_ : Z;
  nextConnId_ : Z;
  connections_ : gmap bytes Conn;
  tasks : list (addr * task);
}.

Definition set_pool p s := mkServer (loop_ s) (ipPort_ s) (name_ s) p (started_ s)
  (nextConnId_ s) (connections_ s) (tasks s).
Definition set_started n s := mkServer (loop_ s) (ipPort_ s) (name_ s) (threadPool_ s) n
  (nextConnId_ s) (connections_ s) (tasks s).
Definition set_next_id n s := mkServer (loop_ s) (ipPort_ s) (name_ s) (threadPool_ s)
  (started_ s) n (connections_ s) (tasks s).
Definition set_connections m s := mkServer (loop_ s) (ipPort_ s) (name_ s) (threadPool_ s)
  (started_ s) (nextConnId_ s) m (tasks s).
Definition send_task (l : addr) (t : task) s := mkServer (loop_ s) (ipPort_ s) (name_ s)
  (threadPool_ s) (started_ s) (nextConnId_ s) (connections_ s) (tasks s ++ [(l, t)]).

(** TcpServer::TcpServer.  started_ has no initialiser: [garbage] is what the
    memory held. *)
Definition TcpServer_ctor (loop : addr) (listenAddr : InetAddress) (nameArg : bytes)
    (garbage : Z) : TcpServer :=
  mkServer loop (InetAddress_toIpPort listenAddr) nameArg (EventLoopThreadPool_ctor loop nameArg)
    garbage 1 ∅ [].

Definition setThreadNum (n : Z) s : TcpServer :=
  set_pool (EventLoopThreadPool.setThreadNum n (threadPool_ s)) s.

(** start() *)
Definition start (startLoop : Z -> bytes -> addr) (threadInitCallback : bool) s : TcpServer :=
  let old := started_ s in
  let s := set_started 1 s in
  if old =? 0
  then
    let s := set_pool (EventLoopThreadPool.start startLoop threadInitCallback (threadPool_ s)) s in
    send_task (loop_ s) TListen s
  else s.

(** newConnection(sockfd, peerAddr), on the base loop. *)
Definition newConnection (sockfd : Z) s : outcome TcpServer :=
  '(ioLoop, pool) ← getNextLoop (threadPool_ s);
  let s := set_pool pool s in
  let buf := snprintf 64 (txt "-" ++ ipPort_ s ++ txt "#" ++ sdec (nextConnId_ s)) in
  require (inSb 32 (nextConnId_ s + 1)) FIntOverflow;;
  let s := set_next_id (nextConnId_ s + 1) s in
  let connName := name_ s ++ buf in
  let conn := mkConn connName sockfd ioLoop in
  let s := set_connections (<[connName := conn]> (connections_ s)) s in
  Ok (send_task ioLoop (TEstablished conn) s).

(** removeConnectionInLoop(conn) *)
Definition removeConnectionInLoop (conn : Conn) s : TcpServer :=
  let s := set_connections (delete (c_name conn) (connections_ s)) s in
  send_task (c_loop conn) (TDestroyed conn) s.

(** ~TcpServer(): every connection of the map is destroyed by its loop. *)
Definition TcpServer_dtor s : TcpServer :=
  foldl (fun s (item : bytes * Conn) => send_task (c_loop (item.2)) (TDestroyed (item.2)) s)
    (set_connections ∅ s) (map_to_list (connections_ s)).

(** ** Names *)

(** The name of the [k]-th connection. *)
Definition conn_name s (k : Z) : bytes :=
  name_ s ++ txt "-" ++ ipPort_ s ++ txt "#" ++ sdec k.

(** The address fits the 64-byte buffer with room for any number. *)
Definition addr_fits s : Prop := zlen (ipPort_ s) <= 51.

Lemma name_fits s k :
  addr_fits s -> 0 <= k < 2 ^ 31 ->
  snprintf 64 (txt "-" ++ ipPort_ s ++ txt "#" ++ sdec k)
  = txt "-" ++ ipPort_ s ++ txt "#" ++ sdec k.
Proof.
  intros Ha Hk. unfold snprintf. apply take_ge.
  assert (zlen (txt "-" ++ ipPort_ s ++ txt "#" ++ sdec k) <= 63) as H; [|unfold zlen in H; lia].
  rewrite !zlen_app. change (zlen (txt "-")) with 1. change (zlen (txt "#")) with 1.
  assert (zlen (sdec k) <= 10); [|unfold addr_fits in Ha; lia].
  unfold sdec. rewrite (proj2 (Z.ltb_ge k 0)) by lia. unfold zlen.
  pose proof (length_udec k 10 ltac:(lia) ltac:(lia)). lia.
Qed.

Lemma conn_name_inj s k k' : conn_name s k = conn_name s k' -> k = k'.
Proof.
  unfold conn_name. intros H. repeat apply app_inv_head in H. by apply sdec_inj.
Qed.

(** ** The map follows the connections *)

Definition established s (c : Conn) : Prop := (c_loop c, TEstablished c) ∈ tasks s.
Definition destroyed s (c : Conn) : Prop := (c_loop c, TDestroyed c) ∈ tasks s.

Record server_inv s : Prop := {
  s_fits : addr_fits s;
  s_pool : pool_ok (threadPool_ s);
  s_next : 1 <= nextConnId_ s;
  s_named c : established s c ->
    exists k, 1 <= k < nextConnId_ s /\ c_name c = conn_name s k;
  s_unique c c' : established s c -> established s c' -> c_name c = c_name c' -> c = c';
  s_destroyed c : destroyed s c -> established s c;
  s_map n c : connections_ s !! n = Some c <->
    n = c_name c /\ established s c /\ ~ destroyed s c;
}.

Lemma getNextLoop_keeps p : pool_ok p -> exists l p', getNextLoop p = Ok (l, p') /\ pool_ok p'.
Proof.
  intros Hp. destruct (loops_ p) as [|y l] eqn:E.
  - exists (baseLoop_ p), p. unfold getNextLoop. by rewrite E.
  - destruct (getNextLoop_ok p Hp) as (x & Hx & _); [by rewrite E|].
    eexists x, _. split; [done|]. unfold pool_ok. simpl. rewrite E.
    apply Z.mod_pos_bound. rewrite zlen_cons. pose proof (zlen_nonneg l). lia.
Qed.

Lemma established_app l t s c :
  established (send_task l t s) c <-> established s c \/ (l, t) = (c_loop c, TEstablished c).
Proof. unfold established. simpl. rewrite elem_of_app, list_elem_of_singleton. naive_solver. Qed.

Lemma destroyed_app l t s c :
  destroyed (send_task l t s) c <-> destroyed s c \/ (l, t) = (c_loop c, TDestroyed c).
Proof. unfold destroyed. simpl. rewrite elem_of_app, list_elem_of_singleton. naive_solver. Qed.

(** A new connection gets a name of its own, an entry of its own, and the next loop
    of the pool. *)
Lemma newConnection_exec fd s :
  server_inv s -> nextConnId_ s + 1 < 2 ^ 31 ->
  exists l p, getNextLoop (threadPool_ s) = Ok (l, p) /\ pool_ok p
    /\ let c := mkConn (conn_name s (nextConnId_ s)) fd l in
       connections_ s !! c_name c = None
       /\ newConnection fd s
          = Ok (send_task l (TEstablished c) (set_connections (<[c_name c := c]> (connections_ s))
                  (set_next_id (nextConnId_ s + 1) (set_pool p s)))).
Proof.
  intros I Hk. pose proof (s_next _ I).
  destruct (getNextLoop_keeps _ (s_pool _ I)) as (l & p & Hl & Hp).
  exists l, p. split; [done|]. split; [done|]. split.
  - destruct (connections_ s !! _) as [c|] eqn:E; [|done]. exfalso.
    apply (s_map _ I) in E as (Hn & He & _).
    destruct (s_named _ I _ He) as (k & Hk' & Hc). simpl in Hn. rewrite Hc in Hn.
    apply conn_name_inj in Hn. lia.
  - unfold newConnection. rewrite Hl. cbn -[snprintf txt app inSb].
    rewrite (proj2 (inSb_spec 32 _)) by (unfold inS; lia). cbn -[snprintf txt app inSb].
    rewrite (name_fits s) by (apply I || lia). done.
Qed.

Lemma newConnection_keeps fd s :
  server_inv s -> nextConnId_ s + 1 < 2 ^ 31 ->
  exists s', newConnection fd s = Ok s' /\ server_inv s'
    /\ nextConnId_ s' = nextConnId_ s + 1
    /\ size (connections_ s') = S (size (connections_ s)).
Proof.
  intros I Hk. destruct (newConnection_exec fd s I Hk) as (l & p & _ & Hp & Hnone & ->).
  set (c := mkConn _ _ _) in *. eexists. split; [done|].
  assert (forall c', established s c' -> c_name c' <> c_name c) as Hfresh.
  { intros c' (k & Hk' & Hc)%(s_named _ I) Heq. rewrite Hc in Heq.
    apply conn_name_inj in Heq. lia. }
  assert (~ destroyed s c) as Hnd by (intros Hd%(s_destroyed _ I); by apply (Hfresh c)).
  split; [|split; [done|by apply map_size_insert_None]].
  destruct I as [I1 I2 I3 I4 I5 I6 I7]. split; try done.
  - simpl. lia.
  - intros c'. rewrite established_app. intros [He|[= _ <-]].
    + destruct (I4 c' He) as (k & ? & ?). exists k. simpl. split; [lia|done].
    + exists (nextConnId_ s). simpl. split; [lia|done].
  - intros c1 c2. rewrite !established_app. intros [H1|[= _ <-]] [H2|[= _ <-]] Hn; auto.
    + by destruct (Hfresh c1 H1).
    + by destruct (Hfresh c2 H2).
  - intros c'. rewrite destroyed_app, established_app. intros [Hd|[=]]. left. by apply I6.
  - intros n c'. rewrite established_app, destroyed_app. simpl. split.
    + intros [[<- <-]|[Hne Hl]]%lookup_insert_Some.
      * split; [done|]. split; [by right|]. intros [?|[=]]. done.
      * apply I7 in Hl as (-> & He & Hd). split; [done|]. split; [by left|]. intros [?|[=]]. done.
    + intros (-> & [He|[= _ <-]] & Hd).
      * rewrite lookup_insert_ne by (intros Heq; by apply (Hfresh c' He)).
        apply I7. split_and!; try done. intros ?. apply Hd. by left.
      * apply lookup_insert_eq.
Qed.

Lemma removeConnection_keeps c s :
  server_inv s -> established s c ->
  server_inv (removeConnectionInLoop c s)
  /\ (~ destroyed s c ->
      size (connections_ (removeConnectionInLoop c s)) = pred (size (connections_ s))).
Proof.
  intros [I1 I2 I3 I4 I5 I6 I7] He. unfold removeConnectionInLoop. split.
  2: { intros Hd. simpl. apply map_size_delete_Some. exists c. by apply I7. }
  split; try done.
  - intros c'. rewrite established_app. intros [?|[=]]. by apply I4.
  - intros c1 c2. rewrite !established_app. intros [H1|[=]] [H2|[=]]. by apply I5.
  - intros c'. rewrite destroyed_app, established_app. intros [Hd|[= _ Heq]]; left;
      [by apply I6|by rewrite <- Heq].
  - intros n c'. rewrite established_app, destroyed_app. simpl.
    rewrite lookup_delete_Some, I7. split.
    + intros (Hne & -> & He' & Hd). split; [done|]. split; [by left|].
      intros [?|[= _ Heq]]; [done|by subst c'].
    + intros (-> & [He'|[=]] & Hd). split_and!; try done.
      * intros Heq. apply Hd. right. by rewrite (I5 c c' He He' Heq).
      * intros ?. apply Hd. by left.
Qed.

(** What the server is asked: a descriptor was accepted, or a connection reports its
    close. *)
Inductive server_op := OpNew (fd : Z) | OpRemove (c : Conn).

Definition exec_op s (o : server_op) : outcome TcpServer :=
  match o with
  | OpNew fd => newConnection fd s
  | OpRemove c => Ok (removeConnectionInLoop c s)
  end.

(** Only connections that were created report their close. *)
Fixpoint legal_ops s (ops : list server_op) : Prop :=
  match ops with
  | [] => True
  | o :: ops =>
      match o with OpNew _ => True | OpRemove c => established s c end
      /\ forall s', exec_op s o = Ok s' -> legal_ops s' ops
  end.

Lemma run_ops_ok ops s :
  server_inv s -> legal_ops s ops -> nextConnId_ s + zlen ops < 2 ^ 31 ->
  exists s', mfold exec_op s ops = Ok s' /\ server_inv s'.
Proof.
  revert s. induction ops as [|o ops IH]; intros s I Hl Hn; [by exists s|].
  rewrite zlen_cons in Hn. pose proof (zlen_nonneg ops). destruct Hl as [Ho Hl]. simpl.
  destruct o as [fd|c]; simpl in *.
  - destruct (newConnection_keeps fd s I) as (s1 & H1 & I1 & Hid & _); [lia|].
    rewrite H1. simpl. apply IH; [done|by apply Hl|lia].
  - destruct (removeConnection_keeps c s I Ho) as [I1 _].
    apply IH; [done|by apply Hl|simpl; lia].
Qed.

(** A server whose pool is started (with any number of threads). *)
Definition server_at (loop : addr) (listenAddr : InetAddress) (nameArg : bytes)
    (garbage n : Z) (startLoop : Z -> bytes -> addr) (cb : bool) : TcpServer :=
  start startLoop cb (setThreadNum n (TcpServer_ctor loop listenAddr nameArg garbage)).

Lemma start_next startLoop cb p : next_ (EventLoopThreadPool.start startLoop cb p) = next_ p.
Proof.
  unfold EventLoopThreadPool.start. set (p0 := mkPool _ _ _ _ _ _ _).
  assert (forall l q, next_ (foldl (start_one startLoop cb) q l) = next_ q) as H.
  { induction l as [|i l IH]; intros q; [done|]. simpl. by rewrite IH. }
  case_match; simpl; by rewrite H.
Qed.

Lemma server_at_inv loop listenAddr nameArg garbage n startLoop cb :
  0 <= sin_port listenAddr < 65536 ->
  server_inv (server_at loop listenAddr nameArg garbage n startLoop cb).
Proof.
  intros Hp. assert (pool_ok (threadPool_ (server_at loop listenAddr nameArg garbage n startLoop cb)))
    as Hpool.
  { assert (next_ (threadPool_ (server_at loop listenAddr nameArg garbage n startLoop cb)) = 0)
      as Hn by (unfold server_at, start; destruct (_ =? 0); simpl; by rewrite ?start_next).
    unfold pool_ok. rewrite Hn. destruct (loops_ _) as [|y l]; [done|].
    rewrite zlen_cons. pose proof (zlen_nonneg l). lia. }
  pose proof (toIpPort_length 64 listenAddr Hp) as Hlen.
  fold (InetAddress_toIpPort listenAddr) in Hlen.
  unfold server_at in *. unfold start in *.
  assert (forall c l, ((l, TEstablished c) ∉ [(loop, TListen)])
                      /\ ((l, TDestroyed c) ∉ [(loop, TListen)])) as Hno by set_solver.
  destruct (_ =? 0); split; unfold addr_fits, established, destroyed; simpl; try done; try lia;
    try set_solver; try (intros n0 c; rewrite lookup_empty; set_solver).
Qed.

(** The server's map, whatever connections come and go (in any order, up to
    2^31 - 2 of them): newConnection and removeConnection never fault, and a
    connection is in the map, under its own name, exactly from when its loop is
    told to establish it until its loop is told to destroy it.  Names are never
    reused, so no connection is dropped by another one taking its entry. *)
Theorem server_tracks_connections loop listenAddr nameArg garbage n startLoop cb ops
    (Hport : 0 <= sin_port listenAddr < 65536) (Hcount : zlen ops < 2 ^ 31 - 1)
    (Hlegal : legal_ops (server_at loop listenAddr nameArg garbage n startLoop cb) ops) :
  exists s, mfold exec_op (server_at loop listenAddr nameArg garbage n startLoop cb) ops = Ok s
    /\ (forall nm c, connections_ s !! nm = Some c <->
          nm = c_name c /\ established s c /\ ~ destroyed s c)
    /\ (forall c c', established s c -> established s c' -> c_name c = c_name c' -> c = c').
Proof.
  pose proof (server_at_inv loop listenAddr nameArg garbage n startLoop cb Hport) as I.
  destruct (run_ops_ok ops _ I Hlegal) as (s & Hs & I').
  - unfold server_at, start. destruct (_ =? 0); simpl; lia.
  - exists s. split; [done|]. split; [apply I'|apply I'].
Qed.

(** Two connections on two loops; the first one closes. *)
Definition demo_server : TcpServer :=
  server_at 1 (InetAddress_ctor 8080 false false) (txt "echo") 0 2 (fun i _ => 1000 + i) false.

Definition demo_conn1 : Conn := mkConn (txt "echo-0.0.0.0:8080#1") 7 1000.
Definition demo_conn2 : Conn := mkConn (txt "echo-0.0.0.0:8080#2") 8 1001.

Definition demo_ops : list server_op := [OpNew 7; OpNew 8; OpRemove demo_conn1].

Lemma demo_ops_legal : legal_ops demo_server demo_ops.
Proof.
  split; [done|]. intros s1 H1. simpl in H1.
  split; [done|]. intros s2 H2. split; [|done].
  destruct (exec_op demo_server (OpNew 7)) as [s1'|] eqn:E1; [|vm_compute in E1; discriminate].
  assert (s1 = s1') as -> by (simpl in E1; congruence).
  vm_compute in E1. injection E1 as <-.
  vm_compute in H2. injection H2 as <-.
  unfold established, demo_conn1. simpl. right. left.
Qed.

Lemma server_tracks_connections_witness :
  exists s, mfold exec_op demo_server demo_ops = Ok s
    /\ connections_ s !! c_name demo_conn2 = Some demo_conn2
    /\ connections_ s !! c_name demo_conn1 = None.
Proof.
  destruct (server_tracks_connections 1 (InetAddress_ctor 8080 false false) (txt "echo") 0 2
    (fun i _ => 1000 + i) false demo_ops) as (s & Hs & Hm & _).
  - vm_compute. split; congruence.
  - vm_compute. reflexivity.
  - exact demo_ops_legal.
  - assert (tasks <$> mfold exec_op demo_server demo_ops
      = Ok [(1, TListen); (1000, TEstablished demo_conn1); (1001, TEstablished demo_conn2);
            (1000, TDestroyed demo_conn1)]) as Ht by (vm_compute; reflexivity).
    fold demo_server in Hs. rewrite Hs in Ht. simpl in Ht. injection Ht as Ht.
    exists s. split; [exact Hs|]. split.
    + apply Hm. split; [reflexivity|]. unfold established, destroyed. rewrite Ht. simpl.
      split; [do 2 right; left|]. unfold demo_conn1, demo_conn2.
      intros Hin. repeat (apply elem_of_cons in Hin as [Hin|Hin]; [discriminate Hin|]).
      by apply elem_of_nil in Hin.
    + destruct (connections_ s !! c_name demo_conn1) as [c|] eqn:E; [|reflexivity].
      exfalso. apply Hm in E as (Hn & He & Hd). unfold established, destroyed in *.
      rewrite Ht in He, Hd. assert (c = demo_conn1) as ->; [|apply Hd; do 3 right; left].
      rewrite !elem_of_cons, elem_of_nil in He.
      destruct_or! He; try discriminate He; try done;
        injection He as _ ->; [reflexivity|discriminate Hn].
Defined.
