(* ===== verification/ServerLoops.v ===== *)
(** A TcpServer with everything that runs for it: its own loop, the loops of its
    threads, and the connections it has accepted.

    The parts are the ones the other files model: a [Reactor] with the kernel's
    registrations for each loop, the dispatch of [Channel], [TcpConnection] for each
    connection, and [TcpServer] for the map and the choice of loops.  Here each loop
    has one reactor, shared by its channels, and one queue of functors; loops and
    other threads interleave, one channel or one functor at a time.  A server without
    threads is the case of one loop.  This file has the model; [ServerInv] the
    invariant, [ServerSafe] that every step keeps it, [ServerRuns] the theorems. *)

From stdpp Require Import functions.
From S2P Require Import Prelude Buffer TimeStamp Channel Poller TcpConnection ConnEffects.
From S2P Require EventLoopThreadPool.
From S2P Require TcpServer.

(** ** The state *)

(** A connection between two of its operations: its environment is its loop's
    reactor, and what it queued is in its loop's queue. *)
Definition park {W} (c : TcpConnection W) : TcpConnection unit :=
  mkConn (state_ c) (reading_ c) (connectionCallback_ c) (messageCallback_ c)
    (writeCompleteCallback_ c) (closeCallback_ c) (inputBuffer_ c) (outputBuffer_ c) tt []
    (delayed c) (wire c) (shut c) (writes c) (accepted c) (notes c).
Definition unpark {W} (w : W) (c : TcpConnection unit) : TcpConnection W :=
  mkConn (state_ c) (reading_ c) (connectionCallback_ c) (messageCallback_ c)
    (writeCompleteCallback_ c) (closeCallback_ c) (inputBuffer_ c) (outputBuffer_ c) w []
    (delayed c) (wire c) (shut c) (writes c) (accepted c) (notes c).

(** A live TcpConnection: what the server knows of it, its channel, and itself. *)
Record Obj := mkObj {
  o_conn : TcpServer.Conn;
  o_chan : addr;
  o_tcp : TcpConnection unit;
}.

(** conn->getLoop() *)
Definition loop_of (o : Obj) : addr := TcpServer.c_loop (o_conn o).

(** What a loop's queue holds: a functor of the connection at [a], or
    TcpServer::removeConnectionInLoop for it. *)
Inductive item :=
| Run (a : addr) (f : Functor)
| Remove (a : addr).

#[export] Instance item_eq_dec : EqDecision item.
Proof. solve_decision. Defined.

Definition item_conn (it : item) : addr := match it with Run a _ | Remove a => a end.

(** Does the functor hold a reference to its connection (shared_from_this), or only
    the this pointer? *)
Definition holds (f : Functor) : bool :=
  match f with
  | FForceCloseInLoop | FWriteComplete _ | FConnectEstablished | FConnectDestroyed => true
  | FSendInLoop _ | FShutdownInLoop | FForceClose | FStartReadInLoop | FStopReadInLoop => false
  end.
(** Of those another thread posts, the functors that only have the this pointer; the timer
    of forceCloseWithDelay has a weak_ptr. *)
Definition this_only (f : Functor) : bool :=
  match f with FSendInLoop _ | FShutdownInLoop | FStopReadInLoop => true | _ => false end.

Definition item_holds (it : item) : bool :=
  match it with Run _ f => holds f | Remove _ => true end.

Record Loop (K : Type) := mkLoop {
  reactor : Reactor K;
  active : list addr;     (* activeChannels_ still to dispatch *)
  batch : list item;      (* what doPendingFunctors still has to run *)
  queue : list item;      (* pendingFunctors_ *)
}.
Arguments mkLoop {K}. Arguments reactor {K} _. Arguments active {K} _.
Arguments batch {K} _. Arguments queue {K} _.

(** The loops outlive the connections, so there is one at every address; which of
    them are used is the pool's business. *)
Record World (K : Type) := mkWorld {
  loops : addr -> Loop K;
  objs : gmap addr Obj;
  srv : TcpServer.TcpServer;
}.
Arguments mkWorld {K}. Arguments loops {K} _. Arguments objs {K} _. Arguments srv {K} _.

Section world.
Context {K : Type} `{EpollKernel K}.
(** write(2) on each connection's socket; the server's connection, message and
    write-complete callbacks, and what a user callback does. *)
Variable sys_write : addr -> nat -> bool -> bytes -> write_result.
Variables conn_cb msg_cb : UserCb.
Variable wc_cb : option UserCb.
Variable user : UserCb -> TcpConnection (Reactor K) -> list api.
Implicit Types (w : World K) (r : Reactor K) (L : Loop K) (l a : addr).

Definition base w : addr := TcpServer.loop_ (srv w).
Definition set_loop l L w := mkWorld (<[l := L]> (loops w)) (objs w) (srv w).
Definition set_reactor l r w :=
  let L := loops w l in set_loop l (mkLoop r (active L) (batch L) (queue L)) w.
Definition set_active l ps w :=
  let L := loops w l in set_loop l (mkLoop (reactor L) ps (batch L) (queue L)) w.
Definition set_batch l q w :=
  let L := loops w l in set_loop l (mkLoop (reactor L) (active L) q (queue L)) w.
Definition enqueue l q w :=
  let L := loops w l in set_loop l (mkLoop (reactor L) (active L) (batch L) (queue L ++ q)) w.
Definition set_objs m w := mkWorld (loops w) m (srv w).
Definition set_srv s w := mkWorld (loops w) (objs w) s.

(** EventLoop::runInLoop of the loop [l], called on the thread of [thread]. *)
Definition runInLoop (thread l : addr) (it : item) (now : World K -> outcome (World K)) w :
    outcome (World K) :=
  if thread =? l then now w else Ok (enqueue l [it] w).

(** The callbacks of a connection: 0 is TcpServer::removeConnection, which the
    world runs when handleClose has called it, as its last action. *)
Definition callbacks (cb : UserCb) (c : TcpConnection (Reactor K)) : list api :=
  match cb with O => [] | S cb => user cb c end.

(** TcpServer::removeConnectionInLoop(conn), on the server's loop: the map's entry
    goes, and the connection's loop gets connectDestroyed. *)
Definition removeConnectionInLoop a w : outcome (World K) :=
  match objs w !! a with
  | None => Fault FUseAfterFree
  | Some o =>
      let w := set_srv (TcpServer.removeConnectionInLoop (o_conn o) (srv w)) w in
      Ok (enqueue (loop_of o) [Run a FConnectDestroyed] w)
  end.

(** TcpServer::removeConnection(conn), the close callback, on the thread of the
    connection's loop. *)
Definition removeConnection a (o : Obj) w : outcome (World K) :=
  runInLoop (loop_of o) (base w) (Remove a) (removeConnectionInLoop a) w.

Definition told_closed {W} (c : TcpConnection W) : bool := bool_decide (NClose ∈ notes c).

(** The connection at [a] has run an operation and is now [c]: the reactor of its
    loop, the object and the loop's queue are updated, and the server hears of a
    close. *)
Definition settle a (o : Obj) (c : TcpConnection (Reactor K)) w : outcome (World K) :=
  let w := set_reactor (loop_of o) (env c) w in
  let w := set_objs (<[a := mkObj (o_conn o) (o_chan o) (park c)]> (objs w)) w in
  let w := enqueue (loop_of o) (map (Run a) (pending c)) w in
  if told_closed c && negb (told_closed (o_tcp o)) then removeConnection a o w else Ok w.

(** An operation of the connection at [a]. *)
Definition exec_obj a
    (m : addr -> TcpConnection (Reactor K) -> outcome (TcpConnection (Reactor K))) w :
    outcome (World K) :=
  match objs w !! a with
  | None => Fault FUseAfterFree
  | Some o =>
      c ← m (o_chan o) (unpark (reactor (loops w (loop_of o))) (o_tcp o));
      settle a o c w
  end.

Definition conn_event a (e : event) w : outcome (World K) :=
  exec_obj a (fun chan c => exec_event a chan (sys_write a) callbacks c e) w.

Definition conn_functor a (f : Functor) w : outcome (World K) :=
  exec_obj a (fun chan c => run_functor a chan (sys_write a) callbacks f c) w.

(** A functor a loop has taken from its queue. *)
Definition exec_item (it : item) w : outcome (World K) :=
  match it with
  | Run a f => conn_functor a f w
  | Remove a => removeConnectionInLoop a w
  end.

(** TcpServer::newConnection for a descriptor, on the thread of [thread], with the
    addresses of the objects it creates. *)
Definition newConnection (thread : addr) (sockfd : Z) (a chan : addr) w : outcome (World K) :=
  s ← TcpServer.newConnection sockfd (srv w);
  match last (TcpServer.tasks s) with
  | Some (ioLoop, TcpServer.TEstablished conn) =>
      let c := set_callbacks (Some (S conn_cb)) (Some (S msg_cb)) (S <$> wc_cb) (Some O)
                 (TcpConnection_ctor a chan sockfd [] (reactor (loops w ioLoop))) in
      let w := set_reactor ioLoop (env c) (set_srv s w) in
      let w := set_objs (<[a := mkObj conn chan (park c)]> (objs w)) w in
      runInLoop thread ioLoop (Run a FConnectEstablished) (conn_functor a FConnectEstablished) w
  | _ => Fault FAbort
  end.

(** What the kernel and the allocator answer while one channel is dispatched. *)
Record input := mkInput {
  in_read : readv_result;                    (* readv(2) *)
  in_accept : option (Z * addr * addr);      (* accept4(2), the two new objects *)
  in_due : list addr;                        (* forceCloseWithDelay timers that are due *)
}.

(** A timer of the loop [l]: forceCloseWithDelay put it there, with a weak reference
    to the connection. *)
Definition fire_timer l w a : outcome (World K) :=
  match objs w !! a with
  | Some o => if (loop_of o =? l) && negb (bool_decide (delayed (o_tcp o) = []))
              then conn_event a EvTimer w else Ok w
  | None => Ok w
  end.

Definition invoke l (i : input) (cb : Callback) w : outcome (World K) :=
  match cb with
  | CbConnRead a => conn_event a (EvRead (in_read i)) w
  | CbConnWrite a => conn_event a EvWrite w
  | CbConnClose a => exec_obj a (fun chan => handleClose chan (sys_write a) callbacks) w
  | CbConnError a => exec_obj a (fun _ => handleError) w
  | CbTimerRead _ => mfold (fire_timer l) w (in_due i)
  | CbWakeupRead _ => Ok w
  | CbAcceptorRead _ =>
      match in_accept i with
      | Some (sockfd, a, chan) => newConnection l sockfd a chan w
      | None => Ok w
      end
  end.

#[local] Instance loop_store l (i : input) : ChannelStore (World K) := {
  cs_get p w := chans (reactor (loops w l)) !! p;
  cs_put p c w := set_reactor l (put p c (reactor (loops w l))) w;
  cs_alive a w := bool_decide (is_Some (objs w !! a));
  cs_invoke cb t := invoke l i cb;
}.

(** The steps of the loops, and of the threads that use the connections. *)
Inductive step :=
| WPoll l (evs : list (Z * addr)) (now : TimeStamp)
| WDispatch l (i : input) (now : TimeStamp)   (* handleEvent of the next active channel *)
| WSwap l                                     (* doPendingFunctors takes the queue *)
| WRun l                                      (* and runs the next functor *)
| WCall a (in_loop : bool) (call : api)       (* a call, in or outside the connection's loop *)
| WStore a                                    (* or, outside it, its store of kDisconnecting *)
| WPost a (f : Functor)                       (* and what it gives to the loop then *)
| WRelease a.                                 (* the last reference to a connection goes *)

(** (The destructor also closes the socket, and the kernel forgets a closed
    descriptor; [ServerRuns.server_safe] shows that it has nothing to forget.) *)

Definition exec_step w (e : step) : outcome (World K) :=
  match e with
  | WPoll l evs now =>
      '(_, ps, r) ← Poll (EpollEvents evs) now [] (reactor (loops w l));
      Ok (set_active l ps (set_reactor l r w))
  | WDispatch l i now =>
      match active (loops w l) with
      | [] => Ok w
      | p :: ps => @handleEvent _ (loop_store l i) p now (set_active l ps w)
      end
  | WSwap l =>
      let L := loops w l in Ok (set_loop l (mkLoop (reactor L) (active L) (queue L) []) w)
  | WRun l =>
      match batch (loops w l) with
      | [] => Ok w
      | it :: q => exec_item it (set_batch l q w)
      end
  | WCall a in_loop call => conn_event a (EvCall in_loop call) w
  | WStore a => conn_event a EvStore w
  | WPost a f => conn_event a (EvPost f) w
  | WRelease a =>
      match objs w !! a with
      | Some o =>
          let r := destroy_channel (o_chan o) (reactor (loops w (loop_of o))) in
          Ok (set_objs (delete a (objs w)) (set_reactor (loop_of o) r w))
      | None => Fault FUseAfterFree
      end
  end.

(** ** When a step can happen *)

(** All functors of a loop that have not run. *)
Definition todo L : list item := batch L ++ queue L.

(** The kernel reports what is watched, errors and hang-ups. *)
Definition watched (evs : list (Z * addr)) r : Prop :=
  reported evs r /\ forall ev p, (ev, p) ∈ evs -> exists fd mask,
    Poller.interest (kernel r) fd = Some (mask, p)
    /\ Z.land ev (Z.lnot (Z.lor mask (Z.lor POLLERR POLLHUP))) = 0.

(** The new objects are at free addresses, and the descriptor is one that epoll can
    watch, and not open before, as far as the loop that newConnection picks can
    tell. *)
Definition fresh (sockfd : Z) (a chan : addr) w : Prop :=
  objs w !! a = None /\ watchable K sockfd = true
  /\ forall l p, EventLoopThreadPool.getNextLoop (TcpServer.threadPool_ (srv w)) = Ok (l, p) ->
       chans (reactor (loops w l)) !! chan = None
       /\ forall q c, chans (reactor (loops w l)) !! q = Some c -> fd_ c <> sockfd.

Definition legal_step w (e : step) : Prop :=
  match e with
  | WPoll l evs _ =>
      active (loops w l) = [] /\ batch (loops w l) = [] /\ watched evs (reactor (loops w l))
  | WDispatch l i _ =>
      batch (loops w l) = []
      /\ (forall a o, objs w !! a = Some o -> loop_of o = l ->
            head (active (loops w l)) = Some (o_chan o) ->
            readv_fits (inputBuffer_ (o_tcp o)) (in_read i))
      /\ (forall sockfd a chan, in_accept i = Some (sockfd, a, chan) -> fresh sockfd a chan w)
  | WSwap l => active (loops w l) = [] /\ batch (loops w l) = []
  | WRun l => active (loops w l) = []
  | WCall a in_loop call =>
      (* the caller got its reference from a callback of the connection; it keeps away
         from a closed connection's switches, and calls them from the loop only *)
      exists o, objs w !! a = Some o /\ state_ (o_tcp o) <> kConnecting
        /\ calm_api in_loop call
        /\ (state_ (o_tcp o) = kDisconnected -> late_api call)
  | WStore a =>
      (* the thread has found the connection open, and the loop has not closed it *)
      exists o, objs w !! a = Some o /\ is_open (state_ (o_tcp o)) = true
  | WPost a f =>
      (* the thread has found the connection open; a functor that knows it by its this
         pointer only is queued before the loop closes it *)
      exists o, objs w !! a = Some o /\ state_ (o_tcp o) <> kConnecting
        /\ postable f = true /\ calm f
        /\ (this_only f = true -> state_ (o_tcp o) <> kDisconnected)
  | WRelease a =>
      (* neither the server's map nor a functor, of the connection's loop or of the
         server's, holds the connection *)
      exists o, objs w !! a = Some o
        /\ (forall n, TcpServer.connections_ (srv w) !! n <> Some (o_conn o))
        /\ forall l it, l = loop_of o \/ l = base w -> it ∈ todo (loops w l) ->
             item_conn it = a -> item_holds it = false
  end.

Fixpoint legal_run w (es : list step) : Prop :=
  match es with
  | [] => True
  | e :: es => legal_step w e /\ forall w', exec_step w e = Ok w' -> legal_run w' es
  end.

(** The pass of doPendingFunctors that a loop makes next. *)
Definition pass l w : list step := WSwap l :: replicate (length (queue (loops w l))) (WRun l).
End world.
