(* ===== verification/ServerInv.v ===== *)
(** The invariant of a server on its loops ([ServerLoops]), and that an operation of
    a connection keeps it. *)

From stdpp Require Import functions.
From S2P Require Import Prelude Buffer Channel Poller TcpConnection ConnEffects ServerLoops.
From S2P Require TcpServer.

(** ** A connection disturbs nothing but its own channel

    Another instance of the interface [EventSourceLaws]: besides what the reactor's
    own instance promises, every operation on the channel at [p] leaves all other
    channels and descriptors of [r0] alone, and what binds the channel.  So each
    theorem of [TcpConnection] says it of every operation of a connection. *)

Definition binding (c : Channel) : Z * Z * option Callback * option Callback :=
  (fd_ c, revents_ c, readCallback_ c, writeCallback_ c).

Section framed.
Context {K : Type} `{EpollKernelLaws K}.
Implicit Types (r : Reactor K) (c : Channel).

Lemma only_changes_refl p fd r : only_changes p fd r r.
Proof. done. Qed.

Lemma only_changes_trans p fd r1 r2 r3 :
  only_changes p fd r1 r2 -> only_changes p fd r2 r3 -> only_changes p fd r1 r3.
Proof.
  intros [A1 B1] [A2 B2]. split; intros q Hq.
  - by rewrite A2, A1.
  - destruct (B1 q Hq) as [? ?], (B2 q Hq) as [? ?]. split; congruence.
Qed.

Variables (r0 : Reactor K) (c0 : Channel).

Definition framed p r : Prop :=
  reactor_ok r
  /\ (exists c, chans r !! p = Some c /\ may_update r p c /\ binding c = binding c0)
  /\ only_changes p (fd_ c0) r0 r.

Lemma binding_fd c c' : binding c = binding c' -> fd_ c = fd_ c'.
Proof. unfold binding. congruence. Qed.

#[program] Definition framed_laws : EventSourceLaws (Reactor K) := {| es_ok := framed |}.
Next Obligation. intros. apply lookup_insert_eq. Qed.
Next Obligation. intros p r (_ & (c & Hc & _) & _). by exists c. Qed.
Next Obligation.
  intros ch p r c (Hr & (c' & Hc' & Hmay & Hb) & Ho) Hc. simpl in *.
  rewrite Hc in Hc'. injection Hc' as <-.
  destruct (change_events_keeps (change_fn ch) p c r Hr Hc Hmay) as (r' & ? & ? & Hc' & Ho').
  rewrite (binding_fd _ _ Hb) in Ho'.
  exists r', (updated (change_fn ch (events_ c)) c). split_and!; try done.
  split; [done|]. split; [|by eapply only_changes_trans].
  eexists. split; [done|]. split; [by apply may_update_added, updated_not_new|].
  by rewrite <- Hb.
Qed.
Next Obligation.
  intros p r c (Hr & (c' & Hc' & Hmay & Hb) & Ho) Hc. simpl in *.
  rewrite Hc in Hc'. injection Hc' as <-.
  destruct (remove_keeps p c r Hr Hc Hmay) as (r' & ? & ? & Hc' & Ho' & _ & Hm).
  rewrite (binding_fd _ _ Hb) in Ho', Hm.
  exists r', (set_index kNew (with_addedToLoop false c)). split_and!; try done.
  split; [done|]. split; [|by eapply only_changes_trans].
  eexists. split; [done|]. split; [intros _; simpl; by rewrite (binding_fd _ _ Hb)|].
  by rewrite <- Hb.
Qed.
Next Obligation.
  intros p obj r c (Hr & (c' & Hc' & Hmay & Hb) & Ho) Hc. simpl in *.
  rewrite Hc in Hc'. injection Hc' as <-.
  split; [by eapply put_member_ok|]. split.
  - eexists. split; [apply lookup_insert_eq|]. done.
  - eapply only_changes_trans; [exact Ho|]. split; [|done].
    intros q Hq. simpl. by rewrite lookup_insert_ne.
Qed.
End framed.

(** The invariant of a connection says the same of every instance whose laws hold
    of its channel. *)
Lemma inv_laws {W} `{EventSource W} (L1 L2 : EventSourceLaws W) chan (c : TcpConnection W) :
  inv (H0 := L1) chan c -> es_ok (EventSourceLaws := L2) chan (env c) -> inv (H0 := L2) chan c.
Proof. intros [[] ?] Hok. by split. Qed.

(** ** The functors of one connection *)

Definition functor_of (a : addr) (it : item) : option Functor :=
  match it with Run b f => if decide (b = a) then Some f else None | Remove _ => None end.
Definition functors (a : addr) (q : list item) : list Functor := omap (functor_of a) q.

Lemma elem_of_functors a q f : f ∈ functors a q <-> Run a f ∈ q.
Proof.
  unfold functors. rewrite list_elem_of_omap. split.
  - intros ([b g|b] & Hin & Hf); simpl in Hf; [|done].
    case_decide; [|done]. by simplify_eq.
  - intros Hin. exists (Run a f). split; [done|]. simpl. by rewrite decide_True.
Qed.

Lemma functors_app a q q' : functors a (q ++ q') = functors a q ++ functors a q'.
Proof. apply omap_app. Qed.

Lemma functors_none a q : (forall f, Run a f ∉ q) -> functors a q = [].
Proof. intros Hq. apply elem_of_nil_inv. intros f. rewrite elem_of_functors. apply Hq. Qed.

Lemma functors_run a fs : functors a (map (Run a) fs) = fs.
Proof.
  unfold functors. induction fs as [|f fs IH]; [done|]. simpl.
  rewrite decide_True by done. by f_equal.
Qed.

(** The removals a queue holds. *)
Definition remove_of (it : item) : option addr :=
  match it with Remove a => Some a | Run _ _ => None end.
Definition removes (q : list item) : list addr := omap remove_of q.

Lemma elem_of_removes a q : a ∈ removes q <-> Remove a ∈ q.
Proof.
  unfold removes. rewrite list_elem_of_omap. split.
  - by intros ([b g|b] & Hin & [= ->]).
  - intros Hin. by exists (Remove a).
Qed.

Lemma removes_app q q' : removes (q ++ q') = removes q ++ removes q'.
Proof. apply omap_app. Qed.

Lemma removes_run a fs : removes (map (Run a) fs) = [].
Proof. unfold removes. induction fs; [done|]. done. Qed.

(** connectDestroyed is queued, and only functors that hold the connection come
    after it. *)
Definition leaves (fs : list Functor) : Prop :=
  exists fs1 fs2, fs = fs1 ++ FConnectDestroyed :: fs2 /\ forall f, f ∈ fs2 -> holds f = true.

Lemma leaves_app fs fs' :
  leaves fs -> (forall f, f ∈ fs' -> holds f = true) -> leaves (fs ++ fs').
Proof.
  intros (fs1 & fs2 & -> & H2) H'. exists fs1, (fs2 ++ fs'). rewrite <- app_assoc.
  split; [done|]. intros f. rewrite elem_of_app. intros [?|?]; auto.
Qed.

Lemma leaves_snoc fs : leaves (fs ++ [FConnectDestroyed]).
Proof. exists fs, []. split; [done|]. by intros f ?%elem_of_nil. Qed.

Lemma leaves_tail f fs :
  leaves (f :: fs) -> leaves fs \/ f = FConnectDestroyed /\ forall g, g ∈ fs -> holds g = true.
Proof.
  intros ([|g fs1] & fs2 & [= -> ->] & H2); [by right|]. left. by exists fs1, fs2.
Qed.

(** ** The invariant *)

Definition reads (c : Channel) : bool :=
  to_bool (Z.land (revents_ c) (Z.lor (Z.lor POLLIN POLLPRI) POLLRDHUP)).

(** The descriptors of the loops' own channels, a parameter: [True] where it does not
    matter which they are. *)
Class LoopFds := loop_fd : Z -> Prop.

(** The channel of the connection at [a]; and one that is no connection's, on the
    loop [l] of a server whose own loop is [b]: only that one accepts. *)
Definition own_channel (a : addr) (o : Obj) (c : Channel) : Prop :=
  fd_ c = TcpServer.c_fd (o_conn o)
  /\ readCallback_ c = Some (CbConnRead a) /\ writeCallback_ c = Some (CbConnWrite a).

Definition system_channel {own_fds : LoopFds} (b l : addr) (c : Channel) : Prop :=
  loop_fd (fd_ c) /\ writeCallback_ c = None
  /\ match readCallback_ c with
     | Some (CbConnRead _ | CbConnWrite _ | CbConnClose _ | CbConnError _) => False
     | Some (CbAcceptorRead _) => l = b
     | _ => True
     end.

Definition gone {K} (o : Obj) (r : Reactor K) : Prop :=
  exists c, chans r !! o_chan o = Some c /\ index_ c = kNew.

(** The connection between two operations: while it is connecting, its first functor
    is on its way. *)
Definition at_rest {K} (o : Obj) (r : Reactor K) : TcpConnection (Reactor K) :=
  let c := unpark r (o_tcp o) in
  if decide (state_ (o_tcp o) = kConnecting) then queueInLoop FConnectEstablished c else c.

(** Members of a channel that the invariants look at. *)
Definition same_channel (c c' : Channel) : Prop :=
  fd_ c' = fd_ c /\ events_ c' = events_ c /\ index_ c' = index_ c
  /\ readCallback_ c' = readCallback_ c /\ writeCallback_ c' = writeCallback_ c.

Lemma same_channel_refl (x : option Channel) : option_Forall2 same_channel x x.
Proof. destruct x; by constructor. Qed.

Section invariant.
Context {K : Type} `{EpollKernelLaws K} {own_fds : LoopFds}.
Implicit Types (w : World K) (r : Reactor K) (l a : addr) (o : Obj).

Abbreviation own_reactor w o := (reactor (loops w (loop_of o))).

(** What a connection's loop still has to run for it; and that the server has been
    told of its close, but has not taken it out of the map. *)
Definition own_functors w a o : list Functor := functors a (todo (loops w (loop_of o))).
Definition removing w a : Prop := Remove a ∈ todo (loops w (base w)).

Record obj_ok w a o : Prop := {
  oo_chan : exists c, chans (own_reactor w o) !! o_chan o = Some c /\ own_channel a o c;
  oo_told : state_ (o_tcp o) = kDisconnected -> NClose ∈ notes (o_tcp o);
  oo_est : TcpServer.established (srv w) (o_conn o);
  oo_map : NClose ∈ notes (o_tcp o) <-> TcpServer.destroyed (srv w) (o_conn o) \/ removing w a;
}.

Record conn_ok w a o : Prop := {
  co_inv : inv (o_chan o) (at_rest o (own_reactor w o));
  co_start : state_ (o_tcp o) = kConnecting -> delayed (o_tcp o) = [] /\
    gone o (own_reactor w o) /\ own_functors w a o = [FConnectEstablished];
  co_end : NClose ∈ notes (o_tcp o) ->
    removing w a \/ leaves (own_functors w a o)
    \/ gone o (own_reactor w o) /\ forall f, f ∈ own_functors w a o -> holds f = true;
}.

(** A channel that epoll reported and that has not been dispatched. *)
Definition active_ok l w (p : addr) : Prop :=
  exists c, chans (reactor (loops w l)) !! p = Some c
    /\ forall a o, objs w !! a = Some o -> loop_of o = l -> o_chan o = p ->
         state_ (o_tcp o) <> kConnecting
         /\ (reads c = true -> is_open (state_ (o_tcp o)) = true)
         /\ (NClose ∈ notes (o_tcp o) -> removing w a \/ leaves (own_functors w a o)).

(** What a loop may hold for a connection. *)
Definition item_ok w l (it : item) : Prop :=
  exists o, objs w !! item_conn it = Some o
    /\ match it with
       | Run _ f => loop_of o = l
           /\ (calm f \/ f = FConnectDestroyed /\ NClose ∈ notes (o_tcp o)
               \/ f = FConnectEstablished /\ state_ (o_tcp o) = kConnecting)
       | Remove _ => l = base w /\ loop_of o <> base w /\ NClose ∈ notes (o_tcp o)
           /\ ~ TcpServer.destroyed (srv w) (o_conn o)
       end.

(** The invariant, except that the connection [x] may be in the middle of one of its
    operations. *)
Record world_but (x : option addr) w : Prop := {
  wi_reactor l : reactor_ok (reactor (loops w l));
  wi_fds l p q c d : chans (reactor (loops w l)) !! p = Some c ->
    chans (reactor (loops w l)) !! q = Some d -> fd_ c = fd_ d -> p = q;
  wi_objs a o : objs w !! a = Some o -> obj_ok w a o;
  wi_inv a o : x <> Some a -> objs w !! a = Some o -> conn_ok w a o;
  wi_chans l p c : chans (reactor (loops w l)) !! p = Some c ->
    (exists a o, objs w !! a = Some o /\ loop_of o = l /\ o_chan o = p)
    \/ system_channel (base w) l c;
  wi_srv : TcpServer.server_inv (srv w);
  wi_conns c : TcpServer.established (srv w) c -> ~ TcpServer.destroyed (srv w) c ->
    exists a o, objs w !! a = Some o /\ o_conn o = c;
  wi_todo l it : it ∈ todo (loops w l) -> item_ok w l it;
  wi_removes : NoDup (removes (todo (loops w (base w))));
  wi_nodup l : NoDup (active (loops w l));
  wi_active l p : p ∈ active (loops w l) -> active_ok l w p;
}.

Definition world_inv := world_but None.

Lemma world_weaken x w : world_inv w -> world_but x w.
Proof. intros I. split; try apply I. intros a o _ Ho. by apply (wi_inv _ _ I a o). Qed.

(** *** Channels, connections and descriptors determine each other *)

Lemma one_owner x w a b o o' :
  world_but x w -> objs w !! a = Some o -> objs w !! b = Some o' ->
  loop_of o = loop_of o' -> o_chan o = o_chan o' -> a = b.
Proof.
  intros I Ha Hb Hl Hc.
  destruct (oo_chan _ _ _ (wi_objs _ _ I _ _ Ha)) as (c & Hp & _ & Hr & _).
  destruct (oo_chan _ _ _ (wi_objs _ _ I _ _ Hb)) as (c' & Hp' & _ & Hr' & _).
  rewrite Hl, Hc in Hp. congruence.
Qed.

Lemma one_conn x w a b o o' :
  world_but x w -> objs w !! a = Some o -> objs w !! b = Some o' -> o_conn o = o_conn o' -> a = b.
Proof.
  intros I Ha Hb Hc. assert (loop_of o = loop_of o') as Hl by (unfold loop_of; by rewrite Hc).
  destruct (oo_chan _ _ _ (wi_objs _ _ I _ _ Ha)) as (c & Hp & Hf & _).
  destruct (oo_chan _ _ _ (wi_objs _ _ I _ _ Hb)) as (c' & Hp' & Hf' & _).
  eapply one_owner; [done..|]. rewrite <- Hl in Hp'.
  eapply (wi_fds _ _ I (loop_of o)); [done..|congruence].
Qed.

Lemma may_update_distinct r p c :
  reactor_ok r -> (forall q d, chans r !! q = Some d -> fd_ d = fd_ c -> q = p) ->
  chans r !! p = Some c -> may_update r p c.
Proof.
  intros Hr Hf Hc Hn. destruct (channels_ r !! fd_ c) as [q|] eqn:E; [|done]. exfalso.
  destruct (ok_channels r Hr _ _ E) as (d & Hd & Hfd & Hi).
  assert (q = p) as -> by by eapply Hf. congruence.
Qed.

Lemma own_may_update x w a o c :
  world_but x w -> objs w !! a = Some o -> chans (own_reactor w o) !! o_chan o = Some c ->
  may_update (own_reactor w o) (o_chan o) c.
Proof.
  intros I Ho Hc. apply may_update_distinct; [apply I| |done].
  intros q d Hd Hf. by eapply (wi_fds _ _ I).
Qed.

(** A connection's invariant depends on the reactor through its channel only. *)
Lemma inv_move p r' c c' (t : TcpConnection (Reactor K)) :
  inv p t -> chans (env t) !! p = Some c -> chans r' !! p = Some c' ->
  events_ c' = events_ c -> reactor_ok r' -> may_update r' p c' -> inv p (set_env r' t).
Proof.
  intros [I L] Hc Hc' He Hr Hm.
  assert (interest p (set_env r' t) = interest p t) as Hi
    by (unfold interest; simpl; by rewrite Hc, Hc', He).
  split; [|by destruct L; split]. destruct I. split; unfold writing in *; rewrite ?Hi; try done.
  split; [done|]. by exists c'.
Qed.

Lemma at_rest_env o r r' : at_rest o r' = set_env r' (at_rest o r).
Proof. unfold at_rest. by case_decide. Qed.

Lemma env_at_rest o r : env (at_rest o r) = r.
Proof. unfold at_rest. by case_decide. Qed.

(** A connection that has reported its close is closed. *)
Lemma told_disconnected x w a o :
  world_but x w -> x <> Some a -> objs w !! a = Some o -> NClose ∈ notes (o_tcp o) ->
  state_ (o_tcp o) = kDisconnected.
Proof.
  intros I Hx Ho Hn. destruct (co_inv _ _ _ (wi_inv _ _ I _ _ Hx Ho)) as [_ L].
  pose proof (l_life _ L) as Hl. unfold reported_life in Hl.
  assert (state_ (at_rest o (own_reactor w o)) = state_ (o_tcp o)) as Hs
    by (unfold at_rest; by case_decide).
  assert (NClose ∈ life (at_rest o (own_reactor w o))) as Hin
    by (apply list_elem_of_filter; unfold at_rest; by case_decide).
  rewrite Hs in Hl. destruct (state_ (o_tcp o)) eqn:E; [done|..]; rewrite Hl in Hin; set_solver.
Qed.

(** *** What a step leaves as it was for one connection *)

Record keeps w w' a o : Prop := {
  kp_base : base w' = base w;
  kp_chan : option_Forall2 same_channel (chans (own_reactor w o) !! o_chan o)
              (chans (own_reactor w' o) !! o_chan o);
  kp_est : TcpServer.established (srv w) (o_conn o) ->
    TcpServer.established (srv w') (o_conn o);
  kp_des : TcpServer.destroyed (srv w') (o_conn o) <-> TcpServer.destroyed (srv w) (o_conn o);
  kp_removing : removing w' a <-> removing w a;
}.

Lemma keeps_chan w w' a o c : keeps w w' a o -> chans (own_reactor w o) !! o_chan o = Some c ->
  exists c', chans (own_reactor w' o) !! o_chan o = Some c' /\ same_channel c c'.
Proof. intros Hk Hc. pose proof (kp_chan _ _ _ _ Hk) as Hp. rewrite Hc in Hp. inversion Hp. eauto. Qed.

Lemma keeps_gone w w' a o : keeps w w' a o -> gone o (own_reactor w o) -> gone o (own_reactor w' o).
Proof.
  intros Hk (c & Hc & Hi). destruct (keeps_chan _ _ _ _ _ Hk Hc) as (c' & Hc' & _ & _ & E & _).
  exists c'. split; [done|]. congruence.
Qed.

Lemma obj_keeps w w' a o : keeps w w' a o -> obj_ok w a o -> obj_ok w' a o.
Proof.
  intros Hk [(c & Hc & E1 & E2 & E3) Ht He Hm].
  destruct (keeps_chan _ _ _ _ _ Hk Hc) as (c' & Hc' & F1 & _ & _ & F4 & F5).
  split; [|done|by apply Hk|].
  - exists c'. split; [done|]. unfold own_channel. split_and!; congruence.
  - rewrite Hm. destruct Hk as [_ _ _ -> ->]. done.
Qed.

Lemma conn_keeps w w' a o :
  keeps w w' a o -> own_functors w' a o = own_functors w a o -> reactor_ok (own_reactor w' o) ->
  (forall p q c d, chans (own_reactor w' o) !! p = Some c ->
     chans (own_reactor w' o) !! q = Some d -> fd_ c = fd_ d -> p = q) ->
  obj_ok w a o -> conn_ok w a o -> conn_ok w' a o.
Proof.
  intros Hk Hq Hr Hf [(c & Hc & _) _ _ _] [Hi Hs He].
  destruct (keeps_chan _ _ _ _ _ Hk Hc) as (c' & Hc' & _ & F2 & _). split.
  - rewrite (at_rest_env o (own_reactor w o)).
    eapply inv_move; [exact Hi|by rewrite env_at_rest|exact Hc'|done|done|].
    apply may_update_distinct; [done| |done]. intros q d Hd Hqf. by eapply Hf.
  - rewrite Hq. intros Hst. destruct (Hs Hst) as (? & ? & ?).
    split_and!; [done|by eapply keeps_gone|done].
  - rewrite Hq. intros Hn.
    destruct (He Hn) as [?|[?|[? ?]]]; [left; by apply Hk|by right; left|right; right].
    split; [by eapply keeps_gone|done].
Qed.

(** A channel waiting for its dispatch, whose connection is kept. *)
Lemma active_keeps l w w' p :
  active_ok l w p ->
  (forall c, chans (reactor (loops w l)) !! p = Some c ->
     exists c', chans (reactor (loops w' l)) !! p = Some c' /\ revents_ c' = revents_ c) ->
  (forall a o, objs w' !! a = Some o -> loop_of o = l -> o_chan o = p ->
     objs w !! a = Some o /\ keeps w w' a o /\ own_functors w' a o = own_functors w a o) ->
  active_ok l w' p.
Proof.
  intros (c & Hc & Hx) Hch Hob. destruct (Hch c Hc) as (c' & Hc' & E). exists c'.
  split; [done|]. intros a o Ho Hl Hp. destruct (Hob a o Ho Hl Hp) as (Ho' & Hk & Hq).
  destruct (Hx a o Ho' Hl Hp) as (H1 & H2 & H3). split; [done|]. split.
  - unfold reads in *. by rewrite E.
  - intros Hn. rewrite Hq. destruct (H3 Hn); [left|by right]. by apply Hk.
Qed.

(** An item whose connection is kept. *)
Lemma item_keeps w w' l it o :
  item_ok w l it -> objs w !! item_conn it = Some o -> objs w' !! item_conn it = Some o ->
  keeps w w' (item_conn it) o -> item_ok w' l it.
Proof.
  intros (o' & Ho' & Hx) Ho Hw' [Kb _ _ Kd _]. exists o. split; [done|].
  rewrite Ho in Ho'. injection Ho' as <-. destruct it; [done|].
  destruct Hx as (? & ? & ? & ?). rewrite Kb, Kd. done.
Qed.
End invariant.
