(* ===== verification/ServerOps.v ===== *)
(** An operation of a connection keeps the invariant of the server ([ServerInv]),
    and stays on its loop. *)

From stdpp Require Import functions.
From S2P Require Import Prelude Buffer Channel Poller TcpConnection ConnEffects ServerLoops.
From S2P Require Import ServerInv.
From S2P Require TcpServer.

(** ** Lookups *)

Section lookups.
Context {K : Type}.
Implicit Types (w : World K) (L : Loop K) (l : addr).

Lemma loops_set_loop l L w l' :
  loops (set_loop l L w) l' = if decide (l' = l) then L else loops w l'.
Proof.
  unfold set_loop. simpl. case_decide as Hl; [subst|]; [apply fn_lookup_insert|].
  by rewrite fn_lookup_insert_ne.
Qed.

Lemma loops_set_reactor l r w l' : loops (set_reactor l r w) l'
  = mkLoop (if decide (l' = l) then r else reactor (loops w l')) (active (loops w l'))
      (batch (loops w l')) (queue (loops w l')).
Proof.
  unfold set_reactor. rewrite loops_set_loop. case_decide; subst; [done|]. by destruct (loops w l').
Qed.

Lemma loops_set_active l ps w l' : loops (set_active l ps w) l'
  = mkLoop (reactor (loops w l')) (if decide (l' = l) then ps else active (loops w l'))
      (batch (loops w l')) (queue (loops w l')).
Proof.
  unfold set_active. rewrite loops_set_loop. case_decide; subst; [done|]. by destruct (loops w l').
Qed.

Lemma loops_set_batch l q w l' : loops (set_batch l q w) l'
  = mkLoop (reactor (loops w l')) (active (loops w l'))
      (if decide (l' = l) then q else batch (loops w l')) (queue (loops w l')).
Proof.
  unfold set_batch. rewrite loops_set_loop. case_decide; subst; [done|]. by destruct (loops w l').
Qed.

Lemma loops_enqueue l q w l' : loops (enqueue l q w) l'
  = mkLoop (reactor (loops w l')) (active (loops w l')) (batch (loops w l'))
      (queue (loops w l') ++ if decide (l' = l) then q else []).
Proof.
  unfold enqueue. rewrite loops_set_loop. case_decide; subst; [done|].
  rewrite app_nil_r. by destruct (loops w l').
Qed.

Lemma loops_set_objs m w : loops (set_objs m w) = loops w. Proof. done. Qed.
Lemma loops_set_srv s w : loops (set_srv s w) = loops w. Proof. done. Qed.
End lookups.

Create Rewrite HintDb loops.
#[export] Hint Rewrite @loops_set_reactor @loops_set_active @loops_set_batch @loops_enqueue
  @loops_set_objs @loops_set_srv : loops.

Section operations.
Context {K : Type} `{EpollKernelLaws K} {own_fds : LoopFds}.
Implicit Types (w : World K) (r : Reactor K) (l a : addr) (o : Obj).

Abbreviation own_reactor w o := (reactor (loops w (loop_of o))).

Lemma park_inv p r (c : TcpConnection (Reactor K)) :
  inv p c -> env c = r -> state_ c <> kConnecting -> inv p (unpark r (park c)).
Proof.
  intros [I L] <- Hs. split; [by destruct I; split|]. destruct L. split; try done.
  unfold established_once. simpl. destruct (state_ c); set_solver.
Qed.

(** A connection that has been established stays so. *)
Lemma not_connecting (c c' : TcpConnection (Reactor K)) :
  pending c = [] -> quiet c c' -> life_inv c' -> state_ c' <> kConnecting.
Proof.
  intros Hp [(l & Hl & Hcalm) _ _] L Hs. pose proof (l_est _ L) as He.
  unfold established_once in He. rewrite Hs in He. destruct He as (_ & k & Hk & _).
  rewrite Hl, Hp in Hk. simpl in Hk. subst l. by apply Forall_cons in Hcalm as [[] _].
Qed.

Section settle.
Variables (w : World K) (a : addr) (o : Obj) (ch : Channel) (c' : TcpConnection (Reactor K)).
Abbreviation l0 := (loop_of o).
Abbreviation c := (unpark (own_reactor w o) (o_tcp o)).
Context (I : world_but (Some a) w) (Ho : objs w !! a = Some o).
Context (Hch : chans (own_reactor w o) !! o_chan o = Some ch).
Context (Hinv : inv (H0 := framed_laws (own_reactor w o) ch) (o_chan o) c').
Context (Hquiet : quiet c c').
Context (Hstart : FConnectEstablished ∉ own_functors w a o).
Context (Hdead : NClose ∈ notes (o_tcp o) -> forall f, f ∈ pending c' -> holds f = true).
Context (Hend : NClose ∈ notes (o_tcp o) ->
  removing w a \/ leaves (own_functors w a o)
  \/ gone o (env c') /\ forall f, f ∈ own_functors w a o -> holds f = true).
Context (Hopen : o_chan o ∈ active (loops w l0) -> reads ch = true ->
  is_open (state_ (o_tcp o)) = true -> is_open (state_ c') = true).

Abbreviation o' := (mkObj (o_conn o) (o_chan o) (park c')).
Abbreviation newly := (told_closed c' && negb (told_closed (o_tcp o))).

(** What the server's loop is sent when the connection has closed. *)
Definition farewell : item :=
  if decide (l0 = base w) then Run a FConnectDestroyed else Remove a.
Definition sent l : list item :=
  (if decide (l = l0) then map (Run a) (pending c') else [])
  ++ (if decide (newly = true /\ l = base w) then [farewell] else []).

Record settled w' : Prop := {
  sd_reactor l : reactor (loops w' l) = if decide (l = l0) then env c' else reactor (loops w l);
  sd_active l : active (loops w' l) = active (loops w l);
  sd_batch l : batch (loops w' l) = batch (loops w l);
  sd_queue l : queue (loops w' l) = queue (loops w l) ++ sent l;
  sd_objs : objs w' = <[a := o']> (objs w);
  sd_srv : srv w' = if decide (newly = true /\ l0 = base w)
                    then TcpServer.removeConnectionInLoop (o_conn o) (srv w) else srv w;
}.

Lemma settle_result : exists w', settle a o c' w = Ok w' /\ settled w'.
Proof using Type.
  unfold settle, removeConnection, runInLoop, removeConnectionInLoop.
  set (w1 := set_objs _ _). set (w2 := enqueue _ _ w1).
  change (base w2) with (base w). change (objs w2) with (<[a := o']> (objs w)).
  rewrite lookup_insert_eq. destruct newly eqn:En; [destruct (Z.eqb_spec l0 (base w)) as [Heq|Hne]|].
  all: eexists; split; [reflexivity|]; subst w2 w1; split; try done; intros;
    change (loop_of o') with l0; autorewrite with loops; unfold sent, farewell; simpl;
    rewrite ?En, <- ?app_assoc; clear I Hch Hinv Hquiet Hstart Hdead Hend Hopen;
    repeat case_decide; rewrite ?app_nil_r; try done; try tauto; exfalso; intuition congruence.
Qed.

Lemma sent_in l it : it ∈ sent l <->
  (l = l0 /\ exists f, it = Run a f /\ f ∈ pending c') \/ (newly = true /\ l = base w /\ it = farewell).
Proof using Type.
  unfold sent. rewrite elem_of_app. f_equiv.
  - case_decide; [|split; [by intros ?%elem_of_nil|by intros [? _]]].
    rewrite list_elem_of_fmap. naive_solver.
  - case_decide as Hx; [|split; [by intros ?%elem_of_nil|tauto]].
    rewrite list_elem_of_singleton. tauto.
Qed.

Lemma sent_conn l it : it ∈ sent l -> item_conn it = a.
Proof using Type.
  rewrite sent_in. unfold farewell.
  intros [(_ & f & -> & _)|(_ & _ & ->)]; [done|by case_decide].
Qed.

Context (w' : World K) (S : settled w').

Lemma settled_todo l : todo (loops w' l) = todo (loops w l) ++ sent l.
Proof using S. unfold todo. by rewrite (sd_batch _ S), (sd_queue _ S), app_assoc. Qed.

Lemma settled_base : base w' = base w.
Proof using S. unfold base. rewrite (sd_srv _ S). by case_decide. Qed.

(** The channel of the connection, and the others. *)
Lemma settled_own : exists ch', chans (env c') !! o_chan o = Some ch'
  /\ binding ch' = binding ch /\ may_update (env c') (o_chan o) ch' /\ reactor_ok (env c').
Proof using Hinv.
  destruct Hinv as [[(Hr & (ch' & Hc' & Hm & Hb) & _) _ _ _ _ _ _] _]. by exists ch'.
Qed.

Lemma settled_other q : q <> o_chan o -> chans (env c') !! q = chans (own_reactor w o) !! q.
Proof using Hinv. destruct Hinv as [[(_ & _ & [Hq _]) _ _ _ _ _ _] _]. apply Hq. Qed.

Lemma settled_chans l q d' : chans (reactor (loops w' l)) !! q = Some d' ->
  exists d, chans (reactor (loops w l)) !! q = Some d /\ binding d' = binding d.
Proof using Hch Hinv S.
  rewrite (sd_reactor _ S). case_decide as Hl; [|by exists d']. subst l. intros Hd'.
  destruct (decide (q = o_chan o)) as [->|Hne].
  - destruct settled_own as (ch' & Hc' & Hb & _). exists ch. split; [done|]. congruence.
  - rewrite settled_other in Hd' by done. by exists d'.
Qed.

Lemma settled_fds l p q d e : chans (reactor (loops w' l)) !! p = Some d ->
  chans (reactor (loops w' l)) !! q = Some e -> fd_ d = fd_ e -> p = q.
Proof using I Hch Hinv S.
  intros (d0 & Hd & Bd%binding_fd)%settled_chans (e0 & He & Be%binding_fd)%settled_chans Hde.
  eapply (wi_fds _ _ I); [done..|]. congruence.
Qed.

Lemma settled_reactor l : reactor_ok (reactor (loops w' l)).
Proof using I Hinv S.
  rewrite (sd_reactor _ S). case_decide; [|apply I]. by destruct settled_own as (_ & _ & _ & _ & ?).
Qed.

Lemma newly_spec : newly = true <-> NClose ∈ notes c' /\ NClose ∉ notes (o_tcp o).
Proof using Type.
  unfold told_closed. by rewrite andb_true_iff, negb_true_iff, bool_decide_eq_true,
    bool_decide_eq_false.
Qed.

Lemma notes_grow n : n ∈ notes (o_tcp o) -> n ∈ notes c'.
Proof using Hquiet.
  destruct (q_notes _ _ Hquiet) as (k & ->). simpl. rewrite elem_of_app. by left.
Qed.

Lemma pending_calm f : f ∈ pending c' -> calm f.
Proof using Hquiet.
  destruct (q_pending _ _ Hquiet) as (k & -> & Hk). simpl. rewrite Forall_forall in Hk. apply Hk.
Qed.

Lemma settled_srv : TcpServer.server_inv (srv w')
  /\ (forall x, TcpServer.established (srv w') x <-> TcpServer.established (srv w) x)
  /\ (forall x, TcpServer.destroyed (srv w') x <->
        TcpServer.destroyed (srv w) x \/ (newly = true /\ l0 = base w) /\ x = o_conn o).
Proof using I Ho S.
  rewrite (sd_srv _ S). case_decide as Hn.
  - pose proof (oo_est _ _ _ (wi_objs _ _ I _ _ Ho)) as He. split.
    { by apply TcpServer.removeConnection_keeps; [apply I|]. }
    unfold TcpServer.removeConnectionInLoop. split; intros x.
    + rewrite TcpServer.established_app. simpl. naive_solver.
    + rewrite TcpServer.destroyed_app. simpl. naive_solver.
  - split; [apply I|]. split; [done|]. intros x. tauto.
Qed.

Lemma settled_removing b : removing w' b <->
  removing w b \/ newly = true /\ l0 <> base w /\ b = a.
Proof using S.
  unfold removing. rewrite settled_base, settled_todo, elem_of_app, sent_in. unfold farewell.
  case_decide as Hl; split; intros [Hx|Hx]; try (by left); try (right; naive_solver);
    naive_solver.
Qed.

Lemma sent_functors b l : b <> a -> functors b (sent l) = [].
Proof using Type. intros Hb. apply functors_none. intros f Hf%sent_conn. done. Qed.

(** Every other connection is kept. *)
Lemma settled_keeps b ob : b <> a -> objs w !! b = Some ob -> keeps w w' b ob.
Proof using I Ho Hch Hinv S.
  intros Hb Hob. destruct settled_srv as (_ & Hest & Hdes). split.
  - apply settled_base.
  - rewrite (sd_reactor _ S). case_decide as Hl; [|apply same_channel_refl].
    rewrite settled_other; [rewrite Hl; apply same_channel_refl|].
    intros Hc. apply Hb. by eapply one_owner.
  - apply Hest.
  - rewrite Hdes. split; [|by left]. intros [?|[_ Heq]]; [done|]. destruct Hb. by eapply one_conn.
  - rewrite settled_removing. naive_solver.
Qed.

Lemma settled_keeps_functors b ob : b <> a -> own_functors w' b ob = own_functors w b ob.
Proof using S.
  intros Hb. unfold own_functors. rewrite settled_todo, functors_app, sent_functors by done.
  apply app_nil_r.
Qed.

Lemma settled_objs b ob : objs w' !! b = Some ob ->
  (b = a /\ ob = o') \/ (b <> a /\ objs w !! b = Some ob).
Proof using S.
  rewrite (sd_objs _ S). intros [[<- <-]|[? ?]]%lookup_insert_Some; [by left|by right].
Qed.

Lemma settled_self : objs w' !! a = Some o'.
Proof using S. rewrite (sd_objs _ S). apply lookup_insert_eq. Qed.

Lemma settled_functors : own_functors w' a o' = own_functors w a o ++ pending c'
  ++ (if decide (newly = true /\ l0 = base w) then [FConnectDestroyed] else []).
Proof using S.
  unfold own_functors. change (loop_of o') with l0. rewrite settled_todo, functors_app. f_equal.
  unfold sent, farewell. rewrite decide_True, functors_app by done.
  f_equal.
  - apply functors_run.
  - case_decide as Hn; [|done]. destruct Hn as [_ Hn]. rewrite decide_True by done.
    unfold functors. simpl. by rewrite decide_True.
Qed.

Lemma settled_obj : obj_ok w' a o'.
Proof.
  destruct settled_own as (ch' & Hc' & Hb & Hm & Hr'). destruct settled_srv as (_ & Hest & Hdes).
  pose proof (wi_objs _ _ I _ _ Ho) as Ow. destruct (oo_chan _ _ _ Ow) as (d & Hd & E1 & E2 & E3).
  rewrite Hch in Hd. injection Hd as <-. unfold binding in Hb. simplify_eq.
  split; simpl.
  - exists ch'. change (loop_of o') with l0. rewrite (sd_reactor _ S), decide_True by done.
    split; [done|]. unfold own_channel. simpl. by split_and!; congruence.
  - intros Hd. destruct (decide (state_ (o_tcp o) = kDisconnected)) as [Hk|Hk].
    + by apply notes_grow, (oo_told _ _ _ Ow).
    + by apply (q_closed _ _ Hquiet).
  - apply Hest, (oo_est _ _ _ Ow).
  - rewrite Hdes, settled_removing, newly_spec. pose proof (oo_map _ _ _ Ow) as Hmap.
    pose proof (notes_grow NClose). destruct (decide (NClose ∈ notes (o_tcp o))).
    + tauto.
    + destruct (decide (l0 = base w)); tauto.
Qed.

Lemma settled_conn : conn_ok w' a o'.
Proof.
  destruct settled_own as (ch' & Hc' & Hb & Hm & Hr').
  assert (state_ c' <> kConnecting) as Hs
    by (eapply not_connecting; [|done|apply Hinv]; done).
  assert (reactor (loops w' (loop_of o')) = env c') as Hr
    by by rewrite (sd_reactor _ S), decide_True.
  split; simpl; [| |].
  - unfold at_rest. simpl. rewrite decide_False by done. apply park_inv; [|done..].
    apply (inv_laws _ reactor_source_laws _ _ Hinv). split; [done|]. by exists ch'.
  - by intros ?%Hs.
  - intros Hn. rewrite settled_functors, settled_removing.
    destruct (decide (NClose ∈ notes (o_tcp o))) as [Ho'|Ho'].
    + assert (newly <> true) as Hnew by (rewrite newly_spec; tauto).
      rewrite (decide_False (P := newly = true /\ _)), app_nil_r by tauto.
      destruct (Hend Ho') as [?|[?|[Hg Hf]]]; [by left; left|right; left|right; right].
      * apply leaves_app; auto.
      * rewrite Hr. split; [done|]. intros f. rewrite elem_of_app. intros [?|?]; auto.
    + assert (newly = true) as Hnew by by apply newly_spec.
      destruct (decide (l0 = base w)) as [Hl|Hl]; [|left; right; done].
      right; left. rewrite decide_True, app_assoc by done. apply leaves_snoc.
Qed.

Lemma settled_active l p : p ∈ active (loops w' l) -> active_ok l w' p.
Proof.
  rewrite (sd_active _ S). intros Hp. pose proof (wi_active _ _ I _ _ Hp) as Hok.
  destruct (decide (l = l0 /\ p = o_chan o)) as [[-> ->]|Hne].
  - destruct settled_own as (ch' & Hc' & Hb & _). exists ch'.
    rewrite (sd_reactor _ S), decide_True by done. split; [done|].
    destruct Hok as (d & Hd & Hact). rewrite Hch in Hd. injection Hd as <-.
    destruct (Hact a o Ho eq_refl eq_refl) as (H1 & H2 & H3).
    intros b ob [[-> ->]|[Hne Hob]]%settled_objs Hl Hc; [|by destruct Hne; eapply one_owner].
    simpl. split; [eapply not_connecting; [|done|apply Hinv]; done|]. split.
    + assert (reads ch' = reads ch) as -> by (unfold reads; unfold binding in Hb; congruence).
      intros Hrd. apply Hopen; auto.
    + intros Hn. destruct (co_end _ _ _ settled_conn Hn) as [?|[?|[Hg Hf]]]; [by left|by right|].
      rewrite settled_functors in Hf |- *. rewrite settled_removing.
      destruct (decide (NClose ∈ notes (o_tcp o))) as [Ho'|Ho'].
      * destruct (H3 Ho') as [?|?]; [by left; left|right]. apply leaves_app; [done|].
        intros f Hin. apply Hf. rewrite elem_of_app. by right.
      * assert (newly = true) as Hnew by by apply newly_spec.
        destruct (decide (l0 = base w)) as [Hl'|Hl']; [|left; right; done].
        right. rewrite decide_True, app_assoc by done. apply leaves_snoc.
  - eapply active_keeps; [exact Hok| |].
    + intros d Hd. rewrite (sd_reactor _ S). case_decide as Hl; [|by exists d].
      subst l. exists d. rewrite settled_other by (intros ->; by destruct Hne). done.
    + intros b ob [[-> ->]|[Hb Hob]]%settled_objs Hl Hc.
      * destruct Hne. by split.
      * split; [done|]. split; [by apply settled_keeps|by apply settled_keeps_functors].
Qed.

Lemma settled_item l it : it ∈ todo (loops w' l) -> item_ok w' l it.
Proof.
  rewrite settled_todo, elem_of_app. intros [Hin|Hin].
  - pose proof (wi_todo _ _ I _ _ Hin) as Hok.
    destruct (decide (item_conn it = a)) as [Ha|Ha].
    + destruct Hok as (ob & Hob & Hx). rewrite Ha, Ho in Hob. injection Hob as <-.
      exists o'. rewrite Ha, settled_self. split; [done|].
      destruct settled_srv as (_ & _ & Hdes). destruct it as [b f|b]; simpl in *; subst b.
      * destruct Hx as [<- Hx]. split; [done|]. destruct Hx as [?|[[? ?]|[-> Hk]]].
        { by left. }
        { right; left. split; [done|]. by apply notes_grow. }
        { destruct Hstart. by apply elem_of_functors. }
      * destruct Hx as (-> & Hl & Hn & Hd). rewrite settled_base, Hdes.
        split_and!; [done|done|by apply notes_grow|]. tauto.
    + destruct Hok as (ob & Hob & Hx). eapply item_keeps; [by exists ob|done| |].
      * rewrite (sd_objs _ S). by rewrite lookup_insert_ne.
      * by apply settled_keeps.
  - exists o'. rewrite (sent_conn _ _ Hin), settled_self. split; [done|].
    apply sent_in in Hin as [(-> & f & -> & Hf)|(Hn & -> & ->)].
    + split; [done|]. left. by apply pending_calm.
    + apply newly_spec in Hn as Hnn. destruct Hnn as [H1 H2]. unfold farewell.
      rewrite settled_base. case_decide as Hl; simpl.
      * split; [done|]. right; left. done.
      * split_and!; [done..|]. destruct settled_srv as (_ & _ & ->).
        pose proof (oo_map _ _ _ (wi_objs _ _ I _ _ Ho)). tauto.
Qed.

Lemma settled_removes : NoDup (removes (todo (loops w' (base w')))).
Proof.
  rewrite settled_base, settled_todo, removes_app. apply NoDup_app. split; [apply I|].
  assert (forall b, b ∈ removes (sent (base w)) -> b = a /\ newly = true) as Hs.
  { intros b. rewrite elem_of_removes, sent_in. unfold farewell. case_decide; naive_solver. }
  split.
  - intros b Hb [-> Hn]%Hs. apply newly_spec in Hn as [_ Hn]. apply Hn.
    apply elem_of_removes in Hb. destruct (wi_todo _ _ I _ _ Hb) as (ob & Hob & _ & _ & Ht & _).
    simpl in Hob. by simplify_eq.
  - unfold sent, farewell. rewrite removes_app. case_decide as Hl; simpl.
    + rewrite removes_run. case_decide; [|constructor]. rewrite decide_True by done. constructor.
    + case_decide; [|constructor]. rewrite decide_False by done. apply NoDup_singleton.
Qed.

Lemma settled_ok : world_inv w'.
Proof.
  destruct settled_srv as (Hsrv & Hest & Hdes). split.
  - apply settled_reactor.
  - apply settled_fds.
  - intros b ob [[-> ->]|[Hb Hob]]%settled_objs; [apply settled_obj|].
    eapply obj_keeps; [by apply settled_keeps|]. by apply (wi_objs _ _ I).
  - intros b ob _ [[-> ->]|[Hb Hob]]%settled_objs; [apply settled_conn|].
    eapply conn_keeps; [by apply settled_keeps|by apply settled_keeps_functors|apply settled_reactor|apply settled_fds| |].
    + by apply (wi_objs _ _ I).
    + apply (wi_inv _ _ I); [congruence|done].
  - intros l p d (d0 & Hd0 & Hb)%settled_chans. rewrite settled_base.
    destruct (wi_chans _ _ I _ _ _ Hd0) as [(b & ob & Hb' & Hl & Hc)|(S0 & S1 & S2)].
    + left. destruct (decide (b = a)) as [->|Hne].
      * exists a, o'. rewrite settled_self. split; [done|]. by simplify_eq.
      * exists b, ob. rewrite (sd_objs _ S). by rewrite lookup_insert_ne.
    + right. unfold system_channel. rewrite (binding_fd _ _ Hb).
      unfold binding in Hb. split; [done|]. split; [congruence|].
      assert (readCallback_ d = readCallback_ d0) as -> by congruence. done.
  - done.
  - intros x Hx Hnd. rewrite Hest in Hx. rewrite Hdes in Hnd.
    destruct (wi_conns _ _ I x) as (b & ob & Hb & Hc); [done|naive_solver|].
    destruct (decide (b = a)) as [->|Hne].
    + exists a, o'. rewrite settled_self. split; [done|]. simpl. congruence.
    + exists b, ob. rewrite (sd_objs _ S). by rewrite lookup_insert_ne.
  - apply settled_item.
  - apply settled_removes.
  - intros l. rewrite (sd_active _ S). apply I.
  - apply settled_active.
Qed.

(** A connection that had closed before sends nothing, if it queues nothing. *)
Lemma sent_closed l : NClose ∈ notes (o_tcp o) -> pending c' = [] -> sent l = [].
Proof using Type.
  intros Hn Hp. assert (newly <> true) as Hnew by by intros [_ ?]%newly_spec.
  unfold sent. rewrite Hp.
  case_decide; (rewrite decide_False; [done|by intros [? _]]).
Qed.
End settle.

(** *** What the thread of a loop leaves in place *)

(** To the loop of another thread, functors are sent and channels added. *)
Record spared (L L' : Loop K) : Prop := {
  sp_active : active L' = active L;
  sp_batch : batch L' = batch L;
  sp_queue : exists q, queue L' = queue L ++ q;
  sp_chans p c : chans (reactor L) !! p = Some c -> chans (reactor L') !! p = Some c;
  sp_poller : channels_ (reactor L') = channels_ (reactor L)
    /\ eventListSize (reactor L') = eventListSize (reactor L)
    /\ kernel (reactor L') = kernel (reactor L);
}.

(** Only the thread of the loop [l] has been at work. *)
Record confined l w w' : Prop := {
  cf_base : base w' = base w;
  cf_loops l' : l' <> l -> spared (loops w l') (loops w' l');
  cf_srv : l <> base w -> srv w' = srv w;
  cf_objs a o : objs w !! a = Some o -> loop_of o <> l -> objs w' !! a = Some o;
}.

(** Besides, nothing is destroyed, and every channel keeps what binds it. *)
Record extends l w w' : Prop := {
  ex_chans p c : chans (reactor (loops w l)) !! p = Some c ->
    exists c', chans (reactor (loops w' l)) !! p = Some c' /\ binding c' = binding c;
  ex_objs a o : objs w !! a = Some o ->
    exists o', objs w' !! a = Some o' /\ o_conn o' = o_conn o /\ o_chan o' = o_chan o
      /\ (state_ (o_tcp o) <> kConnecting -> state_ (o_tcp o') <> kConnecting);
  ex_active : active (loops w' l) = active (loops w l);
  ex_confined : confined l w w';
}.

(** What is closed stays closed, and is sent nothing but connectDestroyed, by the
    removal that is on its way; nobody is sent connectEstablished. *)
Record keeps_closed w w' : Prop := {
  kc_base : base w' = base w;
  kc_batch l it : it ∈ batch (loops w' l) -> it ∈ batch (loops w l);
  kc_objs a o : objs w !! a = Some o -> NClose ∈ notes (o_tcp o) ->
    exists o', objs w' !! a = Some o' /\ o_conn o' = o_conn o /\ NClose ∈ notes (o_tcp o')
      /\ forall l it, it ∈ queue (loops w' l) -> item_conn it = a ->
           it ∈ queue (loops w l) \/ it <> Remove a /\ removing w a;
  kc_start l a : Run a FConnectEstablished ∈ queue (loops w' l) ->
    Run a FConnectEstablished ∈ queue (loops w l);
}.

Definition grown l w w' : Prop := world_inv w' /\ extends l w w'.
Definition stepped l w w' : Prop :=
  grown l w w' /\ keeps_closed w w' /\ forall l', batch (loops w' l') = batch (loops w l').

Lemma spared_refl L : spared L L.
Proof. split; try done. exists []. by rewrite app_nil_r. Qed.

Lemma spared_trans L1 L2 L3 : spared L1 L2 -> spared L2 L3 -> spared L1 L3.
Proof.
  intros [A1 B1 (q1 & Q1) C1 (P1 & P2 & P3)] [A2 B2 (q2 & Q2) C2 (R1 & R2 & R3)].
  split; [congruence..| |by auto|split_and!; congruence].
  exists (q1 ++ q2). by rewrite Q2, Q1, app_assoc.
Qed.

Lemma confined_trans l w1 w2 w3 : confined l w1 w2 -> confined l w2 w3 -> confined l w1 w3.
Proof.
  intros [A1 B1 C1 D1] [A2 B2 C2 D2]. split; [congruence| | |by auto].
  - intros l' Hl. eapply spared_trans; auto.
  - intros Hl. rewrite C2, C1; congruence.
Qed.

Lemma extends_refl l w : extends l w w.
Proof.
  split; [| |done|].
  - intros p c Hc. by exists c.
  - intros a o Ho. by exists o.
  - split; try done. intros. apply spared_refl.
Qed.

Lemma extends_trans l w1 w2 w3 : extends l w1 w2 -> extends l w2 w3 -> extends l w1 w3.
Proof.
  intros [C1 O1 A1 F1] [C2 O2 A2 F2]. split.
  - intros p c (c1 & H1 & B1)%C1. destruct (C2 _ _ H1) as (c2 & H2 & B2).
    exists c2. split; [done|]. congruence.
  - intros a o (o1 & H1 & E1 & E1' & S1)%O1. destruct (O2 _ _ H1) as (o2 & H2 & E2 & E2' & S2).
    exists o2. split_and!; [congruence..|auto].
  - congruence.
  - by eapply confined_trans.
Qed.

Lemma grown_refl l w : world_inv w -> grown l w w.
Proof. intros I. split; [done|apply extends_refl]. Qed.

Lemma grown_trans (E : fault -> Prop) l w w1 m :
  extends l w w1 -> wp E (grown l w1) m -> wp E (grown l w) m.
Proof.
  intros He Hm. eapply wp_mono; [exact Hm|]. intros w2 [? ?]. split; [done|].
  by eapply extends_trans.
Qed.

Lemma keeps_closed_trans w1 w2 w3 :
  keeps_closed w1 w2 -> keeps_closed w2 w3 -> keeps_closed w1 w3.
Proof.
  intros [B12 T12 H12 S12] [B23 T23 H23 S23]. split; [congruence|by auto| |by auto].
  intros a o Ho Hn. destruct (H12 a o Ho Hn) as (o2 & H2 & E2 & N2 & Q2).
  destruct (H23 a o2 H2 N2) as (o3 & H3 & E3 & N3 & Q3).
  exists o3. split_and!; [done|congruence|done|]. intros l it Hin Hit.
  destruct (Q3 l it Hin Hit) as [Hq|[Hne Hr]]; [by apply Q2|right; split; [done|]].
  unfold removing, todo in Hr. rewrite B12, elem_of_app in Hr. unfold removing, todo.
  rewrite elem_of_app. destruct Hr as [Hr|Hr]; [left; by apply T12|].
  destruct (Q2 _ _ Hr eq_refl) as [?|[? _]]; [by right|done].
Qed.

Lemma framed_own x w a o ch :
  world_but x w -> objs w !! a = Some o -> chans (own_reactor w o) !! o_chan o = Some ch ->
  framed (own_reactor w o) ch (o_chan o) (own_reactor w o).
Proof.
  intros I Ho Hch. split; [apply I|]. split; [|done]. exists ch. split; [done|].
  split; [|done]. by eapply own_may_update.
Qed.

Lemma settled_extends w a o ch c' w' :
  objs w !! a = Some o -> chans (own_reactor w o) !! o_chan o = Some ch ->
  inv (H0 := framed_laws (own_reactor w o) ch) (o_chan o) c' ->
  quiet (unpark (own_reactor w o) (o_tcp o)) c' ->
  settled w a o c' w' -> extends (loop_of o) w w'.
Proof.
  intros Ho Hch Hinv Hq S. split; [| |apply S|split].
  - intros p c Hc. rewrite (sd_reactor _ _ _ _ _ S), decide_True by done.
    destruct (decide (p = o_chan o)) as [->|Hne].
    + destruct (settled_own w o ch c' Hinv) as (ch' & Hc' & Hb & _). exists ch'.
      split; [done|]. congruence.
    + exists c. split; [|done]. by rewrite (settled_other w o ch c' Hinv).
  - intros b ob Hb. rewrite (sd_objs _ _ _ _ _ S). destruct (decide (b = a)) as [->|Hne].
    + rewrite lookup_insert_eq. eexists. split; [done|]. simpl. split_and!; [congruence..|]. intros _.
      eapply not_connecting; [|done|apply Hinv]; done.
    + exists ob. by rewrite lookup_insert_ne.
  - by eapply settled_base.
  - intros l' Hl. assert (reactor (loops w' l') = reactor (loops w l')) as Hr
      by by rewrite (sd_reactor _ _ _ _ _ S), decide_False.
    split; rewrite ?Hr; try done; [apply S..|]. eexists. apply S.
  - intros Hl. rewrite (sd_srv _ _ _ _ _ S), decide_False by tauto. done.
  - intros b ob Hb Hl. rewrite (sd_objs _ _ _ _ _ S), lookup_insert_ne; [done|].
    intros <-. apply Hl. congruence.
Qed.

Lemma settled_keeps_closed w a o c' w' :
  objs w !! a = Some o ->
  quiet (unpark (own_reactor w o) (o_tcp o)) c' ->
  (NClose ∈ notes (o_tcp o) -> pending c' = []) ->
  settled w a o c' w' -> keeps_closed w w'.
Proof.
  intros Ho Hq Hdead S. split.
  - by eapply settled_base.
  - intros l it. by rewrite (sd_batch _ _ _ _ _ S).
  - intros b ob Hb Hn. rewrite (sd_objs _ _ _ _ _ S). destruct (decide (b = a)) as [->|Hne].
    + rewrite lookup_insert_eq. rewrite Ho in Hb. injection Hb as <-. eexists. split; [done|].
      simpl. split; [done|]. split; [by eapply notes_grow|]. intros l it.
      rewrite (sd_queue _ _ _ _ _ S), (sent_closed w a o c') by auto.
      rewrite app_nil_r. by left.
    + exists ob. rewrite lookup_insert_ne by done. split_and!; [done..|]. intros l it.
      rewrite (sd_queue _ _ _ _ _ S), elem_of_app. intros [?|Hs%sent_conn]; [by left|].
      intros <-. by destruct Hne.
  - intros l b. rewrite (sd_queue _ _ _ _ _ S), elem_of_app. intros [?|Hs]; [done|].
    apply sent_in in Hs as [(_ & f & [= -> <-] & Hf)|(_ & _ & Hf)].
    + by destruct (pending_calm w o c' Hq _ Hf).
    + unfold farewell in Hf. by case_decide.
Qed.

(** An operation of a connection, from any state it may be run in; of a closed one it
    may queue functors that hold the connection. *)
Lemma exec_obj_grown w a o m :
  let c := unpark (own_reactor w o) (o_tcp o) in
  world_but (Some a) w -> objs w !! a = Some o ->
  FConnectEstablished ∉ own_functors w a o ->
  (forall ch, framed (own_reactor w o) ch (o_chan o) (own_reactor w o) ->
     wp overflow (inv (H0 := framed_laws (own_reactor w o) ch) (o_chan o)) (m (o_chan o) c)) ->
  stays_quiet c (m (o_chan o) c) ->
  (NClose ∈ notes (o_tcp o) -> wp any_fault (fun c' => (forall f, f ∈ pending c' -> holds f = true)
     /\ (removing w a \/ leaves (own_functors w a o)
         \/ gone o (env c') /\ forall f, f ∈ own_functors w a o -> holds f = true))
     (m (o_chan o) c)) ->
  (o_chan o ∈ active (loops w (loop_of o)) -> is_open (state_ (o_tcp o)) = true ->
     wp any_fault (fun c' => is_open (state_ c') = true) (m (o_chan o) c)) ->
  wp overflow (fun w' => grown (loop_of o) w w'
      /\ exists c', m (o_chan o) c = Ok c' /\ quiet c c' /\ settled w a o c' w')
    (exec_obj a m w).
Proof.
  intros c I Ho Hstart Hsafe Hquiet Hdead Hopen. unfold exec_obj. rewrite Ho. fold c.
  destruct (oo_chan _ _ _ (wi_objs _ _ I _ _ Ho)) as (ch & Hch & _).
  specialize (Hsafe ch (framed_own _ _ _ _ _ I Ho Hch)).
  destruct (m (o_chan o) c) as [c'|f]; [|exact Hsafe]. simpl in *.
  destruct (settle_result w a o c') as (w' & -> & S). simpl.
  split; [split|by exists c'].
  - apply (settled_ok w a o ch c'); try done.
    + intros Hn. by apply Hdead.
    + intros Hn. by apply Hdead.
    + intros Ha _. by apply Hopen.
  - by apply (settled_extends w a o ch c').
Qed.

Lemma exec_obj_ok w a o m :
  let c := unpark (own_reactor w o) (o_tcp o) in
  world_but (Some a) w -> objs w !! a = Some o ->
  FConnectEstablished ∉ own_functors w a o ->
  (forall ch, framed (own_reactor w o) ch (o_chan o) (own_reactor w o) ->
     wp overflow (inv (H0 := framed_laws (own_reactor w o) ch) (o_chan o)) (m (o_chan o) c)) ->
  stays_quiet c (m (o_chan o) c) ->
  (NClose ∈ notes (o_tcp o) -> wp any_fault (fun c' => pending c' = []
     /\ (removing w a \/ leaves (own_functors w a o)
         \/ gone o (env c') /\ forall f, f ∈ own_functors w a o -> holds f = true))
     (m (o_chan o) c)) ->
  (o_chan o ∈ active (loops w (loop_of o)) -> is_open (state_ (o_tcp o)) = true ->
     wp any_fault (fun c' => is_open (state_ c') = true) (m (o_chan o) c)) ->
  wp overflow (stepped (loop_of o) w) (exec_obj a m w).
Proof.
  intros c I Ho Hstart Hsafe Hquiet Hdead Hopen.
  eapply wp_mono; [apply (exec_obj_grown w a o m); try done|].
  - intros Hn. eapply wp_mono; [by apply Hdead|]. intros c' [-> ?]. split; [|done].
    by intros f ?%elem_of_nil.
  - intros w' (Hg & c' & Hm & Hq & S). split; [done|]. split; [|intros l'; apply S].
    eapply settled_keeps_closed; [done..| |exact S]. intros Hn. specialize (Hdead Hn).
    fold c in Hm. rewrite Hm in Hdead. apply Hdead.
Qed.
End operations.
