(* ===== verification/ServerSafe.v ===== *)
(** The loops of [ServerLoops], step by step: every step keeps the invariant, and
    changes what belongs to other loops in no other way than by sending them
    functors. *)

From stdpp Require Import functions.
From S2P Require Import Prelude Buffer TimeStamp Channel Poller TcpConnection ConnEffects.
From S2P Require Import ServerLoops ServerInv ServerOps.
From S2P Require EventLoopThreadPool.
From S2P Require TcpServer.

#[local] Existing Instance TcpServer.Conn_eq_dec.

(** What the users' callbacks may do: connectDestroyed is the server's, and on a
    closed connection reading is not switched. *)
Definition well_behaved {W} (user : UserCb -> TcpConnection W -> list api) : Prop :=
  forall cb c, (AQueueDestroyed ∉ user cb c)
    /\ (state_ c = kDisconnected ->
        (AStartRead ∉ user cb c) /\ (AStopRead ∉ user cb c)).

(** The callbacks a server starts with are. *)
Lemma default_callbacks_ok {W} :
  well_behaved (fun cb (_ : TcpConnection W) =>
    match cb with O => defaultConnectionCallback | _ => defaultMessageCallback end).
Proof. intros [|cb] c; set_solver. Qed.

(** The faults no server avoids: a buffer that outgrows the memory, and 2^31
    connections. *)
Definition world_fault (f : fault) : Prop := f = FOutOfBounds \/ f = FIntOverflow.

Section steps.
Context {K : Type} `{EpollKernelLaws K} {own_fds : LoopFds}.
Context (sys_write : addr -> nat -> bool -> bytes -> write_result).
Context (conn_cb msg_cb : UserCb) (wc_cb : option UserCb).
Context (user : UserCb -> TcpConnection (Reactor K) -> list api).
Context (Hwrite : forall a, write_ok (sys_write a)) (Huser : well_behaved user).
Implicit Types (w : World K) (r : Reactor K) (l a : addr) (o : Obj).

Abbreviation cbs := (callbacks user).
Abbreviation own_reactor w o := (reactor (loops w (loop_of o))).

Lemma cbs_quiet cb c : AQueueDestroyed ∉ cbs cb c.
Proof. destruct cb as [|cb]; [set_solver|]. apply Huser. Qed.

Lemma cbs_ok : user_ok cbs.
Proof. intros [|cb] c Hs; [set_solver|]. by apply Huser. Qed.

Lemma cbs_late cb c : state_ c = kDisconnected -> Forall late_api (cbs cb c).
Proof.
  intros Hs. destruct cb as [|cb]; [done|]. destruct (Huser cb c) as [H1 H2].
  destruct (H2 Hs) as [H3 H4]. apply Forall_forall. intros a Ha.
  split_and!; intros ->; done.
Qed.

(** ** Operations of an established connection *)

Lemma at_rest_inv w a o :
  conn_ok w a o -> state_ (o_tcp o) <> kConnecting ->
  inv (o_chan o) (unpark (own_reactor w o) (o_tcp o)).
Proof. intros [Hi _ _] Hs. unfold at_rest in Hi. by rewrite decide_False in Hi. Qed.

Lemma no_establish x w a o :
  world_but x w -> objs w !! a = Some o -> state_ (o_tcp o) <> kConnecting ->
  FConnectEstablished ∉ own_functors w a o.
Proof.
  intros I Ho Hs Hin%elem_of_functors. destruct (wi_todo _ _ I _ _ Hin) as (o' & Ho' & _ & Hx).
  simpl in Ho'. rewrite Ho in Ho'. injection Ho' as <-.
  destruct Hx as [[]|[[? _]|[_ ?]]]; done.
Qed.

Lemma exec_obj_safe w a o m :
  let c := unpark (own_reactor w o) (o_tcp o) in
  world_inv w -> objs w !! a = Some o -> state_ (o_tcp o) <> kConnecting ->
  (forall ch, inv (H0 := framed_laws (own_reactor w o) ch) (o_chan o) c ->
     wp overflow (inv (H0 := framed_laws (own_reactor w o) ch) (o_chan o)) (m (o_chan o) c)) ->
  stays_quiet c (m (o_chan o) c) ->
  (NClose ∈ notes (o_tcp o) -> stays_dead c (m (o_chan o) c)) ->
  (o_chan o ∈ active (loops w (loop_of o)) -> is_open (state_ (o_tcp o)) = true ->
     wp any_fault (fun c' => is_open (state_ c') = true) (m (o_chan o) c)) ->
  wp overflow (stepped (loop_of o) w) (exec_obj a m w).
Proof.
  intros c I Ho Hs Hsafe Hquiet Hdead Hopen.
  pose proof (wi_inv _ _ I _ _ ltac:(done) Ho) as Hc.
  apply exec_obj_ok; try done.
  - by apply world_weaken.
  - by apply (no_establish None).
  - intros ch Hfr. apply Hsafe. by apply (inv_laws reactor_source_laws _ _ _ (at_rest_inv _ _ _ Hc Hs)).
  - intros Hn. eapply wp_mono; [by apply Hdead|]. intros c' [He Hp _]. split; [done|].
    rewrite He. by apply (co_end _ _ _ Hc).
Qed.

(** The events of a live connection. *)
Lemma conn_event_safe w a o e :
  world_inv w -> objs w !! a = Some o -> state_ (o_tcp o) <> kConnecting ->
  match e with
  | EvRead r => (o_chan o ∉ active (loops w (loop_of o))) /\ is_open (state_ (o_tcp o)) = true
                /\ readv_fits (inputBuffer_ (o_tcp o)) r
  | EvWrite => o_chan o ∉ active (loops w (loop_of o))
  | EvFunctor => False
  | EvTimer => True
  | EvCall in_loop call => calm_api in_loop call
      /\ (state_ (o_tcp o) = kDisconnected -> late_api call)
  | EvStore => is_open (state_ (o_tcp o)) = true
  | EvPost _ => False
  end -> wp overflow (grown (loop_of o) w) (conn_event sys_write user a e w).
Proof.
  intros I Ho Hst He. pose proof (told_disconnected None _ _ _ I ltac:(done) Ho) as Htold.
  pose proof (at_rest_inv _ _ _ (wi_inv _ _ I _ _ ltac:(done) Ho) Hst) as [Is Il].
  eapply wp_mono; [apply (exec_obj_safe w a o); [done..| | | |]|by intros w' [? _]].
  - intros ch Hinv. eapply (exec_event_safe (H0 := framed_laws _ ch)); [done|apply cbs_ok|done|].
    destruct e as [r| | | |in_loop call| |f]; simpl; try done.
    + by destruct He as (_ & ? & ?).
    + destruct He as [[_ Hc] Hl]. split; [by intros ?%Hst|].
      intros -> _ Hs. by destruct (Hl Hs).
  - destruct e as [r| | | |in_loop call| |f]; simpl; try done.
    + apply handleRead_quiet, cbs_quiet.
    + apply handleWrite_quiet.
    + destruct (delayed (o_tcp o)) as [|f l] eqn:E; [by apply quiet_same|].
      assert (f = FForceClose) as -> by (apply (l_delayed _ Il); simpl; rewrite E; by left).
      set (c := unpark _ _). apply (quiet_trans _ (set_delayed l c)); [by apply quiet_same|].
      apply forceClose_quiet.
    + by apply exec_api_quiet, He.
    + by apply (quiet_open kDisconnecting).
  - intros Hn. specialize (Htold Hn). destruct e as [r| | | |in_loop call| |f]; simpl; try done.
    + destruct He as (_ & Hop & _). by rewrite Htold in Hop.
    + destruct (channel_ok (o_chan o) _ (v_env _ _ Is)) as (ch & Hch & _ & Hw).
      eapply handleWrite_dead; [exact Hch|]. rewrite Hw. unfold writing.
      rewrite (v_closed _ _ Is) by done. done.
    + destruct (delayed (o_tcp o)) as [|f l] eqn:E; [done|].
      assert (f = FForceClose) as -> by (apply (l_delayed _ Il); simpl; rewrite E; by left).
      simpl. unfold forceClose. simpl. rewrite Htold. done.
    + apply exec_api_dead; [done|]. by apply He.
    + by rewrite Htold in He.
  - intros Hact Hop. destruct e as [r| | | |in_loop call| |f]; simpl.
    + by destruct He.
    + done.
    + done.
    + destruct (delayed (o_tcp o)) as [|f l] eqn:E; [done|].
      assert (f = FForceClose) as -> by (apply (l_delayed _ Il); simpl; rewrite E; by left).
      simpl. unfold forceClose. simpl. by rewrite Hop.
    + eapply wp_mono; [eapply wp_fault; [eapply (exec_api_keeps (o_chan o) (sys_write a)
        (Hwrite a) in_loop call); [exact Is|]|done]|].
      * intros _ _ Hs. simpl in Hs. by rewrite Hs in Hop.
      * intros c' [_ F]. by rewrite (frame_open _ _ F).
    + done.
    + done.
Qed.

(** What another thread gives to the loop: of a closed connection, what holds it. *)
Lemma conn_post_safe w a o f :
  world_inv w -> objs w !! a = Some o -> state_ (o_tcp o) <> kConnecting ->
  postable f = true -> calm f ->
  (this_only f = true -> state_ (o_tcp o) <> kDisconnected) ->
  wp overflow (grown (loop_of o) w) (conn_event sys_write user a (EvPost f) w).
Proof.
  intros I Ho Hst Hp Hf Hthis.
  pose proof (told_disconnected None _ _ _ I ltac:(done) Ho) as Htold.
  pose proof (wi_inv _ _ I _ _ ltac:(done) Ho) as Hc.
  eapply wp_mono; [apply exec_obj_grown; [by apply world_weaken|done|by apply (no_establish None)|..]
    |by intros w' [? _]].
  - intros ch Hfr. eapply (exec_event_safe (H0 := framed_laws _ ch)); [done|apply cbs_ok| |by split].
    by apply (inv_laws reactor_source_laws _ _ _ (at_rest_inv _ _ _ Hc Hst)).
  - simpl. by apply post_quiet.
  - intros Hn. specialize (Htold Hn). split; [|destruct f; by apply (co_end _ _ _ Hc)].
    destruct f; simpl in *; try done; try (by destruct Hthis).
    + intros f. by rewrite list_elem_of_singleton => ->.
    + by intros f ?%elem_of_nil.
  - intros _ Hop. by destruct f.
Qed.


(** A functor of an established connection, other than connectDestroyed. *)
Lemma conn_functor_safe w a o f :
  world_inv w -> objs w !! a = Some o -> state_ (o_tcp o) <> kConnecting ->
  active (loops w (loop_of o)) = [] -> calm f ->
  (f = FStopReadInLoop -> NClose ∈ notes (o_tcp o) ->
     removing w a \/ leaves (own_functors w a o)) ->
  wp overflow (stepped (loop_of o) w) (conn_functor sys_write user a f w).
Proof.
  intros I Ho Hst Ha Hf Hstop. pose proof (wi_inv _ _ I _ _ ltac:(done) Ho) as Hc.
  apply exec_obj_ok; [by apply world_weaken|done|by apply (no_establish None)|..].
  - intros ch Hfr. apply (run_functor_safe (H0 := framed_laws _ ch)); try done.
    + apply cbs_ok.
    + by apply (inv_laws reactor_source_laws _ _ _ (at_rest_inv _ _ _ Hc Hst)).
    + by intros ->.
    + by intros ->.
  - apply run_functor_quiet; [apply cbs_quiet|done].
  - intros Hn. destruct (decide (f = FStopReadInLoop)) as [->|Hne].
    + eapply wp_mono; [apply stopReadInLoop_pending|]. intros c' Hp. split; [done|].
      destruct (Hstop eq_refl Hn); [by left|by right; left].
    + eapply wp_mono; [apply run_functor_dead; [apply cbs_late| |done..];
        by eapply (told_disconnected None w a)|].
      intros c' [He Hp _]. split; [done|]. rewrite He. by apply (co_end _ _ _ Hc).
  - rewrite Ha. by intros ?%elem_of_nil.
Qed.

(** ** doPendingFunctors *)

(** What a world has besides the batches and queues. *)
Record same_but_queues w w' : Prop := {
  sq_reactor l : reactor (loops w' l) = reactor (loops w l);
  sq_active l : active (loops w' l) = active (loops w l);
  sq_objs : objs w' = objs w;
  sq_srv : srv w' = srv w;
}.

Lemma queues_keep w w' b o :
  same_but_queues w w' -> (removing w' b <-> removing w b) -> keeps w w' b o.
Proof.
  intros [Hr _ _ Hs] Hm. split; try done; rewrite ?Hr, ?Hs; try done.
  - unfold base. by rewrite Hs.
  - apply same_channel_refl.
Qed.

(** Functors of the connection [x] may go, if no channel of its loop waits. *)
Lemma requeued x w w' :
  world_but x w -> same_but_queues w w' ->
  (forall l it, it ∈ todo (loops w' l) -> it ∈ todo (loops w l)) ->
  NoDup (removes (todo (loops w' (base w)))) ->
  (forall b, removing w' b <-> removing w b) ->
  (forall b o, objs w !! b = Some o -> x <> Some b -> own_functors w' b o = own_functors w b o) ->
  (forall b o, objs w !! b = Some o -> x = Some b -> active (loops w (loop_of o)) = []) ->
  world_but x w'.
Proof.
  intros I Hs Ht Hnd Hm Hf Hx. pose proof Hs as [Hr Ha Ho Hv].
  assert (forall b o, keeps w w' b o) as Hk by (intros b o; by apply queues_keep).
  assert (base w' = base w) as Hb by (unfold base; by rewrite Hv).
  split; rewrite ?Ho, ?Hv, ?Hb; intros *; rewrite ?Hr, ?Ha; try apply I; try done.
  - intros Hob. eapply obj_keeps; [done|]. by apply I.
  - intros Hne Hob. eapply conn_keeps; [done|by apply Hf|rewrite Hr; apply I|rewrite Hr; apply I| |];
      by apply I.
  - intros Hin%Ht. destruct (wi_todo _ _ I _ _ Hin) as (o & Hob & Hi).
    eapply item_keeps; [by exists o|done|by rewrite Ho|done].
  - intros Hp. eapply active_keeps; [by apply (wi_active _ _ I)| |].
    + intros c Hc. rewrite Hr. by exists c.
    + rewrite Ho. intros b o Hob Hl _. split_and!; [done..|]. apply Hf; [done|].
      intros ->. specialize (Hx b o Hob eq_refl). rewrite Hl in Hx. rewrite Hx in Hp.
      by apply elem_of_nil in Hp.
Qed.

Lemma swap_safe w l :
  world_inv w -> batch (loops w l) = [] ->
  let L := loops w l in world_inv (set_loop l (mkLoop (reactor L) (active L) (queue L) []) w).
Proof.
  intros I Hb L. set (w' := set_loop _ _ _).
  assert (forall l', todo (loops w' l') = todo (loops w l')) as Ht.
  { intros l'. subst w'. rewrite loops_set_loop. case_decide; [subst l'|done].
    unfold todo. simpl. by rewrite app_nil_r, Hb. }
  apply (requeued None w); try done.
  - split; try done; intros l'; subst w'; rewrite loops_set_loop; by case_decide; subst.
  - intros l' it. by rewrite Ht.
  - rewrite Ht. apply I.
  - intros b. unfold removing. by rewrite Ht.
  - intros b o _ _. unfold own_functors. by rewrite Ht.
Qed.

(** A functor of the connection at [a] leaves the batch. *)
Section pop.
Variables (w : World K) (l a : addr) (f : Functor) (q : list item).
Context (I : world_inv w) (Hb : batch (loops w l) = Run a f :: q) (Ha : active (loops w l) = []).
Abbreviation w1 := (set_batch l q w).

Lemma pop_todo l' : todo (loops w l') = (if decide (l' = l) then [Run a f] else [])
  ++ todo (loops w1 l').
Proof using Hb.
  unfold todo. autorewrite with loops. simpl. case_decide; [|done]. subst. by rewrite Hb.
Qed.

Lemma popped_functor : exists o, objs w !! a = Some o /\ loop_of o = l
  /\ own_functors w a o = f :: own_functors w1 a o
  /\ (calm f \/ f = FConnectDestroyed /\ NClose ∈ notes (o_tcp o)
      \/ f = FConnectEstablished /\ state_ (o_tcp o) = kConnecting).
Proof using I Hb.
  destruct (wi_todo _ _ I l (Run a f)) as (o & Ho & Hl & Hx).
  { rewrite pop_todo, decide_True by done. by left. }
  exists o. split_and!; [done..| |done]. unfold own_functors. rewrite Hl, pop_todo, decide_True by done.
  unfold functors. simpl. by rewrite decide_True.
Qed.

Lemma pop_removing b : removing w1 b <-> removing w b.
Proof.
  unfold removing. change (base w1) with (base w). rewrite pop_todo.
  case_decide; rewrite elem_of_app, ?list_elem_of_singleton, ?elem_of_nil; naive_solver.
Qed.

Lemma pop_but : world_but (Some a) w1.
Proof.
  apply (requeued _ w); [by apply world_weaken|..].
  - split; try done; intros l'; by autorewrite with loops.
  - intros l' it Hin. rewrite pop_todo, elem_of_app. by right.
  - pose proof (wi_removes _ _ I) as Hn. rewrite pop_todo, removes_app in Hn.
    by apply NoDup_app in Hn as (_ & _ & ?).
  - apply pop_removing.
  - intros b o _ Hne. unfold own_functors. rewrite (pop_todo (loop_of o)), functors_app.
    case_decide; [|done]. unfold functors at 2. simpl. by rewrite decide_False by congruence.
  - intros b o Hob [= <-]. destruct popped_functor as (o' & Ho' & Hl & _). congruence.
Qed.

Lemma pop_calm : calm f -> world_inv w1.
Proof.
  intros Hf. pose proof pop_but as I1. destruct popped_functor as (o & Ho & Hl & Hq & _).
  split; try apply I1. intros b ob _ Hob.
  destruct (decide (b = a)) as [->|Hne]; [|apply (wi_inv _ _ I1); [congruence|done]].
  assert (ob = o) as -> by (simpl in Hob; congruence).
  destruct (wi_inv _ _ I a o ltac:(done) Ho) as [Hi Hs He].
  assert (reactor (loops w1 (loop_of o)) = own_reactor w o) as Hr by by autorewrite with loops.
  split; rewrite ?Hr; [done| |].
  - intros Hst. destruct (Hs Hst) as (_ & _ & Hfs). rewrite Hq in Hfs. by injection Hfs as -> _.
  - intros Hn. rewrite pop_removing. destruct (He Hn) as [?|[Hlv|[Hg Hh]]]; [by left| |].
    + right; left. rewrite Hq in Hlv. by apply leaves_tail in Hlv as [?|[-> _]].
    + right; right. split; [done|]. intros g Hin. apply Hh. rewrite Hq. by right.
Qed.
End pop.

(** connectEstablished, at once or from the queue. *)
Lemma establish_safe w a o :
  world_but (Some a) w -> objs w !! a = Some o -> state_ (o_tcp o) = kConnecting ->
  inv (o_chan o) (at_rest o (own_reactor w o)) -> own_functors w a o = [] ->
  wp overflow (stepped (loop_of o) w) (conn_functor sys_write user a FConnectEstablished w).
Proof.
  intros I Ho Hs Hi Hq. unfold at_rest in Hi. rewrite decide_True in Hi by done.
  apply exec_obj_ok; [done|done|..].
  - rewrite Hq. apply not_elem_of_nil.
  - intros ch Hfr. simpl. set (c := unpark _ _) in *.
    assert (inv (H0 := framed_laws (own_reactor w o) ch) (o_chan o)
      (queueInLoop FConnectEstablished c)) as Hf
      by by apply (inv_laws reactor_source_laws _ _ _ Hi).
    exact (connectEstablished_safe (H0 := framed_laws _ ch) (o_chan o) (sys_write a)
      (Hwrite a) a cbs cbs_ok [] _ Hf Hs eq_refl).
  - apply connectEstablished_quiet, cbs_quiet.
  - intros Hn. exfalso. destruct Hi as [_ L]. pose proof (l_life _ L) as Hl.
    unfold reported_life in Hl. simpl in Hl. rewrite Hs in Hl.
    assert (NClose ∈ life (queueInLoop FConnectEstablished (unpark (own_reactor w o) (o_tcp o))))
      as Hin by by apply list_elem_of_filter.
    rewrite Hl in Hin. by apply elem_of_nil in Hin.
  - intros _ Hop. by rewrite Hs in Hop.
Qed.

Lemma connectDestroyed_disconnected p (c : TcpConnection (Reactor K)) a :
  state_ c = kDisconnected ->
  connectDestroyed p (sys_write a) cbs c = remove_channel p c.
Proof. intros Hs. unfold connectDestroyed. rewrite Hs. by rewrite decide_False. Qed.

(** connectDestroyed of a closed connection. *)
Lemma destroy_safe w a o :
  world_but (Some a) w -> objs w !! a = Some o -> state_ (o_tcp o) = kDisconnected ->
  inv (o_chan o) (unpark (own_reactor w o) (o_tcp o)) ->
  active (loops w (loop_of o)) = [] -> FConnectEstablished ∉ own_functors w a o ->
  (removing w a \/ leaves (own_functors w a o)
   \/ forall f, f ∈ own_functors w a o -> holds f = true) ->
  wp overflow (stepped (loop_of o) w) (conn_functor sys_write user a FConnectDestroyed w).
Proof.
  intros I Ho Hs Hi Ha Hfe Hend.
  destruct (oo_chan _ _ _ (wi_objs _ _ I _ _ Ho)) as (ch & Hch & _).
  pose proof (own_may_update _ _ _ _ _ I Ho Hch) as Hmay.
  destruct (remove_keeps _ _ _ (wi_reactor _ _ I (loop_of o)) Hch Hmay) as (r' & Hx & _ & Hc' & _).
  set (c := unpark (own_reactor w o) (o_tcp o)) in *.
  assert (remove_channel (o_chan o) c = Ok (set_env r' c)) as Hr.
  { unfold remove_channel. simpl. by rewrite Hx. }
  assert (gone o r') as Hg by by eexists.
  unfold conn_functor. simpl. apply exec_obj_ok; [done..| | | |]; fold c;
    try rewrite connectDestroyed_disconnected by done.
  - intros d Hfr. apply (remove_channel_safe (H0 := framed_laws _ d)).
    by apply (inv_laws reactor_source_laws _ _ _ Hi).
  - rewrite Hr. by apply quiet_same.
  - intros _. rewrite Hr. simpl. split; [done|].
    destruct Hend as [?|[?|?]]; [by left|by right; left|by right; right].
  - rewrite Ha. by intros ?%elem_of_nil.
Qed.

(** What running one functor of the loop [l] does besides its own effect. *)
Definition ran l w w' : Prop :=
  world_inv w' /\ active (loops w' l) = active (loops w l) /\ keeps_closed w w'
  /\ confined l w w' /\ batch (loops w' l) = tail (batch (loops w l)).

Lemma set_batch_confined l q w : confined l w (set_batch l q w).
Proof.
  split; try done. intros l' Hl. autorewrite with loops. rewrite decide_False by done.
  destruct (loops w l'). apply spared_refl.
Qed.

Lemma pop_keeps_closed l q it w :
  batch (loops w l) = it :: q -> keeps_closed w (set_batch l q w).
Proof.
  intros Hb. split; [done| | |].
  - intros l' it'. autorewrite with loops. simpl. case_decide; [|done]. subst. rewrite Hb. by right.
  - intros a o Ho Hn. exists o. split_and!; [done..|]. intros l' it'. autorewrite with loops. by left.
  - intros l' a. by autorewrite with loops.
Qed.

Lemma stepped_ran l w it q m :
  batch (loops w l) = it :: q ->
  wp overflow (stepped l (set_batch l q w)) m -> wp overflow (ran l w) m.
Proof.
  intros Hb Hm. eapply wp_mono; [exact Hm|]. intros w' ([I [_ _ Ha Hc]] & Hk & Hbt).
  split; [done|]. split; [by rewrite Ha; autorewrite with loops|].
  split; [eapply keeps_closed_trans; [by eapply pop_keeps_closed|done]|].
  split; [eapply confined_trans; [apply set_batch_confined|done]|].
  rewrite Hbt, Hb. autorewrite with loops. simpl. by rewrite decide_True.
Qed.

Lemma run_functor_step w l a f q :
  world_inv w -> active (loops w l) = [] -> batch (loops w l) = Run a f :: q ->
  wp overflow (ran l w) (conn_functor sys_write user a f (set_batch l q w)).
Proof.
  intros I Ha Hb. apply (stepped_ran _ _ _ _ _ Hb).
  pose proof (pop_but w l a f q I Hb Ha) as I1.
  destruct (popped_functor w l a f q I Hb) as (o & Ho & Hl & Hq & Hf).
  pose proof (wi_inv _ _ I a o ltac:(done) Ho) as Hc. set (w1 := set_batch l q w) in *.
  assert (own_reactor w1 o = own_reactor w o) as Hr by by subst w1; autorewrite with loops.
  assert (active (loops w1 (loop_of o)) = []) as Ha1 by (subst w1; autorewrite with loops; by subst l).
  subst l. destruct Hf as [Hf|[[-> Hn]|[-> Hs]]].
  - apply (conn_functor_safe w1 a o); [by apply (pop_calm w _ a f)|done| |done|done|].
    + intros Hs. destruct (co_start _ _ _ Hc Hs) as (_ & _ & Hfs). rewrite Hq in Hfs.
      by injection Hfs as -> _.
    + intros -> Hn. destruct (co_end _ _ _ Hc Hn) as [Hm|[Hlv|[_ Hh]]].
      * left. by apply (pop_removing w (loop_of o) a FStopReadInLoop q Hb Ha).
      * rewrite Hq in Hlv. apply leaves_tail in Hlv as [?|[? _]]; [by right|done].
      * rewrite Hq in Hh. by specialize (Hh FStopReadInLoop ltac:(by left)).
  - pose proof (told_disconnected None w a o I ltac:(done) Ho Hn) as Hs.
    apply (destroy_safe w1 a o); [done..| |done| |].
    + rewrite Hr. apply (at_rest_inv w a); [done|]. by rewrite Hs.
    + apply (no_establish _ _ _ _ I1 Ho). by rewrite Hs.
    + destruct (co_end _ _ _ Hc Hn) as [Hm|[Hlv|[_ Hh]]].
      * left. by apply (pop_removing w (loop_of o) a FConnectDestroyed q Hb Ha).
      * rewrite Hq in Hlv. apply leaves_tail in Hlv as [?|[_ ?]]; [by right; left|by right; right].
      * right; right. intros g Hin. apply Hh. rewrite Hq. by right.
  - destruct (co_start _ _ _ Hc Hs) as (_ & _ & Hfs). apply (establish_safe w1 a o); [done..| |].
    + rewrite Hr. apply Hc.
    + rewrite Hq in Hfs. by injection Hfs.
Qed.

(** TcpServer::removeConnectionInLoop leaves the batch of the server's loop. *)
Section removal.
Variables (w : World K) (a : addr) (o : Obj) (q : list item).
Abbreviation b := (base w).
Context (I : world_inv w) (Ho : objs w !! a = Some o).
Context (Hb : batch (loops w b) = Remove a :: q) (Ha : active (loops w b) = []).
Abbreviation w' := (enqueue (loop_of o) [Run a FConnectDestroyed]
  (set_srv (TcpServer.removeConnectionInLoop (o_conn o) (srv w)) (set_batch b q w))).

Lemma removed_item : loop_of o <> b /\ NClose ∈ notes (o_tcp o)
  /\ ~ TcpServer.destroyed (srv w) (o_conn o).
Proof.
  destruct (wi_todo _ _ I b (Remove a)) as (o' & Ho' & _ & Hx).
  { unfold todo. rewrite Hb. by left. }
  simpl in Ho'. rewrite Ho in Ho'. by injection Ho' as <-.
Qed.

Lemma removed_loops l : reactor (loops w' l) = reactor (loops w l)
  /\ active (loops w' l) = active (loops w l)
  /\ (if decide (l = b) then [Remove a] else []) ++ todo (loops w' l)
     = todo (loops w l) ++ (if decide (l = loop_of o) then [Run a FConnectDestroyed] else []).
Proof.
  unfold todo. autorewrite with loops. simpl. split; [done|]. split; [done|].
  rewrite <- app_assoc. case_decide; [|done]. subst l. by rewrite Hb.
Qed.

Lemma removed_in l it : it ∈ todo (loops w' l) ->
  it ∈ todo (loops w l) \/ l = loop_of o /\ it = Run a FConnectDestroyed.
Proof.
  intros Hin. destruct (removed_loops l) as (_ & _ & Ht).
  assert (it ∈ todo (loops w l) ++ (if decide (l = loop_of o) then [Run a FConnectDestroyed] else []))
    as Hin' by (rewrite <- Ht; rewrite elem_of_app; by right).
  rewrite elem_of_app in Hin'. destruct Hin' as [?|Hx]; [by left|right]. case_decide.
  - by apply list_elem_of_singleton in Hx.
  - by apply elem_of_nil in Hx.
Qed.

Lemma removed_base : todo (loops w b) = Remove a :: todo (loops w' b).
Proof.
  destruct removed_item as (Hl & _). destruct (removed_loops b) as (_ & _ & Ht).
  rewrite decide_True, decide_False, app_nil_r in Ht by congruence. by rewrite <- Ht.
Qed.

Lemma removed_removing c : removing w' c <-> removing w c /\ c <> a.
Proof.
  pose proof (wi_removes _ _ I) as Hn. unfold removing. change (base w') with b.
  rewrite removed_base in Hn |- *. simpl in Hn. apply NoDup_cons in Hn as [Hn _].
  rewrite elem_of_removes in Hn. rewrite elem_of_cons. split.
  - intros Hin. split; [by right|]. by intros ->.
  - intros [[[= ->]|?] ?]; done.
Qed.

Lemma removed_srv : TcpServer.server_inv (srv w')
  /\ (forall x, TcpServer.established (srv w') x <-> TcpServer.established (srv w) x)
  /\ (forall x, TcpServer.destroyed (srv w') x <->
        TcpServer.destroyed (srv w) x \/ x = o_conn o).
Proof.
  pose proof (oo_est _ _ _ (wi_objs _ _ I _ _ Ho)) as He. simpl. split.
  { by apply TcpServer.removeConnection_keeps; [apply I|]. }
  unfold TcpServer.removeConnectionInLoop. split; intros x.
  - rewrite TcpServer.established_app. simpl. naive_solver.
  - rewrite TcpServer.destroyed_app. simpl. naive_solver.
Qed.

Lemma removed_keeps c oc : c <> a -> objs w !! c = Some oc ->
  keeps w w' c oc /\ own_functors w' c oc = own_functors w c oc.
Proof.
  intros Hc Hoc. destruct removed_srv as (_ & Hest & Hdes).
  destruct (removed_loops (loop_of oc)) as (Hr & _ & Ht). split; [split|].
  - done.
  - rewrite Hr. apply same_channel_refl.
  - apply Hest.
  - rewrite Hdes. split; [|by left]. intros [?|Heq]; [done|]. destruct Hc. by eapply one_conn.
  - rewrite removed_removing. tauto.
  - apply (f_equal (functors c)) in Ht. rewrite !functors_app in Ht. unfold own_functors.
    replace (functors c (if decide (loop_of oc = b) then [Remove a] else [])) with (@nil Functor) in Ht
      by (by case_decide).
    rewrite (functors_none c (if decide (loop_of oc = _) then _ else _)), app_nil_r in Ht; [done|].
    intros f. case_decide; [|by intros ?%elem_of_nil].
    intros [=]%list_elem_of_singleton; done.
Qed.

Lemma removed_functors : own_functors w' a o = own_functors w a o ++ [FConnectDestroyed].
Proof.
  destruct removed_item as (Hl & _). destruct (removed_loops (loop_of o)) as (_ & _ & Ht).
  rewrite decide_False, decide_True, app_nil_l in Ht by done. unfold own_functors.
  rewrite Ht, functors_app. f_equal. apply (functors_run a [FConnectDestroyed]).
Qed.

Lemma removed_ok : world_inv w'.
Proof.
  destruct removed_srv as (Hs & Hest & Hdes). destruct removed_item as (Hl & Hn & Hnd).
  pose proof (wi_objs _ _ I _ _ Ho) as Ow. pose proof (wi_inv _ _ I _ _ ltac:(done) Ho) as Hc.
  assert (forall l, reactor (loops w' l) = reactor (loops w l)) as Hr by (intros l; apply removed_loops).
  assert (forall l, active (loops w' l) = active (loops w l)) as Hact by (intros l; apply removed_loops).
  split; intros *; rewrite ?Hr, ?Hact; try apply I; try done.
  - intros Hx. destruct (decide (a0 = a)) as [->|Hne].
    + assert (o0 = o) as -> by (simpl in Hx; congruence). destruct Ow as [? ? ? Hm]. split.
      * by rewrite Hr.
      * done.
      * by apply Hest.
      * rewrite Hdes. split; [intros _; left; by right|done].
    + eapply obj_keeps; [by apply removed_keeps|]. by apply (wi_objs _ _ I).
  - intros _ Hx. destruct (decide (a0 = a)) as [->|Hne].
    + assert (o0 = o) as -> by (simpl in Hx; congruence). destruct Hc as [? Hst ?].
      split; rewrite ?Hr; [done| |].
      * intros Hk. rewrite (told_disconnected None w a o I ltac:(done) Ho Hn) in Hk. done.
      * intros _. right; left. rewrite removed_functors. apply leaves_snoc.
    + destruct (removed_keeps a0 o0 Hne Hx) as [Hk Hf].
      eapply conn_keeps; [done|done|rewrite Hr; apply I|rewrite Hr; apply I| |]; by apply I.
  - rewrite Hest, Hdes. intros Hx Hnx. apply (wi_conns _ _ I); tauto.
  - intros Hw. destruct (removed_in _ _ Hw) as [Hin|[-> ->]].
    + pose proof (wi_todo _ _ I _ _ Hin) as Hok. destruct (decide (item_conn it = a)) as [Hi|Hi].
      * destruct Hok as (o' & Ho' & Hx). exists o'. split; [done|].
        destruct it as [c f|c]; [done|]. exfalso. simpl in Hi. subst c.
        destruct Hx as (-> & _). by apply (removed_removing a) in Hw as [_ ?].
      * destruct Hok as (o' & Ho' & Hx). eapply item_keeps; [by exists o'|done|done|].
        by apply removed_keeps.
    + exists o. split; [done|]. split; [done|]. right; left. done.
  - pose proof (wi_removes _ _ I) as Hd. rewrite removed_base in Hd. simpl in Hd.
    apply NoDup_cons in Hd as [_ Hd]. exact Hd.
  - intros Hp. pose proof (wi_active _ _ I _ _ Hp) as (d & Hd & Hx). exists d.
    rewrite Hr. split; [done|]. intros c oc Hoc Hlc Hpc. destruct (Hx c oc Hoc Hlc Hpc) as (H1 & H2 & H3).
    split_and!; [done..|]. intros Hnc. destruct (decide (c = a)) as [->|Hne].
    + right. assert (oc = o) as -> by (simpl in Hoc; congruence).
      rewrite removed_functors. apply leaves_snoc.
    + destruct (removed_keeps c oc Hne Hoc) as [Hk Hf]. rewrite Hf.
      destruct (H3 Hnc); [left|by right]. by apply Hk.
Qed.

Lemma removed_ran : ran b w w'.
Proof.
  split; [apply removed_ok|]. destruct removed_item as (Hl & _). split; [apply removed_loops|].
  split; [split|split; [split|]].
  - done.
  - intros l it. autorewrite with loops. simpl. case_decide; [|done]. subst. rewrite Hb. by right.
  - intros c oc Hc Hn. exists oc. split_and!; [done..|]. intros l it. autorewrite with loops. simpl.
    rewrite elem_of_app. intros [?|Hin] Hit; [by left|]. case_decide; [|by apply elem_of_nil in Hin].
    apply list_elem_of_singleton in Hin as ->. right. split; [done|]. simpl in Hit. subst c.
    unfold removing, todo. rewrite Hb. by left.
  - intros l c. autorewrite with loops. simpl. rewrite elem_of_app. intros [?|Hin]; [done|].
    case_decide; [|by apply elem_of_nil in Hin]. by apply list_elem_of_singleton in Hin.
  - done.
  - intros l Hne. split; autorewrite with loops; simpl; try done; [by rewrite decide_False|].
    by eexists.
  - done.
  - done.
  - autorewrite with loops. simpl. rewrite decide_True by done. by rewrite Hb.
Qed.
End removal.

Abbreviation exec := (exec_step sys_write conn_cb msg_cb wc_cb user).

(** doPendingFunctors runs the next functor. *)
Lemma run_safe_step w l :
  world_inv w -> active (loops w l) = [] -> wp overflow (ran l w) (exec w (WRun l)).
Proof.
  intros I Ha. unfold exec_step. destruct (batch (loops w l)) as [|[a f|a] q] eqn:Hb.
  - split; [done|]. split; [done|]. split; [|split; [apply extends_refl|by rewrite Hb]].
    split; try done. intros a o Ho Hn. exists o. split_and!; try done. by left.
  - by apply run_functor_step.
  - destruct (wi_todo _ _ I l (Remove a)) as (o & Ho & Hl & _).
    { unfold todo. rewrite Hb. by left. }
    subst l. simpl. simpl in Ho. unfold removeConnectionInLoop. simpl. rewrite Ho. by apply removed_ran.
Qed.

(** ** Poll *)

(** A reactor whose channels differ in members no connection looks at. *)
Lemma set_reactor_ok l r' w :
  world_inv w -> reactor_ok r' ->
  (forall p, option_Forall2 same_channel (chans (reactor (loops w l)) !! p) (chans r' !! p)) ->
  (forall p, p ∈ active (loops w l) -> active_ok l (set_reactor l r' w) p) ->
  world_inv (set_reactor l r' w).
Proof.
  intros I Hr Hs Ha. set (w' := set_reactor l r' w) in *.
  assert (forall l', todo (loops w' l') = todo (loops w l')) as Ht
    by (intros l'; unfold todo; subst w'; by autorewrite with loops).
  assert (forall l', active (loops w' l') = active (loops w l')) as Hact
    by (intros l'; subst w'; by autorewrite with loops).
  assert (forall l', reactor (loops w' l') = if decide (l' = l) then r' else reactor (loops w l'))
    as Hrs by (intros l'; subst w'; by autorewrite with loops).
  assert (forall l' p, option_Forall2 same_channel (chans (reactor (loops w l')) !! p)
    (chans (reactor (loops w' l')) !! p)) as Hsame.
  { intros l' p. rewrite Hrs. case_decide; [subst; apply Hs|apply same_channel_refl]. }
  assert (forall l', reactor_ok (reactor (loops w' l'))) as Hrok
    by (intros l'; rewrite Hrs; case_decide; [done|apply I]).
  assert (forall l' p c', chans (reactor (loops w' l')) !! p = Some c' ->
    exists c, chans (reactor (loops w l')) !! p = Some c /\ same_channel c c') as Hb.
  { intros l' p c' Hc'. pose proof (Hsame l' p) as Hp. rewrite Hc' in Hp. inversion Hp. eauto. }
  assert (forall l' p q c d, chans (reactor (loops w' l')) !! p = Some c ->
    chans (reactor (loops w' l')) !! q = Some d -> fd_ c = fd_ d -> p = q) as Hfds.
  { intros l' p q c d (c0 & Hc & E & _)%Hb (d0 & Hd & E' & _)%Hb Hcd.
    eapply (wi_fds _ _ I); [done..|]. congruence. }
  assert (forall b o, own_functors w' b o = own_functors w b o) as Hf
    by (intros b o; unfold own_functors; by rewrite Ht).
  assert (forall b o, keeps w w' b o) as Hk.
  { intros b o. split; [done|apply Hsame|done|done|]. unfold removing. by rewrite Ht. }
  split; intros *; rewrite ?Ht, ?Hact; try apply I; try done.
  - eauto.
  - intros Ho. eapply obj_keeps; [done|]. by apply I.
  - intros _ Ho. eapply conn_keeps; [done|done|apply Hrok|apply Hfds| |]; by apply I.
  - intros Hc'. destruct (Hb _ _ _ Hc') as (c0 & Hc & F1 & _ & _ & F4 & F5).
    destruct (wi_chans _ _ I _ _ _ Hc) as [?|(S0 & S1 & S2)]; [by left|right].
    unfold system_channel. rewrite F1. split; [done|]. split; [congruence|]. by rewrite F4.
  - intros Hp. destruct (decide (l0 = l)) as [->|Hne]; [by apply Ha|].
    eapply active_keeps; [by apply (wi_active _ _ I)| |done].
    intros c Hc. rewrite Hrs, decide_False by done. by exists c.
Qed.

Lemma set_active_ok l ps w :
  world_inv w -> NoDup ps -> (forall p, p ∈ ps -> active_ok l w p) ->
  world_inv (set_active l ps w).
Proof.
  intros I Hn Ha. set (w' := set_active l ps w) in *.
  assert (forall l', todo (loops w' l') = todo (loops w l')) as Ht
    by (intros l'; unfold todo; subst w'; by autorewrite with loops).
  assert (forall l', reactor (loops w' l') = reactor (loops w l')) as Hr
    by (intros l'; subst w'; by autorewrite with loops).
  assert (forall l', active (loops w' l') = if decide (l' = l) then ps else active (loops w l'))
    as Hact by (intros l'; subst w'; by autorewrite with loops).
  assert (forall b o, own_functors w' b o = own_functors w b o) as Hf
    by (intros b o; unfold own_functors; by rewrite Ht).
  assert (forall b o, keeps w w' b o) as Hk.
  { intros b o. split; rewrite ?Hr; try done; [apply same_channel_refl|].
    unfold removing. by rewrite Ht. }
  split; intros *; rewrite ?Hr, ?Ht; try apply I; try done.
  - intros Ho. eapply obj_keeps; [done|]. by apply I.
  - intros _ Ho. eapply conn_keeps; [done|done|rewrite Hr; apply I|rewrite Hr; apply I| |];
      by apply I.
  - rewrite Hact. case_decide; [done|apply I].
  - rewrite Hact. intros Hp. apply (active_keeps _ w); [|rewrite Hr; by eauto|done].
    case_decide; [subst; by apply Ha|by apply (wi_active _ _ I)].
Qed.

(** A read event needs a watched channel. *)
Lemma watched_reads ev mask c :
  Z.land ev (Z.lnot (Z.lor mask (Z.lor POLLERR POLLHUP))) = 0 -> mask = 0 ->
  reads (set_revents ev c) = false.
Proof.
  intros Hev ->. unfold reads. simpl revents_.
  assert (Z.land ev (Z.lor (Z.lor POLLIN POLLPRI) POLLRDHUP) = 0) as ->; [|done].
  change (Z.lor (Z.lor POLLIN POLLPRI) POLLRDHUP)
    with (Z.land (Z.lnot (Z.lor 0 (Z.lor POLLERR POLLHUP))) 8195).
  by rewrite Z.land_assoc, Hev.
Qed.

(** What epoll reports may be dispatched. *)
Lemma reported_active w l evs ev q r' c :
  world_inv w -> watched evs (reactor (loops w l)) -> (ev, q) ∈ evs ->
  chans (reactor (loops w l)) !! q = Some c -> index_ c = kAdded ->
  chans r' !! q = Some (set_revents ev c) -> active_ok l (set_reactor l r' w) q.
Proof.
  intros I [_ Hw] Hin Hc Hi Hc'. exists (set_revents ev c). autorewrite with loops. simpl.
  rewrite decide_True by done. split; [done|]. intros a o Ho <- <-.
  pose proof (wi_inv _ _ I _ _ ltac:(done) Ho) as Hcn.
  assert (state_ (o_tcp o) <> kConnecting) as Hst.
  { intros Hs. destruct (co_start _ _ _ Hcn Hs) as (_ & (d & Hd & Hdi) & _).
    assert (d = c) as -> by congruence. by rewrite Hi in Hdi. }
  split; [done|]. split.
  - intros Hrd. destruct (at_rest_inv _ _ _ Hcn Hst) as [Is _].
    destruct (state_ (o_tcp o)) eqn:Hs; try done. exfalso.
    destruct (Hw _ _ Hin) as (fd & mask & Hfd & Hm).
    destruct (ok_interest _ (wi_reactor _ _ I _) _ _ _ Hfd) as (d & Hd & Hf & Hdi).
    assert (d = c) as -> by congruence.
    destruct (ok_chan _ (wi_reactor _ _ I _) _ _ Hc) as (_ & Hadd & _).
    specialize (Hadd Hdi). rewrite Hf, Hfd in Hadd. injection Hadd as Hadd.
    pose proof (v_closed _ _ Is Hs) as H0'. unfold interest in H0'. simpl in H0'.
    rewrite Hc in H0'. rewrite (watched_reads _ _ _ Hm) in Hrd; congruence.
  - intros Hn. unfold removing, own_functors, todo. autorewrite with loops.
    destruct (co_end _ _ _ Hcn Hn) as [?|[Hl|[(d & Hd & Hdi) _]]]; [by left|by right|].
    assert (d = c) as -> by congruence. by rewrite Hi in Hdi.
Qed.

Lemma set_loop_confined l L w : confined l w (set_loop l L w).
Proof.
  split; try done. intros l' Hl. rewrite loops_set_loop, decide_False by done. apply spared_refl.
Qed.

Lemma poll_safe w l evs now :
  world_inv w -> active (loops w l) = [] -> watched evs (reactor (loops w l)) ->
  wp overflow (fun w' => world_inv w' /\ confined l w w') (exec w (WPoll l evs now)).
Proof.
  intros I Ha Hw. pose proof Hw as [Hrep _]. unfold exec_step.
  destruct (Poll_exec evs now _ (wi_reactor _ _ I l) Hrep)
    as (r' & Hp & Hr' & _ & _ & _ & Hev). rewrite Hp. simpl. split.
  2: { eapply confined_trans; apply set_loop_confined. }
  apply set_active_ok; [|apply Hrep|].
  - apply set_reactor_ok; [done|done| |rewrite Ha; by intros p ?%elem_of_nil].
    intros p. destruct (decide (p ∈ map snd evs)) as [Hin|Hout].
    + apply list_elem_of_fmap in Hin as ([ev q] & -> & Hin).
      destruct (Hev _ _ Hin) as (c & Hc & _ & Hc'). simpl. rewrite Hc, Hc'.
      constructor. done.
    + rewrite (Poll_untouched evs now _ _ _ _ p (wi_reactor _ _ I l) Hrep Hp Hout). apply same_channel_refl.
  - intros p Hin. apply list_elem_of_fmap in Hin as ([ev q] & -> & Hin).
    destruct (Hev _ _ Hin) as (c & Hc & Hi & Hc'). by eapply reported_active.
Qed.

(** ** The last reference *)

Section release.
Variables (w : World K) (a : addr) (o : Obj).
Context (I : world_inv w) (Ho : objs w !! a = Some o).
Context (Hmap : forall n, TcpServer.connections_ (srv w) !! n <> Some (o_conn o)).
Context (Hheld : forall l it, l = loop_of o \/ l = base w -> it ∈ todo (loops w l) ->
  item_conn it = a -> item_holds it = false).
Abbreviation w' := (set_objs (delete a (objs w))
  (set_reactor (loop_of o) (destroy_channel (o_chan o) (own_reactor w o)) w)).

Lemma released_told : NClose ∈ notes (o_tcp o).
Proof.
  pose proof (wi_objs _ _ I _ _ Ho) as Ow.
  destruct (decide (NClose ∈ notes (o_tcp o))) as [|Hnn]; [done|].
  destruct (Hmap (TcpServer.c_name (o_conn o))). apply (TcpServer.s_map _ (wi_srv _ _ I)).
  split_and!; [done|apply Ow|]. intros Hd. apply Hnn, (oo_map _ _ _ Ow). by left.
Qed.

Lemma released_end : ~ removing w a /\ own_functors w a o = [] /\ gone o (own_reactor w o).
Proof.
  assert (~ removing w a) as Hm.
  { intros Hin. specialize (Hheld _ _ (or_intror eq_refl) Hin eq_refl). done. }
  assert (forall f, f ∈ own_functors w a o -> holds f = false) as Hf.
  { intros f Hin%elem_of_functors. exact (Hheld _ _ (or_introl eq_refl) Hin eq_refl). }
  destruct (co_end _ _ _ (wi_inv _ _ I a o ltac:(done) Ho) released_told)
    as [?|[(fs1 & fs2 & Hq & _)|[Hg Hh]]]; [done| |].
  - specialize (Hf FConnectDestroyed). rewrite Hq in Hf. discriminate Hf.
    rewrite elem_of_app. right. left.
  - split; [done|]. split; [|done]. apply elem_of_nil_inv. intros f Hin.
    pose proof (Hf f Hin). pose proof (Hh f Hin). congruence.
Qed.

Lemma released_items l it : it ∈ todo (loops w l) -> item_conn it <> a.
Proof.
  intros Hin Hi. destruct released_end as (Hm & Hq & _).
  destruct (wi_todo _ _ I _ _ Hin) as (o' & Ho' & Hx). destruct it as [c f|c]; simpl in *; subst c.
  - rewrite Ho in Ho'. injection Ho' as <-. destruct Hx as [<- _].
    assert (f ∈ own_functors w a o) as Hf by by apply elem_of_functors.
    rewrite Hq in Hf. by apply elem_of_nil in Hf.
  - destruct Hx as [-> _]. done.
Qed.

Lemma released_reactor l : reactor (loops w' l)
  = if decide (l = loop_of o) then destroy_channel (o_chan o) (own_reactor w o)
    else reactor (loops w l).
Proof. by autorewrite with loops. Qed.

Lemma released_chans l q d : chans (reactor (loops w' l)) !! q = Some d <->
  chans (reactor (loops w l)) !! q = Some d /\ ~ (l = loop_of o /\ q = o_chan o).
Proof.
  rewrite released_reactor. case_decide as Hl; [|tauto]. subst l. simpl.
  rewrite lookup_delete_Some. naive_solver.
Qed.

Lemma released_ok_reactor l : reactor_ok (reactor (loops w' l)).
Proof.
  rewrite released_reactor. case_decide; [|apply I]. destruct released_end as (_ & _ & c & Hc & Hi).
  eapply destroy_channel_ok; [apply I|exact Hc|done].
Qed.

Lemma released_todo l : todo (loops w' l) = todo (loops w l).
Proof. unfold todo. by autorewrite with loops. Qed.

Lemma released_keeps b ob : b <> a -> objs w !! b = Some ob ->
  keeps w w' b ob /\ own_functors w' b ob = own_functors w b ob.
Proof.
  intros Hb Hob. split; [split|]; try done.
  - destruct (chans (own_reactor w ob) !! o_chan ob) as [c|] eqn:E.
    + assert (chans (own_reactor w' ob) !! o_chan ob = Some c) as ->.
      { apply released_chans. split; [done|]. intros [? ?]. apply Hb. by eapply one_owner. }
      by constructor.
    + destruct (oo_chan _ _ _ (wi_objs _ _ I _ _ Hob)) as (c & Hc & _). congruence.
  - unfold removing. by rewrite released_todo.
  - unfold own_functors. by rewrite released_todo.
Qed.

Lemma released_objs b ob : objs w' !! b = Some ob <-> b <> a /\ objs w !! b = Some ob.
Proof. simpl. rewrite lookup_delete_Some. naive_solver. Qed.

Lemma released_ok : world_inv w'.
Proof.
  assert (forall l p q d e, chans (reactor (loops w' l)) !! p = Some d ->
    chans (reactor (loops w' l)) !! q = Some e -> fd_ d = fd_ e -> p = q) as Hfds.
  { intros l p q d e [Hd _]%released_chans [He _]%released_chans. by apply (wi_fds _ _ I l). }
  split.
  - apply released_ok_reactor.
  - exact Hfds.
  - intros b ob [Hne Hb]%released_objs. eapply obj_keeps; [by apply released_keeps|].
    by apply (wi_objs _ _ I).
  - intros b ob _ [Hne Hb]%released_objs.
    destruct (released_keeps b ob Hne Hb) as [Hk Hf].
    eapply conn_keeps; [done|done|apply released_ok_reactor|apply Hfds| |]; by apply I.
  - intros l p d [Hd Hne]%released_chans.
    destruct (wi_chans _ _ I _ _ _ Hd) as [(b & ob & Hb & Hl & Heq)|?]; [left|by right].
    exists b, ob. split; [|done]. simpl. rewrite lookup_delete_ne; [done|]. intros <-.
    apply Hne. by simplify_eq.
  - apply I.
  - intros x Hx Hnd. destruct (wi_conns _ _ I x Hx Hnd) as (b & ob & Hb & Heq).
    exists b, ob. split; [|done]. simpl. rewrite lookup_delete_ne; [done|]. intros <-.
    assert (ob = o) as -> by congruence. pose proof (wi_objs _ _ I _ _ Ho) as Ow.
    pose proof (proj1 (oo_map _ _ _ Ow) released_told) as [Hd|?].
    + apply Hnd. by rewrite <- Heq.
    + by destruct released_end as [? _].
  - intros l it. rewrite released_todo. intros Hin. pose proof (released_items l it Hin) as Hne.
    destruct (wi_todo _ _ I _ _ Hin) as (ob & Hb & Hx). exists ob. split; [|done].
    simpl. by rewrite lookup_delete_ne.
  - rewrite released_todo. apply I.
  - intros l. autorewrite with loops. apply I.
  - intros l p Hp. assert (p ∈ active (loops w l)) as Hp' by by autorewrite with loops in Hp.
    destruct (wi_active _ _ I _ _ Hp') as (d & Hd & Hx). exists d. split.
    + apply released_chans. split; [done|]. intros [-> ->].
      destruct (Hx a o Ho eq_refl eq_refl) as (_ & _ & Hl).
      destruct released_end as (Hm & Hq & _).
      destruct (Hl released_told) as [?|Hlv]; [done|]. rewrite Hq in Hlv.
      by destruct Hlv as ([|? ?] & ? & [=] & _).
    + intros b ob [Hne Hb]%released_objs Hl Hc. destruct (Hx b ob Hb Hl Hc) as (H1 & H2 & H3).
      destruct (released_keeps b ob Hne Hb) as [Hk Hf].
      split_and!; [done..|]. intros Hn. rewrite Hf. destruct (H3 Hn); [left|by right]. by apply Hk.
Qed.

Lemma released_nowhere fd ev :
  Poller.interest (kernel (own_reactor w o)) fd <> Some (ev, o_chan o).
Proof.
  intros Hi. pose proof (released_ok_reactor (loop_of o)) as Hx.
  rewrite released_reactor, decide_True in Hx by done.
  destruct (ok_interest _ Hx fd ev (o_chan o) Hi) as (c & Hc & _).
  simpl in Hc. by rewrite lookup_delete_eq in Hc.
Qed.
End release.

End steps.
