(* ===== verification/ServerDispatch.v ===== *)
(** The server of [ServerLoops] accepts and dispatches: newConnection, the events of
    one channel, and with them every step of its loops. *)

From stdpp Require Import functions.
From S2P Require Import Prelude Buffer TimeStamp Channel Poller TcpConnection ConnEffects.
From S2P Require Import ServerLoops ServerInv ServerOps ServerSafe.
From S2P Require EventLoopThreadPool.
From S2P Require TcpServer.

(** The server's part of newConnection: a new connection under a name of its own,
    for the next loop of the pool. *)
Lemma newConnection_result fd s :
  TcpServer.server_inv s ->
  wp world_fault (fun s' => TcpServer.server_inv s' /\ TcpServer.loop_ s' = TcpServer.loop_ s
      /\ exists l p conn, EventLoopThreadPool.getNextLoop (TcpServer.threadPool_ s) = Ok (l, p)
      /\ last (TcpServer.tasks s') = Some (l, TcpServer.TEstablished conn)
      /\ TcpServer.c_fd conn = fd /\ TcpServer.c_loop conn = l
      /\ (forall x, TcpServer.established s' x <-> TcpServer.established s x \/ x = conn)
      /\ (forall x, TcpServer.destroyed s' x <-> TcpServer.destroyed s x)
      /\ ~ TcpServer.destroyed s' conn)
    (TcpServer.newConnection fd s).
Proof.
  intros I. destruct (Z.lt_ge_cases (TcpServer.nextConnId_ s + 1) (2 ^ 31)) as [Hk|Hk].
  - destruct (TcpServer.newConnection_keeps fd s I Hk) as (s' & Hs' & I' & _).
    destruct (TcpServer.newConnection_exec fd s I Hk) as (l & p & Hl & _ & _ & Hx).
    rewrite Hs'. rewrite Hs' in Hx. injection Hx as ->. set (conn := TcpServer.mkConn _ _ _) in *.
    split; [done|]. split; [done|]. exists l, p, conn. split; [done|].
    split; [apply last_snoc|]. split_and!; [done..| | |].
    + intros x. rewrite TcpServer.established_app. unfold TcpServer.established. simpl.
      split; (intros [?|Heq]; [by left|right]); [by injection Heq|by subst x].
    + intros x. rewrite TcpServer.destroyed_app. unfold TcpServer.destroyed. simpl. naive_solver.
    + apply (TcpServer.s_map _ I' (TcpServer.c_name conn)). simpl. apply lookup_insert_eq.
  - destruct (TcpServer.getNextLoop_keeps _ (TcpServer.s_pool _ I)) as (l & p & Hl & _).
    unfold TcpServer.newConnection. rewrite Hl. cbn -[Format.snprintf txt app inSb].
    destruct (inSb 32 _) eqn:E; [|by right]. exfalso. apply inSb_spec in E.
    unfold inS in E. simpl in E. lia.
Qed.

Lemma overflow_fault {A} (P : A -> Prop) m : wp overflow P m -> wp world_fault P m.
Proof. intros Hm. eapply wp_fault; [exact Hm|]. by left. Qed.

Section dispatch.
Context {K : Type} `{EpollKernelLaws K} {own_fds : LoopFds}.
Context (sys_write : addr -> nat -> bool -> bytes -> write_result).
Context (conn_cb msg_cb : UserCb) (wc_cb : option UserCb).
Context (user : UserCb -> TcpConnection (Reactor K) -> list api).
Context (Hwrite : forall a, write_ok (sys_write a)) (Huser : well_behaved user).
Implicit Types (w : World K) (r : Reactor K) (l a : addr) (o : Obj).

Abbreviation cbs := (callbacks user).
Abbreviation own_reactor w o := (reactor (loops w (loop_of o))).
Abbreviation exec := (exec_step sys_write conn_cb msg_cb wc_cb user).

(** ** A new connection *)

Section added.
Variables (w : World K) (sockfd : Z) (a chan : addr) (conn : TcpServer.Conn)
  (s : TcpServer.TcpServer) (t : TcpConnection unit) (ch : Channel).
Abbreviation l0 := (TcpServer.c_loop conn).
Abbreviation o := (mkObj conn chan t).
Context (I : world_inv w) (Ha : objs w !! a = None).
Context (Hp : chans (reactor (loops w l0)) !! chan = None) (Hwatch : watchable K sockfd = true).
Context (Hfd : forall q c, chans (reactor (loops w l0)) !! q = Some c -> fd_ c <> sockfd).
Context (Is : TcpServer.server_inv s) (Hbase : TcpServer.loop_ s = base w).
Context (Hest : forall x, TcpServer.established s x <->
  TcpServer.established (srv w) x \/ x = conn).
Context (Hdes : forall x, TcpServer.destroyed s x <-> TcpServer.destroyed (srv w) x).
Context (Hnd : ~ TcpServer.destroyed s conn) (Hcf : TcpServer.c_fd conn = sockfd).
Context (Hown : own_channel a o ch) (Hidx : index_ ch = kNew).
Context (Hst : state_ t = kConnecting) (Hnotes : notes t = []).
Abbreviation w1 := (set_objs (<[a := o]> (objs w))
  (set_reactor l0 (put chan ch (reactor (loops w l0))) (set_srv s w))).

Lemma added_reactor l : reactor (loops w1 l)
  = if decide (l = l0) then put chan ch (reactor (loops w l0)) else reactor (loops w l).
Proof. by autorewrite with loops. Qed.

Lemma added_chans l q d : chans (reactor (loops w1 l)) !! q = Some d <->
  (l = l0 /\ q = chan /\ d = ch) \/ chans (reactor (loops w l)) !! q = Some d.
Proof.
  rewrite added_reactor. case_decide as Hl; [subst l; simpl|naive_solver].
  rewrite lookup_insert_Some. split; [naive_solver|].
  intros [(_ & -> & ->)|Hd]; [by left|right]. split; [|done]. congruence.
Qed.

Lemma added_fds l p q c d : chans (reactor (loops w1 l)) !! p = Some c ->
  chans (reactor (loops w1 l)) !! q = Some d -> fd_ c = fd_ d -> p = q.
Proof.
  assert (fd_ ch = sockfd) as Hcfd by (destruct Hown as [-> _]; done).
  intros [(-> & -> & ->)|Hc]%added_chans [(Hl & -> & ->)|Hd]%added_chans Heq; [done| | |].
  - destruct (Hfd _ _ Hd). congruence.
  - subst l. destruct (Hfd _ _ Hc). congruence.
  - by eapply (wi_fds _ _ I).
Qed.

Lemma added_reactor_ok l : reactor_ok (reactor (loops w1 l)).
Proof.
  rewrite added_reactor. case_decide; [|apply I]. apply put_fresh_ok; [apply I|done..|].
  destruct Hown as [-> _]. by rewrite <- Hcf in Hwatch.
Qed.

Lemma added_todo l : todo (loops w1 l) = todo (loops w l).
Proof. unfold todo. by autorewrite with loops. Qed.

Lemma added_objs b ob : objs w1 !! b = Some ob <->
  (b = a /\ ob = o) \/ (b <> a /\ objs w !! b = Some ob).
Proof. simpl. rewrite lookup_insert_Some. naive_solver. Qed.

Lemma added_old b ob : objs w !! b = Some ob -> b <> a.
Proof. intros Hb ->. congruence. Qed.

Lemma added_keeps b ob : objs w !! b = Some ob ->
  keeps w w1 b ob /\ own_functors w1 b ob = own_functors w b ob.
Proof.
  intros Hb. split; [split|].
  - exact Hbase.
  - destruct (oo_chan _ _ _ (wi_objs _ _ I _ _ Hb)) as (d & Hd & _). rewrite Hd.
    assert (chans (own_reactor w1 ob) !! o_chan ob = Some d) as ->
      by (apply added_chans; by right). by constructor.
  - intros ?. apply Hest. by left.
  - apply Hdes.
  - unfold removing. assert (base w1 = base w) as -> by exact Hbase. by rewrite added_todo.
  - unfold own_functors. by rewrite added_todo.
Qed.

Lemma added_functors : own_functors w1 a o = [].
Proof.
  apply functors_none. intros f. rewrite added_todo. intros Hin.
  destruct (wi_todo _ _ I _ _ Hin) as (ob & Hob & _). simpl in Hob. congruence.
Qed.

Lemma added_ok : world_but (Some a) w1.
Proof.
  assert (base w1 = base w) as Hb by exact Hbase. split; try apply Is.
  - apply added_reactor_ok.
  - apply added_fds.
  - intros b ob [[-> ->]|[Hne Hob]]%added_objs.
    + split; simpl; rewrite ?Hst, ?Hnotes; try done.
      * exists ch. split; [|done]. apply added_chans. by left.
      * apply Hest. by right.
      * split; [by intros ?%elem_of_nil|]. intros [?|Hr]; [done|]. exfalso.
        unfold removing in Hr. rewrite Hb, added_todo in Hr.
        destruct (wi_todo _ _ I _ _ Hr) as (ob & Hob & _). simpl in Hob. congruence.
    + eapply obj_keeps; [by apply added_keeps|]. by apply (wi_objs _ _ I).
  - intros b ob Hx [[-> ->]|[Hne Hob]]%added_objs; [done|].
    destruct (added_keeps b ob Hob) as [Hk Hf].
    eapply conn_keeps; [done|done|apply added_reactor_ok|apply added_fds| |]; by apply I.
  - rewrite Hb. intros l p d [(-> & -> & ->)|Hd]%added_chans.
    + left. exists a, o. split; [|done]. apply added_objs. by left.
    + destruct (wi_chans _ _ I _ _ _ Hd) as [(b & ob & Hob & Heq)|?]; [left|by right].
      exists b, ob. split; [|done]. apply added_objs. right. split; [by eapply added_old|done].
  - intros x Hx Hnx. apply Hest in Hx as [Hx| ->].
    + destruct (wi_conns _ _ I x Hx) as (b & ob & Hob & Heq); [by rewrite <- Hdes|].
      exists b, ob. split; [|done]. apply added_objs. right. split; [by eapply added_old|done].
    + exists a, o. split; [|done]. apply added_objs. by left.
  - intros l it. rewrite added_todo. intros Hin.
    destruct (wi_todo _ _ I _ _ Hin) as (ob & Hob & Hx).
    eapply item_keeps; [by exists ob|exact Hob| |by apply added_keeps].
    apply added_objs. right. split; [by eapply added_old|done].
  - rewrite Hb, added_todo. apply I.
  - intros l. autorewrite with loops. apply I.
  - intros l p Hin. assert (p ∈ active (loops w l)) as Hp' by by autorewrite with loops in Hin.
    pose proof (wi_active _ _ I _ _ Hp') as Hok. eapply active_keeps; [exact Hok| |].
    + intros c Hc. exists c. split; [|done]. apply added_chans. by right.
    + intros b ob [[-> ->]|[Hne Hob]]%added_objs Hl Hc; [|by destruct (added_keeps b ob Hob)].
      simpl in Hc. subst p. destruct Hok as (c & Hc & _). unfold loop_of in Hl. simpl in Hl. congruence.
Qed.

Lemma added_extends : extends (base w) w w1.
Proof.
  split; [| | |split].
  - intros p c Hc. exists c. split; [|done]. apply added_chans. by right.
  - intros b ob Hob. exists ob. split; [|done]. apply added_objs. right.
    split; [by eapply added_old|done].
  - by autorewrite with loops.
  - exact Hbase.
  - intros l Hl. split.
    + by autorewrite with loops.
    + by autorewrite with loops.
    + exists []. autorewrite with loops. by rewrite app_nil_r.
    + intros p c Hc. apply added_chans. by right.
    + rewrite added_reactor. by case_decide; subst.
  - done.
  - intros b ob Hob _. apply added_objs. right. split; [by eapply added_old|done].
Qed.
End added.

(** connectEstablished is sent to another loop. *)
Section queued.
Variables (w : World K) (a : addr) (o : Obj).
Context (I : world_but (Some a) w) (Ho : objs w !! a = Some o).
Context (Hs : state_ (o_tcp o) = kConnecting) (Hn : NClose ∉ notes (o_tcp o)).
Context (Hi : inv (o_chan o) (at_rest o (own_reactor w o))) (Hg : gone o (own_reactor w o)).
Context (Hq : own_functors w a o = []) (Hd : delayed (o_tcp o) = []).
Abbreviation w1 := (enqueue (loop_of o) [Run a FConnectEstablished] w).

Lemma queued_todo l : todo (loops w1 l)
  = todo (loops w l) ++ if decide (l = loop_of o) then [Run a FConnectEstablished] else [].
Proof. unfold todo. autorewrite with loops. simpl. by rewrite app_assoc. Qed.

Lemma queued_in l it : it ∈ todo (loops w1 l) ->
  it ∈ todo (loops w l) \/ l = loop_of o /\ it = Run a FConnectEstablished.
Proof.
  rewrite queued_todo, elem_of_app. intros [?|Hin]; [by left|right].
  case_decide; [by apply list_elem_of_singleton in Hin|by apply elem_of_nil in Hin].
Qed.

Lemma queued_removes l : removes (todo (loops w1 l)) = removes (todo (loops w l)).
Proof. rewrite queued_todo, removes_app. case_decide; apply app_nil_r. Qed.

Lemma queued_keeps b ob : keeps w w1 b ob.
Proof.
  split; [done| |done..|].
  - autorewrite with loops. apply same_channel_refl.
  - unfold removing. change (base w1) with (base w). by rewrite <- !elem_of_removes, queued_removes.
Qed.

Lemma queued_functors b ob : b <> a -> own_functors w1 b ob = own_functors w b ob.
Proof.
  intros Hb. unfold own_functors. rewrite queued_todo, functors_app.
  rewrite (functors_none b (if decide (loop_of ob = loop_of o) then _ else _)); [apply app_nil_r|].
  intros f. case_decide; [|by intros ?%elem_of_nil]. intros [= -> _]%list_elem_of_singleton. done.
Qed.

Lemma queued_ok : world_inv w1.
Proof.
  split; try apply I.
  - intros l. autorewrite with loops. apply I.
  - intros l p q c d. autorewrite with loops. apply (wi_fds _ _ I).
  - intros b ob Hob. eapply obj_keeps; [by apply queued_keeps|]. by apply (wi_objs _ _ I).
  - intros b ob _ Hob. destruct (decide (b = a)) as [->|Hne].
    + assert (ob = o) as -> by (simpl in Hob; congruence).
      assert (own_reactor w1 o = own_reactor w o) as Hr by by autorewrite with loops.
      split; rewrite ?Hr; [done| |done]. intros _. split; [done|]. split; [done|].
      unfold own_functors. rewrite queued_todo, functors_app, decide_True by done.
      unfold own_functors in Hq. rewrite Hq. apply (functors_run a [FConnectEstablished]).
    + eapply conn_keeps; [apply queued_keeps|by apply queued_functors|..].
      * autorewrite with loops. apply I.
      * intros p q c d. autorewrite with loops. apply (wi_fds _ _ I).
      * by apply (wi_objs _ _ I).
      * apply (wi_inv _ _ I); [congruence|done].
  - intros l p c. autorewrite with loops. apply (wi_chans _ _ I).
  - intros l it [Hin|[-> ->]]%queued_in.
    + destruct (wi_todo _ _ I _ _ Hin) as (ob & Hob & Hx).
      eapply item_keeps; [by exists ob|exact Hob|exact Hob|apply queued_keeps].
    + exists o. split; [done|]. split; [done|]. by right; right.
  - change (base w1) with (base w). rewrite queued_removes. apply I.
  - intros l. autorewrite with loops. apply I.
  - intros l p Hp. assert (p ∈ active (loops w l)) as Hp' by by autorewrite with loops in Hp.
    pose proof (wi_active _ _ I _ _ Hp') as Hok. eapply active_keeps; [exact Hok| |].
    + intros c Hc. exists c. by autorewrite with loops.
    + intros b ob Hob Hl Hc. split; [done|]. split; [apply queued_keeps|].
      apply queued_functors. intros ->. assert (ob = o) as -> by (simpl in Hob; congruence).
      destruct Hok as (c & _ & Hx). by destruct (Hx a o Ho Hl Hc) as [? _].
Qed.

Lemma queued_extends l : extends l w w1.
Proof.
  split; [| | |split]; try done.
  - intros p c Hc. exists c. by autorewrite with loops.
  - intros b ob Hob. by exists ob.
  - by autorewrite with loops.
  - intros l' Hl. split; autorewrite with loops; simpl; try done. by eexists.
Qed.
End queued.

Abbreviation accept_conn := (newConnection sys_write conn_cb msg_cb wc_cb user).

(** The connection newConnection makes, before it is established. *)
Lemma fresh_conn_inv (r : Reactor K) sockfd a chan :
  reactor_ok r -> chans r !! chan = None -> watchable K sockfd = true ->
  (forall q c, chans r !! q = Some c -> fd_ c <> sockfd) ->
  let c := new_conn a chan sockfd (S conn_cb) (S msg_cb) O (S <$> wc_cb) r in
  exists ch, env c = put chan ch r
    /\ (forall conn, TcpServer.c_fd conn = sockfd -> own_channel a (mkObj conn chan (park c)) ch)
    /\ index_ ch = kNew /\ inv chan c.
Proof.
  intros Hr Hp Hw Hfd c. eexists. split; [reflexivity|].
  split; [intros conn Hc; split; [by symmetry|done]|]. split; [done|].
  apply new_conn_inv. apply new_conn_ok; [done..| |done].
  destruct (channels_ r !! sockfd) as [q|] eqn:E; [|done].
  destruct (ok_channels _ Hr _ _ E) as (d & Hd & Hf & _). by destruct (Hfd _ _ Hd).
Qed.

Lemma newConnection_safe w sockfd a chan :
  world_inv w -> fresh sockfd a chan w ->
  wp world_fault (grown (base w) w) (accept_conn (base w) sockfd a chan w).
Proof.
  intros I (Ha & Hwatch & Hfresh). unfold newConnection.
  eapply wp_bind; [apply newConnection_result, I|].
  intros s (Is & Hbase & l & p & conn & Hnext & -> & Hcf & Hl & Hest & Hdes & Hnd). subst l.
  destruct (Hfresh _ _ Hnext) as [Hp Hfd].
  destruct (fresh_conn_inv (reactor (loops w (TcpServer.c_loop conn))) sockfd a chan
    (wi_reactor _ _ I _) Hp Hwatch Hfd) as (ch & He & Hown & Hidx & Hinv).
  set (c0 := new_conn _ _ _ _ _ _ _ _) in *.
  set (c := set_callbacks _ _ _ _ _). set (w1 := set_objs _ _).
  set (o := mkObj conn chan (park c)).
  assert (env c = put chan ch (reactor (loops w (TcpServer.c_loop conn)))) as Hec by exact He.
  specialize (Hown conn Hcf).
  assert (world_but (Some a) w1) as I1.
  { subst w1. rewrite Hec. by apply (added_ok w sockfd a chan conn s (park c) ch). }
  assert (extends (base w) w w1) as Ex.
  { subst w1. rewrite Hec. by apply (added_extends w sockfd a chan conn s (park c) ch). }
  assert (own_functors w1 a o = []) as Hq.
  { subst w1. rewrite Hec. by apply (added_functors w a chan conn s (park c) ch). }
  assert (objs w1 !! a = Some o) as Ho by apply lookup_insert_eq.
  assert (own_reactor w1 o = env c) as Hr.
  { subst w1. autorewrite with loops. simpl. by rewrite decide_True. }
  assert (inv chan (at_rest o (own_reactor w1 o))) as Hrest by (rewrite Hr; exact Hinv).
  unfold runInLoop. destruct (Z.eqb_spec (base w) (TcpServer.c_loop conn)) as [Heq|Hne].
  - rewrite Heq in Ex |- *. eapply grown_trans; [exact Ex|].
    apply overflow_fault. eapply wp_mono; [by apply (establish_safe sys_write user Hwrite Huser w1 a o)|].
    by intros w' [? _].
  - split.
    + apply (queued_ok w1 a o); try done.
      * by intros ?%elem_of_nil.
      * rewrite Hr, Hec. exists ch. split; [apply lookup_insert_eq|done].
    + eapply extends_trans; [exact Ex|]. by apply (queued_extends w1 a o).
Qed.
(** ** The dispatch of one channel *)

Lemma put_handling h w l p c :
  world_inv w -> chans (reactor (loops w l)) !! p = Some c ->
  grown l w (set_reactor l (put p (with_eventHandling h c) (reactor (loops w l))) w).
Proof.
  intros I Hc. set (w' := set_reactor _ _ w).
  assert (forall q d, chans (reactor (loops w l)) !! q = Some d ->
    exists d', chans (reactor (loops w' l)) !! q = Some d' /\ same_channel d d' /\ binding d' = binding d)
    as Hput.
  { intros q d Hd. subst w'. autorewrite with loops. simpl. rewrite decide_True by done. simpl.
    destruct (decide (q = p)) as [->|Hne].
    - rewrite lookup_insert_eq. eexists. split; [done|]. by simplify_eq.
    - exists d. by rewrite lookup_insert_ne. }
  split.
  - apply set_reactor_ok; [done|eapply put_member_ok; [apply I|done..]| |].
    + intros q. simpl. destruct (decide (q = p)) as [->|Hne].
      * rewrite lookup_insert_eq, Hc. by constructor.
      * rewrite lookup_insert_ne by done. apply same_channel_refl.
    + intros q Hq. destruct (wi_active _ _ I _ _ Hq) as (d & Hd & Hx).
      destruct (Hput q d Hd) as (d' & Hd' & _ & Hb). exists d'. split; [exact Hd'|].
      intros a o Ho Hl Hp. destruct (Hx a o Ho Hl Hp) as (H1 & H2 & H3). split; [done|]. split.
      * assert (reads d' = reads d) as -> by (unfold reads; unfold binding in Hb; congruence). done.
      * intros Hn. unfold removing, own_functors, todo. autorewrite with loops. by apply H3.
  - split; [| |by subst w'; autorewrite with loops|apply set_loop_confined].
    + intros q d Hd. destruct (Hput q d Hd) as (d' & ? & _ & ?). by exists d'.
    + intros a o Ho. by exists o.
Qed.

Lemma fire_timers_safe w l due :
  world_inv w -> wp world_fault (grown l w) (mfold (fire_timer sys_write user l) w due).
Proof.
  intros I. apply (wp_mfold world_fault (fun _ => grown l w)); [by apply grown_refl|].
  intros a _ w1 [I1 E1]. unfold fire_timer.
  destruct (objs w1 !! a) as [o|] eqn:Ho; [|by split].
  destruct (_ && _) eqn:Hc; [|by split]. apply andb_true_iff in Hc as [<-%Z.eqb_eq Hd].
  apply negb_true_iff, bool_decide_eq_false in Hd.
  assert (state_ (o_tcp o) <> kConnecting) as Hs.
  { intros Hs. by destruct (co_start _ _ _ (wi_inv _ _ I1 _ _ ltac:(done) Ho) Hs) as [? _]. }
  eapply grown_trans; [exact E1|].
  by apply overflow_fault, (conn_event_safe sys_write user Hwrite Huser w1 a o EvTimer).
Qed.

(** A channel's owner, seen from the callbacks bound to it. *)
Lemma owner_cases w l p c :
  world_inv w -> chans (reactor (loops w l)) !! p = Some c ->
  (exists a o, objs w !! a = Some o /\ loop_of o = l /\ o_chan o = p
     /\ readCallback_ c = Some (CbConnRead a) /\ writeCallback_ c = Some (CbConnWrite a))
  \/ system_channel (base w) l c.
Proof.
  intros I Hc. destruct (wi_chans _ _ I _ _ _ Hc) as [(a & o & Ho & <- & <-)|?]; [left|by right].
  destruct (oo_chan _ _ _ (wi_objs _ _ I _ _ Ho)) as (d & Hd & _ & ? & ?). simplify_eq.
  by exists a, o.
Qed.


Abbreviation store := (loop_store sys_write conn_cb msg_cb wc_cb user).

Lemma call_write_safe i w l p c now :
  world_inv w -> p ∉ active (loops w l) -> chans (reactor (loops w l)) !! p = Some c ->
  (forall a o, objs w !! a = Some o -> loop_of o = l -> o_chan o = p ->
     state_ (o_tcp o) <> kConnecting) ->
  wp world_fault (grown l w) (@Channel.call _ (store l i) (writeCallback_ c) now w).
Proof.
  intros I Hp Hc Hst.
  destruct (owner_cases w l p c I Hc) as [(a & o & Ho & <- & <- & _ & ->)|(_ & -> & _)].
  - apply overflow_fault, (conn_event_safe sys_write user Hwrite Huser w a o EvWrite); eauto.
  - by apply grown_refl.
Qed.

Lemma call_read_safe i w l p c now :
  world_inv w -> p ∉ active (loops w l) -> chans (reactor (loops w l)) !! p = Some c ->
  (forall a o, objs w !! a = Some o -> loop_of o = l -> o_chan o = p ->
     is_open (state_ (o_tcp o)) = true /\ readv_fits (inputBuffer_ (o_tcp o)) (in_read i)) ->
  (forall sockfd a chan, in_accept i = Some (sockfd, a, chan) -> fresh sockfd a chan w) ->
  wp world_fault (grown l w) (@Channel.call _ (store l i) (readCallback_ c) now w).
Proof.
  intros I Hp Hc Hread Hacc.
  destruct (owner_cases w l p c I Hc) as [(a & o & Ho & <- & <- & -> & _)|(_ & _ & Hs)].
  - destruct (Hread a o Ho eq_refl eq_refl) as [Hop Hfits].
    apply overflow_fault, (conn_event_safe sys_write user Hwrite Huser w a o (EvRead (in_read i))); try done.
    intros Hk. by rewrite Hk in Hop.
  - pose proof (grown_refl l w I) as Hw.
    destruct (readCallback_ c) as [[]|]; simpl; try done.
    + by apply fire_timers_safe.
    + destruct (in_accept i) as [[[sockfd a] chan]|]; [|done]. subst l.
      by apply newConnection_safe, Hacc.
Qed.

(** The members of a channel that its dispatch sets leave what is free free. *)
Lemma fresh_handling h sockfd a chan w l p c :
  chans (reactor (loops w l)) !! p = Some c -> fresh sockfd a chan w ->
  fresh sockfd a chan (set_reactor l (put p (with_eventHandling h c) (reactor (loops w l))) w).
Proof.
  intros Hc (Hf1 & Hw & Hf2). split; [done|]. split; [done|]. intros l' q Hn. destruct (Hf2 l' q Hn) as [H1 H2].
  autorewrite with loops. simpl. case_decide as Hl; [|done]. subst l'. simpl. split.
  - rewrite lookup_insert_ne; [done|]. congruence.
  - intros q' d [[<- <-]|[_ Hd]]%lookup_insert_Some; [|by eapply H2]. simpl. by eapply H2.
Qed.

(** A channel's connection does not change while it is dispatched. *)
Lemma same_owner w w' l p c :
  world_inv w -> grown l w w' -> chans (reactor (loops w l)) !! p = Some c ->
  (forall a o, objs w !! a = Some o -> loop_of o = l -> o_chan o = p ->
     state_ (o_tcp o) <> kConnecting) ->
  forall a o, objs w' !! a = Some o -> loop_of o = l -> o_chan o = p ->
     state_ (o_tcp o) <> kConnecting.
Proof.
  intros I [I' E] Hc Hst a o Ho <- <-.
  destruct (ex_chans _ _ _ E _ _ Hc) as (c' & Hc' & Hb). unfold binding in Hb.
  destruct (oo_chan _ _ _ (wi_objs _ _ I' _ _ Ho)) as (d & Hd & _ & Hrd & _).
  destruct (owner_cases w _ _ c I Hc) as [(b & ob & Hob & Hl & Hp & Hrb & _)|(_ & _ & Hs)].
  - assert (a = b) as -> by congruence.
    destruct (ex_objs _ _ _ E _ _ Hob) as (o' & Ho' & _ & _ & Hk).
    assert (o' = o) as -> by congruence. apply Hk. by eapply Hst.
  - assert (readCallback_ c = Some (CbConnRead a)) as Hr by congruence. by rewrite Hr in Hs.
Qed.

Lemma guard_safe i w l p c now :
  world_inv w -> p ∉ active (loops w l) -> chans (reactor (loops w l)) !! p = Some c ->
  (forall a o, objs w !! a = Some o -> loop_of o = l -> o_chan o = p ->
     state_ (o_tcp o) <> kConnecting /\ (reads c = true -> is_open (state_ (o_tcp o)) = true)
     /\ readv_fits (inputBuffer_ (o_tcp o)) (in_read i)) ->
  (forall sockfd a chan, in_accept i = Some (sockfd, a, chan) -> fresh sockfd a chan w) ->
  wp world_fault (grown l w) (@handleEventWithGuard _ (store l i) p now w).
Proof.
  intros I Hp Hc Hread Hacc. unfold handleEventWithGuard, modify, load. simpl. rewrite Hc. simpl.
  pose proof (put_handling true w l p c I Hc) as Hg1. set (w1 := set_reactor l _ w) in *.
  set (c1 := with_eventHandling true c).
  assert (chans (reactor (loops w1 l)) !! p = Some c1) as Hc1.
  { subst w1. autorewrite with loops. simpl. rewrite decide_True by done. apply lookup_insert_eq. }
  destruct Hg1 as [I1 E1].
  match goal with |- context [match ?x with Some _ => _ | None => Fault FUseAfterFree end] =>
    change x with (chans (reactor (loops w1 l)) !! p) end.
  rewrite Hc1. simpl. apply (wp_bind world_fault (grown l w1)).
  - destruct (to_bool _) eqn:Hrd; [|by apply grown_refl].
    apply (call_read_safe i w1 l p c1 now I1); [|done|..].
    + by rewrite (ex_active _ _ _ E1).
    + intros a o Ho Hl Heq. destruct (Hread a o Ho Hl Heq) as (_ & Ho1 & ?). split; [|done].
      by apply Ho1.
    + intros sockfd a chan Hin. by apply fresh_handling, (Hacc _ _ _ Hin).
  - intros w2 G2. pose proof G2 as [I2 E2]. destruct (ex_chans _ _ _ E2 _ _ Hc1) as (c2 & Hc2 & _).
    rewrite Hc2. simpl. apply (wp_bind world_fault (grown l w2)).
    + destruct (to_bool _); [|by apply grown_refl].
      apply (call_write_safe i w2 l p c2 now I2); [|done|].
      * by rewrite (ex_active _ _ _ E2), (ex_active _ _ _ E1).
      * eapply same_owner; [exact I1|exact G2|exact Hc1|].
        intros a o Ho Hl Heq. by apply (Hread a o Ho Hl Heq).
    + intros w3 [I3 E3]. destruct (ex_chans _ _ _ E3 _ _ Hc2) as (c3 & Hc3 & _).
      rewrite Hc3. simpl. destruct (put_handling false w3 l p c3 I3 Hc3) as [I4 E4].
      split; [exact I4|]. eapply extends_trans; [exact E1|]. eapply extends_trans; [exact E2|].
      by eapply extends_trans.
Qed.

Lemma dispatch_safe w l i now :
  world_inv w -> legal_step w (WDispatch l i now) ->
  wp world_fault (fun w' => world_inv w' /\ confined l w w') (exec w (WDispatch l i now)).
Proof.
  intros I (_ & Hfits & Hacc). unfold exec_step.
  destruct (active (loops w l)) as [|p ps] eqn:Ha; [split; [done|apply extends_refl]|].
  pose proof (wi_nodup _ _ I l) as Hnd. rewrite Ha in Hnd. apply NoDup_cons in Hnd as [Hp Hnd].
  set (w1 := set_active l ps w).
  assert (world_inv w1) as I1.
  { apply set_active_ok; [done|done|]. intros q Hq. apply (wi_active _ _ I). rewrite Ha. by right. }
  destruct (wi_active _ _ I l p) as (c & Hc & Hx); [rewrite Ha; by left|].
  assert (chans (reactor (loops w1 l)) !! p = Some c) as Hc1 by by subst w1; autorewrite with loops.
  assert (wp world_fault (fun w' => world_inv w' /\ confined l w w')
    (@handleEventWithGuard _ (store l i) p now w1)) as Hg.
  { eapply wp_mono; [apply (guard_safe i w1 l p c now I1); [|exact Hc1|..]|].
    - subst w1. autorewrite with loops. simpl. by rewrite decide_True.
    - intros a o Ho Hl Heq. destruct (Hx a o Ho Hl Heq) as (? & ? & _). split_and!; [done..|].
      eapply Hfits; [done..|]. by rewrite Heq.
    - intros sockfd a chan Hin. destruct (Hacc _ _ _ Hin) as (Hf1 & Hw & Hf2).
      split; [done|]. split; [done|].
      intros l' q Hn. subst w1. autorewrite with loops. by apply (Hf2 l' q).
    - intros w' [I' E']. split; [done|]. eapply confined_trans; [apply set_loop_confined|apply E']. }
  assert (@handleEvent _ (store l i) p now w1 =
    if tied_ c then
      match tie_ c with
      | Some obj => if bool_decide (is_Some (objs w1 !! obj))
                    then @handleEventWithGuard _ (store l i) p now w1 else Ok w1
      | None => Ok w1
      end
    else @handleEventWithGuard _ (store l i) p now w1) as ->.
  { unfold handleEvent, load.
    change (@cs_get _ (store l i) p w1) with (chans (reactor (loops w1 l)) !! p).
    by rewrite Hc1. }
  destruct (tied_ c); [|exact Hg]. destruct (tie_ c); [|split; [done|apply set_loop_confined]].
  destruct (bool_decide _); [exact Hg|]. split; [done|apply set_loop_confined].
Qed.

(** ** All steps *)

(** The thread that makes a step: a loop's, or that of somebody who holds a
    connection. *)
Definition step_loop w (e : step) : option addr :=
  match e with
  | WPoll l _ _ | WDispatch l _ _ | WSwap l | WRun l => Some l
  | WCall a true _ => loop_of <$> objs w !! a
  | WCall _ false _ | WStore _ | WPost _ _ | WRelease _ => None
  end.

Lemma exec_step_safe w e :
  world_inv w -> legal_step w e ->
  wp world_fault (fun w' => world_inv w' /\ forall l, step_loop w e = Some l -> confined l w w')
    (exec w e).
Proof.
  intros I Hl. destruct e as [l evs now|l i now|l|l|a in_loop call|a|a f|a].
  - destruct Hl as (? & _ & ?). apply overflow_fault.
    eapply wp_mono; [by apply poll_safe|]. intros w' [? ?]. split; [done|]. by intros l' [= <-].
  - eapply wp_mono; [by apply dispatch_safe|]. intros w' [? ?]. split; [done|]. by intros l' [= <-].
  - destruct Hl as [_ Hb]. split; [by apply swap_safe|]. intros l' [= <-]. apply set_loop_confined.
  - apply overflow_fault. eapply wp_mono; [by apply run_safe_step|].
    intros w' (? & _ & _ & ? & _). split; [done|]. by intros l' [= <-].
  - destruct Hl as (o & Ho & Hs & Hc & Hlate). apply overflow_fault.
    eapply wp_mono; [by apply (conn_event_safe sys_write user Hwrite Huser w a o (EvCall in_loop call))|].
    intros w' [? E]. split; [done|]. simpl. rewrite Ho. destruct in_loop; [|done].
    intros l [= <-]. apply E.
  - destruct Hl as (o & Ho & Hop). apply overflow_fault.
    eapply wp_mono; [apply (conn_event_safe sys_write user Hwrite Huser w a o EvStore); try done|].
    + intros Hs. by rewrite Hs in Hop.
    + intros w' [? _]. by split.
  - destruct Hl as (o & Ho & Hs & Hp & Hc & Hthis). apply overflow_fault.
    eapply wp_mono; [by apply (conn_post_safe sys_write user Hwrite Huser w a o f)|].
    intros w' [? _]. by split.
  - destruct Hl as (o & Ho & Hmap & Hheld). simpl. rewrite Ho. simpl.
    split; [by apply released_ok|done].
Qed.

Lemma run_world_safe es w :
  world_inv w -> legal_run sys_write conn_cb msg_cb wc_cb user w es ->
  wp world_fault world_inv (mfold exec w es).
Proof.
  revert w. induction es as [|e es IH]; intros w I Hl; [done|]. destruct Hl as [He Hl].
  pose proof (exec_step_safe w e I He) as Hx. cbn [mfold].
  destruct (exec w e) as [w'|f] eqn:E; [|exact Hx]. apply IH; [apply Hx|by apply Hl].
Qed.
End dispatch.
