(* ===== verification/ServerRuns.v ===== *)
(** What holds of every run of a server on its loops ([ServerLoops]), with any
    number of threads, and concrete runs. *)

From stdpp Require Import functions.
From S2P Require Import Prelude Buffer TimeStamp Channel Poller TcpConnection ConnEffects.
From S2P Require Import ServerLoops ServerInv ServerOps ServerSafe ServerDispatch.
From S2P Require EventLoopThreadPool.
From S2P Require TcpServer.

#[local] Existing Instance TcpServer.Conn_eq_dec.

(** ** A pass of doPendingFunctors *)

Section pass.
Context {K : Type} `{EpollKernelLaws K} {own_fds : LoopFds}.
Context (sys_write : addr -> nat -> bool -> bytes -> write_result).
Context (conn_cb msg_cb : UserCb) (wc_cb : option UserCb).
Context (user : UserCb -> TcpConnection (Reactor K) -> list api).
Context (Hwrite : forall a, write_ok (sys_write a)) (Huser : well_behaved user).
Implicit Types (w : World K) (l a : addr) (o : Obj).

Abbreviation exec := (exec_step sys_write conn_cb msg_cb wc_cb user).

Definition idle l w : Prop := active (loops w l) = [] /\ batch (loops w l) = [].

Lemma drain_safe n w l :
  world_inv w -> active (loops w l) = [] ->
  wp overflow (fun w' => world_inv w' /\ active (loops w' l) = [] /\ keeps_closed w w'
                         /\ confined l w w' /\ batch (loops w' l) = drop n (batch (loops w l)))
    (mfold exec w (replicate n (WRun l))).
Proof.
  revert w. induction n as [|n IH]; intros w I Ha.
  { split_and!; try done; [|apply extends_refl]. split; try done.
    intros a o Ho Hn. exists o. split_and!; [done..|]. by left. }
  change (replicate (S n) (WRun l)) with (WRun l :: replicate n (WRun l)). cbn [mfold].
  eapply wp_bind; [by apply run_safe_step|]. intros w1 (I1 & Ha1 & K1 & C1 & B1).
  eapply wp_mono; [apply IH; [done|congruence]|]. intros w2 (I2 & Ha2 & K2 & C2 & B2).
  split_and!; [done..|by eapply keeps_closed_trans|by eapply confined_trans|].
  rewrite B2, B1. destruct (batch (loops w l)); simpl; by rewrite ?drop_nil.
Qed.

(** The loop has taken its queue: from there on the pass adds to it. *)
Definition swapped l w : World K :=
  let L := loops w l in set_loop l (mkLoop (reactor L) (active L) (queue L) []) w.

Lemma pass_safe w l :
  world_inv w -> idle l w ->
  wp overflow (fun w' => world_inv w' /\ idle l w' /\ confined l w w'
                         /\ keeps_closed (swapped l w) w')
    (mfold exec w (pass l w)).
Proof.
  intros I [Ha Hb]. unfold pass. cbn [mfold exec_step].
  change (wp overflow ?P (Ok ?w1 ≫= ?k)) with (wp overflow P (k w1)). cbv beta.
  fold (swapped l w). pose proof (swap_safe w l I Hb) as I1. fold (swapped l w) in I1.
  assert (loops (swapped l w) l = mkLoop (reactor (loops w l)) (active (loops w l))
    (queue (loops w l)) []) as Hl by (unfold swapped; by rewrite loops_set_loop, decide_True).
  eapply wp_mono; [apply drain_safe; [done|by rewrite Hl]|].
  intros w' (I' & Ha' & K' & C' & B'). split; [done|]. split; [split; [done|]|split; [|done]].
  - rewrite B', Hl. apply drop_ge. done.
  - eapply confined_trans; [apply set_loop_confined|done].
Qed.

Lemma swapped_todo l w l' : batch (loops w l) = [] ->
  todo (loops (swapped l w) l') = todo (loops w l').
Proof.
  intros Hb. unfold swapped. rewrite loops_set_loop. case_decide; [subst|done].
  unfold todo. simpl. by rewrite app_nil_r, Hb.
Qed.

Lemma swapped_queue l w : queue (loops (swapped l w) l) = [].
Proof. unfold swapped. by rewrite loops_set_loop, decide_True. Qed.

(** No removal comes back. *)
Lemma not_removing w w' a o :
  keeps_closed w w' -> objs w !! a = Some o -> NClose ∈ notes (o_tcp o) ->
  ~ removing w a -> ~ removing w' a.
Proof.
  intros Kc Ho Hn Hr Hr'. apply Hr. unfold removing, todo in *. rewrite (kc_base _ _ Kc) in Hr'.
  rewrite elem_of_app in *. destruct Hr' as [Hin|Hin]; [left; by apply (kc_batch _ _ Kc)|right].
  destruct (kc_objs _ _ Kc a o Ho Hn) as (o' & _ & _ & _ & Hq).
  by destruct (Hq _ _ Hin eq_refl) as [?|[? _]].
Qed.

(** After a pass of the server's loop no removal of a closed connection is on its
    way. *)
Lemma pass_removes w w' a o :
  idle (base w) w -> idle (base w') w' -> keeps_closed (swapped (base w) w) w' ->
  objs w !! a = Some o -> NClose ∈ notes (o_tcp o) -> ~ removing w' a.
Proof.
  intros _ [_ Hb'] Kc Ho Hn Hr. unfold removing, todo in Hr. rewrite Hb' in Hr. simpl in Hr.
  rewrite (kc_base _ _ Kc) in Hr. destruct (kc_objs _ _ Kc a o Ho Hn) as (o' & _ & _ & _ & Hq).
  destruct (Hq _ _ Hr eq_refl) as [Hin|[? _]]; [|done].
  change (base (swapped (base w) w)) with (base w) in Hin. rewrite swapped_queue in Hin.
  by apply elem_of_nil in Hin.
Qed.

(** A closed connection without functors can be let go of. *)
Lemma closed_releasable w a o :
  world_inv w -> objs w !! a = Some o -> NClose ∈ notes (o_tcp o) ->
  ~ removing w a -> own_functors w a o = [] -> legal_step w (WRelease a).
Proof.
  intros I Ho Hn Hr Hq. exists o. split; [done|]. split.
  - intros n Hc. apply (TcpServer.s_map _ (wi_srv _ _ I)) in Hc as (_ & _ & Hd).
    apply (oo_map _ _ _ (wi_objs _ _ I _ _ Ho)) in Hn. tauto.
  - intros l it _ Hin Hit. exfalso.
    destruct (wi_todo _ _ I _ _ Hin) as (o' & Ho' & Hx). rewrite Hit, Ho in Ho'.
    injection Ho' as <-. destruct it as [b f|b]; simpl in Hit; subst b.
    + destruct Hx as [<- _]. assert (f ∈ own_functors w a o) as Hf by by apply elem_of_functors.
      rewrite Hq in Hf. by apply elem_of_nil in Hf.
    + destruct Hx as [-> _]. done.
Qed.

(** After a pass of its own loop, nothing is left for it there. *)
Lemma pass_lets_go w w' a o :
  world_inv w -> world_inv w' -> idle (loop_of o) w -> idle (loop_of o) w' ->
  keeps_closed (swapped (loop_of o) w) w' ->
  objs w !! a = Some o -> NClose ∈ notes (o_tcp o) -> ~ removing w a ->
  legal_step w' (WRelease a)
  /\ exists o', objs w' !! a = Some o' /\ o_conn o' = o_conn o
       /\ forall fd ev, Poller.interest (kernel (reactor (loops w' (loop_of o)))) fd
                        <> Some (ev, o_chan o').
Proof.
  intros I I' [_ Hb] [_ Hb'] Kc Ho Hn Hr.
  assert (~ removing (swapped (loop_of o) w) a) as Hr1
    by (unfold removing; rewrite swapped_todo by done; exact Hr).
  destruct (kc_objs _ _ Kc a o Ho Hn) as (o' & Ho' & He & Hn' & Hq).
  assert (loop_of o' = loop_of o) as Hl by (unfold loop_of; by rewrite He).
  pose proof (not_removing _ _ a o Kc Ho Hn Hr1) as Hr2.
  assert (own_functors w' a o' = []) as Hf.
  { apply functors_none. intros f. rewrite Hl. unfold todo. rewrite Hb'. simpl. intros Hin.
    destruct (Hq _ _ Hin eq_refl) as [Hx|[_ ?]]; [|done]. rewrite swapped_queue in Hx.
    by apply elem_of_nil in Hx. }
  pose proof (closed_releasable w' a o' I' Ho' Hn' Hr2 Hf) as Hrel. split; [done|].
  exists o'. split; [done|]. split; [done|]. intros fd ev. rewrite <- Hl.
  destruct Hrel as (o2 & Ho2 & Hm & Hh). rewrite Ho' in Ho2. injection Ho2 as <-.
  by apply (released_nowhere w' a o').
Qed.
End pass.

(** ** The theorems *)

(** The loops before their first poll: their own channels and, on the server's
    loop, the acceptor's, on descriptors of their own. *)
Definition server_world {K} (rs : addr -> Reactor K) (s : TcpServer.TcpServer) : World K :=
  mkWorld (fun l => mkLoop (rs l) [] [] []) ∅ s.

Definition system_reactors {own_fds : LoopFds} {K} `{EpollKernel K} (b : addr) (rs : addr -> Reactor K) : Prop :=
  forall l, reactor_ok (rs l)
  /\ (forall p c, chans (rs l) !! p = Some c -> system_channel b l c)
  /\ (forall p q c d, chans (rs l) !! p = Some c -> chans (rs l) !! q = Some d ->
        fd_ c = fd_ d -> p = q).

Abbreviation server_at := TcpServer.server_at.

Lemma server_world_inv {own_fds : LoopFds} {K} `{EpollKernelLaws K} (rs : addr -> Reactor K) loop listenAddr nameArg
    garbage n startLoop cb :
  system_reactors loop rs -> 0 <= Sockets.sin_port listenAddr < 65536 ->
  world_inv (server_world rs (server_at loop listenAddr nameArg garbage n startLoop cb)).
Proof.
  intros Hr Hp. split; simpl; try done.
  - intros l. apply Hr.
  - intros l. apply Hr.
  - intros l p c Hc. right. unfold base. simpl.
    assert (TcpServer.loop_ (server_at loop listenAddr nameArg garbage n startLoop cb) = loop) as ->
      by (unfold TcpServer.server_at, TcpServer.start; by destruct (_ =? 0)).
    by eapply Hr.
  - by apply TcpServer.server_at_inv.
  - intros c Hc. exfalso. unfold TcpServer.established, TcpServer.server_at, TcpServer.start in Hc.
    destruct (_ =? 0) in Hc; simpl in Hc; set_solver.
  - by intros l it ?%elem_of_nil.
  - constructor.
  - constructor.
  - by intros l p ?%elem_of_nil.
Qed.

(** The theorems do not say which descriptors the loops own ([ServerFds] does). *)
#[local] Instance any_fd : LoopFds := fun _ => True.

Section claims.
Context {K : Type} `{EpollKernelLaws K}.
Context (sys_write : addr -> nat -> bool -> bytes -> write_result).
Context (conn_cb msg_cb : UserCb) (wc_cb : option UserCb).
Context (user : UserCb -> TcpConnection (Reactor K) -> list api).

Abbreviation exec := (exec_step sys_write conn_cb msg_cb wc_cb user).
Abbreviation legal := (legal_run sys_write conn_cb msg_cb wc_cb user).

(** C1. The whole server, on its own loop and any number of threads' loops, is memory
    safe in every interleaving with this discipline.  startRead is called by a
    connection's own loop only, and neither it nor stopRead after the close;
    connectDestroyed is left to the server; another thread gets a connection once it is
    established, and what it does after finding it open (test, store and queueing may
    come apart) it does in time: the store of kDisconnecting, and the queueing of a
    functor with only a this pointer, come before the loop closes the connection;
    forceClose may queue later.  SIGPIPE is ignored.  (The Examples below break these rules.)  Then no step
    uses a destroyed object or aborts (the only faults are a buffer that overflows, and
    2^31 connections): functors with only a this pointer run before their connection is
    destroyed, on its own loop; poller, channels and kernel agree on every loop; a
    connection that is let go of is registered nowhere, and each live one keeps its
    stream in order. *)
Theorem server_safe (rs : addr -> Reactor K) loop listenAddr nameArg garbage n startLoop cb es
    (Hwrite : forall a, write_ok (sys_write a)) (Huser : well_behaved user)
    (Hr : system_reactors loop rs) (Hport : 0 <= Sockets.sin_port listenAddr < 65536)
    (Hl : legal (server_world rs (server_at loop listenAddr nameArg garbage n startLoop cb)) es) :
  wp world_fault (fun w =>
      (forall l, reactor_ok (reactor (loops w l)))
      /\ (forall l a f, Run a f ∈ todo (loops w l) ->
            exists o, objs w !! a = Some o /\ loop_of o = l)
      /\ (forall a, legal_step w (WRelease a) -> exists o, objs w !! a = Some o
            /\ forall fd ev, Poller.interest (kernel (reactor (loops w (loop_of o)))) fd
                             <> Some (ev, o_chan o))
      /\ (forall a o, objs w !! a = Some o ->
            wire (o_tcp o) ++ content (outputBuffer_ (o_tcp o)) = accepted (o_tcp o)))
    (mfold exec (server_world rs (server_at loop listenAddr nameArg garbage n startLoop cb)) es).
Proof.
  eapply wp_mono; [apply run_world_safe; [done|done|by apply server_world_inv|done]|].
  intros w I. split; [apply I|]. split_and!.
  - intros l a f Hin. destruct (wi_todo _ _ I l _ Hin) as (o & Ho & Hl' & _). by exists o.
  - intros a (o & Ho & Hm & Hh). exists o. split; [done|]. by apply (released_nowhere w a o).
  - intros a o Ho. destruct (wi_inv _ _ I a o ltac:(done) Ho) as [[Is _] _ _].
    pose proof (v_stream _ _ Is) as Hs. unfold at_rest in Hs. by case_decide.
Qed.

(** C3. One loop per thread: whatever a loop's own thread does next in such a run, it
    changes of any other loop nothing but the end of its queue and the channels that
    exist (of connections just made for it).  The other loop's poller, its active
    channels, the functors it is running and the state of its connections stay as they
    are; and the server's map and pool change on the thread of the server's loop only. *)
Theorem loops_confined (rs : addr -> Reactor K) loop listenAddr nameArg garbage n startLoop cb
    es e
    (Hwrite : forall a, write_ok (sys_write a)) (Huser : well_behaved user)
    (Hr : system_reactors loop rs) (Hport : 0 <= Sockets.sin_port listenAddr < 65536)
    (Hl : legal (server_world rs (server_at loop listenAddr nameArg garbage n startLoop cb)) es) :
  wp world_fault (fun w => legal_step w e ->
      wp world_fault (fun w' => forall l, step_loop w e = Some l ->
        (forall l', l' <> l ->
           active (loops w' l') = active (loops w l')
           /\ batch (loops w' l') = batch (loops w l')
           /\ (exists q, queue (loops w' l') = queue (loops w l') ++ q)
           /\ channels_ (reactor (loops w' l')) = channels_ (reactor (loops w l'))
           /\ kernel (reactor (loops w' l')) = kernel (reactor (loops w l'))
           /\ (forall p c, chans (reactor (loops w l')) !! p = Some c ->
                           chans (reactor (loops w' l')) !! p = Some c))
        /\ (forall a o, objs w !! a = Some o -> loop_of o <> l -> objs w' !! a = Some o)
        /\ (l <> base w -> srv w' = srv w)) (exec w e))
    (mfold exec (server_world rs (server_at loop listenAddr nameArg garbage n startLoop cb)) es).
Proof.
  eapply wp_mono; [apply run_world_safe; [done|done|by apply server_world_inv|done]|].
  intros w I He. eapply wp_mono; [by apply exec_step_safe|]. intros w' [_ Hc] l Hs.
  destruct (Hc l Hs) as [_ Hsp Hsrv Hob]. split; [|done]. intros l' Hne.
  destruct (Hsp l' Hne) as [? ? ? ? (? & _ & ?)]. done.
Qed.

(** C2. The server's map is the set of its open connections: at every moment of such a
    run a connection is in the map, under its name, exactly when its object is alive
    and it is not disconnected, or it is but removeConnectionInLoop has not run yet on
    the server's loop, where it is queued. *)
Theorem map_is_open_connections (rs : addr -> Reactor K) loop listenAddr nameArg garbage n
    startLoop cb es
    (Hwrite : forall a, write_ok (sys_write a)) (Huser : well_behaved user)
    (Hr : system_reactors loop rs) (Hport : 0 <= Sockets.sin_port listenAddr < 65536)
    (Hl : legal (server_world rs (server_at loop listenAddr nameArg garbage n startLoop cb)) es) :
  wp world_fault (fun w => forall nm c,
      TcpServer.connections_ (srv w) !! nm = Some c <->
      nm = TcpServer.c_name c /\ exists a o, objs w !! a = Some o /\ o_conn o = c
        /\ (state_ (o_tcp o) <> kDisconnected \/ Remove a ∈ todo (loops w (base w))))
    (mfold exec (server_world rs (server_at loop listenAddr nameArg garbage n startLoop cb)) es).
Proof.
  eapply wp_mono; [apply run_world_safe; [done|done|by apply server_world_inv|done]|].
  intros w I nm c. rewrite (TcpServer.s_map _ (wi_srv _ _ I)). split.
  - intros (-> & He & Hd). split; [done|]. destruct (wi_conns _ _ I c He Hd) as (a & o & Ho & <-).
    exists a, o. split_and!; [done..|]. pose proof (wi_objs _ _ I _ _ Ho) as Ow.
    destruct (decide (state_ (o_tcp o) = kDisconnected)) as [Hs|?]; [right|by left].
    destruct (proj1 (oo_map _ _ _ Ow) (oo_told _ _ _ Ow Hs)); done.
  - intros (-> & a & o & Ho & <- & Hs). pose proof (wi_objs _ _ I _ _ Ho) as Ow.
    split; [done|]. split; [apply Ow|]. intros Hd. destruct Hs as [Hs|Hin].
    + apply Hs. apply (told_disconnected None w a); [done..|]. apply (oo_map _ _ _ Ow). by left.
    + destruct (wi_todo _ _ I _ _ Hin) as (o' & Ho' & _ & _ & _ & Hnd). simpl in Ho'.
      by simplify_eq.
Qed.

(** C4. Closed connections go.  One pass of doPendingFunctors of the server's loop and
    then one of a connection's own loop, over the functors then queued, are enough:
    they run without a use of a destroyed object, and after them no functor and no
    entry of the server's map holds any connection of that loop that was closed before
    them, so that nothing in the library keeps it alive, and its channel is registered
    nowhere. *)
Theorem closed_connections_go (rs : addr -> Reactor K) loop listenAddr nameArg garbage n
    startLoop cb es l
    (Hwrite : forall a, write_ok (sys_write a)) (Huser : well_behaved user)
    (Hr : system_reactors loop rs) (Hport : 0 <= Sockets.sin_port listenAddr < 65536)
    (Hl : legal (server_world rs (server_at loop listenAddr nameArg garbage n startLoop cb)) es) :
  wp world_fault (fun w => idle (base w) w -> idle l w ->
      wp overflow (fun w1 => wp overflow (fun w2 =>
          forall a o, objs w !! a = Some o -> loop_of o = l -> state_ (o_tcp o) = kDisconnected ->
            legal_step w2 (WRelease a)
            /\ exists o', objs w2 !! a = Some o' /\ o_conn o' = o_conn o
                 /\ forall fd ev, Poller.interest (kernel (reactor (loops w2 l))) fd
                                  <> Some (ev, o_chan o'))
        (mfold exec w1 (pass l w1)))
      (mfold exec w (pass (base w) w)))
    (mfold exec (server_world rs (server_at loop listenAddr nameArg garbage n startLoop cb)) es).
Proof.
  eapply wp_mono; [apply run_world_safe; [done|done|by apply server_world_inv|done]|].
  intros w I Hb Hi. eapply wp_mono; [by apply pass_safe|]. intros w1 (I1 & Hb1 & C1 & K1).
  assert (idle l w1) as Hi1.
  { destruct (decide (l = base w)) as [->|Hne]; [done|].
    destruct (cf_loops _ _ _ C1 l Hne) as [E1 E2 _ _ _]. unfold idle. by rewrite E1, E2. }
  assert (idle (base w1) w1) as Hb1' by (by rewrite (cf_base _ _ _ C1)).
  eapply wp_mono; [by apply pass_safe|]. intros w2 (I2 & Hi2 & _ & K2) a o Ho <- Hs.
  pose proof (oo_told _ _ _ (wi_objs _ _ I _ _ Ho) Hs) as Hn.
  destruct (kc_objs _ _ K1 a o Ho Hn) as (o1 & Ho1 & He1 & Hn1 & _).
  pose proof (pass_removes w w1 a o Hb Hb1' K1 Ho Hn) as Hr1.
  assert (loop_of o1 = loop_of o) as Hl1 by (unfold loop_of; by rewrite He1).
  rewrite <- Hl1 in *. rewrite <- He1. by apply (pass_lets_go w1 w2 a o1).
Qed.

(** C5. Accepted connections start: one pass of doPendingFunctors of its loop is enough
    for a connection that newConnection has sent there.  After it no connection that
    was on that loop before is still connecting. *)
Theorem new_connections_start (rs : addr -> Reactor K) loop listenAddr nameArg garbage n
    startLoop cb es l
    (Hwrite : forall a, write_ok (sys_write a)) (Huser : well_behaved user)
    (Hr : system_reactors loop rs) (Hport : 0 <= Sockets.sin_port listenAddr < 65536)
    (Hl : legal (server_world rs (server_at loop listenAddr nameArg garbage n startLoop cb)) es) :
  wp world_fault (fun w => idle l w ->
      wp overflow (fun w' => forall a o, objs w' !! a = Some o -> loop_of o = l ->
          state_ (o_tcp o) <> kConnecting)
      (mfold exec w (pass l w)))
    (mfold exec (server_world rs (server_at loop listenAddr nameArg garbage n startLoop cb)) es).
Proof.
  eapply wp_mono; [apply run_world_safe; [done|done|by apply server_world_inv|done]|].
  intros w I Hi. eapply wp_mono; [by apply pass_safe|]. intros w' (I' & [_ Hb'] & _ & Kc) a o Ho <- Hs.
  destruct (co_start _ _ _ (wi_inv _ _ I' _ _ ltac:(done) Ho) Hs) as (_ & _ & Hf).
  assert (FConnectEstablished ∈ own_functors w' a o) as Hin by (rewrite Hf; by left).
  apply elem_of_functors in Hin. unfold todo in Hin. rewrite Hb' in Hin.
  apply (kc_start _ _ Kc) in Hin. rewrite swapped_queue in Hin. by apply elem_of_nil in Hin.
Qed.
End claims.

(** ** Concrete runs *)

(** [legal_run] as a test. *)
Section legal_test.
Context {K : Type} `{EpollKernel K}.
Context (sys_write : addr -> nat -> bool -> bytes -> write_result).
Context (conn_cb msg_cb : UserCb) (wc_cb : option UserCb).
Context (user : UserCb -> TcpConnection (Reactor K) -> list api).
Implicit Types (w : World K).

Definition watchedb (evs : list (Z * addr)) (r : Reactor K) : bool :=
  (zlen evs <=? eventListSize r) && bool_decide (NoDup (map snd evs))
  && forallb (fun '(ev, p) =>
       match c ← chans r !! p; Poller.interest (kernel r) (fd_ c) with
       | Some (mask, q) =>
           (q =? p) && (Z.land ev (Z.lnot (Z.lor mask (Z.lor POLLERR POLLHUP))) =? 0)
       | None => false
       end) evs.

Definition free_placesb (sockfd : Z) (a chan : addr) w : bool :=
  bool_decide (objs w !! a = None)
  && match EventLoopThreadPool.getNextLoop (TcpServer.threadPool_ (srv w)) with
     | Ok (l, _) => bool_decide (chans (reactor (loops w l)) !! chan = None)
         && forallb (fun '(_, c) => negb (fd_ c =? sockfd))
              (map_to_list (chans (reactor (loops w l))))
     | Fault _ => true
     end.
Definition freshb (sockfd : Z) (a chan : addr) w : bool :=
  watchable K sockfd && free_placesb sockfd a chan w.

Definition late_apib (a : api) : bool :=
  match a with AStartRead | AStopRead | AQueueDestroyed => false | _ => true end.
Definition calm_apib (in_loop : bool) (a : api) : bool :=
  match a with AQueueDestroyed => false | AStartRead => in_loop | _ => true end.

Definition calmb (f : Functor) : bool :=
  match f with
  | FConnectEstablished | FConnectDestroyed | FStartReadInLoop => false
  | _ => true
  end.

Definition idleb l w : bool :=
  bool_decide (active (loops w l) = []) && bool_decide (batch (loops w l) = []).

Definition legal_stepb w (e : step) : bool :=
  match e with
  | WPoll l evs _ => idleb l w && watchedb evs (reactor (loops w l))
  | WDispatch l i _ =>
      bool_decide (batch (loops w l) = [])
      && forallb (fun '(_, o) =>
           negb ((loop_of o =? l) && bool_decide (head (active (loops w l)) = Some (o_chan o)))
           || match in_read i with
              | ReadvError _ => true
              | ReadvBytes d => zlen d <=? readv_room (inputBuffer_ (o_tcp o))
              end) (map_to_list (objs w))
      && match in_accept i with Some (sockfd, a, chan) => freshb sockfd a chan w | None => true end
  | WSwap l => idleb l w
  | WRun l => bool_decide (active (loops w l) = [])
  | WCall a in_loop call =>
      match objs w !! a with
      | Some o => negb (bool_decide (state_ (o_tcp o) = kConnecting)) && calm_apib in_loop call
                  && (negb (bool_decide (state_ (o_tcp o) = kDisconnected)) || late_apib call)
      | None => false
      end
  | WStore a =>
      match objs w !! a with Some o => is_open (state_ (o_tcp o)) | None => false end
  | WPost a f =>
      match objs w !! a with
      | Some o => negb (bool_decide (state_ (o_tcp o) = kConnecting)) && postable f && calmb f
                  && (negb (this_only f) || negb (bool_decide (state_ (o_tcp o) = kDisconnected)))
      | None => false
      end
  | WRelease a =>
      match objs w !! a with
      | Some o =>
          forallb (fun '(_, c) => negb (bool_decide (c = o_conn o)))
            (map_to_list (TcpServer.connections_ (srv w)))
          && forallb (fun it => negb (item_conn it =? a) || negb (item_holds it))
               (todo (loops w (loop_of o)) ++ todo (loops w (base w)))
      | None => false
      end
  end.

Fixpoint legal_runb w (es : list step) : bool :=
  match es with
  | [] => true
  | e :: es => legal_stepb w e
      && match exec_step sys_write conn_cb msg_cb wc_cb user w e with
         | Ok w' => legal_runb w' es
         | Fault _ => true
         end
  end.

Lemma watchedb_ok evs (r : Reactor K) : watchedb evs r = true -> watched evs r.
Proof.
  unfold watchedb. rewrite !andb_true_iff, Z.leb_le, bool_decide_eq_true, forallb_forall.
  intros [[Hl Hn] Hf].
  assert (forall ev p, (ev, p) ∈ evs -> exists fd mask,
    Poller.interest (kernel r) fd = Some (mask, p)
    /\ Z.land ev (Z.lnot (Z.lor mask (Z.lor POLLERR POLLHUP))) = 0) as Hw.
  { intros ev p Hin%list_elem_of_In. specialize (Hf _ Hin). simpl in Hf.
    destruct (chans r !! p) as [c|]; [|done]. simpl in Hf.
    destruct (Poller.interest (kernel r) (fd_ c)) as [[mask q]|] eqn:E; [|done].
    apply andb_true_iff in Hf as [->%Z.eqb_eq ?%Z.eqb_eq]. by exists (fd_ c), mask. }
  split; [|done]. split; [done|]. split; [done|]. intros ev p Hin.
  destruct (Hw ev p Hin) as (fd & mask & ? & _). by exists fd, mask.
Qed.

Lemma free_placesb_ok sockfd a chan w : free_placesb sockfd a chan w = true ->
  objs w !! a = None
  /\ forall l p, EventLoopThreadPool.getNextLoop (TcpServer.threadPool_ (srv w)) = Ok (l, p) ->
       chans (reactor (loops w l)) !! chan = None
       /\ forall q c, chans (reactor (loops w l)) !! q = Some c -> fd_ c <> sockfd.
Proof.
  unfold free_placesb. rewrite andb_true_iff, bool_decide_eq_true. intros [Ha Hx].
  split; [done|]. intros l p Hn. rewrite Hn in Hx.
  rewrite andb_true_iff, bool_decide_eq_true, forallb_forall in Hx. destruct Hx as [Hc Hf].
  split; [done|]. intros q c Hq. specialize (Hf (q, c)).
  rewrite <- list_elem_of_In, elem_of_map_to_list in Hf. specialize (Hf Hq).
  by apply negb_true_iff, Z.eqb_neq in Hf.
Qed.

Lemma freshb_ok sockfd a chan w : freshb sockfd a chan w = true -> fresh sockfd a chan w.
Proof. unfold freshb. by intros [? [? ?]%free_placesb_ok]%andb_true_iff. Qed.

Lemma legal_stepb_ok w e : legal_stepb w e = true -> legal_step w e.
Proof.
  destruct e as [l evs now|l i now|l|l|a in_loop call|a|a f|a]; simpl; unfold idleb;
    rewrite ?andb_true_iff, ?bool_decide_eq_true; try done.
  - intros [[? ?] ?]. split_and!; [done..|by apply watchedb_ok].
  - intros [[? Hf] Ha]. split_and!; [done| |].
    + intros a o Ho Hl Hh. rewrite forallb_forall in Hf. specialize (Hf (a, o)).
      rewrite <- list_elem_of_In, elem_of_map_to_list in Hf. specialize (Hf Ho). simpl in Hf.
      rewrite bool_decide_true, (proj2 (Z.eqb_eq _ _) Hl) in Hf by done. simpl in Hf.
      destruct (in_read i); [done|]. by apply Z.leb_le.
    + intros sockfd a chan Hin. rewrite Hin in Ha. by apply freshb_ok.
  - destruct (objs w !! a) as [o|]; [|done].
    rewrite !andb_true_iff, negb_true_iff, bool_decide_eq_false. intros [[Hs Hc] Hl].
    exists o. split_and!; [done..| |].
    + unfold calm_api. destruct call, in_loop; try done; split; try done; by intros.
    + intros Hd. rewrite bool_decide_true in Hl by done. simpl in Hl.
      unfold late_api. by destruct call.
  - destruct (objs w !! a) as [o|]; [|done]. intros ?. by exists o.
  - destruct (objs w !! a) as [o|]; [|done].
    rewrite !andb_true_iff, negb_true_iff, bool_decide_eq_false. intros [[[Hs Hp] Hc] Ht].
    exists o. split_and!; [done..|by destruct f|]. intros Hf. rewrite Hf in Ht; simpl in Ht.
    by rewrite negb_true_iff, bool_decide_eq_false in Ht.
  - destruct (objs w !! a) as [o|]; [|done]. rewrite andb_true_iff, !forallb_forall.
    intros [Hm Hq]. exists o. split; [done|]. split.
    + intros n Hn. specialize (Hm (n, o_conn o)).
      rewrite <- list_elem_of_In, elem_of_map_to_list in Hm. specialize (Hm Hn).
      by rewrite bool_decide_true in Hm.
    + intros l it Hl Hin <-. specialize (Hq it).
      rewrite <- list_elem_of_In, elem_of_app, Z.eqb_refl in Hq. simpl in Hq.
      apply negb_true_iff, Hq. destruct Hl as [-> | ->]; [by left|by right].
Qed.

Lemma threads_runb_ok es w :
  legal_runb w es = true -> legal_run sys_write conn_cb msg_cb wc_cb user w es.
Proof.
  revert w. induction es as [|e es IH]; intros w; simpl; [done|].
  rewrite andb_true_iff. intros [He Hes]. split; [by apply legal_stepb_ok|].
  intros w' Hw. rewrite Hw in Hes. by apply IH.
Qed.
End legal_test.

(** An echo server that greets, with two threads, on a loop (50) whose acceptor listens
    on descriptor 4. *)
Definition greet (cb : UserCb) (c : TcpConnection DemoW) : list api :=
  match cb, state_ c with
  | 1%nat, kConnected => [ASend (txt "hi ")]
  | 2%nat, _ => [ASendInput]
  | _, _ => []
  end.

Lemma greet_ok : well_behaved greet.
Proof.
  intros cb c. unfold greet. destruct cb as [|[|[|cb]]], (state_ c); set_solver.
Qed.

Definition listening : Channel := setReadCallback (CbAcceptorRead 70) (Channel_ctor 4).

Definition listening_reactor : DemoW :=
  match enableReading 100 (put 100 listening (EpollPoller_ctor ∅)) with
  | Ok r => r
  | Fault _ => EpollPoller_ctor ∅
  end.

Definition demo_reactors (l : addr) : DemoW :=
  if l =? 50 then listening_reactor else EpollPoller_ctor ∅.

Lemma demo_reactors_at (fds : LoopFds) :
  loop_fd (LoopFds := fds) 4 -> system_reactors (own_fds := fds) 50 demo_reactors.
Proof.
  intros Hown l. unfold demo_reactors. destruct (Z.eqb_spec l 50) as [->|_].
  - assert (reactor_ok (put 100 listening (EpollPoller_ctor (∅ : gmap Z (Z * addr))))) as Hr
      by (apply put_fresh_ok; [apply EpollPoller_ctor_ok|..]; done).
    destruct (change_events_keeps ev_enableReading 100 listening _ Hr (chans_put _ _ _))
      as (r & Hx & Hr' & _); [by intros _|].
    assert (listening_reactor = r) as Hd by (unfold listening_reactor, enableReading; by rewrite Hx).
    assert (chans listening_reactor = {[ 100 := updated 3 listening ]}) as Hc
      by (vm_compute; reflexivity).
    split; [by rewrite Hd|]. rewrite Hc. split.
    + intros p c [_ <-]%lookup_singleton_Some. by split.
    + intros p q c d [<- _]%lookup_singleton_Some [<- _]%lookup_singleton_Some. done.
  - split; [by apply EpollPoller_ctor_ok|]. done.
Qed.

Lemma demo_reactors_ok : system_reactors 50 demo_reactors.
Proof. by apply demo_reactors_at. Qed.

Definition demo_addr : Sockets.InetAddress := Sockets.InetAddress_ctor 8080 false false.

Definition demo_world : World (gmap Z (Z * addr)) :=
  server_world demo_reactors
    (server_at 50 demo_addr (txt "echo") 0 2 (fun i _ => 1000 + i) false).

Definition nothing : input := mkInput (ReadvError 11) None [].
Definition accepts (sockfd a chan : Z) : input :=
  mkInput (ReadvError 11) (Some (sockfd, a, chan)) [].
Definition receives (d : bytes) : input := mkInput (ReadvBytes d) None [].

(** Two connections are accepted and given to the two threads' loops (1000 and 1001).
    The first is greeted and echoed to, closed by its peer while a reply still waits,
    taken out of the map on the server's loop and destroyed on its own; a third
    connection gets its loop, its descriptor and its addresses. *)
Definition demo_accept : list step :=
  [WPoll 50 [(POLLIN, 100)] invalid; WDispatch 50 (accepts 7 500 300) invalid].
Definition demo_open : list step :=
  demo_accept
  ++ [WSwap 1000; WPoll 50 [(POLLIN, 100)] invalid; WRun 1000;
      WDispatch 50 (accepts 8 501 301) invalid; WPoll 1000 [(POLLIN, 300)] invalid;
      WSwap 1001; WDispatch 1000 (receives (txt "ping")) invalid;
      WCall 500 false (ASend (txt "!")); WRun 1001; WSwap 1000; WRun 1000].
Definition demo_close : list step :=
  [WPoll 1000 [(Z.lor POLLIN POLLOUT, 300)] invalid; WDispatch 1000 (receives []) invalid].
Definition demo_destroy : list step :=
  [WSwap 50; WRun 50; WSwap 1000; WRun 1000; WRelease 500].
Definition demo_again : list step :=
  [WPoll 50 [(POLLIN, 100)] invalid; WDispatch 50 (accepts 7 500 300) invalid].
Definition demo_steps : list step := demo_open ++ demo_close ++ demo_destroy ++ demo_again.

Abbreviation demo_exec := (exec_step (fun _ => slow_write) 1%nat 2%nat None greet).

Lemma threads_legal es :
  legal_runb (fun _ => slow_write) 1%nat 2%nat None greet demo_world es = true ->
  legal_run (fun _ => slow_write) 1%nat 2%nat None greet
    (server_world demo_reactors
       (server_at 50 demo_addr (txt "echo") 0 2 (fun i _ => 1000 + i) false)) es.
Proof. apply threads_runb_ok. Qed.

Lemma server_safe_witness :
  exists w, mfold demo_exec demo_world demo_steps = Ok w /\ reactor_ok (reactor (loops w 1000))
    /\ is_Some (objs w !! 500).
Proof.
  pose proof (server_safe (fun _ => slow_write) 1%nat 2%nat None greet demo_reactors 50
    demo_addr (txt "echo") 0 2 (fun i _ => 1000 + i) false demo_steps (fun _ => slow_write_ok)
    greet_ok demo_reactors_ok ltac:(vm_compute; split; congruence)
    (threads_legal demo_steps ltac:(vm_compute; reflexivity))) as Hw.
  fold demo_world in Hw.
  assert ((fun w => bool_decide (is_Some (objs w !! 500))) <$>
    mfold demo_exec demo_world demo_steps = Ok true) as Hx by (vm_compute; reflexivity).
  destruct (mfold demo_exec demo_world demo_steps) as [w|f]; [|discriminate Hx].
  exists w. split; [reflexivity|]. split; [apply Hw|].
  simpl in Hx. injection Hx as Hx. by apply bool_decide_eq_true in Hx.
Defined.

(** The thread of loop 1000 hears of a close: the server's loop gets the removal. *)
Lemma loops_confined_witness :
  let e := WDispatch 1000 (receives []) invalid in
  exists w w', mfold demo_exec demo_world (demo_open ++ take 1 demo_close) = Ok w
    /\ demo_exec w e = Ok w' /\ queue (loops w' 50) = queue (loops w 50) ++ [Remove 500]
    /\ srv w' = srv w /\ active (loops w' 1001) = active (loops w 1001).
Proof.
  set (es := demo_open ++ take 1 demo_close). intros e.
  pose proof (loops_confined (fun _ => slow_write) 1%nat 2%nat None greet demo_reactors 50
    demo_addr (txt "echo") 0 2 (fun i _ => 1000 + i) false es e (fun _ => slow_write_ok)
    greet_ok demo_reactors_ok ltac:(vm_compute; split; congruence)
    (threads_legal es ltac:(vm_compute; reflexivity))) as Hw.
  fold demo_world in Hw.
  assert ((fun w => (legal_stepb w e, base w)) <$> mfold demo_exec demo_world es = Ok (true, 50))
    as Hx by (vm_compute; reflexivity).
  assert ((w ← mfold demo_exec demo_world es; w' ← demo_exec w e;
           Ok (queue (loops w 50), queue (loops w' 50))) = Ok ([], [Remove 500]))
    as Hq by (vm_compute; reflexivity).
  destruct (mfold demo_exec demo_world es) as [w|f]; [|discriminate Hx]. simpl in Hx.
  injection Hx as Hl Hb. specialize (Hw (legal_stepb_ok w e Hl)).
  change ((w' ← demo_exec w e; Ok (queue (loops w 50), queue (loops w' 50)))
    = Ok ([], [Remove 500])) in Hq.
  destruct (demo_exec w e) as [w'|f] eqn:E; [|discriminate Hq]. simpl in Hq.
  injection Hq as Hq1 Hq2. destruct (Hw 1000 eq_refl) as (Hloops & _ & Hsrv).
  exists w, w'. split; [reflexivity|]. split; [exact E|]. split; [by rewrite Hq1, Hq2|].
  split; [apply Hsrv; by rewrite Hb|]. by apply (Hloops 1001).
Defined.

Lemma map_is_open_connections_witness :
  exists w c, mfold demo_exec demo_world demo_steps = Ok w
    /\ TcpServer.connections_ (srv w) !! txt "echo-0.0.0.0:8080#3" = Some c
    /\ (forall nm, TcpServer.connections_ (srv w) !! nm = Some c -> exists a o,
          objs w !! a = Some o /\ o_conn o = c)
    /\ TcpServer.connections_ (srv w) !! txt "echo-0.0.0.0:8080#1" = None.
Proof.
  pose proof (map_is_open_connections (fun _ => slow_write) 1%nat 2%nat None greet demo_reactors 50
    demo_addr (txt "echo") 0 2 (fun i _ => 1000 + i) false demo_steps (fun _ => slow_write_ok)
    greet_ok demo_reactors_ok ltac:(vm_compute; split; congruence)
    (threads_legal demo_steps ltac:(vm_compute; reflexivity))) as Hw.
  fold demo_world in Hw.
  assert ((fun w => (TcpServer.connections_ (srv w) !! txt "echo-0.0.0.0:8080#3",
                     TcpServer.connections_ (srv w) !! txt "echo-0.0.0.0:8080#1")) <$>
    mfold demo_exec demo_world demo_steps
    = Ok (Some (TcpServer.mkConn (txt "echo-0.0.0.0:8080#3") 7 1000), None)) as Hx
    by (vm_compute; reflexivity).
  destruct (mfold demo_exec demo_world demo_steps) as [w|f]; [|discriminate Hx].
  simpl in Hx. injection Hx as Hx1 Hx2. eexists w, _. split; [reflexivity|].
  split; [exact Hx1|]. split; [|exact Hx2]. intros nm Hn.
  apply (Hw nm) in Hn as (_ & a & o & Ho & Hc & _). by exists a, o.
Defined.

(** After the peer's end of file, a pass of the server's loop and one of the
    connection's make it free to go. *)
Lemma closed_connections_go_witness :
  exists w w1 w2, mfold demo_exec demo_world (demo_open ++ demo_close) = Ok w
    /\ mfold demo_exec w [WSwap 50; WRun 50] = Ok w1
    /\ mfold demo_exec w1 [WSwap 1000; WRun 1000] = Ok w2
    /\ legal_step w2 (WRelease 500).
Proof.
  pose proof (closed_connections_go (fun _ => slow_write) 1%nat 2%nat None greet demo_reactors 50
    demo_addr (txt "echo") 0 2 (fun i _ => 1000 + i) false (demo_open ++ demo_close) 1000
    (fun _ => slow_write_ok) greet_ok demo_reactors_ok ltac:(vm_compute; split; congruence)
    (threads_legal (demo_open ++ demo_close) ltac:(vm_compute; reflexivity))) as Hw.
  fold demo_world in Hw.
  assert ((fun w => (idleb 50 w, idleb 1000 w, length (queue (loops w 50)),
      (fun o => (loop_of o, state_ (o_tcp o))) <$> objs w !! 500))
    <$> mfold demo_exec demo_world (demo_open ++ demo_close)
    = Ok (true, true, 1%nat, Some (1000, kDisconnected))) as Hx
    by (vm_compute; reflexivity).
  assert ((w ← mfold demo_exec demo_world (demo_open ++ demo_close);
           w1 ← mfold demo_exec w [WSwap 50; WRun 50];
           w2 ← mfold demo_exec w1 [WSwap 1000; WRun 1000];
           Ok (base w, length (queue (loops w1 1000)))) = Ok (50, 1%nat)) as Hok
    by (vm_compute; reflexivity).
  destruct (mfold demo_exec demo_world (demo_open ++ demo_close)) as [w|f]; [|discriminate Hx].
  simpl in Hx. injection Hx as Hb Hi Hq Ho.
  change ((w1 ← mfold demo_exec w [WSwap 50; WRun 50];
           w2 ← mfold demo_exec w1 [WSwap 1000; WRun 1000];
           Ok (base w, length (queue (loops w1 1000)))) = Ok (50, 1%nat)) in Hok.
  destruct (mfold demo_exec w [WSwap 50; WRun 50]) as [w1|f] eqn:E1; [|discriminate Hok].
  change ((w2 ← mfold demo_exec w1 [WSwap 1000; WRun 1000];
           Ok (base w, length (queue (loops w1 1000)))) = Ok (50, 1%nat)) in Hok.
  destruct (mfold demo_exec w1 [WSwap 1000; WRun 1000]) as [w2|f] eqn:E2; [|discriminate Hok].
  simpl in Hok. injection Hok as Hbase Hq1.
  unfold idleb in Hb, Hi. rewrite andb_true_iff, !bool_decide_eq_true in Hb, Hi.
  assert (idle (base w) w) as Hb' by (rewrite Hbase; exact Hb).
  specialize (Hw Hb' Hi). unfold pass in Hw. rewrite Hbase, Hq in Hw.
  change (replicate 1 (WRun 50)) with [WRun 50] in Hw. rewrite E1 in Hw. cbn beta iota delta [wp] in Hw.
  rewrite Hq1 in Hw. change (replicate 1 (WRun 1000)) with [WRun 1000] in Hw.
  rewrite E2 in Hw. exists w, w1, w2. split; [reflexivity|]. split; [exact E1|].
  split; [exact E2|]. destruct (objs w !! 500) as [o|] eqn:Eo; [|discriminate Ho].
  simpl in Ho. injection Ho as Hlo Hs. by destruct (Hw 500 o Eo Hlo Hs) as [Hrel _].
Defined.

(** The first connection waits for its loop's pass, which greets. *)
Lemma new_connections_start_witness :
  exists w w' o, mfold demo_exec demo_world demo_accept = Ok w
    /\ (state_ ∘ o_tcp) <$> objs w !! 500 = Some kConnecting
    /\ mfold demo_exec w [WSwap 1000; WRun 1000] = Ok w'
    /\ objs w' !! 500 = Some o /\ state_ (o_tcp o) <> kConnecting
    /\ accepted (o_tcp o) = txt "hi ".
Proof.
  pose proof (new_connections_start (fun _ => slow_write) 1%nat 2%nat None greet demo_reactors 50
    demo_addr (txt "echo") 0 2 (fun i _ => 1000 + i) false demo_accept 1000
    (fun _ => slow_write_ok) greet_ok demo_reactors_ok ltac:(vm_compute; split; congruence)
    (threads_legal demo_accept ltac:(vm_compute; reflexivity))) as Hw.
  fold demo_world in Hw.
  assert ((fun w => (idleb 1000 w, length (queue (loops w 1000)), (state_ ∘ o_tcp) <$> objs w !! 500))
    <$> mfold demo_exec demo_world demo_accept = Ok (true, 1%nat, Some kConnecting)) as Hx
    by (vm_compute; reflexivity).
  assert ((w ← mfold demo_exec demo_world demo_accept;
           w' ← mfold demo_exec w [WSwap 1000; WRun 1000];
           Ok ((fun o => (loop_of o, accepted (o_tcp o))) <$> objs w' !! 500))
    = Ok (Some (1000, txt "hi "))) as Hok by (vm_compute; reflexivity).
  destruct (mfold demo_exec demo_world demo_accept) as [w|f]; [|discriminate Hx].
  simpl in Hx. injection Hx as Hi Hq Hs.
  change ((w' ← mfold demo_exec w [WSwap 1000; WRun 1000];
           Ok ((fun o => (loop_of o, accepted (o_tcp o))) <$> objs w' !! 500))
    = Ok (Some (1000, txt "hi "))) in Hok.
  unfold idleb in Hi. rewrite andb_true_iff, !bool_decide_eq_true in Hi. specialize (Hw Hi).
  unfold pass in Hw. rewrite Hq in Hw. change (replicate 1 (WRun 1000)) with [WRun 1000] in Hw.
  destruct (mfold demo_exec w [WSwap 1000; WRun 1000]) as [w'|f] eqn:E; [|discriminate Hok].
  destruct (objs w' !! 500) as [o|] eqn:Eo; simpl in Hok; rewrite Eo in Hok; [|discriminate Hok].
  injection Hok as Hl Ha. exists w, w', o. split; [reflexivity|]. split; [exact Hs|].
  split; [exact E|]. split; [exact Eo|]. split; [|exact Ha]. by apply (Hw 500).
Defined.

(** What the legality of the calls leaves out is not safe.  stopRead from another
    thread, after the close, queues a functor with a this pointer, behind
    connectDestroyed, which is the last to hold the connection. *)
Example foreign_stopRead_dangles :
  mfold demo_exec demo_world
    (demo_open ++ demo_close ++ [WSwap 50; WRun 50; WCall 500 false AStopRead;
                                 WSwap 1000; WRun 1000; WRelease 500; WRun 1000])
  = Fault FUseAfterFree.
Proof. vm_compute. reflexivity. Qed.

(** stopRead on the loop's own thread, by somebody who still holds the connection
    after connectDestroyed, registers its channel again, with an empty mask, and the
    poller's map keeps the pointer when the channel is gone. *)
Example late_stopRead_registers :
  let calls := demo_open ++ demo_close
    ++ [WSwap 50; WRun 50; WSwap 1000; WRun 1000; WCall 500 true AStopRead] in
  (fun w => Poller.interest (kernel (reactor (loops w 1000))) 7) <$> mfold demo_exec demo_world calls
    = Ok (Some (0, 300))
  /\ (fun w => (channels_ (reactor (loops w 1000)) !! 7, chans (reactor (loops w 1000)) !! 300)) <$>
    mfold demo_exec demo_world (calls ++ [WRelease 500]) = Ok (Some 300, None).
Proof. split; vm_compute; reflexivity. Qed.

(** Without threads the one loop does everything: the new connection is established
    before newConnection returns, and its removal runs at once. *)
Example one_loop_runs :
  let w0 := server_world demo_reactors
    (server_at 50 demo_addr (txt "echo") 0 0 (fun i _ => 1000 + i) false) in
  let es := demo_accept ++ [WPoll 50 [(POLLIN, 300)] invalid; WDispatch 50 (receives []) invalid] in
  legal_runb (fun _ => slow_write) 1%nat 2%nat None greet w0 es = true
  /\ (fun w => (state_ ∘ o_tcp) <$> objs w !! 500) <$> mfold demo_exec w0 demo_accept
     = Ok (Some kConnected)
  /\ (fun w => queue (loops w 50)) <$> mfold demo_exec w0 es = Ok [Run 500 FConnectDestroyed].
Proof. split_and!; vm_compute; reflexivity. Qed.

(** Another thread's send finds the connection open, and queues sendInLoop after the
    close: the functor comes behind connectDestroyed with nothing but a this pointer. *)
Example late_send_dangles :
  mfold demo_exec demo_world
    (demo_open ++ demo_close ++ [WSwap 50; WRun 50; WPost 500 (FSendInLoop (txt "!"));
                                 WSwap 1000; WRun 1000; WRelease 500; WRun 1000])
  = Fault FUseAfterFree.
Proof. vm_compute. reflexivity. Qed.

(** Another thread's forceClose finds the connection open, and stores kDisconnecting after
    the close: the connection closes a second time, and its channel, disabled again, is
    back in the poller. *)
Example late_store_closes_twice :
  (fun w => (notes ∘ o_tcp <$> objs w !! 500,
             Poller.interest (kernel (reactor (loops w 1000))) 7)) <$>
  mfold demo_exec demo_world
    (demo_open ++ demo_close ++ [WStore 500; WPost 500 FForceCloseInLoop; WSwap 1000; WRun 1000])
  = Ok (Some [NConnection true; NMessage; NConnection false; NClose; NConnection false; NClose],
        Some (0, 300)).
Proof. vm_compute. reflexivity. Qed.

(** startRead of another thread, queued in time and run after the close: the socket is
    watched again, and its end of file closes the connection a second time. *)
Example foreign_startRead_closes_twice :
  (fun w => notes ∘ o_tcp <$> objs w !! 500) <$>
  mfold demo_exec demo_world
    (demo_open ++ [WPost 500 FStartReadInLoop] ++ demo_close
     ++ [WSwap 1000; WRun 1000; WPoll 1000 [(POLLIN, 300)] invalid;
         WDispatch 1000 (receives []) invalid])
  = Ok (Some [NConnection true; NMessage; NConnection false; NClose; NConnection false; NClose]).
Proof. vm_compute. reflexivity. Qed.

(** A run within the discipline: another thread's forceClose stores in time and queues
    after the close, and its stopRead, queued in time, runs after the close. *)
Example late_parts_legal :
  let es := demo_open ++ [WStore 500; WPost 500 FStopReadInLoop] ++ demo_close
    ++ [WPost 500 FForceCloseInLoop; WSwap 50; WRun 50; WSwap 1000; WRun 1000; WRun 1000; WRun 1000;
        WRelease 500] in
  legal_runb (fun _ => slow_write) 1%nat 2%nat None greet demo_world es = true
  /\ is_ok (mfold demo_exec demo_world es) = true.
Proof. split; vm_compute; reflexivity. Qed.
