(* ===== verification/ServerEnd.v ===== *)
(** The end of a server on its loops ([ServerLoops]): TcpServer::~TcpServer, on the
    thread of its loop.

    Each connection of the map is destroyed there and then if it lives on that loop,
    and gets connectDestroyed queued if it lives on another.  The members that are
    destroyed after it are modelled with their classes: [Acceptor.Acceptor_dtor] and,
    for the pool's threads, [EventLoopThread]. *)

From stdpp Require Import functions.
From S2P Require Import Prelude Buffer TimeStamp Channel Poller TcpConnection ConnEffects.
From S2P Require Import ServerLoops ServerInv ServerOps ServerSafe ServerDispatch ServerRuns.
From S2P Require EventLoopThreadPool.
From S2P Require TcpServer.

#[local] Existing Instance TcpServer.Conn_eq_dec.
#[local] Existing Instance any_fd.

Section destructor.
Context {K : Type} `{EpollKernel K}.
Context (sys_write : addr -> nat -> bool -> bytes -> write_result).
Context (user : UserCb -> TcpConnection (Reactor K) -> list api).
Implicit Types (w : World K).

(** The object an entry of the map points to. *)
Definition conn_addr (conn : TcpServer.Conn) w : option addr :=
  fst <$> head (filter (fun p => o_conn p.2 = conn) (map_to_list (objs w))).

(** The body of the loop of ~TcpServer, for one entry: the entry has been reset, and
    conn->getLoop()->runInLoop(connectDestroyed). *)
Definition destroy_conn w (conn : TcpServer.Conn) : outcome (World K) :=
  match conn_addr conn w with
  | None => Fault FUseAfterFree
  | Some a =>
      let ioLoop := TcpServer.c_loop conn in
      let w := set_srv (TcpServer.send_task ioLoop (TcpServer.TDestroyed conn) (srv w)) w in
      runInLoop (base w) ioLoop (Run a FConnectDestroyed)
        (conn_functor sys_write user a FConnectDestroyed) w
  end.

(** ~TcpServer() *)
Definition TcpServer_dtor w : outcome (World K) :=
  mfold destroy_conn (set_srv (TcpServer.set_connections ∅ (srv w)) w)
    (map snd (map_to_list (TcpServer.connections_ (srv w)))).
End destructor.

(** ** connectDestroyed of a connection in any state *)

Section one.
Context {K : Type} `{EpollKernelLaws K}.
Context (sys_write : addr -> nat -> bool -> bytes -> write_result).
Context (user : UserCb -> TcpConnection (Reactor K) -> list api).
Context (Hwrite : forall a, write_ok (sys_write a)) (Huser : well_behaved user).
Implicit Types (w : World K) (l a : addr) (o : Obj).

Lemma remove_channel_gone r0 ch p (c : TcpConnection (Reactor K)) :
  inv (H0 := framed_laws r0 ch) p c ->
  exists r', remove_channel p c = Ok (set_env r' c) /\ framed r0 ch p r'
    /\ exists x, chans r' !! p = Some x /\ index_ x = kNew.
Proof.
  intros [I _]. destruct (v_env _ _ I) as (Hr & (x & Hx & Hm & Hb) & Ho).
  destruct (remove_keeps p x _ Hr Hx Hm) as (r' & Hex & Hr' & Hx' & Ho' & _ & Hn).
  rewrite (binding_fd _ _ Hb) in Ho', Hn. unfold remove_channel. simpl. rewrite Hex. simpl.
  exists r'. split; [done|]. split; [|by eexists]. split; [done|]. split.
  - eexists. split; [exact Hx'|]. split; [intros _; simpl; by rewrite (binding_fd _ _ Hb)|].
    by rewrite <- Hb.
  - by eapply only_changes_trans.
Qed.

(** What a connection has heard of the end: it has been told if it was connected; if it
    was closing it has not, and its close callback has not been called.  Its timers are
    still there. *)
Record heard {W W'} (c : TcpConnection W) (c' : TcpConnection W') : Prop := {
  hd_open : state_ c = kConnected ->
    state_ c' = kDisconnected /\ life c' = [NConnection true; NConnection false];
  hd_rest : state_ c <> kConnected -> state_ c' = state_ c /\ notes c' = notes c;
  hd_delayed : delayed c' = delayed c;
}.

(** It leaves the poller; its callback is told if it was connected; no functor is
    queued and the close callback is not called. *)
Lemma connectDestroyed_ends r0 ch p a (c : TcpConnection (Reactor K)) :
  inv (H0 := framed_laws r0 ch) p c ->
  wp overflow (fun c' => framed r0 ch p (env c')
      /\ (exists x, chans (env c') !! p = Some x /\ index_ x = kNew)
      /\ pending c' = pending c /\ heard c c'
      /\ (NClose ∈ notes c' -> NClose ∈ notes c))
    (connectDestroyed p (sys_write a) (callbacks user) c).
Proof.
  intros Hi. unfold connectDestroyed. case_decide as Hs.
  - pose proof (close_down (H0 := framed_laws r0 ch) p (sys_write a) (Hwrite a) (callbacks user)
      (cbs_ok sys_write user Hwrite Huser) c Hi) as Hd. rewrite Hs in Hd. specialize (Hd eq_refl).
    assert (wp any_fault (fun c1 => pending c1 = pending c /\ delayed c1 = delayed c)
      (c0 ← change_channel p DisableAll (setState kDisconnected c);
       call_user p (sys_write a) (callbacks user) (connectionCallback_ c0) (NConnection false) c0))
      as Hp.
    { unfold change_channel. destruct (es_change _ _ _) as [r1|]; [|done].
      change (Ok ?x ≫= ?k) with (k x). cbv beta.
      eapply wp_mono; [by apply (call_user_still p (sys_write a) (callbacks user)
        (cbs_late user Huser))|]. by intros c1 [[_ -> _] ->]. }
    eapply wp_bind with (Q := fun c1 => inv (H0 := framed_laws r0 ch) p c1
      /\ state_ c1 = kDisconnected /\ (pending c1 = pending c /\ delayed c1 = delayed c)
      /\ life c1 = [NConnection true; NConnection false] /\ NClose ∉ notes c1).
    + eapply wp_mono; [apply wp_and; [exact Hd|exact Hp]|].
      intros c1 [(Hi1 & Hs1 & Hl1) [Hp1 He1]]. split_and!; [done..|]. intros Hn.
      assert (NClose ∈ life c1) as Hin by by apply list_elem_of_filter.
      rewrite Hl1 in Hin. set_solver.
    + intros c1 (Hi1 & Hs1 & (Hp1 & Hd1) & Hl1 & Hn1).
      destruct (remove_channel_gone r0 ch p c1 Hi1) as (r' & -> & Hf & Hx). simpl.
      by split_and!.
  - simpl. destruct (remove_channel_gone r0 ch p c Hi) as (r' & -> & Hf & Hx). simpl.
    by split_and!.
Qed.
End one.

(** ** The loop of the destructor *)

Section ending.
Context {K : Type} `{EpollKernelLaws K}.
Context (sys_write : addr -> nat -> bool -> bytes -> write_result).
Context (user : UserCb -> TcpConnection (Reactor K) -> list api).
Context (Hwrite : forall a, write_ok (sys_write a)) (Huser : well_behaved user).
Implicit Types (w : World K) (l a : addr) (o : Obj) (cs : list TcpServer.Conn).

(** The destructor starts in [w0], with nothing for its own loop to do. *)
Context (w0 : World K) (I : world_inv w0).
Context (Hact : active (loops w0 (base w0)) = []) (Htodo : todo (loops w0 (base w0)) = []).
Abbreviation b := (base w0).

(** The server hears of no more than what ~TcpServer sends. *)
Definition farewells (s : TcpServer.TcpServer) cs : TcpServer.TcpServer :=
  foldl (fun s c => TcpServer.send_task (TcpServer.c_loop c) (TcpServer.TDestroyed c) s) s cs.

(** The entries [cs] of the map are still to be destroyed. *)
Record ending cs w : Prop := {
  en_srv : farewells (srv w) cs = TcpServer.TcpServer_dtor (srv w0);
  en_base : base w = b;
  en_reactor : reactor_ok (reactor (loops w b));
  en_chans p c' : chans (reactor (loops w b)) !! p = Some c' ->
    exists c, chans (reactor (loops w0 b)) !! p = Some c /\ binding c' = binding c;
  en_own : active (loops w b) = [] /\ todo (loops w b) = [];
  en_other l : l <> b -> spared (loops w0 l) (loops w l) /\ reactor (loops w l) = reactor (loops w0 l);
  en_objs a o' : objs w !! a = Some o' -> exists o, objs w0 !! a = Some o
    /\ o_conn o' = o_conn o /\ o_chan o' = o_chan o;
  en_next a o : objs w0 !! a = Some o -> loop_of o <> b \/ o_conn o ∈ cs -> objs w !! a = Some o;
  en_left a o : objs w0 !! a = Some o -> loop_of o = b -> o_conn o ∈ cs ->
    chans (reactor (loops w b)) !! o_chan o = chans (reactor (loops w0 b)) !! o_chan o;
  en_gone a o : objs w0 !! a = Some o -> loop_of o = b -> o_conn o ∉ cs ->
    exists o', objs w !! a = Some o' /\ o_conn o' = o_conn o /\ o_chan o' = o_chan o
      /\ gone o' (reactor (loops w b)) /\ heard (o_tcp o) (o_tcp o');
  en_sent a o : objs w0 !! a = Some o -> loop_of o <> b -> NClose ∉ notes (o_tcp o) ->
    o_conn o ∉ cs -> Run a FConnectDestroyed ∈ queue (loops w (loop_of o));
}.

Lemma mapped_conn c :
  c ∈ map snd (map_to_list (TcpServer.connections_ (srv w0))) ->
  exists a o, objs w0 !! a = Some o /\ o_conn o = c.
Proof.
  intros ([n c'] & -> & Hin%elem_of_map_to_list)%list_elem_of_fmap. simpl.
  apply (TcpServer.s_map _ (wi_srv _ _ I)) in Hin as (_ & He & Hd).
  by apply (wi_conns _ _ I).
Qed.

(** A connection of the server that has not closed is in the map. *)
Lemma open_mapped a o :
  objs w0 !! a = Some o -> o_conn o ∉ map snd (map_to_list (TcpServer.connections_ (srv w0))) ->
  ~ removing w0 a -> NClose ∈ notes (o_tcp o).
Proof.
  intros Ho Hn Hr. pose proof (wi_objs _ _ I _ _ Ho) as Ow. apply (oo_map _ _ _ Ow).
  destruct (decide (NClose ∈ notes (o_tcp o))) as [Hin|Hin]; [by apply (oo_map _ _ _ Ow)|].
  exfalso. apply Hn, list_elem_of_fmap.
  exists (TcpServer.c_name (o_conn o), o_conn o). split; [done|].
  apply elem_of_map_to_list, (TcpServer.s_map _ (wi_srv _ _ I)). split_and!; [done|apply Ow|].
  intros Hd. apply Hin, (oo_map _ _ _ Ow). by left.
Qed.

Lemma not_removing_base a : ~ removing w0 a.
Proof. unfold removing. rewrite Htodo. apply not_elem_of_nil. Qed.

(** On its own loop a connection is open and in the map, or gone. *)
Lemma own_closed_gone a o :
  objs w0 !! a = Some o -> loop_of o = b -> NClose ∈ notes (o_tcp o) ->
  gone o (reactor (loops w0 b)) /\ state_ (o_tcp o) = kDisconnected.
Proof.
  intros Ho Hl Hn. pose proof (told_disconnected None _ _ _ I ltac:(done) Ho Hn) as Hs.
  split; [|done]. destruct (co_end _ _ _ (wi_inv _ _ I a o ltac:(done) Ho) Hn) as [Hr|[Hv|[Hg _]]].
  - by destruct (not_removing_base a).
  - unfold own_functors in Hv. rewrite Hl, Htodo in Hv. destruct Hv as ([|? ?] & ? & Hv & _); done.
  - by rewrite Hl in Hg.
Qed.

Lemma farewells_all (s : TcpServer.TcpServer) (l : list (bytes * TcpServer.Conn)) :
  farewells s (map snd l) = foldl (fun s (item : bytes * TcpServer.Conn) =>
    TcpServer.send_task (TcpServer.c_loop (item.2)) (TcpServer.TDestroyed (item.2)) s) s l.
Proof. revert s. induction l as [|x l IH]; intros s; [done|]. apply IH. Qed.

Lemma ending_start :
  ending (map snd (map_to_list (TcpServer.connections_ (srv w0))))
    (set_srv (TcpServer.set_connections ∅ (srv w0)) w0).
Proof.
  split; try done.
  - apply farewells_all.
  - apply I.
  - intros p c' Hc. by exists c'.
  - intros l _. split; [apply spared_refl|done].
  - intros a o' Ho. by exists o'.
  - intros a o Ho Hl Hn.
    assert (NClose ∈ notes (o_tcp o)) as Hc by (eapply open_mapped; [done..|apply not_removing_base]).
    destruct (own_closed_gone a o Ho Hl Hc) as [Hg Hs].
    exists o. split_and!; try done. split; [by rewrite Hs|done..].
  - intros a o Ho _ Hn Hm. destruct Hn. eapply open_mapped; [done..|apply not_removing_base].
Qed.

(** The object of a connection is found. *)
Lemma conn_addr_found cs w a o :
  ending cs w -> objs w0 !! a = Some o -> is_Some (objs w !! a) ->
  conn_addr (o_conn o) w = Some a.
Proof.
  intros E Ho [o' Ho']. unfold conn_addr.
  set (P := fun p : addr * Obj => o_conn p.2 = o_conn o).
  assert (forall q, q ∈ filter P (map_to_list (objs w)) -> q.1 = a) as Hall.
  { intros [a2 o2] [Hc Hin]%list_elem_of_filter. apply elem_of_map_to_list in Hin.
    destruct (en_objs _ _ E _ _ Hin) as (o3 & Ho3 & Hc3 & _). subst P. simpl in *.
    eapply one_conn; [exact I|done..|congruence]. }
  assert ((a, o') ∈ filter P (map_to_list (objs w))) as Hin.
  { apply list_elem_of_filter. rewrite elem_of_map_to_list. split; [|done].
    destruct (en_objs _ _ E _ _ Ho') as (o3 & Ho3 & Hc3 & _). subst P. simpl. congruence. }
  destruct (filter P (map_to_list (objs w))) as [|q l]; [by apply elem_of_nil in Hin|].
  simpl. f_equal. apply Hall. by left.
Qed.

(** An entry of another loop: connectDestroyed is queued there. *)
Lemma ending_sends c cs w a o :
  ending (c :: cs) w -> c ∉ cs -> objs w0 !! a = Some o -> o_conn o = c -> loop_of o <> b ->
  ending cs (enqueue (loop_of o) [Run a FConnectDestroyed]
    (set_srv (TcpServer.send_task (TcpServer.c_loop c) (TcpServer.TDestroyed c) (srv w)) w)).
Proof.
  intros [E0 E1 E2 E3 [E4 E4'] E5 E6 E7 E8 E9 E10] Hc Ho Hoc Hl. unfold todo in *.
  split; autorewrite with loops; cbn [reactor active batch queue]; try done.
  - rewrite decide_False, app_nil_r by done. by split.
  - intros l Hlb. autorewrite with loops. destruct (E5 l Hlb) as [[S1 S2 (q & S3) S4 S5] S6].
    split; [|done]. split; try done. simpl. rewrite S3, <- app_assoc. by eexists.
  - intros a' o' Ho' [?|?]; apply E7; [done|by left|done|right; by right].
  - intros a' o' Ho' Hl' ?. apply (E8 a'); [done..|]. by right.
  - intros a' o' Ho' Hl' Hn. apply (E9 a'); [done..|]. rewrite not_elem_of_cons. split; [|done].
    intros Heq. assert (a' = a) as -> by (eapply (one_conn None w0); [exact I|done..|congruence]).
    congruence.
  - intros a' o' Ho' Hl' Hn Hx. autorewrite with loops. cbn [queue]. rewrite elem_of_app.
    destruct (decide (o_conn o' = c)) as [Heq|Hne].
    + right. assert (a' = a) as -> by (eapply (one_conn None w0); [exact I|done..|congruence]).
      rewrite Ho in Ho'. injection Ho' as <-. rewrite decide_True by done. by left.
    + left. apply E10; [done..|]. by rewrite not_elem_of_cons.
Qed.

(** The connection of an entry of the server's own loop, as connectDestroyed finds it. *)
Lemma ending_inv c cs w a o :
  ending (c :: cs) w -> objs w0 !! a = Some o -> o_conn o = c -> loop_of o = b ->
  exists ch, chans (reactor (loops w b)) !! o_chan o = Some ch
    /\ inv (H0 := framed_laws (reactor (loops w b)) ch) (o_chan o)
         (unpark (reactor (loops w b)) (o_tcp o)).
Proof.
  intros E Ho Hc Hl. pose proof (wi_inv _ _ I a o ltac:(done) Ho) as [Hi Hst _].
  destruct (oo_chan _ _ _ (wi_objs _ _ I _ _ Ho)) as (ch & Hch & _). rewrite Hl in Hch, Hi.
  assert (chans (reactor (loops w b)) !! o_chan o = Some ch) as Hch'
    by (rewrite (en_left _ _ E a o); [done..|rewrite Hc; by left]).
  exists ch. split; [done|].
  assert (state_ (o_tcp o) <> kConnecting) as Hs.
  { intros Hs. destruct (Hst Hs) as (_ & _ & Hf). unfold own_functors in Hf.
    rewrite Hl, Htodo in Hf. done. }
  unfold at_rest in Hi. rewrite decide_False in Hi by done.
  assert (may_update (reactor (loops w b)) (o_chan o) ch) as Hm.
  { apply may_update_distinct; [apply E| |done]. intros q d Hd Hf.
    destruct (en_chans _ _ E _ _ Hd) as (d0 & Hd0 & Hb%binding_fd).
    eapply (wi_fds _ _ I b); [done..|congruence]. }
  eapply (inv_laws reactor_source_laws (framed_laws _ ch)).
  - eapply (inv_move _ (reactor (loops w b)) ch ch _ Hi); [done|done|done|apply E|done].
  - split; [apply E|]. split; [by exists ch|]. apply only_changes_refl.
Qed.

(** What connectDestroyed leaves of the world [w], on the server's own loop. *)
Definition ended a o (c' : TcpConnection (Reactor K)) w : World K :=
  enqueue (loop_of o) []
    (set_objs (<[a := mkObj (o_conn o) (o_chan o) (park c')]> (objs w))
       (set_reactor (loop_of o) (env c') w)).

Lemma ending_ends c cs w a o ch (c' : TcpConnection (Reactor K)) :
  ending (c :: cs) w -> c ∉ cs -> objs w0 !! a = Some o -> o_conn o = c -> loop_of o = b ->
  chans (reactor (loops w b)) !! o_chan o = Some ch ->
  framed (reactor (loops w b)) ch (o_chan o) (env c') ->
  (exists x, chans (env c') !! o_chan o = Some x /\ index_ x = kNew) ->
  heard (o_tcp o) c' ->
  ending cs (ended a o c'
    (set_srv (TcpServer.send_task (TcpServer.c_loop c) (TcpServer.TDestroyed c) (srv w)) w)).
Proof.
  intros [E0 E1 E2 E3 [E4 E4'] E5 E6 E7 E8 E9 E10] Hc Ho Hoc Hl Hch
    (Hr & (ch' & Hch' & _ & Hb) & [Hoth _]) (x & Hx & Hnew) Hs.
  assert (forall a' o', objs w0 !! a' = Some o' -> a' <> a -> loop_of o' = b -> o_chan o' <> o_chan o)
    as Hdist.
  { intros a' o' Ho' Hne Hl' Heq. apply Hne. eapply (one_owner None w0); [exact I|done..|congruence|done]. }
  assert (forall a' o', objs w0 !! a' = Some o' -> a' <> a -> o_conn o' <> c) as Hcd.
  { intros a' o' Ho' Hne Heq. apply Hne. eapply (one_conn None w0); [exact I|done..|congruence]. }
  unfold ended, todo in *. rewrite Hl.
  split; autorewrite with loops; cbn [reactor active batch queue]; rewrite ?decide_True by done;
    try done.
  - intros p d Hd. destruct (decide (p = o_chan o)) as [->|Hne].
    + destruct (E3 _ _ Hch) as (d0 & Hd0 & Hb0). exists d0. split; [done|]. congruence.
    + rewrite Hoth in Hd by done. by apply E3.
  - rewrite app_nil_r. by split.
  - intros l Hlb. autorewrite with loops. destruct (E5 l Hlb) as [S1 S2].
    rewrite !decide_False, app_nil_r by done. cbn [reactor]. split; [by destruct (loops w l)|done].
  - intros a' o' Ho'. simpl in Ho'.
    apply lookup_insert_Some in Ho' as [[<- <-]|[_ Ho']]; [by exists o|by apply E6].
  - intros a' o' Ho' Hx'. cbn [objs set_objs].
    assert (a' <> a) as Hne.
    { intros ->. rewrite Ho in Ho'. injection Ho' as <-. destruct Hx' as [?|?]; [done|congruence]. }
    simpl. rewrite lookup_insert_ne by done. apply E7; [done|].
    destruct Hx' as [?|?]; [by left|right; by right].
  - intros a' o' Ho' Hl' Hin. assert (a' <> a) as Hne.
    { intros ->. rewrite Ho in Ho'. injection Ho' as <-. congruence. }
    rewrite Hoth by by apply (Hdist a'). apply (E8 a'); [done..|by right].
  - intros a' o' Ho' Hl' Hn. simpl. destruct (decide (a' = a)) as [->|Hne].
    + rewrite Ho in Ho'. injection Ho' as <-. rewrite lookup_insert_eq.
      eexists. split; [done|]. split_and!; try done; [by exists x|by destruct Hs; split].
    + rewrite lookup_insert_ne by done. destruct (E9 a' o') as (o2 & Ho2 & Hc2 & Hh2 & (y & Hy & Hi) & Hs2);
        [done|done|by rewrite not_elem_of_cons; split; [apply (Hcd a')|]|].
      exists o2. split_and!; try done. exists y. rewrite Hh2 in Hy |- *.
      by rewrite Hoth by by apply (Hdist a').
  - intros a' o' Ho' Hl' Hn Hin. autorewrite with loops. cbn [queue]. rewrite elem_of_app. left.
    assert (a' <> a) as Hne by (intros ->; congruence).
    apply E10; [done..|]. rewrite not_elem_of_cons. split; [by apply (Hcd a')|done].
Qed.

Lemma destroy_conn_ends c cs w :
  ending (c :: cs) w -> c ∉ cs -> (exists a o, objs w0 !! a = Some o /\ o_conn o = c) ->
  wp overflow (ending cs) (destroy_conn sys_write user w c).
Proof.
  intros E Hc (a & o & Ho & Hoc). pose proof E as [_ E1 _ _ _ _ _ E7 _ _ _].
  assert (objs w !! a = Some o) as Ho1 by (apply E7; [done|right; rewrite Hoc; by left]).
  assert (conn_addr c w = Some a) as Ha
    by (rewrite <- Hoc; eapply conn_addr_found; [exact E|done|by exists o]).
  unfold destroy_conn. rewrite Ha. unfold runInLoop.
  set (w1 := set_srv _ w). assert (base w1 = b) as -> by exact E1.
  assert (TcpServer.c_loop c = loop_of o) as Hl by (unfold loop_of; by rewrite Hoc).
  destruct (Z.eqb_spec b (TcpServer.c_loop c)) as [Heq|Hne].
  - assert (loop_of o = b) as Hlb by congruence.
    destruct (ending_inv c cs w a o E Ho Hoc Hlb) as (ch & Hch & Hi).
    pose proof (connectDestroyed_ends sys_write user Hwrite Huser _ ch _ a _ Hi) as Hd.
    unfold conn_functor, exec_obj. change (objs w1 !! a) with (objs w !! a). rewrite Ho1.
    change (loops w1) with (loops w). rewrite Hlb.
    cbn [run_functor]. destruct (connectDestroyed _ _ _ _) as [c'|f]; [|done].
    change (Ok ?x ≫= ?k) with (k x). cbv beta.
    destruct Hd as (Hf & Hx & Hp & Hs & Hn).
    assert (told_closed c' && negb (told_closed (o_tcp o)) = false) as Htold.
    { unfold told_closed. apply andb_false_iff.
      destruct (decide (NClose ∈ notes c')) as [Hin|Hin]; [right|left].
      - apply negb_false_iff, bool_decide_eq_true. by apply Hn.
      - by apply bool_decide_eq_false. }
    unfold settle. rewrite Htold, Hp. apply (ending_ends c cs w a o ch c'); try done.
    by destruct Hs; split.
  - subst w1. simpl. rewrite Hl at 1. apply (ending_sends c cs w a o); congruence.
Qed.

Lemma destroy_all_ends cs w :
  ending cs w -> NoDup cs -> (forall c, c ∈ cs -> exists a o, objs w0 !! a = Some o /\ o_conn o = c) ->
  wp overflow (ending []) (mfold (destroy_conn sys_write user) w cs).
Proof.
  revert w. induction cs as [|c cs IH]; intros w E Hnd Hm; simpl; [done|].
  apply NoDup_cons in Hnd as [Hc Hnd].
  eapply wp_bind; [apply (destroy_conn_ends c cs); [done..|apply Hm; by left]|].
  intros w1 E1. apply IH; [done..|]. intros c1 Hc1. apply Hm. by right.
Qed.

Lemma mapped_nodup : NoDup (map snd (map_to_list (TcpServer.connections_ (srv w0)))).
Proof.
  apply NoDup_fmap_2_strong; [|apply NoDup_map_to_list].
  intros [n c] [n' c'] H1%elem_of_map_to_list H2%elem_of_map_to_list Heq. simpl in Heq. subst c'.
  apply (TcpServer.s_map _ (wi_srv _ _ I)) in H1 as [-> _].
  by apply (TcpServer.s_map _ (wi_srv _ _ I)) in H2 as [-> _].
Qed.

Lemma TcpServer_dtor_ends : wp overflow (ending []) (TcpServer_dtor sys_write user w0).
Proof.
  apply destroy_all_ends; [apply ending_start|apply mapped_nodup|apply mapped_conn].
Qed.
End ending.

(** ** The theorem *)


(** ** Concrete ends *)

(** One loop, with one connection on it. *)
Definition alone_world : World (gmap Z (Z * addr)) :=
  server_world demo_reactors
    (server_at 50 demo_addr (txt "echo") 0 0 (fun i _ => 1000 + i) false).

Lemma alone_legal :
  legal_run (fun _ => slow_write) 1%nat 2%nat None greet
    (server_world demo_reactors
       (server_at 50 demo_addr (txt "echo") 0 0 (fun i _ => 1000 + i) false)) demo_accept.
Proof. apply threads_runb_ok. vm_compute. reflexivity. Qed.


(** A connection with a forceCloseWithDelay pending survives ~TcpServer untold.  When the
    timer is due it queues forceCloseInLoop, which calls the close callback: that is
    removeConnection of the server that is gone.  (The channel, which connectDestroyed
    had taken out of the poller, is registered again on the way.) *)
Example delayed_close_after_server :
  let state w := (state_ ∘ o_tcp <$> objs w !! 500, notes ∘ o_tcp <$> objs w !! 500,
                  Poller.interest (kernel (reactor (loops w 50))) 7) in
  (w ← mfold demo_exec alone_world (demo_accept ++ [WCall 500 true AForceCloseWithDelay]);
   w1 ← ServerEnd.TcpServer_dtor (fun _ => slow_write) greet w;
   w2 ← conn_event (fun _ => slow_write) greet 500 EvTimer w1;
   w3 ← mfold demo_exec w2 [WSwap 50; WRun 50];
   Ok (state w1, queue (loops w2 50), state w3))
  = Ok ((Some kDisconnecting, Some [NConnection true], None),
        [Run 500 FForceCloseInLoop],
        (Some kDisconnected, Some [NConnection true; NConnection false; NClose], Some (0, 300))).
Proof. vm_compute. reflexivity. Qed.

(** With other loops the destructor's work is not enough: here the connection at 500
    hears of its peer's close before its loop comes to the connectDestroyed that
    ~TcpServer queued there, and sends removeConnectionInLoop of the destroyed server
    to the server's loop. *)
Example close_after_server :
  (w ← mfold demo_exec demo_world demo_open;
   w ← ServerEnd.TcpServer_dtor (fun _ => slow_write) greet w;
   w ← mfold demo_exec w
         [WPoll 1000 [(POLLIN, 300)] invalid; WDispatch 1000 (receives []) invalid];
   Ok (queue (loops w 1000), queue (loops w 50)))
  = Ok ([Run 500 FConnectDestroyed], [Remove 500]).
Proof. vm_compute. reflexivity. Qed.
