(* ===== verification/ServerFds.v ===== *)
(** The descriptors of a process that runs a server: [Acceptor] and the server on its
    loops ([ServerLoops]) over one table of open descriptors.

    A readable listening socket runs Acceptor::handleRead, whose callback is
    TcpServer::newConnection; the descriptor the kernel gave goes to the new
    connection, and is closed with it (~TcpConnection destroys its Socket).  The two
    files keep their own models; here they share the descriptors, so that what
    [ServerLoops] asks of accept(2), a descriptor no channel uses, is proved from what
    the kernel promises, a descriptor that is not open. *)

From stdpp Require Import functions.
From S2P Require Import Prelude Buffer TimeStamp Channel Poller TcpConnection Sockets.
From S2P Require Import ConnEffects ServerLoops ServerInv ServerOps ServerSafe ServerDispatch.
From S2P Require Import ServerRuns.
From S2P Require Acceptor.
From S2P Require EventLoopThreadPool.
From S2P Require TcpServer.

#[local] Existing Instance TcpServer.Conn_eq_dec.

(** The server's loops, and the Acceptor with the process's descriptors and errno (its
    reactor is the one of the server's loop, in [world]). *)
Record Process (K : Type) := mkProcess {
  world : World K;
  acc : Acceptor.Acceptor K;
}.
Arguments mkProcess {K}.
Arguments world {K} _.
Arguments acc {K} _.

(** The steps of [ServerLoops], except that the acceptor's event and the end of a
    connection concern the descriptors. *)
Inductive pstep :=
| PStep (e : step)
| PAccept (i : input) (now : TimeStamp)           (* handleRead, as [Acceptor.handleRead] *)
    (r again idle : accept_result) (leaves logs : Z -> Z)
    (a chan : addr)                               (* where the objects are allocated *)
| PRelease (a : addr).

Section process.
Context {K : Type} `{EpollKernel K}.
Context (sys_write : addr -> nat -> bool -> bytes -> write_result).
Context (conn_cb msg_cb : UserCb) (wc_cb : option UserCb).
Context (user : UserCb -> TcpConnection (Reactor K) -> list api).
Implicit Types (P : Process K) (w : World K).

Abbreviation exec := (exec_step sys_write conn_cb msg_cb wc_cb user).

(** The descriptor that handleRead gave to its callback, if it called it. *)
Definition handed_over (a a' : Acceptor.Acceptor K) : option Z :=
  head (drop (length (Acceptor.handed a)) (Acceptor.handed a')).

(** ~TcpConnection closes the descriptor with its Socket. *)
Definition close_conn (o : Obj) P : Process K :=
  mkProcess (world P) (Acceptor.close_fd (TcpServer.c_fd (o_conn o)) (acc P)).

(** (The callback runs before handleRead looks at errno; neither touches what the other
    changes, and the errno that the callback leaves is [leaves].) *)
Definition exec_pstep P (e : pstep) : outcome (Process K) :=
  match e with
  | PStep e => w ← exec (world P) e; Ok (mkProcess w (acc P))
  | PAccept i now r again idle leaves logs a chan =>
      acc' ← Acceptor.handleRead r again idle leaves logs (acc P);
      let new := (fun fd => (fd, a, chan)) <$> handed_over (acc P) acc' in
      w ← exec (world P)
            (WDispatch (base (world P)) (mkInput (in_read i) new (in_due i)) now);
      Ok (mkProcess w acc')
  | PRelease a =>
      match objs (world P) !! a with
      | Some o => w ← exec (world P) (WRelease a); Ok (close_conn o (mkProcess w (acc P)))
      | None => Fault FUseAfterFree
      end
  end.

(** An accept whose error sockets::accept does not expect: LOG_FATAL ends the process. *)
Definition stops (e : pstep) : bool :=
  match e with
  | PAccept _ _ (AcceptError n) _ _ _ _ _ _ => negb (bool_decide (n ∈ expected_errors))
  | _ => false
  end.

(** *** What may happen *)

(** The next channel to dispatch on the server's loop is the acceptor's, and it can be
    read. *)
Definition accepting w : Prop :=
  exists p ps c n, active (loops w (base w)) = p :: ps
    /\ chans (reactor (loops w (base w))) !! p = Some c
    /\ readCallback_ c = Some (CbAcceptorRead n) /\ reads c = true /\ tied_ c = false.

(** The contract of accept(2) and open(2): a new descriptor is not open, and an
    accepted one is a socket, which epoll can watch.  They may fail for any reason. *)
Definition new_fd (r : accept_result) (open_fds : gset Z) : Prop :=
  match r with
  | Accepted fd => 0 <= fd /\ fd ∉ open_fds
  | AcceptError _ => True
  end.

Definition plus_fd (r : accept_result) (open_fds : gset Z) : gset Z :=
  match r with Accepted fd => {[fd]} ∪ open_fds | AcceptError _ => open_fds end.

Definition kernel_answers (r again idle : accept_result) (a : Acceptor.Acceptor K) : Prop :=
  let fds1 := plus_fd r (Acceptor.fds a) in
  let fds2 := fds1 ∖ {[Acceptor.idleFd_ a]} in
  new_fd r (Acceptor.fds a) /\ new_fd again fds2 /\ new_fd idle fds2
  /\ forall fd, r = Accepted fd -> watchable K fd = true.

Definition legal_pstep P (e : pstep) : Prop :=
  match e with
  | PStep (WRelease _) => False
  | PStep (WDispatch l i now) =>
      legal_step (world P) (WDispatch l i now) /\ in_accept i = None
      /\ (l = base (world P) -> ~ accepting (world P))
  | PStep e => legal_step (world P) e
  | PAccept i now r again idle leaves logs a chan =>
      accepting (world P) /\ batch (loops (world P) (base (world P))) = []
      /\ kernel_answers r again idle (acc P)
      /\ objs (world P) !! a = None
      /\ forall l p, EventLoopThreadPool.getNextLoop (TcpServer.threadPool_ (srv (world P))) = Ok (l, p) ->
           chans (reactor (loops (world P) l)) !! chan = None
  | PRelease a => legal_step (world P) (WRelease a)
  end.

Fixpoint legal_prun P (es : list pstep) : Prop :=
  match es with
  | [] => True
  | e :: es => legal_pstep P e /\ forall P', exec_pstep P e = Ok P' -> legal_prun P' es
  end.
End process.

(** ** Who owns which connection *)

Section owners.
Context {K : Type} `{EpollKernelLaws K}.
Context (sys_write : addr -> nat -> bool -> bytes -> write_result).
Context (conn_cb msg_cb : UserCb) (wc_cb : option UserCb).
Context (user : UserCb -> TcpConnection (Reactor K) -> list api).
Implicit Types (w : World K) (a l : addr) (o : Obj).

Abbreviation exec := (exec_step sys_write conn_cb msg_cb wc_cb user).

(** The live objects, by what the server knows of them. *)
Definition owners w : gmap addr TcpServer.Conn := o_conn <$> objs w.

Definition keeps_owners w (m : outcome (World K)) : Prop :=
  wp any_fault (fun w' => owners w' = owners w) m.

Lemma removal_owners a w : keeps_owners w (removeConnectionInLoop a w).
Proof. unfold removeConnectionInLoop. by destruct (objs w !! a). Qed.

Lemma settle_owners a o c w :
  objs w !! a = Some o -> keeps_owners w (settle a o c w).
Proof.
  intros Ho. unfold settle. set (w1 := enqueue _ _ _).
  assert (owners w1 = owners w) as Hw.
  { unfold owners. subst w1. simpl. rewrite fmap_insert. simpl.
    apply insert_id. by rewrite lookup_fmap, Ho. }
  destruct (_ && _); [|exact Hw]. unfold removeConnection, runInLoop.
  destruct (_ =? _); [|exact Hw]. eapply wp_mono; [apply removal_owners|].
  intros w' ->. exact Hw.
Qed.

Lemma exec_obj_owners a m w : keeps_owners w (exec_obj a m w).
Proof.
  unfold exec_obj. destruct (objs w !! a) as [o|] eqn:Ho; [|done].
  destruct (m _ _) as [c|]; [|done]. by apply settle_owners.
Qed.

Lemma timers_owners l due w : keeps_owners w (mfold (fire_timer sys_write user l) w due).
Proof.
  apply (wp_mfold any_fault (fun _ w' => owners w' = owners w)); [done|].
  intros a _ w1 Hw1. unfold fire_timer. destruct (objs w1 !! a); [|done].
  destruct (_ && _); [|done]. eapply wp_mono; [apply exec_obj_owners|]. by intros w' ->.
Qed.

Lemma invoke_owners l i cb w :
  in_accept i = None -> keeps_owners w (invoke sys_write conn_cb msg_cb wc_cb user l i cb w).
Proof.
  intros Hi. destruct cb; simpl; try apply exec_obj_owners; try done.
  - apply timers_owners.
  - by rewrite Hi.
Qed.

(** newConnection adds the new object, and no other. *)
Lemma newConnection_owners l fd a chan w :
  TcpServer.server_inv (srv w) ->
  wp any_fault (fun w' => exists conn, TcpServer.c_fd conn = fd
      /\ owners w' = <[a := conn]> (owners w))
    (newConnection sys_write conn_cb msg_cb wc_cb user l fd a chan w).
Proof.
  intros Is. unfold newConnection.
  eapply wp_bind; [eapply wp_fault; [by apply newConnection_result|done]|].
  intros s (_ & _ & l' & p & conn & _ & -> & Hfd & _).
  set (w1 := set_objs _ _).
  assert (owners w1 = <[a := conn]> (owners w)) as Hw by (unfold owners; simpl; by rewrite fmap_insert).
  unfold runInLoop. destruct (_ =? _); [|by exists conn].
  eapply wp_mono; [apply exec_obj_owners|]. intros w' ->. by exists conn.
Qed.

Abbreviation store := (loop_store sys_write conn_cb msg_cb wc_cb user).

(** The dispatch of a channel, when nothing is accepted. *)
Lemma dispatch_owners l i now w p :
  in_accept i = None -> keeps_owners w (@handleEvent _ (store l i) p now w).
Proof.
  intros Hi. assert (keeps_owners w (@handleEventWithGuard _ (store l i) p now w)) as Hg.
  { unfold handleEventWithGuard, modify, load. simpl.
    destruct (chans (reactor (loops w l)) !! p) as [c|]; [|done]. simpl.
    set (w1 := set_reactor l _ w). assert (owners w1 = owners w) as H1 by done.
    match goal with |- context [match ?x with Some _ => _ | None => Fault FUseAfterFree end] =>
      destruct x as [c1|]; [|done] end. simpl.
    eapply wp_bind with (Q := fun w2 => owners w2 = owners w).
    { destruct (to_bool _); [|done]. destruct (readCallback_ c1); [|done].
      eapply wp_mono; [by apply invoke_owners|]. by intros w2 ->. }
    intros w2 H2. destruct (chans (reactor (loops w2 l)) !! p) as [c2|]; [|done]. simpl.
    eapply wp_bind with (Q := fun w3 => owners w3 = owners w).
    { destruct (to_bool _); [|done]. destruct (writeCallback_ c2); [|done].
      eapply wp_mono; [by apply invoke_owners|]. by intros w3 ->. }
    intros w3 H3. by destruct (chans (reactor (loops w3 l)) !! p). }
  unfold handleEvent, load. simpl. destruct (chans (reactor (loops w l)) !! p) as [c|]; [|done].
  simpl. destruct (tied_ c); [|exact Hg]. destruct (tie_ c); [|done].
  by destruct (bool_decide _).
Qed.

(** Every step but the end of a connection, when nothing is accepted. *)
Lemma step_owners w e :
  match e with
  | WDispatch _ i _ => in_accept i = None
  | WRelease _ => False
  | _ => True
  end -> keeps_owners w (exec w e).
Proof.
  destruct e as [l evs now|l i now|l|l|a in_loop call|a|a f|a]; intros He; try done;
    unfold exec_step.
  - by destruct (Poll (EpollEvents evs) now [] (reactor (loops w l))) as [[[t ps] r]|].
  - destruct (active (loops w l)) as [|p ps]; [done|].
    eapply wp_mono; [by apply dispatch_owners|]. by intros w' ->.
  - destruct (batch (loops w l)) as [|[b f|b] q]; [done|..].
    + eapply wp_mono; [apply exec_obj_owners|]. by intros w' ->.
    + eapply wp_mono; [apply removal_owners|]. by intros w' ->.
  - apply exec_obj_owners.
  - apply exec_obj_owners.
  - apply exec_obj_owners.
Qed.

Context {own_fds : LoopFds} (Hwrite : forall a, write_ok (sys_write a)) (Huser : well_behaved user).

(** The acceptor's channel has no write callback. *)
Lemma accepting_system w p c n :
  world_inv w -> chans (reactor (loops w (base w))) !! p = Some c ->
  readCallback_ c = Some (CbAcceptorRead n) -> writeCallback_ c = None.
Proof.
  intros I Hc Hr. destruct (owner_cases w (base w) p c I Hc) as [(a & o & _ & _ & _ & Hr' & _)|(_ & ? & _)];
    [congruence|done].
Qed.

(** The dispatch of the acceptor's channel, with a descriptor for newConnection. *)
Lemma accept_guard w p c n i fd a chan now :
  world_inv w -> chans (reactor (loops w (base w))) !! p = Some c ->
  readCallback_ c = Some (CbAcceptorRead n) -> reads c = true ->
  in_accept i = Some (fd, a, chan) -> fresh fd a chan w ->
  wp world_fault (fun w' => exists conn, TcpServer.c_fd conn = fd
      /\ owners w' = <[a := conn]> (owners w))
    (@handleEventWithGuard _ (store (base w) i) p now w).
Proof.
  intros I Hc Hr Hrd Hi Hf. unfold handleEventWithGuard, modify, load. simpl. rewrite Hc. simpl.
  destruct (put_handling true w (base w) p c I Hc) as [I1 E1].
  pose proof (fresh_handling true fd a chan w (base w) p c Hc Hf) as Hf1.
  set (w1 := set_reactor (base w) _ w) in *. set (c1 := with_eventHandling true c).
  assert (chans (reactor (loops w1 (base w))) !! p = Some c1) as Hc1.
  { subst w1. autorewrite with loops. simpl. rewrite decide_True by done. apply lookup_insert_eq. }
  match goal with |- context [match ?x with Some _ => _ | None => Fault FUseAfterFree end] =>
    change x with (chans (reactor (loops w1 (base w))) !! p) end.
  rewrite Hc1. simpl. unfold reads in Hrd. rewrite Hrd. unfold Channel.call. rewrite Hr. simpl. rewrite Hi.
  pose proof (newConnection_safe sys_write conn_cb msg_cb wc_cb user Hwrite Huser w1 fd a chan I1 Hf1) as Hn1.
  pose proof (newConnection_owners (base w) fd a chan w1 (wi_srv _ _ I1)) as Hn2.
  eapply wp_bind; [apply wp_and; [exact Hn1|exact Hn2]|].
  intros w2 [[I2 E2] (conn & Hfd & Hw2)].
  destruct (ex_chans _ _ _ E2 _ _ Hc1) as (c2 & Hc2 & Hb).
  change (base w1) with (base w) in Hc2. rewrite Hc2. simpl.
  assert (writeCallback_ c2 = None) as ->.
  { pose proof (accepting_system w p c n I Hc Hr). unfold binding in Hb. simpl in Hb. congruence. }
  assert ((if to_bool (Z.land (revents_ c2) POLLOUT) then Ok w2 else Ok w2) = Ok w2) as ->
    by by destruct (to_bool (Z.land (revents_ c2) POLLOUT)).
  simpl. rewrite Hc2. simpl. by exists conn.
Qed.

Lemma accept_owners w p ps c n i fd a chan now :
  world_inv w -> active (loops w (base w)) = p :: ps ->
  chans (reactor (loops w (base w))) !! p = Some c ->
  readCallback_ c = Some (CbAcceptorRead n) -> reads c = true -> tied_ c = false ->
  in_accept i = Some (fd, a, chan) -> fresh fd a chan w ->
  wp world_fault (fun w' => exists conn, TcpServer.c_fd conn = fd
      /\ owners w' = <[a := conn]> (owners w)) (exec w (WDispatch (base w) i now)).
Proof.
  intros I Ha Hc Hr Hrd Ht Hi Hf. unfold exec_step. rewrite Ha.
  set (w0 := set_active (base w) ps w).
  pose proof (wi_nodup _ _ I (base w)) as Hnd. rewrite Ha in Hnd. apply NoDup_cons in Hnd as [Hp Hnd].
  assert (world_inv w0) as I0.
  { apply set_active_ok; [done|done|]. intros q Hq. apply (wi_active _ _ I). rewrite Ha. by right. }
  assert (chans (reactor (loops w0 (base w))) !! p = Some c) as Hc0
    by by subst w0; autorewrite with loops.
  assert (fresh fd a chan w0) as Hf0.
  { destruct Hf as (Hf1 & Hw & Hf2). split; [done|]. split; [done|]. intros l q Hn. subst w0. autorewrite with loops.
    by apply (Hf2 l q). }
  unfold handleEvent, load.
  change (@cs_get _ (store (base w) i) p w0) with (chans (reactor (loops w0 (base w))) !! p).
  rewrite Hc0. change (Ok ?x ≫= ?k) with (k x). cbv beta. rewrite Ht.
  by apply (accept_guard w0 p c n i fd a chan now).
Qed.
End owners.

(** ** The descriptors *)

Section handleRead.
Context {K : Type} `{EpollKernel K}.
Implicit Types (a : Acceptor.Acceptor K).

(** close(2), whether or not the descriptor was open. *)
Lemma close_fd_fds fd a : Acceptor.fds (Acceptor.close_fd fd a) = Acceptor.fds a ∖ {[fd]}.
Proof.
  unfold Acceptor.close_fd. case_decide; [done|]. simpl. symmetry. by apply difference_disjoint_L, disjoint_singleton_r.
Qed.

Definition idle_of (r : accept_result) : Z :=
  match r with Accepted fd => fd | AcceptError _ => -1 end.

(** What the acceptor is left with: the idle descriptor it had, or, after the trick, a
    new one. *)
Definition left_with (r idle : accept_result) a a' : Prop :=
  (Acceptor.idleFd_ a' = Acceptor.idleFd_ a /\ Acceptor.fds a' = plus_fd r (Acceptor.fds a))
  \/ (Acceptor.idleFd_ a' = idle_of idle
      /\ Acceptor.fds a' = plus_fd idle (plus_fd r (Acceptor.fds a) ∖ {[Acceptor.idleFd_ a]})).

Definition given (r : accept_result) : option Z :=
  match r with Accepted fd => if 0 <? fd then Some fd else None | AcceptError _ => None end.

Lemma use_idle_fds again idle a :
  new_fd again (Acceptor.fds a ∖ {[Acceptor.idleFd_ a]}) ->
  (forall fd, fd ∈ Acceptor.fds a -> 0 <= fd) ->
  let a' := Acceptor.use_idle again idle a in
  Acceptor.handed a' = Acceptor.handed a
  /\ Acceptor.newConnectionCallback_ a' = Acceptor.newConnectionCallback_ a
  /\ Acceptor.idleFd_ a' = idle_of idle
  /\ Acceptor.fds a' = plus_fd idle (Acceptor.fds a ∖ {[Acceptor.idleFd_ a]}).
Proof.
  intros Ha Hpos. cbv zeta. unfold Acceptor.use_idle.
  pose proof (close_fd_fds (Acceptor.idleFd_ a) a) as E1.
  assert (Acceptor.handed (Acceptor.close_fd (Acceptor.idleFd_ a) a) = Acceptor.handed a
    /\ Acceptor.newConnectionCallback_ (Acceptor.close_fd (Acceptor.idleFd_ a) a)
       = Acceptor.newConnectionCallback_ a) as [E2 E3]
    by (unfold Acceptor.close_fd; by case_decide).
  set (a1 := Acceptor.close_fd _ a) in *. clearbody a1.
  destruct (Acceptor.got_fd again a1) as [fd a2] eqn:E.
  assert (Acceptor.fds (Acceptor.close_fd fd (Acceptor.set_idle fd a2)) = Acceptor.fds a1) as E4.
  { rewrite close_fd_fds. destruct again as [f|e]; simpl in E; injection E as <- <-; simpl.
    - destruct Ha as [_ Ha]. rewrite E1. apply leibniz_equiv. set_solver.
    - apply difference_disjoint_L, disjoint_singleton_r. rewrite E1.
      intros [Hin _]%elem_of_difference. apply Hpos in Hin. lia. }
  assert (Acceptor.handed a2 = Acceptor.handed a1
    /\ Acceptor.newConnectionCallback_ a2 = Acceptor.newConnectionCallback_ a1) as [F2 F3]
    by (destruct again; simpl in E; by injection E as <- <-).
  assert (Acceptor.handed (Acceptor.close_fd fd (Acceptor.set_idle fd a2)) = Acceptor.handed a2
    /\ Acceptor.newConnectionCallback_ (Acceptor.close_fd fd (Acceptor.set_idle fd a2))
       = Acceptor.newConnectionCallback_ a2) as [G2 G3]
    by (unfold Acceptor.close_fd; by case_decide).
  set (a3 := Acceptor.close_fd fd _) in *. clearbody a3.
  rewrite <- E1, <- E4. destruct idle; simpl; split_and!; congruence.
Qed.

Lemma handleRead_fds r again idle leaves logs a :
  kernel_answers r again idle a ->
  match r with AcceptError e => e ∈ expected_errors | Accepted _ => True end ->
  Acceptor.newConnectionCallback_ a = true ->
  (forall fd, fd ∈ Acceptor.fds a -> 0 <= fd) ->
  exists a', Acceptor.handleRead r again idle leaves logs a = Ok a'
    /\ Acceptor.newConnectionCallback_ a' = true
    /\ handed_over a a' = given r /\ left_with r idle a a'.
Proof.
  intros (Hr & Hag & _) Hexp Hcb Hpos. unfold Acceptor.handleRead.
  set (connfd := match r with Accepted fd => fd | AcceptError _ => -1 end).
  assert (exists e, accept r (Acceptor.errno a) = Ok (connfd, e)) as [e ->].
  { destruct r as [fd|e]; simpl in *; [by eexists|]. rewrite bool_decide_eq_true_2 by done.
    by eexists. }
  change (Ok ?x ≫= ?k) with (k x). cbv beta iota zeta.
  set (a1 := Acceptor.set_errno e _).
  assert (Acceptor.fds a1 = plus_fd r (Acceptor.fds a)
    /\ Acceptor.handed a1 = Acceptor.handed a /\ Acceptor.idleFd_ a1 = Acceptor.idleFd_ a
    /\ Acceptor.newConnectionCallback_ a1 = true) as (A1 & A2 & A3 & A4) by by destruct r.
  clearbody a1. set (a2 := if 0 <? connfd then _ else _).
  assert (Acceptor.fds a2 = plus_fd r (Acceptor.fds a)
    /\ Acceptor.handed a2 = Acceptor.handed a ++ option_list (given r)
    /\ Acceptor.idleFd_ a2 = Acceptor.idleFd_ a
    /\ Acceptor.newConnectionCallback_ a2 = true) as (B1 & B2 & B3 & B4).
  { subst a2 connfd. rewrite A4. unfold given. destruct r as [fd|?]; simpl.
    - destruct (0 <? fd); simpl; rewrite ?A2, ?app_nil_r; by split_and!.
    - rewrite A2, app_nil_r. by split_and!. }
  clearbody a2.
  assert (forall a', Acceptor.handed a' = Acceptor.handed a2 -> handed_over a a' = given r) as Hh.
  { intros a' E. unfold handed_over. rewrite E, B2, drop_app_length. by destruct (given r). }
  destruct (Acceptor.errno a2 =? EMFILE).
  - destruct (use_idle_fds again idle a2) as (C1 & C2 & C3 & C4); [by rewrite B1, B3| |].
    + rewrite B1. destruct r as [fd|?]; simpl in *; [|done].
      intros fd' [->%elem_of_singleton|?]%elem_of_union; [by destruct Hr|by apply Hpos].
    + eexists. split; [done|]. split; [congruence|]. split; [by apply Hh|]. right.
      rewrite C3, C4, B1, B3. done.
  - eexists. split; [done|]. split; [done|]. split; [by apply Hh|]. by left.
Qed.
End handleRead.

(** [own]: the descriptors that the loops' own channels and the rest of the process
    keep. *)
Definition kept (own : gset Z) : LoopFds := fun fd => fd ∈ own.

Section process_laws.
Context {K : Type} `{EpollKernelLaws K}.
Context (sys_write : addr -> nat -> bool -> bytes -> write_result).
Context (conn_cb msg_cb : UserCb) (wc_cb : option UserCb).
Context (user : UserCb -> TcpConnection (Reactor K) -> list api).
Context (Hwrite : forall a, write_ok (sys_write a)) (Huser : well_behaved user).
Context (own : gset Z).
#[local] Instance kept_fds : LoopFds := kept own.
Implicit Types (P : Process K) (w : World K) (a l : addr).

Abbreviation exec := (exec_step sys_write conn_cb msg_cb wc_cb user).
Abbreviation pexec := (exec_pstep sys_write conn_cb msg_cb wc_cb user).

(** Each open descriptor other than 0 has one owner. *)
Record fds_ok (cs : gmap addr TcpServer.Conn) (idle : Z) (fds : gset Z) : Prop := {
  fo_nonneg fd : fd ∈ fds -> 0 <= fd;
  fo_own fd : fd ∈ own -> fd ∈ fds;
  fo_conn a c : cs !! a = Some c -> 0 < TcpServer.c_fd c /\ TcpServer.c_fd c ∈ fds
    /\ (TcpServer.c_fd c ∉ own) /\ TcpServer.c_fd c <> idle;
  fo_distinct a b c d : cs !! a = Some c -> cs !! b = Some d ->
    TcpServer.c_fd c = TcpServer.c_fd d -> a = b;
  fo_idle : idle = -1 \/ idle ∈ fds;
  fo_idle_own : idle ∉ own;
  fo_owned fd : fd ∈ fds ->
    fd = 0 \/ fd ∈ own \/ fd = idle \/ exists a c, cs !! a = Some c /\ TcpServer.c_fd c = fd;
}.

Lemma fds_ok_add cs idle fds fd a c :
  fds_ok cs idle fds -> 0 < fd -> fd ∉ fds -> cs !! a = None -> TcpServer.c_fd c = fd ->
  fds_ok (<[a := c]> cs) idle ({[fd]} ∪ fds).
Proof.
  intros [O1 O2 O3 O4 O5 O6 O7] Hpos Hnew Ha Hc. subst fd. split.
  - intros fd [->%elem_of_singleton|?]%elem_of_union; [lia|by apply O1].
  - intros fd ?. apply elem_of_union_r. by apply O2.
  - intros b d [[<- <-]|[_ Hb]]%lookup_insert_Some.
    + split; [done|]. split; [by apply elem_of_union_l, elem_of_singleton|].
      split; [by intros ?%O2|]. intros E. destruct O5; [lia|congruence].
    + destruct (O3 _ _ Hb) as (? & ? & ? & ?). split_and!; [done| |done..].
      by apply elem_of_union_r.
  - intros b1 b2 c1 c2 [[<- <-]|[_ H1]]%lookup_insert_Some [[<- <-]|[_ H2]]%lookup_insert_Some Hf;
      [done| | |by eapply O4].
    + destruct Hnew. rewrite Hf. by apply (O3 _ _ H2).
    + destruct Hnew. rewrite <- Hf. by apply (O3 _ _ H1).
  - destruct O5; [by left|right; by apply elem_of_union_r].
  - done.
  - intros fd [->%elem_of_singleton|Hin]%elem_of_union.
    + do 3 right. exists a, c. by rewrite lookup_insert_eq.
    + destruct (O7 fd Hin) as [?|[?|[?|(b & d & Hb & Hd)]]]; [tauto..|]. do 3 right. exists b, d.
      rewrite lookup_insert_ne; [done|]. intros <-. congruence.
Qed.

(** Descriptor 0, which handleRead gives to nobody. *)
Lemma fds_ok_zero cs idle fds :
  fds_ok cs idle fds -> fds_ok cs idle ({[0]} ∪ fds).
Proof.
  intros [O1 O2 O3 O4 O5 O6 O7]. split; [| | |done| |done|].
  - intros fd [->%elem_of_singleton|?]%elem_of_union; [lia|by apply O1].
  - intros fd ?. apply elem_of_union_r. by apply O2.
  - intros b d Hb. destruct (O3 _ _ Hb) as (? & ? & ? & ?). split_and!; [done| |done..].
    by apply elem_of_union_r.
  - destruct O5; [by left|right; by apply elem_of_union_r].
  - intros fd [->%elem_of_singleton|Hin]%elem_of_union; [by left|by apply O7].
Qed.

(** The trick leaves another idle descriptor, or none. *)
Lemma fds_ok_idle cs idle fds r :
  fds_ok cs idle fds -> new_fd r (fds ∖ {[idle]}) ->
  fds_ok cs (idle_of r) (plus_fd r (fds ∖ {[idle]})).
Proof.
  intros [O1 O2 O3 O4 O5 O6 O7] Hr.
  assert (forall fd, fd ∈ fds ∖ {[idle]} -> fd ∈ plus_fd r (fds ∖ {[idle]})) as Hsub
    by (intros fd ?; destruct r; simpl; [by apply elem_of_union_r|done]).
  assert (forall fd, fd ∈ own -> fd ∈ fds ∖ {[idle]}) as Hown.
  { intros fd Hin. apply elem_of_difference. split; [by apply O2|].
    intros ->%elem_of_singleton. done. }
  assert (forall a c, cs !! a = Some c -> TcpServer.c_fd c ∈ fds ∖ {[idle]}) as Hcs.
  { intros a c Hc. destruct (O3 _ _ Hc) as (? & ? & ? & ?). apply elem_of_difference.
    split; [done|]. by intros ?%elem_of_singleton. }
  assert (forall fd, fd ∈ fds ∖ {[idle]} -> 0 <= fd /\ fd <> idle_of r) as Hne.
  { intros fd Hin. pose proof Hin as [?%O1 _]%elem_of_difference. split; [done|].
    intros ->. destruct r as [f|?]; simpl in *; [tauto|lia]. }
  split.
  - intros fd Hin. destruct r as [f|?]; simpl in *; [|by apply Hne].
    apply elem_of_union in Hin as [->%elem_of_singleton|Hin]; [tauto|by apply Hne].
  - intros fd ?. by apply Hsub, Hown.
  - intros a c Hc. destruct (O3 _ _ Hc) as (? & ? & ? & ?). pose proof (Hcs _ _ Hc) as Hin.
    split; [done|]. split; [by apply Hsub|]. split; [done|]. by apply Hne.
  - done.
  - destruct r; simpl; [right; by apply elem_of_union_l, elem_of_singleton|by left].
  - intros Hin%Hown%Hne. tauto.
  - intros fd Hin. assert (fd = idle_of r \/ fd ∈ fds ∖ {[idle]}) as [->|Hold].
    { destruct r; simpl in *; [|by right].
      apply elem_of_union in Hin as [?%elem_of_singleton|?]; [by left|by right]. }
    + by right; right; left.
    + apply elem_of_difference in Hold as [Hin' Hn]. rewrite elem_of_singleton in Hn.
      destruct (O7 fd Hin') as [?|[?|[?|?]]]; tauto.
Qed.

Lemma fds_ok_close cs idle fds a c :
  fds_ok cs idle fds -> cs !! a = Some c ->
  fds_ok (delete a cs) idle (fds ∖ {[TcpServer.c_fd c]}).
Proof.
  intros [O1 O2 O3 O4 O5 O6 O7] Hc. destruct (O3 _ _ Hc) as (Hp & Hin & Hno & Hni).
  assert (forall fd, fd ∈ fds -> fd <> TcpServer.c_fd c -> fd ∈ fds ∖ {[TcpServer.c_fd c]}) as Hk.
  { intros fd ? ?. apply elem_of_difference. split; [done|]. by intros ?%elem_of_singleton. }
  split.
  - intros fd [? _]%elem_of_difference. by apply O1.
  - intros fd Ho. apply Hk; [by apply O2|congruence].
  - intros b d [Hne Hb]%lookup_delete_Some. destruct (O3 _ _ Hb) as (? & ? & ? & ?).
    split_and!; [done| |done..]. apply Hk; [done|]. intros E. by eapply Hne, eq_sym, O4.
  - intros b1 b2 c1 c2 [_ H1]%lookup_delete_Some [_ H2]%lookup_delete_Some. by eapply O4.
  - destruct O5; [by left|right; by apply Hk].
  - done.
  - intros fd [Hf Hn]%elem_of_difference. rewrite elem_of_singleton in Hn.
    destruct (O7 fd Hf) as [?|[?|[?|(b & d & Hb & Hd)]]]; [tauto..|]. do 3 right. exists b, d.
    split; [|done]. apply lookup_delete_Some. split; [|done]. intros <-. congruence.
Qed.

Record process_ok P : Prop := {
  po_world : world_inv (world P);
  po_fds : fds_ok (owners (world P)) (Acceptor.idleFd_ (acc P)) (Acceptor.fds (acc P));
  po_callback : Acceptor.newConnectionCallback_ (acc P) = true;
}.

(** A descriptor that is not open is no channel's. *)
Lemma process_fresh P fd a chan :
  process_ok P -> fd ∉ Acceptor.fds (acc P) -> watchable K fd = true ->
  objs (world P) !! a = None ->
  (forall l p, EventLoopThreadPool.getNextLoop (TcpServer.threadPool_ (srv (world P))) = Ok (l, p) ->
     chans (reactor (loops (world P) l)) !! chan = None) ->
  fresh fd a chan (world P).
Proof.
  intros [I O _] Hnew Hw Ha Hch. split; [done|]. split; [done|]. intros l p Hn. split; [by eapply Hch|].
  intros q c Hc Hf. apply Hnew. subst fd.
  destruct (wi_chans _ _ I _ _ _ Hc) as [(b & o & Ho & Hl & Hp)|(Hown & _)].
  - destruct (oo_chan _ _ _ (wi_objs _ _ I _ _ Ho)) as (d & Hd & Hfd & _).
    subst l q. rewrite Hd in Hc. injection Hc as ->. rewrite Hfd.
    apply (fo_conn _ _ _ O b). unfold owners. by rewrite lookup_fmap, Ho.
  - by apply (fo_own _ _ _ O).
Qed.

(** A step of the process is a step of [ServerLoops], and keeps the descriptors right. *)
Definition simulated P e e' : Prop :=
  legal_step (world P) e' /\ world <$> pexec P e = exec (world P) e'
  /\ wp world_fault process_ok (pexec P e).

Lemma simulated_by P e e' (f : World K -> Process K) :
  process_ok P -> legal_step (world P) e' ->
  pexec P e = (w ← exec (world P) e'; Ok (f w)) -> (forall w, world (f w) = w) ->
  Acceptor.newConnectionCallback_ (acc (f (world P))) = true ->
  (forall w, acc (f w) = acc (f (world P))) ->
  wp world_fault (fun w => fds_ok (owners w) (Acceptor.idleFd_ (acc (f w))) (Acceptor.fds (acc (f w))))
    (exec (world P) e') ->
  simulated P e e'.
Proof.
  intros [I _ _] Hl Hex Hf Hcb Hacc Hfds. split; [done|]. rewrite Hex.
  pose proof (exec_step_safe sys_write conn_cb msg_cb wc_cb user Hwrite Huser (world P) e' I Hl) as Hs.
  destruct (exec (world P) e') as [w|flt]; [|done]. simpl in *.
  split; [by rewrite Hf|]. split; rewrite ?Hf; [by destruct Hs|done|]. by rewrite Hacc.
Qed.

Lemma wp_any {A} (E : fault -> Prop) (Q R : A -> Prop) m :
  wp E (fun _ => True) m -> wp any_fault Q m -> (forall x, Q x -> R x) -> wp E R m.
Proof. destruct m; simpl; auto. Qed.

Lemma exec_faults w e : world_inv w -> legal_step w e -> wp world_fault (fun _ => True) (exec w e).
Proof. intros I Hl. eapply wp_mono; [by apply exec_step_safe|done]. Qed.

Lemma step_simulated P e :
  process_ok P -> legal_pstep P (PStep e) -> simulated P (PStep e) e.
Proof.
  intros Pok Hl.
  assert (legal_step (world P) e /\ match e with WDispatch _ i _ => in_accept i = None
                                    | WRelease _ => False | _ => True end) as [Hl' He]
    by (destruct e; simpl in *; tauto).
  pose proof Pok as [I O Hcb].
  apply (simulated_by P _ e (fun w => mkProcess w (acc P))); try done. simpl.
  eapply wp_any; [by apply exec_faults|by apply step_owners|]. by intros w ->.
Qed.

Lemma release_simulated P a :
  process_ok P -> legal_pstep P (PRelease a) -> simulated P (PRelease a) (WRelease a).
Proof.
  intros Pok Hl. pose proof Hl as (o & Ho & _). pose proof Pok as [I O Hcb].
  apply (simulated_by P _ _ (fun w => close_conn o (mkProcess w (acc P)))); try done.
  - unfold exec_pstep. by rewrite Ho.
  - simpl. unfold Acceptor.close_fd. by case_decide.
  - unfold exec_step. rewrite Ho. simpl.
    assert (Acceptor.idleFd_ (Acceptor.close_fd (TcpServer.c_fd (o_conn o)) (acc P))
      = Acceptor.idleFd_ (acc P)) as -> by (unfold Acceptor.close_fd; by case_decide).
    rewrite close_fd_fds. unfold owners. simpl. rewrite fmap_delete.
    apply fds_ok_close; [done|]. unfold owners. by rewrite lookup_fmap, Ho.
Qed.

Lemma fds_ok_left cs r idle (a a' : Acceptor.Acceptor K) :
  fds_ok cs (Acceptor.idleFd_ a) (plus_fd r (Acceptor.fds a)) ->
  new_fd idle (plus_fd r (Acceptor.fds a) ∖ {[Acceptor.idleFd_ a]}) ->
  left_with r idle a a' -> fds_ok cs (Acceptor.idleFd_ a') (Acceptor.fds a').
Proof. intros O Hi [[-> ->]|[-> ->]]; [done|by apply fds_ok_idle]. Qed.

(** handleRead's dispatch: the input of the step of [ServerLoops]. *)
Definition accepted_input (i : input) (r : accept_result) (a chan : addr) : input :=
  mkInput (in_read i) ((fun fd => (fd, a, chan)) <$> given r) (in_due i).

Lemma accept_legal P i now r again idle leaves logs a chan :
  process_ok P -> legal_pstep P (PAccept i now r again idle leaves logs a chan) ->
  legal_step (world P) (WDispatch (base (world P)) (accepted_input i r a chan) now).
Proof.
  intros Pok ((p & ps & c & n & Hact & Hc & Hr & _) & Hb & (Hnew & _ & _ & Hwatch) & Ha & Hch).
  pose proof Pok as [I _ _]. split; [done|]. split.
  - intros b o Ho Hl Hh. rewrite Hact in Hh. injection Hh as ->.
    destruct (oo_chan _ _ _ (wi_objs _ _ I _ _ Ho)) as (d & Hd & _ & Hrd & _).
    rewrite Hl, Hc in Hd. congruence.
  - intros fd a' chan' He. unfold accepted_input, given in He. simpl in He.
    destruct r as [fd'|?]; [|done]. destruct (0 <? fd'); [|done]. simpl in He. simplify_eq.
    apply process_fresh; [done|by destruct Hnew|by apply Hwatch|done..].
Qed.

Lemma accept_fds P i now r again idle leaves logs a chan :
  process_ok P -> legal_pstep P (PAccept i now r again idle leaves logs a chan) ->
  wp world_fault
    (fun w => fds_ok (owners w) (Acceptor.idleFd_ (acc P)) (plus_fd r (Acceptor.fds (acc P))))
    (exec (world P) (WDispatch (base (world P)) (accepted_input i r a chan) now)).
Proof.
  intros Pok Hl. pose proof (accept_legal P i now r again idle leaves logs a chan Pok Hl) as Hl'.
  destruct Hl as ((p & ps & c & n & Hact & Hc & Hr & Hrd & Ht) & Hb & (Hnew & _) & Ha & Hch).
  pose proof Pok as [I O _]. destruct (given r) as [fd|] eqn:Hg.
  - assert (r = Accepted fd /\ 0 < fd) as [-> Hpos].
    { unfold given in Hg. destruct r as [fd'|?]; [|done].
      destruct (Z.ltb_spec 0 fd'); [|done]. by simplify_eq. }
    assert (in_accept (accepted_input i (Accepted fd) a chan) = Some (fd, a, chan)) as Hi
      by (unfold accepted_input; simpl in *; by rewrite Hg).
    eapply wp_mono; [eapply accept_owners; try done; by apply Hl'|].
    intros w' (conn & Hconn & ->). apply fds_ok_add; try done; [by destruct Hnew|].
    unfold owners. by rewrite lookup_fmap, Ha.
  - eapply wp_any; [by apply exec_faults|apply step_owners; simpl; by rewrite Hg|].
    intros w ->. destruct r as [fd|?]; [|done]. simpl in *.
    assert (fd = 0) as -> by (destruct (Z.ltb_spec 0 fd); [done|lia]). by apply fds_ok_zero.
Qed.

Lemma accept_simulated P i now r again idle leaves logs a chan :
  process_ok P -> legal_pstep P (PAccept i now r again idle leaves logs a chan) ->
  stops (PAccept i now r again idle leaves logs a chan) = false ->
  simulated P (PAccept i now r again idle leaves logs a chan)
    (WDispatch (base (world P)) (accepted_input i r a chan) now).
Proof.
  intros Pok Hl Hstop. pose proof Pok as [I O Hcb].
  pose proof (accept_legal P i now r again idle leaves logs a chan Pok Hl) as Hl'.
  pose proof (accept_fds P i now r again idle leaves logs a chan Pok Hl) as Hf.
  destruct Hl as (_ & _ & Hk & _).
  destruct (handleRead_fds r again idle leaves logs (acc P) Hk)
    as (acc' & Hread & Hcb' & Hh & Hleft); [|done|by apply O|].
  { destruct r as [|e]; [done|]. simpl in Hstop. by apply negb_false_iff, bool_decide_eq_true in Hstop. }
  apply (simulated_by P _ _ (fun w => mkProcess w acc')); try done.
  - unfold exec_pstep. rewrite Hread. change (Ok ?x ≫= ?k) with (k x). cbv beta zeta.
    by rewrite Hh.
  - eapply wp_mono; [exact Hf|]. intros w Ow. simpl.
    eapply fds_ok_left; [exact Ow|apply Hk|done].
Qed.

Lemma pstep_simulated P e :
  process_ok P -> legal_pstep P e -> stops e = false -> exists e', simulated P e e'.
Proof.
  intros Pok Hl Hs. destruct e as [e|i now r again idle leaves logs a chan|a].
  - exists e. by apply step_simulated.
  - eexists. by apply accept_simulated.
  - eexists. by apply release_simulated.
Qed.

Lemma stops_aborts P e : stops e = true -> pexec P e = Fault FAbort.
Proof.
  destruct e as [|i now [|n] again idle leaves logs a chan|]; try done. simpl.
  intros Hn%negb_true_iff. unfold Acceptor.handleRead, accept. by rewrite Hn.
Qed.

(** The run [es] from [P] ends at an accept that stops the process, with [P1] before
    it. *)
Definition stopped P es P1 : Prop :=
  exists es1 e es2, es = es1 ++ e :: es2 /\ stops e = true /\ mfold pexec P es1 = Ok P1
    /\ mfold pexec P es = Fault FAbort.

Lemma stopped_cons P e P' es P1 :
  pexec P e = Ok P' -> stopped P' es P1 -> stopped P (e :: es) P1.
Proof.
  intros He (es1 & e1 & es2 & -> & Hs & H1 & H2). exists (e :: es1), e1, es2.
  cbn [mfold app]. by rewrite He.
Qed.

Lemma prun_simulated es P :
  process_ok P -> legal_prun sys_write conn_cb msg_cb wc_cb user P es ->
  wp (fun f => world_fault f \/ f = FAbort /\ existsb stops es = true) process_ok (mfold pexec P es)
  /\ exists es', legal_run sys_write conn_cb msg_cb wc_cb user (world P) es'
       /\ (world <$> mfold pexec P es = mfold exec (world P) es'
           \/ exists P1, stopped P es P1 /\ mfold exec (world P) es' = Ok (world P1)).
Proof.
  revert P. induction es as [|e es IH]; intros P Pok Hl; [split; [done|by exists []; split; [|left]]|].
  destruct Hl as [He Hl]. destruct (stops e) eqn:Hs.
  { pose proof (stops_aborts P e Hs) as Hx. cbn [mfold existsb]. rewrite Hx, Hs. split; [by right|].
    exists []. split; [done|]. right. exists P. split; [|done].
    exists [], e, es. cbn [mfold app]. by rewrite Hx. }
  destruct (pstep_simulated P e Pok He Hs) as (e' & He' & Heq & Hok).
  cbn [mfold existsb]. rewrite Hs. simpl orb.
  destruct (pexec P e) as [P'|f] eqn:E; simpl in Heq.
  - destruct (IH P' Hok (Hl P' eq_refl)) as (Hw & es' & Hl' & Hes). split; [done|].
    exists (e' :: es'). split.
    + split; [done|]. intros w'. rewrite <- Heq. by intros [= <-].
    + cbn [mfold]. rewrite <- Heq. destruct Hes as [Hes|(P1 & Hst & Hes)]; [by left|right].
      exists P1. split; [by eapply stopped_cons|done].
  - split; [by left|]. exists [e']. split.
    + split; [done|]. intros w'. by rewrite <- Heq.
    + left. cbn [mfold]. by rewrite <- Heq.
Qed.
End process_laws.

(** ** The theorems *)

(** The process when its server starts: [own] is what is open, and Acceptor's
    constructor opens its idle descriptor. *)
Definition process_at {K} `{EpollKernel K} (rs : addr -> Reactor K) (s : TcpServer.TcpServer)
    (own : gset Z) (this channel fd : Z) (idle : accept_result) (errno0 : Z) : Process K :=
  mkProcess (server_world rs s)
    (Acceptor.setNewConnectionCallback
       (Acceptor.Acceptor_ctor this channel fd idle own errno0 (rs (TcpServer.loop_ s)))).

Section claims.
Context {K : Type} `{EpollKernelLaws K}.
Context (sys_write : addr -> nat -> bool -> bytes -> write_result).
Context (conn_cb msg_cb : UserCb) (wc_cb : option UserCb).
Context (user : UserCb -> TcpConnection (Reactor K) -> list api).

Abbreviation pexec := (exec_pstep sys_write conn_cb msg_cb wc_cb user).
Abbreviation plegal := (legal_prun sys_write conn_cb msg_cb wc_cb user).

Lemma process_at_ok (rs : addr -> Reactor K) loop listenAddr nameArg garbage n startLoop cb
    own this channel fd idle errno0 :
  system_reactors (own_fds := kept own) loop rs -> 0 <= Sockets.sin_port listenAddr < 65536 ->
  (forall fd, fd ∈ own -> 0 <= fd) -> new_fd idle own ->
  process_ok own (process_at rs (server_at loop listenAddr nameArg garbage n startLoop cb)
                    own this channel fd idle errno0).
Proof.
  intros Hr Hp Hown Hidle. split; [by apply (server_world_inv (own_fds := kept own))| |].
  - assert (owners (world (process_at rs (server_at loop listenAddr nameArg garbage n startLoop cb)
      own this channel fd idle errno0)) = ∅) as -> by (unfold owners; simpl; apply fmap_empty).
    assert (fds_ok own ∅ (-1) own) as Hno.
    { split; try done; [by left|intros ?%Hown; lia|by right; left]. }
    pose proof (fds_ok_idle own ∅ (-1) own idle Hno) as Hi.
    assert (own ∖ {[-1]} = own) as Hsame.
    { apply difference_disjoint_L, disjoint_singleton_r. intros ?%Hown. lia. }
    rewrite Hsame in Hi. specialize (Hi Hidle). by destruct idle.
  - by destruct idle.
Qed.

(** C7. The acceptor and the server on its loops, over the descriptors of the process,
    are the server on its loops: whatever accept(2) and open(2) answer, each run of
    the process projects to a run of [ServerLoops] that is legal there and ends in the
    same state or fault; but for a run that meets an accept whose error sockets::accept
    does not expect (ENFILE, ENOBUFS, ENOMEM and others), where LOG_FATAL ends the
    process, and which is such a run up to there.  A new descriptor being not open, and one that epoll can watch, is
    enough for it to be new to every channel, also after Acceptor's trick with the idle
    descriptor and after connections have closed theirs; so what the theorems of
    [ServerRuns] say of the server holds of the process. *)
Theorem process_refines (rs : addr -> Reactor K) loop listenAddr nameArg garbage n startLoop cb
    own this channel fd idle errno0 es
    (Hwrite : forall a, write_ok (sys_write a)) (Huser : well_behaved user)
    (Hr : system_reactors (own_fds := kept own) loop rs)
    (Hport : 0 <= Sockets.sin_port listenAddr < 65536)
    (Hown : forall fd, fd ∈ own -> 0 <= fd) (Hidle : new_fd idle own)
    (Hl : plegal (process_at rs (server_at loop listenAddr nameArg garbage n startLoop cb)
                    own this channel fd idle errno0) es) :
  exists es',
    legal_run sys_write conn_cb msg_cb wc_cb user
      (server_world rs (server_at loop listenAddr nameArg garbage n startLoop cb)) es'
    /\ let P0 := process_at rs (server_at loop listenAddr nameArg garbage n startLoop cb)
                   own this channel fd idle errno0 in
       let run' := mfold (exec_step sys_write conn_cb msg_cb wc_cb user)
           (server_world rs (server_at loop listenAddr nameArg garbage n startLoop cb)) es' in
       world <$> mfold pexec P0 es = run'
       \/ exists es1 e es2 P1, es = es1 ++ e :: es2 /\ stops e = true
            /\ mfold pexec P0 es1 = Ok P1 /\ mfold pexec P0 es = Fault FAbort
            /\ run' = Ok (world P1).
Proof.
  destruct (prun_simulated sys_write conn_cb msg_cb wc_cb user Hwrite Huser own es _
    ltac:(by apply process_at_ok) Hl) as (_ & es' & Hl' & Hes).
  exists es'. split; [done|]. destruct Hes as [Hes|(P1 & (es1 & e & es2 & H1 & H2 & H3 & H4) & Hes)];
    [by left|right]. by exists es1, e, es2, P1.
Qed.

(** C8. Descriptors have owners.  In any run of the process each open descriptor but 0
    belongs to the loops and the rest of the process, or is the acceptor's idle one,
    or is that of exactly one live connection; and what they own is open.  So
    ~TcpConnection closes its own descriptor and no one else's, once, and the only
    descriptor that can leak is 0, when accept(2) returns it.  (The run may also end with
    one of [server_safe]'s faults, or abort, but that only at an accept whose error sockets::accept
    does not expect.) *)
Theorem descriptors_owned (rs : addr -> Reactor K) loop listenAddr nameArg garbage n startLoop cb
    own this channel fd idle errno0 es
    (Hwrite : forall a, write_ok (sys_write a)) (Huser : well_behaved user)
    (Hr : system_reactors (own_fds := kept own) loop rs)
    (Hport : 0 <= Sockets.sin_port listenAddr < 65536)
    (Hown : forall fd, fd ∈ own -> 0 <= fd) (Hidle : new_fd idle own)
    (Hl : plegal (process_at rs (server_at loop listenAddr nameArg garbage n startLoop cb)
                    own this channel fd idle errno0) es) :
  wp (fun f => world_fault f \/ f = FAbort /\ existsb stops es = true) (fun P =>
      (forall f, 0 < f -> (f ∈ Acceptor.fds (acc P) <->
         f ∈ own \/ f = Acceptor.idleFd_ (acc P)
         \/ exists a o, objs (world P) !! a = Some o /\ TcpServer.c_fd (o_conn o) = f))
      /\ (Acceptor.idleFd_ (acc P) ∉ own)
      /\ (forall a o, objs (world P) !! a = Some o ->
            0 < TcpServer.c_fd (o_conn o) /\ (TcpServer.c_fd (o_conn o) ∉ own)
            /\ TcpServer.c_fd (o_conn o) <> Acceptor.idleFd_ (acc P))
      /\ (forall a b o o', objs (world P) !! a = Some o -> objs (world P) !! b = Some o' ->
            TcpServer.c_fd (o_conn o) = TcpServer.c_fd (o_conn o') -> a = b))
    (mfold pexec (process_at rs (server_at loop listenAddr nameArg garbage n startLoop cb)
                    own this channel fd idle errno0) es).
Proof.
  eapply wp_mono; [apply (prun_simulated sys_write conn_cb msg_cb wc_cb user Hwrite Huser own es _
    ltac:(by apply process_at_ok) Hl)|].
  intros P [_ O _].
  assert (forall a o, objs (world P) !! a = Some o -> owners (world P) !! a = Some (o_conn o)) as Hc
    by (intros a o Ho; unfold owners; by rewrite lookup_fmap, Ho).
  split_and!.
  - intros f Hf. split.
    + intros [->|[?|[?|(a & c & Ha & Hfd)]]]%(fo_owned _ _ _ _ O); [lia|tauto..|].
      do 2 right. unfold owners in Ha. apply lookup_fmap_Some in Ha as (o & <- & Ho). by exists a, o.
    + intros [?|[->|(a & o & Ho & <-)]].
      * by apply (fo_own _ _ _ _ O).
      * destruct (fo_idle _ _ _ _ O); [lia|done].
      * by apply (fo_conn _ _ _ _ O a), Hc.
  - apply O.
  - intros a o Ho. destruct (fo_conn _ _ _ _ O _ _ (Hc _ _ Ho)) as (? & _ & ? & ?). done.
  - intros a b o o' Ho Ho'. apply (fo_distinct _ _ _ _ O); by apply Hc.
Qed.
End claims.

(** ** A concrete run *)

(** [legal_prun] as a test. *)
Section legal_test.
Context {K : Type} `{EpollKernel K}.
Context (sys_write : addr -> nat -> bool -> bytes -> write_result).
Context (conn_cb msg_cb : UserCb) (wc_cb : option UserCb).
Context (user : UserCb -> TcpConnection (Reactor K) -> list api).
Implicit Types (P : Process K) (w : World K).

Definition acceptingb w : bool :=
  match active (loops w (base w)) with
  | p :: _ =>
      match chans (reactor (loops w (base w))) !! p with
      | Some c =>
          match readCallback_ c with
          | Some (CbAcceptorRead _) => reads c && negb (tied_ c)
          | _ => false
          end
      | None => false
      end
  | [] => false
  end.

Lemma acceptingb_ok w : acceptingb w = true <-> accepting w.
Proof.
  unfold acceptingb, accepting. split.
  - destruct (active _) as [|p ps]; [done|]. destruct (chans _ !! p) as [c|] eqn:Hc; [|done].
    destruct (readCallback_ c) as [[]|] eqn:Hr; try done.
    intros [Hrd Ht%negb_true_iff]%andb_true_iff. by eexists p, ps, c, _.
  - intros (p & ps & c & n & -> & -> & -> & -> & ->). done.
Qed.

Definition new_fdb (r : accept_result) (open_fds : gset Z) : bool :=
  match r with
  | Accepted fd => (0 <=? fd) && bool_decide (fd ∉ open_fds)
  | AcceptError _ => true
  end.

Lemma new_fdb_ok r s : new_fdb r s = true -> new_fd r s.
Proof.
  destruct r; simpl; [|done].
  rewrite andb_true_iff. intros [? ?%bool_decide_eq_true]. split; lia || done.
Qed.

Definition legal_pstepb P (e : pstep) : bool :=
  match e with
  | PStep (WRelease _) => false
  | PStep (WDispatch l i now) =>
      legal_stepb (world P) (WDispatch l i now) && bool_decide (in_accept i = None)
      && (negb (l =? base (world P)) || negb (acceptingb (world P)))
  | PStep e => legal_stepb (world P) e
  | PAccept i now r again idle leaves logs a chan =>
      let fds1 := plus_fd r (Acceptor.fds (acc P)) in
      let fds2 := fds1 ∖ {[Acceptor.idleFd_ (acc P)]} in
      acceptingb (world P) && bool_decide (batch (loops (world P) (base (world P))) = [])
      && (new_fdb r (Acceptor.fds (acc P)) && new_fdb again fds2 && new_fdb idle fds2)
      && match r with Accepted fd => watchable K fd | AcceptError _ => true end
      && free_placesb (-1) a chan (world P)
  | PRelease a => legal_stepb (world P) (WRelease a)
  end.

Lemma legal_pstepb_ok P e : legal_pstepb P e = true -> legal_pstep P e.
Proof.
  destruct e as [e|i now r again idle leaves logs a chan|a]; [|..|by apply legal_stepb_ok].
  - destruct e as [l evs now|l i now|l|l|a in_loop call|a|a f|a];
      try (intros Hb; exact (legal_stepb_ok _ _ Hb)); [|done].
    unfold legal_pstepb. rewrite !andb_true_iff, orb_true_iff, !negb_true_iff, bool_decide_eq_true.
    intros [[Hl Hi] Hn]. split; [by apply legal_stepb_ok|]. split; [done|].
    intros -> ?%acceptingb_ok. rewrite Z.eqb_refl in Hn. destruct Hn; congruence.
  - unfold legal_pstepb. rewrite !andb_true_iff, bool_decide_eq_true.
    intros [[[[? Hb] [[? ?] ?]] Hw] [Ha Hf]%free_placesb_ok].
    split; [by apply acceptingb_ok|]. split; [done|].
    split; [split_and!; [by apply new_fdb_ok..|by intros fd ->]|]. split; [done|].
    intros l p Hn. by apply (Hf l p).
Qed.

Fixpoint legal_prunb P (es : list pstep) : bool :=
  match es with
  | [] => true
  | e :: es => legal_pstepb P e
      && match exec_pstep sys_write conn_cb msg_cb wc_cb user P e with
         | Ok P' => legal_prunb P' es
         | Fault _ => true
         end
  end.

Lemma legal_prunb_ok es P :
  legal_prunb P es = true -> legal_prun sys_write conn_cb msg_cb wc_cb user P es.
Proof.
  revert P. induction es as [|e es IH]; intros P; simpl; [done|].
  rewrite andb_true_iff. intros [He Hes]. split; [by apply legal_pstepb_ok|].
  intros P' HP. rewrite HP in Hes. by apply IH.
Qed.
End legal_test.

(** The echo server of [ServerRuns], with one loop: descriptors 0..4 are the process's
    (4 listens), 5 is idle. *)
Definition demo_own : gset Z := {[0; 1; 2; 3; 4]}.

Definition demo_process : Process (gmap Z (Z * addr)) :=
  process_at demo_reactors (server_at 50 demo_addr (txt "echo") 0 0 (fun i _ => 1000 + i) false)
    demo_own 70 100 4 (Accepted 5) 0.

(** One connection gets descriptor 6; the next accept fails for want of descriptors, so
    that 5 makes room and is opened again; the first connection is closed by its peer
    and destroyed, and a third gets its descriptor.  errno is still EMFILE then: a
    fourth is taken and dropped. *)
Definition demo_accepting (r again idle : accept_result) (a chan : addr) : list pstep :=
  [PStep (WPoll 50 [(POLLIN, 100)] invalid); PAccept nothing invalid r again idle (fun e => e) (fun e => e) a chan].

Definition demo_psteps : list pstep :=
  demo_accepting (Accepted 6) (AcceptError EAGAIN) (AcceptError EAGAIN) 500 300
  ++ demo_accepting (AcceptError EMFILE) (Accepted 5) (Accepted 5) 501 301
  ++ [PStep (WPoll 50 [(POLLIN, 300)] invalid); PStep (WDispatch 50 (receives []) invalid);
      PStep (WSwap 50); PStep (WRun 50); PRelease 500]
  ++ demo_accepting (Accepted 6) (Accepted 5) (Accepted 7) 500 300.

Abbreviation demo_pexec := (exec_pstep (fun _ => slow_write) 1%nat 2%nat None greet).

Lemma demo_plegal :
  legal_prun (fun _ => slow_write) 1%nat 2%nat None greet
    (process_at demo_reactors (server_at 50 demo_addr (txt "echo") 0 0 (fun i _ => 1000 + i) false)
       demo_own 70 100 4 (Accepted 5) 0) demo_psteps.
Proof. apply legal_prunb_ok. vm_compute. reflexivity. Qed.

Lemma demo_own_ok : (forall fd, fd ∈ demo_own -> 0 <= fd) /\ new_fd (Accepted 5) demo_own.
Proof. split; [intros fd; unfold demo_own; set_solver by lia|split; [lia|]]. by vm_compute. Qed.

Lemma demo_own_reactors : system_reactors (own_fds := kept demo_own) 50 demo_reactors.
Proof. apply demo_reactors_at. by vm_compute. Qed.

Lemma process_refines_witness :
  exists es' P, legal_run (fun _ => slow_write) 1%nat 2%nat None greet (world demo_process) es'
    /\ mfold demo_pexec demo_process demo_psteps = Ok P
    /\ mfold demo_exec (world demo_process) es' = Ok (world P).
Proof.
  destruct (process_refines (fun _ => slow_write) 1%nat 2%nat None greet demo_reactors 50
    demo_addr (txt "echo") 0 0 (fun i _ => 1000 + i) false demo_own 70 100 4 (Accepted 5) 0
    demo_psteps (fun _ => slow_write_ok) greet_ok demo_own_reactors
    ltac:(vm_compute; split; congruence) (proj1 demo_own_ok) (proj2 demo_own_ok) demo_plegal)
    as (es' & Hl & He).
  assert (is_ok (mfold demo_pexec demo_process demo_psteps) = true) as Hx
    by (vm_compute; reflexivity).
  fold demo_process in He. cbv zeta in He.
  destruct (mfold demo_pexec demo_process demo_psteps) as [P|f]; [|discriminate Hx].
  destruct He as [He|(es1 & e & es2 & P1 & _ & _ & _ & Hf & _)]; [|discriminate Hf].
  exists es', P. split; [exact Hl|]. split; [reflexivity|]. symmetry. exact He.
Defined.

Lemma descriptors_owned_witness :
  exists P o, mfold demo_pexec demo_process demo_psteps = Ok P
    /\ objs (world P) !! 500 = Some o /\ TcpServer.c_fd (o_conn o) = 6
    /\ Acceptor.idleFd_ (acc P) = 7
    /\ (forall a o', objs (world P) !! a = Some o' -> TcpServer.c_fd (o_conn o') = 6 -> a = 500)
    /\ (5 ∉ Acceptor.fds (acc P)).
Proof.
  pose proof (descriptors_owned (fun _ => slow_write) 1%nat 2%nat None greet demo_reactors 50
    demo_addr (txt "echo") 0 0 (fun i _ => 1000 + i) false demo_own 70 100 4 (Accepted 5) 0
    demo_psteps (fun _ => slow_write_ok) greet_ok demo_own_reactors
    ltac:(vm_compute; split; congruence) (proj1 demo_own_ok) (proj2 demo_own_ok) demo_plegal)
    as Hw.
  fold demo_process in Hw.
  assert ((fun P => ((fun o => TcpServer.c_fd (o_conn o)) <$> objs (world P) !! 500,
                     Acceptor.idleFd_ (acc P), bool_decide (5 ∈ Acceptor.fds (acc P))))
    <$> mfold demo_pexec demo_process demo_psteps = Ok (Some 6, 7, false)) as Hx
    by (vm_compute; reflexivity).
  destruct (mfold demo_pexec demo_process demo_psteps) as [P|f]; [|discriminate Hx].
  simpl in Hx. destruct (objs (world P) !! 500) as [o|] eqn:Ho; [|discriminate Hx].
  injection Hx as Hfd Hi H5. destruct Hw as (_ & _ & _ & Hd).
  exists P, o. split; [reflexivity|]. split; [exact Ho|]. split; [exact Hfd|]. split; [exact Hi|].
  split; [|by apply bool_decide_eq_false in H5].
  intros a o' Ho' Hfd'. apply (Hd a 500 o' o Ho' Ho). by rewrite Hfd', Hfd.
Defined.

(** The kernel is out of file structures. *)
Example enfile_ends_the_process :
  let es := demo_accepting (Accepted 6) (AcceptError EAGAIN) (AcceptError EAGAIN) 500 300
    ++ demo_accepting (AcceptError 23) (AcceptError EAGAIN) (AcceptError EAGAIN) 501 301 in
  legal_prunb (fun _ => slow_write) 1%nat 2%nat None greet demo_process es = true
  /\ mfold demo_pexec demo_process es = Fault FAbort.
Proof. split; vm_compute; reflexivity. Qed.
